(* ===== verification/_CoqProject ===== *)
-Q . S2P
Prelude.v
Bytes.v
Proto.v
External.v
Evm.v
Float.v
Instances.v
Standards.v
ProtoBuild.v
ProtoBuildTheory.v
Contract.v
ContractTheory.v
Types.v
Signatures.v
Valset.v
ValsetTheory.v
Batches.v
LogicCall.v
EthEvents.v
EthEventsTheory.v
Messages.v
Acceptance.v
ContractRun.v
Effects.v
Host.v
Config.v
ConfigTheory.v
FractionTheory.v
CosmosSend.v
Queries.v
Connection.v
Args.v
Submit.v
Client.v
SubmitTheory.v
CosmosTheory.v
Join.v
UnitTests.v
UnitTestTheory.v
UnitTestRun.v
ConnectionTheory.v
Relayer.v
RelayerSearch.v
RelayerTheory.v
RelayerRun.v
Oracle.v
Orchestrator.v
Nabt.v
OracleTheory.v
OrchestratorTheory.v
NabtTheory.v
ClientTheory.v
OrchestratorRun.v
Background.v
TestUtils.v
HappyPath.v
Scenarios.v
TestRunner.v
TestTheory.v
ScenarioTheory.v
RelayerLive.v
SignerLive.v
NabtRun.v
EventFlow.v
Relayed.v
FlowRun.v
OracleLive.v
TestRun.v
