(* ===== verification/Prelude.v ===== *)
(** * Verification of the NEAR-Aurora bridge tools

    The Rust programs of src/orchestrator (the orchestrator, the relayer and the command line tool
    [nabt]) and the contract they serve, src/solidity/contracts/Gravity.sol. The Cosmos chain keeps a
    validator set, batches of transfers and logic calls; validators sign them ([orchestrator]'s
    signer); anyone may carry them, with enough signatures, to the contract ([relayer]); what the
    contract then does it reports as numbered events, which validators claim on the chain
    ([orchestrator]'s oracle).

    ** How the code is modelled

    A pure function is a function into [eval] (Prelude.v: a value, or a panic with its message) or
    [result]; an [async] function is an interaction tree whose events are the calls that leave the
    program (Effects.v), and a [loop] is [ITree.iter], with no bound. [tokio::join!], [try_join] and
    [for_each_concurrent] are schedulers over trees (Join.v, [concurrent] of Effects.v): the futures
    interleave at their awaits in any way. A machine integer is a [Z] with its overflow written out;
    whether it panics or wraps is the [Build], an argument. A [f32] or [f64] is an IEEE 754 datum,
    with the Standard Library's operations (Float.v). Messages of errors keep their format string.
    Code that is not in the repository is a parameter: [clarity], [num256], [deep_space], [web30] and
    [tonic] are the class [Ext] of External.v, with its documented behaviour in [ExtLaws]; [url], [toml]
    and the key parsers are [Tools] and [ToolsLaws] (Host.v); [keccak256], [ecrecover] and
    [abi.encode] are [Evm] and [EvmLaws] (Evm.v); prost, tonic, regex and walkdir are [BuildTools]
    (ProtoBuild.v). Instances.v and NabtRun.v give concrete ones that satisfy every law, so that the
    model runs; Standards.v has Keccak-256 and the contract ABI themselves, and UnitTestRun.v an
    instance that follows them.

    ** The files, by the code they model

    - Prelude.v, Bytes.v: [Result], panics, [Option], checked arithmetic, iterators, tactics; slices,
      big-endian words, decimal and UTF-8 text.
    - Proto.v: gravity_proto/src/prost/nab.v1.rs, the messages that are read or built.
    - Types.v, Signatures.v, Valset.v, Batches.v, LogicCall.v, EthEvents.v: gravity_utils/src/error.rs,
      types.rs and types/*.rs, one file each.
    - Messages.v: ethereum_gravity/src/message_signatures.rs, the payload encoders and utils.rs.
    - Submit.v: the rest of ethereum_gravity: valset_update.rs, submit_batch.rs, logic_call.rs,
      deploy_erc20.rs, send_to_cosmos.rs.
    - CosmosSend.v, Queries.v: cosmos_gravity/src, and gravity_utils/src/get_with_retry.rs.
    - Relayer.v: relayer/src. Oracle.v, Orchestrator.v: orchestrator/src.
    - Connection.v: gravity_utils/src/connection_prep.rs.
    - Args.v, Config.v, Client.v, Nabt.v: nabt/src.
    - Contract.v: solidity/contracts/Gravity.sol. A transaction is a function on the storage and the
      events emitted; the tokens and logic contracts it calls are replies given from outside.
    - UnitTests.v: the [#[test]] functions of the library crates.
    - TestUtils.v, HappyPath.v, Scenarios.v, TestRunner.v: test_runner/src, the integration tests; the
      orchestrators they spawn run beside them under any schedule (Background.v).
    - ProtoBuild.v: proto_build/src/main.rs, on a disk that may refuse any call.

    ** What the theorems show

    - What is signed is what is accepted. [order_sigs_sound] and [order_sigs_complete] (ValsetTheory.v)
      characterise the matching of confirmations with a set, [power_percent_threshold] the threshold
      that 66 percent in single precision comes to; [batch_decided], [valset_update_decided] and
      [logic_call_decided] (Acceptance.v) say what the contract does with what the relayer encodes,
      whatever the contracts it calls reply: it executes it exactly when its nonce, its timeout and
      the power that signed are in order and each of those calls succeeds; they name what the relayer
      overlooks. [batch_quorum_accepted] and its like (CosmosTheory.v): a quorum of orchestrators'
      confirmations is enough for the relayer.
    - What happens is what is claimed. [contract_invariant] (ContractTheory.v), over every sequence of
      transactions: events are numbered without gaps, nothing is executed twice, the checkpoint is the
      last set's. The decoders read what the ABI writes (EthEventsTheory.v); [oracle_claims_gapless] and
      [stored_set_found] (EventFlow.v) carry that to the oracle, if no unclaimed event lies before
      the block it starts at, and to the relayer;
      [unreadable_event_stops_oracle] shows that one log can stop every oracle. [relayed_decided]
      (Relayed.v) closes the circle: against a node that follows the contract, what [relay_once] sends
      the contract decides as [batch_decided] and its like say. [find_latest_valset_latest] and
      [find_latest_valid_valset_greatest] (RelayerSearch.v) are about the searches it relies on.
    - The encodings are the world's: [golden_vectors] (UnitTestTheory.v), the hashes and calldata that
      ethers and Hardhat computed are those of the model, and of the model's contract; and the other
      unit tests pass ([unit_tests_pass]).
    - What is spent is guarded, whatever the nodes answer and however the futures interleave:
      [orchestrator_guarded], [relayer_sends_guarded], [oracle_claims_guarded],
      [batch_submission_guarded] and their like, and for the commands of [nabt]
      [orchestrator_starts_checked], [relayer_starts_checked], [registration_saved] (NabtTheory.v),
      [eth_to_cosmos_funded], [cosmos_to_eth_checked] and [deployment_once] (ClientTheory.v). They are
      [sat] statements: each call satisfies a precondition on the calls and answers before it.
    - What is due gets done, on nodes that answer and under the conditions each statement lists:
      [signer_confirms_all] (SignerLive.v), [oracle_claims_due] (OracleLive.v), [relayer_relays_due]
      (RelayerLive.v); [relayer_round_terminates] and [oracle_resync_terminates] are [term]
      statements, for all answers or all that a live node gives, the latter with what the walk back
      asks for, returns and panics on.
    - The integration tests mean what they say: if [happy_path_test] returns, its calls and answers show
      deposits sent and credited and a withdrawal paid out, and no more than that about the claims in
      between ([happy_path_passed], TestTheory.v); likewise
      [relay_market_passed] and [evidence_passed] (ScenarioTheory.v);
      [stress_test_needs_one_address] shows that one check relies on a slip in the test itself.
    - The generated code is complete and redirected ([protos_generated], [patch_text],
      ProtoBuildTheory.v), but for old files that could not be removed and an attribute that is
      never found.
    - Connections never leave https ([connections_guarded]); files read back as written
      ([set_keys_loads], [init_sets_up]); [fraction_error] bounds the rounding of a typed positive amount;
      conversions to and from protobuf are inverse on what is well formed ([batch_roundtrip], ...).

    The files named ...Run.v execute the model against small nodes: they hold the witnesses that the
    theorems' hypotheses can be met, and examples that what the theorems allow does happen.

    ** Bounds and fuel

    [run] executes a tree for a number of steps and is used in examples only; no theorem about the
    programs has fuel. The loops of the code end by a measure in the proofs ([term_iter]), and loops that need not end
    (retries, the main loops) are stated as such. Recursive functions follow lists, or a number the code
    counts down. [pad_front], [times_ten] and the decoders' loops recurse on the count of the loop
    they model; [count_up] on the 100000 turns of a test's loop. [strip_all] and [chunks] have the
    length of their text as fuel, and take a byte or more off it each time; [super_cosmos_length] likewise.
    Ranges of [u64] and [Uint256] inputs are hypotheses where a type of the code
    guarantees them. [fraction_error] takes exponents from -1000 to 500 and up to 77 decimals, which
    no token exceeds (10^78 is more than a [Uint256] holds); its first half takes any double.

    ** What is not modelled, and why

    - The gRPC clients that tonic generates, and the messages nothing here reads. prost and tonic are
      parameters of ProtoBuild.v.
    - The test of a set of 125 validators (test_cases/valset_update_test.rs), and signing itself: both need
      secp256k1, which is a parameter. [golden_vectors] takes as a hypothesis that one signature
      recovers to its signer.
    - The Go module of the chain (src/module) and the other Solidity contracts (test tokens, a logic
      contract, deployment scripts): environments of the model, whose answers are arbitrary.
    - Logging, and the functions that only format for it ([print_eth], [print_atom],
      [_debug_print_data]); command line parsing, which is [clap]'s.
    - The long timeout of the second [Web3] client of the oracle: a client is its url here, and a
      call may take any time.

    ** What could follow

    Rounds composed over time: the three liveness theorems are about one round each, and a chain that
    executes the claims would make them steps of one system. secp256k1, which would turn the recovery
    hypotheses into theorems. Liveness of the relayer for validator sets and logic calls. *)

From stdpp Require Export base numbers option list list_numbers strings gmap sets sorting.
From Stdlib Require Export ZArith Lia.
From Stdlib Require Import Strings.Byte DecimalString DecimalN.

#[global] Set Default Goal Selector "!".
Open Scope Z_scope.

(** ** Results and panics *)

(** Rust's [Result<A, E>]. *)
Inductive result (A E : Type) : Type :=
  | Ok (a : A)
  | Err (e : E).
Arguments Ok {A E} a.
Arguments Err {A E} e.

(** A Rust computation that returns a value or panics ([panic!], a failed [assert!], [unwrap] of
    an error, an index out of range, an arithmetic overflow when overflow checks are on). *)
Inductive eval (A : Type) : Type :=
  | Done (a : A)
  | Panic (why : string).
Arguments Done {A} a.
Arguments Panic {A} why.

Declare Scope rust_scope.
Delimit Scope rust_scope with rust.
Open Scope rust_scope.

Definition eval_bind {A B} (m : eval A) (f : A → eval B) : eval B :=
  match m with
  | Done a => f a
  | Panic w => Panic w
  end.

(** The [?] operator on a computation that may also panic. *)
Definition try_bind {A B E} (m : eval (result A E)) (f : A → eval (result B E)) : eval (result B E) :=
  match m with
  | Done (Ok a) => f a
  | Done (Err e) => Done (Err e)
  | Panic w => Panic w
  end.

Notation "'let!' x := m 'in' k" := (eval_bind m (fun x => k))
  (at level 10, x binder, m at level 100, k at level 200) : rust_scope.
Notation "'let?' x := m 'in' k" := (try_bind m (fun x => k))
  (at level 10, x binder, m at level 100, k at level 200) : rust_scope.

(** [Result::unwrap] / [Option::unwrap]. *)
Definition unwrap {A E} (r : result A E) : eval A :=
  match r with
  | Ok a => Done a
  | Err _ => Panic "called `Result::unwrap()` on an `Err` value"
  end.

Definition unwrap_option {A} (r : option A) : eval A :=
  match r with
  | Some a => Done a
  | None => Panic "called `Option::unwrap()` on a `None` value"
  end.

Definition is_ok {A E} (r : result A E) : bool := match r with Ok _ => true | Err _ => false end.
Definition is_err {A E} (r : result A E) : bool := negb (is_ok r).
Definition map_err {A E F} (f : E → F) (r : result A E) : result A F :=
  match r with Ok a => Ok a | Err e => Err (f e) end.

(** [assert!]. *)
Definition rassert (b : bool) (why : string) : eval unit :=
  if b then Done tt else Panic why.

(** [iter().map(f).collect::<Vec<_>>()] for an [f] that may panic: the first panic wins. *)
Fixpoint eval_map {A B} (f : A → eval B) (l : list A) : eval (list B) :=
  match l with
  | [] => Done []
  | x :: l => let! y := f x in let! ys := eval_map f l in Done (y :: ys)
  end.

(** A loop [for x in l { out.push(f(x)?) }], which is also what collecting an iterator of results
    does: the first error, or panic, ends it. *)
Fixpoint try_map {A B E} (f : A → eval (result B E)) (l : list A) : eval (result (list B) E) :=
  match l with
  | [] => Done (Ok [])
  | x :: l => let? y := f x in let? ys := try_map f l in Done (Ok (y :: ys))
  end.

Create HintDb rust.

Lemma eval_bind_Done {A B} (m : eval A) (f : A → eval B) b :
  eval_bind m f = Done b ↔ ∃ a, m = Done a ∧ f a = Done b.
Proof. destruct m; naive_solver. Qed.

Lemma try_bind_Ok {A B E} (m : eval (result A E)) (f : A → eval (result B E)) b :
  try_bind m f = Done (Ok b) ↔ ∃ a, m = Done (Ok a) ∧ f a = Done (Ok b).
Proof. destruct m as [[]|]; naive_solver. Qed.

Lemma unwrap_Done {A E} (r : result A E) a : unwrap r = Done a ↔ r = Ok a.
Proof. destruct r; naive_solver. Qed.

Lemma eval_map_Done {A B} (f : A → eval B) l l' :
  eval_map f l = Done l' ↔ Forall2 (fun x y => f x = Done y) l l'.
Proof.
  revert l'. induction l as [|x l IH]; intros l'; simpl.
  - split; [intros [= <-]; constructor | by inversion 1].
  - rewrite eval_bind_Done. setoid_rewrite eval_bind_Done. split.
    + intros (y & Hy & ys & Hys & [= <-]). constructor; [done|]. by apply IH.
    + inversion 1 as [|? y ? ys Hy Hys]; subst. exists y. split; [done|].
      exists ys. split; [by apply IH | done].
Qed.

Lemma eval_map_pure {A B} (f : A → B) l : eval_map (λ x, Done (f x)) l = Done (f <$> l).
Proof. induction l as [|x l IH]; [done|]. simpl. by rewrite IH. Qed.

Lemma try_map_Ok {A B E} (f : A → eval (result B E)) l l' :
  try_map f l = Done (Ok l') ↔ Forall2 (fun x y => f x = Done (Ok y)) l l'.
Proof.
  revert l'. induction l as [|x l IH]; intros l'; simpl.
  - split; [intros [= <-]; constructor | by inversion 1].
  - rewrite try_bind_Ok. setoid_rewrite try_bind_Ok. split.
    + intros (y & Hy & ys & Hys & [= <-]). constructor; [done|]. by apply IH.
    + inversion 1 as [|? y ? ys Hy Hys]; subst. exists y. split; [done|].
      exists ys. split; [by apply IH | done].
Qed.

(** Invert every successful bind of the hypotheses. *)
Ltac inv_bind :=
  repeat match goal with
  | H : eval_bind _ _ = Done _ |- _ =>
      apply eval_bind_Done in H; destruct H as (? & ? & H)
  | H : try_bind _ _ = Done (Ok _) |- _ =>
      apply try_bind_Ok in H; destruct H as (? & ? & H)
  | H : unwrap _ = Done _ |- _ => apply unwrap_Done in H
  | H : Done _ = Done _ |- _ => injection H as H
  | H : Ok _ = Ok _ |- _ => injection H as H
  | H : Err _ = Ok _ |- _ => discriminate H
  | H : Panic _ = Done _ |- _ => discriminate H
  | H : rassert ?b _ = Done _ |- _ => destruct b eqn:?; [clear H | discriminate H]
  end.

(** [lia] with quotients and remainders by constants. *)
Ltac dlia := Z.to_euclidean_division_equations; lia.

(** Decide an equation between closed terms by running both sides. *)
Ltac vm_refl := lazymatch goal with |- _ = ?b => vm_cast_no_check (@eq_refl _ b) end.

(** ** Machine integers *)

Definition U8_MAX : Z := 2 ^ 8 - 1.
Definition U32_MAX : Z := 2 ^ 32 - 1.
Definition U64_MAX : Z := 2 ^ 64 - 1.
Definition U128_MAX : Z := 2 ^ 128 - 1.
(** The bridge tools are built for 64-bit targets. *)
Definition USIZE_MAX : Z := U64_MAX.

Definition is_u64 (x : Z) : Prop := 0 ≤ x ≤ U64_MAX.

(** How the program was built and started, which the model keeps open: with overflow checks (a [dev]
    build) or wrapping (a [release] build; Cargo.toml leaves both profiles at their defaults), and
    with the [info] log level enabled or not (a disabled [info!] does not evaluate its
    arguments). *)
Class Build := { overflow_checks : bool; info_enabled : bool }.

Section Arithmetic.
Context {BD : Build}.

(** [a + b], [a - b] and [a * b] on [u64] and [usize]. *)
Definition u64_wrap (x : Z) : eval Z :=
  if (0 <=? x) && (x <=? U64_MAX) then Done x
  else if overflow_checks then Panic "attempt to overflow"
  else Done (x mod 2 ^ 64).
Definition u64_add (a b : Z) : eval Z := u64_wrap (a + b).
Definition u64_sub (a b : Z) : eval Z := u64_wrap (a - b).
Definition u64_mul (a b : Z) : eval Z := u64_wrap (a * b).

Lemma u64_wrap_ok x : is_u64 x → u64_wrap x = Done x.
Proof.
  intros [H1 H2]. unfold u64_wrap.
  apply Z.leb_le in H1, H2. by rewrite H1, H2.
Qed.

Lemma u64_wrap_range x y : u64_wrap x = Done y → is_u64 y.
Proof.
  unfold u64_wrap, is_u64, U64_MAX. destruct (_ && _) eqn:Hb.
  - intros [= <-]. apply andb_true_iff in Hb as [?%Z.leb_le ?%Z.leb_le]. done.
  - destruct overflow_checks; intros [= <-].
    pose proof (Z.mod_pos_bound x (2 ^ 64) ltac:(lia)). lia.
Qed.

Lemma u64_wrap_mod x y : u64_wrap x = Done y → y = x mod 2 ^ 64.
Proof.
  unfold u64_wrap, U64_MAX. destruct (_ && _) eqn:Hb.
  - intros [= <-]. apply andb_true_iff in Hb as [?%Z.leb_le ?%Z.leb_le].
    rewrite Z.mod_small; lia.
  - by destruct overflow_checks; intros [= <-].
Qed.
End Arithmetic.
#[export] Hint Resolve u64_wrap_ok : rust.

(** ** Sums *)

Fixpoint zsum (l : list Z) : Z := match l with [] => 0 | x :: l => x + zsum l end.

Lemma zsum_app l1 l2 : zsum (l1 ++ l2) = zsum l1 + zsum l2.
Proof. induction l1 as [|x l1 IH]; simpl; lia. Qed.
Lemma zsum_perm l1 l2 : l1 ≡ₚ l2 → zsum l1 = zsum l2.
Proof. induction 1 as [|x l l' _ IH|x y l|l l' l'' _ IH1 _ IH2]; simpl; lia. Qed.
#[export] Instance zsum_Permutation : Proper ((≡ₚ) ==> (=)) zsum.
Proof. intros l1 l2. apply zsum_perm. Qed.
Lemma zsum_nonneg l : Forall (λ x, 0 ≤ x) l → 0 ≤ zsum l.
Proof. induction 1 as [|x l Hx _ IH]; simpl; lia. Qed.
Lemma zsum_fmap_le {A} (f g : A → Z) l : (∀ x, x ∈ l → f x ≤ g x) → zsum (f <$> l) ≤ zsum (g <$> l).
Proof.
  induction l as [|x l IH]; intros H; [done|].
  pose proof (H x ltac:(left)) as Hx. pose proof (IH (λ y Hy, H y ltac:(by right))) as Hl.
  rewrite !fmap_cons. simpl. lia.
Qed.
Lemma zsum_fmap_add {A} (f g : A → Z) l : zsum ((λ x, f x + g x) <$> l) = zsum (f <$> l) + zsum (g <$> l).
Proof. induction l; rewrite ?fmap_cons; simpl; lia. Qed.

Section SumLoop.
Context {BD : Build}.

(** The loop [for x in l { acc += x }]. *)
Fixpoint u64_sum (acc : Z) (l : list Z) : eval Z :=
  match l with
  | [] => Done acc
  | x :: l => let! acc := u64_add acc x in u64_sum acc l
  end.

Lemma u64_sum_app acc l1 l2 :
  u64_sum acc (l1 ++ l2) = let! acc := u64_sum acc l1 in u64_sum acc l2.
Proof.
  revert acc. induction l1 as [|x l1 IH]; intros acc; simpl; [done|].
  destruct (u64_add acc x); simpl; auto.
Qed.

(** Whatever the build, it computes what one checked or wrapping addition of the whole would. *)
Lemma u64_sum_wrap acc l :
  is_u64 acc → Forall (λ x, 0 ≤ x) l → u64_sum acc l = u64_wrap (acc + zsum l).
Proof.
  intros Ha Hl. revert acc Ha. induction Hl as [|x l Hx Hl IH]; intros acc Ha; simpl.
  - rewrite Z.add_0_r. by rewrite u64_wrap_ok.
  - unfold u64_add. pose proof (zsum_nonneg l Hl). unfold is_u64, U64_MAX in *.
    destruct (decide (acc + x ≤ 2 ^ 64 - 1)).
    + rewrite u64_wrap_ok by (unfold is_u64, U64_MAX; lia). simpl. rewrite IH by lia. f_equal. lia.
    + unfold u64_wrap, U64_MAX. rewrite !(proj2 (Z.leb_gt _ (2 ^ 64 - 1))) by lia.
      rewrite !andb_false_r. destruct overflow_checks eqn:Ho; [done|]. simpl.
      pose proof (Z.mod_pos_bound (acc + x) (2 ^ 64) ltac:(lia)).
      rewrite IH by lia. unfold u64_wrap, U64_MAX. rewrite Ho.
      destruct (_ && _) eqn:Hb.
      * apply andb_true_iff in Hb as [? Hb%Z.leb_le].
        rewrite Z.add_assoc, <- (Zplus_mod_idemp_l (acc + x)), (Z.mod_small (_ + zsum l)) by lia. done.
      * by rewrite Z.add_assoc, Zplus_mod_idemp_l.
Qed.
End SumLoop.
