(* ===== verification/Bytes.v ===== *)
(** * Bytes, slices, decimal and UTF-8 text

    The parts of Rust's standard library the bridge code leans on: slicing a byte buffer (which
    panics out of range), big-endian numbers, [u64::from_str], [String::from_utf8]. *)

From S2P Require Import Prelude.
From Stdlib Require Import Strings.Byte DecimalString DecimalN DecimalFacts NArith.
From Stdlib Require Strings.String.

Abbreviation byte := Init.Byte.byte.
Abbreviation bytes := (list byte).

#[export] Instance byte_eq_dec : EqDecision byte := Byte.byte_eq_dec.
#[export] Program Instance byte_countable : Countable byte :=
  inj_countable Byte.to_N Byte.of_N _.
Next Obligation. intros. apply Byte.of_to_N. Qed.

(** A Rust [String] is its UTF-8 bytes; [as_bytes] and [from_utf8_unchecked]. *)
Definition to_bytes (s : string) : bytes := String.list_byte_of_string s.
Definition of_bytes (b : bytes) : string := String.string_of_list_byte b.

Lemma of_to_bytes s : of_bytes (to_bytes s) = s.
Proof. apply String.string_of_list_byte_of_string. Qed.
Lemma to_of_bytes b : to_bytes (of_bytes b) = b.
Proof. apply String.list_byte_of_string_of_list_byte. Qed.

Definition byte_val (b : byte) : Z := Z.of_N (Byte.to_N b).
Definition byte_of (z : Z) : byte :=
  match Byte.of_N (Z.to_N (z mod 256)) with Some b => b | None => x00 end.

Lemma byte_val_bound b : 0 ≤ byte_val b < 256.
Proof. unfold byte_val. pose proof (Byte.to_N_bounded b). lia. Qed.

Lemma byte_val_of z : byte_val (byte_of z) = z mod 256.
Proof.
  unfold byte_of, byte_val. pose proof (Z.mod_pos_bound z 256 ltac:(lia)).
  destruct (Byte.of_N _) eqn:E.
  - apply Byte.to_of_N in E. rewrite E. lia.
  - apply Byte.of_N_None_iff in E. lia.
Qed.

Lemma byte_of_val b : byte_of (byte_val b) = b.
Proof.
  unfold byte_of. rewrite Z.mod_small by apply byte_val_bound.
  unfold byte_val. by rewrite N2Z.id, Byte.of_to_N.
Qed.

(** ** Big-endian numbers *)

(** The number a big-endian byte string denotes, and the [n] low bytes of a number. *)
Fixpoint be_acc (acc : Z) (l : bytes) : Z :=
  match l with
  | [] => acc
  | b :: l => be_acc (acc * 256 + byte_val b) l
  end.
Definition be (l : bytes) : Z := be_acc 0 l.

Fixpoint be_split (n : nat) (z : Z) : bytes :=
  match n with
  | O => []
  | S n => be_split n (z / 256) ++ [byte_of z]
  end.

Lemma be_acc_app acc l1 l2 : be_acc acc (l1 ++ l2) = be_acc (be_acc acc l1) l2.
Proof. revert acc. induction l1; simpl; intros; auto. Qed.

Lemma be_acc_shift acc l : be_acc acc l = acc * 256 ^ Z.of_nat (length l) + be l.
Proof.
  unfold be. revert acc. induction l as [|b l IH]; intros acc; simpl.
  - lia.
  - rewrite IH, (IH (0 * 256 + byte_val b)), Nat2Z.inj_succ, Z.pow_succ_r by lia. lia.
Qed.

Lemma be_app l1 l2 : be (l1 ++ l2) = be l1 * 256 ^ Z.of_nat (length l2) + be l2.
Proof. unfold be at 1. by rewrite be_acc_app, be_acc_shift. Qed.

Lemma be_bound l : 0 ≤ be l < 256 ^ Z.of_nat (length l).
Proof.
  induction l as [|b l IH] using rev_ind.
  - unfold be. simpl. lia.
  - rewrite be_app, length_app, Nat2Z.inj_add. simpl length.
    change (Z.of_nat 1) with 1. rewrite Z.pow_add_r, Z.pow_1_r by lia.
    unfold be at 2 4. simpl. pose proof (byte_val_bound b). nia.
Qed.

Lemma length_be_split n z : length (be_split n z) = n.
Proof. revert z. induction n; simpl; intros; [done|]. rewrite length_app, IHn. simpl. lia. Qed.

Lemma be_be_split n z : be (be_split n z) = z mod 256 ^ Z.of_nat n.
Proof.
  revert z. induction n as [|n IH]; intros z.
  - simpl. by rewrite Z.mod_1_r.
  - cbn [be_split]. rewrite be_app, IH. cbn [length].
    change (be [byte_of z]) with (byte_val (byte_of z)). rewrite byte_val_of.
    rewrite (Nat2Z.inj_succ n), (Z.pow_succ_r 256) by lia.
    change (256 ^ Z.of_nat 1) with 256. rewrite Z.rem_mul_r by lia. lia.
Qed.

Lemma be_split_small n z : 0 ≤ z < 256 ^ Z.of_nat n → be (be_split n z) = z.
Proof. intros. rewrite be_be_split. by apply Z.mod_small. Qed.

Lemma be_split_be l : be_split (length l) (be l) = l.
Proof.
  induction l as [|b l IH] using rev_ind; [done|].
  rewrite length_app, Nat.add_comm. cbn [length Nat.add be_split].
  assert (be (l ++ [b]) = be l * 256 + byte_val b) as E.
  { rewrite be_app. unfold be at 2. simpl. lia. }
  pose proof (byte_val_bound b). rewrite E. f_equal.
  - rewrite Z.div_add_l, (Z.div_small (byte_val b)), Z.add_0_r by lia. done.
  - f_equal. rewrite <- (byte_of_val b) at 2. unfold byte_of.
    by rewrite Z.add_comm, Z.mod_add by lia.
Qed.

Lemma be_inj l1 l2 : length l1 = length l2 → be l1 = be l2 → l1 = l2.
Proof. intros Hl Hb. rewrite <- (be_split_be l1), <- (be_split_be l2). by rewrite Hl, Hb. Qed.

(** ** Slices: [&b[lo..hi]] and [&b[lo..]] *)

Definition blen (b : bytes) : Z := Z.of_nat (length b).

Definition slice (b : bytes) (lo hi : Z) : eval bytes :=
  if hi <? lo then Panic "slice index starts after its end"
  else if blen b <? hi then Panic "range end index out of range for slice"
  else Done (take (Z.to_nat (hi - lo)) (drop (Z.to_nat lo) b)).

Definition slice_from (b : bytes) (lo : Z) : eval bytes :=
  if blen b <? lo then Panic "range start index out of range for slice"
  else Done (drop (Z.to_nat lo) b).

Lemma slice_Done b lo hi r :
  slice b lo hi = Done r ↔
  lo ≤ hi ≤ blen b ∧ r = take (Z.to_nat (hi - lo)) (drop (Z.to_nat lo) b).
Proof.
  unfold slice. destruct (Z.ltb_spec hi lo); [naive_solver lia|].
  destruct (Z.ltb_spec (blen b) hi); naive_solver lia.
Qed.

Lemma slice_length b lo hi r : 0 ≤ lo → slice b lo hi = Done r → blen r = hi - lo.
Proof.
  intros H0 [H ->]%slice_Done. unfold blen in *. rewrite length_take, length_drop. lia.
Qed.

(** Reading back a piece of a concatenation. *)
Lemma slice_app a m c lo hi :
  lo = blen a → hi = blen a + blen m → slice (a ++ m ++ c) lo hi = Done m.
Proof.
  intros -> ->. apply slice_Done. unfold blen. rewrite !length_app. split; [lia|].
  rewrite Nat2Z.id, drop_app_length.
  replace (Z.to_nat _) with (length m) by lia. by rewrite take_app_length.
Qed.

Lemma slice_out_of_range b lo hi : 0 ≤ lo → blen b < hi → ∃ w, slice b lo hi = Panic w.
Proof.
  intros. unfold slice. destruct (Z.ltb_spec hi lo); [eauto|].
  destruct (Z.ltb_spec (blen b) hi); [eauto | lia].
Qed.

(** ** Decimal text *)

(** What [to_string] of an unsigned number prints. *)
Definition dec_string (z : Z) : string := NilZero.string_of_uint (N.to_uint (Z.to_N z)).

(** [str::parse::<u64>]: an optional plus sign, then decimal digits, at least one; an error on
    anything else and on overflow. *)
Definition parse_digits (s : string) : option Z :=
  (fun d => Z.of_N (N.of_uint d)) <$> NilZero.uint_of_string s.

Definition strip_plus (s : string) : string :=
  match s with
  | String.String c s' => if Ascii.eqb c (Ascii.ascii_of_nat 43) then s' else s
  | _ => s
  end.

Definition parse_uint (max : Z) (s : string) : result Z unit :=
  match parse_digits (strip_plus s) with
  | Some z => if z <=? max then Ok z else Err tt
  | None => Err tt
  end.
Definition parse_u64 : string → result Z unit := parse_uint U64_MAX.

Lemma N_to_uint_nonnil n : N.to_uint n ≠ Decimal.Nil.
Proof. destruct n; [done|]. apply DecimalPos.Unsigned.to_uint_nonnil. Qed.

Lemma parse_digits_dec z : 0 ≤ z → parse_digits (dec_string z) = Some z.
Proof.
  intros. unfold parse_digits, dec_string.
  rewrite NilZero.usu by apply N_to_uint_nonnil. simpl.
  by rewrite DecimalN.Unsigned.of_to, Z2N.id.
Qed.

Lemma strip_plus_dec z : strip_plus (dec_string z) = dec_string z.
Proof.
  unfold dec_string. pose proof (N_to_uint_nonnil (Z.to_N z)).
  by destruct (N.to_uint (Z.to_N z)).
Qed.

Lemma parse_uint_dec max z : 0 ≤ z ≤ max → parse_uint max (dec_string z) = Ok z.
Proof.
  intros. unfold parse_uint. rewrite strip_plus_dec, parse_digits_dec by lia.
  by rewrite (proj2 (Z.leb_le z max)) by lia.
Qed.

(** ** UTF-8 *)

(** [core::str::from_utf8]'s validation: one well-formed sequence at a time (Unicode table 3-7). *)
Definition cont (b : byte) : bool := let v := byte_val b in (128 <=? v) && (v <=? 191).
Definition in_range (lo hi : Z) (b : byte) : bool :=
  let v := byte_val b in (lo <=? v) && (v <=? hi).

Fixpoint utf8_valid (l : bytes) : bool :=
  match l with
  | [] => true
  | b :: l1 =>
      if byte_val b <=? 127 then utf8_valid l1
      else match l1 with
      | c :: l2 =>
          if in_range 194 223 b then cont c && utf8_valid l2
          else match l2 with
          | d :: l3 =>
              if in_range 224 239 b then
                (if byte_val b =? 224 then in_range 160 191 c
                 else if byte_val b =? 237 then in_range 128 159 c else cont c)
                && cont d && utf8_valid l3
              else match l3 with
              | e :: l4 =>
                  in_range 240 244 b
                  && (if byte_val b =? 240 then in_range 144 191 c
                      else if byte_val b =? 244 then in_range 128 143 c else cont c)
                  && cont d && cont e && utf8_valid l4
              | [] => false
              end
          | [] => false
          end
      | [] => false
      end
  end.

Definition from_utf8 (b : bytes) : result string unit :=
  if utf8_valid b then Ok (of_bytes b) else Err tt.

Lemma from_utf8_to_bytes s : utf8_valid (to_bytes s) = true → from_utf8 (to_bytes s) = Ok s.
Proof. intros H. unfold from_utf8. by rewrite H, of_to_bytes. Qed.
