(* ===== verification/Proto.v ===== *)
(** * Protobuf messages

    The messages of gravity_proto/src/prost/nab.v1.rs that the tools read and build, and the few of
    [deep_space] and the Cosmos SDK around them. *)

From S2P Require Import Prelude Bytes.

(** [deep_space::Coin]. *)
Record Coin := mkCoin { denom : string; amount : Z }.

(** ** What the chain is asked about *)

Record PErc20Token := mkPErc20Token { perc20_contract : string; perc20_amount : string }.

Record POutgoingTransferTx := mkPOutgoingTransferTx {
  ptx_id : Z;
  ptx_sender : string;
  ptx_dest_address : string;
  ptx_erc20_token : option PErc20Token;
  ptx_erc20_fee : option PErc20Token;
}.

Record POutgoingTxBatch := mkPOutgoingTxBatch {
  pbatch_nonce : Z;
  pbatch_timeout : Z;
  pbatch_transactions : list POutgoingTransferTx;
  pbatch_token_contract : string;
  pbatch_block : Z;
}.

Record POutgoingLogicCall := mkPOutgoingLogicCall {
  pcall_transfers : list PErc20Token;
  pcall_fees : list PErc20Token;
  pcall_logic_contract_address : string;
  pcall_payload : bytes;
  pcall_timeout : Z;
  pcall_invalidation_id : bytes;
  pcall_invalidation_nonce : Z;
  pcall_block : Z;
}.

Record PBridgeValidator := mkPBridgeValidator { pbv_power : Z; pbv_ethereum_address : string }.

Record PValset := mkPValset {
  pvalset_nonce : Z;
  pvalset_members : list PBridgeValidator;
  pvalset_height : Z;
  pvalset_reward_amount : string;
  pvalset_reward_token : string;
}.

Record PMsgValsetConfirm := mkPMsgValsetConfirm {
  pvc_nonce : Z;
  pvc_orchestrator : string;
  pvc_eth_address : string;
  pvc_signature : string;
}.

Record PMsgConfirmBatch := mkPMsgConfirmBatch {
  pcb_nonce : Z;
  pcb_token_contract : string;
  pcb_eth_signer : string;
  pcb_orchestrator : string;
  pcb_signature : string;
}.

Record PMsgConfirmLogicCall := mkPMsgConfirmLogicCall {
  pclc_invalidation_id : string;
  pclc_invalidation_nonce : Z;
  pclc_eth_signer : string;
  pclc_orchestrator : string;
  pclc_signature : string;
}.

(** ** What the tools tell the chain *)

Record MsgSetOrchestratorAddress := mkMsgSetOrchestratorAddress {
  msoa_validator : string;
  msoa_orchestrator : string;
  msoa_eth_address : string;
}.

Record MsgSendToEth := mkMsgSendToEth {
  mse_sender : string;
  mse_eth_dest : string;
  mse_amount : option Coin;
  mse_bridge_fee : option Coin;
}.

Record MsgRequestBatch := mkMsgRequestBatch { mrb_sender : string; mrb_denom : string }.

Record MsgSendToCosmosClaim := mkMsgSendToCosmosClaim {
  msc_event_nonce : Z;
  msc_block_height : Z;
  msc_token_contract : string;
  msc_amount : string;
  msc_ethereum_sender : string;
  msc_cosmos_receiver : string;
  msc_orchestrator : string;
}.

Record MsgBatchSendToEthClaim := mkMsgBatchSendToEthClaim {
  mbc_event_nonce : Z;
  mbc_block_height : Z;
  mbc_batch_nonce : Z;
  mbc_token_contract : string;
  mbc_orchestrator : string;
}.

Record MsgErc20DeployedClaim := mkMsgErc20DeployedClaim {
  mdc_event_nonce : Z;
  mdc_block_height : Z;
  mdc_cosmos_denom : string;
  mdc_token_contract : string;
  mdc_name : string;
  mdc_symbol : string;
  mdc_decimals : Z;
  mdc_orchestrator : string;
}.

Record MsgLogicCallExecutedClaim := mkMsgLogicCallExecutedClaim {
  mlc_event_nonce : Z;
  mlc_block_height : Z;
  mlc_invalidation_id : bytes;
  mlc_invalidation_nonce : Z;
  mlc_orchestrator : string;
}.

Record MsgValsetUpdatedClaim := mkMsgValsetUpdatedClaim {
  mvc_event_nonce : Z;
  mvc_valset_nonce : Z;
  mvc_block_height : Z;
  mvc_members : list PBridgeValidator;
  mvc_reward_amount : string;
  mvc_reward_token : string;
  mvc_orchestrator : string;
}.

Record MsgCancelSendToEth := mkMsgCancelSendToEth { mcs_transaction_id : Z; mcs_sender : string }.

(** The message inside a [prost_types::Any], before [deep_space]'s [encode_any] encodes it. *)
Inductive AnyValue :=
  | AnyValset (v : PValset)
  | AnyBatch (b : POutgoingTxBatch)
  | AnyLogicCall (c : POutgoingLogicCall).
Record Any := mkAny { any_type_url : string; any_value : AnyValue }.

Record MsgSubmitBadSignatureEvidence := mkMsgSubmitBadSignatureEvidence {
  mbe_subject : option Any;
  mbe_signature : string;
  mbe_sender : string;
}.

(** [deep_space::Msg]: a type url and the message it was made from. *)
Inductive MsgValue :=
  | SetOrchestratorAddress (m : MsgSetOrchestratorAddress)
  | ValsetConfirm (m : PMsgValsetConfirm)
  | ConfirmBatch (m : PMsgConfirmBatch)
  | ConfirmLogicCall (m : PMsgConfirmLogicCall)
  | SendToCosmosClaim (m : MsgSendToCosmosClaim)
  | BatchSendToEthClaim (m : MsgBatchSendToEthClaim)
  | Erc20DeployedClaim (m : MsgErc20DeployedClaim)
  | LogicCallExecutedClaim (m : MsgLogicCallExecutedClaim)
  | ValsetUpdatedClaim (m : MsgValsetUpdatedClaim)
  | SendToEth (m : MsgSendToEth)
  | RequestBatch (m : MsgRequestBatch)
  | CancelSendToEth (m : MsgCancelSendToEth)
  | SubmitBadSignatureEvidence (m : MsgSubmitBadSignatureEvidence).
Record Msg := mkMsg { msg_type_url : string; msg_value : MsgValue }.

(** [deep_space::Fee] *)
Record Fee := mkFee {
  fee_amount : list Coin;
  fee_gas_limit : Z;
  fee_granter : option string;
  fee_payer : option string;
}.

(** ** What the command line tool queries *)

Record Params := mkParams {
  par_gravity_id : string;
  par_contract_source_hash : string;
  par_bridge_ethereum_address : string;
  par_bridge_chain_id : Z;
  par_signed_valsets_window : Z;
  par_signed_batches_window : Z;
  par_signed_logic_calls_window : Z;
  par_target_batch_timeout : Z;
  par_average_block_time : Z;
  par_average_ethereum_block_time : Z;
  par_slash_fraction_valset : bytes;
  par_slash_fraction_batch : bytes;
  par_slash_fraction_logic_call : bytes;
  par_unbond_slashing_valsets_window : Z;
  par_slash_fraction_bad_eth_signature : bytes;
  par_valset_reward : option Coin;
}.
(** [claim] is a [prost_types::Any], its type and its bytes; only the test runner decodes it. *)
Record Attestation := mkAttestation {
  att_observed : bool;
  att_votes : list string;
  att_height : Z;
  att_claim : option (string * bytes);
}.
(** The records of the Cosmos SDK that the test runner reads and writes, and [std::process::Output]. *)
Record ParamChange := mkParamChange { pc_subspace : string; pc_key : string; pc_value : string }.
Record ParameterChangeProposal := mkParameterChangeProposal {
  pcp_title : string; pcp_description : string; pcp_changes : list ParamChange }.
Record Validator := mkValidator { val_operator_address : string; val_jailed : bool }.
Record Output := mkOutput { out_success : bool; out_stdout : string; out_stderr : string }.
Record QueryPendingSendToEthResponse := mkQueryPendingSendToEthResponse {
  qps_transfers_in_batches : list POutgoingTransferTx;
  qps_unbatched_transfers : list POutgoingTransferTx;
}.
Record QueryDenomToErc20Response := mkQueryDenomToErc20Response { qdr_erc20 : string; qdr_cosmos_originated : bool }.
Record QueryDelegateKeysByEthAddressResponse := mkQueryDelegateKeysByEthAddressResponse {
  dke_validator_address : string; dke_orchestrator_address : string }.
Record QueryDelegateKeysByOrchestratorAddressResponse := mkQueryDelegateKeysByOrchestratorAddressResponse {
  dko_validator_address : string; dko_eth_address : string }.
