(* ===== verification/External.v ===== *)
(** * The third-party code, as an interface

    [clarity] (Ethereum addresses, signatures, ABI encoding), [num256], [deep_space], [web30] and
    [tonic] are not part of the repository. [Ext] lists the types and functions of theirs that the
    code calls; [ExtLaws] states the documented behaviour the theorems use. Every definition of the
    development is generic in an [Ext]; Instances.v gives a concrete one. *)

From S2P Require Import Prelude Bytes Proto.
From Stdlib Require Import Strings.Byte SpecFloat.

(** [num256::Uint256] and the amounts of the RPC layer are numbers. *)
Abbreviation Uint256 := Z.
Definition U256_MAX : Z := 2 ^ 256 - 1.

(** [f32] and [f64] values, as IEEE 754 data. *)
Abbreviation f32 := spec_float.
Abbreviation f64 := spec_float.

(** [clarity::Signature]: the code reads its three fields. *)
Record EthSignature := mkSignature { sig_v : Uint256; sig_r : Uint256; sig_s : Uint256 }.

(** [web30::types::Log], the fields read. *)
Record Log := mkLog { topics : list bytes; data : bytes; block_number : option Uint256 }.

(** [deep_space::utils::FeeInfo]. *)
Inductive FeeInfo :=
  | FeeInsufficientFees (min_fees : list Coin)
  | FeeInsufficientGas.

(** [deep_space::client::ChainStatus] *)
Inductive ChainStatus :=
  | Moving (block_height : Z)
  | Syncing
  | WaitingToStart.

Class Ext := {
  (** ** num256 *)
  ParseBigIntError : Type;
  u256_from_bytes_be : bytes → Uint256;
  u256_to_bytes_be : Uint256 → bytes;
  u256_to_string : Uint256 → string;
  u256_parse : string → result Uint256 ParseBigIntError;
  u256_add : Uint256 → Uint256 → eval Uint256;
  u256_sub : Uint256 → Uint256 → eval Uint256;
  u256_mul : Uint256 → Uint256 → eval Uint256;
  parse_big_int_error_string : ParseBigIntError → string;

  (** ** clarity *)
  ClarityError : Type;
  clarity_error_string : ClarityError → string;
  EthAddress : Type;
  EthAddress_eq_dec :: EqDecision EthAddress;
  EthAddress_countable :: Countable EthAddress;
  address_as_bytes : EthAddress → bytes;
  address_cmp : EthAddress → EthAddress → comparison;
  address_from_slice : bytes → result EthAddress ClarityError;
  address_parse : string → result EthAddress ClarityError;
  address_to_string : EthAddress → string;
  address_default : EthAddress;
  ZERO_ADDRESS : EthAddress;
  signature_is_valid : EthSignature → bool;
  signature_recover : EthSignature → bytes → result EthAddress ClarityError;
  signature_parse : string → result EthSignature ClarityError;
  signature_to_bytes : EthSignature → bytes;
  EthPrivateKey : Type;
  eth_key_to_address : EthPrivateKey → EthAddress;
  sign_ethereum_msg : EthPrivateKey → bytes → EthSignature;
  get_ethereum_msg_hash : bytes → bytes;
  hex_str_to_bytes : string → result bytes ClarityError;
  bytes_to_hex_str : bytes → string;

  (** ABI tokens: the constructors and the [into()] conversions the code builds them with. *)
  Token : Type;
  TokenUint : Uint256 → Token;
  TokenString : string → Token;
  TokenFixedString : string → Token;
  TokenBytes : bytes → Token;
  TokenUnboundedBytes : bytes → Token;
  TokenDynamic : list Token → Token;
  TokenStruct : list Token → Token;
  token_of_address : EthAddress → Token;
  token_of_u64 : Z → Token;
  token_of_u8 : Z → Token;
  token_of_u256 : Uint256 → Token;
  token_of_addresses : list EthAddress → Token;
  token_of_u64s : list Z → Token;
  token_of_u256s : list Uint256 → Token;
  encode_tokens : list Token → bytes;
  encode_call : string → list Token → result bytes ClarityError;

  (** ** deep_space, tonic, web30 *)
  CosmosAddressError : Type;
  cosmos_address_error_string : CosmosAddressError → string;
  CosmosAddress : Type;
  CosmosAddress_eq_dec :: EqDecision CosmosAddress;
  cosmos_address_from_bytes : bytes → string → result CosmosAddress CosmosAddressError;
  cosmos_address_as_bytes : CosmosAddress → bytes;
  cosmos_address_parse : string → result CosmosAddress CosmosAddressError;
  cosmos_address_to_string : CosmosAddress → string;
  cosmos_address_to_bech32 : CosmosAddress → string → result string CosmosAddressError;
  COSMOS_DEFAULT_PREFIX : string;
  CosmosPrivateKey : Type;
  PrivateKeyError : Type;
  cosmos_key_to_address : CosmosPrivateKey → string → result CosmosAddress PrivateKeyError;
  MessageArgs : Type;
  sign_std_msg : CosmosPrivateKey → list Msg → MessageArgs → string → result bytes PrivateKeyError;
  TxResponse : Type;
  deep_space_bytes_to_hex_str : bytes → string;
  GrpcOther : Type;
  signing_error : PrivateKeyError → GrpcOther;
  Web3Error : Type;
  web3_bad_response : string → Web3Error;
  Status : Type;
  WETH_CONTRACT_ADDRESS : EthAddress;

  (** The order in which a [std::collections::HashMap] or [HashSet] is iterated: unspecified, and
      different from one map to the next. *)
  hash_order : ∀ {A : Type}, list A → list A;
}.

(** [deep_space::error::CosmosGrpcError], the variants the code builds or matches. *)
Inductive CosmosGrpcError `{Ext} :=
  | BadInput (msg : string)
  | InsufficientFees (fee_info : FeeInfo)
  | NodeNotSynced
  | ChainNotRunning
  | OtherGrpcError (e : GrpcOther).

(** What the boxed error of [GravityError::RpcError] was built from. *)
Inductive BoxedError `{Ext} :=
  | BoxGrpc (e : CosmosGrpcError)
  | BoxWeb3 (e : Web3Error)
  | BoxStatus (e : Status).

Class ExtLaws `(X : Ext) := {
  (** [Uint256] holds numbers below 2^256; parsing a big-endian word, printing and reading decimals,
      and arithmetic that stays in range are exact. Nothing is said of what happens out of range. *)
  law_u256_from_bytes_be : ∀ b, (length b ≤ 32)%nat → u256_from_bytes_be b = be b;
  law_u256_to_bytes_be : ∀ z n, 0 < z < 256 ^ Z.of_nat n →
    (length (u256_to_bytes_be z) ≤ n)%nat ∧ be (u256_to_bytes_be z) = z;
  law_u256_to_bytes_be_zero : u256_to_bytes_be 0 = [x00];
  law_u256_to_string : ∀ z, 0 ≤ z → u256_to_string z = dec_string z;
  law_u256_parse : ∀ z, 0 ≤ z ≤ U256_MAX → u256_parse (dec_string z) = Ok z;
  law_u256_add : ∀ a b, 0 ≤ a → 0 ≤ b → a + b ≤ U256_MAX → u256_add a b = Done (a + b);
  law_u256_sub : ∀ a b, 0 ≤ b ≤ a → a ≤ U256_MAX → u256_sub a b = Done (a - b);
  law_u256_mul : ∀ a b, 0 ≤ a → 0 ≤ b → a * b ≤ U256_MAX → u256_mul a b = Done (a * b);

  (** An address is 20 bytes, ordered lexicographically; its text parses back. *)
  law_address_length : ∀ a, length (address_as_bytes a) = 20%nat;
  law_address_from_slice : ∀ a, address_from_slice (address_as_bytes a) = Ok a;
  law_address_from_slice_ok : ∀ b a, address_from_slice b = Ok a → address_as_bytes a = b;
  law_address_from_slice_20 : ∀ b, length b = 20%nat → ∃ a, address_from_slice b = Ok a;
  law_address_cmp_eq : ∀ a b, address_cmp a b = Eq ↔ a = b;
  law_address_cmp_antisym : ∀ a b, address_cmp a b = CompOpp (address_cmp b a);
  law_address_cmp_trans : ∀ a b c, address_cmp a b = Lt → address_cmp b c = Lt → address_cmp a c = Lt;
  law_address_parse : ∀ a, address_parse (address_to_string a) = Ok a;
  law_address_parse_empty : is_ok (address_parse "") = false;
  law_address_zero : address_as_bytes ZERO_ADDRESS = replicate 20 x00;
  law_address_default : address_default = ZERO_ADDRESS;

  (** A signature is valid, recovers to its signer's address over the hash of the signed message, and
      its text parses back. *)
  law_sign_valid : ∀ k m, signature_is_valid (sign_ethereum_msg k m) = true;
  law_sign_recover : ∀ k m,
    signature_recover (sign_ethereum_msg k m) (get_ethereum_msg_hash m) = Ok (eth_key_to_address k);
  law_sign_parse : ∀ k m,
    signature_parse (deep_space_bytes_to_hex_str (signature_to_bytes (sign_ethereum_msg k m))) =
    Ok (sign_ethereum_msg k m);
  law_hex_str : ∀ b, hex_str_to_bytes (deep_space_bytes_to_hex_str b) = Ok b;

  law_cosmos_from_bytes : ∀ b p, length b = 20%nat → is_ok (cosmos_address_from_bytes b p) = true;
  law_cosmos_parse : ∀ a, cosmos_address_parse (cosmos_address_to_string a) = Ok a;

  (** Iterating a map or set visits every element exactly once. *)
  law_hash_order : ∀ A (l : list A), hash_order l ≡ₚ l;
}.

Section AddressFacts.
Context `{XL : ExtLaws}.

Lemma address_as_bytes_inj a b : address_as_bytes a = address_as_bytes b → a = b.
Proof.
  intros E. pose proof (law_address_from_slice a) as H.
  rewrite E, law_address_from_slice in H. congruence.
Qed.

Lemma address_from_slice_length b a : address_from_slice b = Ok a → length b = 20%nat.
Proof. intros <-%law_address_from_slice_ok. apply law_address_length. Qed.

Lemma u256_word b : length b = 32%nat → u256_from_bytes_be b = be b.
Proof. intros H. apply law_u256_from_bytes_be. lia. Qed.
End AddressFacts.
