(* ===== verification/Evm.v ===== *)
(** * What the Solidity contracts rely on

    The values of the contract ABI, and the operations of the virtual machine that Gravity.sol calls
    and no file of the repository defines: [keccak256], [ecrecover] and [abi.encode]. [EvmLaws] says
    how the Rust side's [clarity] relates to them: it implements that encoding and that signature
    scheme. *)

From S2P Require Import Prelude Bytes Proto External.
From Stdlib Require Import Strings.Byte.

(** Every static ABI type is one 32-byte word; the rest nests. *)
#[warnings="-register-all"]
Inductive abi_value :=
  | VWord (z : Z)
  | VBytes (b : bytes)
  | VArray (l : list abi_value)
  | VTuple (l : list abi_value).

(** [bytes32] values are padded on the right; an address is a number. *)
Definition bytes32 (b : bytes) : Z := be (b ++ replicate (32 - length b) x00).
Definition address_word `{Ext} (a : EthAddress) : Z := be (address_as_bytes a).
Definition VAddress `{Ext} (a : EthAddress) : abi_value := VWord (address_word a).

Class Evm `{X : Ext} := {
  keccak256 : bytes → bytes;
  (** The address that made the signature [v, r, s] of the digest. *)
  ecrecover : bytes → Z → Z → Z → EthAddress;
  abi_encode : list abi_value → bytes;
  (** The four bytes that select a function, from its signature. *)
  selector : string → bytes;
  (** The value a [clarity] token stands for. *)
  token_value : Token → abi_value;
}.

(** The text [sign_ethereum_msg] and the contract's [verifySig] put before a digest. *)
Definition signed_message_prefix : bytes := x19 :: to_bytes "Ethereum Signed Message:" ++ [x0a] ++ to_bytes "32".

Class EvmLaws `(V : Evm) := {
  law_encode_tokens : ∀ ts, encode_tokens ts = abi_encode (token_value <$> ts);
  law_encode_call : ∀ f ts payload, encode_call f ts = Ok payload →
    payload = selector f ++ abi_encode (token_value <$> ts);
  law_value_uint : ∀ z, token_value (TokenUint z) = VWord z;
  law_value_u64 : ∀ z, token_value (token_of_u64 z) = VWord z;
  law_value_u256 : ∀ z, token_value (token_of_u256 z) = VWord z;
  law_value_address : ∀ a, token_value (token_of_address a) = VAddress a;
  law_value_addresses : ∀ l, token_value (token_of_addresses l) = VArray (VAddress <$> l);
  law_value_u64s : ∀ l, token_value (token_of_u64s l) = VArray (VWord <$> l);
  law_value_u256s : ∀ l, token_value (token_of_u256s l) = VArray (VWord <$> l);
  law_value_fixed_string : ∀ s, (String.length s ≤ 32)%nat →
    token_value (TokenFixedString s) = VWord (bytes32 (to_bytes s));
  law_value_bytes : ∀ b, (length b ≤ 32)%nat → token_value (TokenBytes b) = VWord (bytes32 b);
  law_value_unbounded : ∀ b, token_value (TokenUnboundedBytes b) = VBytes b;
  law_value_dynamic : ∀ ts, token_value (TokenDynamic ts) = VArray (token_value <$> ts);
  law_value_struct : ∀ ts, token_value (TokenStruct ts) = VTuple (token_value <$> ts);
  (** What is signed is the digest behind the prefix, and a signature with the [v] of such a message
      recovers to one address on both sides. *)
  law_msg_hash : ∀ m, get_ethereum_msg_hash m = keccak256 (signed_message_prefix ++ keccak256 m);
  law_ecrecover : ∀ sig h a, sig_v sig = 27 ∨ sig_v sig = 28 → signature_recover sig h = Ok a →
    ecrecover h (sig_v sig) (sig_r sig) (sig_s sig) = a;
}.
