(* ===== verification/Float.v ===== *)
(** * Single and double precision arithmetic

    Rust's [f32] and [f64] are IEEE 754 binary32 and binary64; the model is the Standard Library's
    [SpecFloat], which defines the operations bit for bit on mantissa and exponent. The rounding
    function is put in closed form at any precision; the lemmas after it characterise, exactly, the
    pattern of single precision arithmetic that the bridge code has: [u64 as f32], a division by the
    power of two that [u32::MAX as f32] rounds to, a multiplication by 100. FractionTheory.v has the
    one of double precision. *)

From S2P Require Import Prelude Bytes Proto External.
From Stdlib Require Import SpecFloat.

(** ** The operations *)

(** [x as f32] and [x as f64] of an unsigned integer, rounding to nearest, ties to even. *)
Definition f32_of_u64 (z : Z) : f32 := binary_normalize 24 128 z 0 false.
Definition f64_of_u128 (z : Z) : f64 := binary_normalize 53 1024 z 0 false.
Definition f32_div : f32 → f32 → f32 := SFdiv 24 128.
Definition f32_mul : f32 → f32 → f32 := SFmul 24 128.
Definition f64_mul : f64 → f64 → f64 := SFmul 53 1024.
Definition f64_div : f64 → f64 → f64 := SFdiv 53 1024.
(** [<] and [<=]; false when a NaN is compared. *)
Definition f32_lt : f32 → f32 → bool := SFltb.
Definition f32_le : f32 → f32 → bool := SFleb.

(** ** Rounding a mantissa by [n] bits, to nearest, ties to even *)

Definition rne (m n : Z) : Z :=
  let q := m / 2 ^ n in
  let r := m mod 2 ^ n in
  if 2 * r <? 2 ^ n then q
  else if 2 ^ n <? 2 * r then q + 1
  else if Z.even q then q else q + 1.

Lemma rne_bounds m n : 0 ≤ n → m / 2 ^ n ≤ rne m n ≤ m / 2 ^ n + 1.
Proof. unfold rne. intros. repeat case_match; lia. Qed.

(** What [n] right shifts of the rounding record compute: the quotient, the last bit shifted out,
    and whether any earlier one was set. *)
Definition shr_spec (m : Z) (n : nat) (r : shr_record) : Prop :=
  shr_m r = m / 2 ^ Z.of_nat n ∧
  match n with
  | O => shr_r r = false ∧ shr_s r = false
  | S k => shr_r r = Z.testbit m (Z.of_nat k) ∧
           shr_s r = negb (m mod 2 ^ Z.of_nat k =? 0)
  end.

Lemma shr_1_nonneg r : 0 ≤ shr_m r →
  shr_1 r = {| shr_m := shr_m r / 2; shr_r := Z.odd (shr_m r); shr_s := shr_r r || shr_s r |}.
Proof.
  destruct r as [m r s]. cbn [shr_m shr_r shr_s]. intros H.
  destruct m as [|[p|p|]|p]; try lia; unfold shr_1; f_equal; try reflexivity.
  - change (Z.pos p~1) with (2 * Z.pos p + 1). apply (Z.div_unique _ _ _ 1); lia.
  - change (Z.pos p~0) with (2 * Z.pos p). apply (Z.div_unique _ _ _ 0); lia.
Qed.

Lemma low_bits_step m k : 0 ≤ m →
  negb (m mod 2 ^ Z.of_nat (S k) =? 0) =
  Z.testbit m (Z.of_nat k) || negb (m mod 2 ^ Z.of_nat k =? 0).
Proof.
  intros Hm. set (b := 2 ^ Z.of_nat k). assert (0 < b) by (unfold b; lia).
  replace (2 ^ Z.of_nat (S k)) with (b * 2) by (unfold b; rewrite Nat2Z.inj_succ, Z.pow_succ_r; lia).
  rewrite Z.rem_mul_r, Z.testbit_odd, Z.shiftr_div_pow2 by lia. fold b.
  pose proof (Z.mod_pos_bound m b ltac:(lia)).
  rewrite Zmod_odd. destruct (Z.odd (m / b)); simpl.
  - destruct (Z.eqb_spec (m mod b + b * 1) 0); [lia | done].
  - by rewrite Z.mul_0_r, Z.add_0_r.
Qed.

Lemma shr_iter_spec m n : 0 ≤ m →
  shr_spec m n (Nat.iter n shr_1 {| shr_m := m; shr_r := false; shr_s := false |}).
Proof.
  intros Hm. induction n as [|n IH].
  - split; [by rewrite Z.div_1_r | done].
  - set (r := Nat.iter n shr_1 _) in *. change (shr_spec m (S n) (shr_1 r)).
    destruct IH as [Hq Hrs].
    rewrite shr_1_nonneg.
    2:{ rewrite Hq. apply Z.div_pos; lia. }
    split; cbn [shr_m shr_r shr_s].
    + rewrite Hq, Z.div_div, Nat2Z.inj_succ, Z.pow_succ_r by lia. f_equal. lia.
    + split.
      * rewrite Hq, Z.testbit_odd, Z.shiftr_div_pow2 by lia. done.
      * destruct n as [|k]; destruct Hrs as [-> ->].
        { by rewrite Z.mod_1_r. }
        symmetry. by apply low_bits_step.
Qed.

Lemma round_shr m n r : 0 ≤ m → 0 < n → shr_spec m (Z.to_nat n) r →
  round_nearest_even (shr_m r) (loc_of_shr_record r) = rne m n.
Proof.
  intros Hm Hn [Hq Hrs]. destruct (Z.to_nat n) as [|k] eqn:Ek; [lia|].
  destruct r as [q' r s]. cbn [shr_m shr_r shr_s] in *. destruct Hrs as [-> ->].
  replace n with (Z.of_nat (S k)) by lia. subst q'. unfold rne.
  set (b := 2 ^ Z.of_nat k). assert (0 < b) by (unfold b; lia).
  replace (2 ^ Z.of_nat (S k)) with (b * 2) by (unfold b; rewrite Nat2Z.inj_succ, Z.pow_succ_r; lia).
  rewrite (Z.rem_mul_r m b 2), Z.testbit_odd, Z.shiftr_div_pow2 by lia. fold b.
  pose proof (Z.mod_pos_bound m b ltac:(lia)). rewrite Zmod_odd.
  destruct (Z.odd (m / b)); destruct (Z.eqb_spec (m mod b) 0) as [E|E]; simpl loc_of_shr_record;
    cbn [round_nearest_even negb];
    repeat match goal with |- context [?x <? ?y] => destruct (Z.ltb_spec x y) end; try lia.
Qed.

(** ** Digits *)

Lemma Zdigits2_log2 m : 0 < m → Zdigits2 m = Z.log2 m + 1.
Proof.
  intros H. destruct m as [|p|p]; try lia. unfold Zdigits2. clear H.
  induction p as [p IH|p IH|]; [| |done].
  - cbn [digits2_pos]. rewrite Pos2Z.inj_succ, IH.
    change (Z.pos p~1) with (2 * Z.pos p + 1). rewrite Z.log2_succ_double by lia. lia.
  - cbn [digits2_pos]. rewrite Pos2Z.inj_succ, IH.
    change (Z.pos p~0) with (2 * Z.pos p). rewrite Z.log2_double by lia. lia.
Qed.

Lemma Zdigits2_eq m d : 0 < d → 2 ^ (d - 1) ≤ m < 2 ^ d → Zdigits2 m = d.
Proof.
  intros Hd Hm. assert (0 < 2 ^ (d - 1)) by (apply Z.pow_pos_nonneg; lia).
  rewrite Zdigits2_log2 by lia. rewrite (Z.log2_unique m (d - 1)); [lia.. |].
  rewrite <- Z.add_1_r. replace (d - 1 + 1) with d by lia. lia.
Qed.

(** ** The rounding function of [SpecFloat], in closed form *)

(** A positive number [m * 2^e]. *)
Definition fin (m e : Z) : spec_float :=
  match m with Z.pos p => S754_finite false p e | _ => S754_nan end.

Lemma iter_pos_nat {A} (f : A → A) p x : SpecFloat.iter_pos f p x = Nat.iter (Pos.to_nat p) f x.
Proof.
  revert x. induction p as [p IH|p IH|]; intros x; cbn [SpecFloat.iter_pos].
  - rewrite !IH, <- Nat.iter_add, <- Nat.iter_succ_r, Pos2Nat.inj_xI. f_equal. lia.
  - rewrite !IH, <- Nat.iter_add, Pos2Nat.inj_xO. f_equal. lia.
  - done.
Qed.

Section Rounding.
Context (prec emax : Z) (Hprec : 1 < prec).

Lemma shr_fexp_exact m e : 0 < m → Zdigits2 m = prec → emin prec emax ≤ e →
  shr_fexp prec emax m e loc_Exact = ({| shr_m := m; shr_r := false; shr_s := false |}, e).
Proof using Hprec.
  intros Hm Hd He. unfold shr_fexp, shr. rewrite Hd.
  replace (fexp prec emax (prec + e) - e) with 0 by (unfold fexp; lia). done.
Qed.

Lemma shr_fexp_shift m e n : 0 < m → 0 < n → Zdigits2 m = prec + n → emin prec emax ≤ e + n →
  ∃ r, shr_fexp prec emax m e loc_Exact = (r, e + n) ∧ shr_spec m (Z.to_nat n) r.
Proof using Hprec.
  intros Hm Hn Hd He. unfold shr_fexp, shr. rewrite Hd.
  replace (fexp prec emax (prec + n + e) - e) with n by (unfold fexp; lia).
  destruct n as [|p|p]; try lia. eexists. split; [done|].
  rewrite iter_pos_nat, Z2Nat.inj_pos. apply shr_iter_spec. lia.
Qed.

Lemma round_exact_gen m e : 0 < m → Zdigits2 m = prec → emin prec emax ≤ e ≤ emax - prec →
  binary_round_aux prec emax false m e loc_Exact = fin m e.
Proof using Hprec.
  intros Hm Hd He. unfold binary_round_aux. rewrite shr_fexp_exact by (done || lia).
  cbn [shr_m loc_of_shr_record round_nearest_even]. rewrite shr_fexp_exact by (done || lia).
  cbn [shr_m]. destruct m; try lia. unfold fin.
  by rewrite (proj2 (Z.leb_le e (emax - prec))) by lia.
Qed.

Lemma rne_mantissa m n : 0 < n → 2 ^ (prec - 1 + n) ≤ m < 2 ^ (prec + n) → 2 ^ (prec - 1) ≤ rne m n ≤ 2 ^ prec.
Proof using Hprec.
  intros Hn Hm. assert (0 < 2 ^ n) by (apply Z.pow_pos_nonneg; lia).
  rewrite !(Z.pow_add_r _ _ n) in Hm by lia. pose proof (rne_bounds m n ltac:(lia)).
  assert (2 ^ (prec - 1) ≤ m / 2 ^ n) by (apply Z.div_le_lower_bound; lia).
  assert (m / 2 ^ n < 2 ^ prec) by (apply Z.div_lt_upper_bound; lia). lia.
Qed.

Lemma round_shift_gen m e n : 0 < n → 2 ^ (prec - 1 + n) ≤ m < 2 ^ (prec + n) →
  emin prec emax ≤ e + n → e + n + 1 ≤ emax - prec →
  binary_round_aux prec emax false m e loc_Exact =
  (if rne m n =? 2 ^ prec then fin (2 ^ (prec - 1)) (e + n + 1) else fin (rne m n) (e + n)).
Proof using Hprec.
  intros Hn Hm He1 He2.
  assert (0 < 2 ^ (prec - 1)) as Hpos by (apply Z.pow_pos_nonneg; lia).
  assert (0 < m) as Hm0 by (assert (0 < 2 ^ (prec - 1 + n)) by (apply Z.pow_pos_nonneg; lia); lia).
  assert (Zdigits2 m = prec + n) as Hd.
  { apply Zdigits2_eq; [lia|]. by replace (prec + n - 1) with (prec - 1 + n) by lia. }
  assert (2 ^ prec = 2 * 2 ^ (prec - 1)) as Hdouble.
  { rewrite <- Z.pow_succ_r by lia. f_equal. lia. }
  destruct (shr_fexp_shift m e n) as (r & Er & Hr); [lia..|].
  unfold binary_round_aux. rewrite Er, (round_shr m n) by (done || lia).
  pose proof (rne_mantissa m n Hn Hm) as Hb.
  destruct (Z.eqb_spec (rne m n) (2 ^ prec)) as [->|Hne].
  - destruct (shr_fexp_shift (2 ^ prec) (e + n) 1) as (r' & -> & Hq & _); [lia..| |lia|].
    { apply Zdigits2_eq; [lia|]. replace (prec + 1 - 1) with prec by lia.
      split; [lia|]. apply Z.pow_lt_mono_r; lia. }
    rewrite Hq. change (2 ^ Z.of_nat (Z.to_nat 1)) with 2.
    replace (2 ^ prec / 2) with (2 ^ (prec - 1)) by (rewrite Hdouble, Z.mul_comm; symmetry; apply Z.div_mul; lia).
    unfold fin. destruct (2 ^ (prec - 1)) eqn:E; try lia.
    by rewrite (proj2 (Z.leb_le (e + n + 1) (emax - prec))) by lia.
  - rewrite shr_fexp_exact; [|lia|apply Zdigits2_eq; lia|lia].
    cbn [shr_m]. destruct (rne m n); try lia. unfold fin.
    by rewrite (proj2 (Z.leb_le (e + n) (emax - prec))) by lia.
Qed.
End Rounding.

(** At single precision. *)
Lemma round_exact m e : 0 < m → Zdigits2 m = 24 → -149 ≤ e ≤ 104 →
  binary_round_aux 24 128 false m e loc_Exact = fin m e.
Proof. intros. apply round_exact_gen; [lia..|]. unfold emin. lia. Qed.
Lemma round_shift m e n : 0 < n → 2 ^ (23 + n) ≤ m < 2 ^ (24 + n) →
  -149 ≤ e + n → e + n + 1 ≤ 104 →
  binary_round_aux 24 128 false m e loc_Exact =
  (if rne m n =? 2 ^ 24 then fin (2 ^ 23) (e + n + 1) else fin (rne m n) (e + n)).
Proof. intros. apply (round_shift_gen 24 128); [done|done| |unfold emin; lia|lia]. by change (24 - 1) with 23. Qed.

(** ** [u64 as f32] *)

(** The result for [0 < z]: a 24-bit mantissa and an exponent [log2 z - 23], exact for small [z],
    rounded to nearest even for large ones. *)
Definition f32_mant (z : Z) : Z * Z :=
  let k := Z.log2 z - 23 in
  if k <=? 0 then (z * 2 ^ (- k), k)
  else if rne z k =? 2 ^ 24 then (2 ^ 23, k + 1) else (rne z k, k).

Lemma shl_align_shift p e e' : e' ≤ e →
  ∃ q, shl_align p e e' = (q, e') ∧ Z.pos q = Z.pos p * 2 ^ (e - e').
Proof.
  intros He. unfold shl_align. destruct (e' - e) as [|d|d] eqn:Ed; try lia.
  - exists p. split; [f_equal; lia|]. replace (e - e') with 0 by lia. lia.
  - eexists. split; [done|]. replace (e - e') with (Z.pos d) by lia.
    rewrite Z.mul_comm. apply Zpower.shift_pos_correct.
Qed.

Lemma f32_of_u64_mant z : 0 < z < 2 ^ 100 →
  f32_of_u64 z = fin (f32_mant z).1 (f32_mant z).2 ∧
  2 ^ 23 ≤ (f32_mant z).1 < 2 ^ 24 ∧
  Z.log2 z - 23 ≤ (f32_mant z).2 ≤ Z.log2 z - 22.
Proof.
  intros [Hz1 Hz2]. destruct z as [|p|p]; try lia.
  pose proof (Z.log2_spec (Z.pos p) ltac:(lia)) as Hl.
  pose proof (Z.log2_nonneg (Z.pos p)). assert (Z.log2 (Z.pos p) < 100) by (apply Z.log2_lt_pow2; lia).
  unfold f32_of_u64, binary_normalize, binary_round, f32_mant.
  change (Z.pos (digits2_pos p)) with (Zdigits2 (Z.pos p)). rewrite Zdigits2_log2 by lia.
  set (L := Z.log2 (Z.pos p)) in *. rewrite <- Z.add_1_r in Hl.
  replace (fexp 24 128 (L + 1 + 0)) with (L - 23) by (unfold fexp, emin; lia).
  destruct (Z.leb_spec (L - 23) 0) as [Hk|Hk].
  - destruct (shl_align_shift p 0 (L - 23)) as (q & -> & Hq); [lia|].
    rewrite Z.sub_0_l in Hq. cbn [fst snd]. rewrite <- Hq.
    assert (2 ^ 23 ≤ Z.pos q < 2 ^ 24).
    { rewrite Hq. replace (2 ^ 23) with (2 ^ L * 2 ^ (- (L - 23))).
      - replace (2 ^ 24) with (2 ^ (L + 1) * 2 ^ (- (L - 23))).
        + assert (0 < 2 ^ (- (L - 23))) by (apply Z.pow_pos_nonneg; lia). nia.
        + rewrite <- Z.pow_add_r by lia. f_equal. lia.
      - rewrite <- Z.pow_add_r by lia. f_equal. lia. }
    split; [|lia]. apply round_exact; [lia|apply Zdigits2_eq; lia|lia].
  - assert (shl_align p 0 (L - 23) = (p, 0)) as ->.
    { unfold shl_align. destruct (L - 23 - 0) eqn:E; try lia; done. }
    rewrite (round_shift _ _ (L - 23)); [|lia| |lia..].
    2:{ by replace (23 + (L - 23)) with L by lia; replace (24 + (L - 23)) with (L + 1) by lia. }
    rewrite !Z.add_0_l.
    assert (2 ^ 23 ≤ rne (Z.pos p) (L - 23) ≤ 2 ^ 24).
    { pose proof (rne_bounds (Z.pos p) (L - 23) ltac:(lia)).
      replace L with (L - 23 + 23) in Hl at 1 by lia.
      replace (L + 1) with (L - 23 + 24) in Hl by lia. rewrite !Z.pow_add_r in Hl by lia.
      assert (0 < 2 ^ (L - 23)) by (apply Z.pow_pos_nonneg; lia).
      assert (2 ^ 23 ≤ Z.pos p / 2 ^ (L - 23)) by (apply Z.div_le_lower_bound; lia).
      assert (Z.pos p / 2 ^ (L - 23) < 2 ^ 24) by (apply Z.div_lt_upper_bound; lia). lia. }
    destruct (Z.eqb_spec (rne (Z.pos p) (L - 23)) (2 ^ 24)); cbn [fst snd]; split; auto; lia.
Qed.

(** ** The two operations the code composes *)

(** Dividing by [u32::MAX as f32], which is 2^32, moves the exponent only. *)
Lemma f32_div_2_32 m e : 2 ^ 23 ≤ m < 2 ^ 24 → -100 ≤ e ≤ 60 →
  f32_div (fin m e) (fin (2 ^ 23) 9) = fin m (e - 32).
Proof.
  intros Hm He. destruct m as [|p|p]; try lia. cbn [fin]. change (2 ^ 23) with (Z.pos 8388608).
  unfold fin, f32_div, SFdiv, SFdiv_core_binary. cbn [xorb].
  rewrite (Zdigits2_eq (Z.pos p) 24), (Zdigits2_eq (Z.pos 8388608) 24) by lia.
  replace (Z.min (fexp 24 128 (24 + e - (24 + 9))) (e - 9)) with (e - 33)
    by (unfold fexp, emin; lia).
  replace (e - 9 - (e - 33)) with (Z.pos 24) by lia. rewrite Z.shiftl_mul_pow2 by lia.
  change (2 ^ Z.pos 24) with (2 * 8388608).
  assert (Z.div_eucl (Z.pos p * (2 * 8388608)) (Z.pos 8388608) = (Z.pos p * 2, 0)) as ->.
  { rewrite (surjective_pairing (Z.div_eucl _ _)). f_equal.
    - change (Z.pos p * (2 * 8388608) / 8388608 = Z.pos p * 2).
      rewrite Z.mul_assoc. by apply Z.div_mul.
    - change (Z.pos p * (2 * 8388608) mod 8388608 = 0).
      rewrite Z.mul_assoc. by apply Z.mod_mul. }
  change (new_location (Z.pos 8388608) 0) with loc_Exact.
  rewrite (round_shift _ _ 1) by lia.
  assert (rne (Z.pos p * 2) 1 = Z.pos p) as ->.
  { unfold rne. change (2 ^ 1) with 2. by rewrite Z.div_mul, Z.mod_mul by lia. }
  rewrite (proj2 (Z.eqb_neq (Z.pos p) (2 ^ 24))) by lia. unfold fin. f_equal. lia.
Qed.

(** [fin 13107200 (-17)] is 100. *)
Lemma f32_mul_100 m e : 2 ^ 23 ≤ m < 2 ^ 24 → -100 ≤ e ≤ 60 →
  f32_mul (fin m e) (fin 13107200 (-17)) =
  (let n := if m * 13107200 <? 2 ^ 47 then 23 else 24 in
   if rne (m * 13107200) n =? 2 ^ 24 then fin (2 ^ 23) (e - 17 + n + 1)
   else fin (rne (m * 13107200) n) (e - 17 + n)).
Proof.
  intros Hm He. destruct m as [|p|p]; try lia.
  change 13107200 with (Z.pos 13107200). unfold f32_mul, fin at 1 2, SFmul. cbn [xorb].
  rewrite Pos2Z.inj_mul. destruct (Z.ltb_spec (Z.pos p * Z.pos 13107200) (2 ^ 47)).
  - apply (round_shift _ _ 23); lia.
  - apply (round_shift _ _ 24); lia.
Qed.

(** Comparing positive numbers whose mantissas have 24 bits. *)
Lemma f32_lt_fin m1 e1 m2 e2 : 0 < m1 → 0 < m2 →
  f32_lt (fin m1 e1) (fin m2 e2) = (e1 <? e2) || ((e1 =? e2) && (m1 <? m2)).
Proof.
  intros H1 H2. destruct m1 as [|p|p], m2 as [|q|q]; try lia.
  unfold f32_lt, SFltb, SFcompare, fin.
  destruct (Z.compare_spec e1 e2) as [->|Hlt|Hgt].
  - rewrite Z.ltb_irrefl, Z.eqb_refl. simpl.
    change (Pos.compare_cont Eq p q) with (Z.pos p ?= Z.pos q).
    unfold Z.ltb. by destruct (Z.pos p ?= Z.pos q).
  - by rewrite (proj2 (Z.ltb_lt e1 e2)).
  - rewrite (proj2 (Z.ltb_ge e1 e2)), (proj2 (Z.eqb_neq e1 e2)) by lia. done.
Qed.

(** ** The two numbers the bridge computes from a power *)

(** [(p as f32 / u32::MAX as f32) * 100.0 < 66.0], as an integer test on [p]. The constant is below
    66% of 2^32 (2834678415.36): numbers this large are rounded to multiples of 256 and the
    product is rounded again. *)
Definition percent_threshold : Z := 2834678144.

Lemma f32_mant_at_31 z : 2 ^ 31 ≤ z < 2 ^ 32 →
  f32_mant z = (if rne z 8 =? 2 ^ 24 then (2 ^ 23, 9) else (rne z 8, 8)).
Proof.
  intros Hz. unfold f32_mant. by rewrite (Z.log2_unique z 31) by lia.
Qed.

Lemma rne_23 x : 2 ^ 46 ≤ x < 2 ^ 47 → rne x 23 = 2 ^ 24 ∨ 2 ^ 23 ≤ rne x 23 < 2 ^ 24.
Proof.
  intros Hx. pose proof (rne_bounds x 23 ltac:(lia)). change (2 ^ 23) with 8388608 in *. dlia.
Qed.

Lemma rne_24 x : 2 ^ 47 ≤ x ≤ (2 ^ 24 - 1) * 13107200 → 2 ^ 23 ≤ rne x 24 < 2 ^ 24.
Proof.
  intros Hx. pose proof (rne_bounds x 24 ltac:(lia)). change (2 ^ 24) with 16777216 in *. dlia.
Qed.

(** Half way between the multiples 11072961 and 11072962 of 256 is the threshold. *)
Lemma rne_8 z : 2 ^ 31 ≤ z < 2 ^ 32 →
  2 ^ 23 ≤ rne z 8 ≤ 2 ^ 24 ∧ (rne z 8 ≤ 11072961 ↔ z < percent_threshold).
Proof.
  intros Hz. unfold percent_threshold. split.
  - pose proof (rne_bounds z 8 ltac:(lia)). change (2 ^ 8) with 256 in *. dlia.
  - unfold rne. change (2 ^ 8) with 256 in *. rewrite (Zeven_mod (z / 256)).
    repeat match goal with
    | |- context [if ?a <? ?b then _ else _] => destruct (Z.ltb_spec a b)
    | |- context [if ?a =? ?b then _ else _] => destruct (Z.eqb_spec a b)
    end; dlia.
Qed.

Lemma percent_lt_fin m e : 2 ^ 23 ≤ m < 2 ^ 24 → -23 ≤ e ≤ 60 →
  f32_lt (f32_mul (fin m (e - 32)) (fin 13107200 (-17))) (fin 8650752 (-17)) =
  (e <? 8) || ((e =? 8) && (m <=? 11072961)).
Proof.
  intros Hm He. rewrite f32_mul_100 by lia. cbv zeta.
  destruct (Z.ltb_spec (m * 13107200) (2 ^ 47)) as [Hs|Hs].
  - pose proof (rne_23 (m * 13107200) ltac:(lia)) as Hr.
    assert (13107200 ≤ rne (m * 13107200) 23).
    { pose proof (rne_bounds (m * 13107200) 23 ltac:(lia)). change (2 ^ 23) with 8388608 in *. dlia. }
    destruct (Z.eqb_spec (rne (m * 13107200) 23) (2 ^ 24)) as [Hc|Hc]; rewrite f32_lt_fin by lia; lia.
  - pose proof (rne_24 (m * 13107200) ltac:(lia)) as Hr.
    rewrite (proj2 (Z.eqb_neq _ (2 ^ 24))), f32_lt_fin by lia.
    assert ((rne (m * 13107200) 24 <? 8650752) = (m <=? 11072961)) as Hx.
    { clear Hr. unfold rne. change (2 ^ 24) with 16777216 in *.
      pose proof (Zeven_mod (m * 13107200 / 16777216)) as Hev. rewrite Hev. clear Hev.
      repeat match goal with
      | |- context [if ?a <? ?b then _ else _] => destruct (Z.ltb_spec a b)
      | |- context [if ?b then _ else _] => destruct b eqn:?
      end; dlia. }
    rewrite Hx. lia.
Qed.

Lemma percent_lt_66 z : 0 ≤ z ≤ U64_MAX →
  f32_lt (f32_mul (f32_div (f32_of_u64 z) (fin (2 ^ 23) 9)) (fin 13107200 (-17)))
    (fin 8650752 (-17)) = (z <? percent_threshold).
Proof.
  intros [Hz0 Hz]. unfold U64_MAX, percent_threshold in *.
  destruct (Z.eq_dec z 0) as [->|Hnz]; [reflexivity|].
  destruct (f32_of_u64_mant z) as (-> & Hm & He); [lia|].
  assert (0 ≤ Z.log2 z < 64) by (split; [apply Z.log2_nonneg | apply Z.log2_lt_pow2; lia]).
  rewrite f32_div_2_32, percent_lt_fin by lia.
  destruct (Z.lt_trichotomy (Z.log2 z) 31) as [Hlt|[Heq|Hgt]].
  - assert (z < 2 ^ 31) by (apply Z.log2_lt_pow2; lia). rewrite (proj2 (Z.ltb_lt z _)) by lia.
    destruct (Z.eq_dec (Z.log2 z) 30) as [Hk|Hk]; [|lia].
    destruct (Z.eq_dec (f32_mant z).2 8) as [H8|H8]; [|lia].
    (* rounding carried to 2^31: the mantissa is 2^23 *)
    assert ((f32_mant z).1 = 2 ^ 23) as ->; [|by rewrite H8].
    revert H8. unfold f32_mant. rewrite Hk. change (30 - 23 <=? 0) with false. cbv iota.
    destruct (rne z (30 - 23) =? 2 ^ 24); cbn [fst snd]; [done | lia].
  - pose proof (Z.log2_spec z ltac:(lia)) as Hl. rewrite Heq in Hl.
    change (Z.succ 31) with 32 in Hl.
    rewrite f32_mant_at_31 by lia. pose proof (rne_8 z ltac:(lia)).
    unfold percent_threshold in *.
    destruct (Z.eqb_spec (rne z 8) (2 ^ 24)); cbn [fst snd]; lia.
  - assert (2 ^ 32 ≤ z) by (apply Z.log2_le_pow2; lia).
    rewrite (proj2 (Z.ltb_ge z _)) by lia. lia.
Qed.

Lemma f32_le_fin m1 e1 m2 e2 : 0 < m1 → 0 < m2 →
  f32_le (fin m1 e1) (fin m2 e2) = (e1 <? e2) || ((e1 =? e2) && (m1 <=? m2)).
Proof.
  intros H1 H2. destruct m1 as [|p|p], m2 as [|q|q]; try lia.
  unfold f32_le, SFleb, SFcompare, fin.
  destruct (Z.compare_spec e1 e2) as [->|Hlt|Hgt].
  - rewrite Z.ltb_irrefl, Z.eqb_refl. simpl.
    change (Pos.compare_cont Eq p q) with (Z.pos p ?= Z.pos q).
    unfold Z.leb. by destruct (Z.pos p ?= Z.pos q).
  - by rewrite (proj2 (Z.ltb_lt e1 e2)).
  - rewrite (proj2 (Z.ltb_ge e1 e2)), (proj2 (Z.eqb_neq e1 e2)) by lia. done.
Qed.

(** [t as f32 / u32::MAX as f32 <= 2.0] for the largest sum two normalised validator sets give. *)
Lemma ratio_le_2 t : 0 ≤ t ≤ 2 * U32_MAX →
  f32_le (f32_div (f32_of_u64 t) (fin (2 ^ 23) 9)) (fin (2 ^ 23) (-22)) = true.
Proof.
  unfold U32_MAX. intros Ht. destruct (Z.eq_dec t 0) as [->|Hnz]; [reflexivity|].
  destruct (f32_of_u64_mant t) as (-> & Hm & He); [lia|].
  assert (0 ≤ Z.log2 t < 33) by (split; [apply Z.log2_nonneg | apply Z.log2_lt_pow2; lia]).
  rewrite f32_div_2_32, f32_le_fin by lia.
  destruct (Z.eq_dec (f32_mant t).2 10) as [H10|]; [|lia].
  assert ((f32_mant t).1 = 2 ^ 23) as ->; [|by rewrite H10].
  assert (Z.log2 t = 32) as Hk by lia. revert H10. unfold f32_mant. rewrite Hk.
  change (32 - 23 <=? 0) with false. cbv iota.
  destruct (rne t (32 - 23) =? 2 ^ 24); cbn [fst snd]; [done | lia].
Qed.

Lemma f32_ratio_zero t : 0 ≤ t ≤ U64_MAX →
  f32_div (f32_of_u64 t) (fin (2 ^ 23) 9) = S754_zero false → t = 0.
Proof.
  unfold U64_MAX. intros Ht. destruct (Z.eq_dec t 0) as [->|Hnz]; [done|].
  destruct (f32_of_u64_mant t) as (-> & Hm & He); [lia|].
  assert (0 ≤ Z.log2 t < 64) by (split; [apply Z.log2_nonneg | apply Z.log2_lt_pow2; lia]).
  rewrite f32_div_2_32 by lia. destruct (f32_mant t).1; try lia. done.
Qed.
