(* ===== verification/Instances.v ===== *)
(** * A concrete instance of the interface of External.v

    Small executable stand-ins for the third-party functions that satisfy every law of [ExtLaws]:
    the theorems' hypotheses can be met, and the model can be run. An address is its 20 bytes and
    prints as them; a signature recovers to the address its [r] holds when its [s] is the signed
    message; iterating a map walks it backwards. *)

From S2P Require Import Prelude Bytes Proto External Evm.
From Stdlib Require Import Strings.Byte.

(** ** Addresses *)

Definition is_address (b : bytes) : bool := (length b =? 20)%nat.
Definition address : Type := { b : bytes | is_address b = true }.

Definition mk_address (b : bytes) : option address :=
  match bool_dec (is_address b) true with
  | left H => Some (exist _ b H)
  | right _ => None
  end.

Lemma mk_address_proj (a : address) : mk_address (`a) = Some a.
Proof.
  destruct a as [b H]. unfold mk_address. simpl. destruct (bool_dec _ _) as [H'|]; [|done].
  by rewrite (proof_irrel H' H).
Qed.

Lemma mk_address_Some b a : mk_address b = Some a → `a = b.
Proof. unfold mk_address. destruct (bool_dec _ _); intros [= <-]. done. Qed.

Lemma mk_address_20 b : length b = 20%nat → ∃ a, mk_address b = Some a.
Proof.
  intros H. unfold mk_address. destruct (bool_dec _ _) as [|n]; [eauto|].
  destruct n. unfold is_address. by rewrite H.
Qed.

Definition is_address_split z : is_address (be_split 20 z) = true := eq_refl.
Definition addr (z : Z) : address := exist _ (be_split 20 z) (is_address_split z).

Definition from_slice (b : bytes) : result address string :=
  match mk_address b with Some a => Ok a | None => Err "byte length error"%string end.

Definition addr_cmp (a b : address) : comparison := be (`a) ?= be (`b).

Lemma addr_cmp_eq a b : addr_cmp a b = Eq ↔ a = b.
Proof.
  unfold addr_cmp. rewrite Z.compare_eq_iff. split; [|by intros ->].
  destruct a as [a Ha], b as [b Hb]. simpl. intros E. apply (sig_eq_pi _). simpl.
  unfold is_address in *. apply Nat.eqb_eq in Ha, Hb. apply be_inj; congruence.
Qed.

(** ** Numbers *)

Definition to_bytes_be (z : Z) : bytes :=
  if z =? 0 then [x00] else be_split (Z.to_nat (Z.log2 z / 8 + 1)) z.

Definition in_u256 (z : Z) : eval Z :=
  if (0 <=? z) && (z <=? U256_MAX) then Done z else Panic "Uint256 out of range".

Lemma in_u256_Done z : 0 ≤ z ≤ U256_MAX → in_u256 z = Done z.
Proof. intros. unfold in_u256. by rewrite !(proj2 (Z.leb_le _ _)) by lia. Qed.

Lemma to_bytes_be_spec z n : 0 < z < 256 ^ Z.of_nat n →
  (length (to_bytes_be z) ≤ n)%nat ∧ be (to_bytes_be z) = z.
Proof.
  intros [Hz Hn]. unfold to_bytes_be. rewrite (proj2 (Z.eqb_neq z 0)) by lia.
  rewrite length_be_split. pose proof (Z.log2_nonneg z).
  pose proof (Z.log2_spec z Hz) as [_ Hl].
  change 256 with (2 ^ 8) in Hn. rewrite <- Z.pow_mul_r in Hn by lia.
  split.
  - assert (Z.log2 z < 8 * Z.of_nat n) by (apply Z.log2_lt_pow2; lia). dlia.
  - apply be_split_small. split; [lia|]. change 256 with (2 ^ 8).
    rewrite <- Z.pow_mul_r by lia. eapply Z.lt_le_trans; [exact Hl|].
    apply Z.pow_le_mono_r; [lia|]. dlia.
Qed.

(** ** Signatures and tokens *)

#[warnings="-register-all"]
Inductive token :=
  | TUint (z : Z)
  | TText (s : string)
  | TFixedText (s : string)
  | TBytes (b : bytes)
  | TUnbounded (b : bytes)
  | TAddress (a : address)
  | TSeq (l : list token)
  | TStruct (l : list token).

(** The value of a token, and bytes that show a value: words are 32 bytes. *)
Fixpoint value_of (t : token) : abi_value :=
  match t with
  | TUint z => VWord z
  | TText s => VBytes (to_bytes s)
  | TFixedText s => VWord (bytes32 (to_bytes s))
  | TBytes b => VWord (bytes32 b)
  | TUnbounded b => VBytes b
  | TAddress a => VWord (be (`a))
  | TSeq l => VArray (map value_of l)
  | TStruct l => VTuple (map value_of l)
  end.
Fixpoint show_value (v : abi_value) : bytes :=
  match v with
  | VWord z => be_split 32 z
  | VBytes b => b
  | VArray l | VTuple l => x28 :: concat (map show_value l) ++ [x29]
  end.
Definition show_tokens (l : list token) : bytes := show_value (VTuple (value_of <$> l)).

Definition recover (s : EthSignature) (m : bytes) : result address string :=
  Ok (addr (sig_r s + (sig_s s - be m))).

(** The hash of a message is its number modulo 2^256; the [r] of a signature is its key. *)
Definition msg_hash (m : bytes) : bytes := be_split 32 (be m).
Definition sign_with (hash : bytes → bytes) (k : Z) (m : bytes) : EthSignature :=
  mkSignature 27 (be (be_split 20 k)) (be (hash m)).

Definition sig_bytes (s : EthSignature) : bytes :=
  be_split 32 (sig_r s) ++ be_split 32 (sig_s s) ++ be_split 1 (sig_v s).

Definition parse_signature (b : bytes) : result EthSignature string :=
  if (length b =? 65)%nat
  then Ok (mkSignature (be (drop 64 b)) (be (take 32 b)) (be (take 32 (drop 32 b))))
  else Err "bad signature"%string.

Lemma from_slice_proj (a : address) : from_slice (`a) = Ok a.
Proof. unfold from_slice. by rewrite mk_address_proj. Qed.

(** An address prints as its bytes; it is also read from 40 hexadecimal digits. *)
Definition hex_digit (b : byte) : Z :=
  let z := byte_val b in if z <? 58 then z - 48 else if z <? 71 then z - 55 else z - 87.
Definition parse_address (s : string) : result address string :=
  let b := to_bytes s in
  if String.prefix "0x" s && (length b =? 42)%nat
  then Ok (addr (fold_left (λ acc d, acc * 16 + hex_digit d) (drop 2 b) 0))
  else from_slice b.
Lemma parse_address_string (a : address) : parse_address (of_bytes (`a)) = Ok a.
Proof.
  unfold parse_address. rewrite to_of_bytes. destruct a as [b Hb]. simpl.
  apply Nat.eqb_eq in Hb as Hl. rewrite Hl, andb_false_r. unfold from_slice.
  apply (from_slice_proj (exist _ b Hb)).
Qed.

(** What instances may choose: the hash of a message and the address behind a signature, the
    encoding of calls, and texts. *)
Record choices := mkChoices {
  ch_hash : bytes → bytes;
  ch_recover : EthSignature → bytes → result address string;
  ch_encode : list token → bytes;
  ch_encode_call : string → list token → result bytes string;
  ch_hex : bytes → string;
  ch_unhex : string → result bytes string;
  ch_show_address : address → string;
  ch_parse_address : string → result address string;
  ch_parse_cosmos : string → result address string;
}.

Definition ext_with (c : choices) : Ext := {|
  ParseBigIntError := unit;
  u256_from_bytes_be := be;
  u256_to_bytes_be := to_bytes_be;
  u256_to_string := dec_string;
  u256_parse := parse_uint U256_MAX;
  u256_add a b := in_u256 (a + b);
  u256_sub a b := in_u256 (a - b);
  u256_mul a b := in_u256 (a * b);
  parse_big_int_error_string _ := "invalid digit found in string"%string;
  ClarityError := string;
  clarity_error_string e := e;
  EthAddress := address;
  address_as_bytes a := `a;
  address_cmp := addr_cmp;
  address_from_slice := from_slice;
  address_parse := ch_parse_address c;
  address_to_string := ch_show_address c;
  address_default := addr 0;
  ZERO_ADDRESS := addr 0;
  signature_is_valid s := (sig_v s =? 27) || (sig_v s =? 28);
  signature_recover := ch_recover c;
  signature_parse s := match ch_unhex c s with Ok b => parse_signature b | Err e => Err e end;
  signature_to_bytes := sig_bytes;
  EthPrivateKey := Z;
  eth_key_to_address := addr;
  sign_ethereum_msg := sign_with (ch_hash c);
  get_ethereum_msg_hash := ch_hash c;
  hex_str_to_bytes := ch_unhex c;
  bytes_to_hex_str := ch_hex c;
  Token := token;
  TokenUint := TUint;
  TokenString := TText;
  TokenFixedString := TFixedText;
  TokenBytes := TBytes;
  TokenUnboundedBytes := TUnbounded;
  TokenDynamic := TSeq;
  TokenStruct := TStruct;
  token_of_address := TAddress;
  token_of_u64 := TUint;
  token_of_u8 := TUint;
  token_of_u256 := TUint;
  token_of_addresses l := TSeq (map TAddress l);
  token_of_u64s l := TSeq (map TUint l);
  token_of_u256s l := TSeq (map TUint l);
  encode_tokens := ch_encode c;
  encode_call := ch_encode_call c;
  CosmosAddressError := string;
  cosmos_address_error_string e := e;
  CosmosAddress := address;
  cosmos_address_from_bytes b _ := from_slice b;
  cosmos_address_as_bytes a := `a;
  cosmos_address_parse := ch_parse_cosmos c;
  cosmos_address_to_string a := of_bytes (`a);
  cosmos_address_to_bech32 a p := Ok (p +:+ of_bytes (`a))%string;
  COSMOS_DEFAULT_PREFIX := "cosmos"%string;
  CosmosPrivateKey := Z;
  PrivateKeyError := string;
  cosmos_key_to_address k _ := Ok (addr k);
  MessageArgs := unit;
  sign_std_msg k _ _ memo := Ok (to_bytes memo);
  TxResponse := bytes;
  deep_space_bytes_to_hex_str := ch_hex c;
  GrpcOther := string;
  signing_error e := e;
  Web3Error := string;
  web3_bad_response s := s;
  Status := string;
  WETH_CONTRACT_ADDRESS := addr 7;
  hash_order A l := reverse l;
|}.

(** Texts are the bytes; calls and values are shown by name. *)
Definition plain_choices : choices := {|
  ch_hash := msg_hash;
  ch_recover := recover;
  ch_encode := show_tokens;
  ch_encode_call f l := Ok (to_bytes f ++ show_tokens l);
  ch_hex := of_bytes;
  ch_unhex s := Ok (to_bytes s);
  ch_show_address a := of_bytes (`a);
  ch_parse_address := parse_address;
  ch_parse_cosmos s := from_slice (to_bytes s);
|}.
Definition concrete_ext : Ext := Eval cbv beta iota zeta delta
  [ext_with plain_choices ch_hash ch_recover ch_encode ch_encode_call ch_hex ch_unhex ch_show_address
   ch_parse_address ch_parse_cosmos] in ext_with plain_choices.

(** Sample addresses, at the interface's types. *)
Definition eth (z : Z) : @EthAddress concrete_ext := addr z.
Definition cosmos (z : Z) : @CosmosAddress concrete_ext := addr z.

Lemma addr_be k : addr (be (be_split 20 k)) = addr k.
Proof.
  apply (sig_eq_pi _). unfold addr, proj1_sig.
  rewrite <- (length_be_split 20 k) at 1. apply be_split_be.
Qed.

Lemma recover_sign_with hash k m : recover (sign_with hash k m) (hash m) = Ok (addr k).
Proof.
  unfold recover, sign_with. cbn [sig_r sig_s]. by rewrite Z.sub_diag, Z.add_0_r, addr_be.
Qed.

Lemma parse_sign_with hash k m : length (hash m) = 32%nat →
  parse_signature (sig_bytes (sign_with hash k m)) = Ok (sign_with hash k m).
Proof.
  intros Hh. unfold parse_signature, sig_bytes, sign_with. cbn [sig_r sig_s sig_v].
  set (r := be (be_split 20 k)). set (s := be (hash m)).
  assert (0 ≤ r < 2 ^ 256) as Hr.
  { pose proof (be_bound (be_split 20 k)) as H. rewrite length_be_split in H. unfold r. split; [lia|].
    eapply Z.lt_le_trans; [apply H|]. vm_compute. discriminate. }
  assert (0 ≤ s < 2 ^ 256) as Hs.
  { pose proof (be_bound (hash m)) as H. rewrite Hh in H. exact H. }
  rewrite !length_app, !length_be_split. simpl Nat.eqb. cbv iota.
  rewrite take_app_length' by (by rewrite length_be_split).
  replace (drop 32 _) with (be_split 32 s ++ be_split 1 27) by (by rewrite drop_app_length' by (by rewrite length_be_split)).
  rewrite take_app_length' by (by rewrite length_be_split).
  replace (drop 64 _) with (be_split 1 27)
    by (rewrite app_assoc, drop_app_length' by (rewrite length_app, !length_be_split; reflexivity); done).
  rewrite !be_split_small by (simpl; lia). done.
Qed.

#[local] Arguments be_split : simpl never.
#[local] Arguments sign_with : simpl never.
#[local] Arguments sig_bytes : simpl never.
#[local] Arguments parse_signature : simpl never.
#[local] Arguments recover : simpl never.
#[local] Arguments msg_hash : simpl never.
(** What a choice must keep to. *)
Class Choices (c : choices) := {
  ch_hash_length : ∀ m, length (ch_hash c m) = 32%nat;
  ch_recover_own : ∀ k m, ch_recover c (sign_with (ch_hash c) k m) (ch_hash c m) = Ok (addr k);
  ch_hex_unhex : ∀ b, ch_unhex c (ch_hex c b) = Ok b;
  ch_parse_show : ∀ a, ch_parse_address c (ch_show_address c a) = Ok a;
  ch_parse_empty : is_ok (ch_parse_address c "") = false;
  ch_cosmos : ∀ a, ch_parse_cosmos c (of_bytes (`a)) = Ok a;
}.

Lemma ext_with_laws c `{!Choices c} : ExtLaws (ext_with c).
Proof.
  split; simpl.
  - done.
  - apply to_bytes_be_spec.
  - done.
  - done.
  - intros. by apply parse_uint_dec.
  - intros. apply in_u256_Done. lia.
  - intros. apply in_u256_Done. lia.
  - intros. apply in_u256_Done. lia.
  - intros [b H]. simpl. by apply Nat.eqb_eq.
  - apply from_slice_proj.
  - unfold from_slice. intros b a. destruct (mk_address b) eqn:E; intros [= <-].
    by apply mk_address_Some.
  - intros b H. unfold from_slice. destruct (mk_address_20 b H) as [a ->]. eauto.
  - apply addr_cmp_eq.
  - intros. unfold addr_cmp. by rewrite Z.compare_antisym.
  - intros x y z. unfold addr_cmp. rewrite !Z.compare_lt_iff. lia.
  - apply ch_parse_show.
  - apply ch_parse_empty.
  - done.
  - done.
  - done.
  - apply ch_recover_own.
  - intros k m. rewrite ch_hex_unhex. apply parse_sign_with, ch_hash_length.
  - apply ch_hex_unhex.
  - intros b _ H. unfold from_slice. by destruct (mk_address_20 b H) as [a ->].
  - apply ch_cosmos.
  - intros. by rewrite reverse_Permutation.
Qed.

#[export] Instance plain_choices_ok : Choices plain_choices.
Proof.
  split; simpl.
  - done.
  - intros k m. apply recover_sign_with.
  - intros b. by rewrite to_of_bytes.
  - apply parse_address_string.
  - done.
  - intros a. by rewrite to_of_bytes, from_slice_proj.
Qed.
Lemma concrete_laws : ExtLaws concrete_ext.
Proof. apply (ext_with_laws plain_choices). Qed.

(** The virtual machine of the same instance: a hash keeps the last 32 bytes. *)
Definition concrete_evm : @Evm concrete_ext := {|
  keccak256 := msg_hash;
  ecrecover h v r s := eth (r + (s - be h));
  abi_encode l := show_value (VTuple l);
  selector := to_bytes;
  token_value := (value_of : @Token concrete_ext → abi_value);
|}.

Lemma msg_hash_prefix p m : msg_hash (p ++ msg_hash m) = msg_hash m.
Proof.
  assert (∀ x, length (msg_hash x) = 32%nat) as Hl by (intros x; apply length_be_split).
  apply be_inj; [by rewrite !Hl|]. pose proof (be_bound (msg_hash m)) as Hb. rewrite Hl in Hb.
  change (be (msg_hash (p ++ msg_hash m))) with (be (be_split 32 (be (p ++ msg_hash m)))).
  rewrite be_be_split, be_app, Hl, Z.add_comm, Z_mod_plus_full. by apply Z.mod_small.
Qed.

#[local] Arguments msg_hash : simpl never.
Lemma concrete_evm_laws : @EvmLaws concrete_ext concrete_evm.
Proof.
  split; simpl.
  - done.
  - by intros f ts payload [= <-].
  - done.
  - done.
  - done.
  - done.
  - intros l. f_equal. by rewrite map_map.
  - intros l. f_equal. by rewrite map_map.
  - intros l. f_equal. by rewrite map_map.
  - done.
  - done.
  - done.
  - done.
  - done.
  - intros m. symmetry. exact (msg_hash_prefix signed_message_prefix m).
  - intros sig h a _ [= <-]. done.
Qed.

Definition checked_build : Build := {| overflow_checks := true; info_enabled := true |}.
