(* ===== verification/Standards.v ===== *)
(** * Keccak-256, the contract ABI and hexadecimal text

    The public standards the bridge speaks, executable: the hash of Ethereum (Keccak[512] with the
    padding of its first submission), the argument encoding of the contract ABI specification, and
    hexadecimal text. [Standards] states that the third-party code implements them. The model's
    theorems need none of this; the repository's own test vectors do (UnitTests.v). *)

From S2P Require Import Prelude Bytes Proto External Evm.
From Stdlib Require Import Strings.Byte.

(** ** Keccak-256 *)

Section Keccak.
Implicit Types (s : list Z) (b : bytes).

(** The state is five rows of five lanes of 64 bits. *)
Definition lane s (x y : nat) : Z := nth (x mod 5 + 5 * (y mod 5)) s 0.
Definition by_lane (f : nat → nat → Z) : list Z :=
  y ← seq 0 5; (λ x, f x y) <$> seq 0 5.
Definition rotl64 (x n : Z) : Z := Z.land (Z.lor (Z.shiftl x n) (Z.shiftr x (64 - n))) (Z.ones 64).

Definition theta s : list Z :=
  let c := (λ x, foldr Z.lxor 0 (lane s x <$> seq 0 5)) <$> seq 0 5 in
  let d := (λ x, Z.lxor (lane c (x + 4) 0) (rotl64 (lane c (x + 1) 0) 1)) <$> seq 0 5 in
  by_lane (λ x y, Z.lxor (lane s x y) (lane d x 0)).
Definition offsets : list Z :=
  [0; 1; 62; 28; 27;  36; 44; 6; 55; 20;  3; 10; 43; 25; 39;  41; 45; 15; 21; 8;  18; 2; 61; 56; 14].
Definition rho_pi s : list Z :=
  by_lane (λ x y, rotl64 (lane s (x + 3 * y) x) (lane offsets (x + 3 * y) x)).
Definition chi s : list Z :=
  by_lane (λ x y, Z.lxor (lane s x y) (Z.ldiff (lane s (x + 2) y) (lane s (x + 1) y))).
Definition iota (c : Z) s : list Z := match s with [] => [] | a :: s => Z.lxor a c :: s end.

Definition round_constants : list Z :=
  [0x0000000000000001; 0x0000000000008082; 0x800000000000808A; 0x8000000080008000; 0x000000000000808B;
   0x0000000080000001; 0x8000000080008081; 0x8000000000008009; 0x000000000000008A; 0x0000000000000088;
   0x0000000080008009; 0x000000008000000A; 0x000000008000808B; 0x800000000000008B; 0x8000000000008089;
   0x8000000000008003; 0x8000000000008002; 0x8000000000000080; 0x000000000000800A; 0x800000008000000A;
   0x8000000080008081; 0x8000000000008080; 0x0000000080000001; 0x8000000080008008].
Definition keccak_f s : list Z := foldl (λ s c, iota c (chi (rho_pi (theta s)))) s round_constants.

(** The sponge: blocks of 136 bytes, 17 lanes, least significant byte first. *)
Definition rate : nat := 136.
Definition pad_block b : bytes :=
  let q := (rate - length b mod rate)%nat in
  b ++ match q with 1%nat => [x81] | _ => x01 :: replicate (q - 2) x00 ++ [x80] end.
(** [b] in pieces of [n] bytes; [fuel] pieces at most. *)
Fixpoint chunks (fuel n : nat) b : list bytes :=
  match fuel, b with
  | S fuel, _ :: _ => take n b :: chunks fuel n (drop n b)
  | _, _ => []
  end.
Definition absorb s (block : bytes) : list Z :=
  keccak_f (zip_with Z.lxor s (((λ l, be (reverse l)) <$> chunks 17 8 block) ++ replicate 8 0)).
Definition keccak_256 b : bytes :=
  let p := pad_block b in
  let s := foldl absorb (replicate 25 0) (chunks (length p) rate p) in
  l ← take 4 s; reverse (be_split 8 l).
End Keccak.

(** ** The contract ABI *)

Fixpoint is_dynamic (v : abi_value) : bool :=
  match v with
  | VWord _ => false
  | VBytes _ | VArray _ => true
  | VTuple l => existsb is_dynamic l
  end.

(** Heads, then tails: what is dynamic leaves in the heads the offset of its tail. *)
Definition head_length (items : list (bool * bytes)) : Z :=
  foldr (λ '(dynamic, enc) n, (if dynamic : bool then 32 else blen enc) + n) 0 items.
Fixpoint place (offset : Z) (items : list (bool * bytes)) : bytes * bytes :=
  match items with
  | [] => ([], [])
  | (false, enc) :: items => let '(heads, tails) := place offset items in (enc ++ heads, tails)
  | (true, enc) :: items =>
      let '(heads, tails) := place (offset + blen enc) items in (be_split 32 offset ++ heads, enc ++ tails)
  end.
Definition abi_sequence (items : list (bool * bytes)) : bytes :=
  let '(heads, tails) := place (head_length items) items in heads ++ tails.

Fixpoint abi_encoding (v : abi_value) : bytes :=
  match v with
  | VWord z => be_split 32 z
  | VBytes b => be_split 32 (blen b) ++ b ++ replicate (Z.to_nat ((- blen b) mod 32)) x00
  | VArray l => be_split 32 (Z.of_nat (length l)) ++ abi_sequence (map (λ v, (is_dynamic v, abi_encoding v)) l)
  | VTuple l => abi_sequence (map (λ v, (is_dynamic v, abi_encoding v)) l)
  end.
(** The arguments of a call, or of [abi.encode]. *)
Definition abi_arguments (l : list abi_value) : bytes := abi_encoding (VTuple l).
Definition function_selector (f : string) : bytes := take 4 (keccak_256 (to_bytes f)).

(** ** Hexadecimal text *)

Definition hex_value (b : byte) : option Z :=
  let z := byte_val b in
  if (48 <=? z) && (z <=? 57) then Some (z - 48)
  else if (65 <=? z) && (z <=? 70) then Some (z - 55)
  else if (97 <=? z) && (z <=? 102) then Some (z - 87)
  else None.
Fixpoint hex_pairs (b : bytes) : option bytes :=
  match b with
  | [] => Some []
  | h :: l :: b =>
      h ← hex_value h; l ← hex_value l; b ← hex_pairs b; mret (byte_of (16 * h + l) :: b)
  | [_] => None
  end.
(** With or without "0x" in front. *)
Definition hex_bytes (s : string) : option bytes :=
  match to_bytes s with
  | x30 :: x78 :: b => hex_pairs b
  | b => hex_pairs b
  end.
Definition hex_char (z : Z) : byte := if z <? 10 then byte_of (48 + z) else byte_of (87 + z).
Definition hex_text (b : bytes) : string :=
  of_bytes (b ≫= λ x, [hex_char (byte_val x / 16); hex_char (byte_val x mod 16)]).

Lemma byte_cases (P : byte → bool) : forallb (λ n, P (byte_of (Z.of_nat n))) (seq 0 256) = true → ∀ b, P b = true.
Proof.
  intros H b. rewrite forallb_forall in H. specialize (H (Z.to_nat (byte_val b))).
  pose proof (byte_val_bound b). rewrite Z2Nat.id, byte_of_val in H by lia. apply H, in_seq. lia.
Qed.

Lemma hex_char_value z : 0 ≤ z < 16 → hex_value (hex_char z) = Some z.
Proof.
  intros Hz. assert (z = Z.of_nat (Z.to_nat z)) as -> by lia.
  assert (Z.to_nat z < 16)%nat as Hn by lia. revert Hn. generalize (Z.to_nat z) as n. clear.
  do 16 (destruct n as [|n]; [done|]). lia.
Qed.
Lemma hex_pairs_text b : hex_pairs (to_bytes (hex_text b)) = Some b.
Proof.
  unfold hex_text. rewrite to_of_bytes. induction b as [|x b IH]; [done|].
  pose proof (byte_val_bound x) as Hx. cbn [mbind list_bind app hex_pairs].
  rewrite !hex_char_value by dlia. cbn [mbind option_bind]. rewrite IH. cbn [mbind option_bind mret option_ret].
  rewrite <- Z.div_mod, byte_of_val by lia. done.
Qed.
Lemma hex_bytes_text b : hex_bytes (hex_text b) = Some b.
Proof.
  rewrite <- (hex_pairs_text b) at 1. unfold hex_bytes. destruct b as [|x b]; [done|].
  unfold hex_text. rewrite to_of_bytes. cbn [mbind list_bind app].
  assert (hex_char (byte_val x mod 16) ≠ x78) as Hne.
  { intros E. pose proof (hex_char_value (byte_val x mod 16) ltac:(dlia)) as H. by rewrite E in H. }
  destruct (hex_char (byte_val x / 16)); try reflexivity.
  destruct (hex_char (byte_val x mod 16)); try reflexivity. done.
Qed.
Lemma hex_text_inj a b : hex_text a = hex_text b → a = b.
Proof. intros E. pose proof (hex_bytes_text a) as H. rewrite E, hex_bytes_text in H. congruence. Qed.

Lemma length_keccak_f s : length (keccak_f s) = 25%nat.
Proof.
  unfold keccak_f. assert (∀ c s', length (iota c (chi (rho_pi (theta s')))) = 25%nat) as H by done.
  assert (round_constants ≠ []) as Hne by done. revert s Hne. generalize round_constants.
  intros l. induction l as [|c l IH]; intros s Hne; [done|]. cbn [foldl]. destruct l; [apply H|by apply IH].
Qed.
Lemma length_keccak_256 b : length (keccak_256 b) = 32%nat.
Proof.
  unfold keccak_256. cbv zeta. generalize (chunks (length (pad_block b)) rate (pad_block b)). intros l.
  assert (∀ s, length s = 25%nat → length (foldl absorb s l) = 25%nat) as H.
  { induction l as [|c l IH]; intros s Hs; [done|]. cbn [foldl]. apply IH, length_keccak_f. }
  specialize (H (replicate 25 0) eq_refl). destruct (foldl absorb _ l) as [|a [|b' [|c [|d s]]]]; done.
Qed.

(** ** The third-party code follows them *)

Class Standards `(V : Evm) := {
  std_keccak : ∀ b, keccak256 b = keccak_256 b;
  std_abi : ∀ l, abi_encode l = abi_arguments l;
  std_selector : ∀ f, selector f = function_selector f;
  (** An address is read from its 40 digits; addresses are ordered as numbers. *)
  std_address_parse : ∀ s b, hex_bytes s = Some b → length b = 20%nat →
    ∃ a, address_parse s = Ok a ∧ address_as_bytes a = b;
  std_address_cmp : ∀ a b, address_cmp a b = (be (address_as_bytes a) ?= be (address_as_bytes b));
  std_hex_str_to_bytes : ∀ s b, hex_bytes s = Some b → hex_str_to_bytes s = Ok b;
  std_bytes_to_hex_str : ∀ b, bytes_to_hex_str b = hex_text b;
}.

Example keccak_empty : hex_text (keccak_256 []) = "c5d2460186f7233c927e7db2dcc703c0e500b653ca82273b7bfad8045d85a470".
Proof. vm_refl. Qed.
Example transfer_selector : hex_text (function_selector "transfer(address,uint256)") = "a9059cbb".
Proof. vm_refl. Qed.
