(* ===== verification/ProtoBuild.v ===== *)
(** * Generation of the protobuf code: proto_build/src/main.rs

    The tool has prost and tonic write Rust for the chain's .proto files into a scratch directory,
    then copies the files to the gravity_proto crate, patched: paths into [cosmos] are redirected to
    an upstream crate and the gRPC clients are put under a feature. The state is the disk; prost,
    tonic, walkdir and the regular expressions are third-party. *)

From S2P Require Import Prelude Bytes.
From Stdlib Require Import Strings.Byte.

(** A path by its components; ".." and links are not resolved. *)
Abbreviation path := (list string).
Abbreviation Disk := (gmap path bytes).

(** ** Code on a disk: what it has written stays when it panics *)

Definition fs (A : Type) : Type := Disk → eval A * Disk.
Definition fs_ret {A} (a : A) : fs A := λ d, (Done a, d).
Definition fs_panic {A} (why : string) : fs A := λ d, (Panic why, d).
Definition fs_eval {A} (m : eval A) : fs A := λ d, (m, d).
Definition fs_bind {A B} (m : fs A) (k : A → fs B) : fs B := λ d,
  match m d with (Done a, d) => k a d | (Panic why, d) => (Panic why, d) end.
Notation "'let@' x := m 'in' k" := (fs_bind m (λ x, k))
  (at level 200, x pattern, m at level 100, k at level 200, only parsing).

(** [p] is below the directory [dir]. *)
Definition below (dir p : path) : Prop := dir `prefix_of` p ∧ dir ≠ p.
#[export] Instance below_dec dir p : Decision (below dir p).
Proof. unfold below. apply _. Defined.

(** What the operating system permits; [stuck] files survive [remove_dir_all]. *)
Class Os := {
  readable : path → bool;
  writable : path → bool;
  creatable : path → bool;
  stuck : path → bool;
}.

(** The third-party code. *)
Class BuildTools := {
  Pattern : Type;
  regex_new : string → result Pattern string;
  (** [regex_replace_all p text rep] *)
  regex_replace_all : Pattern → bytes → bytes → bytes;
  (** The files that WalkDir reports below a directory, in its order. *)
  walk : Disk → path → list path;
  (** Protos, include directories, output directory. *)
  prost_compile : list path → list path → path → Disk → result unit string * Disk;
  tonic_compile : list path → list path → path → Disk → result unit string * Disk;
}.

(** ** Text *)

Definition starts_with (w t : bytes) : bool := bool_decide (w `prefix_of` t).

(** Copy [t], replacing what [find] recognises at the head of the rest, of which it gives the length;
    [skip] bytes of the last match are still to be passed over. *)
Fixpoint replace_with (find : bytes → option nat) (rep : bytes) (skip : nat) (t : bytes) : bytes :=
  match t, skip with
  | [], _ => []
  | _ :: t', S skip => replace_with find rep skip t'
  | c :: t', O =>
      match find t with
      | Some (S n) => rep ++ replace_with find rep n t'
      | _ => c :: replace_with find rep 0 t'
      end
  end.
(** [str::replace], of a pattern that is not empty. *)
Definition str_replace (from to t : bytes) : bytes :=
  replace_with (λ t, if starts_with from t then Some (length from) else None) to 0 t.

(** [Path::extension] of a file name: what follows its last dot, unless that is its first character. *)
Fixpoint after_last_dot (b : bytes) : option bytes :=
  match b with
  | [] => None
  | c :: b =>
      match after_last_dot b with
      | Some e => Some e
      | None => if bool_decide (c = x2e) then Some b else None
      end
  end.
Definition extension (name : string) : option string :=
  match to_bytes name with [] => None | _ :: b => of_bytes <$> after_last_dot b end.
Definition file_name (p : path) : string := default ""%string (last p).
Definition valid_name (p : path) : bool := utf8_valid (to_bytes (file_name p)).

(** ** Constants *)

Definition EXCLUDED_PROTO_PACKAGES : list string :=
  ["gogoproto"; "google"; "tendermint"; "cosmos.base"; "cosmos_proto"]%string.
Definition quote : string := of_bytes [x22].
Definition TONIC_CLIENT_ATTRIBUTE : string :=
  "#[doc = r" +:+ quote +:+ " Generated client implementations." +:+ quote +:+ "]".
Definition GRPC_CLIENT_ATTRIBUTES : list string :=
  ["#[cfg(feature = " +:+ quote +:+ "grpc" +:+ quote +:+ ")]";
   "#[cfg_attr(docsrs, doc(cfg(feature = " +:+ quote +:+ "grpc" +:+ quote +:+ ")))]";
   TONIC_CLIENT_ATTRIBUTE]%string.
Definition grpc_client_text : bytes := to_bytes (String.concat (of_bytes [x0a]) GRPC_CLIENT_ATTRIBUTES).
Definition COSMOS_SDK_PROTO_REGEX : string := "(super::)+cosmos".
Definition cosmos_sdk_proto_text : bytes := to_bytes "cosmos_sdk_proto::cosmos".
Definition TMP_PATH : path := ["tmp"; "gravity"]%string.
Definition OUT_PATH : path := [".."; "gravity_proto"; "src"; "prost"]%string.

Section ProtoBuild.
Context `{OS : !Os} `{BT : !BuildTools}.

(** ** The file system calls *)

Definition read_to_string (p : path) : fs (result bytes string) := λ d,
  (Done match d !! p with
        | Some b => if readable p then if utf8_valid b then Ok b else Err "stream did not contain valid UTF-8"%string
                    else Err "permission denied"%string
        | None => Err "entity not found"%string
        end, d).
Definition write (p : path) (b : bytes) : fs (result unit string) := λ d,
  if writable p then (Done (Ok tt), <[p := b]> d) else (Done (Err "permission denied"%string), d).
(** Its result is ignored: [unwrap_or_default]. *)
Definition remove_dir_all (dir : path) : fs unit := λ d,
  (Done tt, filter (λ '(p, _), ¬ below dir p ∨ stuck p = true) d).
Definition create_dir_all (dir : path) : fs (result unit string) := λ d,
  (Done (if creatable dir then Ok tt else Err "permission denied"%string), d).
Definition walk_dir (dir : path) : fs (list path) := λ d, (Done (walk d dir), d).
Definition external (m : Disk → result unit string * Disk) : fs (result unit string) := λ d,
  let '(r, d) := m d in (Done r, d).

(** ** main.rs *)

Definition is_excluded (src : path) : bool :=
  valid_name src && existsb (λ package, starts_with (to_bytes (package +:+ ".")) (to_bytes (file_name src)))
                            EXCLUDED_PROTO_PACKAGES.
Definition patch (contents : bytes) : eval bytes :=
  let! re := unwrap (regex_new COSMOS_SDK_PROTO_REGEX) in
  let contents := regex_replace_all re contents cosmos_sdk_proto_text in
  Done (str_replace (to_bytes TONIC_CLIENT_ATTRIBUTE) grpc_client_text contents).

Definition copy_and_patch (src dest : path) : fs (result unit string) :=
  if is_excluded src then fs_ret (Ok tt) else
  let@ contents := read_to_string src in
  match contents with
  | Err e => fs_ret (Err e)
  | Ok contents => let@ patched_contents := fs_eval (patch contents) in write dest patched_contents
  end.

(** The loop of the iterator: every file is tried, the errors are collected. *)
Fixpoint copy_each (to_dir : path) (entries : list path) : fs (list string) :=
  match entries with
  | [] => fs_ret []
  | e :: entries =>
      if valid_name e then
        let@ r := copy_and_patch e (to_dir ++ [file_name e]) in
        let@ errors := copy_each to_dir entries in
        fs_ret match r with Ok _ => errors | Err e => e :: errors end
      else fs_panic "called `Option::unwrap()` on a `None` value"
  end.

Definition copy_generated_files (from_dir to_dir : path) : fs unit :=
  let@ _ := remove_dir_all to_dir in
  let@ r := create_dir_all to_dir in
  let@ _ := fs_eval (unwrap r) in
  let@ entries := walk_dir from_dir in
  let@ errors := copy_each to_dir entries in
  match errors with [] => fs_ret tt | _ => fs_panic "[error] Aborted." end.

(** [PathBuf::parent]. *)
Definition parent (p : path) : option path := match p with [] => None | _ => Some (removelast p) end.

(** [root] is the directory of the crate, CARGO_MANIFEST_DIR. *)
Definition compile_protos (root out_dir tmp_dir : path) : fs unit :=
  let@ root := fs_eval (unwrap_option (parent root)) in
  let@ root := fs_eval (unwrap_option (parent root)) in
  let gravity_proto_dir := root ++ ["module"; "proto"; "nab"; "v1"]%string in
  let gravity_proto_include_dir := root ++ ["module"; "proto"]%string in
  let third_party_proto_include_dir := root ++ ["module"; "third_party"; "proto"]%string in
  let proto_include_paths := [gravity_proto_include_dir; third_party_proto_include_dir] in
  let@ entries := walk_dir gravity_proto_dir in
  let protos := filter (λ p, extension (file_name p) = Some "proto"%string) entries in
  let@ r := create_dir_all tmp_dir in
  let@ _ := match r with Ok _ => fs_ret tt | Err _ => fs_panic "Failed to create {:?}" end in
  let@ r := external (prost_compile protos proto_include_paths tmp_dir) in
  let@ _ := fs_eval (unwrap r) in
  let@ r := external (tonic_compile protos proto_include_paths tmp_dir) in
  let@ _ := fs_eval (unwrap r) in
  copy_generated_files tmp_dir out_dir.

(** Relative paths are read in the working directory [cwd]. *)
Definition proto_build_main (cwd root : path) : fs unit := compile_protos root (cwd ++ OUT_PATH) TMP_PATH.

End ProtoBuild.
