(* ===== verification/ProtoBuildTheory.v ===== *)
(** * The generated code is patched and complete

    What replacing text does, that [patch] leaves no relative path into the chain's SDK, and which
    files a run of the tool leaves behind. *)

From S2P Require Import Prelude Bytes ProtoBuild.
From Stdlib Require Import Strings.Byte.

(** ** Replacement, as a relation

    The matches are taken from left to right, at each place the longest, and do not overlap. *)

Inductive replaced (matches : bytes → Prop) (rep : bytes) : bytes → bytes → Prop :=
  | replaced_end t : (∀ pre m post, t = pre ++ m ++ post → ¬ matches m) → replaced matches rep t t
  | replaced_next pre m post out :
      matches m →
      (∀ pre' m' post', pre ++ m ++ post = pre' ++ m' ++ post' → matches m' →
         (length pre ≤ length pre')%nat ∧ (length pre' = length pre → (length m' ≤ length m)%nat)) →
      replaced matches rep post out → replaced matches rep (pre ++ m ++ post) (pre ++ rep ++ out).

(** [find] gives the length of the longest match at the head of a text. *)
Record finds (matches : bytes → Prop) (find : bytes → option nat) : Prop := {
  finds_match t n : find t = Some n → matches (take n t) ∧ (0 < n ≤ length t)%nat;
  finds_longest m post : matches m → ∃ n, find (m ++ post) = Some n ∧ (length m ≤ n)%nat;
}.

Section Replacement.
Context (matches : bytes → Prop) (find : bytes → option nat) (Hfind : finds matches find) (rep : bytes).

Lemma match_not_nil : ¬ matches [].
Proof.
  intros H. destruct (finds_longest _ _ Hfind [] [] H) as (n & Hn & _).
  apply (finds_match _ _ Hfind) in Hn as [_ Hn]. simpl in Hn. lia.
Qed.

Lemma replace_with_skip n t : replace_with find rep n t = replace_with find rep 0 (drop n t).
Proof.
  revert n. induction t as [|c t IH]; intros [|n]; try done. rewrite skipn_cons, <- IH. done.
Qed.

(** A byte at which no match begins is kept. *)
Lemma replaced_cons c t out :
  (∀ m post, c :: t = m ++ post → ¬ matches m) → replaced matches rep t out →
  replaced matches rep (c :: t) (c :: out).
Proof.
  intros Hc H. destruct H as [t Hno|pre m post out Hm Hleft H].
  - apply replaced_end. intros [|x pre] m post E; [by eapply Hc|]. injection E as -> ->. by eapply Hno.
  - apply (replaced_next _ _ (c :: pre) m post out); [done| |done].
    intros [|x pre'] m' post' E Hm'; [by destruct (Hc m' post' E)|].
    injection E as -> E. destruct (Hleft _ _ _ E Hm') as [H1 H2]. simpl. split; [lia|]. intros ?. apply H2. lia.
Qed.

Lemma replace_with_spec t : replaced matches rep t (replace_with find rep 0 t).
Proof.
  remember (length t) as n eqn:Hn. revert t Hn. induction (lt_wf n) as [n _ IH]. intros t ->.
  destruct t as [|c t].
  - apply replaced_end. intros pre m post E Hm. symmetry in E. apply app_nil in E as [_ E].
    apply app_nil in E as [-> _]. by apply match_not_nil.
  - cbn [replace_with]. destruct (find (c :: t)) as [[|k]|] eqn:Ef.
    + apply (finds_match _ _ Hfind) in Ef as [_ ?]. lia.
    + destruct (finds_match _ _ Hfind _ _ Ef) as [Hm Hk]. rewrite replace_with_skip.
      assert (c :: t = [] ++ take (S k) (c :: t) ++ drop k t) as E.
      { cbn [app]. change (drop k t) with (drop (S k) (c :: t)). by rewrite take_drop. }
      rewrite E at 1. apply (replaced_next _ _ []); [done| |].
      * rewrite <- E. intros pre' m' post' E' Hm'. split; [simpl; lia|]. simpl. intros Hl.
        apply nil_length_inv in Hl as ->. rewrite E' in Ef. cbn [app] in Ef.
        destruct (finds_longest _ _ Hfind m' post' Hm') as (n & Hn & Hle). rewrite Hn in Ef. injection Ef as ->.
        rewrite length_take. simpl in *. lia.
      * eapply IH; [|done]. rewrite length_drop. simpl in *. lia.
    + apply replaced_cons; [|eapply IH; [|done]; simpl; lia].
      intros m post E Hm. rewrite E in Ef. destruct (finds_longest _ _ Hfind m post Hm) as (n & Hn & _). congruence.
Qed.
End Replacement.

(** [str::replace] is the replacement of one word. *)
Lemma starts_with_app w t : starts_with w (w ++ t) = true.
Proof. apply bool_decide_eq_true. by exists t. Qed.
Lemma finds_word w : w ≠ [] → finds (eq w) (λ t, if starts_with w t then Some (length w) else None).
Proof.
  intros Hw. split.
  - intros t n. unfold starts_with. case_bool_decide as H; [|done]. intros [= <-]. destruct H as [k ->].
    rewrite take_app_length, length_app. destruct w; [done|]. simpl. split; [done|lia].
  - intros m post <-. exists (length w). by rewrite starts_with_app.
Qed.
Lemma str_replace_spec from to t : from ≠ [] → replaced (eq from) to t (str_replace from to t).
Proof. intros H. by apply replace_with_spec, finds_word. Qed.

(** ** Where a word stands in a text that is put together *)

Lemma occurs_app (x w y a b : bytes) : x ++ w ++ y = a ++ b →
  (∃ z, a = x ++ w ++ z ∧ y = z ++ b) ∨ (∃ z, b = z ++ w ++ y ∧ x = a ++ z) ∨
  (∃ w1 w2, w = w1 ++ w2 ∧ w1 ≠ [] ∧ w2 ≠ [] ∧ a = x ++ w1 ∧ b = w2 ++ y).
Proof.
  intros H. apply app_eq_inv in H as [(k & -> & ->)|(k & -> & H)].
  - right. left. by exists k.
  - apply app_eq_inv in H as [(j & -> & ->)|(j & -> & ->)]; [|by left; exists j].
    destruct k as [|c k]; [by right; left; exists []; rewrite !app_nil_r|].
    destruct j as [|e j]; [by left; exists []; rewrite !app_nil_r|].
    right. right. by exists (c :: k), (e :: j).
Qed.

(** The places a word can stand in that overlaps a given text: how many of its bytes come before the
    text, how many are its last, or where it begins inside. *)
Definition before (w rep : bytes) : list nat :=
  filter (λ k, starts_with (drop k w) rep = true) (seq 1 (length w - 1)).
Definition across (w rep : bytes) : list nat :=
  filter (λ k, starts_with (take k w) (drop (length rep - k) rep) = true) (seq 1 (length w - 1)).
Definition inside (w rep : bytes) : list nat :=
  filter (λ k, starts_with w (drop k rep) = true) (seq 0 (length rep)).

Lemma nonempty_length {A} (l : list A) : l ≠ [] → (0 < length l)%nat.
Proof. destruct l; [done|]. simpl. lia. Qed.
Lemma elem_of_before w1 w2 y rep out : w1 ≠ [] → w2 ≠ [] → (length w2 ≤ length rep)%nat →
  rep ++ out = w2 ++ y → length w1 ∈ before (w1 ++ w2) rep.
Proof.
  intros H1%nonempty_length H2%nonempty_length Hl E. apply list_elem_of_filter. split.
  - rewrite drop_app_length. apply bool_decide_eq_true. exists (drop (length w2) rep).
    rewrite <- (take_drop (length w2) rep) at 1. f_equal.
    apply (f_equal (take (length w2))) in E. by rewrite take_app_length, take_app_le in E by lia.
  - apply elem_of_seq. rewrite length_app. lia.
Qed.
Lemma elem_of_across x w1 w2 : w1 ≠ [] → w2 ≠ [] → length w1 ∈ across (w1 ++ w2) (x ++ w1).
Proof.
  intros H1%nonempty_length H2%nonempty_length. apply list_elem_of_filter. split.
  - rewrite take_app_length, length_app, Nat.add_sub, drop_app_length.
    apply bool_decide_eq_true. done.
  - apply elem_of_seq. rewrite length_app. lia.
Qed.
Lemma elem_of_inside x w z : w ≠ [] → length x ∈ inside w (x ++ w ++ z).
Proof.
  intros Hw%nonempty_length. apply list_elem_of_filter. split.
  - rewrite drop_app_length. apply starts_with_app.
  - apply elem_of_seq. rewrite !length_app. lia.
Qed.

(** A word in [pre ++ rep ++ out], if no other word can be made at the seams. *)
Lemma occurs_replaced (w pre rep out x y : bytes) : w ≠ [] → (length w ≤ length rep)%nat →
  pre ++ rep ++ out = x ++ w ++ y →
  (∃ z, pre = x ++ w ++ z) ∨
  (∃ z, x = pre ++ rep ++ z ∧ out = z ++ w ++ y) ∨
  (∃ k, k ∈ before w rep ∧ pre = x ++ take k w ∧ rep ++ out = drop k w ++ y) ∨
  (∃ k, k ∈ inside w rep ∧ x = pre ++ take k rep) ∨
  (∃ k, k ∈ across w rep ∧ pre ++ rep = x ++ take k w ∧ out = drop k w ++ y).
Proof.
  intros Hw Hl E. symmetry in E. apply occurs_app in E as [(z & -> & _)|[(z & E & ->)|(w1 & w2 & -> & H1 & H2 & -> & E)]].
  - left. by exists z.
  - symmetry in E. apply occurs_app in E as [(y' & -> & _)|[(y' & -> & ->)|(w1 & w2 & -> & H1 & H2 & -> & ->)]].
    + do 3 right. left. exists (length z). rewrite take_app_length. by split; [apply elem_of_inside|].
    + right. left. by exists y'.
    + do 4 right. exists (length w1). rewrite take_app_length, drop_app_length, app_assoc. by split; [apply elem_of_across|].
  - do 2 right. left. exists (length w1). rewrite take_app_length, drop_app_length.
    split; [|done]. eapply elem_of_before; [done|done| |done]. rewrite length_app in Hl. lia.
Qed.

(** ** The pattern for relative paths *)

Fixpoint supers (n : nat) : bytes := match n with O => [] | S n => to_bytes "super::" ++ supers n end.
(** What "(super::)+cosmos" matches. *)
Definition super_cosmos (m : bytes) : Prop := ∃ n, m = supers (S n) ++ to_bytes "cosmos".
Definition relative_cosmos : bytes := to_bytes "super::cosmos".

Definition identifier_byte (c : byte) : bool :=
  in_range 48 57 c || in_range 65 90 c || in_range 97 122 c || bool_decide (c = x5f).
(** [w] stands in [t], and is not the rest of a longer identifier. *)
Definition names_path (w t : bytes) : Prop :=
  ∃ pre post, t = pre ++ w ++ post ∧ ∀ c, last pre = Some c → identifier_byte c = false.

Lemma cosmos_redirected t out : replaced super_cosmos cosmos_sdk_proto_text t out → ¬ names_path relative_cosmos out.
Proof.
  intros H. induction H as [t Hno|pre m post out [n ->] Hleft H IH].
  - intros (x & y & -> & _). by eapply Hno; [|by exists 0%nat].
  - intros (x & y & E & Hx). apply occurs_replaced in E as
      [(z & ->)|[(z & -> & ->)|[(k & Hk & -> & E)|[(k & Hk & _)|(k & Hk & E & ->)]]]]; [| | | | |done|simpl; lia].
    + rewrite <- ?app_assoc in Hleft. destruct (Hleft x relative_cosmos (z ++ supers (S n) ++ to_bytes "cosmos" ++ post)) as [Hl _];
        [by rewrite <- ?app_assoc|by exists 0%nat|]. rewrite !length_app in Hl. simpl in Hl. lia.
    + apply IH. exists z, y. split; [done|]. intros c Hc. apply Hx. by rewrite !last_app, Hc.
    + assert (before relative_cosmos cosmos_sdk_proto_text = [7%nat]) as Hb by (vm_compute; done).
      rewrite Hb in Hk. apply list_elem_of_singleton in Hk as ->.
      destruct (Hleft x (supers (S (S n)) ++ to_bytes "cosmos") post) as [Hl _]; [|by exists (S n)|].
      * cbn [supers]. change (take 7 relative_cosmos) with (to_bytes "super::"). by rewrite <- ?app_assoc.
      * rewrite length_app in Hl. simpl in Hl. lia.
    + assert (inside relative_cosmos cosmos_sdk_proto_text = []) as Hb by (vm_compute; done).
      rewrite Hb in Hk. by apply not_elem_of_nil in Hk.
    + assert (across relative_cosmos cosmos_sdk_proto_text = [1%nat]) as Hb by (vm_compute; done).
      rewrite Hb in Hk. apply list_elem_of_singleton in Hk as ->.
      assert (last x = Some x6f) as Hlast.
      { change cosmos_sdk_proto_text with (take 23 cosmos_sdk_proto_text ++ take 1 relative_cosmos) in E.
        rewrite app_assoc in E. apply app_inj_tail in E as [<- _]. by rewrite last_app. }
      by apply Hx in Hlast.
Qed.

(** ** The attribute of the gRPC clients *)

Definition client_attribute : bytes := to_bytes TONIC_CLIENT_ATTRIBUTE.
(** The two lines in front of it: the feature. *)
Definition feature_lines : bytes := take (length grpc_client_text - length client_attribute) grpc_client_text.

Lemma word_elsewhere w t out : w ≠ [] → (length w ≤ length grpc_client_text)%nat → 
  before w grpc_client_text = [] → inside w grpc_client_text = [] → across w grpc_client_text = [] →
  replaced (eq client_attribute) grpc_client_text t out → names_path w out → names_path w t.
Proof.
  intros Hw Hl Hb Hi Ha H. induction H as [t|pre m post out <- _ H IH]; [done|].
  intros (x & y & E & Hx). apply occurs_replaced in E as
    [(z & ->)|[(z & -> & ->)|[(k & Hk & _)|[(k & Hk & _)|(k & Hk & _)]]]]; [| | | | |done..].
  - exists x, (z ++ client_attribute ++ post). by rewrite <- ?app_assoc.
  - destruct IH as (x' & y' & -> & Hx').
    { exists z, y. split; [done|]. intros c Hc. apply Hx. by rewrite !last_app, Hc. }
    exists (pre ++ client_attribute ++ x'), y'. split; [by rewrite <- ?app_assoc|].
    intros c. rewrite !last_app. destruct (last x') as [c'|] eqn:Ec; [intros [= <-]; by apply Hx'|].
    by intros [= <-].
  - rewrite Hb in Hk. by apply not_elem_of_nil in Hk.
  - rewrite Hi in Hk. by apply not_elem_of_nil in Hk.
  - rewrite Ha in Hk. by apply not_elem_of_nil in Hk.
Qed.

Lemma clients_gated t out : replaced (eq client_attribute) grpc_client_text t out →
  ∀ x y, out = x ++ client_attribute ++ y → ∃ x', x = x' ++ feature_lines.
Proof.
  intros H. induction H as [t Hno|pre m post out <- Hleft H IH]; intros x y E.
  - by destruct (Hno _ _ _ E eq_refl).
  - apply occurs_replaced in E as
      [(z & ->)|[(z & -> & ->)|[(k & Hk & _)|[(k & Hk & ->)|(k & Hk & _)]]]]; [| | | | |done|apply Nat.leb_le; by vm_compute].
    + destruct (Hleft x client_attribute (z ++ client_attribute ++ post)) as [Hl _];
        [by rewrite <- ?app_assoc|done|]. rewrite !length_app in Hl.
      assert (0 < length client_attribute)%nat by (by apply nonempty_length). lia.
    + destruct (IH _ _ eq_refl) as [x' ->]. exists (pre ++ grpc_client_text ++ x'). by rewrite <- ?app_assoc.
    + assert (before client_attribute grpc_client_text = []) as Hb by (vm_compute; done).
      rewrite Hb in Hk. by apply not_elem_of_nil in Hk.
    + assert (inside client_attribute grpc_client_text = [length feature_lines]) as Hb by (vm_compute; done).
      rewrite Hb in Hk. apply list_elem_of_singleton in Hk as ->. exists pre. f_equal; by vm_compute.
    + assert (across client_attribute grpc_client_text = []) as Hb by (vm_compute; done).
      rewrite Hb in Hk. by apply not_elem_of_nil in Hk.
Qed.

(** ** The third-party code *)

(** The documentation of regex and walkdir: matches are replaced from left to right, the longest first
    for this pattern, and a replacement text without "$" is taken literally; every file is reported
    once. *)
Class BuildLaws `{BT : BuildTools} := {
  law_regex : ∃ re, regex_new COSMOS_SDK_PROTO_REGEX = Ok re ∧
    ∀ text rep, x24 ∉ rep → replaced super_cosmos rep text (regex_replace_all re text rep);
  law_walk : ∀ d dir p, p ∈ walk d dir ↔ below dir p ∧ is_Some (d !! p);
}.

Lemma replaced_none matches rep t out : (∀ pre m post, t = pre ++ m ++ post → ¬ matches m) →
  replaced matches rep t out → out = t.
Proof. intros Hno H. destruct H as [|pre m post out Hm]; [done|]. by destruct (Hno pre m post eq_refl). Qed.

(** What tonic writes in front of a client when it is told not to format its output, as here
    ([.format(false)]): the beginning of line 443 of gravity_proto/src/prost/nab.v1.rs. *)
Definition unformatted_client : bytes :=
  to_bytes ("# [doc = r" +:+ quote +:+ " Generated client implementations." +:+ quote +:+ "] pub mod msg_client {").

Section Theory.
Context `{OS : !Os} `{BT : !BuildTools} `{BL : !BuildLaws}.

Lemma patch_Done text : ∃ mid b, patch text = Done b ∧
  replaced super_cosmos cosmos_sdk_proto_text text mid ∧ replaced (eq client_attribute) grpc_client_text mid b.
Proof.
  destruct law_regex as (re & Hre & Hrep). unfold patch. rewrite Hre. cbn [unwrap eval_bind].
  do 2 eexists. split; [reflexivity|]. split; [|by apply str_replace_spec].
  apply Hrep. refine (bool_decide_unpack _ _). by vm_compute.
Qed.

Lemma patch_neither text : (∀ pre m post, text = pre ++ m ++ post → ¬ super_cosmos m ∧ m ≠ client_attribute) →
  patch text = Done text.
Proof.
  intros Hno. destruct (patch_Done text) as (mid & b & -> & H1 & H2). f_equal.
  assert (mid = text) as ->.
  { eapply replaced_none; [|exact H1]. intros pre m post E. by apply (Hno pre m post E). }
  eapply replaced_none; [|exact H2]. intros pre m post E <-. by destruct (Hno _ _ _ E).
Qed.
Lemma patch_redirects text b : patch text = Done b → ¬ names_path relative_cosmos b.
Proof.
  destruct (patch_Done text) as (mid & b' & -> & H1 & H2). intros [= ->] Hb. apply (cosmos_redirected text mid H1).
  apply (word_elsewhere _ mid b); [done|by apply Nat.leb_le|by vm_compute..|done|done].
Qed.
Lemma colon_in_match m : super_cosmos m → x3a ∈ m.
Proof.
  intros [n ->]. apply elem_of_app. left. apply elem_of_app. left. refine (bool_decide_unpack _ _). by vm_compute.
Qed.

(** C37: the patches. Whatever prost and tonic write, patching it succeeds, and then no path that starts
    with [super] reaches [cosmos], so the file stands without its siblings; every client attribute
    carries the two lines that put it under the feature; a text with neither is unchanged. The
    attribute as tonic writes it without formatting is such a text, so the clients in the
    repository's own nab.v1.rs are not under the feature. *)
Theorem patch_text text : ∃ b, patch text = Done b ∧ ¬ names_path relative_cosmos b ∧
  (∀ x y, b = x ++ client_attribute ++ y → ∃ x', x = x' ++ feature_lines) ∧
  ((∀ pre m post, text = pre ++ m ++ post → ¬ super_cosmos m ∧ m ≠ client_attribute) → b = text) ∧
  patch unformatted_client = Done unformatted_client.
Proof.
  destruct (patch_Done text) as (mid & b & Hp & H1 & H2). exists b. split_and!.
  - done.
  - by apply (patch_redirects text).
  - by apply (clients_gated mid).
  - intros Hno. apply patch_neither in Hno. congruence.
  - apply patch_neither. intros pre m post E. split.
    + intros Hm%colon_in_match. assert (x3a ∈ unformatted_client) as Hc by (rewrite E; set_solver).
      revert Hc. refine (bool_decide_unpack _ _). by vm_compute.
    + intros ->. pose proof (elem_of_inside pre client_attribute post ltac:(done)) as Hi. rewrite <- E in Hi.
      assert (inside client_attribute unformatted_client = []) as Hb by (vm_compute; done).
      rewrite Hb in Hi. by apply not_elem_of_nil in Hi.
Qed.

(** ** Copying *)

(** The contents that can be read, and the copy of a file. *)
Definition text_of (d : Disk) (src : path) : option bytes :=
  b ← d !! src; if readable src && utf8_valid b then Some b else None.
Definition copy_of (to src : path) : path := to ++ [file_name src].
(** [b] is what the tool makes of the file [src]. *)
Definition generated (d : Disk) (src : path) (b : bytes) : Prop :=
  is_excluded src = false ∧ ∃ c, text_of d src = Some c ∧ patch c = Done b.
(** No step of the file's copy fails. *)
Definition can_copy (d : Disk) (to src : path) : Prop :=
  valid_name src = true ∧ (is_excluded src = false → is_Some (text_of d src) ∧ writable (copy_of to src) = true).

Lemma below_copy to src : below to (copy_of to src).
Proof. split; [by eexists|]. intros E. apply (f_equal length) in E. unfold copy_of in E. rewrite length_app in E. simpl in E. lia. Qed.

Lemma copy_and_patch_eq src dest d : ∃ r, copy_and_patch src dest d = r ∧
  (is_excluded src = true ∧ r = (Done (Ok tt), d) ∨
   is_excluded src = false ∧ text_of d src ≠ None ∧ writable dest = true ∧
     (∃ b, generated d src b ∧ r = (Done (Ok tt), <[dest := b]> d)) ∨
   is_excluded src = false ∧ ¬ (is_Some (text_of d src) ∧ writable dest = true) ∧ ∃ e, r = (Done (Err e), d)).
Proof.
  eexists. split; [reflexivity|]. unfold copy_and_patch. destruct (is_excluded src) eqn:Ex; [by left|]. right.
  unfold generated, text_of, fs_bind, read_to_string, fs_ret, fs_eval, write. destruct (d !! src) as [b|]; simpl.
  2: { right. split_and!; [done|by intros [[] _]|by eexists]. }
  destruct (readable src), (utf8_valid b); simpl; try (right; split_and!; [done|by intros [[] _]|by eexists]).
  destruct (patch_Done b) as (mid & c & Hp & _). rewrite Hp. destruct (writable dest) eqn:Ew.
  - left. split_and!; [done..|]. exists c. split; [|done]. split; [done|]. by exists b.
  - right. split_and!; [done|by intros [_ ?]|by eexists].
Qed.

(** The disk where the tool does not write. *)
Definition same_outside (to : path) (d d' : Disk) : Prop := ∀ p, ¬ below to p → d' !! p = d !! p.
Lemma same_text to d d' e : same_outside to d d' → ¬ below to e → text_of d' e = text_of d e.
Proof. intros H He. unfold text_of. by rewrite (H e He). Qed.
Lemma same_generated to d d' e b : same_outside to d d' → ¬ below to e → generated d' e b ↔ generated d e b.
Proof. intros H He. unfold generated. by rewrite (same_text to d d' e H He). Qed.
Lemma same_can_copy to d d' entries : same_outside to d d' → Forall (λ e, ¬ below to e) entries →
  Forall (can_copy d' to) entries ↔ Forall (can_copy d to) entries.
Proof.
  intros H Hall. rewrite !Forall_forall in *. unfold can_copy. split; intros Hc e He;
    specialize (Hc e He); rewrite (same_text to d d' e H) in *; auto.
Qed.

(** One file of the loop: what is written, and whether an error is kept. *)
Lemma copy_one to e d : ¬ below to e → valid_name e = true → ∃ r d', copy_and_patch e (copy_of to e) d = (Done r, d') ∧
  same_outside to d d' ∧
  (∀ p b, d' !! p = Some b → d !! p = Some b ∨ p = copy_of to e ∧ generated d e b) ∧
  (∀ p, is_Some (d !! p) → is_Some (d' !! p)) ∧
  (r = Ok tt ↔ can_copy d to e) ∧
  (r = Ok tt → is_excluded e = false → ∃ b, generated d e b ∧ d' !! copy_of to e = Some b).
Proof.
  intros He Hv. destruct (copy_and_patch_eq e (copy_of to e) d) as (r & -> & [[Hx ->]|[(Hx & Ht & Hw & b & Hb & ->)|(Hx & Hno & m & ->)]]).
  - exists (Ok tt), d. split_and!; [done|done|by left|done| |by rewrite Hx]. split; [|done]. intros _. unfold can_copy. by rewrite Hx.
  - exists (Ok tt), (<[copy_of to e:=b]> d). split_and!; [done| | | | |].
    + intros p Hp. rewrite lookup_insert_ne; [done|]. intros <-. by apply Hp, below_copy.
    + intros p c. rewrite lookup_insert_Some. intros [[<- <-]|[_ ?]]; [by right|by left].
    + intros p Hp. apply lookup_insert_is_Some'. by right.
    + split; [|done]. intros _. split; [done|]. intros _. split; [|done]. by apply not_eq_None_Some.
    + intros _ _. exists b. by rewrite lookup_insert_eq.
  - exists (Err m), d. split_and!; [done|done|by left|done| |done]. split; [done|]. intros [_ H]. by destruct (Hno (H Hx)).
Qed.

(** The loop, while the sources are not among what it writes. *)
Lemma copy_each_spec to entries d : Forall (λ e, ¬ below to e) entries →
  ∃ r d', copy_each to entries d = (r, d') ∧ same_outside to d d' ∧
    (∀ p b, d' !! p = Some b → d !! p = Some b ∨ ∃ e, e ∈ entries ∧ p = copy_of to e ∧ generated d e b) ∧
    (∀ p, is_Some (d !! p) → is_Some (d' !! p)) ∧
    (r = Done [] ↔ Forall (can_copy d to) entries) ∧
    (r = Done [] → ∀ e, e ∈ entries → is_excluded e = false →
       ∃ e' b, e' ∈ entries ∧ copy_of to e' = copy_of to e ∧ generated d e' b ∧ d' !! copy_of to e = Some b).
Proof.
  induction entries as [|e entries IH] in d |- *; intros Hall.
  { exists (Done []), d. split_and!; [done..|by left|done|done|]. intros _ e He. by apply not_elem_of_nil in He. }
  apply Forall_cons in Hall as [He Hall]. cbn [copy_each]. destruct (valid_name e) eqn:Hv.
  2: { do 2 eexists. split; [reflexivity|]. split_and!; [done|by left|done| |done].
       split; [done|]. intros [[H _] _]%Forall_cons. congruence. }
  destruct (copy_one to e d He Hv) as (r & d1 & H1 & Hout & Hin & Hsome & Hok & Hcopy).
  destruct (IH d1 Hall) as (rs & d' & H2 & Hout' & Hin' & Hsome' & Hok' & Hcopy').
  assert (same_outside to d d') as Hsame by (intros p Hp; by rewrite (Hout' p Hp), (Hout p Hp)).
  assert (∀ e', e' ∈ entries → ¬ below to e') as Hnot by (by apply Forall_forall).
  unfold fs_bind at 1. fold (copy_of to e). rewrite H1. unfold fs_bind. rewrite H2.
  exists (match rs with Done es => Done match r with Ok _ => es | Err x => x :: es end | Panic why => Panic why end), d'.
  split_and!.
  - by destruct rs.
  - done.
  - intros p b Hp. destruct (Hin' p b Hp) as [Hp'|(e' & He' & -> & Hg)].
    + destruct (Hin p b Hp') as [?|[-> Hg]]; [by left|]. right. exists e. split; [by left|done].
    + right. exists e'. split; [by right|]. split; [done|]. by apply (same_generated to d d1); auto.
  - auto.
  - rewrite Forall_cons, <- Hok, <- (same_can_copy to d d1) by done. rewrite <- Hok'.
    destruct rs as [es|], r as [[]|]; naive_solver.
  - intros Hr e' He' Hx. assert (r = Ok tt ∧ rs = Done []) as [-> ->].
    { destruct rs as [es|], r as [[]|]; naive_solver. }
    apply elem_of_cons in He' as [->|He'].
    + destruct (Hcopy eq_refl Hx) as (b & Hg & Hb). 
      destruct (Hsome' (copy_of to e) ltac:(by rewrite Hb)) as [c Hc].
      destruct (Hin' _ _ Hc) as [Hc'|(e2 & He2 & E & Hg2)]; [exists e|exists e2]; exists c.
      * rewrite Hb in Hc'. injection Hc' as <-. by split_and!; [left|..].
      * split_and!; [by right|done| |done]. by apply (same_generated to d d1); auto.
    + destruct (Hcopy' eq_refl e' He' Hx) as (e2 & b & He2 & Hc & Hg & Hb). exists e2, b.
      split_and!; [by right|done| |done]. by apply (same_generated to d d1); auto.
Qed.

(** A file of the output directory that could not be removed. *)
Definition leftover (d : Disk) (p : path) (b : bytes) : Prop := stuck p = true ∧ d !! p = Some b.
Lemma filter_lookup_outside (to : path) (d : Disk) :
  let d' := filter (λ '(p, _), ¬ below to p ∨ stuck p = true) d in
  same_outside to d d' ∧ ∀ p b, below to p → d' !! p = Some b → leftover d p b.
Proof.
  split.
  - intros p Hp. apply option_eq. intros b. rewrite map_lookup_filter_Some. naive_solver.
  - intros p b Hp [Hb [?|?]]%map_lookup_filter_Some; [done|by split].
Qed.

Lemma copy_generated_spec from to d : (∀ p, below from p → ¬ below to p) →
  ∃ r d', copy_generated_files from to d = (r, d') ∧ same_outside to d d' ∧
    (∀ p b, below to p → d' !! p = Some b →
       leftover d p b ∨ ∃ src, below from src ∧ p = copy_of to src ∧ generated d src b) ∧
    (r = Done tt ↔ creatable to = true ∧ ∀ src, below from src → is_Some (d !! src) → can_copy d to src) ∧
    (r = Done tt → ∀ src, below from src → is_Some (d !! src) → is_excluded src = false →
       ∃ src' b, below from src' ∧ copy_of to src' = copy_of to src ∧ generated d src' b ∧
                 d' !! copy_of to src = Some b).
Proof.
  intros Hdis. destruct (filter_lookup_outside to d) as [Hout Hleft].
  unfold copy_generated_files, remove_dir_all, create_dir_all, fs_bind, fs_eval, walk_dir. cbn [unwrap].
  set (d0 := filter _ d) in *. destruct (creatable to); cbn [unwrap].
  2: { do 2 eexists. split; [reflexivity|]. split_and!; [done| |naive_solver|done].
       intros p b Hp Hb. left. by apply Hleft. }
  assert (∀ e, e ∈ walk d0 from ↔ below from e ∧ is_Some (d !! e)) as Hwalk.
  { intros e. rewrite law_walk. split; intros [H1 H2]; (split; [done|]); by rewrite Hout in * by auto. }
  assert (Forall (λ e, ¬ below to e) (walk d0 from)) as Hall.
  { apply Forall_forall. intros e [He _]%Hwalk. auto. }
  destruct (copy_each_spec to (walk d0 from) d0 Hall) as (rs & d' & -> & Hsame & Hin & _ & Hok & Hcopy).
  assert (∀ e b, below from e → generated d0 e b ↔ generated d e b) as Hgen.
  { intros e b He. apply (same_generated to); auto. }
  exists (match rs with Done [] => Done tt | Done _ => Panic "[error] Aborted." | Panic why => Panic why end), d'.
  split_and!.
  - destruct rs as [[]|]; done.
  - intros p Hp. by rewrite (Hsame p Hp), (Hout p Hp).
  - intros p b Hp Hb. destruct (Hin p b Hb) as [Hb'|(e & [He _]%Hwalk & -> & Hg)]; [left; by apply Hleft|right].
    exists e. by rewrite <- (Hgen e b He).
  - assert (rs = Done [] ↔ ∀ src, below from src → is_Some (d !! src) → can_copy d to src) as Hiff.
    { rewrite Hok, (same_can_copy to d d0) by done. rewrite Forall_forall.
      split; [intros H e H1 H2; apply H; by apply Hwalk|intros H e [H1 H2]%Hwalk; auto]. }
    rewrite <- Hiff. clear. destruct rs as [[]|]; naive_solver.
  - intros Hr e He Hex Hx. assert (rs = Done []) as -> by (destruct rs as [[]|]; done).
    destruct (Hcopy eq_refl e ltac:(by apply Hwalk) Hx) as (e' & b & [He' _]%Hwalk & E & Hg & Hb).
    exists e', b. by rewrite <- (Hgen e' b He').
Qed.

(** The .proto files of the chain, and the directories they may include, in the repository [base]. *)
Definition is_proto (base : path) (d : Disk) (p : path) : Prop :=
  below (base ++ ["module"; "proto"; "nab"; "v1"]%string) p ∧ is_Some (d !! p) ∧
  extension (file_name p) = Some "proto"%string.
Definition includes (base : path) : list path :=
  [base ++ ["module"; "proto"]%string; base ++ ["module"; "third_party"; "proto"]%string].

(** C36: a run of the tool, with a scratch directory that has no file in common with the output directory.
    It ends well only if prost and then tonic did, on exactly the .proto files of the chain; then each
    file of the output directory is a patched copy of one in the scratch directory, not of a package
    taken from upstream and without a path that leads out of the file to [cosmos], or else it was
    there before and could not be removed (the error of removing the old files is ignored); the
    directory holds a copy under every name found in the scratch directory but those of the excluded
    packages; and nothing else on the disk changes after prost and tonic. The copying that follows the
    removal succeeds exactly if the directory can be made, every file found has a proper name, and
    each that is not excluded is a text that can be read and written: none of these failures is passed
    over. *)
Theorem protos_generated root out tmp d d' :
  (∀ p, below tmp p → ¬ below out p) →
  compile_protos root out tmp d = (Done tt, d') →
  ∃ base x y protos d1 d2, root = base ++ [x; y] ∧ (∀ p, p ∈ protos ↔ is_proto base d p) ∧
    prost_compile protos (includes base) tmp d = (Ok tt, d1) ∧
    tonic_compile protos (includes base) tmp d1 = (Ok tt, d2) ∧
    same_outside out d2 d' ∧
    (∀ p b, below out p → d' !! p = Some b →
       leftover d2 p b ∨
       ∃ src, below tmp src ∧ p = copy_of out src ∧ generated d2 src b ∧ ¬ names_path relative_cosmos b) ∧
    (∀ src, below tmp src → is_Some (d2 !! src) → is_excluded src = false →
       ∃ src' b, below tmp src' ∧ copy_of out src' = copy_of out src ∧ generated d2 src' b ∧
                 d' !! copy_of out src = Some b) ∧
    (∀ d2, fst (copy_generated_files tmp out d2) = Done tt ↔
       creatable out = true ∧ ∀ src, below tmp src → is_Some (d2 !! src) → can_copy d2 out src).
Proof.
  intros Hdis H. unfold compile_protos in H.
  unfold fs_bind, fs_eval, walk_dir, external, create_dir_all in H.
  assert (∀ l (z : string), parent (l ++ [z]) = Some l) as Hp.
  { intros l z. unfold parent. rewrite removelast_last. by destruct l. }
  destruct root as [|y root _] using rev_ind; [done|]. rewrite Hp in H. cbn [unwrap_option] in H.
  destruct root as [|x base _] using rev_ind; [done|]. rewrite Hp in H. cbn -[copy_generated_files] in H. destruct (creatable tmp); [|done]. cbn -[copy_generated_files] in H.
  match type of H with context [prost_compile ?l _ _ _] => set (protos := l) in H end.
  destruct (prost_compile protos _ tmp d) as [[[]|] d1] eqn:E1; [|done]. cbn -[copy_generated_files] in H.
  destruct (tonic_compile protos _ tmp d1) as [[[]|] d2] eqn:E2; [|done]. cbn -[copy_generated_files] in H.
  destruct (copy_generated_spec tmp out d2 Hdis) as (r & d3 & E & Hsame & Hin & _ & Hcopy).
  rewrite H in E. injection E as <- <-.
  exists base, x, y, protos, d1, d2. split_and!; [by rewrite <- app_assoc| |done|done|done| | |].
  - intros p. unfold protos, is_proto. rewrite list_elem_of_filter, law_walk. naive_solver.
  - intros p b Hb Hb'. destruct (Hin p b Hb Hb') as [Hl|(src & H1 & H2 & H3)]; [by left|right]. exists src. split_and!; [done..|].
    destruct H3 as (_ & c & _ & Hc). by apply (patch_redirects c).
  - by apply Hcopy.
  - intros d4. destruct (copy_generated_spec tmp out d4 Hdis) as (r & d5 & -> & _ & _ & Hok & _). exact Hok.
Qed.
End Theory.

(** ** A run *)

(** The length of what "(super::)+cosmos" matches at the head of a text; [fuel] "super::" at most. *)
Fixpoint super_cosmos_length (fuel : nat) (t : bytes) : option nat :=
  match fuel with
  | O => None
  | S fuel =>
      if starts_with (to_bytes "super::") t then
        let rest := drop 7 t in
        if starts_with (to_bytes "cosmos") rest then Some 13%nat
        else n ← super_cosmos_length fuel rest; Some (7 + n)%nat
      else None
  end.
Lemma starts_with_take w t : starts_with w t = true → take (length w) t = w ∧ (length w ≤ length t)%nat.
Proof. intros H%bool_decide_eq_true. destruct H as [k ->]. rewrite take_app_length, length_app. split; [done|lia]. Qed.
Lemma super_cosmos_length_match fuel t n : super_cosmos_length fuel t = Some n → super_cosmos (take n t) ∧ (0 < n ≤ length t)%nat.
Proof.
  revert t n. induction fuel as [|fuel IH]; intros t n; [done|]. cbn [super_cosmos_length].
  destruct (starts_with (to_bytes "super::") t) eqn:E; [|done]. apply starts_with_take in E as [E El].
  change (length (to_bytes "super::")) with 7%nat in *. rewrite <- (take_drop 7 t), E. set (rest := drop 7 t).
  assert (length (to_bytes "super::" ++ rest) = 7 + length rest)%nat as Hlen by (by rewrite length_app).
  assert (∀ k, take (7 + k) (to_bytes "super::" ++ rest) = to_bytes "super::" ++ take k rest) as Htake.
  { intros k. exact (take_app_add (to_bytes "super::") rest k). }
  rewrite Hlen. change (drop 7 (to_bytes "super::" ++ rest)) with rest.
  destruct (starts_with (to_bytes "cosmos") rest) eqn:E2.
  - intros [= <-]. apply starts_with_take in E2 as [E2 El2]. change (length (to_bytes "cosmos")) with 6%nat in *.
    split; [|lia]. change 13%nat with (7 + 6)%nat. rewrite Htake, E2. by exists 0%nat.
  - destruct (super_cosmos_length fuel rest) as [k|] eqn:Ek; [|done].
    intros [= Hn]. change (7 + k = n)%nat in Hn. rewrite <- Hn.
    destruct (IH _ _ Ek) as [[j Hj] Hk]. split; [|lia]. rewrite Htake, Hj. exists (S j). cbn [supers]. by rewrite <- ?app_assoc.
Qed.
Lemma super_cosmos_length_longest fuel n post : (n < fuel)%nat →
  super_cosmos_length fuel ((supers (S n) ++ to_bytes "cosmos") ++ post) =
  Some (length (supers (S n) ++ to_bytes "cosmos")).
Proof.
  revert n. induction fuel as [|fuel IH]; intros n Hn; [lia|].
  cbn [super_cosmos_length supers]. rewrite <- !app_assoc, (starts_with_app (to_bytes "super::")). cbn zeta.
  change (drop 7 (to_bytes "super::" ++ supers n ++ to_bytes "cosmos" ++ post)) with (supers n ++ to_bytes "cosmos" ++ post).
  destruct n as [|n].
  - cbn [supers app]. rewrite starts_with_app. done.
  - replace (starts_with (to_bytes "cosmos") (supers (S n) ++ to_bytes "cosmos" ++ post)) with false.
    + by rewrite app_assoc, IH by lia.
    + symmetry. apply bool_decide_eq_false. intros [k Hk]. done.
Qed.
Lemma length_supers n : length (supers n) = (7 * n)%nat.
Proof. induction n as [|n IH]; [done|]. cbn [supers]. rewrite length_app, IH. change (length (to_bytes "super::")) with 7%nat. lia. Qed.
Lemma finds_super_cosmos : finds super_cosmos (λ t, super_cosmos_length (length t) t).
Proof.
  split; [intros t n; apply super_cosmos_length_match|]. intros m post [n ->]. eexists. split; [|done].
  apply super_cosmos_length_longest. rewrite !length_app, length_supers. lia.
Qed.

Section Run.
(** prost writes the chain's file and one of the SDK's; tonic adds a client, formatted. *)
Definition sample_types : string := "pub amount: ::core::option::Option<super::super::cosmos::base::v1beta1::Coin>,".
Definition sample_output : bytes := to_bytes (sample_types +:+ TONIC_CLIENT_ATTRIBUTE).
#[local] Instance permissive : Os :=
  {| readable _ := true; writable _ := true; creatable _ := true; stuck _ := false |}.
#[local] Instance sample_tools : BuildTools := {|
  Pattern := unit;
  regex_new s := if bool_decide (s = COSMOS_SDK_PROTO_REGEX) then Ok tt else Err "not modelled"%string;
  regex_replace_all _ text rep := replace_with (λ t, super_cosmos_length (length t) t) rep 0 text;
  walk d dir := filter (below dir) (map_to_list d).*1;
  prost_compile _ _ tmp d :=
    (Ok tt, <[tmp ++ ["nab.v1.rs"%string] := to_bytes sample_types]>
              (<[tmp ++ ["cosmos.base.v1beta1.rs"%string] := to_bytes "pub struct Coin {}"]> d));
  tonic_compile _ _ tmp d := (Ok tt, <[tmp ++ ["nab.v1.rs"%string] := sample_output]> d);
|}.
#[local] Instance sample_tools_laws : BuildLaws.
Proof.
  split.
  - exists tt. split; [done|]. intros text rep _. apply replace_with_spec, finds_super_cosmos.
  - intros d dir p. cbn [walk sample_tools]. rewrite list_elem_of_filter, list_elem_of_fmap. split.
    + intros [H ([q b] & -> & Hq%elem_of_map_to_list)]. split; [done|]. by exists b.
    + intros [H [b Hb]]. split; [done|]. exists (p, b). split; [done|]. by apply elem_of_map_to_list.
Qed.

Definition crate : path := ["repo"; "orchestrator"; "proto_build"]%string.
Definition out_path : path := ["repo"; "orchestrator"; "gravity_proto"; "src"; "prost"]%string.
(** The repository before: a .proto file, and a generated file of an earlier run. *)
Definition disk_before : Disk :=
  <[["repo"; "module"; "proto"; "nab"; "v1"; "msgs.proto"]%string := to_bytes "message MsgSendToEth {}"]>
    {[ out_path ++ ["old.rs"%string] := [] ]}.
Definition disk_after : Disk := snd (compile_protos crate out_path TMP_PATH disk_before).

Lemma patch_text_witness : patch unformatted_client = Done unformatted_client.
Proof. destruct (patch_text []) as (_ & _ & _ & _ & _ & H). exact H. Defined.

Lemma protos_generated_witness :
  disk_after !! (out_path ++ ["nab.v1.rs"%string]) =
    Some (to_bytes ("pub amount: ::core::option::Option<cosmos_sdk_proto::cosmos::base::v1beta1::Coin>," +:+
                    of_bytes grpc_client_text)) ∧
  disk_after !! (out_path ++ ["cosmos.base.v1beta1.rs"%string]) = None ∧
  disk_after !! (out_path ++ ["old.rs"%string]) = None ∧
  ∃ d2, same_outside out_path d2 disk_after.
Proof.
  split; [vm_refl|]. split; [vm_refl|]. split; [vm_refl|].
  destruct (protos_generated crate out_path TMP_PATH disk_before disk_after)
    as (base & x & y & protos & d1 & d2 & _ & _ & _ & _ & H & _); [| |by exists d2].
  - intros p [[k ->] _] [[j Hj] _]. done.
  - unfold disk_after. destruct (compile_protos crate out_path TMP_PATH disk_before) as [r d'] eqn:E.
    cbn [snd]. f_equal. transitivity (fst (compile_protos crate out_path TMP_PATH disk_before)); [by rewrite E|vm_refl].
Defined.
End Run.
