(* ===== verification/Contract.v ===== *)
(** * The bridge contract: solidity/contracts/Gravity.sol

    The contract the orchestrator watches and the relayer calls. A transaction is a function on the
    contract's storage and the events it has emitted; what the contracts it calls do is given by a
    list of replies, and may include, as the source allows, further calls of [deployERC20]. *)

From S2P Require Import Prelude Bytes Proto External Evm.

Definition word_wrap (z : Z) : Z := z mod 2 ^ 256.

Section Contract.
Context `{V : Evm}.

(** [struct ValsetArgs] and [struct LogicCallArgs]. *)
Record ValsetArgs := mkValsetArgs {
  validators : list EthAddress;
  powers : list Z;
  valsetNonce : Z;
  rewardAmount : Z;
  rewardToken : EthAddress;
}.
Record LogicCallArgs := mkLogicCallArgs {
  transferAmounts : list Z;
  transferTokenContracts : list EthAddress;
  feeAmounts : list Z;
  feeTokenContracts : list EthAddress;
  logicContractAddress : EthAddress;
  payload : bytes;
  timeOut : Z;
  invalidationId : Z;
  invalidationNonce : Z;
}.

Inductive GravityEvent :=
  | TransactionBatchExecutedEvent (batchNonce : Z) (token : EthAddress) (eventNonce : Z)
  | SendToCosmosEvent (tokenContract sender : EthAddress) (destination amount eventNonce : Z)
  | ERC20DeployedEvent (cosmosDenom : string) (tokenContract : EthAddress) (name symbol : string)
      (decimals eventNonce : Z)
  | ValsetUpdatedEvent (newValsetNonce eventNonce rewardAmount : Z) (rewardToken : EthAddress)
      (validators : list EthAddress) (powers : list Z)
  | LogicCallEvent (invalidationId invalidationNonce : Z) (returnData : bytes) (eventNonce : Z).

(** The contract's storage, and the log of its events. *)
Record Gravity := mkGravity {
  wNomAddress : EthAddress;
  state_lastValsetCheckpoint : bytes;
  state_lastBatchNonces : gmap EthAddress Z;
  state_invalidationMapping : gmap Z Z;
  state_lastValsetNonce : Z;
  state_lastEventNonce : Z;
  state_gravityId : Z;
  state_powerThreshold : Z;
  emitted : list GravityEvent;
}.

(** A mapping reads as zero where it was never written. *)
Definition lastBatchNonce (st : Gravity) (erc20 : EthAddress) : Z :=
  default 0 (state_lastBatchNonces st !! erc20).
Definition lastLogicCallNonce (st : Gravity) (invalidation_id : Z) : Z :=
  default 0 (state_invalidationMapping st !! invalidation_id).

(** ** Transactions *)

(** The arguments of a [deployERC20] and the address the new token gets. *)
Record Deploy := mkDeploy {
  dep_cosmosDenom : string;
  dep_name : string;
  dep_symbol : string;
  dep_decimals : Z;
  dep_address : EthAddress;
}.
(** What a called contract does: it reverts, or returns data after deploying some tokens here, the
    one function that is not [nonReentrant]. *)
Inductive Reply :=
  | Reverts
  | Returns (data : bytes) (deploys : list Deploy).

(** A transaction under way: it reads and writes the storage, consumes replies, and may revert. *)
Definition tx (A : Type) : Type := Gravity * list Reply → result (A * (Gravity * list Reply)) string.
#[global] Instance tx_ret : MRet tx := λ A a s, Ok (a, s).
#[global] Instance tx_bind : MBind tx := λ A B f m s,
  match m s with Ok (a, s) => f a s | Err e => Err e end.

Definition revert {A} (why : string) : tx A := λ _, Err why.
Definition require (b : bool) (why : string) : tx unit := if b then mret tt else revert why.
Definition tx_get : tx Gravity := λ s, Ok (s.1, s).
Definition tx_modify (f : Gravity → Gravity) : tx unit := λ s, Ok (tt, (f s.1, s.2)).
Definition tx_lift {A} (r : result A string) : tx A := match r with Ok a => mret a | Err e => revert e end.
Fixpoint for_all {A} (l : list A) (body : A → tx unit) : tx unit :=
  match l with [] => mret tt | x :: l => body x;; for_all l body end.

(** [SafeMath.add]. *)
Definition safe_add (a b : Z) : result Z string :=
  if a + b <? 2 ^ 256 then Ok (a + b) else Err "SafeMath: addition overflow".

(** Writes to the storage. *)
Definition with_lastEventNonce (n : Z) (st : Gravity) : Gravity := {|
  wNomAddress := wNomAddress st; state_lastValsetCheckpoint := state_lastValsetCheckpoint st;
  state_lastBatchNonces := state_lastBatchNonces st;
  state_invalidationMapping := state_invalidationMapping st;
  state_lastValsetNonce := state_lastValsetNonce st; state_lastEventNonce := n;
  state_gravityId := state_gravityId st; state_powerThreshold := state_powerThreshold st;
  emitted := emitted st |}.
Definition with_event (e : GravityEvent) (st : Gravity) : Gravity := {|
  wNomAddress := wNomAddress st; state_lastValsetCheckpoint := state_lastValsetCheckpoint st;
  state_lastBatchNonces := state_lastBatchNonces st;
  state_invalidationMapping := state_invalidationMapping st;
  state_lastValsetNonce := state_lastValsetNonce st; state_lastEventNonce := state_lastEventNonce st;
  state_gravityId := state_gravityId st; state_powerThreshold := state_powerThreshold st;
  emitted := emitted st ++ [e] |}.
Definition with_valset (checkpoint : bytes) (nonce : Z) (st : Gravity) : Gravity := {|
  wNomAddress := wNomAddress st; state_lastValsetCheckpoint := checkpoint;
  state_lastBatchNonces := state_lastBatchNonces st;
  state_invalidationMapping := state_invalidationMapping st;
  state_lastValsetNonce := nonce; state_lastEventNonce := state_lastEventNonce st;
  state_gravityId := state_gravityId st; state_powerThreshold := state_powerThreshold st;
  emitted := emitted st |}.
Definition with_lastBatchNonce (token : EthAddress) (nonce : Z) (st : Gravity) : Gravity := {|
  wNomAddress := wNomAddress st; state_lastValsetCheckpoint := state_lastValsetCheckpoint st;
  state_lastBatchNonces := <[token := nonce]> (state_lastBatchNonces st);
  state_invalidationMapping := state_invalidationMapping st;
  state_lastValsetNonce := state_lastValsetNonce st; state_lastEventNonce := state_lastEventNonce st;
  state_gravityId := state_gravityId st; state_powerThreshold := state_powerThreshold st;
  emitted := emitted st |}.
Definition with_invalidation (invalidation_id nonce : Z) (st : Gravity) : Gravity := {|
  wNomAddress := wNomAddress st; state_lastValsetCheckpoint := state_lastValsetCheckpoint st;
  state_lastBatchNonces := state_lastBatchNonces st;
  state_invalidationMapping := <[invalidation_id := nonce]> (state_invalidationMapping st);
  state_lastValsetNonce := state_lastValsetNonce st; state_lastEventNonce := state_lastEventNonce st;
  state_gravityId := state_gravityId st; state_powerThreshold := state_powerThreshold st;
  emitted := emitted st |}.

(** [state_lastEventNonce = state_lastEventNonce.add(1); emit ..(.., state_lastEventNonce)] *)
Definition log_event (e : Z → GravityEvent) : tx unit :=
  st ← tx_get; n ← tx_lift (safe_add (state_lastEventNonce st) 1); 
  tx_modify (with_lastEventNonce n);; tx_modify (with_event (e n)).

(** ** deployERC20, and calls of other contracts *)

(** The new token's constructor mints to this contract and calls nothing. *)
Definition deployERC20 (d : Deploy) : tx unit :=
  log_event (λ n, ERC20DeployedEvent (dep_cosmosDenom d) (dep_address d) (dep_name d) (dep_symbol d)
                    (dep_decimals d) n).

Definition external_call : tx bytes := λ '(st, replies),
  match replies with
  | Returns data deploys :: replies => (for_all deploys deployERC20;; mret data) (st, replies)
  | Reverts :: _ | [] => Err "external call reverted"%string
  end.
Definition safeTransfer (token to : EthAddress) (amount : Z) : tx unit := external_call;; mret tt.
Definition safeTransferFrom (token from : EthAddress) (amount : Z) : tx unit := external_call;; mret tt.
Definition burn (token : EthAddress) (amount : Z) : tx unit := external_call;; mret tt.
Definition functionCall (target : EthAddress) (data : bytes) : tx bytes := external_call.

(** ** Signatures *)

Definition verifySig (signer : EthAddress) (theHash : bytes) (v r s : Z) : bool :=
  let messageDigest := keccak256 (signed_message_prefix ++ theHash) in
  bool_decide (signer = ecrecover messageDigest v r s).

(** Reading past the end of an array in memory is an invalid operation. *)
Definition at_index (l : list Z) (i : nat) : result Z string :=
  match l !! i with Some x => Ok x | None => Err "invalid opcode"%string end.

(** The loop of [checkValidatorSignatures] from the [i]-th validator on. *)
Fixpoint cumulative_power (i : nat) (currentValidators : list EthAddress) (currentPowers v r s : list Z)
    (theHash : bytes) (powerThreshold cumulativePower : Z) : result Z string :=
  match currentValidators with
  | [] => Ok cumulativePower
  | validator :: currentValidators =>
      match at_index v i with
      | Err e => Err e
      | Ok v_i =>
          if v_i =? 0 then
            cumulative_power (S i) currentValidators currentPowers v r s theHash powerThreshold cumulativePower
          else
            match at_index r i, at_index s i with
            | Ok r_i, Ok s_i =>
                if verifySig validator theHash v_i r_i s_i then
                  match at_index currentPowers i with
                  | Ok power =>
                      let cumulativePower := word_wrap (cumulativePower + power) in
                      if powerThreshold <? cumulativePower then Ok cumulativePower
                      else cumulative_power (S i) currentValidators currentPowers v r s theHash powerThreshold
                             cumulativePower
                  | Err e => Err e
                  end
                else Err "Validator signature does not match."%string
            | Err e, _ | _, Err e => Err e
            end
      end
  end.

Definition checkValidatorSignatures (currentValidators : list EthAddress) (currentPowers v r s : list Z)
    (theHash : bytes) (powerThreshold : Z) : tx unit :=
  cumulativePower ← tx_lift (cumulative_power 0 currentValidators currentPowers v r s theHash powerThreshold 0);
  require (powerThreshold <? cumulativePower) "Submitted validator set signatures do not have enough power.".

(** The names the checkpoints carry, as the source writes them. *)
Definition checkpoint_name : Z := 0x636865636b706f696e7400000000000000000000000000000000000000000000.
Definition transaction_batch_name : Z := 0x7472616e73616374696f6e426174636800000000000000000000000000000000.
Definition logic_call_name : Z := 0x6c6f67696343616c6c0000000000000000000000000000000000000000000000.

Definition makeCheckpoint (valset : ValsetArgs) (gravityId : Z) : bytes :=
  keccak256 (abi_encode
    [VWord gravityId; VWord checkpoint_name; VWord (valsetNonce valset);
     VArray (VAddress <$> validators valset); VArray (VWord <$> powers valset);
     VWord (rewardAmount valset); VAddress (rewardToken valset)]).

Definition well_formed_valset (currentValset : ValsetArgs) (v r s : list Z) : bool :=
  (length (validators currentValset) =? length (powers currentValset))%nat &&
  (length (validators currentValset) =? length v)%nat &&
  (length (validators currentValset) =? length r)%nat &&
  (length (validators currentValset) =? length s)%nat.

(** ** The three submissions *)

Definition updateValset (msg_sender : EthAddress) (newValset currentValset : ValsetArgs) (v r s : list Z) :
    tx unit :=
  require (valsetNonce currentValset <? valsetNonce newValset)
    "New valset nonce must be greater than the current nonce";;
  require (length (validators newValset) =? length (powers newValset))%nat "Malformed new validator set";;
  require (well_formed_valset currentValset v r s) "Malformed current validator set";;
  st ← tx_get;
  require (bool_decide (makeCheckpoint currentValset (state_gravityId st) = state_lastValsetCheckpoint st))
    "Supplied current validators and powers do not match checkpoint.";;
  let newCheckpoint := makeCheckpoint newValset (state_gravityId st) in
  checkValidatorSignatures (validators currentValset) (powers currentValset) v r s newCheckpoint
    (state_powerThreshold st);;
  tx_modify (with_valset newCheckpoint (valsetNonce newValset));;
  (if bool_decide (rewardToken newValset ≠ ZERO_ADDRESS) && negb (rewardAmount newValset =? 0)
   then safeTransfer (rewardToken newValset) msg_sender (rewardAmount newValset) else mret tt);;
  log_event (λ n, ValsetUpdatedEvent (valsetNonce newValset) n (rewardAmount newValset)
                    (rewardToken newValset) (validators newValset) (powers newValset)).

(** The hash the validators sign for a batch. *)
Definition batch_checkpoint (gravityId : Z) (amounts : list Z) (destinations : list EthAddress) (fees : list Z)
    (batchNonce : Z) (tokenContract : EthAddress) (batchTimeout : Z) : bytes :=
  keccak256 (abi_encode
    [VWord gravityId; VWord transaction_batch_name; VArray (VWord <$> amounts);
     VArray (VAddress <$> destinations); VArray (VWord <$> fees); VWord batchNonce;
     VAddress tokenContract; VWord batchTimeout]).

(** The loop that sends the amounts and adds up the fees. *)
Fixpoint pay_batch (tokenContract : EthAddress) (amounts : list Z) (destinations : list EthAddress)
    (fees : list Z) (totalFee : Z) : tx Z :=
  match amounts, destinations, fees with
  | [], _, _ => mret totalFee
  | amount :: amounts, destination :: destinations, fee :: fees =>
      safeTransfer tokenContract destination amount;;
      totalFee ← tx_lift (safe_add totalFee fee);
      pay_batch tokenContract amounts destinations fees totalFee
  | _, _, _ => revert "invalid opcode"
  end.

Definition submitBatch (msg_sender : EthAddress) (block_number : Z) (currentValset : ValsetArgs)
    (v r s : list Z) (amounts : list Z) (destinations : list EthAddress) (fees : list Z)
    (batchNonce : Z) (tokenContract : EthAddress) (batchTimeout : Z) : tx unit :=
  st ← tx_get;
  require (lastBatchNonce st tokenContract <? batchNonce)
    "New batch nonce must be greater than the current nonce";;
  require (block_number <? batchTimeout) "Batch timeout must be greater than the current block height";;
  require (well_formed_valset currentValset v r s) "Malformed current validator set";;
  require (bool_decide (makeCheckpoint currentValset (state_gravityId st) = state_lastValsetCheckpoint st))
    "Supplied current validators and powers do not match checkpoint.";;
  require ((length amounts =? length destinations)%nat && (length amounts =? length fees)%nat)
    "Malformed batch of transactions";;
  checkValidatorSignatures (validators currentValset) (powers currentValset) v r s
    (batch_checkpoint (state_gravityId st) amounts destinations fees batchNonce tokenContract batchTimeout)
    (state_powerThreshold st);;
  tx_modify (with_lastBatchNonce tokenContract batchNonce);;
  totalFee ← pay_batch tokenContract amounts destinations fees 0;
  safeTransfer tokenContract msg_sender totalFee;;
  log_event (λ n, TransactionBatchExecutedEvent batchNonce tokenContract n).

(** The hash the validators sign for a logic call. *)
Definition logic_call_checkpoint (gravityId : Z) (args : LogicCallArgs) : bytes :=
  keccak256 (abi_encode
    [VWord gravityId; VWord logic_call_name; VArray (VWord <$> transferAmounts args);
     VArray (VAddress <$> transferTokenContracts args); VArray (VWord <$> feeAmounts args);
     VArray (VAddress <$> feeTokenContracts args); VAddress (logicContractAddress args);
     VBytes (payload args); VWord (timeOut args); VWord (invalidationId args);
     VWord (invalidationNonce args)]).

Definition submitLogicCall (msg_sender : EthAddress) (block_number : Z) (currentValset : ValsetArgs)
    (v r s : list Z) (args : LogicCallArgs) : tx unit :=
  require (block_number <? timeOut args) "Timed out";;
  st ← tx_get;
  require (lastLogicCallNonce st (invalidationId args) <? invalidationNonce args)
    "New invalidation nonce must be greater than the current nonce";;
  require (well_formed_valset currentValset v r s) "Malformed current validator set";;
  require (bool_decide (makeCheckpoint currentValset (state_gravityId st) = state_lastValsetCheckpoint st))
    "Supplied current validators and powers do not match checkpoint.";;
  require (length (transferAmounts args) =? length (transferTokenContracts args))%nat
    "Malformed list of token transfers";;
  require (length (feeAmounts args) =? length (feeTokenContracts args))%nat "Malformed list of fees";;
  checkValidatorSignatures (validators currentValset) (powers currentValset) v r s
    (logic_call_checkpoint (state_gravityId st) args) (state_powerThreshold st);;
  tx_modify (with_invalidation (invalidationId args) (invalidationNonce args));;
  for_all (zip (transferTokenContracts args) (transferAmounts args))
    (λ '(token, amount), safeTransfer token (logicContractAddress args) amount);;
  returnData ← functionCall (logicContractAddress args) (payload args);
  for_all (zip (feeTokenContracts args) (feeAmounts args))
    (λ '(token, amount), safeTransfer token msg_sender amount);;
  log_event (λ n, LogicCallEvent (invalidationId args) (invalidationNonce args) returnData n).

(** ** Deposits, and the constructor *)

Definition sendToCosmos (msg_sender tokenContract : EthAddress) (destination amount : Z) : tx unit :=
  safeTransferFrom tokenContract msg_sender amount;;
  st ← tx_get;
  (if bool_decide (tokenContract = wNomAddress st) then burn (wNomAddress st) amount else mret tt);;
  log_event (λ n, SendToCosmosEvent tokenContract msg_sender destination amount n).

Fixpoint initial_power (powers : list Z) (powerThreshold cumulativePower : Z) : Z :=
  match powers with
  | [] => cumulativePower
  | power :: powers =>
      let cumulativePower := word_wrap (cumulativePower + power) in
      if powerThreshold <? cumulativePower then cumulativePower
      else initial_power powers powerThreshold cumulativePower
  end.

Definition constructor (gravityId powerThreshold : Z) (validators : list EthAddress) (powers : list Z)
    (wNom : EthAddress) : result Gravity string :=
  if negb (length validators =? length powers)%nat then Err "Malformed current validator set"%string
  else if powerThreshold <? initial_power powers powerThreshold 0 then
    let valset := mkValsetArgs validators powers 0 0 ZERO_ADDRESS in
    Ok {| wNomAddress := wNom; state_lastValsetCheckpoint := makeCheckpoint valset gravityId;
          state_lastBatchNonces := ∅; state_invalidationMapping := ∅; state_lastValsetNonce := 0;
          state_lastEventNonce := 1; state_gravityId := gravityId; state_powerThreshold := powerThreshold;
          emitted := [ValsetUpdatedEvent 0 1 0 ZERO_ADDRESS validators powers] |}
  else Err "Submitted validator set signatures do not have enough power."%string.

(** ** The contract's life *)

Inductive GravityCall :=
  | UpdateValset (newValset currentValset : ValsetArgs) (v r s : list Z)
  | SubmitBatch (currentValset : ValsetArgs) (v r s amounts : list Z) (destinations : list EthAddress)
      (fees : list Z) (batchNonce : Z) (tokenContract : EthAddress) (batchTimeout : Z)
  | SubmitLogicCall (currentValset : ValsetArgs) (v r s : list Z) (args : LogicCallArgs)
  | SendToCosmos (tokenContract : EthAddress) (destination amount : Z)
  | DeployERC20 (d : Deploy).

Definition execute (msg_sender : EthAddress) (block_number : Z) (c : GravityCall) : tx unit :=
  match c with
  | UpdateValset new current v r s => updateValset msg_sender new current v r s
  | SubmitBatch current v r s amounts destinations fees nonce token timeout =>
      submitBatch msg_sender block_number current v r s amounts destinations fees nonce token timeout
  | SubmitLogicCall current v r s args => submitLogicCall msg_sender block_number current v r s args
  | SendToCosmos token destination amount => sendToCosmos msg_sender token destination amount
  | DeployERC20 d => deployERC20 d
  end.

(** A transaction that does not revert; one that does leaves no trace. *)
Inductive contract_step (st st' : Gravity) : Prop :=
  | step_call sender block c replies rest :
      execute sender block c (st, replies) = Ok (tt, (st', rest)) → contract_step st st'.
Inductive reachable : Gravity → Prop :=
  | reachable_constructor id threshold vals pows wNom st :
      constructor id threshold vals pows wNom = Ok st → reachable st
  | reachable_step st st' : reachable st → contract_step st st' → reachable st'.
End Contract.
