(* ===== verification/ContractTheory.v ===== *)
(** * The bridge contract: what holds of every contract reachable from its constructor

    Its events are numbered without gaps or repetitions, no batch, call or validator set is executed
    twice, and the set whose checkpoint it stores is the one of its last [ValsetUpdatedEvent]. *)

From S2P Require Import Prelude Bytes Proto External Evm Contract.
From Stdlib Require Import Sorted.

Section Posts.
Context `{V : Evm}.

(** What holds when a transaction does not revert, whatever the replies were. *)
Definition tx_post {A} (m : tx A) (st : Gravity) (Q : A → Gravity → Prop) : Prop :=
  ∀ replies a st' rest, m (st, replies) = Ok (a, (st', rest)) → Q a st'.

Lemma post_mono {A} (m : tx A) st (Q Q' : A → Gravity → Prop) :
  tx_post m st Q → (∀ a st', Q a st' → Q' a st') → tx_post m st Q'.
Proof. intros H HQ replies a st' rest E. eapply HQ, H, E. Qed.
Lemma post_ret {A} (a : A) st (Q : A → Gravity → Prop) : Q a st → tx_post (mret a) st Q.
Proof. intros H replies b st' rest [= <- <- <-]. exact H. Qed.
Lemma post_bind {A B} (m : tx A) (f : A → tx B) st Q :
  tx_post m st (λ a st', tx_post (f a) st' Q) → tx_post (m ≫= f) st Q.
Proof.
  intros H replies b st' rest E. unfold mbind, tx_bind in E.
  destruct (m (st, replies)) as [[a [st1 rest1]]|] eqn:Em; [|done]. by eapply H.
Qed.
Lemma post_run {A B} (m : tx A) (f : A → tx B) st (Q0 : A → Gravity → Prop) Q :
  tx_post m st Q0 → (∀ a st', Q0 a st' → tx_post (f a) st' Q) → tx_post (m ≫= f) st Q.
Proof. intros Hm Hf. apply post_bind. by eapply post_mono. Qed.
Lemma post_get_bind {B} (f : Gravity → tx B) st Q : tx_post (f st) st Q → tx_post (tx_get ≫= f) st Q.
Proof. intros H. apply post_bind. intros replies a st' rest [= <- <- <-]. exact H. Qed.
Lemma post_require_bind {B} b why (f : unit → tx B) st Q :
  (b = true → tx_post (f tt) st Q) → tx_post (require b why ≫= f) st Q.
Proof. intros H. apply post_bind. destruct b; [by apply post_ret, H|done]. Qed.
Lemma post_lift_bind {A B} (r : result A string) (f : A → tx B) st Q :
  (∀ a, r = Ok a → tx_post (f a) st Q) → tx_post (tx_lift r ≫= f) st Q.
Proof. intros H. apply post_bind. destruct r; [by apply post_ret, H|done]. Qed.
Lemma post_modify_bind {B} g (f : unit → tx B) st Q :
  tx_post (f tt) (g st) Q → tx_post (tx_modify g ≫= f) st Q.
Proof. intros H. apply post_bind. intros replies a st' rest [= <- <- <-]. exact H. Qed.
Lemma post_for_all {A} (l : list A) (body : A → tx unit) st (R : Gravity → Gravity → Prop) :
  (∀ s, R s s) → (∀ s1 s2 s3, R s1 s2 → R s2 s3 → R s1 s3) →
  (∀ x s, tx_post (body x) s (λ _ s', R s s')) → tx_post (for_all l body) st (λ _ st', R st st').
Proof.
  intros Hr Ht Hb. revert st. induction l as [|x l IH]; intros st; simpl; [by apply post_ret|].
  eapply post_run; [by apply Hb|]. intros [] s1 H1. eapply post_mono; [by apply IH|].
  intros [] s2 H2. by eapply Ht.
Qed.

(** ** Numbering *)

Definition event_nonce (e : GravityEvent) : Z :=
  match e with
  | TransactionBatchExecutedEvent _ _ n | SendToCosmosEvent _ _ _ _ n | ERC20DeployedEvent _ _ _ _ _ n
  | ValsetUpdatedEvent _ n _ _ _ _ | LogicCallEvent _ _ _ n => n
  end.
Definition is_deploy (e : GravityEvent) : bool := match e with ERC20DeployedEvent _ _ _ _ _ _ => true | _ => false end.

(** A number of events later. *)
Definition advance (st : Gravity) (evs : list GravityEvent) : Gravity := {|
  wNomAddress := wNomAddress st; state_lastValsetCheckpoint := state_lastValsetCheckpoint st;
  state_lastBatchNonces := state_lastBatchNonces st;
  state_invalidationMapping := state_invalidationMapping st;
  state_lastValsetNonce := state_lastValsetNonce st;
  state_lastEventNonce := state_lastEventNonce st + Z.of_nat (length evs);
  state_gravityId := state_gravityId st; state_powerThreshold := state_powerThreshold st;
  emitted := emitted st ++ evs |}.
Definition numbered (n : Z) (evs : list GravityEvent) : Prop :=
  event_nonce <$> evs = seqZ (n + 1) (Z.of_nat (length evs)).

Lemma advance_nil st : advance st [] = st.
Proof. destruct st. unfold advance. simpl. by rewrite app_nil_r, Z.add_0_r. Qed.
Lemma advance_advance st evs evs' : advance (advance st evs) evs' = advance st (evs ++ evs').
Proof. unfold advance. simpl. by rewrite length_app, Nat2Z.inj_add, Z.add_assoc, app_assoc. Qed.

Lemma numbered_app n evs evs' :
  numbered n evs → numbered (n + Z.of_nat (length evs)) evs' → numbered n (evs ++ evs').
Proof.
  unfold numbered. intros H1 H2. rewrite fmap_app, H1, H2, length_app, Nat2Z.inj_add.
  rewrite seqZ_app by lia. f_equal. f_equal. lia.
Qed.

(** Only tokens were deployed in between. *)
Definition deployed (st st' : Gravity) : Prop :=
  ∃ evs, st' = advance st evs ∧ numbered (state_lastEventNonce st) evs ∧ Forall (λ e, is_deploy e = true) evs ∧
    (state_lastEventNonce st < 2 ^ 256 → state_lastEventNonce st' < 2 ^ 256).

Lemma deployed_refl st : deployed st st.
Proof. exists []. by rewrite advance_nil. Qed.
Lemma deployed_trans st1 st2 st3 : deployed st1 st2 → deployed st2 st3 → deployed st1 st3.
Proof.
  intros (e1 & -> & N1 & D1 & B1) (e2 & -> & N2 & D2 & B2). exists (e1 ++ e2).
  split_and!; [apply advance_advance|by apply numbered_app|by apply Forall_app|auto].
Qed.

Lemma log_event_post e st : (∀ n, event_nonce (e n) = n) →
  tx_post (log_event e) st (λ _ st', st' = advance st [e (state_lastEventNonce st + 1)] ∧
    numbered (state_lastEventNonce st) [e (state_lastEventNonce st + 1)] ∧ state_lastEventNonce st' < 2 ^ 256).
Proof.
  intros He. unfold log_event. apply post_get_bind, post_lift_bind. intros n Hn. unfold safe_add in Hn.
  destruct (Z.ltb_spec (state_lastEventNonce st + 1) (2 ^ 256)) as [Hlt|]; [|done]. injection Hn as <-.
  apply post_modify_bind. intros replies a st' rest [= <- <- <-]. unfold advance. simpl.
  split_and!; [done| |done]. unfold numbered. simpl. by rewrite He.
Qed.

Lemma deployERC20_post d st : tx_post (deployERC20 d) st (λ _ st', deployed st st').
Proof.
  eapply post_mono; [by apply log_event_post|]. intros [] st' (-> & Hn & Hb). eexists.
  split_and!; [done|exact Hn|by repeat constructor|auto].
Qed.
Lemma external_call_post st : tx_post external_call st (λ _ st', deployed st st').
Proof.
  intros replies a st' rest H. destruct replies as [|[|data deploys] replies]; [done|done|]. revert H.
  cut (tx_post (for_all deploys deployERC20;; mret data) st (λ _ st', deployed st st')); [intros Hc; apply Hc|].
  eapply post_run; [apply post_for_all with (R := deployed);
    [apply deployed_refl|apply deployed_trans|intros; apply deployERC20_post]|].
  intros [] st1 H1. by apply post_ret.
Qed.
Lemma transfer_post token to amount st : tx_post (safeTransfer token to amount) st (λ _ st', deployed st st').
Proof. eapply post_run; [apply external_call_post|]. intros d st1 H1. by apply post_ret. Qed.
Lemma transfer_from_post token from amount st :
  tx_post (safeTransferFrom token from amount) st (λ _ st', deployed st st').
Proof. eapply post_run; [apply external_call_post|]. intros d st1 H1. by apply post_ret. Qed.
Lemma burn_post token amount st : tx_post (burn token amount) st (λ _ st', deployed st st').
Proof. eapply post_run; [apply external_call_post|]. intros d st1 H1. by apply post_ret. Qed.
Lemma pay_batch_post token amounts destinations fees total st :
  tx_post (pay_batch token amounts destinations fees total) st (λ _ st', deployed st st').
Proof.
  revert destinations fees total st. induction amounts as [|x amounts IH]; intros [|d ds] [|f fs] total st;
    try (by apply post_ret, deployed_refl); try done.
  simpl. eapply post_run; [apply transfer_post|]. intros [] st1 H1. apply post_lift_bind. intros t _.
  eapply post_mono; [apply IH|]. intros t' st2 H2. by eapply deployed_trans.
Qed.
Lemma for_all_transfers {A} (l : list A) (body : A → tx unit) st :
  (∀ x s, tx_post (body x) s (λ _ s', deployed s s')) → tx_post (for_all l body) st (λ _ st', deployed st st').
Proof. intros H. apply post_for_all; [apply deployed_refl|apply deployed_trans|done]. Qed.

(** What the signature check establishes. *)
Lemma check_signatures_bind {B} vals pows v r s hash threshold (f : unit → tx B) st Q :
  (∀ p, cumulative_power 0 vals pows v r s hash threshold 0 = Ok p → threshold < p → tx_post (f tt) st Q) →
  tx_post (checkValidatorSignatures vals pows v r s hash threshold ≫= f) st Q.
Proof.
  intros H. unfold checkValidatorSignatures. apply post_bind, post_lift_bind. intros p Hp.
  intros replies a st' rest E. unfold require in E. destruct (Z.ltb_spec threshold p); [|done].
  injection E as <- <- <-. by eapply H.
Qed.
End Posts.

(** ** Each transaction *)

Section Transactions.
Context `{V : Evm}.

(** The storage was [st0] but for some deployments, and then one event was logged. *)
Definition executed (st0 : Gravity) (e : Z → GravityEvent) (st' : Gravity) : Prop :=
  ∃ evs, st' = advance st0 (evs ++ [e (state_lastEventNonce st')]) ∧
    numbered (state_lastEventNonce st0) (evs ++ [e (state_lastEventNonce st')]) ∧
    Forall (λ e, is_deploy e = true) evs ∧ state_lastEventNonce st' < 2 ^ 256.

Lemma executed_log e st0 st1 : (∀ n, event_nonce (e n) = n) → deployed st0 st1 →
  tx_post (log_event e) st1 (λ _ st', executed st0 e st').
Proof.
  intros He (evs & -> & Hn & Hd & _). eapply post_mono; [by apply log_event_post|].
  intros [] st' (-> & Hn' & Hb). exists evs.
  change (state_lastEventNonce (advance (advance st0 evs) [e (state_lastEventNonce (advance st0 evs) + 1)]))
    with (state_lastEventNonce (advance st0 evs) + 1) in *.
  split_and!; [by rewrite advance_advance|by apply numbered_app|done|done].
Qed.

(** The current set is the stored one, and enough of it signed the hash. *)
Definition quorum (st : Gravity) (current : ValsetArgs) (v r s : list Z) (hash : bytes) : Prop :=
  makeCheckpoint current (state_gravityId st) = state_lastValsetCheckpoint st ∧
  well_formed_valset current v r s = true ∧
  ∃ p, cumulative_power 0 (validators current) (powers current) v r s hash (state_powerThreshold st) 0 = Ok p ∧
    state_powerThreshold st < p.

Lemma updateValset_post sender new current v r s st :
  tx_post (updateValset sender new current v r s) st (λ _ st',
    valsetNonce current < valsetNonce new ∧
    quorum st current v r s (makeCheckpoint new (state_gravityId st)) ∧
    executed (with_valset (makeCheckpoint new (state_gravityId st)) (valsetNonce new) st)
      (λ n, ValsetUpdatedEvent (valsetNonce new) n (rewardAmount new) (rewardToken new) (validators new)
              (powers new)) st').
Proof.
  unfold updateValset. apply post_require_bind. intros Hnonce%Z.ltb_lt.
  do 2 (apply post_require_bind; intros ?). apply post_get_bind, post_require_bind.
  intros Hcp%bool_decide_eq_true. apply check_signatures_bind. intros p Hp Ht. apply post_modify_bind.
  set (st0 := with_valset _ _ st). eapply post_run with (Q0 := λ _ st1, deployed st0 st1).
  { destruct (_ && _); [apply transfer_post|apply post_ret, deployed_refl]. }
  intros [] st1 H1. eapply post_mono; [eapply executed_log; [|exact H1]; done|]. intros [] st' H'.
  split_and!; [done| |exact H']. split_and!; [done|done|by exists p].
Qed.

Lemma submitBatch_post sender block current v r s amounts destinations fees nonce token timeout st :
  tx_post (submitBatch sender block current v r s amounts destinations fees nonce token timeout) st (λ _ st',
    lastBatchNonce st token < nonce ∧ block < timeout ∧
    quorum st current v r s (batch_checkpoint (state_gravityId st) amounts destinations fees nonce token timeout) ∧
    executed (with_lastBatchNonce token nonce st) (λ n, TransactionBatchExecutedEvent nonce token n) st').
Proof.
  unfold submitBatch. apply post_get_bind. apply post_require_bind. intros Hnonce%Z.ltb_lt.
  apply post_require_bind. intros Hblock%Z.ltb_lt. apply post_require_bind. intros Hwf.
  apply post_require_bind. intros Hcp%bool_decide_eq_true. apply post_require_bind. intros _.
  apply check_signatures_bind. intros p Hp Ht. apply post_modify_bind.
  eapply post_run; [apply pay_batch_post|]. intros total st1 H1.
  eapply post_run; [apply transfer_post|]. intros [] st2 H2.
  eapply post_mono; [eapply executed_log; [|exact (deployed_trans _ _ _ H1 H2)]; done|]. intros [] st' H'.
  split_and!; [done|done| |exact H']. split_and!; [done|done|by exists p].
Qed.

Lemma submitLogicCall_post sender block current v r s args st :
  tx_post (submitLogicCall sender block current v r s args) st (λ _ st',
    lastLogicCallNonce st (invalidationId args) < invalidationNonce args ∧ block < timeOut args ∧
    quorum st current v r s (logic_call_checkpoint (state_gravityId st) args) ∧
    ∃ data, executed (with_invalidation (invalidationId args) (invalidationNonce args) st)
      (λ n, LogicCallEvent (invalidationId args) (invalidationNonce args) data n) st').
Proof.
  unfold submitLogicCall. apply post_require_bind. intros Hblock%Z.ltb_lt. apply post_get_bind.
  apply post_require_bind. intros Hnonce%Z.ltb_lt. apply post_require_bind. intros Hwf.
  apply post_require_bind. intros Hcp%bool_decide_eq_true. do 2 (apply post_require_bind; intros _).
  apply check_signatures_bind. intros p Hp Ht. apply post_modify_bind.
  eapply post_run; [apply for_all_transfers; intros [token amount] s0; apply transfer_post|].
  intros [] st1 H1. eapply post_run; [apply external_call_post|]. intros data st2 H2.
  eapply post_run; [apply for_all_transfers; intros [token amount] s0; apply transfer_post|]. intros [] st3 H3.
  eapply post_mono;
    [eapply executed_log; [|exact (deployed_trans _ _ _ H1 (deployed_trans _ _ _ H2 H3))]; done|].
  intros [] st' H'. split_and!; [done|done| |exists data; exact H']. split_and!; [done|done|by exists p].
Qed.

Lemma sendToCosmos_post sender token destination amount st :
  tx_post (sendToCosmos sender token destination amount) st (λ _ st',
    executed st (λ n, SendToCosmosEvent token sender destination amount n) st').
Proof.
  unfold sendToCosmos. eapply post_run; [apply transfer_from_post|]. intros [] st1 H1. apply post_get_bind.
  eapply post_run with (Q0 := λ _ st2, deployed st1 st2).
  { destruct (bool_decide _); [apply burn_post|apply post_ret, deployed_refl]. }
  intros [] st2 H2.
  eapply executed_log; [done|exact (deployed_trans _ _ _ H1 H2)].
Qed.

Lemma deployERC20_executed d st :
  tx_post (deployERC20 d) st (λ _ st', executed st (λ n, ERC20DeployedEvent (dep_cosmosDenom d)
    (dep_address d) (dep_name d) (dep_symbol d) (dep_decimals d) n) st').
Proof. apply executed_log; [done|apply deployed_refl]. Qed.
End Transactions.

(** ** Well-formed contracts *)

Section WellFormed.
Context `{V : Evm}.

(** The nonces executed so far, of a token's batches, an invalidation id's calls, and the sets. *)
Definition batch_nonces (token : EthAddress) (evs : list GravityEvent) : list Z :=
  omap (λ e, match e with
             | TransactionBatchExecutedEvent n t _ => if bool_decide (t = token) then Some n else None
             | _ => None
             end) evs.
Definition call_nonces (id : Z) (evs : list GravityEvent) : list Z :=
  omap (λ e, match e with LogicCallEvent i n _ _ => if i =? id then Some n else None | _ => None end) evs.
Definition valsets (evs : list GravityEvent) : list ValsetArgs :=
  omap (λ e, match e with
             | ValsetUpdatedEvent n _ amount token vals pows => Some (mkValsetArgs vals pows n amount token)
             | _ => None
             end) evs.

(** Two sets of different nonces that hash to one checkpoint. *)
Definition checkpoint_collision (id : Z) : Prop :=
  ∃ a b, valsetNonce a ≠ valsetNonce b ∧ makeCheckpoint a id = makeCheckpoint b id.

(** Nonces that increased from zero to the stored one. *)
Definition spent_nonces (nonces : list Z) (stored : Z) : Prop :=
  StronglySorted Z.lt (0 :: nonces) ∧ last (0 :: nonces) = Some stored.

Record well_formed (st : Gravity) : Prop := mkWellFormed {
  wf_numbered : event_nonce <$> emitted st = seqZ 1 (state_lastEventNonce st);
  wf_bound : 1 ≤ state_lastEventNonce st < 2 ^ 256;
  wf_batches : ∀ token, spent_nonces (batch_nonces token (emitted st)) (lastBatchNonce st token);
  wf_calls : ∀ id, spent_nonces (call_nonces id (emitted st)) (lastLogicCallNonce st id);
  wf_valset : ∃ vs, last (valsets (emitted st)) = Some vs ∧
    state_lastValsetCheckpoint st = makeCheckpoint vs (state_gravityId st) ∧
    state_lastValsetNonce st = valsetNonce vs;
  wf_valsets : StronglySorted Z.lt (valsetNonce <$> valsets (emitted st)) ∨
    checkpoint_collision (state_gravityId st);
}.

Lemma sorted_snoc l x : StronglySorted Z.lt l → Forall (λ y, y < x) l → StronglySorted Z.lt (l ++ [x]).
Proof.
  induction 1 as [|y l Hs IH Hy]; intros Hx; [by repeat constructor|].
  apply Forall_cons in Hx as [Hyx Hx]. constructor; [by apply IH|]. apply Forall_app. split; [done|]. by apply Forall_singleton.
Qed.
Lemma sorted_last l m : StronglySorted Z.lt l → last l = Some m → Forall (λ y, y ≤ m) l.
Proof.
  induction 1 as [|y l Hs IH Hy]; intros Hm; [constructor|].
  destruct l as [|z l]; [injection Hm as ->; repeat constructor; lia|]. rewrite last_cons_cons in Hm.
  constructor; [|by apply IH]. apply Forall_cons in Hy as [Hyz _]. specialize (IH Hm).
  apply Forall_cons in IH as [Hzm _]. lia.
Qed.
Lemma sorted_snoc_last l m x : StronglySorted Z.lt l → last l = Some m → m < x → StronglySorted Z.lt (l ++ [x]).
Proof.
  intros Hs Hm Hx. apply sorted_snoc; [done|]. eapply Forall_impl; [by apply (sorted_last l m)|]. simpl. lia.
Qed.
Lemma spent_snoc_nonce nonces stored n : spent_nonces nonces stored → stored < n → spent_nonces (nonces ++ [n]) n.
Proof.
  intros [Hs Hl] Hn. split; [exact (sorted_snoc_last (0 :: nonces) stored n Hs Hl Hn)|].
  change (0 :: nonces ++ [n]) with ((0 :: nonces) ++ [n]). by rewrite last_snoc.
Qed.

(** What an execution adds to any selection of events that leaves deployments out. *)
Lemma executed_select {B} (f : GravityEvent → option B) st0 e st' :
  (∀ e, is_deploy e = true → f e = None) → executed st0 e st' →
  omap f (emitted st') = omap f (emitted st0) ++ option_list (f (e (state_lastEventNonce st'))).
Proof.
  intros Hf (evs & Hst & _ & Hd & _). revert Hst. generalize (state_lastEventNonce st'). intros n ->.
  cbn [advance emitted]. rewrite !omap_app. assert (omap f evs = []) as ->.
  { induction Hd as [|x evs Hx _ IH]; [done|]. cbn [omap list_omap]. rewrite (Hf x Hx). exact IH. }
  by rewrite app_nil_l.
Qed.

Lemma executed_numbered st0 e st' :
  executed st0 e st' → event_nonce <$> emitted st0 = seqZ 1 (state_lastEventNonce st0) →
  0 ≤ state_lastEventNonce st0 →
  event_nonce <$> emitted st' = seqZ 1 (state_lastEventNonce st') ∧
  state_lastEventNonce st0 < state_lastEventNonce st' < 2 ^ 256.
Proof.
  intros (evs & Hst & Hn & _ & Hb) H0 Hpos. remember (state_lastEventNonce st') as n eqn:En.
  assert (n = state_lastEventNonce st0 + (Z.of_nat (length evs) + 1)) as Hlen.
  { rewrite En, Hst. simpl. rewrite length_app. simpl. lia. }
  split; [|lia]. rewrite Hst. cbn [advance emitted]. rewrite fmap_app, H0, Hn, length_app. simpl length.
  rewrite Hlen, (seqZ_app _ (state_lastEventNonce st0)) by lia. f_equal. f_equal; lia.
Qed.

(** The storage an execution leaves is the one it started its actions with. *)
Lemma executed_storage st0 e st' : executed st0 e st' →
  state_lastValsetCheckpoint st' = state_lastValsetCheckpoint st0 ∧
  state_lastBatchNonces st' = state_lastBatchNonces st0 ∧
  state_invalidationMapping st' = state_invalidationMapping st0 ∧
  state_lastValsetNonce st' = state_lastValsetNonce st0 ∧
  state_gravityId st' = state_gravityId st0 ∧ state_powerThreshold st' = state_powerThreshold st0.
Proof. intros (evs & -> & _). done. Qed.

(** An execution that leaves the mappings and the set alone and whose event is none of theirs. *)
Lemma well_formed_executed st0 e st' :
  executed st0 e st' → event_nonce <$> emitted st0 = seqZ 1 (state_lastEventNonce st0) →
  1 ≤ state_lastEventNonce st0 →
  let e := e (state_lastEventNonce st') in
  (∀ token, spent_nonces (batch_nonces token (emitted st0 ++ [e])) (lastBatchNonce st0 token)) →
  (∀ id, spent_nonces (call_nonces id (emitted st0 ++ [e])) (lastLogicCallNonce st0 id)) →
  (∃ vs, last (valsets (emitted st0 ++ [e])) = Some vs ∧
    state_lastValsetCheckpoint st0 = makeCheckpoint vs (state_gravityId st0) ∧
    state_lastValsetNonce st0 = valsetNonce vs) →
  (StronglySorted Z.lt (valsetNonce <$> valsets (emitted st0 ++ [e])) ∨
    checkpoint_collision (state_gravityId st0)) →
  well_formed st'.
Proof.
  intros Hex Hn Hpos e' Hb Hc Hv Hvs. destruct (executed_numbered _ _ _ Hex Hn ltac:(lia)) as [Hn' Hb'].
  destruct (executed_storage _ _ _ Hex) as (E1 & E2 & E3 & E4 & E5 & E6).
  assert (∀ B (f : GravityEvent → option B), (∀ e, is_deploy e = true → f e = None) →
    omap f (emitted st') = omap f (emitted st0 ++ [e'])) as Hsel.
  { intros B f Hf. rewrite (executed_select f _ _ _ Hf Hex), omap_app. simpl.
    fold e'. by destruct (f e'). }
  split; [done|lia|..].
  - intros token. unfold batch_nonces, lastBatchNonce in *. rewrite Hsel, E2 by (intros []; by cbn). apply Hb.
  - intros id. unfold call_nonces, lastLogicCallNonce in *. rewrite Hsel, E3 by (intros []; by cbn). apply Hc.
  - unfold valsets in *. rewrite Hsel, E1, E4, E5 by (intros []; by cbn). exact Hv.
  - unfold valsets in *. rewrite Hsel, E5 by (intros []; by cbn). exact Hvs.
Qed.

(** ** Every reachable contract is well-formed *)

Lemma select_snoc {B} (f : GravityEvent → option B) l e : omap f (l ++ [e]) = omap f l ++ option_list (f e).
Proof. rewrite omap_app. simpl. by destruct (f e). Qed.

(** An event that is none of the three kinds leaves their selections alone. *)
Lemma well_formed_other st e st' :
  well_formed st → executed st e st' →
  (∀ n, match e n with SendToCosmosEvent _ _ _ _ _ | ERC20DeployedEvent _ _ _ _ _ _ => True | _ => False end) →
  well_formed st'.
Proof.
  intros [H1 H2 H3 H4 H5 H6] Hex He. specialize (He (state_lastEventNonce st')).
  eapply (well_formed_executed st e); [done|done|lia|..]; unfold batch_nonces, call_nonces, valsets in *;
    setoid_rewrite select_snoc; destruct (e (state_lastEventNonce st')); try done; simpl;
    try setoid_rewrite app_nil_r; done.
Qed.

Lemma valset_step_well_formed new current v r s st st' :
  well_formed st → valsetNonce current < valsetNonce new →
  quorum st current v r s (makeCheckpoint new (state_gravityId st)) →
  executed (with_valset (makeCheckpoint new (state_gravityId st)) (valsetNonce new) st)
    (λ n, ValsetUpdatedEvent (valsetNonce new) n (rewardAmount new) (rewardToken new) (validators new)
            (powers new)) st' → well_formed st'.
Proof.
  intros [H1 H2 H3 H4 (vs & Hvs & Hcp & Hvn) H6] Hn (Hcur & _ & _) Hex.
  eapply well_formed_executed; [exact Hex|done|simpl; lia|..]; unfold batch_nonces, call_nonces, valsets in *;
    cbn [with_valset emitted state_lastValsetCheckpoint state_lastValsetNonce state_gravityId].
  - intros token. rewrite select_snoc. simpl. rewrite app_nil_r. apply H3.
  - intros id. rewrite select_snoc. simpl. rewrite app_nil_r. apply H4.
  - exists new. rewrite select_snoc. simpl. rewrite last_snoc. destruct new. done.
  - rewrite select_snoc, fmap_app. simpl. destruct H6 as [H6|H6]; [|by right].
    destruct (decide (valsetNonce current = valsetNonce vs)) as [E|E].
    + left. eapply sorted_snoc_last; [done|by rewrite fmap_last, Hvs|lia].
    + right. exists current, vs. split; [done|]. by rewrite Hcur, Hcp.
Qed.

Lemma batch_step_well_formed nonce token st st' :
  well_formed st → lastBatchNonce st token < nonce →
  executed (with_lastBatchNonce token nonce st) (λ n, TransactionBatchExecutedEvent nonce token n) st' →
  well_formed st'.
Proof.
  intros [H1 H2 H3 H4 H5 H6] Hn Hex.
  eapply well_formed_executed; [exact Hex|done|simpl; lia|..]; unfold batch_nonces, call_nonces, valsets in *;
    cbn [with_lastBatchNonce emitted state_lastValsetCheckpoint state_lastValsetNonce state_gravityId].
  - intros token'. rewrite select_snoc. unfold lastBatchNonce. cbn [with_lastBatchNonce state_lastBatchNonces].
    case_bool_decide as E; simpl.
    + subst token'. rewrite lookup_insert_eq. simpl. by eapply spent_snoc_nonce.
    + rewrite lookup_insert_ne, app_nil_r by done. apply H3.
  - intros id. rewrite select_snoc. simpl. rewrite app_nil_r. apply H4.
  - rewrite select_snoc. simpl. rewrite app_nil_r. exact H5.
  - rewrite select_snoc. simpl. rewrite app_nil_r. exact H6.
Qed.

Lemma call_step_well_formed id nonce data st st' :
  well_formed st → lastLogicCallNonce st id < nonce →
  executed (with_invalidation id nonce st) (λ n, LogicCallEvent id nonce data n) st' → well_formed st'.
Proof.
  intros [H1 H2 H3 H4 H5 H6] Hn Hex.
  eapply well_formed_executed; [exact Hex|done|simpl; lia|..]; unfold batch_nonces, call_nonces, valsets in *;
    cbn [with_invalidation emitted state_lastValsetCheckpoint state_lastValsetNonce state_gravityId].
  - intros token. rewrite select_snoc. simpl. rewrite app_nil_r. apply H3.
  - intros id'. rewrite select_snoc. unfold lastLogicCallNonce. cbn [with_invalidation state_invalidationMapping].
    destruct (Z.eqb_spec id id') as [<-|E]; simpl.
    + rewrite lookup_insert_eq. simpl. by eapply spent_snoc_nonce.
    + rewrite lookup_insert_ne, app_nil_r by done. apply H4.
  - rewrite select_snoc. simpl. rewrite app_nil_r. exact H5.
  - rewrite select_snoc. simpl. rewrite app_nil_r. exact H6.
Qed.

Lemma constructor_well_formed id threshold vals pows wNom st :
  constructor id threshold vals pows wNom = Ok st → well_formed st.
Proof.
  unfold constructor. destruct (negb _); [done|]. destruct (_ <? _); [|done]. intros [= <-].
  split; simpl; [done|lia|..].
  - intros token. split; [by repeat constructor|]. unfold lastBatchNonce. simpl. by rewrite lookup_empty.
  - intros i. split; [by repeat constructor|]. unfold lastLogicCallNonce. simpl. by rewrite lookup_empty.
  - by eexists.
  - left. by repeat constructor.
Qed.

Lemma step_well_formed st st' : well_formed st → contract_step st st' → well_formed st'.
Proof.
  intros Hwf [sender block c replies rest H]. destruct c as [new current v r s|current v r s amounts destinations
    fees nonce token timeout|current v r s args|token destination amount|d]; simpl in H.
  - apply updateValset_post in H as (Hn & Hq & Hex). by eapply valset_step_well_formed.
  - apply submitBatch_post in H as (Hn & _ & _ & Hex). by eapply batch_step_well_formed.
  - apply submitLogicCall_post in H as (Hn & _ & _ & data & Hex). by eapply call_step_well_formed.
  - apply sendToCosmos_post in H. by eapply well_formed_other.
  - apply deployERC20_executed in H. by eapply well_formed_other.
Qed.

Lemma reachable_well_formed st : reachable st → well_formed st.
Proof.
  induction 1 as [id threshold vals pows wNom st H|st st' _ IH H].
  - by eapply constructor_well_formed.
  - by eapply step_well_formed.
Qed.

(** C13: whatever is called, by whom and in what order, and whatever the contracts called in turn do:
    the events of the bridge contract are numbered 1, 2, 3, .. in the order they were emitted, up to
    the stored nonce; the batches executed for a token, and the calls for an invalidation id, have
    strictly increasing nonces, so that none is executed twice; the stored checkpoint is the one of
    the set of the last ValsetUpdatedEvent; and the nonces of the sets strictly increase, unless two
    sets of different nonces share a checkpoint. *)
Theorem contract_invariant st : reachable st → well_formed st.
Proof. apply reachable_well_formed. Qed.
End WellFormed.
