(* ===== verification/Types.v ===== *)
(** * Shared data: errors, tokens, configuration

    gravity_utils/src/error.rs, types.rs and types/config.rs. *)

From S2P Require Import Prelude Bytes Proto External.

(** ** Errors *)

(** error.rs. A message built with [format!] is represented by its template: no code reads it. *)
Inductive GravityError `{Ext} :=
  | ValidationError (msg : string)
  | UnrecoverableError (msg : string)
  | RpcError (source : BoxedError).

Section ErrorConversions.
Context `{X : Ext}.

Definition of_grpc_error (e : CosmosGrpcError) : GravityError := RpcError (BoxGrpc e).
Definition of_clarity_error (e : ClarityError) : GravityError :=
  ValidationError (clarity_error_string e).
Definition of_web3_error (e : Web3Error) : GravityError := RpcError (BoxWeb3 e).
Definition of_status (e : Status) : GravityError := RpcError (BoxStatus e).
Definition of_cosmos_address_error (e : CosmosAddressError) : GravityError :=
  ValidationError (cosmos_address_error_string e).
Definition of_parse_big_int_error (e : ParseBigIntError) : GravityError :=
  ValidationError (parse_big_int_error_string e).
End ErrorConversions.

(** ** types.rs: ERC20 amounts *)

Record Erc20Token `{Ext} := mkErc20Token {
  erc20_amount : Uint256;
  erc20_token_contract_address : EthAddress;
}.
Arguments mkErc20Token {_}.

Section Erc20.
Context `{X : Ext}.

Definition erc20_try_from (input : PErc20Token) : result Erc20Token GravityError :=
  match u256_parse (perc20_amount input) with
  | Err e => Err (of_parse_big_int_error e)
  | Ok amount =>
      match address_parse (perc20_contract input) with
      | Err e => Err (of_clarity_error e)
      | Ok a => Ok {| erc20_amount := amount; erc20_token_contract_address := a |}
      end
  end.

Definition erc20_into (t : Erc20Token) : PErc20Token :=
  {| perc20_amount := u256_to_string (erc20_amount t);
     perc20_contract := address_to_string (erc20_token_contract_address t) |}.

(** Amounts as the chain holds them. *)
Definition erc20_wf (t : Erc20Token) : Prop := 0 ≤ erc20_amount t ≤ U256_MAX.

Lemma erc20_roundtrip `{XL : !ExtLaws X} t : erc20_wf t → erc20_try_from (erc20_into t) = Ok t.
Proof.
  unfold erc20_wf, erc20_try_from, erc20_into. intros H. simpl.
  rewrite law_u256_to_string by lia. rewrite law_u256_parse by done. rewrite law_address_parse.
  by destruct t.
Qed.
End Erc20.

(** ** types/config.rs *)

Record RelayerConfig := mkRelayerConfig {
  valset_market_enabled : bool;
  batch_market_enabled : bool;
  logic_call_market_enabled : bool;
}.

Definition default_valset_market_enabled : bool := false.
Definition default_batch_market_enabled : bool := false.
Definition default_logic_call_market_enabled : bool := false.

Definition relayer_config_default : RelayerConfig := {|
  valset_market_enabled := default_valset_market_enabled;
  batch_market_enabled := default_batch_market_enabled;
  logic_call_market_enabled := default_logic_call_market_enabled;
|}.

Definition default_relayer_enabled : bool := true.

Record OrchestratorConfig := mkOrchestratorConfig { relayer_enabled : bool }.
Definition orchestrator_config_default : OrchestratorConfig :=
  {| relayer_enabled := default_relayer_enabled |}.

Record GravityBridgeToolsConfig := mkGravityBridgeToolsConfig {
  config_relayer : RelayerConfig;
  config_orchestrator : OrchestratorConfig;
}.
Definition tools_config_default : GravityBridgeToolsConfig :=
  {| config_relayer := relayer_config_default; config_orchestrator := orchestrator_config_default |}.
