(* ===== verification/Signatures.v ===== *)
(** * Signatures: gravity_utils/src/types/signatures.rs and the [Confirm] trait

    A signature paired with the validator it belongs to, its ordering, and the parallel arrays the
    Gravity contract takes. *)

From S2P Require Import Prelude Bytes Proto External Types.

Record GravitySignature `{Ext} := mkGravitySignature {
  gsig_power : Z;
  gsig_eth_address : EthAddress;
  gsig_v : Uint256;
  gsig_r : Uint256;
  gsig_s : Uint256;
}.
Arguments mkGravitySignature {_}.

Record GravitySignatureArrays `{Ext} := mkGravitySignatureArrays {
  arr_addresses : list EthAddress;
  arr_powers : list Z;
  arr_v : Token;
  arr_r : Token;
  arr_s : Token;
}.
Arguments mkGravitySignatureArrays {_}.

(** The [Confirm] trait of valsets.rs: what the three kinds of confirmation share. *)
Class Confirm `{Ext} (T : Type) := {
  get_eth_address : T → EthAddress;
  get_signature : T → EthSignature;
}.

Section Signatures.
Context `{X : Ext}.

(** [impl Ord for GravitySignature]: power first, then the address, reversed. *)
Definition gravity_signature_cmp (a b : GravitySignature) : comparison :=
  if negb (gsig_power a =? gsig_power b) then (gsig_power a ?= gsig_power b)
  else CompOpp (address_cmp (gsig_eth_address a) (gsig_eth_address b)).

(** The loop of [to_arrays]: the five vectors it pushes to. *)
Fixpoint to_arrays_loop (input : list GravitySignature)
    (acc : list EthAddress * list Z * list Uint256 * list Uint256 * list Uint256) :=
  match input with
  | [] => acc
  | val :: input =>
      let '(addresses, powers, v, r, s) := acc in
      to_arrays_loop input
        (addresses ++ [gsig_eth_address val], powers ++ [gsig_power val],
         v ++ [gsig_v val], r ++ [gsig_r val], s ++ [gsig_s val])
  end.

Definition to_arrays (input : list GravitySignature) : GravitySignatureArrays :=
  let '(addresses, powers, v, r, s) := to_arrays_loop input ([], [], [], [], []) in
  {| arr_addresses := addresses;
     arr_powers := powers;
     arr_v := token_of_u256s v;
     arr_r := token_of_u256s r;
     arr_s := token_of_u256s s |}.

Lemma to_arrays_loop_spec input a p v r s :
  to_arrays_loop input (a, p, v, r, s) =
  (a ++ (gsig_eth_address <$> input), p ++ (gsig_power <$> input),
   v ++ (gsig_v <$> input), r ++ (gsig_r <$> input), s ++ (gsig_s <$> input)).
Proof.
  revert a p v r s. induction input as [|x input IH]; intros; simpl.
  - by rewrite !app_nil_r.
  - rewrite IH. by rewrite <- !app_assoc.
Qed.

Lemma to_arrays_eq input :
  to_arrays input =
  {| arr_addresses := gsig_eth_address <$> input;
     arr_powers := gsig_power <$> input;
     arr_v := token_of_u256s (gsig_v <$> input);
     arr_r := token_of_u256s (gsig_r <$> input);
     arr_s := token_of_u256s (gsig_s <$> input) |}.
Proof. unfold to_arrays. by rewrite to_arrays_loop_spec. Qed.
End Signatures.
