(* ===== verification/Valset.v ===== *)
(** * Validator sets: gravity_utils/src/types/valsets.rs

    The set's data, the ordering of its members, the matching of confirmations with members and
    the power threshold ([order_sigs]), the power difference of two sets, and the conversions from
    and to the protobuf messages. *)

From S2P Require Import Prelude Bytes Proto External Float Types Signatures.

Record ValsetMember `{Ext} := mkValsetMember {
  member_power : Z;
  member_eth_address : option EthAddress;
}.
Arguments mkValsetMember {_}.

Record Valset `{Ext} := mkValset {
  valset_nonce : Z;
  valset_members : list ValsetMember;
  valset_reward_amount : Uint256;
  valset_reward_token : option EthAddress;
}.
Arguments mkValset {_}.

Record ValsetConfirmResponse `{Ext} := mkValsetConfirmResponse {
  vcr_orchestrator : CosmosAddress;
  vcr_eth_address : EthAddress;
  vcr_nonce : Z;
  vcr_eth_signature : EthSignature;
}.
Arguments mkValsetConfirmResponse {_}.

#[export] Instance valset_confirm_Confirm `{Ext} : Confirm ValsetConfirmResponse := {|
  get_eth_address := vcr_eth_address;
  get_signature := vcr_eth_signature;
|}.

Record SignatureStatus `{Ext} := mkSignatureStatus {
  ordered_signatures : list GravitySignature;
  power_of_good_sigs : Z;
  power_of_unset_keys : Z;
  number_of_unset_key_validators : Z;
  power_of_nonvoters : Z;
  number_of_nonvoters : Z;
  num_validators : Z;
}.
Arguments mkSignatureStatus {_}.

Definition TOTAL_GRAVITY_POWER : Z := U32_MAX.

Definition gravity_power_to_percent (input : Z) : f32 :=
  f32_mul (f32_div (f32_of_u64 input) (f32_of_u64 TOTAL_GRAVITY_POWER)) (f32_of_u64 100).

(** [#[derive(Default)]] *)
Definition valset_default `{Ext} : Valset := mkValset 0 [] 0 None.

#[export] Instance ValsetMember_eq_dec `{Ext} : EqDecision ValsetMember.
Proof. solve_decision. Defined.
#[export] Instance Valset_eq_dec `{Ext} : EqDecision Valset.
Proof. solve_decision. Defined.

Section Valset.
Context `{X : Ext} `{BD : Build}.

(** ** The order of members *)

(** [Option<Address>]'s derived order: [None] first. *)
Definition option_address_cmp (a b : option EthAddress) : comparison :=
  match a, b with
  | None, None => Eq
  | None, Some _ => Lt
  | Some _, None => Gt
  | Some a, Some b => address_cmp a b
  end.

(** [impl Ord for ValsetMember] *)
Definition valset_member_cmp (a b : ValsetMember) : comparison :=
  if negb (member_power a =? member_power b) then (member_power a ?= member_power b)
  else CompOpp (option_address_cmp (member_eth_address a) (member_eth_address b)).

Definition valset_member_le (a b : ValsetMember) : Prop := valset_member_cmp a b ≠ Gt.
#[export] Instance valset_member_le_dec a b : Decision (valset_member_le a b).
Proof. unfold valset_member_le. apply _. Defined.

(** [sort(); reverse()] *)
Definition sort_reverse (members : list ValsetMember) : list ValsetMember :=
  reverse (merge_sort valset_member_le members).

(** ** Lookups *)

(** [get_hashmap]: a confirmation per address, the last one given. *)
Definition get_hashmap {T} `{!Confirm T} (input : list T) : gmap EthAddress T :=
  foldl (λ out i, <[get_eth_address i := i]> out) ∅ input.

Definition filter_empty_addresses (self : Valset) : list EthAddress * list Z :=
  foldl (λ '(addresses, powers) val,
    match member_eth_address val with
    | Some a => (addresses ++ [a], powers ++ [member_power val])
    | None => (addresses ++ [address_default], powers ++ [member_power val])
    end) ([], []) (valset_members self).

Fixpoint get_power_loop (members : list ValsetMember) (address : EthAddress) :
    result Z CosmosGrpcError :=
  match members with
  | [] => Err (BadInput "All Eth Addresses must be set")
  | val :: members =>
      if decide (member_eth_address val = Some address) then Ok (member_power val)
      else get_power_loop members address
  end.
Definition get_power (self : Valset) (address : EthAddress) : result Z CosmosGrpcError :=
  get_power_loop (valset_members self) address.

(** ** Ordering signatures *)

(** One turn of the loop of [get_signature_status]. The signature counts of the source are
    [usize]s incremented once per member. *)
Definition signature_status_step {T} `{!Confirm T} (signed_message : bytes)
    (signatures_hashmap : gmap EthAddress T) (member : ValsetMember) (st : SignatureStatus) :
    eval SignatureStatus :=
  match member_eth_address member with
  | Some eth_address =>
      match signatures_hashmap !! eth_address with
      | Some sig =>
          let! _ := rassert (bool_decide (get_eth_address sig = eth_address)) "assertion failed" in
          let! _ := rassert (signature_is_valid (get_signature sig)) "assertion failed" in
          let! recover_key := unwrap (signature_recover (get_signature sig) signed_message) in
          if decide (recover_key = get_eth_address sig) then
            let! good := u64_add (power_of_good_sigs st) (member_power member) in
            Done {|
              ordered_signatures := ordered_signatures st ++
                [{| gsig_power := member_power member;
                    gsig_eth_address := get_eth_address sig;
                    gsig_v := sig_v (get_signature sig);
                    gsig_r := sig_r (get_signature sig);
                    gsig_s := sig_s (get_signature sig) |}];
              power_of_good_sigs := good;
              power_of_unset_keys := power_of_unset_keys st;
              number_of_unset_key_validators := number_of_unset_key_validators st;
              power_of_nonvoters := power_of_nonvoters st;
              number_of_nonvoters := number_of_nonvoters st;
              num_validators := num_validators st |}
          else Panic "Found invalid signature for {} how did this get here?"
      | None =>
          let! nonvoters := u64_add (power_of_nonvoters st) (member_power member) in
          let! number := u64_add (number_of_nonvoters st) 1 in
          Done {|
            ordered_signatures := ordered_signatures st ++
              [{| gsig_power := member_power member; gsig_eth_address := eth_address;
                  gsig_v := 0; gsig_r := 0; gsig_s := 0 |}];
            power_of_good_sigs := power_of_good_sigs st;
            power_of_unset_keys := power_of_unset_keys st;
            number_of_unset_key_validators := number_of_unset_key_validators st;
            power_of_nonvoters := nonvoters;
            number_of_nonvoters := number;
            num_validators := num_validators st |}
      end
  | None =>
      let! unset := u64_add (power_of_unset_keys st) (member_power member) in
      let! number := u64_add (number_of_unset_key_validators st) 1 in
      Done {|
        ordered_signatures := ordered_signatures st ++
          [{| gsig_power := member_power member; gsig_eth_address := address_default;
              gsig_v := 0; gsig_r := 0; gsig_s := 0 |}];
        power_of_good_sigs := power_of_good_sigs st;
        power_of_unset_keys := unset;
        number_of_unset_key_validators := number;
        power_of_nonvoters := power_of_nonvoters st;
        number_of_nonvoters := number_of_nonvoters st;
        num_validators := num_validators st |}
  end.

Fixpoint signature_status_loop {T} `{!Confirm T} (signed_message : bytes)
    (signatures_hashmap : gmap EthAddress T) (members : list ValsetMember)
    (st : SignatureStatus) : eval SignatureStatus :=
  match members with
  | [] => Done st
  | member :: members =>
      let! st := signature_status_step signed_message signatures_hashmap member st in
      signature_status_loop signed_message signatures_hashmap members st
  end.

Definition get_signature_status {T} `{!Confirm T} (self : Valset) (signed_message : bytes)
    (signatures : list T) : eval (result SignatureStatus GravityError) :=
  match signatures with
  | [] => Done (Err (ValidationError "No signatures!"))
  | _ =>
      let signatures_hashmap := get_hashmap signatures in
      let num_validators := Z.of_nat (length (valset_members self)) in
      let! status := signature_status_loop signed_message signatures_hashmap
        (valset_members self) (mkSignatureStatus [] 0 0 0 0 0 num_validators) in
      Done (Ok status)
  end.

Definition order_sigs {T} `{!Confirm T} (self : Valset) (signed_message : bytes)
    (signatures : list T) : eval (result (list GravitySignature) GravityError) :=
  let? status := get_signature_status self signed_message signatures in
  if f32_lt (gravity_power_to_percent (power_of_good_sigs status)) (f32_of_u64 66) then
    Done (Err (ValidationError "has {}/{} or {:.2}% power voting! Can not execute on Ethereum!"))
  else Done (Ok (ordered_signatures status)).

(** ** Power difference *)

Definition to_hashmap (self : Valset) : gmap EthAddress Z :=
  foldl (λ res item,
    match member_eth_address item with
    | Some address => <[address := member_power item]> res
    | None => res
    end) ∅ (valset_members self).

Definition to_hashset (self : Valset) : gset EthAddress :=
  foldl (λ res item,
    match member_eth_address item with
    | Some address => {[address]} ∪ res
    | None => res
    end) ∅ (valset_members self).

(** [HashSet::intersection], [difference] and [symmetric_difference], in the order the standard
    library yields them: the intersection walks the smaller set, the symmetric difference the
    first set, then the second. *)
Definition set_iter (a : gset EthAddress) : list EthAddress := hash_order (elements a).
Definition set_difference (a b : gset EthAddress) : list EthAddress :=
  filter (λ x, x ∉ b) (set_iter a).
Definition set_symmetric_difference (a b : gset EthAddress) : list EthAddress :=
  set_difference a b ++ set_difference b a.
Definition set_intersection (a b : gset EthAddress) : list EthAddress :=
  if (size a <=? size b)%nat then filter (λ x, x ∈ b) (set_iter a)
  else filter (λ x, x ∈ a) (set_iter b).

(** The power the first loop adds for an item of the symmetric difference. *)
Definition difference_power (a b : gmap EthAddress Z) (item : EthAddress) : eval Z :=
  unwrap_option (match a !! item with
                 | Some val => Some val
                 | None => match b !! item with Some val => Some val | None => None end
                 end).
(** The power the second loop adds for an item of the intersection; indexing panics on a missing
    key. *)
Definition intersection_power (a b : gmap EthAddress Z) (item : EthAddress) : eval Z :=
  let! power_a := unwrap_option (a !! item) in
  let! power_b := unwrap_option (b !! item) in
  if power_b <? power_a then u64_sub power_a power_b else u64_sub power_b power_a.

Fixpoint add_powers (power : EthAddress → eval Z) (items : list EthAddress) (total : Z) : eval Z :=
  match items with
  | [] => Done total
  | item :: items =>
      let! p := power item in
      let! total := u64_add total p in
      add_powers power items total
  end.

Definition power_diff (self other : Valset) : eval f32 :=
  let a := to_hashmap self in
  let b := to_hashmap other in
  let a_map := to_hashset self in
  let b_map := to_hashset other in
  let! total := add_powers (difference_power a b) (set_symmetric_difference a_map b_map) 0 in
  let! total := add_powers (intersection_power a b) (set_intersection a_map b_map) total in
  Done (f32_div (f32_of_u64 total) (f32_of_u64 U32_MAX)).

(** ** Conversions *)

Definition member_from_proto (input : PBridgeValidator) : ValsetMember :=
  let eth_address :=
    match address_parse (pbv_ethereum_address input) with Ok e => Some e | Err _ => None end in
  {| member_power := pbv_power input; member_eth_address := eth_address |}.

Definition member_to_proto (input : ValsetMember) : PBridgeValidator :=
  let ethereum_address :=
    match member_eth_address input with
    | Some e => address_to_string e
    | None => ""%string
    end in
  {| pbv_power := member_power input; pbv_ethereum_address := ethereum_address |}.

Definition valset_from_proto (input : PValset) : eval Valset :=
  let! parsed_reward_token := unwrap (address_parse (pvalset_reward_token input)) in
  let reward_token :=
    if decide (parsed_reward_token = ZERO_ADDRESS) then None else Some parsed_reward_token in
  let! reward_amount := unwrap (u256_parse (pvalset_reward_amount input)) in
  Done {| valset_nonce := pvalset_nonce input;
          valset_members := member_from_proto <$> pvalset_members input;
          valset_reward_amount := reward_amount;
          valset_reward_token := reward_token |}.

Definition valset_to_proto (self : Valset) : PValset :=
  {| pvalset_nonce := valset_nonce self;
     pvalset_height := 0;
     pvalset_members := member_to_proto <$> valset_members self;
     pvalset_reward_amount := u256_to_string (valset_reward_amount self);
     pvalset_reward_token :=
       address_to_string (default ZERO_ADDRESS (valset_reward_token self)) |}.

Definition valset_confirm_try_from (input : PMsgValsetConfirm) :
    result ValsetConfirmResponse GravityError :=
  match cosmos_address_parse (pvc_orchestrator input) with
  | Err e => Err (of_cosmos_address_error e)
  | Ok orchestrator =>
      match address_parse (pvc_eth_address input) with
      | Err e => Err (of_clarity_error e)
      | Ok eth_address =>
          match signature_parse (pvc_signature input) with
          | Err e => Err (of_clarity_error e)
          | Ok eth_signature =>
              Ok {| vcr_orchestrator := orchestrator;
                    vcr_eth_address := eth_address;
                    vcr_nonce := pvc_nonce input;
                    vcr_eth_signature := eth_signature |}
          end
      end
  end.

(** [impl Display for ValsetMember] and [display_vec]. *)
Definition member_fmt (m : ValsetMember) : string :=
  (match member_eth_address m with
   | Some a => "Address: " +:+ address_to_string a +:+ " Power: " +:+ dec_string (member_power m)
   | None => "Address: None Power: " +:+ dec_string (member_power m)
   end)%string.
Definition display_vec (input : list ValsetMember) : string :=
  foldl (λ out val, out +:+ member_fmt val) ""%string input.
End Valset.

(** ** The order of members is total *)

Section MemberOrder.
Context `{XL : ExtLaws}.

Lemma address_cmp_refl a : address_cmp a a = Eq.
Proof. by apply law_address_cmp_eq. Qed.

Lemma option_address_cmp_eq a b : option_address_cmp a b = Eq ↔ a = b.
Proof. destruct a, b; simpl; rewrite ?law_address_cmp_eq; naive_solver. Qed.

Lemma option_address_cmp_antisym a b : option_address_cmp a b = CompOpp (option_address_cmp b a).
Proof. destruct a, b; simpl; auto using law_address_cmp_antisym. Qed.

Lemma option_address_cmp_trans a b c :
  option_address_cmp a b = Lt → option_address_cmp b c = Lt → option_address_cmp a c = Lt.
Proof. destruct a, b, c; simpl; try done. apply law_address_cmp_trans. Qed.

Lemma valset_member_cmp_eq a b : valset_member_cmp a b = Eq ↔ a = b.
Proof.
  destruct a as [p a], b as [q b]. unfold valset_member_cmp. simpl.
  destruct (Z.eqb_spec p q) as [->|]; simpl.
  - pose proof (option_address_cmp_eq a b). destruct (option_address_cmp a b); naive_solver.
  - rewrite Z.compare_eq_iff. naive_solver.
Qed.

Lemma valset_member_cmp_antisym a b : valset_member_cmp a b = CompOpp (valset_member_cmp b a).
Proof.
  unfold valset_member_cmp. rewrite (Z.eqb_sym (member_power a)).
  destruct (_ =? _); simpl.
  - by rewrite (option_address_cmp_antisym (member_eth_address a)).
  - apply Z.compare_antisym.
Qed.

Lemma valset_member_cmp_trans a b c :
  valset_member_cmp a b = Lt → valset_member_cmp b c = Lt → valset_member_cmp a c = Lt.
Proof.
  unfold valset_member_cmp.
  destruct (Z.eqb_spec (member_power a) (member_power b)) as [E1|N1];
    destruct (Z.eqb_spec (member_power b) (member_power c)) as [E2|N2]; simpl.
  - rewrite (proj2 (Z.eqb_eq _ _)) by congruence. simpl.
    rewrite <- !option_address_cmp_antisym. eauto using option_address_cmp_trans.
  - rewrite E1, (proj2 (Z.eqb_neq _ _)) by done. done.
  - rewrite <- E2, (proj2 (Z.eqb_neq _ _)) by done. done.
  - rewrite !Z.compare_lt_iff. intros. rewrite (proj2 (Z.eqb_neq _ _)) by lia. simpl.
    apply Z.compare_lt_iff. lia.
Qed.

#[export] Instance valset_member_le_total : Total valset_member_le.
Proof.
  intros a b. unfold valset_member_le. rewrite (valset_member_cmp_antisym b a).
  destruct (valset_member_cmp a b); naive_solver.
Qed.

#[export] Instance valset_member_le_order : PartialOrder valset_member_le.
Proof.
  split; [split|].
  - intros a. unfold valset_member_le. by rewrite (proj2 (valset_member_cmp_eq a a)).
  - intros a b c. unfold valset_member_le. intros H1 H2.
    destruct (valset_member_cmp a b) eqn:E1; [|clear H1|done].
    + by apply valset_member_cmp_eq in E1 as ->.
    + destruct (valset_member_cmp b c) eqn:E2; [|clear H2|done].
      * apply valset_member_cmp_eq in E2 as ->. by rewrite E1.
      * by rewrite (valset_member_cmp_trans a b c).
  - intros a b. unfold valset_member_le. rewrite (valset_member_cmp_antisym b a).
    intros H1 H2. apply valset_member_cmp_eq. by destruct (valset_member_cmp a b).
Qed.

(** The order in which the Cosmos module lists the members: powers descend, and members of equal
    power have ascending addresses, the ones without an address first. *)
Definition cosmos_order (a b : ValsetMember) : Prop :=
  member_power b < member_power a ∨
  (member_power a = member_power b ∧
   option_address_cmp (member_eth_address a) (member_eth_address b) ≠ Gt).

Lemma cosmos_order_le a b : cosmos_order a b ↔ valset_member_le b a.
Proof.
  unfold cosmos_order, valset_member_le, valset_member_cmp.
  destruct (Z.eqb_spec (member_power b) (member_power a)) as [->|]; simpl.
  - rewrite (option_address_cmp_antisym (member_eth_address b)), CompOpp_involutive.
    destruct (option_address_cmp _ _); naive_solver lia.
  - destruct (Z.compare_spec (member_power b) (member_power a)); naive_solver lia.
Qed.

(** [sort(); reverse()] gives the one arrangement of the members in that order. *)
Lemma sort_reverse_spec l l' :
  sort_reverse l = l' ↔ StronglySorted cosmos_order l' ∧ l' ≡ₚ l.
Proof.
  assert (∀ l, StronglySorted cosmos_order (sort_reverse l)) as Hs.
  { intros k. unfold sort_reverse.
    pose proof (StronglySorted_merge_sort valset_member_le k) as H.
    induction H as [|x k' H IH Hx]; [constructor|].
    rewrite reverse_cons. apply StronglySorted_app_2; [| done | repeat constructor].
    intros a b Ha Hb. apply list_elem_of_singleton in Hb as ->. rewrite elem_of_reverse in Ha.
    apply cosmos_order_le. rewrite Forall_forall in Hx. by apply Hx. }
  assert (∀ l, sort_reverse l ≡ₚ l) as Hp.
  { intros. unfold sort_reverse. by rewrite reverse_Permutation, merge_sort_Permutation. }
  split; [by intros <-|]. intros [H1 H2].
  assert (AntiSymm (=) cosmos_order).
  { intros a b. rewrite !cosmos_order_le. intros. by apply (anti_symm valset_member_le). }
  apply (StronglySorted_unique cosmos_order); [apply Hs | done |]. by rewrite Hp, H2.
Qed.
End MemberOrder.
