(* ===== verification/ValsetTheory.v ===== *)
(** * Validator sets: what the operations of Valset.v guarantee

    The matching of confirmations with members against a reference definition, the exact power
    threshold, the power difference against its mathematical definition, the order of members and
    the protobuf round trip. *)

From S2P Require Import Prelude Bytes Proto External Float Instances Types Signatures Valset.

(** ** Confirmations and members *)

Section OrderSigs.
Context `{X : Ext} `{BD : Build} {T : Type} `{!Confirm T}.

(** The confirmation that counts for an address: the last one given. *)
Definition last_confirm (signatures : list T) (a : EthAddress) : option T :=
  last (filter (λ c, get_eth_address c = a) signatures).

Lemma get_hashmap_lookup (signatures : list T) a :
  get_hashmap signatures !! a = last_confirm signatures a.
Proof.
  unfold get_hashmap, last_confirm.
  induction signatures as [|c l IH] using rev_ind; [done|].
  rewrite foldl_app, filter_app, last_app, filter_cons, filter_nil. simpl.
  case_decide as E.
  - rewrite <- E. simpl. by rewrite lookup_insert_eq.
  - simpl. by rewrite lookup_insert_ne, IH.
Qed.

Lemma last_confirm_address signatures a c : last_confirm signatures a = Some c → get_eth_address c = a.
Proof.
  unfold last_confirm. intros H%last_Some_elem_of. by apply list_elem_of_filter in H as [H _].
Qed.

(** What [order_sigs] must put at a member's place. *)
Definition ordered_signature (signatures : list T) (m : ValsetMember) : GravitySignature :=
  let blank a := {| gsig_power := member_power m; gsig_eth_address := a;
                    gsig_v := 0; gsig_r := 0; gsig_s := 0 |} in
  match member_eth_address m with
  | None => blank address_default
  | Some a =>
      match last_confirm signatures a with
      | None => blank a
      | Some c => {| gsig_power := member_power m; gsig_eth_address := a;
                     gsig_v := sig_v (get_signature c);
                     gsig_r := sig_r (get_signature c);
                     gsig_s := sig_s (get_signature c) |}
      end
  end.

Definition voted (signatures : list T) (m : ValsetMember) : bool :=
  match member_eth_address m with
  | Some a => bool_decide (is_Some (last_confirm signatures a))
  | None => false
  end.
Definition unset (m : ValsetMember) : bool := negb (bool_decide (is_Some (member_eth_address m))).

Definition power_where (p : ValsetMember → bool) (ms : list ValsetMember) : Z :=
  zsum ((λ m, if p m then member_power m else 0) <$> ms).
Definition count_where (p : ValsetMember → bool) (ms : list ValsetMember) : Z :=
  zsum ((λ m, if p m then 1 else 0) <$> ms).

(** The confirmation that counts for the member, if any, is a valid signature of the message by
    the member's key. *)
Definition confirm_valid (signed_message : bytes) (signatures : list T) (m : ValsetMember) : Prop :=
  ∀ a c, member_eth_address m = Some a → last_confirm signatures a = Some c →
    signature_is_valid (get_signature c) = true ∧
    signature_recover (get_signature c) signed_message = Ok a.

Definition powers_ok (ms : list ValsetMember) : Prop :=
  Forall (λ m, 0 ≤ member_power m) ms ∧ zsum (member_power <$> ms) ≤ U64_MAX ∧
  Z.of_nat (length ms) ≤ U64_MAX.

Definition status_spec (signatures : list T) (ms : list ValsetMember) : SignatureStatus :=
  {| ordered_signatures := ordered_signature signatures <$> ms;
     power_of_good_sigs := power_where (voted signatures) ms;
     power_of_unset_keys := power_where unset ms;
     number_of_unset_key_validators := count_where unset ms;
     power_of_nonvoters := power_where (λ m, negb (unset m) && negb (voted signatures m)) ms;
     number_of_nonvoters := count_where (λ m, negb (unset m) && negb (voted signatures m)) ms;
     num_validators := Z.of_nat (length ms) |}.

Lemma power_where_snoc p ms m :
  power_where p (ms ++ [m]) = power_where p ms + (if p m then member_power m else 0).
Proof. unfold power_where. rewrite fmap_app, zsum_app. simpl. lia. Qed.
Lemma count_where_snoc p ms m :
  count_where p (ms ++ [m]) = count_where p ms + (if p m then 1 else 0).
Proof. unfold count_where. rewrite fmap_app, zsum_app. simpl. lia. Qed.

Lemma power_where_bound p ms : powers_ok ms → 0 ≤ power_where p ms ≤ U64_MAX.
Proof.
  intros (Hp & Hs & _). rewrite Forall_forall in Hp. split.
  - apply zsum_nonneg, Forall_fmap, Forall_forall. intros m Hm. simpl.
    specialize (Hp m Hm). destruct (p m); lia.
  - etrans; [|exact Hs]. apply zsum_fmap_le. intros m Hm. specialize (Hp m Hm).
    destruct (p m); lia.
Qed.
Lemma count_where_bound p ms : powers_ok ms → 0 ≤ count_where p ms ≤ U64_MAX.
Proof.
  intros (_ & _ & Hs). unfold count_where. assert (∀ l : list ValsetMember,
    0 ≤ zsum ((λ m, if p m then 1 else 0) <$> l) ≤ Z.of_nat (length l)) as H; [|specialize (H ms); lia].
  induction l as [|m l IH]; [done|]. rewrite fmap_cons. cbn [zsum length]. destruct (p m); lia.
Qed.

(** The loop invariant: the status of the members seen so far. *)
Definition status_inv (signatures : list T) (ms : list ValsetMember) (n : Z) : SignatureStatus :=
  let s := status_spec signatures ms in
  mkSignatureStatus (ordered_signatures s) (power_of_good_sigs s) (power_of_unset_keys s)
    (number_of_unset_key_validators s) (power_of_nonvoters s) (number_of_nonvoters s) n.

Lemma powers_ok_app ms1 ms2 : powers_ok (ms1 ++ ms2) → powers_ok ms1.
Proof.
  unfold powers_ok. rewrite Forall_app, fmap_app, zsum_app, length_app.
  intros ([H1 H2] & H3 & H4). split; [done|].
  assert (0 ≤ zsum (member_power <$> ms2)) by (by apply zsum_nonneg, Forall_fmap).
  lia.
Qed.

Lemma u64_add_power p ms m :
  powers_ok (ms ++ [m]) → p m = true →
  u64_add (power_where p ms) (member_power m) = Done (power_where p ms + member_power m).
Proof.
  intros Hok Hp. pose proof (power_where_bound p _ Hok) as H.
  rewrite power_where_snoc, Hp in H. by apply u64_wrap_ok.
Qed.
Lemma u64_add_count p ms m :
  powers_ok (ms ++ [m]) → p m = true →
  u64_add (count_where p ms) 1 = Done (count_where p ms + 1).
Proof.
  intros Hok Hp. pose proof (count_where_bound p _ Hok) as H.
  rewrite count_where_snoc, Hp in H. by apply u64_wrap_ok.
Qed.

Lemma status_step_spec msg signatures ms m n :
  powers_ok (ms ++ [m]) → confirm_valid msg signatures m →
  signature_status_step msg (get_hashmap signatures) m (status_inv signatures ms n) =
  Done (status_inv signatures (ms ++ [m]) n).
Proof.
  intros Hok Hv. unfold signature_status_step, status_inv, status_spec; simpl.
  rewrite fmap_app, !power_where_snoc, !count_where_snoc. simpl.
  pose proof (u64_add_power unset ms m Hok) as Au.
  pose proof (u64_add_count unset ms m Hok) as Cu.
  pose proof (u64_add_power (voted signatures) ms m Hok) as Av.
  pose proof (u64_add_power (λ m, negb (unset m) && negb (voted signatures m)) ms m Hok) as An.
  pose proof (u64_add_count (λ m, negb (unset m) && negb (voted signatures m)) ms m Hok) as Cn.
  destruct m as [p [a|]]; unfold confirm_valid in Hv; cbn in *.
  - rewrite get_hashmap_lookup. specialize (Hv a).
    destruct (last_confirm signatures a) as [c|] eqn:E; cbn in *.
    + destruct (Hv c eq_refl eq_refl) as [-> ->].
      pose proof (last_confirm_address _ _ _ E) as ->. rewrite bool_decide_true by done. cbn.
      rewrite decide_True, Av by done. cbn. by rewrite !Z.add_0_r.
    + rewrite An, Cn by done. cbn. by rewrite !Z.add_0_r.
  - rewrite Au, Cu by done. cbn. by rewrite !Z.add_0_r.
Qed.

Lemma status_loop_spec msg signatures ms1 ms2 n :
  powers_ok (ms1 ++ ms2) → Forall (confirm_valid msg signatures) ms2 →
  signature_status_loop msg (get_hashmap signatures) ms2 (status_inv signatures ms1 n) =
  Done (status_inv signatures (ms1 ++ ms2) n).
Proof.
  intros Hok Hv. revert ms1 Hok. induction Hv as [|m ms2 Hm Hv IH]; intros ms1 Hok; simpl.
  - by rewrite app_nil_r.
  - rewrite status_step_spec; [|apply powers_ok_app with ms2; by rewrite <- app_assoc|done].
    simpl. rewrite IH; by rewrite <- app_assoc.
Qed.

Lemma get_signature_status_spec vs msg signatures :
  signatures ≠ [] → powers_ok (valset_members vs) →
  Forall (confirm_valid msg signatures) (valset_members vs) →
  get_signature_status vs msg signatures = Done (Ok (status_spec signatures (valset_members vs))).
Proof.
  intros Hs Hok Hv. unfold get_signature_status. destruct signatures as [|c l]; [done|].
  pose proof (status_loop_spec msg (c :: l) [] _ (Z.of_nat (length (valset_members vs))) Hok Hv) as H.
  cbv zeta. change (mkSignatureStatus [] 0 0 0 0 0 ?n) with (status_inv (c :: l) [] n).
  by rewrite H.
Qed.

(** A loop that runs to its end met no invalid confirmation. *)
Lemma status_loop_valid msg signatures ms st st' :
  signature_status_loop msg (get_hashmap signatures) ms st = Done st' →
  Forall (confirm_valid msg signatures) ms.
Proof.
  revert st. induction ms as [|m ms IH]; intros st H; [done|]. simpl in H. inv_bind.
  constructor; [|by eapply IH]. intros a c Ha Hc.
  unfold signature_status_step in *. rewrite Ha, get_hashmap_lookup, Hc in *. inv_bind.
  case_decide; [|done]. pose proof (last_confirm_address _ _ _ Hc). split; [done|congruence].
Qed.

(** ... and an invalid one makes it panic. *)
Lemma status_loop_invalid msg signatures ms st :
  ¬ Forall (confirm_valid msg signatures) ms →
  ∃ w, signature_status_loop msg (get_hashmap signatures) ms st = Panic w.
Proof.
  intros H. destruct (signature_status_loop _ _ ms st) as [st'|w] eqn:E; [|eauto].
  by apply status_loop_valid in E.
Qed.
End OrderSigs.

(** ** The power threshold *)

Lemma percent_lt_spec z : is_u64 z →
  f32_lt (gravity_power_to_percent z) (f32_of_u64 66) = (z <? percent_threshold).
Proof. intros H. apply (percent_lt_66 z). exact H. Qed.

(** C35: a measure is refused exactly when the power behind it, out of 2^32 - 1, is below
    2834678144: the [f32] comparison [gravity_power_to_percent(power) < 66f32] is that integer
    comparison on every [u64]. *)
Theorem power_percent_threshold z :
  is_u64 z →
  f32_lt (gravity_power_to_percent z) (f32_of_u64 66) = (z <? 2834678144).
Proof. apply percent_lt_spec. Qed.

Lemma power_percent_threshold_witness :
  f32_lt (gravity_power_to_percent 2834678144) (f32_of_u64 66) = (2834678144 <? 2834678144).
Proof. apply (power_percent_threshold 2834678144). split; vm_compute; discriminate. Defined.

Section OrderSigsTheorems.
Context `{X : Ext} `{BD : Build} {T : Type} `{!Confirm T}.

Lemma order_sigs_eq (vs : Valset) msg (signatures : list T) :
  signatures ≠ [] → powers_ok (valset_members vs) →
  Forall (confirm_valid msg signatures) (valset_members vs) →
  order_sigs vs msg signatures =
  Done (if power_where (voted signatures) (valset_members vs) <? percent_threshold
        then Err (ValidationError "has {}/{} or {:.2}% power voting! Can not execute on Ethereum!")
        else Ok (ordered_signature signatures <$> valset_members vs)).
Proof.
  intros Hs Hok Hv. unfold order_sigs. rewrite get_signature_status_spec by done. simpl.
  rewrite percent_lt_spec by (by apply power_where_bound). by destruct (_ <? _).
Qed.

Lemma order_sigs_valid (vs : Valset) msg (signatures : list T) r :
  signatures ≠ [] → order_sigs vs msg signatures = Done r →
  Forall (confirm_valid msg signatures) (valset_members vs).
Proof.
  intros Hs. unfold order_sigs, get_signature_status. destruct signatures as [|c l]; [done|].
  destruct (signature_status_loop _ _ _ _) as [st|] eqn:E; [|done]. intros _.
  by eapply status_loop_valid.
Qed.

Lemma ordered_signature_power (signatures : list T) m :
  gsig_power (ordered_signature signatures m) = member_power m.
Proof. unfold ordered_signature. by repeat case_match. Qed.

Lemma ordered_signature_address (signatures : list T) m :
  gsig_eth_address (ordered_signature signatures m) = default address_default (member_eth_address m).
Proof. unfold ordered_signature. by repeat case_match. Qed.

(** C5: when [order_sigs] succeeds its result lists the members in the set's own order, each with
    its power and address (the zero address if it has none); a member's signature is either blank
    or the one of its last confirmation, which recovers to its address; and the members that have
    signed hold at least the threshold power. *)
Theorem order_sigs_sound (vs : Valset) msg (signatures : list T) out :
  powers_ok (valset_members vs) →
  order_sigs vs msg signatures = Done (Ok out) →
  Forall2 (λ m g,
    gsig_power g = member_power m ∧
    gsig_eth_address g = default address_default (member_eth_address m) ∧
    match member_eth_address m ≫= last_confirm signatures with
    | Some c =>
        mkSignature (gsig_v g) (gsig_r g) (gsig_s g) =
          mkSignature (sig_v (get_signature c)) (sig_r (get_signature c)) (sig_s (get_signature c)) ∧
        signature_is_valid (get_signature c) = true ∧
        signature_recover (get_signature c) msg = Ok (gsig_eth_address g)
    | None => gsig_v g = 0 ∧ gsig_r g = 0 ∧ gsig_s g = 0
    end) (valset_members vs) out ∧
  percent_threshold ≤ power_where (voted signatures) (valset_members vs).
Proof.
  intros Hok H. assert (signatures ≠ []) as Hs by (by destruct signatures).
  pose proof (order_sigs_valid _ _ _ _ Hs H) as Hv.
  rewrite order_sigs_eq in H by done. destruct (Z.ltb_spec (power_where (voted signatures)
    (valset_members vs)) percent_threshold); [done|]. injection H as <-. split; [|done].
  rewrite Forall2_fmap_r. rewrite Forall_forall in Hv. apply Forall2_same_length_lookup_2; [done|].
  intros i m m' Hm Hm'. simplify_eq. split_and!.
  - apply ordered_signature_power.
  - apply ordered_signature_address.
  - pose proof (Hv m ltac:(by eapply list_elem_of_lookup_2)) as Hc. unfold confirm_valid in Hc.
    unfold ordered_signature. destruct (member_eth_address m) as [a|]; [|done]. simpl.
    destruct (last_confirm signatures a) as [c|] eqn:E; [|done]. simpl. by destruct (Hc a c).
Qed.

Lemma order_sigs_power (vs : Valset) msg (signatures : list T) out :
  powers_ok (valset_members vs) → order_sigs vs msg signatures = Done (Ok out) →
  percent_threshold ≤ power_where (voted signatures) (valset_members vs).
Proof.
  intros Hok H. assert (signatures ≠ []) as Hs by (by destruct signatures).
  rewrite order_sigs_eq in H by (done || by eapply order_sigs_valid).
  by destruct (Z.ltb_spec (power_where (voted signatures) (valset_members vs)) percent_threshold).
Qed.

(** C34: conversely, when some confirmation is given and every one that counts is valid,
    [order_sigs] returns: the list of ordered signatures if the voting power reaches the
    threshold, the validation error otherwise. *)
Theorem order_sigs_complete (vs : Valset) msg (signatures : list T) :
  signatures ≠ [] → powers_ok (valset_members vs) →
  Forall (confirm_valid msg signatures) (valset_members vs) →
  order_sigs vs msg signatures =
  Done (if power_where (voted signatures) (valset_members vs) <? percent_threshold
        then Err (ValidationError "has {}/{} or {:.2}% power voting! Can not execute on Ethereum!")
        else Ok (ordered_signature signatures <$> valset_members vs)).
Proof. apply order_sigs_eq. Qed.

(** One invalid confirmation among those that count makes [order_sigs] panic, whatever the
    others are. *)
Theorem order_sigs_invalid_panics (vs : Valset) msg (signatures : list T) :
  ¬ Forall (confirm_valid msg signatures) (valset_members vs) →
  (∃ c, c ∈ signatures) → ∃ w, order_sigs vs msg signatures = Panic w.
Proof.
  intros Hv [c Hc]. destruct (order_sigs vs msg signatures) as [r|w] eqn:E; [|eauto].
  destruct Hv. eapply order_sigs_valid; [|done]. by intros ->; apply elem_of_nil in Hc.
Qed.

Lemma last_confirm_perm (s1 s2 : list T) a :
  s1 ≡ₚ s2 → NoDup (get_eth_address <$> s1) → last_confirm s1 a = last_confirm s2 a.
Proof.
  intros Hp Hnd. unfold last_confirm.
  assert (filter (λ c, get_eth_address c = a) s1 ≡ₚ filter (λ c, get_eth_address c = a) s2) as Hf
    by (by rewrite Hp).
  assert (length (filter (λ c, get_eth_address c = a) s1) ≤ 1)%nat as Hl.
  { clear Hp Hf. induction s1 as [|c l IH]; [simpl; lia|]. rewrite fmap_cons in Hnd.
    apply NoDup_cons in Hnd as [Hc Hnd]. rewrite filter_cons. case_decide as E; [|by apply IH].
    destruct (filter (λ c, get_eth_address c = a) l) as [|c' k] eqn:Ef; [simpl; lia|].
    assert (c' ∈ filter (λ c, get_eth_address c = a) l) as Hc' by (rewrite Ef; by left).
    apply list_elem_of_filter in Hc' as [Ea Hc']. destruct Hc. rewrite E, <- Ea.
    by apply list_elem_of_fmap_2. }
  revert Hf Hl. generalize (filter (λ c, get_eth_address c = a) s1).
  generalize (filter (λ c, get_eth_address c = a) s2). intros l2 l1 Hf Hl.
  destruct l1 as [|x [|]]; [|..]; simpl in Hl; try lia.
  - by apply Permutation_nil_l in Hf as ->.
  - by apply Permutation_singleton_l in Hf as ->.
Qed.

Lemma ordered_signature_ext (s1 s2 : list T) m :
  (∀ a, last_confirm s1 a = last_confirm s2 a) →
  ordered_signature s1 m = ordered_signature s2 m ∧ voted s1 m = voted s2 m.
Proof. intros H. unfold ordered_signature, voted. destruct (member_eth_address m); by rewrite ?H. Qed.

Lemma get_hashmap_ext (s1 s2 : list T) :
  (∀ a, last_confirm s1 a = last_confirm s2 a) → get_hashmap s1 = get_hashmap s2.
Proof. intros H. apply map_eq. intros a. by rewrite !get_hashmap_lookup. Qed.

(** The order in which the confirmations of distinct validators arrive is irrelevant. *)
Theorem order_sigs_confirm_order (vs : Valset) msg (s1 s2 : list T) :
  s1 ≡ₚ s2 → NoDup (get_eth_address <$> s1) → order_sigs vs msg s1 = order_sigs vs msg s2.
Proof.
  intros Hp Hnd. unfold order_sigs, get_signature_status.
  rewrite (get_hashmap_ext s1 s2) by (intros; by apply last_confirm_perm).
  destruct s1, s2; try done.
  - by apply Permutation_nil_l in Hp.
  - by symmetry in Hp; apply Permutation_nil_l in Hp.
Qed.

(** The status accounts for every member exactly once: the good, unset and missing powers
    add up to the whole set's. *)
Theorem signature_status_accounts (vs : Valset) msg (signatures : list T) st :
  powers_ok (valset_members vs) →
  get_signature_status vs msg signatures = Done (Ok st) →
  power_of_good_sigs st + power_of_unset_keys st + power_of_nonvoters st =
    zsum (member_power <$> valset_members vs) ∧
  length (ordered_signatures st) = length (valset_members vs) ∧
  0 ≤ number_of_unset_key_validators st + number_of_nonvoters st ≤ num_validators st.
Proof.
  intros Hok H. assert (signatures ≠ []) as Hs by (by destruct signatures).
  assert (Forall (confirm_valid msg signatures) (valset_members vs)) as Hv.
  { unfold get_signature_status in H. destruct signatures as [|c l]; [done|].
    destruct (signature_status_loop _ _ _ _) as [st'|] eqn:E; [|done].
    by eapply status_loop_valid. }
  rewrite get_signature_status_spec in H by done. injection H as <-.
  unfold status_spec; simpl. rewrite length_fmap. clear Hok Hv Hs.
  assert (∀ m, voted signatures m = true → unset m = false) as Hu.
  { intros m. unfold voted, unset. by destruct (member_eth_address m). }
  unfold power_where, count_where. induction (valset_members vs) as [|m ms (IH1 & IH2 & IH3)]; [done|].
  rewrite !fmap_cons. cbn [zsum length]. specialize (Hu m).
  destruct (voted signatures m) eqn:Ev; [rewrite Hu by done|destruct (unset m)];
    simpl negb; simpl andb; cbv iota; lia.
Qed.
End OrderSigsTheorems.

(** ** The power difference *)

Section PowerDiff.
Context `{XL : ExtLaws} `{BD : Build}.
Implicit Types a b : gmap EthAddress Z.

(** The mathematical definition: the sum over all addresses of the absolute difference of the
    powers, an address that is not in a set having power 0 there. *)
Definition power_at a (x : EthAddress) : Z := default 0 (a !! x).
Definition abs_difference a b : Z :=
  zsum ((λ x, Z.abs (power_at a x - power_at b x)) <$> elements (dom a ∪ dom b)).

Lemma to_hashset_dom vs : to_hashset vs = dom (to_hashmap vs).
Proof.
  unfold to_hashset, to_hashmap. induction (valset_members vs) as [|m ms IH] using rev_ind.
  - simpl. by rewrite dom_empty_L.
  - rewrite !foldl_app. simpl. destruct (member_eth_address m); [|done].
    by rewrite IH, dom_insert_L.
Qed.

Lemma to_hashmap_powers vs :
  Forall (λ m, is_u64 (member_power m)) (valset_members vs) →
  map_Forall (λ _ p, is_u64 p) (to_hashmap vs).
Proof.
  unfold to_hashmap. induction (valset_members vs) as [|m ms IH] using rev_ind.
  - intros _. apply map_Forall_empty.
  - rewrite Forall_app. intros [H1 H2]. inversion_clear H2. rewrite foldl_app. simpl.
    destruct (member_eth_address m); [|auto]. apply map_Forall_insert_2; auto.
Qed.

Lemma add_powers_sum (power : EthAddress → eval Z) (f : EthAddress → Z) items total :
  (∀ x, x ∈ items → power x = Done (f x)) →
  add_powers power items total = u64_sum total (f <$> items).
Proof.
  revert total. induction items as [|x l IH]; intros total H; [done|].
  rewrite fmap_cons. simpl. rewrite H by left. simpl. destruct (u64_add total (f x)); [|done].
  simpl. apply IH. intros. apply H. by right.
Qed.

Lemma elem_of_set_iter x (s : gset EthAddress) : x ∈ set_iter s ↔ x ∈ s.
Proof. unfold set_iter. by rewrite law_hash_order, elem_of_elements. Qed.
Lemma NoDup_set_iter (s : gset EthAddress) : NoDup (set_iter s).
Proof. unfold set_iter. rewrite law_hash_order. apply NoDup_elements. Qed.

Lemma elem_of_intersection x s1 s2 : x ∈ set_intersection s1 s2 ↔ x ∈ s1 ∧ x ∈ s2.
Proof.
  unfold set_intersection. destruct (_ <=? _)%nat;
    rewrite list_elem_of_filter, elem_of_set_iter; tauto.
Qed.
Lemma elem_of_symmetric_difference x s1 s2 :
  x ∈ set_symmetric_difference s1 s2 ↔ (x ∈ s1 ∧ x ∉ s2) ∨ (x ∈ s2 ∧ x ∉ s1).
Proof.
  unfold set_symmetric_difference, set_difference.
  rewrite elem_of_app, !list_elem_of_filter, !elem_of_set_iter. tauto.
Qed.
Lemma walked_all s1 s2 :
  set_symmetric_difference s1 s2 ++ set_intersection s1 s2 ≡ₚ elements (s1 ∪ s2).
Proof.
  apply NoDup_Permutation.
  - apply NoDup_app. split_and!.
    + unfold set_symmetric_difference, set_difference. apply NoDup_app.
      split_and!; try apply NoDup_filter, NoDup_set_iter.
      intros x. rewrite !list_elem_of_filter, !elem_of_set_iter. tauto.
    + intros x. rewrite elem_of_intersection, elem_of_symmetric_difference. tauto.
    + unfold set_intersection. destruct (_ <=? _)%nat; apply NoDup_filter, NoDup_set_iter.
  - apply NoDup_elements.
  - intros x. rewrite elem_of_app, elem_of_intersection, elem_of_symmetric_difference.
    rewrite elem_of_elements, elem_of_union. destruct (decide (x ∈ s1)), (decide (x ∈ s2)); tauto.
Qed.

Lemma difference_power_abs a b x :
  map_Forall (λ _ p, is_u64 p) a → map_Forall (λ _ p, is_u64 p) b →
  (x ∈ dom a ∧ x ∉ dom b) ∨ (x ∈ dom b ∧ x ∉ dom a) →
  difference_power a b x = Done (Z.abs (power_at a x - power_at b x)).
Proof.
  intros Ha Hb H. unfold difference_power, power_at.
  destruct H as [[[p Hp]%elem_of_dom Hn%not_elem_of_dom]|[[p Hp]%elem_of_dom Hn%not_elem_of_dom]];
    rewrite Hp, Hn; simpl.
  - specialize (Ha x p Hp) as [? _]. by rewrite Z.sub_0_r, Z.abs_eq.
  - specialize (Hb x p Hp) as [? _]. by rewrite Z.sub_0_l, Z.abs_opp, Z.abs_eq.
Qed.
Lemma intersection_power_abs a b x :
  map_Forall (λ _ p, is_u64 p) a → map_Forall (λ _ p, is_u64 p) b →
  x ∈ dom a ∧ x ∈ dom b →
  intersection_power a b x = Done (Z.abs (power_at a x - power_at b x)).
Proof.
  intros Ha Hb [H1 H2]. unfold intersection_power, power_at. apply elem_of_dom in H1 as [p Hp], H2 as [q Hq].
  specialize (Ha x p Hp). specialize (Hb x q Hq). rewrite Hp, Hq. simpl. unfold u64_sub, is_u64 in *.
  destruct (Z.ltb_spec q p); rewrite u64_wrap_ok by (unfold is_u64; lia); f_equal; lia.
Qed.

Lemma power_diff_eq vs1 vs2 :
  Forall (λ m, is_u64 (member_power m)) (valset_members vs1) →
  Forall (λ m, is_u64 (member_power m)) (valset_members vs2) →
  power_diff vs1 vs2 =
  let! total := u64_wrap (abs_difference (to_hashmap vs1) (to_hashmap vs2)) in
  Done (f32_div (f32_of_u64 total) (f32_of_u64 U32_MAX)).
Proof.
  intros H1%to_hashmap_powers H2%to_hashmap_powers. unfold power_diff.
  rewrite !to_hashset_dom.
  set (a := to_hashmap vs1) in *. set (b := to_hashmap vs2) in *.
  set (f := λ x, Z.abs (power_at a x - power_at b x)).
  rewrite (add_powers_sum _ f) by
    (intros x Hx; apply difference_power_abs; [done..|]; by apply elem_of_symmetric_difference).
  assert (∀ t, add_powers (intersection_power a b) (set_intersection (dom a) (dom b)) t =
    u64_sum t (f <$> set_intersection (dom a) (dom b))) as Hi.
  { intros t. apply add_powers_sum. intros x Hx. apply intersection_power_abs; [done..|].
    by apply elem_of_intersection. }
  unfold abs_difference. fold f. rewrite <- walked_all, fmap_app.
  set (l1 := f <$> set_symmetric_difference _ _). set (l2 := f <$> set_intersection _ _) in *.
  assert (∀ l : list EthAddress, Forall (λ x, 0 ≤ x) (f <$> l)) as Hf.
  { intros l. apply Forall_fmap, Forall_forall. intros. apply Z.abs_nonneg. }
  change (zsum (l1 ++ l2)) with (0 + zsum (l1 ++ l2)).
  rewrite <- (u64_sum_wrap 0 (l1 ++ l2)) by
    (try done; unfold l1, l2; rewrite <- fmap_app; apply Hf).
  rewrite u64_sum_app. destruct (u64_sum 0 l1) as [t|] eqn:E; [|done]. simpl. by rewrite Hi.
Qed.

Lemma power_at_nonneg a x : map_Forall (λ _ p, 0 ≤ p) a → 0 ≤ power_at a x.
Proof. intros Ha. unfold power_at. destruct (a !! x) eqn:E; simpl; [by apply (Ha x)|done]. Qed.
Lemma zsum_power_nonneg a (l : list EthAddress) :
  map_Forall (λ _ p, 0 ≤ p) a → 0 ≤ zsum (power_at a <$> l).
Proof. intros. apply zsum_nonneg, Forall_fmap, Forall_forall. intros. by apply power_at_nonneg. Qed.

(** Sums over maps, to relate the totals of two sets with each other. *)
Lemma zsum_power_superset a (s : gset EthAddress) :
  dom a ⊆ s → zsum (power_at a <$> elements s) = zsum (power_at a <$> elements (dom a)).
Proof.
  intros Hs. rewrite (union_difference_L _ _ Hs), elements_disj_union by set_solver.
  rewrite fmap_app, zsum_app.
  enough (zsum (power_at a <$> elements (s ∖ dom a)) = 0) by lia.
  assert (∀ x, x ∈ elements (s ∖ dom a) → power_at a x = 0) as H0.
  { intros x Hx%elem_of_elements. unfold power_at.
    assert (x ∉ dom a) as ->%not_elem_of_dom by set_solver. done. }
  revert H0. induction (elements (s ∖ dom a)) as [|x l IH]; intros H0; [done|].
  rewrite fmap_cons. simpl. rewrite H0, IH by set_solver. done.
Qed.

Lemma zsum_dom_insert a x p : map_Forall (λ _ q, 0 ≤ q) a → 0 ≤ p →
  zsum (power_at (<[x:=p]> a) <$> elements (dom (<[x:=p]> a))) ≤
  p + zsum (power_at a <$> elements (dom a)).
Proof.
  intros Ha Hp. rewrite dom_insert_L.
  rewrite <- (zsum_power_superset a ({[x]} ∪ dom a)) by set_solver.
  rewrite (union_difference_L {[x]} ({[x]} ∪ dom a)) by set_solver.
  rewrite elements_disj_union, !fmap_app, !zsum_app by set_solver.
  rewrite elements_singleton. simpl. unfold power_at at 1. rewrite lookup_insert_eq. simpl.
  pose proof (power_at_nonneg a x Ha).
  enough (zsum (power_at (<[x:=p]> a) <$> elements (({[x]} ∪ dom a) ∖ {[x]})) ≤
    zsum (power_at a <$> elements (({[x]} ∪ dom a) ∖ {[x]}))) by lia.
  apply zsum_fmap_le. intros y Hy%elem_of_elements. unfold power_at.
  rewrite lookup_insert_ne by set_solver. lia.
Qed.

Lemma to_hashmap_total vs : Forall (λ m, 0 ≤ member_power m) (valset_members vs) →
  0 ≤ zsum (power_at (to_hashmap vs) <$> elements (dom (to_hashmap vs))) ≤
  zsum (member_power <$> valset_members vs) ∧ map_Forall (λ _ p, 0 ≤ p) (to_hashmap vs).
Proof.
  unfold to_hashmap. induction (valset_members vs) as [|m ms IH] using rev_ind.
  - intros _. simpl. rewrite dom_empty_L, elements_empty. simpl. split; [done|]. apply map_Forall_empty.
  - rewrite Forall_app, fmap_app, zsum_app, foldl_app. intros [H1 H2]. inversion_clear H2.
    simpl. destruct (IH H1) as [Hb Ha]. destruct (member_eth_address m) as [x|].
    + assert (map_Forall (λ _ p, 0 ≤ p) (<[x:=member_power m]> (foldl (λ res item,
        match member_eth_address item with
        | Some address => <[address := member_power item]> res
        | None => res end) ∅ ms))) as Ha' by (by apply map_Forall_insert_2).
      split; [|done]. pose proof (zsum_dom_insert _ x (member_power m) Ha ltac:(done)).
      split; [by apply zsum_power_nonneg | lia].
    + split; [lia|done].
Qed.

Lemma abs_difference_bound vs1 vs2 :
  Forall (λ m, 0 ≤ member_power m) (valset_members vs1) →
  Forall (λ m, 0 ≤ member_power m) (valset_members vs2) →
  0 ≤ abs_difference (to_hashmap vs1) (to_hashmap vs2) ≤
  zsum (member_power <$> valset_members vs1) + zsum (member_power <$> valset_members vs2).
Proof.
  intros [H1 Ha]%to_hashmap_total [H2 Hb]%to_hashmap_total. unfold abs_difference. split.
  - apply zsum_nonneg, Forall_fmap, Forall_forall. intros. apply Z.abs_nonneg.
  - rewrite <- (zsum_power_superset _ (dom (to_hashmap vs1) ∪ dom (to_hashmap vs2))) in H1 by set_solver.
    rewrite <- (zsum_power_superset _ (dom (to_hashmap vs1) ∪ dom (to_hashmap vs2))) in H2 by set_solver.
    etrans; [|apply Z.add_le_mono; [apply H1|apply H2]]. rewrite <- zsum_fmap_add.
    apply zsum_fmap_le. intros x _.
    pose proof (power_at_nonneg _ x Ha). pose proof (power_at_nonneg _ x Hb). lia.
Qed.

Lemma abs_difference_comm a b : abs_difference a b = abs_difference b a.
Proof.
  unfold abs_difference. rewrite (union_comm_L (dom a)). f_equal. apply list_fmap_ext.
  intros _ x _. lia.
Qed.

Lemma abs_difference_zero a b :
  map_Forall (λ _ p, 0 < p) a → map_Forall (λ _ p, 0 < p) b →
  abs_difference a b = 0 ↔ a = b.
Proof.
  intros Ha Hb. split.
  - intros H. apply map_eq. intros x. unfold abs_difference in H.
    assert (∀ x, x ∈ dom a ∪ dom b → power_at a x = power_at b x) as He.
    { intros y Hy%elem_of_elements. revert H Hy.
      induction (elements (dom a ∪ dom b)) as [|z l IH]; intros H Hy; [by apply elem_of_nil in Hy|].
      rewrite fmap_cons in H. simpl in H.
      assert (0 ≤ zsum ((λ x, Z.abs (power_at a x - power_at b x)) <$> l)).
      { apply zsum_nonneg, Forall_fmap, Forall_forall. intros. apply Z.abs_nonneg. }
      apply elem_of_cons in Hy as [->|Hy]; [lia|]. apply IH; [lia|done]. }
    specialize (He x). unfold power_at in He. rewrite elem_of_union, !elem_of_dom in He.
    destruct (a !! x) eqn:Ea, (b !! x) eqn:Eb; simpl in He; [..|done].
    + f_equal. apply He. eauto.
    + specialize (Ha x _ Ea). simpl in Ha. rewrite He in Ha by eauto. lia.
    + specialize (Hb x _ Eb). simpl in Hb. rewrite <- He in Hb by eauto. lia.
  - intros ->. unfold abs_difference. rewrite union_idemp_L.
    induction (elements (dom b)) as [|x l IH]; [done|]. rewrite fmap_cons. simpl. lia.
Qed.
End PowerDiff.

Section PowerDiffTheorems.
Context `{XL : ExtLaws} `{BD : Build}.

(** A set as the chain builds it: its powers are normalised to at most [u32::MAX] in all. *)
Definition normalised (vs : Valset) : Prop :=
  Forall (λ m, 0 ≤ member_power m) (valset_members vs) ∧
  zsum (member_power <$> valset_members vs) ≤ U32_MAX.

Lemma member_power_le_total (ms : list ValsetMember) B :
  Forall (λ m, 0 ≤ member_power m) ms → zsum (member_power <$> ms) ≤ B →
  Forall (λ m, 0 ≤ member_power m ≤ B) ms.
Proof.
  intros H. revert B. induction H as [|m ms Hm H IH]; intros B; [constructor|].
  rewrite fmap_cons. simpl. intros HB.
  assert (0 ≤ zsum (member_power <$> ms)) by (by apply zsum_nonneg, Forall_fmap).
  constructor; [lia|]. apply IH. lia.
Qed.

Lemma normalised_u64 vs : normalised vs → Forall (λ m, is_u64 (member_power m)) (valset_members vs).
Proof.
  intros [H1 H2]. eapply Forall_impl; [by apply member_power_le_total|].
  intros m. unfold is_u64, U32_MAX, U64_MAX. lia.
Qed.

Lemma power_diff_normalised vs1 vs2 : normalised vs1 → normalised vs2 →
  0 ≤ abs_difference (to_hashmap vs1) (to_hashmap vs2) ≤ 2 * U32_MAX ∧
  power_diff vs1 vs2 =
    Done (f32_div (f32_of_u64 (abs_difference (to_hashmap vs1) (to_hashmap vs2))) (f32_of_u64 U32_MAX)).
Proof.
  intros H1 H2. rewrite power_diff_eq by (by apply normalised_u64).
  destruct H1 as [P1 S1], H2 as [P2 S2]. pose proof (abs_difference_bound vs1 vs2 P1 P2).
  split; [lia|]. rewrite u64_wrap_ok; [done|]. unfold is_u64, U64_MAX, U32_MAX in *. lia.
Qed.

(** C33: on any two sets of [u64] powers, [power_diff] is the sum over all addresses of the
    absolute difference of their powers, added as [u64]s (so it panics or wraps, by build mode,
    if that sum does not fit), over [u32::MAX] in [f32]: the order in which the hash sets are
    iterated has no influence. *)
Theorem power_diff_spec vs1 vs2 :
  Forall (λ m, is_u64 (member_power m)) (valset_members vs1) →
  Forall (λ m, is_u64 (member_power m)) (valset_members vs2) →
  power_diff vs1 vs2 =
  let! total := u64_wrap (abs_difference (to_hashmap vs1) (to_hashmap vs2)) in
  Done (f32_div (f32_of_u64 total) (f32_of_u64 U32_MAX)).
Proof. apply power_diff_eq. Qed.

(** As its documentation promises, on normalised sets [power_diff] returns a value that is at
    most two. *)
Theorem power_diff_at_most_two vs1 vs2 :
  normalised vs1 → normalised vs2 →
  ∃ d, power_diff vs1 vs2 = Done d ∧ f32_le d (f32_of_u64 2) = true.
Proof.
  intros H1 H2. destruct (power_diff_normalised vs1 vs2 H1 H2) as [Hb ->].
  eexists. split; [done|]. by apply (ratio_le_2 (abs_difference _ _)).
Qed.

(** The power difference of two sets does not depend on which of them is asked. *)
Theorem power_diff_symmetric vs1 vs2 :
  Forall (λ m, is_u64 (member_power m)) (valset_members vs1) →
  Forall (λ m, is_u64 (member_power m)) (valset_members vs2) →
  power_diff vs1 vs2 = power_diff vs2 vs1.
Proof. intros. rewrite !power_diff_eq by done. by rewrite abs_difference_comm. Qed.

(** On normalised sets of positive powers the difference is the [f32] zero exactly when both
    give every address the same power: no difference is rounded away. *)
Theorem power_diff_zero_iff vs1 vs2 :
  normalised vs1 → normalised vs2 →
  Forall (λ m, 0 < member_power m) (valset_members vs1) →
  Forall (λ m, 0 < member_power m) (valset_members vs2) →
  power_diff vs1 vs2 = Done (f32_of_u64 0) ↔ to_hashmap vs1 = to_hashmap vs2.
Proof.
  intros H1 H2 P1 P2. destruct (power_diff_normalised vs1 vs2 H1 H2) as [Hb ->].
  assert (∀ vs, Forall (λ m, 0 < member_power m) (valset_members vs) →
    map_Forall (λ _ p, 0 < p) (to_hashmap vs)) as Hpos.
  { intros vs. unfold to_hashmap. induction (valset_members vs) as [|m ms IH] using rev_ind.
    - intros _. apply map_Forall_empty.
    - rewrite Forall_app, foldl_app. intros [Ha Hm]. inversion_clear Hm. simpl.
      destruct (member_eth_address m); [|auto]. apply map_Forall_insert_2; auto. }
  rewrite <- abs_difference_zero by auto. split.
  - intros [= H]. apply f32_ratio_zero; [|done]. unfold U32_MAX, U64_MAX in *. lia.
  - by intros ->.
Qed.

(** [sort(); reverse()] puts the members in the order of the Cosmos module, powers
    descending and addresses ascending, and that is the only arrangement of them in that order. *)
Theorem sort_reverse_canonical l l' :
  sort_reverse l = l' ↔ StronglySorted cosmos_order l' ∧ l' ≡ₚ l.
Proof. apply sort_reverse_spec. Qed.

Lemma member_roundtrip m : member_from_proto (member_to_proto m) = m.
Proof.
  destruct m as [p [a|]]; unfold member_from_proto, member_to_proto; simpl.
  - by rewrite law_address_parse.
  - pose proof law_address_parse_empty. by destruct (address_parse "").
Qed.

(** A validator set sent as a protobuf message is read back unchanged, members without an
    address and a missing reward token included. *)
Theorem valset_roundtrip vs :
  0 ≤ valset_reward_amount vs ≤ U256_MAX → valset_reward_token vs ≠ Some ZERO_ADDRESS →
  valset_from_proto (valset_to_proto vs) = Done vs.
Proof.
  intros Ha Ht. unfold valset_from_proto, valset_to_proto. simpl.
  rewrite law_address_parse. simpl. rewrite law_u256_to_string, law_u256_parse by lia. simpl.
  assert (member_from_proto <$> (member_to_proto <$> valset_members vs) = valset_members vs) as ->.
  { rewrite <- list_fmap_compose. rewrite <- (list_fmap_id (valset_members vs)) at 2.
    apply list_fmap_ext. intros. apply member_roundtrip. }
  destruct vs as [n ms r [t|]]; simpl in *.
  - rewrite decide_False; [done|congruence].
  - by rewrite decide_True.
Qed.
End PowerDiffTheorems.

(** ** Witnesses *)

Section Witnesses.
#[local] Existing Instance concrete_ext.
#[local] Existing Instance concrete_laws.
#[local] Existing Instance checked_build.

Definition sample_valset : Valset := {|
  valset_nonce := 3;
  valset_members := [ mkValsetMember 2000000000 (Some (addr 1));
                      mkValsetMember 1000000000 (Some (addr 2));
                      mkValsetMember 1000000000 (Some (addr 3));
                      mkValsetMember 294967295 None ];
  valset_reward_amount := 5;
  valset_reward_token := Some (addr 9);
|}.
Definition sample_message : bytes := to_bytes "checkpoint".
Definition sample_confirm (k : Z) : ValsetConfirmResponse := {|
  vcr_orchestrator := addr k;
  vcr_eth_address := eth_key_to_address k;
  vcr_nonce := 3;
  vcr_eth_signature := sign_ethereum_msg k sample_message;
|}.
Definition sample_confirms : list ValsetConfirmResponse := [sample_confirm 2; sample_confirm 1].
Definition forged_confirm : ValsetConfirmResponse := {|
  vcr_orchestrator := addr 1;
  vcr_eth_address := addr 1;
  vcr_nonce := 3;
  vcr_eth_signature := sign_ethereum_msg 77 sample_message;
|}.

Lemma sample_powers : powers_ok (valset_members sample_valset).
Proof. repeat split; try (repeat constructor; done); vm_compute; discriminate. Qed.
Lemma sample_normalised : normalised sample_valset.
Proof. split; [repeat constructor; done | vm_compute; discriminate]. Qed.
Lemma confirm_valid_intro msg l p a o :
  last_confirm l a = o →
  match o with
  | Some c => signature_is_valid (get_signature c) = true ∧
              signature_recover (get_signature c) msg = Ok a
  | None => True
  end →
  confirm_valid (T := ValsetConfirmResponse) msg l (mkValsetMember p (Some a)).
Proof.
  intros Ho H b c [= <-] Hc. rewrite Ho in Hc. by rewrite Hc in H.
Qed.
Lemma sample_valid : Forall (confirm_valid sample_message sample_confirms) (valset_members sample_valset).
Proof.
  apply Forall_cons; split; [by apply confirm_valid_intro with (Some (sample_confirm 1))|].
  apply Forall_cons; split; [by apply confirm_valid_intro with (Some (sample_confirm 2))|].
  apply Forall_cons; split; [by apply confirm_valid_intro with None|].
  apply Forall_cons; split; [|apply Forall_nil; exact I]. intros a c Ha. discriminate Ha.
Qed.

Definition sample_ordered : list GravitySignature :=
  ordered_signature sample_confirms <$> valset_members sample_valset.
Lemma order_sigs_sound_witness : ∃ out,
  order_sigs sample_valset sample_message sample_confirms = Done (Ok out) ∧
  length out = 4%nat ∧
  percent_threshold ≤ power_where (voted sample_confirms) (valset_members sample_valset).
Proof.
  exists sample_ordered. split; [vm_refl|]. split; [vm_refl|].
  refine (proj2 (order_sigs_sound sample_valset sample_message sample_confirms sample_ordered sample_powers _)).
  vm_refl.
Defined.

Lemma order_sigs_complete_witness :
  is_ok match order_sigs sample_valset sample_message sample_confirms with
        | Done r => r | Panic _ => Err (ValidationError "") end = true.
Proof.
  rewrite (order_sigs_complete sample_valset sample_message sample_confirms); 
    [vm_refl | discriminate | apply sample_powers | apply sample_valid].
Defined.

Lemma order_sigs_invalid_panics_witness :
  ∃ w, order_sigs sample_valset sample_message [forged_confirm] = Panic w.
Proof.
  apply order_sigs_invalid_panics.
  - intros H. apply Forall_cons in H as [H _].
    destruct (H (addr 1) forged_confirm eq_refl ltac:(vm_refl)) as [_ E].
    vm_compute in E. discriminate E.
  - exists forged_confirm. left.
Defined.

Lemma order_sigs_confirm_order_witness :
  order_sigs sample_valset sample_message [sample_confirm 1; sample_confirm 2] =
  order_sigs sample_valset sample_message [sample_confirm 2; sample_confirm 1].
Proof.
  apply order_sigs_confirm_order; [apply Permutation_swap|].
  repeat constructor; rewrite ?list_elem_of_singleton; vm_compute; set_solver.
Defined.

Lemma signature_status_accounts_witness : ∃ st,
  get_signature_status sample_valset sample_message sample_confirms = Done (Ok st) ∧
  power_of_good_sigs st + power_of_unset_keys st + power_of_nonvoters st = 4294967295.
Proof.
  exists (status_spec sample_confirms (valset_members sample_valset)). split; [vm_refl|].
  refine (eq_trans (proj1 (signature_status_accounts sample_valset sample_message sample_confirms _
    sample_powers _)) _); vm_refl.
Defined.

Definition other_valset : Valset :=
  {| valset_nonce := 4; valset_members := [mkValsetMember 4294967295 (Some (addr 8))];
     valset_reward_amount := 0; valset_reward_token := None |}.
Lemma other_normalised : normalised other_valset.
Proof. split; [repeat constructor; done | vm_compute; discriminate]. Qed.

Lemma power_diff_spec_witness :
  power_diff sample_valset other_valset =
  Done (f32_div (f32_of_u64 8294967295) (f32_of_u64 U32_MAX)).
Proof.
  rewrite (power_diff_spec sample_valset other_valset); [vm_refl|..];
    repeat constructor; vm_compute; discriminate.
Defined.
Lemma power_diff_at_most_two_witness :
  ∃ d, power_diff sample_valset other_valset = Done d ∧ f32_le d (f32_of_u64 2) = true.
Proof. apply power_diff_at_most_two; [apply sample_normalised | apply other_normalised]. Defined.
Lemma power_diff_symmetric_witness :
  power_diff sample_valset other_valset = power_diff other_valset sample_valset.
Proof. apply power_diff_symmetric; repeat constructor; vm_compute; discriminate. Defined.
Lemma power_diff_zero_iff_witness :
  power_diff sample_valset sample_valset = Done (f32_of_u64 0) ↔
  to_hashmap sample_valset = to_hashmap sample_valset.
Proof.
  apply power_diff_zero_iff; [apply sample_normalised | apply sample_normalised | |];
    repeat constructor; done.
Defined.
Lemma sort_reverse_canonical_witness :
  StronglySorted cosmos_order (valset_members sample_valset).
Proof.
  apply (sort_reverse_canonical (reverse (valset_members sample_valset))). vm_refl.
Defined.
Lemma valset_roundtrip_witness : valset_from_proto (valset_to_proto sample_valset) = Done sample_valset.
Proof.
  apply valset_roundtrip; [split; vm_compute; discriminate|]. intros E. injection E as E.
  vm_compute in E. discriminate E.
Defined.
End Witnesses.
