(* ===== verification/Batches.v ===== *)
(** * Transaction batches: gravity_utils/src/types/batches.rs *)

From S2P Require Import Prelude Bytes Proto External Instances Types Signatures.

Record BatchTransaction `{Ext} := mkBatchTransaction {
  btx_id : Z;
  btx_sender : CosmosAddress;
  btx_destination : EthAddress;
  btx_erc20_token : Erc20Token;
  btx_erc20_fee : Erc20Token;
}.
Arguments mkBatchTransaction {_}.

Record TransactionBatch `{Ext} := mkTransactionBatch {
  batch_nonce : Z;
  batch_timeout : Z;
  batch_transactions : list BatchTransaction;
  batch_total_fee : Erc20Token;
  batch_token_contract : EthAddress;
}.
Arguments mkTransactionBatch {_}.

Record BatchConfirmResponse `{Ext} := mkBatchConfirmResponse {
  bcr_nonce : Z;
  bcr_orchestrator : CosmosAddress;
  bcr_token_contract : EthAddress;
  bcr_ethereum_signer : EthAddress;
  bcr_eth_signature : EthSignature;
}.
Arguments mkBatchConfirmResponse {_}.

#[export] Instance batch_confirm_Confirm `{Ext} : Confirm BatchConfirmResponse := {|
  get_eth_address := bcr_ethereum_signer;
  get_signature := bcr_eth_signature;
|}.

Section Batches.
Context `{X : Ext}.

(** The three vectors [get_checkpoint_values] pushes to. *)
Definition checkpoint_vectors (transactions : list BatchTransaction) :
    list Token * list EthAddress * list Token :=
  foldl (λ '(amounts, destinations, fees) item,
    (amounts ++ [TokenUint (erc20_amount (btx_erc20_token item))],
     destinations ++ [btx_destination item],
     fees ++ [TokenUint (erc20_amount (btx_erc20_fee item))])) ([], [], []) transactions.

Definition get_checkpoint_values (self : TransactionBatch) : eval (Token * Token * Token) :=
  let '(amounts, destinations, fees) := checkpoint_vectors (batch_transactions self) in
  let! _ := rassert (length amounts =? length destinations)%nat "assertion failed" in
  let! _ := rassert (length fees =? length destinations)%nat "assertion failed" in
  Done (TokenDynamic amounts, token_of_addresses destinations, TokenDynamic fees).

Definition batch_transaction_try_from (input : POutgoingTransferTx) :
    eval (result BatchTransaction GravityError) :=
  if bool_decide (ptx_erc20_fee input = None) || bool_decide (ptx_erc20_token input = None) then
    Done (Err (ValidationError "Cannot have tx with null erc20_token!"))
  else
    let? sender := Done (map_err of_cosmos_address_error (cosmos_address_parse (ptx_sender input))) in
    let? destination := Done (map_err of_clarity_error (address_parse (ptx_dest_address input))) in
    let! token := unwrap_option (ptx_erc20_token input) in
    let? erc20_token := Done (erc20_try_from token) in
    let! fee := unwrap_option (ptx_erc20_fee input) in
    let? erc20_fee := Done (erc20_try_from fee) in
    Done (Ok {| btx_id := ptx_id input;
                btx_sender := sender;
                btx_destination := destination;
                btx_erc20_token := erc20_token;
                btx_erc20_fee := erc20_fee |}).

(** The loop of [TransactionBatch::try_from]: the transactions converted so far and the running
    total of their fees. *)
Fixpoint batch_loop (input : list POutgoingTransferTx) (transactions : list BatchTransaction)
    (running_total_fee : option Erc20Token) :
    eval (result (list BatchTransaction * option Erc20Token) GravityError) :=
  match input with
  | [] => Done (Ok (transactions, running_total_fee))
  | tx :: input =>
      let? tx := batch_transaction_try_from tx in
      let! running_total_fee :=
        match running_total_fee with
        | Some total_fee =>
            let! amount := u256_add (erc20_amount total_fee) (erc20_amount (btx_erc20_fee tx)) in
            Done {| erc20_token_contract_address := erc20_token_contract_address total_fee;
                    erc20_amount := amount |}
        | None => Done (btx_erc20_fee tx)
        end in
      batch_loop input (transactions ++ [tx]) (Some running_total_fee)
  end.

Definition batch_try_from (input : POutgoingTxBatch) : eval (result TransactionBatch GravityError) :=
  let? r := batch_loop (pbatch_transactions input) [] None in
  let '(transactions, running_total_fee) := r in
  match running_total_fee with
  | Some total_fee =>
      Done (Ok {| batch_timeout := pbatch_timeout input;
                  batch_nonce := pbatch_nonce input;
                  batch_transactions := transactions;
                  batch_token_contract := erc20_token_contract_address total_fee;
                  batch_total_fee := total_fee |})
  | None => Done (Err (ValidationError "Transaction batch containing no transactions!"))
  end.

Definition batch_confirm_try_from (input : PMsgConfirmBatch) :
    eval (result BatchConfirmResponse GravityError) :=
  let? orchestrator := Done (map_err of_cosmos_address_error (cosmos_address_parse (pcb_orchestrator input))) in
  let? token_contract := Done (map_err of_clarity_error (address_parse (pcb_token_contract input))) in
  let? ethereum_signer := Done (map_err of_clarity_error (address_parse (pcb_eth_signer input))) in
  let? eth_signature := Done (map_err of_clarity_error (signature_parse (pcb_signature input))) in
  Done (Ok {| bcr_nonce := pcb_nonce input;
              bcr_orchestrator := orchestrator;
              bcr_token_contract := token_contract;
              bcr_ethereum_signer := ethereum_signer;
              bcr_eth_signature := eth_signature |}).

Definition batch_transaction_into (self : BatchTransaction) : POutgoingTransferTx :=
  {| ptx_id := btx_id self;
     ptx_sender := cosmos_address_to_string (btx_sender self);
     ptx_dest_address := address_to_string (btx_destination self);
     ptx_erc20_token := Some (erc20_into (btx_erc20_token self));
     ptx_erc20_fee := Some (erc20_into (btx_erc20_fee self)) |}.

Definition batch_into (self : TransactionBatch) : POutgoingTxBatch :=
  {| pbatch_nonce := batch_nonce self;
     pbatch_timeout := batch_timeout self;
     pbatch_transactions := batch_transaction_into <$> batch_transactions self;
     pbatch_token_contract := address_to_string (batch_token_contract self);
     pbatch_block := 0 |}.

(** ** What they guarantee *)

Definition fee_of (tx : BatchTransaction) : Z := erc20_amount (btx_erc20_fee tx).
Definition tx_wf (tx : BatchTransaction) : Prop :=
  erc20_wf (btx_erc20_token tx) ∧ erc20_wf (btx_erc20_fee tx).

(** A batch as the conversion builds it: it has transactions, its total fee is the sum of theirs, in
    the token of the first one, which is also the batch's token contract. *)
Definition batch_wf (b : TransactionBatch) : Prop :=
  ∃ tx txs, batch_transactions b = tx :: txs ∧
    batch_token_contract b = erc20_token_contract_address (btx_erc20_fee tx) ∧
    erc20_token_contract_address (batch_total_fee b) = batch_token_contract b ∧
    erc20_amount (batch_total_fee b) = zsum (fee_of <$> batch_transactions b).

Lemma checkpoint_vectors_eq txs :
  checkpoint_vectors txs =
  ((λ t, TokenUint (erc20_amount (btx_erc20_token t))) <$> txs, btx_destination <$> txs,
   (λ t, TokenUint (fee_of t)) <$> txs).
Proof.
  unfold checkpoint_vectors. induction txs as [|t txs IH] using rev_ind; [done|].
  rewrite foldl_app, IH, !fmap_app. done.
Qed.

Lemma get_checkpoint_values_eq b :
  get_checkpoint_values b =
  Done (TokenDynamic ((λ t, TokenUint (erc20_amount (btx_erc20_token t))) <$> batch_transactions b),
        token_of_addresses (btx_destination <$> batch_transactions b),
        TokenDynamic ((λ t, TokenUint (fee_of t)) <$> batch_transactions b)).
Proof.
  unfold get_checkpoint_values. rewrite checkpoint_vectors_eq, !length_fmap.
  by rewrite Nat.eqb_refl.
Qed.

Section Laws.
Context `{XL : !ExtLaws X}.

Lemma batch_transaction_roundtrip tx :
  tx_wf tx → batch_transaction_try_from (batch_transaction_into tx) = Done (Ok tx).
Proof.
  intros [H1 H2]. unfold batch_transaction_try_from, batch_transaction_into. simpl.
  rewrite law_cosmos_parse, law_address_parse, !erc20_roundtrip by done. by destruct tx.
Qed.

(** The loop's invariant: what a running total [acc] becomes. *)
Lemma batch_loop_into txs txs0 total :
  Forall tx_wf txs → 0 ≤ erc20_amount total →
  erc20_amount total + zsum (fee_of <$> txs) ≤ U256_MAX →
  batch_loop (batch_transaction_into <$> txs) txs0 (Some total) =
  Done (Ok (txs0 ++ txs, Some (mkErc20Token (erc20_amount total + zsum (fee_of <$> txs))
                                 (erc20_token_contract_address total)))).
Proof.
  intros H. revert txs0 total. induction H as [|tx txs Hw H IH]; intros txs0 total H0 Hs; simpl.
  - rewrite app_nil_r, Z.add_0_r. by destruct total.
  - rewrite batch_transaction_roundtrip by done. simpl. rewrite fmap_cons in Hs. simpl in Hs.
    destruct Hw as [_ [Hf _]].
    assert (0 ≤ zsum (fee_of <$> txs)).
    { apply zsum_nonneg, Forall_fmap. eapply Forall_impl; [exact H|]. by intros t [_ [? _]]. }
    unfold fee_of in Hs at 1. rewrite law_u256_add by lia. simpl.
    rewrite IH by (cbn [erc20_amount]; lia). simpl. rewrite <- app_assoc. simpl.
    do 5 f_equal. symmetry. apply Z.add_assoc.
Qed.

Lemma batch_roundtrip_eq b :
  batch_wf b → Forall tx_wf (batch_transactions b) → zsum (fee_of <$> batch_transactions b) ≤ U256_MAX →
  batch_try_from (batch_into b) = Done (Ok b).
Proof.
  intros (tx & txs & Et & Ec & Ef & Ea) Hw Hs. unfold batch_try_from, batch_into. simpl.
  rewrite Et in *. apply Forall_cons in Hw as [Hw1 Hw]. rewrite fmap_cons. simpl.
  rewrite batch_transaction_roundtrip by done. simpl. rewrite fmap_cons in Hs. simpl in Hs.
  rewrite batch_loop_into; [|done|by destruct Hw1 as [_ [? _]]|done]. simpl.
  destruct b as [n t ts [f c] tc]; simpl in *. do 2 f_equal. subst. f_equal.
Qed.

Lemma batch_loop_transactions input txs0 total r :
  batch_loop input txs0 total = Done (Ok r) →
  ∃ txs, r.1 = txs0 ++ txs ∧ Forall2 (λ p t, batch_transaction_try_from p = Done (Ok t)) input txs.
Proof.
  revert txs0 total. induction input as [|p input IH]; intros txs0 total H; simpl in H.
  - injection H as <-. exists []. by rewrite app_nil_r.
  - inv_bind. apply IH in H as (txs & -> & HF).
    eexists (_ :: txs). rewrite <- app_assoc. split; [done|]. by constructor.
Qed.

(** The running total after the transactions [txs]. *)
Definition add_fees (total : option Erc20Token) (txs : list BatchTransaction) : option Erc20Token :=
  match total, txs with
  | Some t, _ => Some (mkErc20Token (erc20_amount t + zsum (fee_of <$> txs)) (erc20_token_contract_address t))
  | None, [] => None
  | None, tx :: _ =>
      Some (mkErc20Token (zsum (fee_of <$> txs)) (erc20_token_contract_address (btx_erc20_fee tx)))
  end.

Lemma batch_loop_total input txs0 total txs total' :
  batch_loop input txs0 total = Done (Ok (txs0 ++ txs, total')) →
  Forall tx_wf txs → 0 ≤ from_option erc20_amount 0 total →
  from_option erc20_amount 0 total + zsum (fee_of <$> txs) ≤ U256_MAX →
  total' = add_fees total txs.
Proof.
  revert txs0 total txs. induction input as [|p input IH]; intros txs0 total txs H Hw H0 Hs; simpl in H.
  - injection H as E <-. rewrite <- (app_nil_r txs0) in E at 1. apply app_inv_head in E as <-.
    destruct total as [[a c]|]; simpl; [by rewrite Z.add_0_r|done].
  - apply try_bind_Ok in H as (tx & _ & H). apply eval_bind_Done in H as (f & Hf & H).
    pose proof (batch_loop_transactions _ _ _ _ H) as (txs' & Hr & _). simpl in Hr.
    rewrite <- app_assoc in Hr. apply app_inv_head in Hr as ->.
    change ([tx] ++ txs') with (tx :: txs') in *.
    apply Forall_cons in Hw as [[_ [Hf0 _]] Hw]. rewrite fmap_cons in Hs. cbn [zsum] in Hs.
    change (erc20_amount (btx_erc20_fee tx)) with (fee_of tx) in *.
    assert (0 ≤ zsum (fee_of <$> txs')).
    { apply zsum_nonneg, Forall_fmap. eapply Forall_impl; [exact Hw|]. by intros t [_ [? _]]. }
    assert (f = match total with
                | Some t => mkErc20Token (erc20_amount t + fee_of tx) (erc20_token_contract_address t)
                | None => btx_erc20_fee tx end) as ->.
    { destruct total as [t|]; [|by injection Hf]. simpl in *.
      rewrite law_u256_add in Hf by lia. by injection Hf. }
    change (tx :: txs') with ([tx] ++ txs') in H. rewrite app_assoc in H.
    apply IH in H; [|done|destruct total; simpl in *; try done; lia|destruct total; simpl in *;
      try change (erc20_amount (btx_erc20_fee tx)) with (fee_of tx); lia].
    rewrite H. destruct total as [t|]; simpl; rewrite ?fmap_cons; simpl; [by rewrite Z.add_assoc|done].
Qed.

(** C39: a batch read from the chain has at least one transaction; every transaction is the
    conversion of the one at its place in the message; the total fee is the sum of the transactions'
    fees, in the token of the first one's, which also becomes the token contract. *)
Theorem batch_try_from_wf p b :
  batch_try_from p = Done (Ok b) →
  Forall tx_wf (batch_transactions b) → zsum (fee_of <$> batch_transactions b) ≤ U256_MAX →
  batch_wf b ∧ batch_nonce b = pbatch_nonce p ∧ batch_timeout b = pbatch_timeout p ∧
  Forall2 (λ q t, batch_transaction_try_from q = Done (Ok t)) (pbatch_transactions p) (batch_transactions b).
Proof.
  unfold batch_try_from. intros H Hw Hs. apply try_bind_Ok in H as ([txs total] & Hl & H).
  pose proof (batch_loop_transactions _ _ _ _ Hl) as (txs' & E & HF). simpl in E. subst txs'.
  destruct total as [total|]; [|done]. injection H as <-. simpl in *.
  apply (batch_loop_total _ [] None) in Hl; [|done|done|simpl; lia]. split_and!; try done.
  destruct txs as [|tx txs]; [done|]. injection Hl as ->. by exists tx, txs.
Qed.

(** C40: a batch of that form survives the round trip through its protobuf message. *)
Theorem batch_roundtrip b :
  batch_wf b → Forall tx_wf (batch_transactions b) → zsum (fee_of <$> batch_transactions b) ≤ U256_MAX →
  batch_try_from (batch_into b) = Done (Ok b).
Proof. apply batch_roundtrip_eq. Qed.
End Laws.
End Batches.

Section Witnesses.
#[local] Existing Instance concrete_ext.
#[local] Existing Instance concrete_laws.

Definition sample_tx (i fee : Z) : BatchTransaction := {|
  btx_id := i; btx_sender := addr 50; btx_destination := addr 60;
  btx_erc20_token := mkErc20Token 1000 (addr 4); btx_erc20_fee := mkErc20Token fee (addr 4) |}.
Definition sample_batch : TransactionBatch := {|
  batch_nonce := 2; batch_timeout := 500; batch_transactions := [sample_tx 1 10; sample_tx 2 32];
  batch_total_fee := mkErc20Token 42 (addr 4); batch_token_contract := addr 4 |}.

Lemma sample_batch_wf : batch_wf sample_batch.
Proof. by exists (sample_tx 1 10), [sample_tx 2 32]. Qed.
Lemma sample_txs_wf : Forall tx_wf (batch_transactions sample_batch).
Proof. repeat constructor; vm_compute; discriminate. Qed.

Lemma batch_roundtrip_witness : batch_try_from (batch_into sample_batch) = Done (Ok sample_batch).
Proof.
  apply batch_roundtrip; [apply sample_batch_wf | apply sample_txs_wf | vm_compute; discriminate].
Defined.
Lemma batch_try_from_wf_witness : batch_wf sample_batch.
Proof.
  refine (proj1 (batch_try_from_wf (batch_into sample_batch) sample_batch _ sample_txs_wf _)).
  - vm_refl.
  - vm_compute. discriminate.
Defined.
End Witnesses.
