(* ===== verification/LogicCall.v ===== *)
(** * Logic calls: gravity_utils/src/types/logic_call.rs *)

From S2P Require Import Prelude Bytes Proto External Instances Types Signatures.

Record LogicCall `{Ext} := mkLogicCall {
  call_transfers : list Erc20Token;
  call_fees : list Erc20Token;
  call_logic_contract_address : EthAddress;
  call_payload : bytes;
  call_timeout : Z;
  call_invalidation_id : bytes;
  call_invalidation_nonce : Z;
}.
Arguments mkLogicCall {_}.

Record LogicCallConfirmResponse `{Ext} := mkLogicCallConfirmResponse {
  lcr_invalidation_id : bytes;
  lcr_invalidation_nonce : Z;
  lcr_ethereum_signer : EthAddress;
  lcr_orchestrator : CosmosAddress;
  lcr_eth_signature : EthSignature;
}.
Arguments mkLogicCallConfirmResponse {_}.

#[export] Instance logic_call_confirm_Confirm `{Ext} : Confirm LogicCallConfirmResponse := {|
  get_eth_address := lcr_ethereum_signer;
  get_signature := lcr_eth_signature;
|}.

Section LogicCalls.
Context `{X : Ext}.

Definition logic_call_confirm_try_from (input : PMsgConfirmLogicCall) :
    eval (result LogicCallConfirmResponse GravityError) :=
  let! invalidation_id := unwrap (hex_str_to_bytes (pclc_invalidation_id input)) in
  let? orchestrator := Done (map_err of_cosmos_address_error (cosmos_address_parse (pclc_orchestrator input))) in
  let? ethereum_signer := Done (map_err of_clarity_error (address_parse (pclc_eth_signer input))) in
  let? eth_signature := Done (map_err of_clarity_error (signature_parse (pclc_signature input))) in
  Done (Ok {| lcr_invalidation_id := invalidation_id;
              lcr_invalidation_nonce := pclc_invalidation_nonce input;
              lcr_orchestrator := orchestrator;
              lcr_ethereum_signer := ethereum_signer;
              lcr_eth_signature := eth_signature |}).

Definition logic_call_try_from (input : POutgoingLogicCall) : eval (result LogicCall GravityError) :=
  let? transfers := try_map (λ transfer, Done (erc20_try_from transfer)) (pcall_transfers input) in
  let? fees := try_map (λ fee, Done (erc20_try_from fee)) (pcall_fees input) in
  if bool_decide (transfers = []) || bool_decide (fees = []) then
    Done (Err (ValidationError "Transaction batch containing no transactions!"))
  else
    let? logic_contract_address :=
      Done (map_err of_clarity_error (address_parse (pcall_logic_contract_address input))) in
    Done (Ok {| call_transfers := transfers;
                call_fees := fees;
                call_logic_contract_address := logic_contract_address;
                call_payload := pcall_payload input;
                call_timeout := pcall_timeout input;
                call_invalidation_id := pcall_invalidation_id input;
                call_invalidation_nonce := pcall_invalidation_nonce input |}).

Definition logic_call_into (self : LogicCall) : POutgoingLogicCall :=
  {| pcall_transfers := erc20_into <$> call_transfers self;
     pcall_fees := erc20_into <$> call_fees self;
     pcall_logic_contract_address := address_to_string (call_logic_contract_address self);
     pcall_payload := call_payload self;
     pcall_timeout := call_timeout self;
     pcall_invalidation_id := call_invalidation_id self;
     pcall_invalidation_nonce := call_invalidation_nonce self;
     pcall_block := 0 |}.

Lemma erc20s_roundtrip `{XL : !ExtLaws X} l : Forall erc20_wf l →
  try_map (λ t, Done (erc20_try_from t)) (erc20_into <$> l) = Done (Ok l).
Proof.
  intros H. apply try_map_Ok. induction H as [|t l Ht H IH]; constructor; [|done].
  by rewrite erc20_roundtrip.
Qed.

(** A logic call with at least one transfer and one fee survives the round trip through its
    protobuf message; one without transfers, or without fees, is refused. *)
Theorem logic_call_roundtrip `{XL : !ExtLaws X} c :
  Forall erc20_wf (call_transfers c) → Forall erc20_wf (call_fees c) →
  logic_call_try_from (logic_call_into c) =
  Done (if bool_decide (call_transfers c ≠ [] ∧ call_fees c ≠ [])
        then Ok c
        else Err (ValidationError "Transaction batch containing no transactions!")).
Proof.
  intros Ht Hf. unfold logic_call_try_from, logic_call_into. simpl.
  rewrite !erc20s_roundtrip by done. simpl. rewrite law_address_parse. simpl.
  destruct c as [[|t ts] [|f fs] a p ti i n]; done.
Qed.
End LogicCalls.

Section Witnesses.
#[local] Existing Instance concrete_ext.
#[local] Existing Instance concrete_laws.

Definition sample_call : LogicCall := {|
  call_transfers := [mkErc20Token 7 (addr 4)]; call_fees := [mkErc20Token 1 (addr 4)];
  call_logic_contract_address := addr 11; call_payload := to_bytes "payload"; call_timeout := 90;
  call_invalidation_id := to_bytes "id"; call_invalidation_nonce := 6 |}.

Lemma logic_call_roundtrip_witness :
  logic_call_try_from (logic_call_into sample_call) = Done (Ok sample_call).
Proof.
  refine (eq_trans (logic_call_roundtrip sample_call _ _) _).
  - repeat constructor; vm_compute; discriminate.
  - repeat constructor; vm_compute; discriminate.
  - reflexivity.
Defined.
End Witnesses.
