(* ===== verification/EthEvents.v ===== *)
(** * Ethereum events: gravity_utils/src/types/ethereum_events.rs

    The hand-written decoders of the logs of the Gravity contract. Indices are [usize]s: additions
    and multiplications overflow as the build has it, and slicing out of range panics. *)

From S2P Require Import Prelude Bytes Proto External Instances Types Signatures Valset.
From Stdlib Require Import Strings.Byte.

Record ValsetUpdatedEvent `{Ext} := mkValsetUpdatedEvent {
  vue_valset_nonce : Z;
  vue_event_nonce : Z;
  vue_block_height : Uint256;
  vue_reward_amount : Uint256;
  vue_reward_token : option EthAddress;
  vue_members : list ValsetMember;
}.
Arguments mkValsetUpdatedEvent {_}.

Record ValsetDataBytes `{Ext} := mkValsetDataBytes {
  vdb_event_nonce : Z;
  vdb_reward_amount : Uint256;
  vdb_reward_token : option EthAddress;
  vdb_members : list ValsetMember;
}.
Arguments mkValsetDataBytes {_}.

Record TransactionBatchExecutedEvent `{Ext} := mkTransactionBatchExecutedEvent {
  tbe_batch_nonce : Z;
  tbe_block_height : Uint256;
  tbe_erc20 : EthAddress;
  tbe_event_nonce : Z;
}.
Arguments mkTransactionBatchExecutedEvent {_}.

Record SendToCosmosEvent `{Ext} := mkSendToCosmosEvent {
  stc_erc20 : EthAddress;
  stc_sender : EthAddress;
  stc_destination : CosmosAddress;
  stc_amount : Uint256;
  stc_event_nonce : Z;
  stc_block_height : Uint256;
}.
Arguments mkSendToCosmosEvent {_}.

Record Erc20DeployedEvent `{Ext} := mkErc20DeployedEvent {
  ede_cosmos_denom : string;
  ede_erc20_address : EthAddress;
  ede_name : string;
  ede_symbol : string;
  ede_decimals : Z;
  ede_event_nonce : Z;
  ede_block_height : Uint256;
}.
Arguments mkErc20DeployedEvent {_}.

Record LogicCallExecutedEvent `{Ext} := mkLogicCallExecutedEvent {
  lce_invalidation_id : bytes;
  lce_invalidation_nonce : Z;
  lce_return_data : bytes;
  lce_event_nonce : Z;
  lce_block_height : Uint256;
}.
Arguments mkLogicCallExecutedEvent {_}.

(** ** event_signatures.rs *)

Definition TRANSACTION_BATCH_EXECUTED_EVENT_SIG : string :=
  "TransactionBatchExecutedEvent(uint256,address,uint256)".
Definition SENT_TO_COSMOS_EVENT_SIG : string :=
  "SendToCosmosEvent(address,address,bytes32,uint256,uint256)".
Definition ERC20_DEPLOYED_EVENT_SIG : string :=
  "ERC20DeployedEvent(string,address,string,string,uint8,uint256)".
Definition LOGIC_CALL_EVENT_SIG : string := "LogicCallEvent(bytes32,uint256,bytes,uint256)".
Definition VALSET_UPDATED_EVENT_SIG : string :=
  "ValsetUpdatedEvent(uint256,uint256,uint256,address,address[],uint256[])".

(** ** ethereum_events.rs *)

Section EthEvents.
Context `{X : Ext} `{BD : Build}.

(** [Uint256::from_bytes_be(&input[index_start..index_end])] with [index_end = index_start + 32]. *)
Definition word_at (input : bytes) (index_start : Z) : eval Uint256 :=
  let! index_end := u64_add index_start 32 in
  let! word := slice input index_start index_end in
  Done (u256_from_bytes_be word).

(** [if value > limit { return Err(..) }; value.to_string().parse().unwrap()], parsing an integer
    of the type whose largest value is [type_max]. *)
Definition narrow (limit type_max : Z) (msg : string) (value : Uint256) :
    eval (result Z GravityError) :=
  if limit <? value then Done (Err (ValidationError msg))
  else let! z := unwrap (parse_uint type_max (u256_to_string value)) in Done (Ok z).

Definition no_block_number : GravityError :=
  ValidationError "Log does not have block number, we only search logs already in blocks?".

Definition block_height_of (input : Log) : result Uint256 GravityError :=
  match block_number input with Some bn => Ok bn | None => Err no_block_number end.

(** ** ValsetUpdatedEvent *)

(** The loop [for i in 0..len_eth_addresses], from index [i] on. *)
Fixpoint decode_members (input : bytes) (powers_offset eth_addresses_offset : Z) (n : nat) (i : Z)
    (validators : list ValsetMember) : eval (result (list ValsetMember) GravityError) :=
  match n with
  | O => Done (Ok validators)
  | S n =>
      let! i32 := u64_mul i 32 in
      let! power_start := u64_add i32 powers_offset in
      let! power_end := u64_add power_start 32 in
      let! i32 := u64_mul i 32 in
      let! address_start := u64_add i32 eth_addresses_offset in
      let! address_end := u64_add address_start 32 in
      let! power_data := slice input power_start power_end in
      let power := u256_from_bytes_be power_data in
      let! address_from := u64_add address_start 12 in
      let! address_data := slice input address_from address_end in
      match address_from_slice address_data with
      | Err _ => Done (Err (ValidationError "Ethereum Address parsing error, probably incorrect parsing"))
      | Ok eth_address =>
          let? power := narrow U64_MAX U64_MAX
            "Power greater than u64::MAX, probably incorrect parsing" power in
          decode_members input powers_offset eth_addresses_offset n (i + 1)
            (validators ++ [mkValsetMember power (Some eth_address)])
      end
  end.

Definition decode_data_bytes (input : bytes) : eval (result ValsetDataBytes GravityError) :=
  let! event_nonce := word_at input 0 in
  let? event_nonce := narrow U64_MAX U64_MAX "Nonce overflow, probably incorrect parsing" event_nonce in
  let! reward_amount := word_at input 32 in
  let! reward_token_data := slice input (2 * 32) (2 * 32 + 32) in
  let! reward_token_data := slice_from reward_token_data 12 in
  match address_from_slice reward_token_data with
  | Err _ => Done (Err (ValidationError "Bad reward address, must be incorrect parsing {:?}"))
  | Ok reward_token =>
      let reward_token := if decide (reward_token = ZERO_ADDRESS) then None else Some reward_token in
      let index_start := 5 * 32 in
      let eth_addresses_offset := index_start + 32 in
      let! len_eth_addresses := word_at input index_start in
      let? len_eth_addresses := narrow USIZE_MAX USIZE_MAX
        "Ethereum array len overflow, probably incorrect parsing" len_eth_addresses in
      let! index_start := u64_add 6 len_eth_addresses in
      let! index_start := u64_mul index_start 32 in
      let! index_end := u64_add index_start 32 in
      let! powers_offset := u64_add index_start 32 in
      let! len_powers := slice input index_start index_end in
      let len_powers := u256_from_bytes_be len_powers in
      if USIZE_MAX <? len_powers then
        Done (Err (ValidationError "Powers array len overflow, probably incorrect parsing"))
      else
      let! len_powers := unwrap (parse_uint USIZE_MAX (dec_string len_eth_addresses)) in
      if negb (len_powers =? len_eth_addresses) then
        Done (Err (ValidationError "Array len mismatch, probably incorrect parsing"))
      else
      let? validators := decode_members input powers_offset eth_addresses_offset
        (Z.to_nat len_eth_addresses) 0 [] in
      (* an unsorted set is only traced *)
      Done (Ok {| vdb_event_nonce := event_nonce;
                  vdb_members := validators;
                  vdb_reward_amount := reward_amount;
                  vdb_reward_token := reward_token |})
  end.

Definition valset_updated_from_log (input : Log) : eval (result ValsetUpdatedEvent GravityError) :=
  match topics input !! 1%nat with
  | None => Done (Err (ValidationError "Too few topics"))
  | Some valset_nonce_data =>
      let valset_nonce := u256_from_bytes_be valset_nonce_data in
      let? valset_nonce := narrow U64_MAX U64_MAX
        "Nonce overflow, probably incorrect parsing" valset_nonce in
      let? block_height := Done (block_height_of input) in
      let? decoded_bytes := decode_data_bytes (data input) in
      Done (Ok {| vue_valset_nonce := valset_nonce;
                  vue_event_nonce := vdb_event_nonce decoded_bytes;
                  vue_block_height := block_height;
                  vue_reward_amount := vdb_reward_amount decoded_bytes;
                  vue_reward_token := vdb_reward_token decoded_bytes;
                  vue_members := vdb_members decoded_bytes |})
  end.

(** ** TransactionBatchExecutedEvent *)

Definition batch_executed_from_log (input : Log) :
    eval (result TransactionBatchExecutedEvent GravityError) :=
  match topics input !! 1%nat, topics input !! 2%nat with
  | Some batch_nonce_data, Some erc20_data =>
      let batch_nonce := u256_from_bytes_be batch_nonce_data in
      let! erc20_data := slice erc20_data 12 32 in
      let? erc20 := Done (map_err of_clarity_error (address_from_slice erc20_data)) in
      let event_nonce := u256_from_bytes_be (data input) in
      let? block_height := Done (block_height_of input) in
      if (U64_MAX <? event_nonce) || (U64_MAX <? batch_nonce) || (U64_MAX <? block_height) then
        Done (Err (ValidationError "Event nonce overflow, probably incorrect parsing"))
      else
      let! batch_nonce := unwrap (parse_u64 (u256_to_string batch_nonce)) in
      let! event_nonce := unwrap (parse_u64 (u256_to_string event_nonce)) in
      Done (Ok {| tbe_batch_nonce := batch_nonce;
                  tbe_block_height := block_height;
                  tbe_erc20 := erc20;
                  tbe_event_nonce := event_nonce |})
  | _, _ => Done (Err (ValidationError "Too few topics"))
  end.

(** ** SendToCosmosEvent *)

Definition send_to_cosmos_from_log (input : Log) : eval (result SendToCosmosEvent GravityError) :=
  match topics input !! 1%nat, topics input !! 2%nat, topics input !! 3%nat with
  | Some erc20_data, Some sender_data, Some destination_data =>
      let! erc20_data := slice erc20_data 12 32 in
      let? erc20 := Done (map_err of_clarity_error (address_from_slice erc20_data)) in
      let! sender_data := slice sender_data 12 32 in
      let? sender := Done (map_err of_clarity_error (address_from_slice sender_data)) in
      let! c_address_bytes := slice destination_data 12 32 in
      let! destination := unwrap (cosmos_address_from_bytes c_address_bytes COSMOS_DEFAULT_PREFIX) in
      let! amount := slice (data input) 0 32 in
      let amount := u256_from_bytes_be amount in
      let! event_nonce := slice_from (data input) 32 in
      let event_nonce := u256_from_bytes_be event_nonce in
      let? block_height := Done (block_height_of input) in
      if (U64_MAX <? event_nonce) || (U64_MAX <? block_height) then
        Done (Err (ValidationError "Event nonce overflow, probably incorrect parsing"))
      else
      let! event_nonce := unwrap (parse_u64 (u256_to_string event_nonce)) in
      Done (Ok {| stc_erc20 := erc20;
                  stc_sender := sender;
                  stc_destination := destination;
                  stc_amount := amount;
                  stc_event_nonce := event_nonce;
                  stc_block_height := block_height |})
  | _, _, _ => Done (Err (ValidationError "Too few topics"))
  end.

(** ** Erc20DeployedEvent *)

(** [((index_end + 31) / 32) * 32]: the next word's index. *)
Definition next_word (index_end : Z) : eval Z :=
  let! i := u64_add index_end 31 in
  u64_mul (i / 32) 32.

(** A length word at [index_start], at most [u32::MAX], then that many bytes of UTF-8: the string
    and the index after it. *)
Definition string_at (input : bytes) (index_start : Z) (len_msg utf8_msg : string) :
    eval (result (string * Z) GravityError) :=
  let! len := word_at input index_start in
  let? len := narrow U32_MAX USIZE_MAX len_msg len in
  let! index_start := u64_add index_start 32 in
  let! index_end := u64_add index_start len in
  let! text := slice input index_start index_end in
  match from_utf8 text with
  | Err _ => Done (Err (ValidationError utf8_msg))
  | Ok s => Done (Ok (s, index_end))
  end.

Definition erc20_deployed_from_log (input : Log) : eval (result Erc20DeployedEvent GravityError) :=
  match topics input !! 1%nat with
  | Some new_token_contract_data =>
      let! erc20_data := slice new_token_contract_data 12 32 in
      let? erc20 := Done (map_err of_clarity_error (address_from_slice erc20_data)) in
      let! decimals := word_at (data input) (3 * 32) in
      let? decimals := narrow U8_MAX U8_MAX "Decimals overflow, probably incorrect parsing" decimals in
      let! nonce := word_at (data input) (4 * 32) in
      let? event_nonce := narrow U64_MAX U64_MAX "Nonce overflow, probably incorrect parsing" nonce in
      let? '(denom, index_end) := string_at (data input) (5 * 32)
        "denom length overflow, probably incorrect parsing"
        "{:?} is not valid utf8, probably incorrect parsing" in
      let! index_start := next_word index_end in
      let? '(erc20_name, index_end) := string_at (data input) index_start
        "ERC20 Name length overflow, probably incorrect parsing"
        "{:?} is not valid utf8, probably incorrect parsing" in
      let! index_start := next_word index_end in
      let? '(symbol, index_end) := string_at (data input) index_start
        "Symbol length overflow, probably incorrect parsing"
        "{:?} is not valid utf8, probably incorrect parsing" in
      let? block_height := Done (block_height_of input) in
      Done (Ok {| ede_cosmos_denom := denom;
                  ede_name := erc20_name;
                  ede_decimals := decimals;
                  ede_event_nonce := event_nonce;
                  ede_erc20_address := erc20;
                  ede_symbol := symbol;
                  ede_block_height := block_height |})
  | None => Done (Err (ValidationError "Too few topics"))
  end.

(** ** LogicCallExecutedEvent *)

Definition logic_call_executed_from_log (_input : Log) :
    eval (result LogicCallExecutedEvent GravityError) :=
  Panic "not implemented".

(** ** Lists of logs *)

Definition valset_updated_from_logs : list Log → eval (result (list ValsetUpdatedEvent) GravityError) :=
  try_map valset_updated_from_log.
Definition batch_executed_from_logs :
    list Log → eval (result (list TransactionBatchExecutedEvent) GravityError) :=
  try_map batch_executed_from_log.
Definition send_to_cosmos_from_logs : list Log → eval (result (list SendToCosmosEvent) GravityError) :=
  try_map send_to_cosmos_from_log.
Definition erc20_deployed_from_logs : list Log → eval (result (list Erc20DeployedEvent) GravityError) :=
  try_map erc20_deployed_from_log.
Definition logic_call_executed_from_logs :
    list Log → eval (result (list LogicCallExecutedEvent) GravityError) :=
  try_map logic_call_executed_from_log.

(** [filter_by_event_nonce], the same loop in the five types. *)
Definition filter_by_nonce {A} (nonce_of : A → Z) (event_nonce : Z) (input : list A) : list A :=
  foldl (λ ret item, if event_nonce <? nonce_of item then ret ++ [item] else ret) [] input.
Definition valset_updated_filter := filter_by_nonce vue_event_nonce.
Definition batch_executed_filter := filter_by_nonce tbe_event_nonce.
Definition send_to_cosmos_filter := filter_by_nonce stc_event_nonce.
Definition erc20_deployed_filter := filter_by_nonce ede_event_nonce.
Definition logic_call_executed_filter := filter_by_nonce lce_event_nonce.

Lemma filter_by_nonce_eq {A} (nonce_of : A → Z) n l :
  filter_by_nonce nonce_of n l = filter (λ x, n < nonce_of x) l.
Proof.
  unfold filter_by_nonce. induction l as [|x l IH] using rev_ind; [done|].
  rewrite foldl_app, IH, filter_app. simpl. rewrite filter_cons, filter_nil.
  destruct (Z.ltb_spec n (nonce_of x)); case_decide; try lia; [done|by rewrite app_nil_r].
Qed.
End EthEvents.
