(* ===== verification/EthEventsTheory.v ===== *)
(** * Ethereum events: the decoders against the ABI

    The layout the Solidity ABI gives the events of the Gravity contract, as encoders, and that the
    decoders of EthEvents.v read it back; that no decoder returns more validators than the data has
    room for; and what the array length check does not see. *)

From S2P Require Import Prelude Bytes Proto External Instances Types Signatures Valset EthEvents.
From Stdlib Require Import Strings.Byte.

(** ** ABI words *)

Lemma blen_app a b : blen (a ++ b) = blen a + blen b.
Proof. unfold blen. rewrite length_app. lia. Qed.
Lemma blen_replicate n (x : byte) : blen (replicate n x) = Z.of_nat n.
Proof. unfold blen. by rewrite length_replicate. Qed.
Lemma blen_nonneg b : 0 ≤ blen b.
Proof. unfold blen. lia. Qed.

(** The longest buffer a Rust program can hold: [isize::MAX] bytes. *)
Definition ISIZE_MAX : Z := 2 ^ 63 - 1.

Definition word (z : Z) : bytes := be_split 32 z.

Lemma blen_word z : blen (word z) = 32.
Proof. unfold blen, word. by rewrite length_be_split. Qed.

Lemma length_word z : length (word z) = 32%nat.
Proof. apply length_be_split. Qed.

Definition word_ok (z : Z) : Prop := 0 ≤ z ≤ U256_MAX.

Lemma be_word z : word_ok z → be (word z) = z.
Proof.
  unfold word_ok, U256_MAX, word. intros [H1 H2]. apply be_split_small.
  change (256 ^ Z.of_nat 32) with (2 ^ 256). lia.
Qed.

Section Encoders.
Context `{X : Ext}.

(** An address is right-aligned in its word; so is a Cosmos address's bytes. *)
Definition pad12 (b : bytes) : bytes := replicate 12 x00 ++ b.
Definition addr_word (a : EthAddress) : bytes := pad12 (address_as_bytes a).

(** A string or dynamic byte array: its length, its bytes, and zeros up to the next word. *)
Definition padding (n : Z) : Z := (- n) mod 32.
Definition text (s : bytes) : bytes :=
  word (blen s) ++ s ++ replicate (Z.to_nat (padding (blen s))) x00.

Definition member_words (ms : list (Z * EthAddress)) : bytes := concat (map (λ m, addr_word m.2) ms).
Definition power_words (ms : list (Z * EthAddress)) : bytes := concat (map (λ m, word m.1) ms).
Definition as_members (ms : list (Z * EthAddress)) : list ValsetMember :=
  map (λ m, mkValsetMember m.1 (Some m.2)) ms.

(** The data of [ValsetUpdatedEvent(uint256 indexed, uint256, uint256, address, address[],
    uint256[])]: event nonce, reward amount and token, the offsets of the two arrays, the arrays.
    [powers_length] is the length word of the second array. *)
Definition valset_updated_data (event_nonce reward_amount : Z) (reward_token : option EthAddress)
    (ms : list (Z * EthAddress)) (powers_length : Z) : bytes :=
  word event_nonce ++ word reward_amount ++ addr_word (default ZERO_ADDRESS reward_token) ++
  word 160 ++ word (192 + 32 * Z.of_nat (length ms)) ++ word (Z.of_nat (length ms)) ++
  member_words ms ++ word powers_length ++ power_words ms.

(** The log of [ERC20DeployedEvent(string, address indexed, string, string, uint8, uint256)]. *)
Definition erc20_deployed_data (ev : Erc20DeployedEvent) : bytes :=
  let denom := to_bytes (ede_cosmos_denom ev) in
  let name := to_bytes (ede_name ev) in
  let symbol := to_bytes (ede_symbol ev) in
  let after_denom := 192 + blen denom + padding (blen denom) in
  word 160 ++ word after_denom ++ word (after_denom + 32 + blen name + padding (blen name)) ++
  word (ede_decimals ev) ++ word (ede_event_nonce ev) ++ text denom ++ text name ++ text symbol.
End Encoders.

(** ** Reading words back *)

Section Readers.
Context `{XL : ExtLaws} `{BD : Build}.

Lemma blen_addr_word a : blen (addr_word a) = 32.
Proof. unfold blen, addr_word, pad12. rewrite length_app, length_replicate, law_address_length. done. Qed.

Lemma blen_member_words ms : blen (member_words ms) = 32 * Z.of_nat (length ms).
Proof.
  unfold member_words. induction ms as [|m ms IH]; [done|]. cbn [map concat length].
  rewrite blen_app, IH, blen_addr_word. lia.
Qed.
Lemma blen_power_words ms : blen (power_words ms) = 32 * Z.of_nat (length ms).
Proof.
  unfold power_words. induction ms as [|m ms IH]; [done|]. cbn [map concat length].
  rewrite blen_app, IH, blen_word. lia.
Qed.

Lemma u64_add_ok a b : 0 ≤ a → 0 ≤ b → a + b ≤ U64_MAX → u64_add a b = Done (a + b).
Proof. intros. apply u64_wrap_ok. unfold is_u64. lia. Qed.
Lemma u64_mul_ok a b : 0 ≤ a → 0 ≤ b → a * b ≤ U64_MAX → u64_mul a b = Done (a * b).
Proof. intros. apply u64_wrap_ok. unfold is_u64. nia. Qed.

Lemma word_at_app a m c lo :
  lo = blen a → blen m = 32 → blen a + 32 ≤ U64_MAX → word_at (a ++ m ++ c) lo = Done (be m).
Proof.
  intros -> Hm Ha. unfold word_at. pose proof (blen_nonneg a). rewrite u64_add_ok by lia. simpl.
  rewrite slice_app by lia. simpl. rewrite u256_word; [done|]. unfold blen in Hm. lia.
Qed.

Lemma word_at_word input a z c lo :
  input = a ++ word z ++ c → lo = blen a → word_ok z → blen a + 32 ≤ U64_MAX →
  word_at input lo = Done z.
Proof. intros ->. intros. rewrite word_at_app by (try done; apply blen_word). by rewrite be_word. Qed.

Lemma narrow_ok limit type_max msg z :
  0 ≤ z ≤ limit → limit ≤ type_max → narrow limit type_max msg z = Done (Ok z).
Proof.
  intros Hz Hl. unfold narrow. rewrite (proj2 (Z.ltb_ge limit z)) by lia.
  rewrite law_u256_to_string, parse_uint_dec by lia. done.
Qed.

Lemma narrow_Ok limit type_max msg z r :
  narrow limit type_max msg z = Done (Ok r) → z ≤ limit.
Proof. unfold narrow. destruct (Z.ltb_spec limit z); [done|]. intros. lia. Qed.

Lemma slice_upper upper b : length upper = 12%nat → length b = 20%nat → slice (upper ++ b) 12 32 = Done b.
Proof.
  intros Hu H. rewrite <- (app_nil_r b) at 1. apply slice_app; unfold blen; by rewrite ?Hu, ?H.
Qed.
Lemma slice_pad12 a : slice (addr_word a) 12 32 = Done (address_as_bytes a).
Proof. apply slice_upper; [done|]. apply law_address_length. Qed.

(** ** The valset decoder's loop *)

Lemma decode_members_ok pre mid ms1 ms2 acc :
  let ms := ms1 ++ ms2 in
  let input := pre ++ member_words ms ++ mid ++ power_words ms in
  Forall (λ m, is_u64 m.1) ms → blen input ≤ ISIZE_MAX →
  decode_members input (blen pre + 32 * Z.of_nat (length ms) + blen mid) (blen pre) (length ms2)
    (Z.of_nat (length ms1)) acc =
  Done (Ok (acc ++ as_members ms2)).
Proof.
  revert ms1 acc. induction ms2 as [|[p a] ms2 IH]; intros ms1 acc ms input Hp Hb.
  { simpl. by rewrite app_nil_r. }
  assert (Hin : blen input = blen pre + 64 * Z.of_nat (length ms) + blen mid).
  { unfold input. rewrite !blen_app, blen_member_words, blen_power_words. lia. }
  assert (Hlen : Z.of_nat (length ms) = Z.of_nat (length ms1) + 1 + Z.of_nat (length ms2)).
  { unfold ms. rewrite length_app. simpl. lia. }
  pose proof (blen_nonneg pre). pose proof (blen_nonneg mid). unfold ISIZE_MAX in Hb.
  assert (Hu : U64_MAX = 2 ^ 64 - 1) by done.
  assert (E1 : input = (pre ++ member_words ms ++ mid ++ power_words ms1) ++ word p ++ power_words ms2).
  { unfold input, ms, power_words. rewrite !map_app, !concat_app. simpl. by rewrite <- !app_assoc. }
  assert (E2 : input = (pre ++ member_words ms1 ++ replicate 12 x00) ++ address_as_bytes a ++
                       (member_words ms2 ++ mid ++ power_words ms)).
  { unfold input, ms, member_words. rewrite !map_app, !concat_app.
    cbn [map concat snd]. unfold addr_word, pad12. by rewrite <- !app_assoc. }
  cbn [decode_members length].
  rewrite u64_mul_ok by lia. cbn [eval_bind].
  rewrite u64_add_ok by lia. cbn [eval_bind]. rewrite u64_add_ok by lia. cbn [eval_bind].
  rewrite u64_add_ok by lia. cbn [eval_bind]. rewrite u64_add_ok by lia. cbn [eval_bind].
  rewrite E1 at 1. rewrite slice_app; cycle 1.
  { rewrite !blen_app, blen_member_words, blen_power_words. lia. }
  { rewrite !blen_app, blen_member_words, blen_power_words, blen_word. lia. }
  cbn [eval_bind]. rewrite u64_add_ok by lia. cbn [eval_bind].
  assert (blen (address_as_bytes a) = 20) by (unfold blen; by rewrite law_address_length).
  assert (blen (replicate 12 x00) = 12) by done.
  rewrite E2 at 1. rewrite slice_app by (rewrite ?blen_app, blen_member_words; lia).
  cbn [eval_bind]. rewrite law_address_from_slice.
  assert (is_u64 p) as Hpu.
  { unfold ms in Hp. apply Forall_app in Hp as [_ Hp]. by inversion Hp. }
  rewrite u256_word, be_word, narrow_ok;
    [|done|done|unfold word_ok, U256_MAX, is_u64 in *; lia|pose proof (blen_word p); unfold blen in *; lia].
  cbn [try_bind].
  specialize (IH (ms1 ++ [(p, a)]) (acc ++ [mkValsetMember p (Some a)])).
  rewrite <- !app_assoc in IH. cbn [app] in IH. fold ms in IH. fold input in IH.
  replace (Z.of_nat (length ms1) + 1) with (Z.of_nat (length (ms1 ++ [(p, a)])))
    by (rewrite length_app; simpl; lia).
  by rewrite IH.
Qed.

(** Whatever the data, and whether additions wrap or panic, the last address the loop has read lies
    inside it. *)
Lemma decode_members_bound input po eo n i acc vs :
  blen input ≤ ISIZE_MAX → 0 ≤ i → 0 ≤ eo → eo + 32 * i ≤ ISIZE_MAX →
  decode_members input po eo n i acc = Done (Ok vs) →
  length vs = (length acc + n)%nat ∧ (n = 0%nat ∨ eo + 32 * (i + Z.of_nat n) ≤ blen input).
Proof.
  unfold ISIZE_MAX. intros Hb Hi Heo. revert i acc Hi.
  induction n as [|n IH]; intros i acc Hi Hei H; simpl in H.
  { injection H as <-. split; [lia|by left]. }
  assert (Hu : U64_MAX = 2 ^ 64 - 1) by done.
  rewrite !(u64_mul_ok i 32) in H by lia. cbn [eval_bind] in H.
  apply eval_bind_Done in H as (ps & _ & H). apply eval_bind_Done in H as (pe & _ & H).
  rewrite !(u64_add_ok (i * 32) eo) in H by lia. cbn [eval_bind] in H.
  rewrite (u64_add_ok (i * 32 + eo) 32) in H by lia. cbn [eval_bind] in H.
  apply eval_bind_Done in H as (pd & _ & H).
  rewrite (u64_add_ok (i * 32 + eo) 12) in H by lia. cbn [eval_bind] in H.
  apply eval_bind_Done in H as (ad & [Hs _]%slice_Done & H).
  destruct (address_from_slice ad) as [a|]; [|done].
  apply try_bind_Ok in H as (p & _ & H).
  apply IH in H as [Hl Hn]; [|lia|lia]. rewrite Hl, length_app. simpl. split; [lia|].
  right. destruct Hn as [->|Hn]; lia.
Qed.

Lemma valset_data_ok event_nonce reward_amount reward_token ms powers_length :
  is_u64 event_nonce → word_ok reward_amount → reward_token ≠ Some ZERO_ADDRESS →
  Forall (λ m, is_u64 m.1) ms → is_u64 powers_length →
  blen (valset_updated_data event_nonce reward_amount reward_token ms powers_length) ≤ ISIZE_MAX →
  decode_data_bytes (valset_updated_data event_nonce reward_amount reward_token ms powers_length) =
  Done (Ok {| vdb_event_nonce := event_nonce; vdb_reward_amount := reward_amount;
              vdb_reward_token := reward_token; vdb_members := as_members ms |}).
Proof.
  intros He Hr Ht Hm Hpl Hb. set (input := valset_updated_data _ _ _ _ _) in *.
  set (n := Z.of_nat (length ms)).
  assert (0 ≤ n) by (unfold n; lia).
  assert (Hin : blen input = 224 + 64 * n).
  { unfold input, valset_updated_data.
    rewrite !blen_app, !blen_word, blen_addr_word, blen_member_words, blen_power_words. lia. }
  assert (Hu : U64_MAX = 2 ^ 64 - 1) by done. unfold ISIZE_MAX, is_u64, USIZE_MAX, word_ok, U256_MAX in *.
  unfold decode_data_bytes. change USIZE_MAX with U64_MAX.
  (* the event nonce *)
  rewrite (word_at_word input [] event_nonce _ 0 eq_refl)
    by (unfold word_ok, U256_MAX, blen; simpl; lia).
  cbn [eval_bind]. rewrite narrow_ok by lia. cbn [try_bind].
  (* the reward amount *)
  rewrite (word_at_word input (word event_nonce) reward_amount _ 32 eq_refl)
    by (rewrite ?blen_word; unfold word_ok, U256_MAX; lia).
  cbn [eval_bind].
  (* the reward token *)
  assert (E : input = (word event_nonce ++ word reward_amount) ++
    addr_word (default ZERO_ADDRESS reward_token) ++
    (word 160 ++ word (192 + 32 * n) ++ word n ++ member_words ms ++ word powers_length ++ power_words ms)).
  { unfold input, valset_updated_data. by rewrite <- !app_assoc. }
  rewrite E at 1. rewrite slice_app by (rewrite blen_app, !blen_word, ?blen_addr_word; done).
  cbn [eval_bind].
  assert (slice_from (addr_word (default ZERO_ADDRESS reward_token)) 12 =
    Done (address_as_bytes (default ZERO_ADDRESS reward_token))) as ->.
  { unfold slice_from. rewrite blen_addr_word. done. }
  cbn [eval_bind]. rewrite law_address_from_slice.
  (* the array of addresses *)
  clear E. assert (E : input = (word event_nonce ++ word reward_amount ++
    addr_word (default ZERO_ADDRESS reward_token) ++ word 160 ++ word (192 + 32 * n)) ++
    word n ++ (member_words ms ++ word powers_length ++ power_words ms)).
  { unfold input, valset_updated_data. by rewrite <- !app_assoc. }
  rewrite (word_at_word _ _ _ _ (5 * 32) E);
    [|by rewrite !blen_app, !blen_word, blen_addr_word
     |unfold word_ok, U256_MAX; lia
     |rewrite !blen_app, !blen_word, blen_addr_word; lia].
  cbn [eval_bind]. rewrite narrow_ok by lia. cbn [try_bind].
  (* the array of powers *)
  rewrite u64_add_ok by lia. cbn [eval_bind]. rewrite u64_mul_ok by lia. cbn [eval_bind].
  rewrite !u64_add_ok by lia. cbn [eval_bind].
  clear E. set (pre := word event_nonce ++ word reward_amount ++
    addr_word (default ZERO_ADDRESS reward_token) ++ word 160 ++ word (192 + 32 * n) ++ word n).
  assert (Hpre : blen pre = 192).
  { unfold pre. by rewrite !blen_app, !blen_word, blen_addr_word. }
  assert (E : input = pre ++ member_words ms ++ word powers_length ++ power_words ms).
  { unfold input, pre, valset_updated_data. by rewrite <- !app_assoc. }
  assert (E' : input = (pre ++ member_words ms) ++ word powers_length ++ power_words ms).
  { rewrite E. by rewrite <- !app_assoc. }
  rewrite E' at 1.
  rewrite slice_app by (rewrite blen_app, blen_member_words, ?blen_word; lia). cbn [eval_bind].
  rewrite u256_word, be_word; [|unfold word_ok, U256_MAX; lia
                               |pose proof (blen_word powers_length); unfold blen in *; lia].
  rewrite (proj2 (Z.ltb_ge U64_MAX powers_length)) by lia.
  rewrite parse_uint_dec by lia. cbn [unwrap eval_bind]. rewrite Z.eqb_refl. cbn [negb].
  (* the loop *)
  pose proof (decode_members_ok pre (word powers_length) [] ms []) as L. cbn [app length] in L.
  rewrite <- E in L. rewrite Hpre, blen_word in L.
  replace ((6 + n) * 32 + 32) with (192 + 32 * Z.of_nat (length ms) + 32) by lia.
  unfold n. rewrite Nat2Z.id. change (5 * 32 + 32) with 192. change (Z.of_nat 0) with 0 in L.
  rewrite L by done. cbn [try_bind]. do 3 f_equal.
  destruct reward_token as [t|]; simpl; [|by rewrite decide_True].
  rewrite decide_False; [done|congruence].
Qed.
(** ** Strings *)

Lemma padding_bound n : 0 ≤ padding n < 32.
Proof. apply Z.mod_pos_bound. lia. Qed.

Lemma blen_text s : blen (text s) = 32 + blen s + padding (blen s).
Proof.
  unfold text. rewrite !blen_app, blen_word, blen_replicate.
  pose proof (padding_bound (blen s)). lia.
Qed.

Lemma string_at_text input pre s post lo len_msg utf8_msg :
  input = pre ++ text (to_bytes s) ++ post → lo = blen pre → blen input ≤ ISIZE_MAX →
  blen (to_bytes s) ≤ U32_MAX →
  string_at input lo len_msg utf8_msg =
  Done (if utf8_valid (to_bytes s) then Ok (s, lo + 32 + blen (to_bytes s)) else Err (ValidationError utf8_msg)).
Proof.
  intros E -> Hb Hl. pose proof (blen_nonneg pre). pose proof (blen_nonneg (to_bytes s)).
  pose proof (blen_nonneg post).
  rewrite E, !blen_app, blen_text in Hb. pose proof (padding_bound (blen (to_bytes s))).
  unfold ISIZE_MAX, U32_MAX in *. assert (U64_MAX = 2 ^ 64 - 1) by done.
  unfold text in E. rewrite <- !app_assoc in E. unfold string_at.
  rewrite (word_at_word _ _ _ _ _ E); [|done|unfold word_ok, U256_MAX; lia|lia]. cbn [eval_bind].
  rewrite narrow_ok by (unfold USIZE_MAX, U32_MAX; lia). cbn [try_bind].
  rewrite !u64_add_ok by lia. cbn [eval_bind]. rewrite u64_add_ok by lia. cbn [eval_bind].
  rewrite app_assoc in E. rewrite E, slice_app by (rewrite ?blen_app, blen_word; lia).
  cbn [eval_bind]. unfold from_utf8. destruct (utf8_valid _); [|done]. by rewrite of_to_bytes.
Qed.

Lemma next_word_padding k n :
  0 ≤ k → 0 ≤ n → 32 * k + n ≤ ISIZE_MAX → next_word (32 * k + n) = Done (32 * k + n + padding n).
Proof.
  intros Hk Hn Hm. unfold next_word, ISIZE_MAX, padding in *. assert (U64_MAX = 2 ^ 64 - 1) by done.
  rewrite u64_add_ok by lia. cbn [eval_bind]. rewrite u64_mul_ok by dlia. f_equal. dlia.
Qed.
End Readers.

Section Decoders.
Context `{XL : ExtLaws} `{BD : Build}.

Lemma valset_updated_log_ok sig valset_nonce event_nonce reward_amount reward_token ms height :
  is_u64 valset_nonce → is_u64 event_nonce → word_ok reward_amount →
  reward_token ≠ Some ZERO_ADDRESS → Forall (λ m, is_u64 m.1) ms →
  let d := valset_updated_data event_nonce reward_amount reward_token ms (Z.of_nat (length ms)) in
  blen d ≤ ISIZE_MAX →
  valset_updated_from_log (mkLog [sig; word valset_nonce] d (Some height)) =
  Done (Ok {| vue_valset_nonce := valset_nonce; vue_event_nonce := event_nonce;
              vue_block_height := height; vue_reward_amount := reward_amount;
              vue_reward_token := reward_token; vue_members := as_members ms |}).
Proof.
  intros Hn He Hr Ht Hm d Hb. unfold valset_updated_from_log. cbn [topics lookup list_lookup].
  change ([word valset_nonce] !! 0%nat) with (Some (word valset_nonce)). cbv beta iota zeta.
  rewrite u256_word by (apply length_word).
  rewrite be_word by (unfold is_u64, word_ok, U64_MAX, U256_MAX in *; lia).
  rewrite narrow_ok by (unfold is_u64 in *; lia). cbn [try_bind block_height_of block_number data].
  unfold d. rewrite valset_data_ok; [done..| |done].
  unfold d, valset_updated_data, ISIZE_MAX, is_u64, U64_MAX in *.
  rewrite !blen_app, blen_member_words, blen_power_words, blen_addr_word, !blen_word in Hb. lia.
Qed.

(** C29: a ValsetUpdatedEvent encoded as the ABI prescribes decodes to itself, the zero reward token
    to no token, in both build modes. *)
Theorem valset_updated_decodes sig valset_nonce event_nonce reward_amount reward_token ms height :
  is_u64 valset_nonce → is_u64 event_nonce → word_ok reward_amount →
  reward_token ≠ Some ZERO_ADDRESS → Forall (λ m, is_u64 m.1) ms →
  let d := valset_updated_data event_nonce reward_amount reward_token ms (Z.of_nat (length ms)) in
  blen d ≤ ISIZE_MAX →
  valset_updated_from_log (mkLog [sig; word valset_nonce] d (Some height)) =
  Done (Ok {| vue_valset_nonce := valset_nonce; vue_event_nonce := event_nonce;
              vue_block_height := height; vue_reward_amount := reward_amount;
              vue_reward_token := reward_token; vue_members := as_members ms |}).
Proof. apply valset_updated_log_ok. Qed.

(** The check that the two arrays have the same length never fires: whatever [usize] the length
    word of the powers array holds, the event decodes with as many powers as addresses. *)
Theorem valset_powers_length_ignored event_nonce reward_amount reward_token ms powers_length :
  is_u64 event_nonce → word_ok reward_amount → reward_token ≠ Some ZERO_ADDRESS →
  Forall (λ m, is_u64 m.1) ms → is_u64 powers_length →
  blen (valset_updated_data event_nonce reward_amount reward_token ms powers_length) ≤ ISIZE_MAX →
  decode_data_bytes (valset_updated_data event_nonce reward_amount reward_token ms powers_length) =
  Done (Ok {| vdb_event_nonce := event_nonce; vdb_reward_amount := reward_amount;
              vdb_reward_token := reward_token; vdb_members := as_members ms |}).
Proof. apply valset_data_ok. Qed.

(** On any data at all, wrapping arithmetic included, a successful decoding has read every
    validator it returns from inside the data: 192 bytes of header and 32 per validator fit in it. *)
Theorem valset_decode_bounded input d :
  blen input ≤ ISIZE_MAX → decode_data_bytes input = Done (Ok d) →
  192 + 32 * Z.of_nat (length (vdb_members d)) ≤ blen input.
Proof.
  intros Hb H. unfold decode_data_bytes in H.
  apply eval_bind_Done in H as (w0 & _ & H). apply try_bind_Ok in H as (en & _ & H).
  apply eval_bind_Done in H as (ra & _ & H). apply eval_bind_Done in H as (rt & _ & H).
  apply eval_bind_Done in H as (rt' & _ & H). destruct (address_from_slice rt') as [a|]; [|done].
  apply eval_bind_Done in H as (len & Hlen & H). apply try_bind_Ok in H as (n & _ & H).
  do 5 apply eval_bind_Done in H as (? & _ & H). destruct (USIZE_MAX <? _); [done|].
  apply eval_bind_Done in H as (lp & _ & H). destruct (negb _); [done|].
  apply try_bind_Ok in H as (vs & Hv & H). injection H as <-. simpl.
  assert (192 ≤ blen input).
  { unfold word_at in Hlen. apply eval_bind_Done in Hlen as (e & He & Hlen).
    rewrite u64_add_ok in He by (unfold U64_MAX; lia). injection He as <-.
    apply eval_bind_Done in Hlen as (wd & [Hw _]%slice_Done & _). lia. }
  apply decode_members_bound in Hv as [Hl Hn]; [|done..|unfold ISIZE_MAX; lia].
  simpl in Hl. rewrite Hl. destruct Hn as [->|Hn]; simpl; lia.
Qed.

(** A TransactionBatchExecutedEvent decodes to itself; a block height or a nonce above
    [u64::MAX] is refused. *)
Lemma batch_executed_decodes sig batch_nonce erc20 event_nonce height :
  word_ok batch_nonce → word_ok event_nonce →
  batch_executed_from_log
    (mkLog [sig; word batch_nonce; addr_word erc20] (word event_nonce) (Some height)) =
  Done (if bool_decide (event_nonce ≤ U64_MAX ∧ batch_nonce ≤ U64_MAX ∧ height ≤ U64_MAX)
        then Ok {| tbe_batch_nonce := batch_nonce; tbe_block_height := height;
                   tbe_erc20 := erc20; tbe_event_nonce := event_nonce |}
        else Err (ValidationError "Event nonce overflow, probably incorrect parsing")).
Proof.
  intros Hb He. unfold batch_executed_from_log. simpl. rewrite slice_pad12. simpl.
  rewrite law_address_from_slice. simpl. rewrite !u256_word by (apply length_word).
  rewrite !be_word by done. unfold word_ok in *.
  destruct (Z.ltb_spec U64_MAX event_nonce); [rewrite bool_decide_false by lia; done|].
  destruct (Z.ltb_spec U64_MAX batch_nonce); [rewrite bool_decide_false by lia; done|].
  destruct (Z.ltb_spec U64_MAX height); [rewrite bool_decide_false by lia; done|].
  rewrite bool_decide_true by done. simpl. unfold parse_u64.
  rewrite !law_u256_to_string, !parse_uint_dec by lia. done.
Qed.

(** A SendToCosmosEvent decodes to itself, whatever the upper bytes of its destination; an event nonce or block height above [u64::MAX] is
    refused. *)
Lemma send_to_cosmos_decodes sig erc20 sender upper dest destination amount event_nonce height :
  length upper = 12%nat → length dest = 20%nat → cosmos_address_from_bytes dest COSMOS_DEFAULT_PREFIX = Ok destination →
  word_ok amount → word_ok event_nonce →
  send_to_cosmos_from_log
    (mkLog [sig; addr_word erc20; addr_word sender; upper ++ dest] (word amount ++ word event_nonce)
       (Some height)) =
  Done (if bool_decide (event_nonce ≤ U64_MAX ∧ height ≤ U64_MAX)
        then Ok {| stc_erc20 := erc20; stc_sender := sender; stc_destination := destination;
                   stc_amount := amount; stc_event_nonce := event_nonce; stc_block_height := height |}
        else Err (ValidationError "Event nonce overflow, probably incorrect parsing")).
Proof.
  intros Hup Hd Hdest Ha He. unfold send_to_cosmos_from_log.
  cbn [topics lookup list_lookup data]. rewrite !slice_pad12. cbn [eval_bind].
  rewrite !law_address_from_slice. cbn [map_err try_bind eval_bind].
  rewrite slice_upper by done.
  cbn [eval_bind]. rewrite Hdest. cbn [unwrap eval_bind].
  assert (slice (word amount ++ word event_nonce) 0 32 = Done (word amount)) as ->.
  { apply (slice_app []); [done|]. by rewrite blen_word. }
  cbn [eval_bind].
  assert (slice_from (word amount ++ word event_nonce) 32 = Done (word event_nonce)) as ->.
  { unfold slice_from. by rewrite blen_app, !blen_word. }
  cbn [eval_bind try_bind block_height_of block_number].
  rewrite !u256_word by (apply length_word). rewrite !be_word by done. unfold word_ok in *.
  destruct (Z.ltb_spec U64_MAX event_nonce); [rewrite bool_decide_false by lia; done|].
  destruct (Z.ltb_spec U64_MAX height); [rewrite bool_decide_false by lia; done|].
  rewrite bool_decide_true by done. simpl. unfold parse_u64.
  rewrite !law_u256_to_string, !parse_uint_dec by lia. done.
Qed.

(** The three strings are UTF-8; the contract does not ask for it. *)
Definition texts_valid (ev : Erc20DeployedEvent) : bool :=
  utf8_valid (to_bytes (ede_cosmos_denom ev)) && utf8_valid (to_bytes (ede_name ev)) &&
  utf8_valid (to_bytes (ede_symbol ev)).
Definition not_utf8 : GravityError := ValidationError "{:?} is not valid utf8, probably incorrect parsing".

Lemma erc20_deployed_log_ok sig ev :
  0 ≤ ede_decimals ev ≤ U8_MAX → is_u64 (ede_event_nonce ev) →
  Forall (λ s, blen (to_bytes s) ≤ U32_MAX) [ede_cosmos_denom ev; ede_name ev; ede_symbol ev] →
  erc20_deployed_from_log
    (mkLog [sig; addr_word (ede_erc20_address ev)] (erc20_deployed_data ev) (Some (ede_block_height ev))) =
  Done (if texts_valid ev then Ok ev else Err not_utf8).
Proof.
  intros Hd Hn Hs. destruct ev as [denom erc20 name symbol decimals nonce height]. simpl in Hd, Hn, Hs.
  rewrite !Forall_cons in Hs. destruct Hs as (Ld & Ln & Ls & _).
  unfold erc20_deployed_from_log, texts_valid. cbn [topics data lookup list_lookup].
  change ([addr_word _] !! 0%nat) with (Some (addr_word erc20)). cbn [ede_erc20_address ede_cosmos_denom ede_name ede_symbol].
  rewrite slice_pad12. cbn [eval_bind]. rewrite law_address_from_slice. cbn [map_err try_bind].
  unfold erc20_deployed_data. cbn [ede_cosmos_denom ede_name ede_symbol ede_decimals ede_event_nonce].
  set (w0 := word 160). set (o1 := 192 + _ + _). set (w1 := word o1). set (w2 := word (o1 + _ + _ + _)).
  set (input := w0 ++ _).
  pose proof (blen_nonneg (to_bytes denom)). pose proof (blen_nonneg (to_bytes name)).
  pose proof (blen_nonneg (to_bytes symbol)).
  pose proof (padding_bound (blen (to_bytes denom))). pose proof (padding_bound (blen (to_bytes name))).
  pose proof (padding_bound (blen (to_bytes symbol))).
  assert (Hb : blen input ≤ ISIZE_MAX).
  { unfold input, w0, w1, w2, ISIZE_MAX, U32_MAX in *. rewrite !blen_app, !blen_text, !blen_word. lia. }
  set (head := w0 ++ w1 ++ w2). assert (Hh : blen head = 96).
  { unfold head, w0, w1, w2. by rewrite !blen_app, !blen_word. }
  assert (E : input = head ++ word decimals ++ word nonce ++ text (to_bytes denom) ++
    text (to_bytes name) ++ text (to_bytes symbol)).
  { unfold input, head. by rewrite <- !app_assoc. }
  clearbody input head. clear w1 w2 o1 w0. assert (HU : U64_MAX = 2 ^ 64 - 1) by done.
  unfold U8_MAX, U32_MAX, ISIZE_MAX, is_u64 in *.
  (* decimals *)
  rewrite (word_at_word _ _ _ _ (3 * 32) E);
    [|by rewrite Hh|unfold word_ok, U256_MAX; lia|lia]. cbn [eval_bind].
  rewrite narrow_ok by (unfold U8_MAX; lia). cbn [try_bind].
  (* nonce *)
  rewrite app_assoc in E. rewrite (word_at_word _ _ _ _ (4 * 32) E);
    [|by rewrite blen_app, blen_word, Hh|unfold word_ok, U256_MAX; lia|rewrite blen_app, blen_word; lia].
  cbn [eval_bind]. rewrite narrow_ok by lia. cbn [try_bind].
  (* the three strings *)
  rewrite app_assoc in E. rewrite (string_at_text _ _ _ _ (5 * 32) _ _ E);
    [|by rewrite !blen_app, !blen_word, Hh|done|done].
  destruct (utf8_valid (to_bytes denom)); [|done]. cbn [try_bind].
  replace (5 * 32 + 32 + _) with (32 * 6 + blen (to_bytes denom)) by lia.
  rewrite next_word_padding by (unfold ISIZE_MAX; lia). cbn [eval_bind].
  rewrite app_assoc in E. rewrite (string_at_text _ _ _ _ _ _ _ E);
    [|rewrite !blen_app, blen_text, !blen_word, Hh; lia|done|done].
  destruct (utf8_valid (to_bytes name)); [|done]. cbn [try_bind].
  assert (∃ k, 0 ≤ k ∧ k < 2 ^ 40 ∧ 32 * 6 + blen (to_bytes denom) + padding (blen (to_bytes denom)) + 32 =
    32 * k) as (k & Hk0 & Hk & Ek).
  { exists (7 + (blen (to_bytes denom) + padding (blen (to_bytes denom))) / 32). unfold padding. dlia. }
  rewrite Ek. rewrite next_word_padding by (unfold ISIZE_MAX; lia). cbn [eval_bind].
  rewrite app_assoc in E. rewrite <- (app_nil_r (text (to_bytes symbol))) in E.
  rewrite (string_at_text _ _ _ _ _ _ _ E); [|rewrite !blen_app, !blen_text, !blen_word, Hh; lia|done..].
  by destruct (utf8_valid (to_bytes symbol)).
Qed.

(** An Erc20DeployedEvent, with three strings of any length up to [u32::MAX], decodes to itself
    if the strings are UTF-8; and is refused if one is not, which the contract allows. *)
Theorem erc20_deployed_decodes sig ev :
  0 ≤ ede_decimals ev ≤ U8_MAX → is_u64 (ede_event_nonce ev) →
  Forall (λ s, blen (to_bytes s) ≤ U32_MAX) [ede_cosmos_denom ev; ede_name ev; ede_symbol ev] →
  erc20_deployed_from_log
    (mkLog [sig; addr_word (ede_erc20_address ev)] (erc20_deployed_data ev) (Some (ede_block_height ev))) =
  Done (if texts_valid ev then Ok ev else Err not_utf8).
Proof. apply erc20_deployed_log_ok. Qed.
End Decoders.


Section Witnesses.
#[local] Existing Instance concrete_ext.
#[local] Existing Instance concrete_laws.
#[local] Existing Instance checked_build.

Definition sample_members : list (Z * EthAddress) := [(3000000000, eth 1); (1294967295, eth 2)].

Ltac small :=
  lazymatch goal with
  | |- Forall _ _ => repeat constructor; vm_compute; discriminate
  | |- _ ≤ _ => vm_compute; discriminate
  | |- _ => split; vm_compute; discriminate
  end.

Lemma valset_updated_decodes_witness :
  valset_updated_from_log (mkLog [word 1; word 4]
    (valset_updated_data 9 7 (Some (eth 3)) sample_members 2) (Some 1000)) =
  Done (Ok {| vue_valset_nonce := 4; vue_event_nonce := 9; vue_block_height := 1000;
              vue_reward_amount := 7; vue_reward_token := Some (eth 3);
              vue_members := as_members sample_members |}).
Proof.
  apply (valset_updated_decodes (word 1) 4 9 7 (Some (eth 3)) sample_members 1000);
    [small | small | small | | small | small].
  intros E. apply (f_equal (from_option (λ a, be (address_as_bytes a)) 0)) in E. vm_compute in E. discriminate E.
Defined.

Lemma valset_powers_length_ignored_witness :
  decode_data_bytes (valset_updated_data 9 7 None sample_members 77) =
  Done (Ok {| vdb_event_nonce := 9; vdb_reward_amount := 7; vdb_reward_token := None;
              vdb_members := as_members sample_members |}).
Proof.
  apply valset_powers_length_ignored; [small | small | intros E; discriminate E | small | small | small].
Defined.

Lemma valset_decode_bounded_witness :
  192 + 32 * 2 ≤ blen (valset_updated_data 9 7 None sample_members 2).
Proof.
  apply (valset_decode_bounded (valset_updated_data 9 7 None sample_members 2)
    {| vdb_event_nonce := 9; vdb_reward_amount := 7; vdb_reward_token := None;
       vdb_members := as_members sample_members |}); [small | vm_refl].
Defined.

Lemma batch_executed_decodes_witness :
  batch_executed_from_log (mkLog [word 1; word 12; addr_word (eth 5)] (word 33) (Some 1000)) =
  Done (Ok {| tbe_batch_nonce := 12; tbe_block_height := 1000; tbe_erc20 := eth 5; tbe_event_nonce := 33 |}).
Proof. refine (eq_trans (batch_executed_decodes (word 1) 12 (eth 5) 33 1000 _ _) _); [small|small|vm_refl]. Defined.

Lemma send_to_cosmos_decodes_witness :
  send_to_cosmos_from_log (mkLog [word 1; addr_word (eth 5); addr_word (eth 6); pad12 (be_split 20 8)]
    (word 100 ++ word 33) (Some 1000)) =
  Done (Ok {| stc_erc20 := eth 5; stc_sender := eth 6; stc_destination := cosmos 8; stc_amount := 100;
              stc_event_nonce := 33; stc_block_height := 1000 |}).
Proof.
  refine (eq_trans (send_to_cosmos_decodes (word 1) (eth 5) (eth 6) (replicate 12 x00) (be_split 20 8) (cosmos 8)
    100 33 1000 _ _ _ _ _) _); [reflexivity | reflexivity | reflexivity | small | small | vm_refl].
Defined.

Definition sample_erc20_deployed : Erc20DeployedEvent := {|
  ede_cosmos_denom := "footoken"; ede_erc20_address := eth 5;
  ede_name := "a token with a name of more than one word"; ede_symbol := ""; ede_decimals := 6;
  ede_event_nonce := 21; ede_block_height := 1000 |}.
Lemma erc20_deployed_decodes_witness :
  erc20_deployed_from_log (mkLog [word 1; addr_word (eth 5)] (erc20_deployed_data sample_erc20_deployed)
    (Some 1000)) = Done (Ok sample_erc20_deployed).
Proof.
  apply (erc20_deployed_decodes (word 1) sample_erc20_deployed); [small|small|].
  repeat constructor; vm_compute; discriminate.
Defined.
End Witnesses.
