(* ===== verification/Messages.v ===== *)
(** * What is signed and what is sent: ethereum_gravity's encoders

    message_signatures.rs (the messages validators sign), the payload encoders of logic_call.rs,
    submit_batch.rs and valset_update.rs, and the pure helpers of utils.rs. The ABI encoder is
    [clarity]'s; the model fixes what it is given. *)

From S2P Require Import Prelude Bytes Proto External Float Instances Types Signatures Valset.
From S2P Require Import ValsetTheory Batches LogicCall.
From Stdlib Require Import Strings.Byte.

Record GasCost := mkGasCost { cost_gas : Uint256; cost_gas_price : Uint256 }.

Section Messages.
Context `{X : Ext} `{BD : Build}.

(** ** utils.rs *)

(** [lower_bytes[start_index..].copy_from_slice(val)] on [lower_bytes: [u8; width]], read back as a
    big-endian number. *)
Definition low_bytes (width : nat) (val : bytes) : eval Z :=
  let! start_index := u64_sub (Z.of_nat width) (blen val) in
  let lower_bytes := replicate width x00 in
  let! tail := slice_from lower_bytes start_index in
  let! _ := rassert (blen tail =? blen val) "copy_from_slice: source slice length does not match" in
  Done (be (take (Z.to_nat start_index) lower_bytes ++ val)).

Definition downcast_uint256 (input : Uint256) : eval (option Z) :=
  if U64_MAX <=? input then Done None
  else let! v := low_bytes 8 (u256_to_bytes_be input) in Done (Some v).

Definition downcast_to_u128 (input : Uint256) : eval (option Z) :=
  if U128_MAX <=? input then Done None
  else let! v := low_bytes 16 (u256_to_bytes_be input) in Done (Some v).

Definition get_total (self : GasCost) : eval Uint256 :=
  u256_mul (cost_gas self) (cost_gas_price self).

Definition encode_valset_struct (valset : Valset) : Token :=
  let '(addresses, powers) := filter_empty_addresses valset in
  let nonce := valset_nonce valset in
  let reward_amount := valset_reward_amount valset in
  let reward_token := default ZERO_ADDRESS (valset_reward_token valset) in
  TokenStruct [token_of_addresses addresses; token_of_u64s powers; token_of_u64 nonce;
               token_of_u256 reward_amount; token_of_address reward_token].

(** ** message_signatures.rs *)

Definition encode_valset_confirm (gravity_id : string) (valset : Valset) : bytes :=
  let '(eth_addresses, powers) := filter_empty_addresses valset in
  let reward_token := match valset_reward_token valset with Some v => v | None => ZERO_ADDRESS end in
  encode_tokens [TokenFixedString gravity_id; TokenFixedString "checkpoint";
                 token_of_u64 (valset_nonce valset); token_of_addresses eth_addresses;
                 token_of_u64s powers; token_of_u256 (valset_reward_amount valset);
                 token_of_address reward_token].

Definition encode_valset_confirm_hashed (gravity_id : string) (valset : Valset) : bytes :=
  get_ethereum_msg_hash (encode_valset_confirm gravity_id valset).

Definition encode_tx_batch_confirm (gravity_id : string) (batch : TransactionBatch) : eval bytes :=
  let! '(amounts, destinations, fees) := get_checkpoint_values batch in
  Done (encode_tokens [TokenFixedString gravity_id; TokenFixedString "transactionBatch";
                       amounts; destinations; fees; token_of_u64 (batch_nonce batch);
                       token_of_address (batch_token_contract batch);
                       token_of_u64 (batch_timeout batch)]).

Definition encode_tx_batch_confirm_hashed (gravity_id : string) (batch : TransactionBatch) : eval bytes :=
  let! digest := encode_tx_batch_confirm gravity_id batch in
  Done (get_ethereum_msg_hash digest).

(** The two vectors each of the loops over the transfers and the fees of a call pushes to. *)
Definition amounts_and_contracts (items : list Erc20Token) : list Token * list EthAddress :=
  foldl (λ '(amounts, contracts) item,
    (amounts ++ [TokenUint (erc20_amount item)], contracts ++ [erc20_token_contract_address item]))
    ([], []) items.

Definition encode_logic_call_confirm (gravity_id : string) (call : LogicCall) : bytes :=
  let '(transfer_amounts, transfer_token_contracts) := amounts_and_contracts (call_transfers call) in
  let '(fee_amounts, fee_token_contracts) := amounts_and_contracts (call_fees call) in
  encode_tokens [TokenFixedString gravity_id; TokenFixedString "logicCall";
                 TokenDynamic transfer_amounts; token_of_addresses transfer_token_contracts;
                 TokenDynamic fee_amounts; token_of_addresses fee_token_contracts;
                 token_of_address (call_logic_contract_address call);
                 TokenUnboundedBytes (call_payload call); token_of_u64 (call_timeout call);
                 TokenBytes (call_invalidation_id call); token_of_u64 (call_invalidation_nonce call)].

Definition encode_logic_call_confirm_hashed (gravity_id : string) (call : LogicCall) : bytes :=
  get_ethereum_msg_hash (encode_logic_call_confirm gravity_id call).

(** ** Payloads *)

Definition update_valset_call : string :=
  "updateValset((address[],uint256[],uint256,uint256,address),(address[],uint256[],uint256,uint256,address),uint8[],bytes32[],bytes32[])".
Definition submit_batch_call : string :=
  "submitBatch((address[],uint256[],uint256,uint256,address),uint8[],bytes32[],bytes32[],uint256[],address[],uint256[],uint256,address,uint256)".
Definition submit_logic_call_call : string :=
  "submitLogicCall((address[],uint256[],uint256,uint256,address),uint8[],bytes32[],bytes32[],(uint256[],address[],uint256[],address[],address,bytes,uint256,bytes32,uint256))".

Definition encode_valset_update_payload (new_valset old_valset : Valset)
    (confirms : list ValsetConfirmResponse) (gravity_id : string) : eval (result bytes GravityError) :=
  let new_valset_token := encode_valset_struct new_valset in
  let old_valset_token := encode_valset_struct old_valset in
  let hash := encode_valset_confirm_hashed gravity_id new_valset in
  let? sig_data := order_sigs old_valset hash confirms in
  let sig_arrays := to_arrays sig_data in
  let tokens := [new_valset_token; old_valset_token; arr_v sig_arrays; arr_r sig_arrays; arr_s sig_arrays] in
  let! payload := unwrap (encode_call update_valset_call tokens) in
  Done (Ok payload).

Definition encode_batch_payload (current_valset : Valset) (batch : TransactionBatch)
    (confirms : list BatchConfirmResponse) (gravity_id : string) : eval (result bytes GravityError) :=
  let current_valset_token := encode_valset_struct current_valset in
  let new_batch_nonce := batch_nonce batch in
  let! hash := encode_tx_batch_confirm_hashed gravity_id batch in
  let? sig_data := order_sigs current_valset hash confirms in
  let sig_arrays := to_arrays sig_data in
  let! '(amounts, destinations, fees) := get_checkpoint_values batch in
  let tokens := [current_valset_token; arr_v sig_arrays; arr_r sig_arrays; arr_s sig_arrays;
                 amounts; destinations; fees; token_of_u64 new_batch_nonce;
                 token_of_address (batch_token_contract batch); token_of_u64 (batch_timeout batch)] in
  let! payload := unwrap (encode_call submit_batch_call tokens) in
  Done (Ok payload).

Definition encode_logic_call_payload (current_valset : Valset) (call : LogicCall)
    (confirms : list LogicCallConfirmResponse) (gravity_id : string) : eval (result bytes GravityError) :=
  let current_valset_token := encode_valset_struct current_valset in
  let hash := encode_logic_call_confirm_hashed gravity_id call in
  let? sig_data := order_sigs current_valset hash confirms in
  let sig_arrays := to_arrays sig_data in
  let '(transfer_amounts, transfer_token_contracts) := amounts_and_contracts (call_transfers call) in
  let '(fee_amounts, fee_token_contracts) := amounts_and_contracts (call_fees call) in
  let struct_tokens :=
    [TokenDynamic transfer_amounts; token_of_addresses transfer_token_contracts;
     TokenDynamic fee_amounts; token_of_addresses fee_token_contracts;
     token_of_address (call_logic_contract_address call); TokenUnboundedBytes (call_payload call);
     token_of_u64 (call_timeout call); TokenBytes (call_invalidation_id call);
     token_of_u64 (call_invalidation_nonce call)] in
  let tokens := [current_valset_token; arr_v sig_arrays; arr_r sig_arrays; arr_s sig_arrays;
                 TokenStruct struct_tokens] in
  let! payload := unwrap (encode_call submit_logic_call_call tokens) in
  Done (Ok payload).

(** ** What they guarantee *)

Lemma filter_empty_addresses_eq vs :
  filter_empty_addresses vs =
  ((λ m, default address_default (member_eth_address m)) <$> valset_members vs,
   member_power <$> valset_members vs).
Proof.
  unfold filter_empty_addresses. induction (valset_members vs) as [|m ms IH] using rev_ind; [done|].
  rewrite foldl_app, IH, !fmap_app. simpl. by destruct (member_eth_address m).
Qed.

(** The signatures of a payload: parallel to the addresses and powers of the set it carries, each
    blank or valid for the message and made by the address at its place, by enough power. *)
Definition signatures_for {T} `{!Confirm T} (vs : Valset) (hash : bytes) (confirms : list T)
    (out : list GravitySignature) : Prop :=
  filter_empty_addresses vs = (gsig_eth_address <$> out, gsig_power <$> out) ∧
  percent_threshold ≤ power_where (voted confirms) (valset_members vs) ∧
  Forall (λ g, (gsig_v g = 0 ∧ gsig_r g = 0 ∧ gsig_s g = 0) ∨
    ∃ c, c ∈ confirms ∧ get_eth_address c = gsig_eth_address g ∧
      gsig_v g = sig_v (get_signature c) ∧ gsig_r g = sig_r (get_signature c) ∧
      gsig_s g = sig_s (get_signature c) ∧
      signature_recover (get_signature c) hash = Ok (gsig_eth_address g)) out.

Lemma order_sigs_signatures {T} `{!Confirm T} vs hash (confirms : list T) out :
  powers_ok (valset_members vs) → order_sigs vs hash confirms = Done (Ok out) →
  signatures_for vs hash confirms out.
Proof.
  intros Hok H. assert (confirms ≠ []) as Hs by (by destruct confirms).
  pose proof (order_sigs_valid _ _ _ _ Hs H) as Hv. rewrite order_sigs_eq in H by done.
  destruct (Z.ltb_spec (power_where (voted confirms) (valset_members vs)) percent_threshold); [done|].
  injection H as <-. split; [|split; [done|]].
  - rewrite filter_empty_addresses_eq, <- !list_fmap_compose. f_equal; apply list_fmap_ext; intros _ m _; simpl.
    + by rewrite ordered_signature_address.
    + by rewrite ordered_signature_power.
  - apply Forall_fmap. eapply Forall_impl; [exact Hv|]. intros m Hm. simpl.
    unfold ordered_signature. destruct (member_eth_address m) as [a|] eqn:Ea; [|by left].
    destruct (last_confirm confirms a) as [c|] eqn:Ec; [|by left]. right. exists c. simpl.
    pose proof (last_confirm_address _ _ _ Ec) as Hca. destruct (Hm a c Ea Ec) as [_ Hr].
    split_and!; try done. unfold last_confirm in Ec. apply last_Some_elem_of in Ec.
    by apply list_elem_of_filter in Ec as [_ ?].
Qed.

Lemma low_bytes_ok width val :
  (width ≤ 16)%nat → (length val ≤ width)%nat → low_bytes width val = Done (be val).
Proof.
  intros Hw Hv. unfold low_bytes, blen.
  assert (u64_sub (Z.of_nat width) (Z.of_nat (length val)) = Done (Z.of_nat (width - length val))) as ->.
  { unfold u64_sub. rewrite u64_wrap_ok by (unfold is_u64, U64_MAX; lia). f_equal. lia. }
  cbn [eval_bind]. unfold slice_from, blen. rewrite length_replicate.
  rewrite (proj2 (Z.ltb_ge _ _)) by lia. cbn [eval_bind].
  rewrite length_drop, length_replicate, (proj2 (Z.eqb_eq _ _)) by lia. cbn [rassert eval_bind].
  f_equal. rewrite be_app, Nat2Z.id, take_replicate, Nat.min_l by lia.
  assert (∀ n, be (replicate n x00) = 0) as Hz.
  { clear. induction n as [|n IH]; [done|]. rewrite replicate_S_end, be_app, IH. done. }
  by rewrite Hz.
Qed.

(** The bytes of a number that fits, read back. *)
Lemma low_bytes_be `{XL : !ExtLaws X} width z :
  (0 < width ≤ 16)%nat → 0 ≤ z < 256 ^ Z.of_nat width → low_bytes width (u256_to_bytes_be z) = Done z.
Proof.
  intros Hw Hz. destruct (Z.eq_dec z 0) as [->|].
  - rewrite law_u256_to_bytes_be_zero, low_bytes_ok by (simpl; lia). done.
  - destruct (law_u256_to_bytes_be z width) as [Hl Hb]; [lia|]. rewrite low_bytes_ok by lia. by rewrite Hb.
Qed.
Lemma downcast_uint256_eq `{XL : !ExtLaws X} z :
  0 ≤ z → downcast_uint256 z = Done (if z <? U64_MAX then Some z else None).
Proof.
  intros Hz. unfold downcast_uint256. rewrite Z.leb_antisym. destruct (Z.ltb_spec z U64_MAX); [|done].
  simpl. rewrite low_bytes_be; [done|lia|]. change (256 ^ Z.of_nat 8) with (2 ^ 64). unfold U64_MAX in *. lia.
Qed.
Lemma downcast_to_u128_eq `{XL : !ExtLaws X} z :
  0 ≤ z → downcast_to_u128 z = Done (if z <? U128_MAX then Some z else None).
Proof.
  intros Hz. unfold downcast_to_u128. rewrite Z.leb_antisym. destruct (Z.ltb_spec z U128_MAX); [|done].
  simpl. rewrite low_bytes_be; [done|lia|]. change (256 ^ Z.of_nat 16) with (2 ^ 128). unfold U128_MAX in *. lia.
Qed.

(** [downcast_uint256] is exact below [u64::MAX] and refuses everything from [u64::MAX] on, that
    number included; it never panics. *)
Theorem downcast_uint256_exact `{XL : !ExtLaws X} z :
  0 ≤ z → downcast_uint256 z = Done (if z <? U64_MAX then Some z else None).
Proof. apply downcast_uint256_eq. Qed.

(** A validator set update carries both sets and signature arrays that are parallel to the
    {e old} set, over the checkpoint of the {e new} one. *)
Theorem valset_update_payload_sound new_valset old_valset confirms gravity_id payload :
  powers_ok (valset_members old_valset) →
  encode_valset_update_payload new_valset old_valset confirms gravity_id = Done (Ok payload) →
  ∃ out, signatures_for old_valset (encode_valset_confirm_hashed gravity_id new_valset) confirms out ∧
    encode_call update_valset_call
      [encode_valset_struct new_valset; encode_valset_struct old_valset;
       token_of_u256s (gsig_v <$> out); token_of_u256s (gsig_r <$> out);
       token_of_u256s (gsig_s <$> out)] = Ok payload.
Proof.
  intros Hok H. unfold encode_valset_update_payload in H.
  apply try_bind_Ok in H as (out & Ho & H). inv_bind. subst. exists out.
  split; [by apply order_sigs_signatures|]. by rewrite to_arrays_eq in *.
Qed.

(** A batch submission carries signature arrays parallel to the current set, over the batch's
    own checkpoint, and the batch's amounts, destinations and fees in transaction order. *)
Theorem batch_payload_sound current_valset batch confirms gravity_id payload :
  powers_ok (valset_members current_valset) →
  encode_batch_payload current_valset batch confirms gravity_id = Done (Ok payload) →
  ∃ out hash, encode_tx_batch_confirm_hashed gravity_id batch = Done hash ∧
    signatures_for current_valset hash confirms out ∧
    encode_call submit_batch_call
      [encode_valset_struct current_valset; token_of_u256s (gsig_v <$> out);
       token_of_u256s (gsig_r <$> out); token_of_u256s (gsig_s <$> out);
       TokenDynamic ((λ t, TokenUint (erc20_amount (btx_erc20_token t))) <$> batch_transactions batch);
       token_of_addresses (btx_destination <$> batch_transactions batch);
       TokenDynamic ((λ t, TokenUint (erc20_amount (btx_erc20_fee t))) <$> batch_transactions batch);
       token_of_u64 (batch_nonce batch); token_of_address (batch_token_contract batch);
       token_of_u64 (batch_timeout batch)] = Ok payload.
Proof.
  intros Hok H. unfold encode_batch_payload in H.
  apply eval_bind_Done in H as (hash & Hh & H). apply try_bind_Ok in H as (out & Ho & H).
  rewrite get_checkpoint_values_eq in H. cbn [eval_bind] in H. inv_bind. subst.
  exists out, hash. split_and!; [done|by apply order_sigs_signatures|]. by rewrite to_arrays_eq in *.
Qed.
End Messages.

Section Witnesses.
#[local] Existing Instance concrete_ext.
#[local] Existing Instance concrete_laws.
#[local] Existing Instance checked_build.

Lemma downcast_uint256_exact_witness : downcast_uint256 U64_MAX = Done None.
Proof. apply downcast_uint256_exact. vm_compute. discriminate. Defined.

Definition update_confirms : list ValsetConfirmResponse :=
  (λ k, {| vcr_orchestrator := addr k; vcr_eth_address := eth_key_to_address k; vcr_nonce := 4;
           vcr_eth_signature := sign_ethereum_msg k (encode_valset_confirm_hashed "id" other_valset) |})
  <$> [1; 2].
Definition update_payload : bytes :=
  match encode_valset_update_payload other_valset sample_valset update_confirms "id" with
  | Done (Ok p) => p | _ => [] end.
Lemma valset_update_payload_sound_witness :
  ∃ out, signatures_for sample_valset (encode_valset_confirm_hashed "id" other_valset) update_confirms out.
Proof.
  destruct (valset_update_payload_sound other_valset sample_valset update_confirms "id" update_payload)
    as (out & H & _); [apply sample_powers | vm_refl | by exists out].
Defined.

Definition batch_hash : bytes :=
  match encode_tx_batch_confirm_hashed "id" sample_batch with Done h => h | Panic _ => [] end.
Definition batch_confirms : list BatchConfirmResponse :=
  (λ k, {| bcr_nonce := 2; bcr_orchestrator := addr k; bcr_token_contract := addr 4;
           bcr_ethereum_signer := eth_key_to_address k;
           bcr_eth_signature := sign_ethereum_msg k batch_hash |}) <$> [1; 3].
Definition batch_payload : bytes :=
  match encode_batch_payload sample_valset sample_batch batch_confirms "id" with
  | Done (Ok p) => p | _ => [] end.
Lemma batch_payload_sound_witness :
  ∃ out hash, encode_tx_batch_confirm_hashed "id" sample_batch = Done hash ∧
    signatures_for sample_valset hash batch_confirms out.
Proof.
  destruct (batch_payload_sound sample_valset sample_batch batch_confirms "id" batch_payload)
    as (out & hash & H1 & H2 & _); [apply sample_powers | vm_refl | by exists out, hash].
Defined.
End Witnesses.
