(* ===== verification/Acceptance.v ===== *)
(** * From the relayer to the contract

    The payloads that Messages.v builds, executed by the contract of Contract.v: when the contract
    accepts them, and when it reverts although the relayer's own checks have passed. *)

From S2P Require Import Prelude Bytes Proto External Evm Float Instances Contract ContractTheory.
From S2P Require Import Types Signatures Valset ValsetTheory Batches LogicCall Messages.
From Stdlib Require Import Strings.Byte.

(** ** The same sets, hashes and calls on both sides *)

Section Calldata.
Context `{X : Ext} `{VM : !Evm} `{VL : !EvmLaws VM} `{BD : Build}.

Definition args_of_valset (vs : Valset) : ValsetArgs :=
  let '(addresses, powers) := filter_empty_addresses vs in
  mkValsetArgs addresses powers (valset_nonce vs) (valset_reward_amount vs)
    (default ZERO_ADDRESS (valset_reward_token vs)).
Definition args_of_call (c : LogicCall) : LogicCallArgs := {|
  transferAmounts := erc20_amount <$> call_transfers c;
  transferTokenContracts := erc20_token_contract_address <$> call_transfers c;
  feeAmounts := erc20_amount <$> call_fees c;
  feeTokenContracts := erc20_token_contract_address <$> call_fees c;
  logicContractAddress := call_logic_contract_address c;
  payload := call_payload c;
  timeOut := call_timeout c;
  invalidationId := bytes32 (call_invalidation_id c);
  invalidationNonce := call_invalidation_nonce c |}.
Definition id_word (gravity_id : string) : Z := bytes32 (to_bytes gravity_id).

(** The bytes that call a function of the contract with these arguments. *)
Definition words (l : list Z) : abi_value := VArray (VWord <$> l).
Definition addresses (l : list EthAddress) : abi_value := VArray (VAddress <$> l).
Definition valset_value (a : ValsetArgs) : abi_value :=
  VTuple [addresses (validators a); words (powers a); VWord (valsetNonce a); VWord (rewardAmount a);
          VAddress (rewardToken a)].
Definition call_value (a : LogicCallArgs) : abi_value :=
  VTuple [words (transferAmounts a); addresses (transferTokenContracts a); words (feeAmounts a);
          addresses (feeTokenContracts a); VAddress (logicContractAddress a); VBytes (payload a);
          VWord (timeOut a); VWord (invalidationId a); VWord (invalidationNonce a)].
Definition calldata (c : GravityCall) : option bytes :=
  match c with
  | UpdateValset new current v r s =>
      Some (selector update_valset_call ++
        abi_encode [valset_value new; valset_value current; words v; words r; words s])
  | SubmitBatch current v r s amounts destinations fees nonce token timeout =>
      Some (selector submit_batch_call ++
        abi_encode [valset_value current; words v; words r; words s; words amounts; addresses destinations;
                    words fees; VWord nonce; VAddress token; VWord timeout])
  | SubmitLogicCall current v r s args =>
      Some (selector submit_logic_call_call ++
        abi_encode [valset_value current; words v; words r; words s; call_value args])
  | SendToCosmos _ _ _ | DeployERC20 _ => None
  end.

Lemma valset_struct_value vs : token_value (encode_valset_struct vs) = valset_value (args_of_valset vs).
Proof.
  unfold encode_valset_struct, args_of_valset. destruct (filter_empty_addresses vs) as [a p].
  rewrite law_value_struct. cbn [fmap list_fmap]. rewrite law_value_addresses, law_value_u64s,
    law_value_u64, law_value_u256, law_value_address. done.
Qed.

Lemma checkpoint_names :
  checkpoint_name = bytes32 (to_bytes "checkpoint") ∧
  transaction_batch_name = bytes32 (to_bytes "transactionBatch") ∧
  logic_call_name = bytes32 (to_bytes "logicCall").
Proof. split_and!; vm_compute; reflexivity. Qed.

(** What the Rust code hashes is the contract's checkpoint. *)
Lemma valset_checkpoint gravity_id vs : (String.length gravity_id ≤ 32)%nat →
  keccak256 (encode_valset_confirm gravity_id vs) = makeCheckpoint (args_of_valset vs) (id_word gravity_id).
Proof.
  intros Hid. unfold encode_valset_confirm, makeCheckpoint, args_of_valset.
  destruct (filter_empty_addresses vs) as [a p]. rewrite law_encode_tokens. cbn [fmap list_fmap].
  rewrite !law_value_fixed_string, law_value_u64, law_value_addresses, law_value_u64s, law_value_u256,
    law_value_address by (done || (simpl; lia)).
  destruct checkpoint_names as (-> & _). simpl. by destruct (valset_reward_token vs).
Qed.

Lemma dynamic_uints l : token_value (TokenDynamic (TokenUint <$> l)) = words l.
Proof.
  rewrite law_value_dynamic, <- list_fmap_compose. unfold words. f_equal.
  apply list_fmap_ext. intros _ z _. apply law_value_uint.
Qed.

Definition batch_amounts (b : TransactionBatch) : list Z :=
  (λ t, erc20_amount (btx_erc20_token t)) <$> batch_transactions b.
Definition batch_destinations (b : TransactionBatch) : list EthAddress := btx_destination <$> batch_transactions b.
Definition batch_fees (b : TransactionBatch) : list Z :=
  (λ t, erc20_amount (btx_erc20_fee t)) <$> batch_transactions b.

Lemma batch_vectors b : get_checkpoint_values b =
  Done (TokenDynamic (TokenUint <$> batch_amounts b), token_of_addresses (batch_destinations b),
        TokenDynamic (TokenUint <$> batch_fees b)).
Proof.
  rewrite get_checkpoint_values_eq. unfold batch_amounts, batch_fees.
  by rewrite <- !list_fmap_compose.
Qed.

Definition contract_batch_checkpoint (gravity_id : string) (b : TransactionBatch) : bytes :=
  batch_checkpoint (id_word gravity_id) (batch_amounts b) (batch_destinations b) (batch_fees b)
    (batch_nonce b) (batch_token_contract b) (batch_timeout b).
Lemma batch_checkpoint_eq gravity_id b : (String.length gravity_id ≤ 32)%nat →
  ∃ m, encode_tx_batch_confirm gravity_id b = Done m ∧ keccak256 m = contract_batch_checkpoint gravity_id b.
Proof.
  intros Hid. unfold encode_tx_batch_confirm. rewrite batch_vectors. cbn [eval_bind]. eexists. split; [done|].
  unfold contract_batch_checkpoint, batch_checkpoint. rewrite law_encode_tokens. cbn [fmap list_fmap].
  rewrite !law_value_fixed_string, !dynamic_uints, law_value_addresses, !law_value_u64, law_value_address
    by (done || (simpl; lia)).
  by destruct checkpoint_names as (_ & -> & _).
Qed.

Lemma amounts_and_contracts_eq items :
  amounts_and_contracts items =
  (TokenUint <$> (erc20_amount <$> items), erc20_token_contract_address <$> items).
Proof.
  unfold amounts_and_contracts. induction items as [|i items IH] using rev_ind; [done|].
  by rewrite foldl_app, IH, !fmap_app.
Qed.

Lemma logic_call_checkpoint_eq gravity_id c :
  (String.length gravity_id ≤ 32)%nat → (length (call_invalidation_id c) ≤ 32)%nat →
  keccak256 (encode_logic_call_confirm gravity_id c) = logic_call_checkpoint (id_word gravity_id) (args_of_call c).
Proof.
  intros Hid Hinv. unfold encode_logic_call_confirm. rewrite !amounts_and_contracts_eq.
  unfold logic_call_checkpoint. rewrite law_encode_tokens. cbn [fmap list_fmap].
  rewrite !law_value_fixed_string, !dynamic_uints, !law_value_addresses, !law_value_u64, law_value_address,
    law_value_unbounded, law_value_bytes by (done || (simpl; lia)).
  by destruct checkpoint_names as (_ & _ & ->).
Qed.
End Calldata.

(** ** The contract's count of the signatures *)

Section Signatures.
Context `{X : Ext} `{VM : !Evm} `{VL : !EvmLaws VM} `{BD : Build}.

(** The power behind the signatures that are not blank. *)
Definition signed_power (gs : list GravitySignature) : Z :=
  zsum ((λ g, if gsig_v g =? 0 then 0 else gsig_power g) <$> gs).
Definition verified (theHash : bytes) (g : GravitySignature) : Prop :=
  gsig_v g = 0 ∨ verifySig (gsig_eth_address g) theHash (gsig_v g) (gsig_r g) (gsig_s g) = true.

Lemma signed_power_nonneg gs : Forall (λ g, 0 ≤ gsig_power g) gs → 0 ≤ signed_power gs.
Proof.
  intros H. apply zsum_nonneg, Forall_fmap. eapply Forall_impl; [exact H|]. intros g Hg. simpl.
  by destruct (gsig_v g =? 0).
Qed.

Lemma at_index_middle (f : GravitySignature → Z) pre g post :
  at_index (f <$> pre ++ g :: post) (length pre) = Ok (f g).
Proof. unfold at_index. by rewrite list_lookup_fmap, list_lookup_middle. Qed.

(** The loop, in the middle of the arrays: it stops above the threshold exactly if the power signed
    in all is above it. *)
Lemma cumulative_power_spec theHash threshold all pre suf acc :
  all = pre ++ suf → Forall (verified theHash) suf → Forall (λ g, 0 ≤ gsig_power g) suf →
  0 ≤ acc → acc + signed_power suf < 2 ^ 256 →
  ∃ p, cumulative_power (length pre) (gsig_eth_address <$> suf) (gsig_power <$> all) (gsig_v <$> all)
      (gsig_r <$> all) (gsig_s <$> all) theHash threshold acc = Ok p ∧
    acc ≤ p ≤ acc + signed_power suf ∧ (threshold < acc + signed_power suf → threshold < p).
Proof.
  revert pre acc. induction suf as [|g suf IH]; intros pre acc Hall Hv Hp Hacc Hb.
  { exists acc. unfold signed_power. simpl. split; [done|]. lia. }
  apply Forall_cons in Hv as [Hg Hv]. apply Forall_cons in Hp as [Hpow Hp].
  pose proof (signed_power_nonneg suf Hp) as Hsuf.
  assert (signed_power (g :: suf) = (if gsig_v g =? 0 then 0 else gsig_power g) + signed_power suf) as E by done.
  assert (all = (pre ++ [g]) ++ suf) as Hall' by (by rewrite <- app_assoc).
  assert (S (length pre) = length (pre ++ [g])) as Hlen by (rewrite length_app; simpl; lia).
  cbn [fmap list_fmap cumulative_power]. subst all. rewrite !at_index_middle.
  destruct (Z.eqb_spec (gsig_v g) 0) as [E0|E0].
  - rewrite Hlen. destruct (IH (pre ++ [g]) acc Hall' Hv Hp Hacc) as (p & Hr & Hpb & Ht); [lia|].
    exists p. rewrite E, Z.add_0_l in *. done.
  - destruct Hg as [Hg|Hg]; [done|]. rewrite Hg. unfold word_wrap. rewrite Z.mod_small by lia.
    destruct (Z.ltb_spec threshold (acc + gsig_power g)).
    + exists (acc + gsig_power g). rewrite E. split; [done|]. lia.
    + rewrite Hlen. destruct (IH (pre ++ [g]) (acc + gsig_power g) Hall' Hv Hp) as (p & Hr & Hpb & Ht); [lia|lia|].
      exists p. rewrite E. split; [done|]. lia.
Qed.
End Signatures.

Section Ordered.
Context `{X : Ext} `{XL : !ExtLaws X} `{VM : !Evm} `{VL : !EvmLaws VM} `{BD : Build} {T : Type} `{!Confirm T}.

(** The confirmation was signed the way [sign_ethereum_msg] does. *)
Definition plain_v (c : T) : Prop := sig_v (get_signature c) = 27 ∨ sig_v (get_signature c) = 28.

Lemma ordered_verified checkpoint (confirms : list T) m :
  confirm_valid (keccak256 (signed_message_prefix ++ checkpoint)) confirms m → Forall plain_v confirms →
  verified checkpoint (ordered_signature confirms m) ∧
  (gsig_v (ordered_signature confirms m) =? 0) = negb (voted confirms m).
Proof.
  intros Hm Hv. unfold ordered_signature, voted, verified, verifySig, last_confirm in *.
  destruct (member_eth_address m) as [a|] eqn:Ea; [|by split; [left|]].
  destruct (last (filter _ confirms)) as [c|] eqn:Ec; [|by split; [left|]].
  destruct (Hm a c Ea Ec) as [_ Hr]. simpl.
  assert (plain_v c) as Hc.
  { rewrite Forall_forall in Hv. apply Hv. apply last_Some_elem_of in Ec.
    by apply list_elem_of_filter in Ec as [_ ?]. }
  split.
  - right. apply bool_decide_eq_true. symmetry. by apply law_ecrecover.
  - destruct (Z.eqb_spec (sig_v (get_signature c)) 0); [destruct Hc; lia|done].
Qed.

(** The arrays built from ordered confirmations are parallel to the set, and count as its votes. *)
Lemma ordered_accepted (vs : Valset) checkpoint (confirms : list T) out :
  powers_ok (valset_members vs) → Forall plain_v confirms →
  order_sigs vs (keccak256 (signed_message_prefix ++ checkpoint)) confirms = Done (Ok out) →
  let current := args_of_valset vs in
  well_formed_valset current (gsig_v <$> out) (gsig_r <$> out) (gsig_s <$> out) = true ∧
  ∀ threshold, ∃ p, cumulative_power 0 (validators current) (powers current) (gsig_v <$> out) (gsig_r <$> out)
      (gsig_s <$> out) checkpoint threshold 0 = Ok p ∧
    (threshold <? p) = (threshold <? power_where (voted confirms) (valset_members vs)).
Proof.
  intros Hok Hpv H current. assert (confirms ≠ []) as Hs by (by destruct confirms).
  pose proof (order_sigs_valid _ _ _ _ Hs H) as Hv. rewrite order_sigs_eq in H by done.
  destruct (_ <? percent_threshold); [done|]. injection H as <-.
  set (out := ordered_signature confirms <$> valset_members vs).
  assert (validators current = gsig_eth_address <$> out ∧ powers current = gsig_power <$> out) as [Ha Hp].
  { unfold current, args_of_valset. rewrite filter_empty_addresses_eq. unfold out. simpl.
    rewrite <- !list_fmap_compose. split; apply list_fmap_ext; intros _ m _; simpl.
    - by rewrite ordered_signature_address.
    - by rewrite ordered_signature_power. }
  split.
  { unfold well_formed_valset. by rewrite Ha, Hp, !length_fmap, !Nat.eqb_refl. }
  assert (signed_power out = power_where (voted confirms) (valset_members vs)) as Hsp.
  { unfold signed_power, power_where, out. rewrite <- list_fmap_compose. f_equal.
    apply list_fmap_ext. intros i m Hm. apply list_elem_of_lookup_2 in Hm. simpl.
    rewrite Forall_forall in Hv. destruct (ordered_verified checkpoint confirms m (Hv _ Hm) Hpv) as [_ ->].
    rewrite ordered_signature_power. by destruct (voted confirms m). }
  pose proof (power_where_bound (voted confirms) _ Hok) as Hb. unfold U64_MAX in Hb.
  intros threshold. destruct (cumulative_power_spec checkpoint threshold out [] out 0) as (p & Hc & Hpb & Ht).
  - done.
  - apply Forall_fmap, (Forall_impl _ _ _ Hv). intros m Hm. simpl. by apply ordered_verified.
  - destruct Hok as [Hok _]. apply Forall_fmap, (Forall_impl _ _ _ Hok). intros m Hm. simpl.
    by rewrite ordered_signature_power.
  - done.
  - rewrite Hsp. lia.
  - exists p. rewrite Ha, Hp. split; [exact Hc|]. rewrite Hsp in *.
    destruct (Z.ltb_spec threshold p), (Z.ltb_spec threshold (power_where (voted confirms) (valset_members vs)));
      try done; lia.
Qed.
End Ordered.

(** ** Executing a transaction *)

Section Execution.
Context `{X : Ext} `{VM : !Evm}.

Lemma require_eq {B} b why (f : unit → tx B) s :
  (require b why ≫= f) s = if b then f tt s else Err why.
Proof. by destruct b. Qed.
Lemma get_eq {B} (f : Gravity → tx B) st replies : (tx_get ≫= f) (st, replies) = f st (st, replies).
Proof. done. Qed.
Lemma modify_eq {B} g (f : unit → tx B) st replies : (tx_modify g ≫= f) (st, replies) = f tt (g st, replies).
Proof. done. Qed.
Lemma bind_eq {A B} (m : tx A) (f : A → tx B) s a s' : m s = Ok (a, s') → (m ≫= f) s = f a s'.
Proof. intros H. unfold mbind, tx_bind. by rewrite H. Qed.

Definition no_power {A} : result A string :=
  Err "Submitted validator set signatures do not have enough power."%string.
(** What is left of a transaction once the signatures have been counted. *)
Definition counted {A} (threshold : Z) (r : result Z string) (k : result A string) : result A string :=
  match r with Ok p => if threshold <? p then k else no_power | Err e => Err e end.

Lemma check_eq {B} vals pows v r s theHash threshold (f : unit → tx B) st :
  (checkValidatorSignatures vals pows v r s theHash threshold ≫= f) st =
  counted threshold (cumulative_power 0 vals pows v r s theHash threshold 0) (f tt st).
Proof.
  unfold checkValidatorSignatures, mbind, tx_bind. destruct (cumulative_power _ _ _ _ _ _ _ _ _); [|done].
  cbn. unfold require. by destruct (threshold <? a).
Qed.

(** The calls of other contracts that follow: the transaction reverts if one of them does. *)
Fixpoint calls (n : nat) : tx unit := match n with O => mret tt | S n => external_call;; calls n end.
(** What a transaction still does once its signatures have been counted and its nonce is recorded. *)
Definition settle (n : nat) (e : Z → GravityEvent) : tx unit := calls n;; log_event e.
Definition settle_call (transfers fees : nat) (e : bytes → Z → GravityEvent) : tx unit :=
  calls transfers;; data ← external_call; calls fees;; log_event (e data).

Lemma bind_assoc {A B C} (m : tx A) (f : A → tx B) (h : B → tx C) s :
  ((m ≫= f) ≫= h) s = (m ≫= λ x, f x ≫= h) s.
Proof. unfold mbind, tx_bind. by destruct (m s) as [[a s']|]. Qed.
Lemma bind_ext {A B} (m : tx A) (f h : A → tx B) s : (∀ a s', f a s' = h a s') → (m ≫= f) s = (m ≫= h) s.
Proof. intros H. unfold mbind, tx_bind. destruct (m s) as [[a s']|]; [apply H|done]. Qed.

Lemma transfer_eq {B} token to amount (f : unit → tx B) s :
  (safeTransfer token to amount ≫= f) s = (external_call;; f tt) s.
Proof. unfold safeTransfer. rewrite bind_assoc. by apply bind_ext. Qed.
Lemma calls_snoc {B} n (f : unit → tx B) s : (calls (S n) ≫= f) s = (calls n;; external_call;; f tt) s.
Proof.
  revert s. induction n as [|n IH]; intros s.
  - cbn [calls]. rewrite bind_assoc. transitivity ((external_call;; f tt) s); [by apply bind_ext|done].
  - transitivity ((external_call;; calls (S n) ≫= f) s); [apply bind_assoc|].
    transitivity ((external_call;; calls n;; external_call;; f tt) s); [|symmetry; apply bind_assoc].
    apply bind_ext. intros _ s'. apply IH.
Qed.

Lemma pay_batch_eq {B} token amounts destinations fees total (f : Z → tx B) s :
  length amounts = length destinations → length amounts = length fees →
  0 ≤ total → Forall (λ f, 0 ≤ f) fees → total + zsum fees < 2 ^ 256 →
  (pay_batch token amounts destinations fees total ≫= f) s = (calls (length amounts);; f (total + zsum fees)) s.
Proof.
  revert destinations fees total s. induction amounts as [|x amounts IH]; intros [|d ds] [|y fs] total s; try done.
  - intros _ _ _ _ _. simpl. by rewrite Z.add_0_r.
  - intros [= Hd] [= Hf] Ht Hfs Hb. apply Forall_cons in Hfs as [Hf0 Hfs]. cbn [zsum] in *.
    assert (0 ≤ zsum fs) by (by apply zsum_nonneg).
    cbn [pay_batch length calls]. rewrite !bind_assoc, transfer_eq. apply bind_ext. intros _ s'.
    assert (safe_add total y = Ok (total + y)) as ->.
    { unfold safe_add. destruct (Z.ltb_spec (total + y) (2 ^ 256)); [done|lia]. }
    rewrite bind_assoc. rewrite (bind_eq (tx_lift (Ok (total + y))) _ _ (total + y) s') by done.
    rewrite IH by (done || lia). by rewrite Z.add_assoc.
Qed.

Lemma for_all_transfers_eq {A B} (l : list A) (body : A → tx unit) (f : unit → tx B) s :
  (∀ x (k : unit → tx B) s, (body x ≫= k) s = (external_call;; k tt) s) →
  (for_all l body ≫= f) s = (calls (length l) ≫= f) s.
Proof.
  intros Hb. revert s. induction l as [|x l IH]; intros s; [done|]. cbn [for_all length calls].
  rewrite !bind_assoc, Hb. apply bind_ext. intros _ s'. apply IH.
Qed.

(** Where the next event leaves the contract. *)
Definition logged (e : Z → GravityEvent) (st : Gravity) : Gravity :=
  let n := state_lastEventNonce st + 1 in with_event (e n) (with_lastEventNonce n st).
Lemma log_event_eq e st replies : state_lastEventNonce st + 1 < 2 ^ 256 →
  log_event e (st, replies) = Ok (tt, (logged e st, replies)).
Proof.
  intros H. unfold log_event. rewrite get_eq. unfold safe_add.
  destruct (Z.ltb_spec (state_lastEventNonce st + 1) (2 ^ 256)); [done|lia].
Qed.

(** *** When the calls succeed *)

(** A contract called that just does what it is asked. *)
Definition obliging (n : nat) : list Reply := replicate n (Returns [] []).
Lemma obliging_calls {B} n (f : unit → tx B) st rest : (calls n ≫= f) (st, obliging n ++ rest) = f tt (st, rest).
Proof.
  induction n as [|n IH]; [done|]. cbn [calls]. rewrite bind_assoc. cbn [obliging replicate app].
  by rewrite (bind_eq external_call _ _ [] (st, obliging n ++ rest)).
Qed.

(** A deployment leaves the replies to later calls alone. *)
Lemma log_event_replies e st replies a s' : log_event e (st, replies) = Ok (a, s') → s'.2 = replies.
Proof. unfold log_event. rewrite get_eq. destruct (safe_add _ _); [|done]. by intros [= _ <-]. Qed.
Lemma deploys_replies l st replies a s' : for_all l deployERC20 (st, replies) = Ok (a, s') → s'.2 = replies.
Proof.
  revert st. induction l as [|d l IH]; intros st; [by intros [= _ <-]|]. cbn [for_all]. unfold mbind at 1, tx_bind.
  destruct (deployERC20 d (st, replies)) as [[u [st' replies']]|] eqn:E; [|done].
  apply log_event_replies in E. simpl in E. subst replies'. apply IH.
Qed.
Lemma external_call_Ok st replies data s' :
  external_call (st, replies) = Ok (data, s') → ∃ deploys, replies = Returns data deploys :: s'.2.
Proof.
  destruct replies as [|[|d deploys] replies]; try done. cbn [external_call]. unfold mbind, tx_bind.
  destruct (for_all deploys deployERC20 (st, replies)) as [[u [st' replies']]|] eqn:E; [|done].
  intros [= -> <-]. apply deploys_replies in E. simpl in *. subst. by exists deploys.
Qed.

(** If [n] calls succeed, none of them reverted. *)
Definition none_reverts (n : nat) (replies : list Reply) : Prop :=
  ∀ i, (i < n)%nat → ∃ data deploys, replies !! i = Some (Returns data deploys).
Lemma none_reverts_S n data deploys replies : none_reverts n replies → none_reverts (S n) (Returns data deploys :: replies).
Proof. intros H [|i] Hi; [by exists data, deploys|]. apply H. lia. Qed.
Lemma calls_Ok {B} n (f : unit → tx B) st replies b s' : (calls n ≫= f) (st, replies) = Ok (b, s') →
  none_reverts n replies ∧ ∃ st', f tt (st', drop n replies) = Ok (b, s').
Proof.
  revert st replies. induction n as [|n IH]; intros st replies H; [split; [intros i Hi; lia|by exists st]|].
  cbn [calls] in H. rewrite bind_assoc in H. unfold mbind at 1, tx_bind in H.
  destruct (external_call (st, replies)) as [[data [st' replies']]|] eqn:E; [|done].
  apply external_call_Ok in E as [deploys ->]. destruct (IH _ _ H) as [H1 H2].
  split; [by apply none_reverts_S|done].
Qed.

(** The transaction settles: it ends in [after] if the calls do as asked, and if one reverts, so does
    it. What a called contract can still do is deploy tokens here. *)
Lemma settle_obliging n e st rest : state_lastEventNonce st + 1 < 2 ^ 256 →
  settle n e (st, obliging n ++ rest) = Ok (tt, (logged e st, rest)).
Proof. intros H. unfold settle. rewrite obliging_calls. by apply log_event_eq. Qed.
Lemma settle_none_reverts n e st replies : is_ok (settle n e (st, replies)) = true → none_reverts n replies.
Proof.
  destruct (settle n e (st, replies)) as [[u s']|] eqn:E; [|done]. intros _. by apply calls_Ok in E as [? _].
Qed.
Lemma settle_call_obliging t k e st data rest : state_lastEventNonce st + 1 < 2 ^ 256 →
  settle_call t k e (st, obliging t ++ Returns data [] :: obliging k ++ rest) = Ok (tt, (logged (e data) st, rest)).
Proof.
  intros H. unfold settle_call. rewrite obliging_calls.
  rewrite (bind_eq external_call _ (st, Returns data [] :: obliging k ++ rest) data (st, obliging k ++ rest)) by done.
  rewrite obliging_calls. by apply log_event_eq.
Qed.
Lemma settle_call_none_reverts t k e st replies :
  is_ok (settle_call t k e (st, replies)) = true → none_reverts (t + S k) replies.
Proof.
  destruct (settle_call t k e (st, replies)) as [[u s']|] eqn:E; [|done]. intros _.
  apply calls_Ok in E as [Ht (st1 & E)]. unfold mbind at 1, tx_bind in E.
  destruct (external_call (st1, drop t replies)) as [[data [st2 rest]]|] eqn:E1; [|done].
  apply external_call_Ok in E1 as [deploys E1]. simpl in E1. apply calls_Ok in E as [Hk _].
  intros i Hi. destruct (decide (i < t)%nat) as [Hit|Hit]; [by apply Ht|].
  replace i with (t + (i - t))%nat by lia. rewrite <- lookup_drop, E1. apply (none_reverts_S k _ _ _ Hk). lia.
Qed.

(** ** The three submissions, executed *)

Definition rewards (a : ValsetArgs) : bool :=
  bool_decide (rewardToken a ≠ ZERO_ADDRESS) && negb (rewardAmount a =? 0).
Definition valset_event (new : ValsetArgs) (n : Z) : GravityEvent :=
  ValsetUpdatedEvent (valsetNonce new) n (rewardAmount new) (rewardToken new) (validators new) (powers new).
Definition updated (new : ValsetArgs) (st : Gravity) : Gravity :=
  logged (valset_event new) (with_valset (makeCheckpoint new (state_gravityId st)) (valsetNonce new) st).
Definition count_for (st : Gravity) (current : ValsetArgs) (v r s : list Z) (theHash : bytes) : result Z string :=
  cumulative_power 0 (validators current) (powers current) v r s theHash (state_powerThreshold st) 0.

(** The set given is the stored one, with signatures for all its members. *)
Definition current_set (st : Gravity) (current : ValsetArgs) (v r s : list Z) : Prop :=
  well_formed_valset current v r s = true ∧
  makeCheckpoint current (state_gravityId st) = state_lastValsetCheckpoint st ∧
  state_lastEventNonce st + 1 < 2 ^ 256.

Lemma updateValset_eq sender new current v r s st replies :
  current_set st current v r s → length (validators new) = length (powers new) →
  updateValset sender new current v r s (st, replies) =
  if negb (valsetNonce current <? valsetNonce new) then
    Err "New valset nonce must be greater than the current nonce"%string
  else counted (state_powerThreshold st) (count_for st current v r s (makeCheckpoint new (state_gravityId st)))
    (settle (if rewards new then 1 else 0) (valset_event new)
       (with_valset (makeCheckpoint new (state_gravityId st)) (valsetNonce new) st, replies)).
Proof.
  intros (Hwf & Hset & _) Hl. unfold updateValset. rewrite require_eq. destruct (_ <? _); [|done]. cbn [negb].
  rewrite require_eq, Hl, Nat.eqb_refl, require_eq, Hwf, get_eq, require_eq, Hset.
  rewrite (bool_decide_eq_true_2 _ eq_refl), check_eq. unfold counted, count_for.
  destruct (cumulative_power _ _ _ _ _ _ _ _ _) as [p|]; [|done]. destruct (_ <? p); [|done].
  rewrite modify_eq. fold (rewards new). unfold settle. destruct (rewards new); [|done].
  rewrite transfer_eq. cbn [calls]. rewrite bind_assoc. by apply bind_ext.
Qed.

Lemma submitBatch_eq sender block current v r s amounts destinations fees nonce token timeout st replies :
  current_set st current v r s → length amounts = length destinations → length amounts = length fees →
  Forall (λ f, 0 ≤ f) fees → zsum fees < 2 ^ 256 →
  submitBatch sender block current v r s amounts destinations fees nonce token timeout (st, replies) =
  if negb (lastBatchNonce st token <? nonce) then
    Err "New batch nonce must be greater than the current nonce"%string
  else if negb (block <? timeout) then
    Err "Batch timeout must be greater than the current block height"%string
  else counted (state_powerThreshold st)
    (count_for st current v r s
      (batch_checkpoint (state_gravityId st) amounts destinations fees nonce token timeout))
    (settle (S (length amounts)) (λ n, TransactionBatchExecutedEvent nonce token n)
       (with_lastBatchNonce token nonce st, replies)).
Proof.
  intros (Hwf & Hset & _) Hd Hf Hpos Hsum. unfold submitBatch. rewrite get_eq, require_eq.
  destruct (_ <? nonce); [|done]. rewrite require_eq. destruct (block <? timeout); [|done]. cbn [negb].
  rewrite require_eq, Hwf, require_eq, Hset, (bool_decide_eq_true_2 _ eq_refl), require_eq.
  rewrite <- Hd, <- Hf, Nat.eqb_refl. cbn [andb]. rewrite check_eq. unfold counted, count_for.
  destruct (cumulative_power _ _ _ _ _ _ _ _ _) as [p|]; [|done]. destruct (_ <? p); [|done].
  rewrite modify_eq, pay_batch_eq by (done || lia). unfold settle. rewrite calls_snoc.
  apply bind_ext. intros _ s'. apply transfer_eq.
Qed.

Lemma submitLogicCall_eq sender block current v r s args st replies :
  current_set st current v r s →
  length (transferAmounts args) = length (transferTokenContracts args) →
  length (feeAmounts args) = length (feeTokenContracts args) →
  submitLogicCall sender block current v r s args (st, replies) =
  if negb (block <? timeOut args) then Err "Timed out"%string
  else if negb (lastLogicCallNonce st (invalidationId args) <? invalidationNonce args) then
    Err "New invalidation nonce must be greater than the current nonce"%string
  else counted (state_powerThreshold st)
    (count_for st current v r s (logic_call_checkpoint (state_gravityId st) args))
    (settle_call (length (transferAmounts args)) (length (feeAmounts args))
       (λ data n, LogicCallEvent (invalidationId args) (invalidationNonce args) data n)
       (with_invalidation (invalidationId args) (invalidationNonce args) st, replies)).
Proof.
  intros (Hwf & Hset & _) Ht Hf. unfold submitLogicCall. rewrite require_eq.
  destruct (block <? timeOut args); [|done]. cbn [negb]. rewrite get_eq, require_eq.
  destruct (_ <? invalidationNonce args); [|done]. cbn [negb].
  rewrite require_eq, Hwf, require_eq, Hset, (bool_decide_eq_true_2 _ eq_refl), !require_eq.
  rewrite <- Ht, <- Hf, !Nat.eqb_refl, check_eq. unfold counted, count_for.
  destruct (cumulative_power _ _ _ _ _ _ _ _ _) as [p|]; [|done]. destruct (_ <? p); [|done].
  rewrite modify_eq. unfold settle_call.
  assert (length (zip (transferTokenContracts args) (transferAmounts args)) = length (transferAmounts args)) as <-
    by (rewrite length_zip_with; lia).
  assert (length (zip (feeTokenContracts args) (feeAmounts args)) = length (feeAmounts args)) as <-
    by (rewrite length_zip_with; lia).
  rewrite for_all_transfers_eq by (intros [token amount] k s0; apply transfer_eq).
  apply bind_ext. intros _ s1. unfold functionCall. apply bind_ext. intros data s2.
  apply for_all_transfers_eq. intros [token amount] k s0. apply transfer_eq.
Qed.

(** With arrays of the right length, counting the signatures fails only on one that does not match. *)
Lemma count_for_fails st current v r s theHash e :
  well_formed_valset current v r s = true → count_for st current v r s theHash = Err e →
  e = "Validator signature does not match."%string.
Proof.
  unfold well_formed_valset, count_for. rewrite !andb_true_iff, !Nat.eqb_eq. intros (((Hp & Hv) & Hr) & Hs).
  assert (∀ l i, (i < length l)%nat → ∃ x : Z, at_index l i = Ok x) as Hat.
  { intros l i Hi. unfold at_index. destruct (lookup_lt_is_Some_2 l i Hi) as [x ->]. eauto. }
  assert (∀ suf i acc, (i + length suf = length (validators current))%nat →
    cumulative_power i suf (powers current) v r s theHash (state_powerThreshold st) acc = Err e →
    e = "Validator signature does not match."%string) as H; [|by apply H].
  induction suf as [|a suf IH]; intros i acc Hi; simpl in *; [done|].
  destruct (Hat v i ltac:(lia)) as [vi ->]. destruct (vi =? 0); [by apply IH; lia|].
  destruct (Hat r i ltac:(lia)) as [ri ->], (Hat s i ltac:(lia)) as [si ->].
  destruct (verifySig _ _ _ _ _); [|by intros [= <-]]. destruct (Hat (powers current) i ltac:(lia)) as [pi ->].
  destruct (_ <? _); [done|]. apply IH. lia.
Qed.
End Execution.

(** ** What the contract does with a relayer's transaction *)

Section Decisions.
Context `{X : Ext} `{XL : !ExtLaws X} `{VM : !Evm} `{VL : !EvmLaws VM} `{BD : Build}.

(** The relayer knows the contract: its id, and the set whose checkpoint it stores. *)
Record knows (st : Gravity) (gravity_id : string) (current : Valset) : Prop := mkKnows {
  knows_length : (String.length gravity_id ≤ 32)%nat;
  knows_id : state_gravityId st = id_word gravity_id;
  knows_set : makeCheckpoint (args_of_valset current) (state_gravityId st) = state_lastValsetCheckpoint st;
  knows_powers : powers_ok (valset_members current);
  knows_room : state_lastEventNonce st + 1 < 2 ^ 256;
}.

(** More than the threshold's power of the current set has confirmed. *)
Definition has_power {T} `{!Confirm T} (st : Gravity) (current : Valset) (confirms : list T) : bool :=
  state_powerThreshold st <? power_where (voted confirms) (valset_members current).
Lemma words_value l : token_value (token_of_u256s l) = words l.
Proof. apply law_value_u256s. Qed.

Lemma valset_payload_calldata new current confirms gravity_id payload :
  encode_valset_update_payload new current confirms gravity_id = Done (Ok payload) →
  ∃ out, order_sigs current (encode_valset_confirm_hashed gravity_id new) confirms = Done (Ok out) ∧
    calldata (UpdateValset (args_of_valset new) (args_of_valset current) (gsig_v <$> out) (gsig_r <$> out)
      (gsig_s <$> out)) = Some payload.
Proof.
  intros H. unfold encode_valset_update_payload in H. apply try_bind_Ok in H as (out & Ho & H).
  exists out. split; [done|]. apply eval_bind_Done in H as (p & Hp & [= <-]). apply unwrap_Done in Hp.
  rewrite (law_encode_call _ _ _ Hp), to_arrays_eq. cbn [fmap list_fmap arr_v arr_r arr_s].
  by rewrite !valset_struct_value, !words_value.
Qed.

Lemma batch_payload_calldata current b confirms gravity_id payload :
  encode_batch_payload current b confirms gravity_id = Done (Ok payload) →
  ∃ hash out, encode_tx_batch_confirm_hashed gravity_id b = Done hash ∧
    order_sigs current hash confirms = Done (Ok out) ∧
    calldata (SubmitBatch (args_of_valset current) (gsig_v <$> out) (gsig_r <$> out) (gsig_s <$> out)
      (batch_amounts b) (batch_destinations b) (batch_fees b) (batch_nonce b) (batch_token_contract b)
      (batch_timeout b)) = Some payload.
Proof.
  intros H. unfold encode_batch_payload in H. apply eval_bind_Done in H as (hash & Hh & H).
  apply try_bind_Ok in H as (out & Ho & H). exists hash, out. split_and!; [done|done|].
  rewrite batch_vectors in H. cbn [eval_bind] in H. apply eval_bind_Done in H as (p & Hp & [= <-]).
  apply unwrap_Done in Hp. rewrite (law_encode_call _ _ _ Hp), to_arrays_eq.
  cbn [fmap list_fmap arr_v arr_r arr_s].
  by rewrite valset_struct_value, !words_value, !dynamic_uints, law_value_addresses, !law_value_u64,
    law_value_address.
Qed.

Lemma logic_call_payload_calldata current c confirms gravity_id payload :
  (length (call_invalidation_id c) ≤ 32)%nat →
  encode_logic_call_payload current c confirms gravity_id = Done (Ok payload) →
  ∃ out, order_sigs current (encode_logic_call_confirm_hashed gravity_id c) confirms = Done (Ok out) ∧
    calldata (SubmitLogicCall (args_of_valset current) (gsig_v <$> out) (gsig_r <$> out) (gsig_s <$> out)
      (args_of_call c)) = Some payload.
Proof.
  intros Hinv H. unfold encode_logic_call_payload in H. apply try_bind_Ok in H as (out & Ho & H).
  exists out. split; [done|]. rewrite !amounts_and_contracts_eq in H.
  apply eval_bind_Done in H as (p & Hp & [= <-]). apply unwrap_Done in Hp.
  rewrite (law_encode_call _ _ _ Hp), to_arrays_eq. cbn [fmap list_fmap arr_v arr_r arr_s].
  rewrite valset_struct_value, !words_value, law_value_struct. cbn [fmap list_fmap].
  by rewrite !dynamic_uints, !law_value_addresses, !law_value_u64, law_value_address, law_value_unbounded,
    law_value_bytes.
Qed.

(** A set has as many addresses as powers, and its own nonce. *)
Lemma args_of_valset_fields vs :
  valsetNonce (args_of_valset vs) = valset_nonce vs ∧
  length (validators (args_of_valset vs)) = length (powers (args_of_valset vs)).
Proof. unfold args_of_valset. rewrite filter_empty_addresses_eq. simpl. by rewrite !length_fmap. Qed.

(** Ordered confirmations count as the votes they are. *)
Lemma counted_votes {T} `{!Confirm T} st gravity_id current checkpoint (confirms : list T) out {A}
    (k : result A string) :
  knows st gravity_id current → Forall plain_v confirms →
  order_sigs current (keccak256 (signed_message_prefix ++ checkpoint)) confirms = Done (Ok out) →
  let v := gsig_v <$> out in let r := gsig_r <$> out in let s := gsig_s <$> out in
  current_set st (args_of_valset current) v r s ∧
  counted (state_powerThreshold st) (count_for st (args_of_valset current) v r s checkpoint) k =
  if has_power st current confirms then k else no_power.
Proof.
  intros [Hlen Hid Hset Hok Hroom] Hv Ho. destruct (ordered_accepted _ _ _ _ Hok Hv Ho) as [Hwf Hp].
  split; [by split_and!|]. destruct (Hp (state_powerThreshold st)) as (p & Hcp & Hpow).
  unfold counted, count_for, has_power. by rewrite Hcp, Hpow.
Qed.

(** ** The decisions

    What is left of a transaction that has passed every check: it records its nonce, calls the other
    contracts, and emits its event. *)

Definition update_outcome (new : Valset) (st : Gravity) (replies : list Reply) :=
  let new := args_of_valset new in
  settle (if rewards new then 1 else 0) (valset_event new)
    (with_valset (makeCheckpoint new (state_gravityId st)) (valsetNonce new) st, replies).
Definition batch_outcome (b : TransactionBatch) (st : Gravity) (replies : list Reply) :=
  settle (S (length (batch_transactions b)))
    (λ n, TransactionBatchExecutedEvent (batch_nonce b) (batch_token_contract b) n)
    (with_lastBatchNonce (batch_token_contract b) (batch_nonce b) st, replies).
Definition call_event (c : LogicCall) (data : bytes) (n : Z) : GravityEvent :=
  LogicCallEvent (bytes32 (call_invalidation_id c)) (call_invalidation_nonce c) data n.
Definition call_outcome (c : LogicCall) (st : Gravity) (replies : list Reply) :=
  settle_call (length (call_transfers c)) (length (call_fees c)) (call_event c)
    (with_invalidation (bytes32 (call_invalidation_id c)) (call_invalidation_nonce c) st, replies).

(** With [n] calls to make: if they all do as asked it ends in [after], and it succeeds only if none
    of them reverts. *)
Definition settles (n : nat) (outcome : list Reply → result (unit * (Gravity * list Reply)) string)
    (after : Gravity) : Prop :=
  (∀ rest, outcome (obliging n ++ rest) = Ok (tt, (after, rest))) ∧
  (∀ replies, is_ok (outcome replies) = true → none_reverts n replies).

Definition stale_set {A} : result A string := Err "New valset nonce must be greater than the current nonce"%string.
Definition stale_batch {A} : result A string := Err "New batch nonce must be greater than the current nonce"%string.
Definition late_batch {A} : result A string :=
  Err "Batch timeout must be greater than the current block height"%string.
Definition late_call {A} : result A string := Err "Timed out"%string.
Definition stale_call {A} : result A string :=
  Err "New invalidation nonce must be greater than the current nonce"%string.

Lemma update_settles new st : state_lastEventNonce st + 1 < 2 ^ 256 →
  settles (if rewards (args_of_valset new) then 1 else 0) (update_outcome new st) (updated (args_of_valset new) st).
Proof. intros H. split; [intros rest; refine (settle_obliging _ _ _ rest _); exact H|intros replies; exact (settle_none_reverts _ _ _ replies)]. Qed.

Lemma valset_update_decision st gravity_id current new confirms payload :
  knows st gravity_id current → Forall plain_v confirms →
  encode_valset_update_payload new current confirms gravity_id = Done (Ok payload) →
  ∃ c, calldata c = Some payload ∧ ∀ sender block replies,
    execute sender block c (st, replies) =
    if negb (valset_nonce current <? valset_nonce new) then stale_set
    else if has_power st current confirms then update_outcome new st replies else no_power.
Proof.
  intros Hk Hv H. apply valset_payload_calldata in H as (out & Ho & Hc).
  eexists. split; [exact Hc|]. intros sender block replies. cbn [execute]. unfold encode_valset_confirm_hashed in Ho.
  rewrite law_msg_hash, valset_checkpoint, <- (knows_id _ _ _ Hk) in Ho by apply (knows_length _ _ _ Hk).
  destruct (counted_votes st gravity_id current _ _ _ (update_outcome new st replies) Hk Hv Ho) as [Hcur <-].
  destruct (args_of_valset_fields new) as [Hn Hl], (args_of_valset_fields current) as [Hm _].
  rewrite updateValset_eq by done. unfold update_outcome. cbv zeta. by rewrite Hn, Hm.
Qed.


Definition paid (b : TransactionBatch) (st : Gravity) : Gravity :=
  logged (λ n, TransactionBatchExecutedEvent (batch_nonce b) (batch_token_contract b) n)
    (with_lastBatchNonce (batch_token_contract b) (batch_nonce b) st).

(** The hash of a batch confirmation is over the contract's checkpoint. *)
Lemma batch_confirm_hash st gravity_id current b hash :
  knows st gravity_id current → encode_tx_batch_confirm_hashed gravity_id b = Done hash →
  hash = keccak256 (signed_message_prefix ++ batch_checkpoint (state_gravityId st) (batch_amounts b)
    (batch_destinations b) (batch_fees b) (batch_nonce b) (batch_token_contract b) (batch_timeout b)).
Proof.
  intros [Hlen Hid _ _ _] H. destruct (batch_checkpoint_eq gravity_id b Hlen) as (m & Hm & Hcp).
  unfold encode_tx_batch_confirm_hashed in H. rewrite Hm in H. injection H as <-.
  by rewrite law_msg_hash, Hcp, Hid.
Qed.
Lemma batch_lengths b :
  length (batch_amounts b) = length (batch_transactions b) ∧
  length (batch_destinations b) = length (batch_transactions b) ∧
  length (batch_fees b) = length (batch_transactions b).
Proof. unfold batch_amounts, batch_destinations, batch_fees. by rewrite !length_fmap. Qed.

Lemma batch_settles b st : state_lastEventNonce st + 1 < 2 ^ 256 →
  settles (S (length (batch_transactions b))) (batch_outcome b st) (paid b st).
Proof. intros H. split; [intros rest; refine (settle_obliging _ _ _ rest _); exact H|intros replies; exact (settle_none_reverts _ _ _ replies)]. Qed.

Lemma batch_decision st gravity_id current b confirms payload :
  knows st gravity_id current → Forall plain_v confirms →
  Forall (λ f, 0 ≤ f) (batch_fees b) → zsum (batch_fees b) < 2 ^ 256 →
  encode_batch_payload current b confirms gravity_id = Done (Ok payload) →
  ∃ c, calldata c = Some payload ∧ ∀ sender block replies,
    execute sender block c (st, replies) =
    if negb (lastBatchNonce st (batch_token_contract b) <? batch_nonce b) then stale_batch
    else if negb (block <? batch_timeout b) then late_batch
    else if has_power st current confirms then batch_outcome b st replies else no_power.
Proof.
  intros Hk Hv Hf Hfees H. apply batch_payload_calldata in H as (hash & out & Hh & Ho & Hc).
  eexists. split; [exact Hc|]. intros sender block replies. cbn [execute]. apply (batch_confirm_hash _ _ _ _ _ Hk) in Hh as ->.
  destruct (counted_votes st gravity_id current _ _ _ (batch_outcome b st replies) Hk Hv Ho) as [Hcur <-].
  destruct (batch_lengths b) as (La & Ld & Lf). rewrite submitBatch_eq by (congruence || done). by rewrite La.
Qed.

(** C6: batches. Suppose the relayer knows the contract ([knows]: its id, of at most 32 bytes, and the set
    whose checkpoint it stores, with powers that are [u64]s as their sum and number are; and the
    contract's event counter has room), the confirmations carry signatures with [v] 27 or 28, and the
    fees are not negative and sum to less than 2^256. Then the payload of a batch, if the relayer can
    make one, is the call of [submitBatch] with
    the current set, the signatures, and the batch's amounts, destinations and fees, and the contract
    refuses it if the batch's nonce is not new, or else if the block is not {e below} its timeout, or
    else if not more than the threshold's power of its set has confirmed it; otherwise it records the
    nonce, calls the token once for each transfer and once for the fees, and emits the event. If these
    calls do as asked, the transaction succeeds; it succeeds only if none of them reverts. *)
Theorem batch_decided st gravity_id current b confirms payload :
  knows st gravity_id current → Forall plain_v confirms →
  Forall (λ f, 0 ≤ f) (batch_fees b) → zsum (batch_fees b) < 2 ^ 256 →
  encode_batch_payload current b confirms gravity_id = Done (Ok payload) →
  ∃ c, calldata c = Some payload ∧
    (∀ sender block replies, execute sender block c (st, replies) =
       if negb (lastBatchNonce st (batch_token_contract b) <? batch_nonce b) then stale_batch
       else if negb (block <? batch_timeout b) then late_batch
       else if has_power st current confirms then batch_outcome b st replies else no_power) ∧
    settles (S (length (batch_transactions b))) (batch_outcome b st) (paid b st).
Proof.
  intros Hk Hv Hf Hs H. destruct (batch_decision _ _ _ _ _ _ Hk Hv Hf Hs H) as (c & Hc & E).
  exists c. split_and!; [done|done|apply batch_settles, (knows_room _ _ _ Hk)].
Qed.

(** The logic call executed, with what the called contract returned. *)
Definition called (c : LogicCall) (data : bytes) (st : Gravity) : Gravity :=
  logged (call_event c data) (with_invalidation (bytes32 (call_invalidation_id c)) (call_invalidation_nonce c) st).
Definition call_settles (c : LogicCall) (st : Gravity) : Prop :=
  (∀ data rest, call_outcome c st (obliging (length (call_transfers c)) ++ Returns data [] ::
     obliging (length (call_fees c)) ++ rest) = Ok (tt, (called c data st, rest))) ∧
  (∀ replies, is_ok (call_outcome c st replies) = true →
     none_reverts (length (call_transfers c) + S (length (call_fees c))) replies).
Lemma logic_call_settles c st : state_lastEventNonce st + 1 < 2 ^ 256 → call_settles c st.
Proof.
  intros H. split; [intros data rest; refine (settle_call_obliging _ _ _ _ data rest _); exact H|intros replies; exact (settle_call_none_reverts _ _ _ _ replies)].
Qed.

Lemma logic_call_decision st gravity_id current c confirms payload :
  knows st gravity_id current → Forall plain_v confirms → (length (call_invalidation_id c) ≤ 32)%nat →
  encode_logic_call_payload current c confirms gravity_id = Done (Ok payload) →
  ∃ call, calldata call = Some payload ∧ ∀ sender block replies,
    execute sender block call (st, replies) =
    if negb (block <? call_timeout c) then late_call
    else if negb (lastLogicCallNonce st (bytes32 (call_invalidation_id c)) <? call_invalidation_nonce c) then stale_call
    else if has_power st current confirms then call_outcome c st replies else no_power.
Proof.
  intros Hk Hv Hinv H. apply logic_call_payload_calldata in H as (out & Ho & Hc); [|done].
  eexists. split; [exact Hc|]. intros sender block replies. cbn [execute]. unfold encode_logic_call_confirm_hashed in Ho.
  rewrite law_msg_hash, logic_call_checkpoint_eq, <- (knows_id _ _ _ Hk) in Ho
    by (done || apply (knows_length _ _ _ Hk)).
  destruct (counted_votes st gravity_id current _ _ _ (call_outcome c st replies) Hk Hv Ho) as [Hcur <-].
  pose proof (submitLogicCall_eq sender block (args_of_valset current) (gsig_v <$> out) (gsig_r <$> out)
    (gsig_s <$> out) (args_of_call c) st replies Hcur) as E.
  cbn [args_of_call transferAmounts transferTokenContracts feeAmounts feeTokenContracts timeOut invalidationId
    invalidationNonce] in E.
  rewrite !length_fmap in E. exact (E eq_refl eq_refl).
Qed.

(** C27: logic calls. Suppose the relayer knows the contract ([knows]: its id, of at most 32 bytes, and
    the set whose checkpoint it stores, with powers that are [u64]s as their sum and number are; and the
    contract's event counter has room), the confirmations carry signatures with [v] 27 or 28, and the
    invalidation id is at most 32 bytes. Then the payload of a logic call, if the relayer can make one,
    is the call of [submitLogicCall] with the current set and the
    signatures, and the contract refuses it if the block is not {e below} its timeout, or else if its
    invalidation nonce is not new, or else if not more than the threshold's power has confirmed it;
    otherwise it records the nonce, makes one call for each transfer, the call itself, and one for
    each fee, and emits the event with what the call returned. If these do as asked, the transaction
    succeeds; it succeeds only if none of them, the called contract included, reverts. *)
Theorem logic_call_decided st gravity_id current c confirms payload :
  knows st gravity_id current → Forall plain_v confirms → (length (call_invalidation_id c) ≤ 32)%nat →
  encode_logic_call_payload current c confirms gravity_id = Done (Ok payload) →
  ∃ call, calldata call = Some payload ∧
    (∀ sender block replies, execute sender block call (st, replies) =
       if negb (block <? call_timeout c) then late_call
       else if negb (lastLogicCallNonce st (bytes32 (call_invalidation_id c)) <? call_invalidation_nonce c) then stale_call
       else if has_power st current confirms then call_outcome c st replies else no_power) ∧
    call_settles c st.
Proof.
  intros Hk Hv Hi H. destruct (logic_call_decision _ _ _ _ _ _ Hk Hv Hi H) as (call & Hc & E).
  exists call. split_and!; [done|done|apply logic_call_settles, (knows_room _ _ _ Hk)].
Qed.
End Decisions.
