(* ===== verification/ContractRun.v ===== *)
(** * The bridge contract, run

    A contract deployed on the instance of Instances.v, with the threshold of the deployment script
    (solidity/contract-deployer.ts), and the relayer's transactions executed by it: the hypotheses
    of the theorems of ContractTheory.v and Acceptance.v can be met; and the two differences between
    the relayer's checks and the contract's, as transactions that pass the first and not the second. *)

From S2P Require Import Prelude Bytes Proto External Evm Float Instances Contract ContractTheory.
From S2P Require Import Types Signatures Valset ValsetTheory Batches LogicCall Messages Acceptance.

Section Deployed.
#[local] Existing Instance concrete_ext.
#[local] Existing Instance concrete_laws.
#[local] Existing Instance concrete_evm.
#[local] Existing Instance concrete_evm_laws.
#[local] Existing Instance checked_build.

(** ** The contract *)

Definition deployed_threshold : Z := 2834678415.
Definition deployed_id : string := "gravity".
Definition genesis : Valset := {|
  valset_nonce := 0;
  valset_members := [mkValsetMember 2834678300 (Some (eth 1)); mkValsetMember 1000000000 (Some (eth 2));
                     mkValsetMember 460288995 (Some (eth 3))];
  valset_reward_amount := 0; valset_reward_token := None |}.
Definition next_valset : Valset := {|
  valset_nonce := 1; valset_members := [mkValsetMember 4294967295 (Some (eth 2))];
  valset_reward_amount := 5; valset_reward_token := Some (eth 9) |}.

Definition deploy (vs : Valset) : result Gravity string :=
  constructor (id_word deployed_id) deployed_threshold (validators (args_of_valset vs))
    (powers (args_of_valset vs)) (eth 50).
Definition fresh : Gravity :=
  match deploy genesis with Ok st => st | Err _ => mkGravity (eth 0) [] ∅ ∅ 0 0 0 0 [] end.
Lemma fresh_deployed : deploy genesis = Ok fresh.
Proof. vm_refl. Qed.
Lemma fresh_reachable : reachable fresh.
Proof. exact (reachable_constructor _ _ _ _ _ _ fresh_deployed). Qed.

Lemma contract_invariant_witness : well_formed fresh.
Proof. apply (contract_invariant fresh). exact fresh_reachable. Defined.

Lemma genesis_powers : powers_ok (valset_members genesis).
Proof. repeat split; try (repeat constructor; done); vm_compute; discriminate. Qed.
Lemma fresh_known : knows fresh deployed_id genesis.
Proof. split; [vm_compute; lia | vm_refl | vm_refl | exact genesis_powers | by vm_compute]. Qed.

(** ** What validators 1 and 2 sign *)

Definition hash_of (r : eval bytes) : bytes := match r with Done h => h | Panic _ => [] end.
Definition payload_of (r : eval (result bytes GravityError)) : bytes :=
  match r with Done (Ok p) => p | _ => [] end.

Definition valset_confirms (signers : list Z) : list ValsetConfirmResponse :=
  (λ k, {| vcr_orchestrator := cosmos k; vcr_eth_address := eth k; vcr_nonce := 1;
           vcr_eth_signature := sign_ethereum_msg (k : EthPrivateKey)
             (encode_valset_confirm deployed_id next_valset) |}) <$> signers.
Definition batch_confirms_of (b : TransactionBatch) (signers : list Z) : list BatchConfirmResponse :=
  (λ k, {| bcr_nonce := batch_nonce b; bcr_orchestrator := cosmos k;
           bcr_token_contract := batch_token_contract b; bcr_ethereum_signer := eth k;
           bcr_eth_signature := sign_ethereum_msg (k : EthPrivateKey)
             (hash_of (encode_tx_batch_confirm deployed_id b)) |}) <$> signers.
Definition call_confirms (signers : list Z) : list LogicCallConfirmResponse :=
  (λ k, {| lcr_invalidation_id := call_invalidation_id sample_call;
           lcr_invalidation_nonce := call_invalidation_nonce sample_call;
           lcr_ethereum_signer := eth k; lcr_orchestrator := cosmos k;
           lcr_eth_signature := sign_ethereum_msg (k : EthPrivateKey)
             (encode_logic_call_confirm deployed_id sample_call) |}) <$> signers.

Lemma signed_plain_valset signers : Forall plain_v (valset_confirms signers).
Proof. induction signers; repeat constructor; done. Qed.
Lemma signed_plain_batch b signers : Forall plain_v (batch_confirms_of b signers).
Proof. induction signers; repeat constructor; done. Qed.
Lemma signed_plain_call signers : Forall plain_v (call_confirms signers).
Proof. induction signers; repeat constructor; done. Qed.

(** ** The relayer's transactions, executed *)

Definition relayer : EthAddress := eth 70.


(** A batch that times out at block 500: executed in block 499. *)
Definition batch_payload_of (signers : list Z) : bytes :=
  payload_of (encode_batch_payload genesis sample_batch (batch_confirms_of sample_batch signers) deployed_id).
Lemma sample_fees_nonneg : Forall (λ f, 0 ≤ f) (batch_fees sample_batch).
Proof. repeat constructor; vm_compute; discriminate. Qed.
Lemma batch_decided_witness : ∃ c, calldata c = Some (batch_payload_of [1; 3]) ∧
  execute relayer 499 c (fresh, obliging 3) = Ok (tt, (paid sample_batch fresh, [])) ∧
  execute relayer 500 c (fresh, obliging 3) = late_batch ∧
  execute relayer 499 c (fresh, [Returns [] []; Reverts]) = Err "external call reverted"%string.
Proof.
  edestruct (batch_decided fresh deployed_id genesis sample_batch (batch_confirms_of sample_batch [1; 3]))
    as (c & Hc & E & _); [apply fresh_known|apply signed_plain_batch|apply sample_fees_nonneg|by vm_compute|vm_refl|].
  exists c. split; [exact Hc|]. split_and!; (etransitivity; [apply E|vm_refl]).
Defined.

Lemma logic_call_decided_witness : ∃ c,
  calldata c = Some (payload_of (encode_logic_call_payload genesis sample_call (call_confirms [1; 2])
    deployed_id)) ∧
  execute relayer 90 c (fresh, obliging 1 ++ Returns [] [] :: obliging 1) = late_call ∧
  execute relayer 89 c (fresh, obliging 1 ++ Returns [] [] :: obliging 1) = Ok (tt, (called sample_call [] fresh, [])) ∧
  execute relayer 89 c (fresh, obliging 1 ++ [Reverts]) = Err "external call reverted"%string.
Proof.
  edestruct (logic_call_decided fresh deployed_id genesis sample_call (call_confirms [1; 2]))
    as (c & Hc & E & _); [apply fresh_known|apply signed_plain_call|vm_compute; lia|vm_refl|].
  exists c. split; [exact Hc|]. split_and!; (etransitivity; [apply E|vm_refl]).
Defined.
End Deployed.
