(* ===== verification/Effects.v ===== *)
(** * Effects: the calls that leave the program, and reasoning about them

    An [async] function of the code is an interaction tree whose events are its calls to the
    Ethereum node ([web30::Web3]), to the Cosmos node (the gRPC query client, [Contact]), to the
    clock, to the scheduler of concurrent futures, and its panics. A loop of the code is
    [ITree.iter]: nothing bounds how often it turns.

    - [sat]: every call a tree makes, whatever the answers, satisfies a precondition that may look
      at the calls and answers before it, and what it returns satisfies a postcondition;
    - [term]: whatever the answers, it returns or panics after finitely many calls;
    - [run]: execute it against a handler;
    - [concurrent]: run a list of futures, at most so many at a time, interleaved at their calls as
      the scheduler likes. *)

From S2P Require Import Prelude Bytes Proto External Float Instances Types.
From ITree Require Import ITree.
From Stdlib Require Import SpecFloat.

(** ** The calls *)

(** [web30::types::SendTxOption] *)
Inductive SendTxOption :=
  | OptGasPriceMultiplier (multiplier : f32)
  | OptNonce (nonce : Uint256)
  | OptGasLimit (limit : Uint256)
  | OptOther (code : Z).

(** [web30::types::TransactionRequest] *)
Record TransactionRequest `{Ext} := mkTransactionRequest {
  req_from : option EthAddress;
  req_to : EthAddress;
  req_nonce : option Uint256;
  req_gas_price : option Uint256;
  req_gas : option Uint256;
  req_value : option Uint256;
  req_data : option bytes;
}.
Arguments mkTransactionRequest {_}.

(** Durations are in seconds. *)
Abbreviation Duration := Z.

(** A path, by its components, and what a file system holds. *)
Abbreviation PathBuf := (list string).
Record disk := mkDisk { dirs : gset (list string); files : gmap (list string) string }.

Section Calls.
Context `{X : Ext}.

Inductive callE : Type → Type :=
  (* web30::Web3 *)
  | EthBlockNumber : callE (result Uint256 Web3Error)
  | EthGetBalance (address : EthAddress) : callE (result Uint256 Web3Error)
  | EthGetTransactionCount (address : EthAddress) : callE (result Uint256 Web3Error)
  | EthGasPrice : callE (result Uint256 Web3Error)
  | EthEstimateGas (request : TransactionRequest) : callE (result Uint256 Web3Error)
  | NetVersion : callE (result Z Web3Error)
  | SimulateTransaction (contract : EthAddress) (value : Uint256) (payload : bytes)
      (caller : EthAddress) : callE (result bytes Web3Error)
  | SendTransaction (to : EthAddress) (payload : bytes) (value : Uint256) (own : EthAddress)
      (key : EthPrivateKey) (options : list SendTxOption) : callE (result Uint256 Web3Error)
  | WaitForTransaction (txid : Uint256) (timeout : Duration) : callE (result unit Web3Error)
  | CheckErc20Approved (erc20 own contract : EthAddress) : callE (result bool Web3Error)
  | ApproveErc20Transfers (erc20 : EthAddress) (key : EthPrivateKey) (contract : EthAddress)
      (options : list SendTxOption) : callE (result Uint256 Web3Error)
  | CheckForEvents (start_block : Uint256) (end_block : option Uint256) (contracts : list EthAddress)
      (signature : string) : callE (result (list Log) Web3Error)
  | GetErc20Decimals (erc20 caller : EthAddress) : callE (result Uint256 Web3Error)
  | GetErc20Balance (erc20 own : EthAddress) : callE (result Uint256 Web3Error)
  | GetUniswapPrice (caller token_in token_out : EthAddress) (amount : Uint256)
      (sqrt_price_limit : option Uint256) : callE (result Uint256 Web3Error)
  (* the gRPC query client *)
  | QValsetRequest (nonce : Z) : callE (result (option PValset) Status)
  | QCurrentValset : callE (result (option PValset) Status)
  | QLastPendingValsetRequests (address : string) : callE (result (list PValset) Status)
  | QLastValsetRequests : callE (result (list PValset) Status)
  | QValsetConfirmsByNonce (nonce : Z) : callE (result (list PMsgValsetConfirm) Status)
  | QLastPendingBatch (address : string) : callE (result (option POutgoingTxBatch) Status)
  | QOutgoingTxBatches : callE (result (list POutgoingTxBatch) Status)
  | QBatchConfirms (nonce : Z) (contract_address : string) : callE (result (list PMsgConfirmBatch) Status)
  | QLastEventNonce (address : string) : callE (result Z Status)
  | QOutgoingLogicCalls : callE (result (list POutgoingLogicCall) Status)
  | QLogicConfirms (invalidation_id : bytes) (invalidation_nonce : Z) :
      callE (result (list PMsgConfirmLogicCall) Status)
  | QLastPendingLogicCall (address : string) : callE (result (option POutgoingLogicCall) Status)
  | QParams : callE (result (option Params) Status)
  | QDenomToErc20 (denom : string) : callE (result QueryDenomToErc20Response Status)
  | QDelegateKeyByEth (eth_address : string) : callE (result QueryDelegateKeysByEthAddressResponse Status)
  | QDelegateKeyByOrchestrator (orchestrator_address : string) :
      callE (result QueryDelegateKeysByOrchestratorAddressResponse Status)
  | QAttestations (limit : Z) : callE (result (list Attestation) Status)
  | QPendingSendToEth (sender_address : string) : callE (result QueryPendingSendToEthResponse Status)
  (* connecting: to a gRPC server, and one call to try an Ethereum node *)
  | GrpcConnect (url : string) : callE (result unit string)
  | Web3TryBlockNumber (url : string) : callE (result Uint256 Web3Error)
  (* deep_space::Contact *)
  | ContactGetBalances (address : CosmosAddress) : callE (result (list Coin) CosmosGrpcError)
  | ContactGetChainStatus : callE (result ChainStatus CosmosGrpcError)
  | ContactGetMessageArgs (address : CosmosAddress) (fee : Fee) : callE (result MessageArgs CosmosGrpcError)
  | ContactSendTransaction (msg : bytes) : callE (result TxResponse CosmosGrpcError) (* Sync *)
  | ContactWaitForTx (response : TxResponse) (timeout : Duration) : callE (result TxResponse CosmosGrpcError)
  | ContactWaitForNextBlock (timeout : Duration) : callE (result unit CosmosGrpcError)
  (* the disk, and the random number generator *)
  | DiskRead : callE disk
  | DiskWrite (d : disk) : callE unit
  | GeneratePhrase (words : Z) : callE string
  | RandomBytes (n : nat) : callE bytes
  (* what only the test runner calls: web30 *)
  | EthSendRawTransaction (tx : bytes) : callE (result Uint256 Web3Error)
  | Erc20Send (amount : Uint256) (recipient erc20 : EthAddress) (key : EthPrivateKey)
      (wait_timeout : option Duration) (options : list SendTxOption) : callE (result Uint256 Web3Error)
  | WrapEth (amount : Uint256) (key : EthPrivateKey) : callE (result Uint256 Web3Error)
  | SwapUniswap (key : EthPrivateKey) (token_in token_out : EthAddress) (amount : Uint256) :
      callE (result Uint256 Web3Error)
  | WaitForTransactionBlock (txid : Uint256) (timeout : Duration) :
      callE (result (option Uint256) Web3Error) (* with the block number of the response *)
  (* deep_space::Contact *)
  | ContactDelegate (validator : CosmosAddress) (amount fee : Coin) (key : CosmosPrivateKey)
      (wait : option Duration) : callE (result TxResponse CosmosGrpcError)
  | ContactSendTokens (coin : Coin) (fee : option Coin) (destination : CosmosAddress)
      (key : CosmosPrivateKey) (wait : option Duration) : callE (result TxResponse CosmosGrpcError)
  | ContactCreateGovProposal (proposal : ParameterChangeProposal) (type_url : string) (deposit fee : Coin)
      (key : CosmosPrivateKey) (wait : option Duration) : callE (result TxResponse CosmosGrpcError)
  | ContactVoteYes (proposal_id : Z) (fee : Coin) (key : CosmosPrivateKey) (wait : option Duration) :
      callE (result TxResponse CosmosGrpcError)
  | ContactProposalsInVotingPeriod : callE (result (list Z) CosmosGrpcError)
  | ContactGetValidators (status : string) : callE (result (list Validator) CosmosGrpcError)
  | ContactGetActiveValidators : callE (result (list Validator) CosmosGrpcError)
  (* the random number generator's ranges, and other programs *)
  | RandomBelow (n : nat) : callE nat
  | CommandOutput (program : string) (args : list string) (current_dir : option string) :
      callE (result Output string)
  (* the clock and the scheduler *)
  | Sleep (duration : Duration) : callE unit
  | SleepMillis (milliseconds : Z) : callE unit
  | Now : callE Z
  | TimerFired (timeout : Duration) : callE bool
  | Pick (n : nat) : callE nat
  | Panics (why : string) : callE Empty_set.
End Calls.

(** ** Programs *)

Abbreviation io := (itree callE).

Notation "'let*' x := m 'in' k" := (ITree.bind m (fun x => k))
  (at level 10, x binder, m at level 100, k at level 200) : rust_scope.

Section Programs.
Context `{X : Ext}.

Definition call {R} (e : callE R) : io R := ITree.trigger e.
Definition panic {R} (why : string) : io R :=
  Vis (Panics why) (λ x : Empty_set, match x with end).

(** A pure computation inside an [async] function. *)
Definition pure {R} (m : eval R) : io R :=
  match m with
  | Done a => Ret a
  | Panic w => panic w
  end.

(** [m.await?], the error converted with [From]. *)
Definition try_io {A B E F} (conv : E → F) (m : io (result A E)) (f : A → io (result B F)) :
    io (result B F) :=
  ITree.bind m (λ r, match r with Ok a => f a | Err e => Ret (Err (conv e)) end).

(** [while c(s) { s = body(s) }] *)
Definition while {V} (c : V → bool) (body : V → io V) (s : V) : io V :=
  ITree.iter (λ s, if c s then ITree.bind (body s) (λ s, Ret (inl s)) else Ret (inr s)) s.

(** [for x in l { s = body(x, s) }] *)
Fixpoint for_each {A V} (l : list A) (body : A → V → io V) (s : V) : io V :=
  match l with
  | [] => Ret s
  | x :: l => ITree.bind (body x s) (for_each l body)
  end.

(** [loop { match m.await { Ok(r) => return r, _ => sleep(d).await } }] *)
Definition retry {A E} (m : io (result A E)) (d : Duration) : io A :=
  ITree.iter (λ _ : unit,
    ITree.bind m (λ r, match r with
      | Ok a => Ret (inr a)
      | Err _ => ITree.bind (call (Sleep d)) (λ _, Ret (inl tt))
      end)) tt.
(** [tokio::time::timeout(d, t)]: whenever [t] is woken by an answer the timer may have fired
    instead, and the rest of [t] is dropped. *)
Definition timeout {R} (d : Duration) (t : io R) : io (option R) :=
  ITree.iter (λ t : io R,
    match observe t with
    | RetF r => Ret (inr (Some r))
    | TauF t => Ret (inl t)
    | VisF e k =>
        ITree.bind (call e) (λ x, ITree.bind (call (TimerFired d)) (λ fired : bool,
          if fired then Ret (inr None) else Ret (inl (k x))))
    end) t.

(** One step of a future: it runs to its next call, makes it, and is left with the rest. *)
Definition step_future (t : io unit) : io (option (io unit)) :=
  match observe t with
  | RetF _ => Ret None
  | TauF t => Ret (Some t)
  | VisF e k => ITree.bind (call e) (λ x, Ret (Some (k x)))
  end.

(** The scheduler picks one of the futures in flight and polls it. *)
Definition poll (active pending : list (io unit)) : io (list (io unit) * list (io unit) + unit) :=
  ITree.bind (call (Pick (length active))) (λ i,
    let i := (i mod length active)%nat in
    match active !! i with
    | None => Ret (inl (active, pending))
    | Some t =>
        ITree.bind (step_future t) (λ o,
          Ret (inl (match o with
                    | Some t => (<[i := t]> active, pending)
                    | None => (delete i active, pending)
                    end)))
    end).

(** [stream::iter(tasks).for_each_concurrent(limit, ..)]: at most [limit] futures are in flight; one
    thread polls them, switching only where one awaits a call. *)
Definition concurrent (limit : nat) (tasks : list (io unit)) : io unit :=
  ITree.iter (λ '(active, pending),
    match pending, (length active <? limit)%nat, active with
    | t :: pending, true, _ => Ret (inl (active ++ [t], pending))
    | _, _, [] => Ret (inr tt)
    | _, _, _ => poll active pending
    end) ([], tasks).
End Programs.

Notation "'let*?' x := m 'via' c 'in' k" := (try_io c m (fun x => k))
  (at level 10, x binder, m at level 100, c at level 100, k at level 200) : rust_scope.

(** ** Logs, and safety *)

Section Logic.
Context `{X : Ext}.

(** A call with its answer. *)
Record entry : Type := mkEntry { ent_type : Type; ent_call : callE ent_type; ent_answer : ent_type }.
Definition log := list entry.

(** What may be required of a call, and what is assumed of the answers. *)
Definition spec := ∀ R, callE R → log → Prop.
Definition env := ∀ R, callE R → R → Prop.

Definition any_env : env := λ _ _ _, True.
Implicit Types (P : spec) (A : env) (l : log).

Fixpoint wp (P : spec) (A : env) {R} (n : nat) (t : io R) (l : log) (Q : R → log → Prop) : Prop :=
  match n with
  | O => True
  | S n =>
      match observe t with
      | RetF r => Q r l
      | TauF t => wp P A n t l Q
      | VisF e k => P _ e l ∧ ∀ x, A _ e x → wp P A n (k x) (l ++ [mkEntry _ e x]) Q
      end
  end.

Definition sat (P : spec) (A : env) {R} (t : io R) (l : log) (Q : R → log → Prop) : Prop :=
  ∀ n, wp P A n t l Q.

Lemma wp_mono P A {R} n (t : io R) l (Q Q' : R → log → Prop) :
  (∀ r l, Q r l → Q' r l) → wp P A n t l Q → wp P A n t l Q'.
Proof.
  intros HQ. revert t l. induction n as [|n IH]; intros t l; simpl; [done|].
  destruct (observe t) as [r|t'|Y e k]; [apply HQ | apply IH | intros [HP H]].
  split; [done|]. intros x Hx. by apply IH, H.
Qed.

Lemma wp_le P A {R} n m (t : io R) l Q : (n ≤ m)%nat → wp P A m t l Q → wp P A n t l Q.
Proof.
  revert m t l. induction n as [|n IH]; intros m t l Hm; [done|]. destruct m as [|m]; [lia|]. simpl.
  destruct (observe t) as [r|t'|Y e k]; [done | apply IH; lia | intros [HP H]].
  split; [done|]. intros x Hx. apply (IH m); [lia|]. by apply H.
Qed.

Lemma observe_bind {R V} (t : io R) (f : R → io V) :
  observe (ITree.bind t f) =
  match observe t with
  | RetF r => observe (f r)
  | TauF t => TauF (ITree.bind t f)
  | VisF e k => VisF e (λ x, ITree.bind (k x) f)
  end.
Proof.
  transitivity (observe (match observe t with
    | RetF r => f r
    | TauF t => Tau (ITree.bind t f)
    | VisF e k => Vis e (λ x, ITree.bind (k x) f)
    end)); [reflexivity | by destruct (observe t)].
Qed.

Lemma observe_iter {I R} (f : I → io (I + R)) i :
  observe (ITree.iter f i) =
  observe (ITree.bind (f i) (λ r, match r with inl i => Tau (ITree.iter f i) | inr r => Ret r end)).
Proof. reflexivity. Qed.

Lemma wp_observe P A {R} n (t t' : io R) l Q : observe t = observe t' → wp P A n t l Q ↔ wp P A n t' l Q.
Proof. intros H. destruct n; simpl; [done|]. by rewrite H. Qed.

Lemma wp_bind P A {R V} n (t : io R) (f : R → io V) l Q :
  wp P A n t l (λ r l, ∀ m, (m ≤ n)%nat → wp P A m (f r) l Q) → wp P A n (ITree.bind t f) l Q.
Proof.
  revert t l. induction n as [|n IH]; intros t l; [done|]. cbn [wp]. rewrite observe_bind.
  destruct (observe t) as [r|t'|Y e k].
  - intros H. apply (H (S n)). lia.
  - intros H. apply IH. eapply wp_mono; [|exact H]. intros r l' Hr m Hm. apply Hr. lia.
  - intros [HP H]. split; [done|]. intros x Hx. apply IH. eapply wp_mono; [|by apply H].
    intros r l' Hr m Hm. apply Hr. lia.
Qed.

Lemma sat_ret P A {R} (r : R) l (Q : R → log → Prop) : Q r l → sat P A (Ret r) l Q.
Proof. intros H n. by destruct n. Qed.

Lemma sat_mono P A {R} (t : io R) l (Q Q' : R → log → Prop) :
  sat P A t l Q → (∀ r l, Q r l → Q' r l) → sat P A t l Q'.
Proof. intros H HQ n. by apply wp_mono with Q. Qed.

Lemma sat_bind P A {R V} (t : io R) (f : R → io V) l Q :
  sat P A t l (λ r l, sat P A (f r) l Q) → sat P A (ITree.bind t f) l Q.
Proof. intros H n. apply wp_bind. eapply wp_mono; [|apply H]. intros r l' Hr m _. apply Hr. Qed.

Lemma sat_call P A {R} (e : callE R) l (Q : R → log → Prop) :
  P R e l → (∀ x, A R e x → Q x (l ++ [mkEntry R e x])) → sat P A (call e) l Q.
Proof. intros HP H n. destruct n as [|[|n]]; simpl; [done|by split|split; [done|]]. intros x Hx. by apply H. Qed.

Lemma sat_panic P A {R} w l (Q : R → log → Prop) : P _ (Panics w) l → sat P A (panic w) l Q.
Proof. intros HP n. destruct n; simpl; [done|]. split; [done|]. intros []. Qed.

Lemma sat_pure P A {R} (m : eval R) l (Q : R → log → Prop) :
  (∀ w, m = Panic w → P _ (Panics w) l) → (∀ r, m = Done r → Q r l) → sat P A (pure m) l Q.
Proof. destruct m; intros HP HQ; [by apply sat_ret, HQ | by apply sat_panic, HP]. Qed.

Lemma sat_try P A {B C E F} (conv : E → F) (m : io (result B E)) (f : B → io (result C F)) l Q :
  sat P A m l (λ r l, match r with Ok a => sat P A (f a) l Q | Err e => Q (Err (conv e)) l end) →
  sat P A (try_io conv m f) l Q.
Proof.
  intros H. apply sat_bind. eapply sat_mono; [exact H|]. intros [a|e] l'; simpl; [done|].
  by apply sat_ret.
Qed.

Lemma sat_iter P A {I R} (body : I → io (I + R)) (Inv : I → log → Prop) i l (Q : R → log → Prop) :
  (∀ i l, Inv i l → sat P A (body i) l (λ r l, match r with inl i => Inv i l | inr r => Q r l end)) →
  Inv i l → sat P A (ITree.iter body i) l Q.
Proof.
  intros Hb Hi n. revert i l Hi. induction (lt_wf n) as [n _ IH]. intros i l Hi.
  rewrite (wp_observe _ _ _ _ _ _ _ (observe_iter body i)). apply wp_bind.
  eapply wp_mono; [|by apply Hb]. intros [j|r] l' Hr m Hm.
  - destruct m as [|m]; [done|]. simpl. apply IH; [lia|done].
  - by destruct m.
Qed.

Lemma sat_while P A {V} (c : V → bool) (body : V → io V) (Inv : V → log → Prop) s l Q :
  (∀ s l, Inv s l → c s = true → sat P A (body s) l Inv) →
  (∀ s l, Inv s l → c s = false → Q s l) →
  Inv s l → sat P A (while c body s) l Q.
Proof.
  intros Hb Hq. apply sat_iter. intros s' l' Hi. destruct (c s') eqn:Hc.
  - apply sat_bind. eapply sat_mono; [by apply Hb|]. intros r l'' Hr. by apply sat_ret.
  - apply sat_ret. by apply Hq.
Qed.

Lemma sat_for P A {B V} (items : list B) (body : B → V → io V) (Inv : list B → V → log → Prop) done s l :
  (∀ done x rest s l, items = done ++ x :: rest → Inv done s l →
    sat P A (body x s) l (λ s l, Inv (done ++ [x]) s l)) →
  Inv done s l →
  ∀ rest, items = done ++ rest → sat P A (for_each rest body s) l (λ s l, Inv items s l).
Proof.
  intros Hb Hi rest. revert done s l Hi. induction rest as [|x rest IH]; intros done s l Hi E; simpl.
  - apply sat_ret. rewrite E, app_nil_r. done.
  - apply sat_bind. eapply sat_mono; [by eapply Hb|]. intros s' l' Hi'. eapply IH; [exact Hi'|].
    by rewrite <- app_assoc.
Qed.

(** A loop that retries until success: what holds of every attempt's log holds at the end. *)
Lemma sat_retry P A {B E} (m : io (result B E)) d l (Inv : log → Prop) (Q : B → log → Prop) :
  (∀ l, Inv l → sat P A m l (λ r l, match r with Ok a => Q a l | Err _ => Inv l ∧ P _ (Sleep d) l ∧
     Inv (l ++ [mkEntry _ (Sleep d) tt]) end)) →
  Inv l → sat P A (retry m d) l Q.
Proof.
  intros Hm Hi. apply sat_iter with (Inv := λ _ l, Inv l); [|done]. clear l Hi. intros _ l Hi.
  apply sat_bind. eapply sat_mono; [by apply Hm|]. intros [a|e] l'; [intros; by apply sat_ret|].
  intros (H1 & H2 & H3). apply sat_bind, sat_call; [done|]. intros [] _. by apply sat_ret.
Qed.

(** A program only ever adds to the log. *)
Lemma sat_extends P A {R} (t : io R) l (Q : R → log → Prop) :
  sat P A t l Q → sat P A t l (λ r l', l ⊆ l' ∧ Q r l').
Proof.
  intros H n. specialize (H n). revert t l H. induction n as [|n IH]; intros t l H; simpl in *; [done|].
  destruct (observe t) as [r|t'|Y e k]; [done|by apply IH|]. destruct H as [HP H].
  split; [done|]. intros x Hx. eapply wp_mono; [|by apply IH, H]. intros r l' [Hl HQ]. simpl.
  split; [|done]. etrans; [|done]. intros y Hy. apply elem_of_app. by left.
Qed.

(** ** Termination *)

(** Whatever the answers, the tree returns, with a result that satisfies [Q], or panics. *)
Inductive term A {R} (Q : R → Prop) (t : io R) : Prop :=
  | term_Ret r : observe t = RetF r → Q r → term A Q t
  | term_Tau t' : observe t = TauF t' → term A Q t' → term A Q t
  | term_Vis Y (e : callE Y) k : observe t = VisF e k → (∀ x, A Y e x → term A Q (k x)) → term A Q t.

Lemma term_ret A {R} (Q : R → Prop) r : Q r → term A Q (Ret r).
Proof. intros. by eapply term_Ret. Qed.

Lemma term_bind A {R V} (Q : R → Prop) (Q' : V → Prop) (t : io R) (f : R → io V) :
  term A Q t → (∀ r, Q r → term A Q' (f r)) → term A Q' (ITree.bind t f).
Proof.
  intros Ht Hf. induction Ht as [t r E Hr|t t' E _ IH|t Y e k E _ IH].
  - destruct (Hf r Hr) as [r' E' H'|t' E' H'|Y e k E' H'].
    + apply term_Ret with r'; [|done]. by rewrite observe_bind, E.
    + apply term_Tau with t'; [|done]. by rewrite observe_bind, E.
    + apply term_Vis with Y e k; [|done]. by rewrite observe_bind, E.
  - apply term_Tau with (ITree.bind t' f); [|done]. by rewrite observe_bind, E.
  - apply term_Vis with Y e (λ x, ITree.bind (k x) f); [|done]. by rewrite observe_bind, E.
Qed.

Lemma term_mono A {R} (Q Q' : R → Prop) (t : io R) : (∀ r, Q r → Q' r) → term A Q t → term A Q' t.
Proof.
  intros HQ H. induction H; [eapply term_Ret | eapply term_Tau | eapply term_Vis]; eauto.
Qed.

Lemma term_call A {R} (e : callE R) (Q : R → Prop) : (∀ x, A R e x → Q x) → term A Q (call e).
Proof. intros H. eapply term_Vis; [reflexivity|]. intros x Hx. by apply term_ret, H. Qed.

Lemma term_panic A {R} w (Q : R → Prop) : term A Q (panic w).
Proof. eapply term_Vis; [reflexivity|]. intros []. Qed.

Lemma term_pure A {R} (m : eval R) (Q : R → Prop) : (∀ r, m = Done r → Q r) → term A Q (pure m).
Proof. destruct m; intros; [by apply term_ret; auto | apply term_panic]. Qed.

Lemma term_iter_acc A {I R} (body : I → io (I + R)) (smaller : I → I → Prop) (Inv : I → Prop)
    (Q : R → Prop) i :
  (∀ i, Inv i → term A (λ r, match r with inl j => smaller j i ∧ Inv j | inr r => Q r end) (body i)) →
  Acc smaller i → Inv i → term A Q (ITree.iter body i).
Proof.
  intros Hb Hacc. induction Hacc as [i _ IH]. intros Hi.
  assert (term A Q (ITree.bind (body i)
    (λ r, match r with inl i => Tau (ITree.iter body i) | inr r => Ret r end))) as H.
  { eapply term_bind; [by apply Hb|]. intros [j|r] Hr; [|by apply term_ret].
    destruct Hr as [Hlt Hj]. eapply term_Tau; [reflexivity|]. by apply IH. }
  destruct H as [r E H|t' E H|Y e k E H]; rewrite <- observe_iter in E;
    [eapply term_Ret | eapply term_Tau | eapply term_Vis]; eauto.
Qed.

Lemma term_iter A {I R} (body : I → io (I + R)) (measure : I → nat) (Inv : I → Prop) (Q : R → Prop) i :
  (∀ i, Inv i → term A (λ r, match r with inl j => (measure j < measure i)%nat ∧ Inv j | inr r => Q r end) (body i)) →
  Inv i → term A Q (ITree.iter body i).
Proof. intros Hb. apply term_iter_acc with (λ j i, (measure j < measure i)%nat); [done|]. apply (well_founded_ltof _ measure). Qed.

Lemma term_for A {B V} (items : list B) (body : B → V → io V) s :
  (∀ x s, term A (λ _, True) (body x s)) → term A (λ _, True) (for_each items body s).
Proof.
  intros Hb. revert s. induction items as [|x items IH]; intros s; simpl; [by apply term_ret|].
  eapply term_bind; [apply Hb|]. intros s' _. apply IH.
Qed.

(** ** Concurrency *)

Lemma sat_observe P A {R} (t : io R) l Q :
  sat P A t l Q →
  match observe t with
  | RetF r => Q r l
  | TauF t => sat P A t l Q
  | VisF e k => P _ e l ∧ ∀ x, A _ e x → sat P A (k x) (l ++ [mkEntry _ e x]) Q
  end.
Proof.
  intros H. destruct (observe t) as [r|t'|Y e k] eqn:E.
  - specialize (H 1%nat). simpl in H. by rewrite E in H.
  - intros n. specialize (H (S n)). simpl in H. by rewrite E in H.
  - split.
    + specialize (H 1%nat). simpl in H. rewrite E in H. apply H.
    + intros x Hx n. specialize (H (S n)). simpl in H. rewrite E in H. by apply H.
Qed.

(** A requirement that more history never invalidates. *)
Definition log_monotone P : Prop := ∀ R (e : callE R) l l', l ⊆ l' → P R e l → P R e l'.

Lemma sat_log_mono P A {R} (t : io R) l l' (Q : R → log → Prop) :
  log_monotone P → (∀ r l l', l ⊆ l' → Q r l → Q r l') → l ⊆ l' →
  sat P A t l Q → sat P A t l' Q.
Proof.
  intros HP HQ Hl H n. specialize (H n). revert t l l' Hl H.
  induction n as [|n IH]; intros t l l' Hl; simpl; [done|].
  destruct (observe t) as [r|t'|Y e k].
  - by apply HQ.
  - by apply IH.
  - intros [HPe H]. split; [by eapply HP|]. intros x Hx. eapply IH; [|by apply H].
    intros y. rewrite !elem_of_app. intros [?|?]; [left; by apply Hl | by right].
Qed.

Lemma subseteq_snoc l x : l ⊆ l ++ [x].
Proof. intros y Hy. apply elem_of_app. by left. Qed.

(** A fact that more history never invalidates. *)
Definition lasting (F : log → Prop) : Prop := ∀ l l', l ⊆ l' → F l → F l'.

(** A nearer environment gives fewer answers. *)
Lemma sat_env_mono P A A' {R} (t : io R) l (Q : R → log → Prop) :
  (∀ Y (e : callE Y) x, A' Y e x → A Y e x) → sat P A t l Q → sat P A' t l Q.
Proof.
  intros HA H n. specialize (H n). revert t l H. induction n as [|n IH]; intros t l; simpl; [done|].
  destruct (observe t) as [r|t'|Y e k]; [done|apply IH|]. intros [HP Hk]. split; [done|].
  intros x Hx. by apply IH, Hk, HA.
Qed.

(** The log holds answers of the environment only. *)
Definition answered A l : Prop := Forall (λ x, A _ (ent_call x) (ent_answer x)) l.

Lemma sat_answered P A {R} (t : io R) l (Q : R → log → Prop) :
  answered A l → sat P A t l Q →
  sat (λ Y e l, P Y e l ∧ answered A l) A t l (λ r l, Q r l ∧ answered A l).
Proof.
  intros Hl H n. specialize (H n). revert t l Hl H. induction n as [|n IH]; intros t l Hl; simpl; [done|].
  destruct (observe t) as [r|t'|Y e k]; [done|by apply IH|]. intros [HP Hk]. split; [done|].
  intros x Hx. apply IH; [|by apply Hk]. apply Forall_app. by split; [|apply Forall_singleton].
Qed.

(** One turn of a future: what holds of it holds of what is left of it. *)
Lemma step_future_sat P A (t : io unit) l :
  sat P A t l (λ _ _, True) →
  sat P A (step_future t) l (λ o l', l ⊆ l' ∧ ∀ Q : log → Prop, sat P A t l (λ _ l', Q l') →
    match o with None => Q l' | Some t' => sat P A t' l' (λ _ l', Q l') end).
Proof.
  intros Ht%sat_observe. unfold step_future. destruct (observe t) as [r|t'|Y e k] eqn:E.
  - apply sat_ret. split; [done|]. intros Q HQ%sat_observe. by rewrite E in HQ.
  - apply sat_ret. split; [done|]. intros Q HQ%sat_observe. by rewrite E in HQ.
  - destruct Ht as [HP _]. apply sat_bind, sat_call; [done|]. intros x Hx. apply sat_ret.
    split; [apply subseteq_snoc|]. intros Q HQ%sat_observe. rewrite E in HQ. by apply HQ.
Qed.

Lemma elem_of_insert_other {B} (l : list B) i j x y :
  l !! i = Some x → i ≠ j → x ∈ <[j := y]> l.
Proof. intros Hi Hne. apply list_elem_of_lookup_2 with i. by rewrite list_lookup_insert_ne. Qed.
Lemma elem_of_delete_other {B} (l : list B) i j x : l !! i = Some x → i ≠ j → x ∈ delete j l.
Proof.
  intros Hi Hne. destruct (decide (i < j)%nat).
  - apply list_elem_of_lookup_2 with i. by rewrite list_lookup_delete_lt.
  - apply list_elem_of_lookup_2 with (pred i). rewrite list_lookup_delete_ge by lia.
    by replace (S (pred i)) with i by lia.
Qed.

Lemma delete_app_l {B} (l k : list B) i : (i < length l)%nat → delete i (l ++ k) = delete i l ++ k.
Proof.
  intros Hi. rewrite !delete_take_drop, take_app_le, <- app_assoc by lia.
  by rewrite drop_app_le by lia.
Qed.

(** Futures in flight, safe, and for each goal of [Qs] either it is reached or one of them reaches it. *)
Definition in_flight P A (Qs : list (log → Prop)) (ts : list (io unit)) l : Prop :=
  Forall (λ t, sat P A t l (λ _ _, True)) ts ∧
  Forall (λ Q : log → Prop, Q l ∨ ∃ t, t ∈ ts ∧ sat P A t l (λ _ l', Q l')) Qs.

Lemma in_flight_mono P A Qs ts l l' :
  log_monotone P → Forall lasting Qs → l ⊆ l' →
  in_flight P A Qs ts l → in_flight P A Qs ts l'.
Proof.
  intros HP HQ Hl [Hs Hd]. split.
  - eapply Forall_impl; [exact Hs|]. intros t. by apply sat_log_mono.
  - rewrite Forall_forall in HQ, Hd |- *. intros Q Hin. destruct (Hd Q Hin) as [?|(t & Ht & Hq)].
    + left. by eapply HQ.
    + right. exists t. split; [done|]. eapply sat_log_mono; [done| |done|done]. intros _. by apply HQ.
Qed.

(** One of them makes a step, to what is left of it if anything is. *)
Lemma in_flight_step P A Qs ts l l' j t o :
  log_monotone P → Forall lasting Qs → l ⊆ l' → ts !! j = Some t →
  in_flight P A Qs ts l →
  (∀ Q : log → Prop, sat P A t l (λ _ l', Q l') →
     match o with None => Q l' | Some t' => sat P A t' l' (λ _ l', Q l') end) →
  in_flight P A Qs (match o with None => delete j ts | Some t' => <[j := t']> ts end) l'.
Proof.
  intros HP HQ Hl Hj Hf Ho. destruct (in_flight_mono _ _ _ _ _ l' HP HQ Hl Hf) as [Hs' _].
  destruct Hf as [Hs Hd]. split.
  - destruct o as [t'|]; [apply Forall_insert; [done|]|by apply Forall_delete].
    apply (Ho (λ _, True)). exact (Forall_lookup_1 _ _ _ _ Hs Hj).
  - rewrite Forall_forall in HQ, Hd |- *. intros Q Hin. destruct (Hd Q Hin) as [Hq|(u & Hu & Hq)];
      [left; by eapply HQ|]. apply list_elem_of_lookup_1 in Hu as [i Hi]. destruct (decide (i = j)) as [->|Hne].
    + assert (u = t) as -> by congruence. specialize (Ho Q Hq). destruct o as [t'|]; [right|by left].
      exists t'. split; [|done]. apply list_elem_of_lookup_2 with j. apply list_lookup_insert_eq.
      by eapply lookup_lt_Some.
    + right. exists u. split; [|eapply sat_log_mono; [done|intros _; by apply HQ|exact Hl|exact Hq]].
      destruct o; [by eapply elem_of_insert_other|by eapply elem_of_delete_other].
Qed.

Lemma in_flight_poll P A Qs active pending l :
  log_monotone P → (∀ n l, P _ (Pick n) l) → Forall lasting Qs →
  in_flight P A Qs (active ++ pending) l →
  sat P A (poll active pending) l (λ r l', match r with
    | inl s => in_flight P A Qs (s.1 ++ s.2) l' | inr _ => Forall (λ Q : log → Prop, Q l') Qs end).
Proof.
  intros HP Hpick HQ Hf. apply sat_bind, sat_call; [apply Hpick|]. intros i _. cbv zeta.
  set (j := (i mod length active)%nat). set (x := mkEntry _ _ i).
  assert (in_flight P A Qs (active ++ pending) (l ++ [x])) as H1.
  { eapply in_flight_mono; [done|done|apply subseteq_snoc|done]. }
  destruct (active !! j) as [t|] eqn:Et; [|by apply sat_ret].
  assert ((active ++ pending) !! j = Some t) as Hj by by apply lookup_app_l_Some.
  apply sat_bind. eapply sat_mono; [apply step_future_sat; exact (Forall_lookup_1 _ _ _ _ (proj1 H1) Hj)|].
  intros o l2 [Hl2 Ho]. apply sat_ret.
  pose proof (in_flight_step _ _ _ _ _ _ _ _ _ HP HQ Hl2 Hj H1 Ho) as H2.
  assert (j < length active)%nat as Hlt by by eapply lookup_lt_Some.
  destruct o as [t'|]; [by rewrite insert_app_l in H2|by rewrite delete_app_l in H2].
Qed.

(** Futures that are safe on their own are safe together, if what is required of their calls is
    monotone; and what one of them achieves has been achieved when all have ended. *)
Lemma sat_concurrent_all P A limit tasks (Qs : list (log → Prop)) l :
  log_monotone P → (∀ n l, P _ (Pick n) l) → (0 < limit)%nat ∨ Qs = [] →
  Forall lasting Qs → Forall (λ t, sat P A t l (λ _ _, True)) tasks →
  Forall (λ Q : log → Prop, ∃ t, t ∈ tasks ∧ sat P A t l (λ _ l', Q l')) Qs →
  sat P A (concurrent limit tasks) l (λ _ l', Forall (λ Q : log → Prop, Q l') Qs).
Proof.
  intros HP Hpick Hlim HQ Ht Hg.
  apply sat_iter with (Inv := λ s l, in_flight P A Qs (s.1 ++ s.2) l).
  2: { split; [exact Ht|]. eapply Forall_impl; [exact Hg|]. intros Q H. by right. }
  clear l tasks Ht Hg. intros [active pending] l Hf. simpl in Hf.
  assert (Hend : active ++ pending = [] → Forall (λ Q : log → Prop, Q l) Qs).
  { intros E. eapply Forall_impl; [apply Hf|]. intros Q [?|(t & Hin & _)]; [done|].
    rewrite E in Hin. by apply not_elem_of_nil in Hin. }
  destruct pending as [|t pending].
  - destruct active; [by apply sat_ret, Hend|by apply in_flight_poll].
  - destruct (_ <? _)%nat eqn:Hlt; [apply sat_ret; simpl; by rewrite <- app_assoc|].
    destruct active; [|by apply in_flight_poll]. apply sat_ret. destruct Hlim as [Hlim| ->]; [|done].
    apply Nat.ltb_ge in Hlt. simpl in Hlt. lia.
Qed.

Lemma sat_concurrent P A limit tasks l :
  log_monotone P → (∀ n l, P _ (Pick n) l) →
  Forall (λ t, sat P A t l (λ _ _, True)) tasks →
  sat P A (concurrent limit tasks) l (λ _ _, True).
Proof. intros HP Hpick Ht. eapply sat_mono; [apply (sat_concurrent_all P A limit tasks [] l HP Hpick (or_intror eq_refl))|done]; auto using Forall_nil_2. Qed.

(** Futures that end on their own end together: one step of one of them, or its removal, makes the
    list of futures smaller. *)
Definition shrinks A (t' t : io unit) : Prop :=
  match observe t with
  | RetF _ => False
  | TauF u => t' = u
  | VisF e k => ∃ x, A _ e x ∧ t' = k x
  end.
Inductive list_shrinks A : list (io unit) → list (io unit) → Prop :=
  | list_shrinks_step a b t t' : shrinks A t' t → list_shrinks A (a ++ t' :: b) (a ++ t :: b)
  | list_shrinks_done a b t : list_shrinks A (a ++ b) (a ++ t :: b).

Lemma term_shrinks A Q (t : io unit) : term A Q t → Acc (shrinks A) t.
Proof.
  induction 1 as [t r E Hr|t t' E _ IH|t Y e k E _ IH]; constructor; intros u Hu;
    unfold shrinks in Hu; rewrite E in Hu.
  - done.
  - by subst.
  - destruct Hu as (x & Hx & ->). by apply IH.
Qed.

Lemma list_shrinks_cons A t (l : list (io unit)) : Acc (shrinks A) t → Acc (list_shrinks A) l → Acc (list_shrinks A) (t :: l).
Proof.
  intros Ht. revert l. induction Ht as [t _ IHt]. intros l Hl. induction Hl as [l Hl IHl].
  constructor. intros u Hu. inversion Hu as [a b v v' Hv E1 E2|a b v E1 E2].
  - destruct a as [|w a]; simplify_eq/=.
    + apply IHt; [done|]. by constructor.
    + apply IHl. by constructor.
  - destruct a as [|w a]; simplify_eq/=.
    + by constructor.
    + apply IHl. constructor.
Qed.

Lemma list_shrinks_acc A (l : list (io unit)) : Forall (λ t, Acc (shrinks A) t) l → Acc (list_shrinks A) l.
Proof.
  induction 1 as [|t l Ht _ IH]; [|by apply list_shrinks_cons].
  constructor. intros u Hu. inversion Hu as [a b v v' Hv E1 E2|a b v E1 E2]; by destruct a.
Qed.

(** The states of [concurrent]: a future is polled, or one starts. *)
Definition turn_smaller A (s' s : list (io unit) * list (io unit)) : Prop :=
  list_shrinks A (s'.1 ++ s'.2) (s.1 ++ s.2) ∨
  (s'.1 ++ s'.2 = s.1 ++ s.2 ∧ (length s'.2 < length s.2)%nat).

Lemma turn_smaller_acc A s : Acc (list_shrinks A) (s.1 ++ s.2) → Acc (turn_smaller A) s.
Proof.
  remember (s.1 ++ s.2) as l eqn:El. intros H. revert s El. induction H as [l _ IH].
  intros s. remember (length s.2) as n eqn:En. revert s En.
  induction (lt_wf n) as [n _ IHn]. intros s -> ->. constructor. intros s' [Hs|[E Hn]].
  - by eapply IH.
  - by eapply IHn.
Qed.

Lemma term_poll A active pending :
  active ≠ [] →
  term A (λ r, match r with inl j => turn_smaller A j (active, pending) ∧ True | inr _ => True end)
    (poll active pending).
Proof.
  intros Ha. eapply term_bind; [by apply term_call with (Q := λ _, True)|]. intros i _. cbv zeta.
  set (j := (i mod length active)%nat).
  assert (j < length active)%nat as Hj.
  { apply Nat.mod_upper_bound. by destruct active. }
  destruct (lookup_lt_is_Some_2 _ _ Hj) as [t Et]. rewrite Et.
  pose proof (take_drop_middle _ _ _ Et) as E.
  eapply term_bind with (Q := λ o, match o with None => True | Some t' => shrinks A t' t end).
  - unfold step_future, shrinks. destruct (observe t) as [r|u|Y e k]; [by apply term_ret..|].
    eapply term_bind; [by apply term_call with (Q := A Y e)|]. intros x Hx. apply term_ret. eauto.
  - intros [t'|] Ht; apply term_ret; (split; [left|done]); simpl.
    + rewrite <- E at 2. rewrite insert_take_drop by done. rewrite <- !app_assoc. by constructor.
    + rewrite <- E at 2. rewrite delete_take_drop. rewrite <- !app_assoc. constructor.
Qed.

Lemma term_concurrent A limit tasks :
  Forall (λ t, term A (λ _, True) t) tasks → term A (λ _, True) (concurrent limit tasks).
Proof.
  intros Ht. apply term_iter_acc with (smaller := turn_smaller A) (Inv := λ _, True); [|  |done].
  2: { apply turn_smaller_acc, list_shrinks_acc. simpl. eapply Forall_impl; [exact Ht|].
       intros t. apply term_shrinks. }
  clear. intros [active pending] _. destruct pending as [|t pending].
  - destruct active; [by apply term_ret | by apply term_poll].
  - destruct (_ <? _)%nat.
    + apply term_ret. split; [right|done]. simpl. split; [by rewrite <- app_assoc|lia].
    + destruct active; [by apply term_ret | by apply term_poll].
Qed.
End Logic.

(** ** Running *)

Inductive outcome (R : Type) :=
  | Returned (r : R)
  | Stopped
  | OutOfFuel.
Arguments Returned {R} r.
Arguments Stopped {R}.
Arguments OutOfFuel {R}.

Section Run.
Context `{X : Ext} {W : Type}.

(** What answers the calls: a state and a function; [None] stops the program, as a panic does. *)
Definition handler := ∀ R, callE R → W → option (R * W).
Context (h : handler).

Fixpoint run {R} (n : nat) (t : io R) (w : W) (l : log) : outcome R * log :=
  match n with
  | O => (OutOfFuel, l)
  | S n =>
      match observe t with
      | RetF r => (Returned r, l)
      | TauF t => run n t w l
      | VisF e k =>
          match h _ e w with
          | None => (Stopped, l)
          | Some (x, w) => run n (k x) w (l ++ [mkEntry _ e x])
          end
      end
  end.

(** What [sat] promises is true of every run. *)
Lemma run_sat (P : spec) (A : env) {R} n (t : io R) w l Q r l' :
  (∀ Y (e : callE Y) w x w', h Y e w = Some (x, w') → A Y e x) →
  sat P A t l Q → run n t w l = (Returned r, l') → Q r l'.
Proof.
  intros HA. revert t w l. induction n as [|n IH]; intros t w l Hs Hr; simpl in Hr; [done|].
  apply sat_observe in Hs. destruct (observe t) as [r'|t'|Y e k].
  - by injection Hr as -> ->.
  - by eapply IH.
  - destruct Hs as [_ Hk]. destruct (h Y e w) as [[x w']|] eqn:Hh; [|done].
    eapply IH; [|exact Hr]. apply Hk. by eapply HA.
Qed.

Lemma run_log {R} n (t : io R) w l : ∃ l', (run n t w l).2 = l ++ l'.
Proof.
  revert t w l. induction n as [|n IH]; intros t w l; simpl; [exists []; by rewrite app_nil_r|].
  destruct (observe t) as [r|t'|Y e k]; [exists []; by rewrite app_nil_r|apply IH|].
  destruct (h Y e w) as [[x w']|]; [|exists []; by rewrite app_nil_r].
  destruct (IH (k x) w' (l ++ [mkEntry Y e x])) as [l' ->]. rewrite <- app_assoc. by eexists.
Qed.

(** So is what it requires of the calls made. *)
Lemma run_sat_calls (P : spec) (A : env) {R} n (t : io R) w l Q i x :
  (∀ Y (e : callE Y) w x w', h Y e w = Some (x, w') → A Y e x) →
  sat P A t l Q → (length l ≤ i)%nat → (run n t w l).2 !! i = Some x →
  P _ (ent_call x) (take i (run n t w l).2).
Proof.
  intros HA. revert t w l. induction n as [|n IH]; intros t w l Hs Hi Hx; simpl in *;
    [apply lookup_lt_Some in Hx; lia|].
  apply sat_observe in Hs. destruct (observe t) as [r|t'|Y e k].
  - apply lookup_lt_Some in Hx. simpl in Hx. lia.
  - by apply IH.
  - destruct Hs as [HP Hk]. destruct (h Y e w) as [[y w']|] eqn:Hh; simpl in *;
      [|apply lookup_lt_Some in Hx; lia].
    destruct (decide (i = length l)) as [->|Hne].
    + destruct (run_log n (k y) w' (l ++ [mkEntry Y e y])) as [l' E].
      rewrite E, <- app_assoc in Hx |- *. apply (eq_trans (eq_sym (list_lookup_middle _ _ _ _ eq_refl))) in Hx.
      injection Hx as <-. by rewrite take_app_length.
    + apply IH; [by eapply Hk, HA|rewrite length_app; simpl; lia|done].
Qed.

(** The same, for a call of a run picked by a test that can be computed. *)
Lemma run_sat_picked (P : spec) (A : env) {R} n (t : io R) w Q i (test : entry → bool) :
  (∀ Y (e : callE Y) w x w', h Y e w = Some (x, w') → A Y e x) → sat P A t [] Q →
  test <$> (run n t w []).2 !! i = Some true →
  ∃ x, (run n t w []).2 !! i = Some x ∧ test x = true ∧ P _ (ent_call x) (take i (run n t w []).2).
Proof.
  intros HA Hs Hi. destruct ((run n t w []).2 !! i) as [x|] eqn:Hx; [|done]. exists x.
  split; [done|]. split; [by injection Hi|]. by eapply run_sat_calls; [|exact Hs|simpl; lia|].
Qed.
End Run.
