(* ===== verification/Host.v ===== *)
(** * What the command line tool relies on

    The [url] crate, the constructors of [deep_space] and [clarity] that read keys, [toml] and
    [dirs]: third-party code, as an interface like the one of External.v. *)

From S2P Require Import Prelude Bytes Proto External Types Effects.

(** config.rs: what keys.json holds. *)
Record KeyStorage `{Ext} := mkKeyStorage {
  orchestrator_phrase : option string;
  ethereum_key : option EthPrivateKey;
}.
Arguments mkKeyStorage {_}.

Class Tools `{X : Ext} := {
  (** [url::Url]; [port] is [None] where the port is missing or the default of the scheme. *)
  Url : Type;
  url_parse : string → result Url string;
  url_scheme : Url → string;
  url_port : Url → option Z;
  url_host_str : Url → option string;
  (** Whether [Contact::new(url, timeout, prefix)] succeeds. *)
  contact_new_ok : string → Duration → string → bool;
  cosmos_key_from_phrase : string → string → result CosmosPrivateKey PrivateKeyError;
  eth_key_from_slice : bytes → result EthPrivateKey ClarityError;
  (** [toml::from_str] and [to_string], at the two types the tool reads and writes. *)
  toml_parse_config : string → result GravityBridgeToolsConfig string;
  toml_parse_keys : string → result KeyStorage string;
  toml_print_keys : KeyStorage → result string string;
  (** [dirs::home_dir()] *)
  default_home : option PathBuf;
}.

Class ToolsLaws `(T : Tools) := {
  (** What is printed reads back. *)
  law_toml_keys : ∀ k s, toml_print_keys k = Ok s → toml_parse_keys s = Ok k;
}.
