(* ===== verification/Config.v ===== *)
(** * Files and keys of the command line tool: nabt/src/config.rs, keys.rs and utils.rs

    The functions that only touch files are functions on what the disk holds; a write that the disk
    refuses is a panic, as in the code, and leaves what was written before it. *)

From S2P Require Import Prelude Bytes Proto External Float Instances Types Effects Host.
From Stdlib Require Import SpecFloat.

Section Config.
Context `{X : Ext} `{T : !Tools}.

(** ** [std::path] and [std::fs] *)

Definition join_path (p : PathBuf) (name : string) : PathBuf := p ++ [name].
Definition parent (p : PathBuf) : PathBuf := removelast p.
Definition with_file_name (p : PathBuf) (name : string) : PathBuf := parent p ++ [name].
Definition path_exists (d : disk) (p : PathBuf) : bool :=
  bool_decide (p ∈ dirs d) || bool_decide (is_Some (files d !! p)).
Definition read_file (d : disk) (p : PathBuf) : result string unit :=
  match files d !! p with Some s => Ok s | None => Err tt end.
(** [.expect(why)] *)
Definition expect {A E} (r : result A E) (why : string) : eval A :=
  match r with Ok a => Done a | Err _ => Panic why end.

(** What changes files: the new disk is there after a panic too. *)
Definition fs (A : Type) : Type := disk → eval A * disk.
Definition fs_ret {A} (a : A) : fs A := λ d, (Done a, d).
Definition fs_read {A} (f : disk → eval A) : fs A := λ d, (f d, d).
Definition fs_bind {A B} (m : fs A) (f : A → fs B) : fs B := λ d,
  let '(r, d) := m d in match r with Done a => f a d | Panic w => (Panic w, d) end.
(** [m?] *)
Definition fs_try {A B} (m : fs (result A GravityError)) (f : A → fs (result B GravityError)) :
    fs (result B GravityError) :=
  fs_bind m (λ r, match r with Ok a => f a | Err e => fs_ret (Err e) end).

(** [fs::write(p, contents).expect(why)] and [create_dir(p).expect(why)] *)
Definition write_file (p : PathBuf) (contents why : string) : fs unit := λ d,
  if bool_decide (p ∈ dirs d) || negb (bool_decide (parent p ∈ dirs d)) then (Panic why, d)
  else (Done tt, mkDisk (dirs d) (<[p := contents]> (files d))).
Definition create_dir (p : PathBuf) (why : string) : fs unit := λ d,
  if path_exists d p || negb (bool_decide (parent p ∈ dirs d)) then (Panic why, d)
  else (Done tt, mkDisk ({[p]} ∪ dirs d) (files d)).

(** ** config.rs *)

Definition CONFIG_NAME : string := "config.toml".
Definition KEYS_NAME : string := "keys.json".
Definition CONFIG_FOLDER : string := ".nabt".

Definition key_storage_default : KeyStorage := mkKeyStorage None None.

Definition config_exists (home_dir : PathBuf) (d : disk) : bool :=
  let config_file := with_file_name (join_path home_dir CONFIG_FOLDER) CONFIG_NAME in
  let keys_file := with_file_name (join_path home_dir CONFIG_FOLDER) KEYS_NAME in
  path_exists d home_dir && path_exists d config_file && path_exists d keys_file.

(** default-config.toml *)
Definition get_default_config : string :=
"# Orchestrator configuration options
[orchestrator]
# If the built-in relayer is enabled, this relayer is configured in the [relayer] section
relayer_enabled = true

[relayer]
valset_market_enabled = false
batch_market_enabled = false
logic_call_market_enabled = false".

Definition init_config (home_dir : PathBuf) : fs (result unit GravityError) :=
  fs_bind (fs_read (λ d, Done (path_exists d home_dir))) (λ exists_already,
  if exists_already : bool then fs_ret (Err (ValidationError "Directory already exists"))
  else
    fs_bind (create_dir home_dir "Failed to create config directory!") (λ _,
    fs_bind (write_file (join_path home_dir CONFIG_NAME) get_default_config "Unable to write config file") (λ _,
    fs_bind (fs_read (λ _, unwrap (toml_print_keys key_storage_default))) (λ keys,
    fs_bind (write_file (join_path home_dir KEYS_NAME) keys "Unable to write config file") (λ _,
    fs_ret (Ok tt)))))).

Definition get_home_dir (home_arg : option PathBuf) : result PathBuf GravityError :=
  match default_home, home_arg with
  | _, Some user_home => Ok user_home
  | Some default_home_dir, None => Ok (join_path default_home_dir CONFIG_FOLDER)
  | None, None => Err (UnrecoverableError
      "Failed to automatically determine your home directory, please provide a path to the --home argument!")
  end.

Definition load_config (home_dir : PathBuf) (d : disk) : eval (result GravityBridgeToolsConfig GravityError) :=
  let config_file := with_file_name (join_path home_dir CONFIG_FOLDER) CONFIG_NAME in
  if negb (path_exists d config_file) then Done (Ok tools_config_default)
  else
    let! config := expect (read_file d config_file) "Could not find config file! Run `nabt init`" in
    Done (map_err (λ _, UnrecoverableError "Invalid config! {:?}") (toml_parse_config config)).

Definition load_keys (home_dir : PathBuf) (d : disk) : eval (result KeyStorage GravityError) :=
  let keys_file := with_file_name (join_path home_dir CONFIG_FOLDER) KEYS_NAME in
  if negb (path_exists d keys_file) then
    Done (Err (UnrecoverableError "Keys file at {} not detected, use `nabt init` to generate a config."))
  else
    let! keys := unwrap (read_file d keys_file) in
    Done (map_err (λ _, UnrecoverableError "Invalid keys! {:?}") (toml_parse_keys keys)).

Definition save_keys (home_dir : PathBuf) (updated_keys : KeyStorage) : fs unit :=
  fs_bind (fs_read (λ _, unwrap (toml_print_keys updated_keys))) (λ keys,
  write_file (join_path home_dir KEYS_NAME) keys "Unable to write config file").

(** ** keys.rs *)

Definition not_initialised : GravityError :=
  UnrecoverableError "Please run `nabt init` before running this command!".

(** The two addresses are only logged; the code panics if one cannot be had. *)
Definition show_keys (home_dir : PathBuf) (prefix : string) (d : disk) : eval (result unit GravityError) :=
  if negb (config_exists home_dir d) then Done (Err not_initialised)
  else
    let? keys := load_keys home_dir d in
    let! _ := match orchestrator_phrase keys with
      | Some v =>
          let! key := expect (cosmos_key_from_phrase v "") "Failed to decode key in keyfile. Did you edit it manually?" in
          let! _ := unwrap (cosmos_key_to_address key prefix) in Done tt
      | None => Done tt
      end in
    Done (Ok tt).

Definition set_eth_key (home_dir : PathBuf) (key : EthPrivateKey) : fs (result unit GravityError) :=
  fs_bind (fs_read (λ d, Done (config_exists home_dir d))) (λ set_up,
  if negb set_up then fs_ret (Err not_initialised)
  else
    fs_try (fs_read (load_keys home_dir)) (λ keys,
    fs_bind (save_keys home_dir (mkKeyStorage (orchestrator_phrase keys) (Some key))) (λ _, fs_ret (Ok tt)))).

Definition set_orchestrator_key (home_dir : PathBuf) (phrase : string) : fs (result unit GravityError) :=
  fs_bind (fs_read (λ d, Done (config_exists home_dir d))) (λ set_up,
  if negb set_up then fs_ret (Err not_initialised)
  else
    match cosmos_key_from_phrase phrase "" with
    | Err _ => fs_ret (Err (UnrecoverableError "Invalid Cosmos mnemonic phrase {} {:?}"))
    | Ok _ =>
        fs_try (fs_read (load_keys home_dir)) (λ keys,
        fs_bind (save_keys home_dir (mkKeyStorage (Some phrase) (ethereum_key keys))) (λ _, fs_ret (Ok tt)))
    end).

(** ** utils.rs *)

Definition CLIENT_TIMEOUT : Duration := 60.

Definition f64_ten : f64 := f64_of_u128 10.

(** [x as u128]: towards zero, NaN as zero, and what is out of range as the nearest bound. *)
Definition f64_to_u128 (x : f64) : Z :=
  match x with
  | S754_nan | S754_zero _ => 0
  | S754_infinity s => if s then 0 else U128_MAX
  | S754_finite s m e => if s then 0 else Z.min U128_MAX (Z.shiftl (Z.pos m) e)
  end.

Fixpoint times_ten (n : nat) (res : f64) : f64 :=
  match n with O => res | S n => times_ten n (f64_mul res f64_ten) end.
Definition fraction_to_exponent (num : f64) (exponent : Z) : Uint256 :=
  f64_to_u128 (times_ten (Z.to_nat exponent) num).
End Config.
