(* ===== verification/ConfigTheory.v ===== *)
(** * The files of the tool: what is saved is what is loaded

    [init_sets_up] and the two key commands of keys.rs, by what the next run finds on the disk. *)

From S2P Require Import Prelude Bytes Proto External Float Instances Types Effects Host Config.
From Stdlib Require Import SpecFloat.

Section ConfigTheory.
Context `{X : Ext} `{T : !Tools} `{TL : !ToolsLaws T}.
Implicit Types (d : disk) (home : PathBuf).

(** ** Paths *)

Lemma parent_join home name : parent (join_path home name) = home.
Proof. unfold parent, join_path. by rewrite removelast_last. Qed.
(** The folder is joined and taken off again: the files are in the home directory itself. *)
Lemma with_file_name_join home folder name : with_file_name (join_path home folder) name = join_path home name.
Proof. unfold with_file_name. by rewrite parent_join. Qed.
Lemma join_path_inj home a b : join_path home a = join_path home b → a = b.
Proof. unfold join_path. by intros [_ [= ->]]%app_inj_tail_iff. Qed.

Definition keys_file home : PathBuf := join_path home KEYS_NAME.
Definition config_file home : PathBuf := join_path home CONFIG_NAME.

Lemma load_keys_eq home d :
  load_keys home d =
    (if path_exists d (keys_file home) then
      match files d !! keys_file home with
      | Some s => Done (map_err (λ _, UnrecoverableError "Invalid keys! {:?}") (toml_parse_keys s))
      | None => Panic "called `Result::unwrap()` on an `Err` value"
      end
    else Done (Err (UnrecoverableError "Keys file at {} not detected, use `nabt init` to generate a config."))).
Proof.
  unfold load_keys, read_file. rewrite with_file_name_join. fold (keys_file home).
  destruct (path_exists d (keys_file home)); [|done]. by destruct (files d !! keys_file home).
Qed.

Lemma config_exists_eq home d :
  config_exists home d = path_exists d home && path_exists d (config_file home) && path_exists d (keys_file home).
Proof. unfold config_exists. by rewrite !with_file_name_join. Qed.

Lemma path_exists_file d p s : files d !! p = Some s → path_exists d p = true.
Proof. intros H. unfold path_exists. rewrite H, (bool_decide_true (is_Some _)) by done. by rewrite orb_true_r. Qed.

(** ** Writing *)

Lemma fs_bind_Done {A B} (m : fs A) (f : A → fs B) d a d' : m d = (Done a, d') → fs_bind m f d = f a d'.
Proof. unfold fs_bind. by intros ->. Qed.

Lemma write_file_Done p contents why d d' :
  write_file p contents why d = (Done tt, d') →
  p ∉ dirs d ∧ parent p ∈ dirs d ∧ dirs d' = dirs d ∧ files d' = <[p := contents]> (files d).
Proof.
  unfold write_file. repeat case_bool_decide; simpl; intros [= <-]; simpl; auto.
Qed.

(** The keys on the disk are [keys], and nothing but the key file differs from [d]. *)
Definition keys_replaced home d d' (keys : KeyStorage) : Prop :=
  load_keys home d' = Done (Ok keys) ∧ dirs d' = dirs d ∧
  ∀ p, p ≠ keys_file home → files d' !! p = files d !! p.

Lemma save_keys_loads home keys d d' :
  save_keys home keys d = (Done tt, d') → keys_replaced home d d' keys.
Proof.
  unfold save_keys, fs_bind, fs_read. destruct (toml_print_keys keys) as [s|e] eqn:Hs; simpl; [|done].
  intros (_ & _ & Hdirs & Hfiles)%write_file_Done. fold (keys_file home) in Hfiles. split_and!.
  - rewrite load_keys_eq. assert (files d' !! keys_file home = Some s) as Hk by (by rewrite Hfiles, lookup_insert_eq).
    rewrite (path_exists_file _ _ _ Hk), Hk. simpl. by rewrite (law_toml_keys _ _ Hs).
  - done.
  - intros p Hp. by rewrite Hfiles, lookup_insert_ne.
Qed.

(** The tail the two commands share: load, change, save. *)
Definition updates home d d' (r : eval (result unit GravityError)) (f : KeyStorage → KeyStorage) : Prop :=
  match r with
  | Done (Ok _) => ∃ keys, load_keys home d = Done (Ok keys) ∧ keys_replaced home d d' (f keys)
  | _ => d' = d
  end.

Lemma save_keys_Panic home keys w d d' : save_keys home keys d = (Panic w, d') → d' = d.
Proof.
  unfold save_keys, fs_bind, fs_read. destruct (toml_print_keys _); simpl; [|by intros [= _ <-]].
  unfold write_file. repeat case_bool_decide; simpl; by intros [= _ <-].
Qed.

Lemma update_keys_spec home (f : KeyStorage → KeyStorage) d r d' :
  fs_try (fs_read (load_keys home)) (λ keys, fs_bind (save_keys home (f keys)) (λ _, fs_ret (Ok tt))) d = (r, d') →
  updates home d d' r f.
Proof.
  unfold fs_try, fs_bind at 1, fs_read. destruct (load_keys home d) as [[keys|e]|w] eqn:Hk; simpl;
    [|by intros [= <- <-]..].
  unfold fs_bind. destruct (save_keys _ _ d) as [[[]|w] d1] eqn:Hs; intros [= <- <-]; simpl.
  - exists keys. split; [done|]. by apply save_keys_loads.
  - by eapply save_keys_Panic.
Qed.

(** [set_eth_key] and [set_orchestrator_key] change one key and nothing else: when one succeeds, the
    tool was set up, and loading the keys gives what was stored, but for the key set; no other file
    is touched. A failure, for a tool that was not set up, an unreadable key file or a phrase that
    is not one, leaves the disk as it was. *)
Theorem set_keys_loads home d d' r :
  (∀ key, set_eth_key home key d = (r, d') →
     updates home d d' r (λ keys, mkKeyStorage (orchestrator_phrase keys) (Some key)) ∧
     (r = Done (Ok tt) → config_exists home d = true)) ∧
  (∀ phrase, set_orchestrator_key home phrase d = (r, d') →
     updates home d d' r (λ keys, mkKeyStorage (Some phrase) (ethereum_key keys)) ∧
     (r = Done (Ok tt) → config_exists home d = true ∧ is_ok (cosmos_key_from_phrase phrase "") = true)).
Proof.
  split.
  - intros key. unfold set_eth_key, fs_bind at 1, fs_read at 1.
    destruct (config_exists home d); simpl; [|by intros [= <- <-]].
    intros H. split; [|done]. by apply update_keys_spec in H.
  - intros phrase. unfold set_orchestrator_key, fs_bind at 1, fs_read at 1.
    destruct (config_exists home d); simpl; [|by intros [= <- <-]].
    destruct (cosmos_key_from_phrase phrase ""); simpl; [|by intros [= <- <-]].
    intros H. split; [|done]. by apply update_keys_spec in H.
Qed.

(** ** init *)

(** A directory's parent is one. *)
Definition disk_wf d : Prop := ∀ p, p ∈ dirs d → parent p ∈ dirs d.

Lemma write_new p contents why d :
  p ∉ dirs d → parent p ∈ dirs d →
  write_file p contents why d = (Done tt, mkDisk (dirs d) (<[p := contents]> (files d))).
Proof. intros H1 H2. unfold write_file. by rewrite (bool_decide_false (p ∈ _)), (bool_decide_true (parent p ∈ _)). Qed.

Lemma join_path_ne home name : join_path home name ≠ home.
Proof. unfold join_path. intros H. apply (f_equal length) in H. rewrite length_app in H. simpl in H. lia. Qed.

(** [init_config] refuses a home directory that exists, and touches nothing; where the parent
    exists and the home directory does not, it succeeds, and the tool is set up: the configuration
    file is the default one, loading the keys gives none, and every other file is as it was. *)
Theorem init_sets_up home d keys_text :
  disk_wf d → toml_print_keys key_storage_default = Ok keys_text →
  if path_exists d home then
    init_config home d = (Done (Err (ValidationError "Directory already exists")), d)
  else parent home ∈ dirs d → ∃ d', init_config home d = (Done (Ok tt), d') ∧
    config_exists home d' = true ∧ load_keys home d' = Done (Ok key_storage_default) ∧
    files d' !! config_file home = Some get_default_config ∧ dirs d' = {[home]} ∪ dirs d ∧
    ∀ p, p ≠ config_file home → p ≠ keys_file home → files d' !! p = files d !! p.
Proof.
  intros Hwf Hprint. unfold init_config.
  rewrite (fs_bind_Done _ _ d (path_exists d home) d) by done.
  destruct (path_exists d home) eqn:Hex; [done|]. intros Hp.
  assert (home ∉ dirs d) as Hnew.
  { unfold path_exists in Hex. apply orb_false_iff in Hex as [Hex _]. by apply bool_decide_eq_false in Hex. }
  assert (∀ name, join_path home name ∉ {[home]} ∪ dirs d) as Hfresh.
  { intros name. rewrite elem_of_union, elem_of_singleton. intros [H|H%Hwf]; [by eapply join_path_ne|].
    by rewrite parent_join in H. }
  erewrite fs_bind_Done by (unfold create_dir; by rewrite Hex, (bool_decide_true (parent home ∈ _))).
  erewrite fs_bind_Done by (apply write_new; rewrite ?parent_join; cbn [dirs]; set_solver).
  erewrite fs_bind_Done by (unfold fs_read; by rewrite Hprint).
  erewrite fs_bind_Done by (apply write_new; rewrite ?parent_join; cbn [dirs]; set_solver). cbn [dirs files].
  eexists. split; [done|].
  fold (keys_file home) (config_file home). set (d' := mkDisk _ _).
  assert (config_file home ≠ keys_file home) as Hne by (by intros ?%join_path_inj).
  assert (files d' !! keys_file home = Some keys_text) as Hk by (simpl; by rewrite lookup_insert_eq).
  assert (files d' !! config_file home = Some get_default_config) as Hcf.
  { simpl. by rewrite lookup_insert_ne, lookup_insert_eq. }
  split_and!.
  - rewrite config_exists_eq, (path_exists_file _ _ _ Hk), (path_exists_file _ _ _ Hcf).
    unfold path_exists. rewrite (bool_decide_true (home ∈ _)) by (simpl; set_solver). done.
  - rewrite load_keys_eq, (path_exists_file _ _ _ Hk), Hk. by rewrite (law_toml_keys _ _ Hprint).
  - done.
  - done.
  - intros p H1 H2. simpl. by rewrite !lookup_insert_ne.
Qed.
End ConfigTheory.
