(* ===== verification/FractionTheory.v ===== *)
(** * How far fraction_to_exponent is from exact: nabt/src/utils.rs

    The amount a user types is a double; the tool multiplies it by ten once per decimal of the token
    and truncates. [fraction_error] bounds the result on the positive doubles from 2^-948 to 2^553, and
    the examples show what the truncation does. *)

From S2P Require Import Prelude Bytes Proto External Float Instances Types Effects Host Config.
From Stdlib Require Import SpecFloat.

(** ** One multiplication *)

(** Ten, with its 53 bits. *)
Definition TEN : Z := 5629499534213120.
Lemma f64_ten_eq : f64_ten = fin TEN (-49).
Proof. vm_compute. reflexivity. Qed.

(** Rounding is off by at most half of the last bit kept. *)
Lemma rne_error m n : 0 ≤ n → Z.abs (rne m n * 2 ^ n - m) * 2 ≤ 2 ^ n.
Proof.
  intros Hn. assert (0 < 2 ^ n) by (apply Z.pow_pos_nonneg; lia). unfold rne.
  pose proof (Z.div_mod m (2 ^ n) ltac:(lia)). pose proof (Z.mod_pos_bound m (2 ^ n) ltac:(lia)).
  set (b := 2 ^ n) in *. set (q := m / b) in *. set (r := m mod b) in *.
  destruct (Z.ltb_spec (2 * r) b); [|destruct (Z.ltb_spec b (2 * r))]; [..|destruct (Z.even q)]; nia.
Qed.

(** What one turn of the loop does to [m * 2^e]. *)
Definition ten_step (m e m' e' : Z) : Prop :=
  2 ^ 52 ≤ m' < 2 ^ 53 ∧ e + 3 ≤ e' ≤ e + 5 ∧
  Z.abs (m' * 2 ^ (e' - e) - 10 * m) * 2 ^ 53 ≤ 10 * m.

Lemma mul_ten_round m e n : 2 ^ 52 ≤ m < 2 ^ 53 → -1000 ≤ e ≤ 900 → n = 52 ∨ n = 53 →
  2 ^ (52 + n) ≤ m * TEN < 2 ^ (53 + n) →
  ∃ m' e', f64_mul (fin m e) f64_ten = fin m' e' ∧ ten_step m e m' e'.
Proof.
  intros Hm He Hn HP. rewrite f64_ten_eq. destruct m as [|p|p]; try lia.
  assert (f64_mul (fin (Z.pos p) e) (fin TEN (-49)) =
    binary_round_aux 53 1024 false (Z.pos p * TEN) (e + -49) loc_Exact) as ->.
  { unfold f64_mul, TEN, fin, SFmul. cbn [xorb]. by rewrite Pos2Z.inj_mul. }
  rewrite (round_shift_gen 53 1024) with (n := n); [|lia|lia|done|unfold emin; lia|lia].
  pose proof (rne_mantissa 53 ltac:(lia) (Z.pos p * TEN) n ltac:(lia) HP) as Hr.
  pose proof (rne_error (Z.pos p * TEN) n ltac:(lia)) as Herr.
  set (r := rne (Z.pos p * TEN) n) in *. unfold ten_step.
  assert (Z.abs (r * 2 ^ (n - 49) - 10 * Z.pos p) * 2 ^ 53 ≤ 10 * Z.pos p) as Hbound.
  { unfold TEN in *. destruct Hn as [-> | ->];
      [change (52 - 49) with 3; change (52 + 52) with 104 in HP |
       change (53 - 49) with 4; change (52 + 53) with 105 in HP]; lia. }
  destruct (Z.eqb_spec r (2 ^ 53)) as [E|E].
  - exists (2 ^ 52), (e + -49 + n + 1). split; [done|]. split_and!; [lia..|].
    replace (e + -49 + n + 1 - e) with (n - 49 + 1) by lia. rewrite E in Hbound.
    replace (2 ^ 52 * 2 ^ (n - 49 + 1)) with (2 ^ 53 * 2 ^ (n - 49)); [done|].
    destruct Hn as [-> | ->]; done.
  - exists r, (e + -49 + n). split; [done|]. change (2 ^ (53 - 1)) with (2 ^ 52) in Hr.
    split_and!; [lia..|]. by replace (e + -49 + n - e) with (n - 49) by lia.
Qed.

Lemma mul_ten m e : 2 ^ 52 ≤ m < 2 ^ 53 → -1000 ≤ e ≤ 900 →
  ∃ m' e', f64_mul (fin m e) f64_ten = fin m' e' ∧ ten_step m e m' e'.
Proof.
  intros Hm He. destruct (Z.lt_ge_cases (m * TEN) (2 ^ 105)).
  - apply (mul_ten_round m e 52); [done|done|by left|]. unfold TEN in *. lia.
  - apply (mul_ten_round m e 53); [done|done|by right|]. unfold TEN in *. lia.
Qed.

(** ** The loop *)

(** [N] is [10^k * m] but for [k] relative errors of 2^-53. *)
Definition near (k : nat) (m N : Z) : Prop :=
  (2 ^ 53 - 1) ^ Z.of_nat k * (10 ^ Z.of_nat k * m) ≤ 2 ^ (53 * Z.of_nat k) * N ≤
  (2 ^ 53 + 1) ^ Z.of_nat k * (10 ^ Z.of_nat k * m).

Lemma near_step k m m1 s N :
  0 < s → Z.abs (m1 * s - 10 * m) * 2 ^ 53 ≤ 10 * m → near k m1 N → near (S k) m (N * s).
Proof.
  intros Hs Herr [Hlo Hhi]. unfold near. rewrite Nat2Z.inj_succ, !Z.pow_succ_r by lia.
  replace (53 * Z.succ (Z.of_nat k)) with (53 * Z.of_nat k + 53) by lia. rewrite Z.pow_add_r by lia.
  set (A := (2 ^ 53 - 1) ^ Z.of_nat k) in *. set (B := (2 ^ 53 + 1) ^ Z.of_nat k) in *.
  set (T := 10 ^ Z.of_nat k) in *. set (E := 2 ^ (53 * Z.of_nat k)) in *.
  assert (0 < A) by (apply Z.pow_pos_nonneg; lia). assert (0 < B) by (apply Z.pow_pos_nonneg; lia).
  assert (0 < T) by (apply Z.pow_pos_nonneg; lia).
  assert ((2 ^ 53 - 1) * (10 * m) ≤ m1 * s * 2 ^ 53 ≤ (2 ^ 53 + 1) * (10 * m)) as [Hx Hy] by lia.
  split.
  - transitivity (A * T * (m1 * s * 2 ^ 53)).
    + replace ((2 ^ 53 - 1) * A * (10 * T * m)) with (A * T * ((2 ^ 53 - 1) * (10 * m))) by ring.
      apply Z.mul_le_mono_nonneg_l; [apply Z.mul_nonneg_nonneg; lia|done].
    + replace (A * T * (m1 * s * 2 ^ 53)) with (A * (T * m1) * (s * 2 ^ 53)) by ring.
      replace (E * 2 ^ 53 * (N * s)) with (E * N * (s * 2 ^ 53)) by ring.
      apply Z.mul_le_mono_nonneg_r; [lia|done].
  - transitivity (B * T * (m1 * s * 2 ^ 53)).
    + replace (B * T * (m1 * s * 2 ^ 53)) with (B * (T * m1) * (s * 2 ^ 53)) by ring.
      replace (E * 2 ^ 53 * (N * s)) with (E * N * (s * 2 ^ 53)) by ring.
      apply Z.mul_le_mono_nonneg_r; [lia|done].
    + replace ((2 ^ 53 + 1) * B * (10 * T * m)) with (B * T * ((2 ^ 53 + 1) * (10 * m))) by ring.
      apply Z.mul_le_mono_nonneg_l; [apply Z.mul_nonneg_nonneg; lia|done].
Qed.

Lemma times_ten_spec k : ∀ m e, 2 ^ 52 ≤ m < 2 ^ 53 → -1000 ≤ e → e + 5 * Z.of_nat k ≤ 905 →
  ∃ m' e', times_ten k (fin m e) = fin m' e' ∧ 0 < m' ∧ e ≤ e' ∧ near k m (m' * 2 ^ (e' - e)).
Proof.
  induction k as [|k IH]; intros m e Hm He Hk.
  - exists m, e. split; [done|]. unfold near. rewrite Z.sub_diag. simpl. lia.
  - destruct (mul_ten m e) as (m1 & e1 & Hmul & Hm1 & He1 & Herr); [done|lia|].
    destruct (IH m1 e1) as (m' & e' & Ht & Hpos & He' & Hnear); [done|lia..|].
    exists m', e'. cbn [times_ten]. rewrite Hmul. split; [done|]. split; [done|]. split; [lia|].
    replace (m' * 2 ^ (e' - e)) with (m' * 2 ^ (e' - e1) * 2 ^ (e1 - e)).
    + apply (near_step k m m1); [apply Z.pow_pos_nonneg; lia|done|done].
    + rewrite <- Z.mul_assoc, <- Z.pow_add_r by lia. do 2 f_equal. lia.
Qed.

Lemma f64_to_u128_bounds x : 0 ≤ f64_to_u128 x ≤ U128_MAX.
Proof.
  assert (0 ≤ U128_MAX) by (vm_compute; discriminate). unfold f64_to_u128.
  destruct x as [|[]| |[] p e]; try lia. assert (0 ≤ Z.shiftl (Z.pos p) e) by (apply Z.shiftl_nonneg; lia). lia.
Qed.

(** C38: the amount [fraction_to_exponent] gives never leaves the range of [u128], whatever the double. For
    a positive double [m * 2^e], with 2^52 <= m < 2^53 and e from -1000 to 500, and up to 77 decimals,
    it is the integer part, or the largest [u128] if that is less, of a number that is [m * 2^e * 10^n]
    but for a relative error of 2^-53 for each of the n multiplications by ten, compounded. *)
Theorem fraction_error num exponent m e n :
  0 ≤ fraction_to_exponent num exponent ≤ U128_MAX ∧
  (2 ^ 52 ≤ m < 2 ^ 53 → -1000 ≤ e ≤ 500 → 0 ≤ n ≤ 77 →
   ∃ N, fraction_to_exponent (fin m e) n = Z.min U128_MAX (Z.shiftl N e) ∧ near (Z.to_nat n) m N).
Proof.
  split; [apply f64_to_u128_bounds|]. intros Hm He Hn.
  destruct (times_ten_spec (Z.to_nat n) m e) as (m' & e' & Ht & Hpos & He' & Hnear); [done|lia..|].
  exists (m' * 2 ^ (e' - e)). split; [|done]. unfold fraction_to_exponent. rewrite Ht.
  rewrite <- Z.shiftl_mul_pow2, Z.shiftl_shiftl by lia. replace (e' - e + e) with e' by lia.
  by destruct m'.
Qed.

(** 1.5 ether. *)
Lemma fraction_error_witness :
  fraction_to_exponent (fin 6755399441055744 (-52)) 18 = 1500000000000000000 ∧
  ∃ N, fraction_to_exponent (fin 6755399441055744 (-52)) 18 = Z.min U128_MAX (Z.shiftl N (-52)) ∧
    near 18 6755399441055744 N.
Proof.
  split; [vm_compute; reflexivity|].
  apply (fraction_error (fin 6755399441055744 (-52)) 18 6755399441055744 (-52) 18); vm_compute; split; discriminate || done.
Defined.

(** The unit test of utils.rs, 1, 1.5, 1.15 and 1.1501 ether; and two amounts that are not what the
    user typed: 0.47 of a token with 6 decimals, and 0.07 ether. *)
Example even_rounding_values :
  fraction_to_exponent (fin 4503599627370496 (-52)) 18 = 1000000000000000000 ∧
  fraction_to_exponent (fin 6755399441055744 (-52)) 18 = 1500000000000000000 ∧
  fraction_to_exponent (fin 5179139571476070 (-52)) 18 = 1150000000000000000 ∧
  fraction_to_exponent (fin 5179589931438807 (-52)) 18 = 1150100000000000000.
Proof. vm_compute. done. Qed.
Example fraction_truncates :
  fraction_to_exponent (fin 8466767299456532 (-54)) 6 = 469999 ∧ fraction_to_exponent (fin 5044031582654956 (-56)) 18 = 70000000000000008.
Proof. vm_compute. done. Qed.
