(* ===== verification/CosmosSend.v ===== *)
(** * Transactions to the Cosmos chain: cosmos_gravity/src/send.rs and the rest of utils.rs

    Every function of send.rs builds its messages, asks for the account's sequence, signs, posts and
    waits. *)

From ITree Require Import ITree.
From S2P Require Import Prelude Bytes Proto External Float Instances Types Signatures Valset.
From S2P Require Import Batches LogicCall EthEvents Messages Effects.

(** [BTreeMap::insert]: a sorted list of bindings, the new value replacing an old one. *)
Fixpoint btree_insert {V} (k : Z) (v : V) (m : list (Z * V)) : list (Z * V) :=
  match m with
  | [] => [(k, v)]
  | (k', v') :: rest =>
      match k ?= k' with
      | Lt => (k, v) :: m
      | Eq => (k, v) :: rest
      | Gt => (k', v') :: btree_insert k v rest
      end
  end.

Section CosmosSend.
Context `{X : Ext} `{BD : Build}.

Definition MEMO : string := "Sent using Althea Orchestrator".
Definition TIMEOUT : Duration := 60.

Definition one_coin_fee (fee : Coin) (gas_limit : Z) : Fee :=
  {| fee_amount := [fee]; fee_gas_limit := gas_limit; fee_granter := None; fee_payer := None |}.

(** How every function of the file ends. *)
Definition sign_and_send (our_address : CosmosAddress) (private_key : CosmosPrivateKey)
    (messages : list Msg) (fee : Fee) (wait : option Duration) : io (result TxResponse CosmosGrpcError) :=
  let*? args := call (ContactGetMessageArgs our_address fee) via id in
  let*? msg_bytes := Ret (sign_std_msg private_key messages args MEMO)
    via (λ e, OtherGrpcError (signing_error e)) in
  let*? response := call (ContactSendTransaction msg_bytes) via id in
  match wait with
  | Some timeout => call (ContactWaitForTx response timeout)
  | None => Ret (Ok response)
  end.

(** ** Delegation *)

Definition set_gravity_delegate_addresses (prefix : string) (delegate_eth_address : EthAddress)
    (delegate_cosmos_address : CosmosAddress) (private_key : CosmosPrivateKey) (fee : Coin) :
    io (result TxResponse CosmosGrpcError) :=
  let* valoper := pure (unwrap (cosmos_key_to_address private_key prefix)) in
  let* our_valoper_address := pure (unwrap (cosmos_address_to_bech32 valoper (prefix +:+ "valoper"))) in
  let* our_address := pure (unwrap (cosmos_key_to_address private_key prefix)) in
  let msg_set_orch_address := {|
    msoa_validator := our_valoper_address;
    msoa_orchestrator := cosmos_address_to_string delegate_cosmos_address;
    msoa_eth_address := address_to_string delegate_eth_address |} in
  let fee := one_coin_fee fee 500000 in
  let msg := mkMsg "/nab.v1.MsgSetOrchestratorAddress" (SetOrchestratorAddress msg_set_orch_address) in
  sign_and_send our_address private_key [msg] fee (Some TIMEOUT).

(** ** Confirmations *)

Definition valset_confirm_msg (our_address : CosmosAddress) (eth_private_key : EthPrivateKey)
    (gravity_id : string) (valset : Valset) : Msg :=
  let our_eth_address := eth_key_to_address eth_private_key in
  let message := encode_valset_confirm gravity_id valset in
  let eth_signature := sign_ethereum_msg eth_private_key message in
  mkMsg "/nab.v1.MsgValsetConfirm" (ValsetConfirm {|
    pvc_orchestrator := cosmos_address_to_string our_address;
    pvc_eth_address := address_to_string our_eth_address;
    pvc_nonce := valset_nonce valset;
    pvc_signature := deep_space_bytes_to_hex_str (signature_to_bytes eth_signature) |}).

Definition send_valset_confirms (prefix : string) (eth_private_key : EthPrivateKey) (fee : Coin)
    (valsets : list Valset) (private_key : CosmosPrivateKey) (gravity_id : string) :
    io (result TxResponse CosmosGrpcError) :=
  let* our_address := pure (unwrap (cosmos_key_to_address private_key prefix)) in
  let fee := one_coin_fee fee 500000000 in
  let messages := valset_confirm_msg our_address eth_private_key gravity_id <$> valsets in
  sign_and_send our_address private_key messages fee (Some TIMEOUT).

Definition batch_confirm_msg (our_address : CosmosAddress) (eth_private_key : EthPrivateKey)
    (gravity_id : string) (batch : TransactionBatch) : eval Msg :=
  let our_eth_address := eth_key_to_address eth_private_key in
  let! message := encode_tx_batch_confirm gravity_id batch in
  let eth_signature := sign_ethereum_msg eth_private_key message in
  Done (mkMsg "/nab.v1.MsgConfirmBatch" (ConfirmBatch {|
    pcb_token_contract := address_to_string (batch_token_contract batch);
    pcb_orchestrator := cosmos_address_to_string our_address;
    pcb_eth_signer := address_to_string our_eth_address;
    pcb_nonce := batch_nonce batch;
    pcb_signature := deep_space_bytes_to_hex_str (signature_to_bytes eth_signature) |})).

Definition send_batch_confirm (prefix : string) (eth_private_key : EthPrivateKey) (fee : Coin)
    (transaction_batches : list TransactionBatch) (private_key : CosmosPrivateKey) (gravity_id : string) :
    io (result TxResponse CosmosGrpcError) :=
  let* our_address := pure (unwrap (cosmos_key_to_address private_key prefix)) in
  let fee := one_coin_fee fee 500000000 in
  let* messages := pure (eval_map (batch_confirm_msg our_address eth_private_key gravity_id)
                           transaction_batches) in
  sign_and_send our_address private_key messages fee (Some TIMEOUT).

Definition logic_call_confirm_msg (our_address : CosmosAddress) (eth_private_key : EthPrivateKey)
    (gravity_id : string) (c : LogicCall) : Msg :=
  let our_eth_address := eth_key_to_address eth_private_key in
  let message := encode_logic_call_confirm gravity_id c in
  let eth_signature := sign_ethereum_msg eth_private_key message in
  mkMsg "/nab.v1.MsgConfirmLogicCall" (ConfirmLogicCall {|
    pclc_orchestrator := cosmos_address_to_string our_address;
    pclc_eth_signer := address_to_string our_eth_address;
    pclc_signature := deep_space_bytes_to_hex_str (signature_to_bytes eth_signature);
    pclc_invalidation_id := deep_space_bytes_to_hex_str (call_invalidation_id c);
    pclc_invalidation_nonce := call_invalidation_nonce c |}).

Definition send_logic_call_confirm (prefix : string) (eth_private_key : EthPrivateKey) (fee : Coin)
    (logic_calls : list LogicCall) (private_key : CosmosPrivateKey) (gravity_id : string) :
    io (result TxResponse CosmosGrpcError) :=
  let* our_address := pure (unwrap (cosmos_key_to_address private_key prefix)) in
  let fee := one_coin_fee fee 500000000 in
  let messages := logic_call_confirm_msg our_address eth_private_key gravity_id <$> logic_calls in
  sign_and_send our_address private_key messages fee (Some TIMEOUT).

(** ** Claims *)

(** [downcast_uint256(event.block_height).unwrap()] *)
Definition claim_height (block_height : Uint256) : eval Z :=
  let! h := downcast_uint256 block_height in unwrap_option h.

Definition deposit_claim (prefix : string) (our_address : CosmosAddress) (deposit : SendToCosmosEvent) :
    eval Msg :=
  let! block_height := claim_height (stc_block_height deposit) in
  let! cosmos_receiver := unwrap (cosmos_address_to_bech32 (stc_destination deposit) prefix) in
  Done (mkMsg "/nab.v1.MsgSendToCosmosClaim" (SendToCosmosClaim {|
    msc_event_nonce := stc_event_nonce deposit;
    msc_block_height := block_height;
    msc_token_contract := address_to_string (stc_erc20 deposit);
    msc_amount := u256_to_string (stc_amount deposit);
    msc_cosmos_receiver := cosmos_receiver;
    msc_ethereum_sender := address_to_string (stc_sender deposit);
    msc_orchestrator := cosmos_address_to_string our_address |})).

Definition withdraw_claim (our_address : CosmosAddress) (withdraw : TransactionBatchExecutedEvent) :
    eval Msg :=
  let! block_height := claim_height (tbe_block_height withdraw) in
  Done (mkMsg "/nab.v1.MsgBatchSendToEthClaim" (BatchSendToEthClaim {|
    mbc_event_nonce := tbe_event_nonce withdraw;
    mbc_block_height := block_height;
    mbc_token_contract := address_to_string (tbe_erc20 withdraw);
    mbc_batch_nonce := tbe_batch_nonce withdraw;
    mbc_orchestrator := cosmos_address_to_string our_address |})).

Definition deploy_claim (our_address : CosmosAddress) (deploy : Erc20DeployedEvent) : eval Msg :=
  let! block_height := claim_height (ede_block_height deploy) in
  Done (mkMsg "/nab.v1.MsgERC20DeployedClaim" (Erc20DeployedClaim {|
    mdc_event_nonce := ede_event_nonce deploy;
    mdc_block_height := block_height;
    mdc_cosmos_denom := ede_cosmos_denom deploy;
    mdc_token_contract := address_to_string (ede_erc20_address deploy);
    mdc_name := ede_name deploy;
    mdc_symbol := ede_symbol deploy;
    mdc_decimals := ede_decimals deploy;
    mdc_orchestrator := cosmos_address_to_string our_address |})).

Definition logic_call_claim (our_address : CosmosAddress) (c : LogicCallExecutedEvent) : eval Msg :=
  let! block_height := claim_height (lce_block_height c) in
  Done (mkMsg "/nab.v1.MsgLogicCallExecutedClaim" (LogicCallExecutedClaim {|
    mlc_event_nonce := lce_event_nonce c;
    mlc_block_height := block_height;
    mlc_invalidation_id := lce_invalidation_id c;
    mlc_invalidation_nonce := lce_invalidation_nonce c;
    mlc_orchestrator := cosmos_address_to_string our_address |})).

Definition valset_claim (our_address : CosmosAddress) (valset : ValsetUpdatedEvent) : eval Msg :=
  let! block_height := claim_height (vue_block_height valset) in
  Done (mkMsg "/nab.v1.MsgValsetUpdatedClaim" (ValsetUpdatedClaim {|
    mvc_event_nonce := vue_event_nonce valset;
    mvc_valset_nonce := vue_valset_nonce valset;
    mvc_block_height := block_height;
    mvc_members := member_to_proto <$> vue_members valset;
    mvc_reward_amount := u256_to_string (vue_reward_amount valset);
    mvc_reward_token := address_to_string (default ZERO_ADDRESS (vue_reward_token valset));
    mvc_orchestrator := cosmos_address_to_string our_address |})).

(** One of the five loops that fill [ordered_msgs]. *)
Fixpoint add_claims {E} (nonce_of : E → Z) (claim : E → eval Msg) (events : list E)
    (ordered_msgs : list (Z * Msg)) : eval (list (Z * Msg)) :=
  match events with
  | [] => Done ordered_msgs
  | event :: events =>
      let! msg := claim event in
      add_claims nonce_of claim events (btree_insert (nonce_of event) msg ordered_msgs)
  end.

Definition ordered_claims (prefix : string) (our_address : CosmosAddress)
    (deposits : list SendToCosmosEvent) (withdraws : list TransactionBatchExecutedEvent)
    (erc20_deploys : list Erc20DeployedEvent) (logic_calls : list LogicCallExecutedEvent)
    (valsets : list ValsetUpdatedEvent) : eval (list (Z * Msg)) :=
  let! m := add_claims stc_event_nonce (deposit_claim prefix our_address) deposits [] in
  let! m := add_claims tbe_event_nonce (withdraw_claim our_address) withdraws m in
  let! m := add_claims ede_event_nonce (deploy_claim our_address) erc20_deploys m in
  let! m := add_claims lce_event_nonce (logic_call_claim our_address) logic_calls m in
  add_claims vue_event_nonce (valset_claim our_address) valsets m.

Definition send_ethereum_claims (prefix : string) (private_key : CosmosPrivateKey)
    (deposits : list SendToCosmosEvent) (withdraws : list TransactionBatchExecutedEvent)
    (erc20_deploys : list Erc20DeployedEvent) (logic_calls : list LogicCallExecutedEvent)
    (valsets : list ValsetUpdatedEvent) (fee : Coin) : io (result TxResponse CosmosGrpcError) :=
  let* our_address := pure (unwrap (cosmos_key_to_address private_key prefix)) in
  let* ordered_msgs := pure (ordered_claims prefix our_address deposits withdraws erc20_deploys
                               logic_calls valsets) in
  let msgs := ordered_msgs.*2 in
  let fee := one_coin_fee fee 500000000 in
  sign_and_send our_address private_key msgs fee (Some TIMEOUT).

(** ** Users' transactions *)

(** The loop over the balances: whether one is of the denomination, or too small. *)
Fixpoint check_balances (balances : list Coin) (amount_sent fee : Coin) (found : bool) :
    eval (result bool CosmosGrpcError) :=
  match balances with
  | [] => Done (Ok found)
  | balance :: balances =>
      if String.eqb (denom balance) (denom amount_sent) then
        let! fees := u256_mul (amount fee) 2 in
        let! total_amount := u256_add (amount amount_sent) fees in
        if amount balance <? total_amount
        then Done (Err (BadInput "Insufficient balance of {} to send {}"))
        else check_balances balances amount_sent fee true
      else check_balances balances amount_sent fee found
  end.

Definition send_to_eth (private_key : CosmosPrivateKey) (destination : EthAddress)
    (amount_sent bridge_fee fee : Coin) (prefix : string) : io (result TxResponse CosmosGrpcError) :=
  let* our_address := pure (unwrap (cosmos_key_to_address private_key prefix)) in
  if negb (String.eqb (denom amount_sent) (denom bridge_fee)) then
    Ret (Err (BadInput "{} {} is an invalid denom set for SendToEth you must pay fees in the same token your sending"))
  else
  let* balances := call (ContactGetBalances our_address) in
  let* balances := pure (unwrap balances) in
  let*? found := pure (check_balances balances amount_sent fee false) via id in
  if negb found then Ret (Err (BadInput "No balance of {} to send"))
  else
  let msg_send_to_eth := {|
    mse_sender := cosmos_address_to_string our_address;
    mse_eth_dest := address_to_string destination;
    mse_amount := Some amount_sent;
    mse_bridge_fee := Some bridge_fee |} in
  let fee := one_coin_fee fee 500000 in
  let msg := mkMsg "/nab.v1.MsgSendToEth" (SendToEth msg_send_to_eth) in
  sign_and_send our_address private_key [msg] fee (Some TIMEOUT).

Definition send_request_batch (private_key : CosmosPrivateKey) (batch_denom : string) (fee : Coin)
    (prefix : string) (timeout : option Duration) : io (result TxResponse CosmosGrpcError) :=
  let* our_address := pure (unwrap (cosmos_key_to_address private_key prefix)) in
  let msg_request_batch := {|
    mrb_sender := cosmos_address_to_string our_address; mrb_denom := batch_denom |} in
  let fee := one_coin_fee fee 500000000 in
  let msg := mkMsg "/nab.v1.MsgRequestBatch" (RequestBatch msg_request_batch) in
  sign_and_send our_address private_key [msg] fee timeout.

(** utils.rs *)
Inductive BadSignatureEvidence :=
  | EvidenceValset (v : Valset)
  | EvidenceBatch (b : TransactionBatch)
  | EvidenceLogicCall (c : LogicCall).

Definition to_any (self : BadSignatureEvidence) : Any :=
  match self with
  | EvidenceValset v => mkAny "/nab.v1.Valset" (AnyValset (valset_to_proto v))
  | EvidenceBatch b => mkAny "/nab.v1.OutgoingTxBatch" (AnyBatch (batch_into b))
  | EvidenceLogicCall c => mkAny "/nab.v1.OutgoingLogicCall" (AnyLogicCall (logic_call_into c))
  end.

Definition submit_bad_signature_evidence (private_key : CosmosPrivateKey) (fee : Coin) (prefix : string)
    (signed_object : BadSignatureEvidence) (signature : EthSignature) :
    io (result TxResponse CosmosGrpcError) :=
  let* our_address := pure (unwrap (cosmos_key_to_address private_key prefix)) in
  let any := to_any signed_object in
  let msg_submit_bad_signature_evidence := {|
    mbe_subject := Some any;
    mbe_signature := deep_space_bytes_to_hex_str (signature_to_bytes signature);
    mbe_sender := cosmos_address_to_string our_address |} in
  let fee := one_coin_fee fee 500000000 in
  let msg := mkMsg "/nab.v1.MsgSubmitBadSignatureEvidence"
               (SubmitBadSignatureEvidence msg_submit_bad_signature_evidence) in
  sign_and_send our_address private_key [msg] fee (Some TIMEOUT).

Definition cancel_send_to_eth (private_key : CosmosPrivateKey) (fee : Coin) (prefix : string)
    (transaction_id : Z) : io (result TxResponse CosmosGrpcError) :=
  let* our_address := pure (unwrap (cosmos_key_to_address private_key prefix)) in
  let msg_cancel_send_to_eth := {|
    mcs_transaction_id := transaction_id; mcs_sender := cosmos_address_to_string our_address |} in
  let fee := one_coin_fee fee 600000 in
  let msg := mkMsg "/nab.v1.MsgCancelSendToEth" (CancelSendToEth msg_cancel_send_to_eth) in
  sign_and_send our_address private_key [msg] fee (Some TIMEOUT).

(** ** Waiting for the chain: utils.rs *)

Definition wait_for_cosmos_online (wait : Duration) : io unit :=
  let* r := timeout wait (call (ContactWaitForNextBlock wait)) in
  let* _ :=
    match r with
    | Some (Err NodeNotSynced) | Some (Err ChainNotRunning) =>
        panic "Cosmos node has not come online during timeout!"
    | _ => Ret tt
    end in
  for_each (seq 0 3) (λ _ _, let* _ := call (ContactWaitForNextBlock wait) in Ret tt) tt.
End CosmosSend.
