(* ===== verification/Queries.v ===== *)
(** * Queries of the Cosmos chain: cosmos_gravity/src/query.rs and utils.rs, and the retrying
    getters of gravity_utils/src/get_with_retry.rs *)

From ITree Require Import ITree.
From S2P Require Import Prelude Bytes Proto External Float Instances Types Signatures Valset Batches.
From S2P Require Import LogicCall Effects.

Section Queries.
Context `{X : Ext} `{BD : Build}.

Definition RETRY_TIME : Duration := 5.

(** ** query.rs *)

Definition get_gravity_params : io (result Params GravityError) :=
  let*? params := call QParams via of_status in
  let* params := pure (unwrap_option params) in Ret (Ok params).

Definition get_valset (nonce : Z) : io (result (option Valset) GravityError) :=
  let*? response := call (QValsetRequest nonce) via of_status in
  match response with
  | None => Ret (Ok None)
  | Some p => let* v := pure (valset_from_proto p) in Ret (Ok (Some v))
  end.

Definition get_current_valset : io (result Valset GravityError) :=
  let*? valset := call QCurrentValset via of_status in
  match valset with
  | Some p => let* v := pure (valset_from_proto p) in Ret (Ok v)
  | None => Ret (Err (ValidationError "Must have a current valset!"))
  end.

Definition get_oldest_unsigned_valsets (address : CosmosAddress) (prefix : string) :
    io (result (list Valset) GravityError) :=
  let* address := pure (unwrap (cosmos_address_to_bech32 address prefix)) in
  let*? valsets := call (QLastPendingValsetRequests address) via of_status in
  let* vs := pure (eval_map valset_from_proto valsets) in
  Ret (Ok vs).

Definition get_latest_valsets : io (result (list Valset) GravityError) :=
  let*? valsets := call QLastValsetRequests via of_status in
  let* vs := pure (eval_map valset_from_proto valsets) in
  Ret (Ok vs).

Definition get_all_valset_confirms (nonce : Z) : io (result (list ValsetConfirmResponse) GravityError) :=
  let*? confirms := call (QValsetConfirmsByNonce nonce) via of_status in
  pure (try_map (λ item, Done (valset_confirm_try_from item)) confirms).

Definition get_oldest_unsigned_transaction_batch (address : CosmosAddress) (prefix : string) :
    io (result (option TransactionBatch) GravityError) :=
  let* address := pure (unwrap (cosmos_address_to_bech32 address prefix)) in
  let*? batch := call (QLastPendingBatch address) via of_status in
  match batch with
  | Some batch => pure (let? b := batch_try_from batch in Done (Ok (Some b)))
  | None => Ret (Ok None)
  end.

Definition get_latest_transaction_batches : io (result (list TransactionBatch) GravityError) :=
  let*? batches := call QOutgoingTxBatches via of_status in
  pure (try_map batch_try_from batches).

Definition get_transaction_batch_signatures (nonce : Z) (contract_address : EthAddress) :
    io (result (list BatchConfirmResponse) GravityError) :=
  let*? batch_confirms := call (QBatchConfirms nonce (address_to_string contract_address)) via of_status in
  pure (try_map batch_confirm_try_from batch_confirms).

Definition get_last_event_nonce_for_validator (address : CosmosAddress) (prefix : string) :
    io (result Z GravityError) :=
  let* address := pure (unwrap (cosmos_address_to_bech32 address prefix)) in
  let*? event_nonce := call (QLastEventNonce address) via of_status in
  Ret (Ok event_nonce).

Definition get_latest_logic_calls : io (result (list LogicCall) GravityError) :=
  let*? calls := call QOutgoingLogicCalls via of_status in
  pure (try_map logic_call_try_from calls).

Definition get_logic_call_signatures (invalidation_id : bytes) (invalidation_nonce : Z) :
    io (result (list LogicCallConfirmResponse) GravityError) :=
  let*? confirms := call (QLogicConfirms invalidation_id invalidation_nonce) via of_status in
  pure (try_map logic_call_confirm_try_from confirms).

Definition get_oldest_unsigned_logic_call (address : CosmosAddress) (prefix : string) :
    io (result (option LogicCall) GravityError) :=
  let* address := pure (unwrap (cosmos_address_to_bech32 address prefix)) in
  let*? c := call (QLastPendingLogicCall address) via of_status in
  match c with
  | Some c => pure (let? c := logic_call_try_from c in Done (Ok (Some c)))
  | None => Ret (Ok None)
  end.

Definition get_attestations (limit : option Z) : io (result (list Attestation) GravityError) :=
  let*? attestations := call (QAttestations (default 1000 limit)) via of_status in Ret (Ok attestations).

Definition get_pending_send_to_eth (sender_address : CosmosAddress) :
    io (result QueryPendingSendToEthResponse GravityError) :=
  let*? response := call (QPendingSendToEth (cosmos_address_to_string sender_address)) via of_status in
  Ret (Ok response).

(** ** utils.rs *)

Definition get_last_event_nonce_with_retry (our_cosmos_address : CosmosAddress) (prefix : string) : io Z :=
  retry (get_last_event_nonce_for_validator our_cosmos_address prefix) RETRY_TIME.

(** ** get_with_retry.rs *)

Definition get_block_number_with_retry : io Uint256 := retry (call EthBlockNumber) RETRY_TIME.
Definition get_eth_balances_with_retry (address : EthAddress) : io Uint256 :=
  retry (call (EthGetBalance address)) RETRY_TIME.
Definition get_balances_with_retry (address : CosmosAddress) : io (list Coin) :=
  retry (call (ContactGetBalances address)) RETRY_TIME.
Definition get_net_version_with_retry : io Z := retry (call NetVersion) RETRY_TIME.
End Queries.
