(* ===== verification/Connection.v ===== *)
(** * Connections: gravity_utils/src/connection_prep.rs

    How the tool connects to its two nodes, and the checks it makes before it starts. *)

From ITree Require Import ITree.
From S2P Require Import Prelude Bytes Proto External Instances Types Effects Queries Host.
From Stdlib Require Import Strings.Ascii.

Section Connection.
Context `{X : Ext} `{T : !Tools} `{BD : Build}.

(** ** Strings *)

Definition slash : ascii := "/"%char.

(** [trim_end_matches('/')] *)
Fixpoint trim_slashes (s : string) : string :=
  match s with
  | EmptyString => EmptyString
  | String c s =>
      match trim_slashes s with
      | EmptyString => if Ascii.eqb c slash then EmptyString else String c EmptyString
      | s => String c s
      end
  end.

(** [to_lowercase()], on the letters that matter to a search for ASCII text. *)
Definition lower (c : ascii) : ascii :=
  let n := nat_of_ascii c in
  if (65 <=? n)%nat && (n <=? 90)%nat then ascii_of_nat (n + 32) else c.
Fixpoint to_lowercase (s : string) : string :=
  match s with EmptyString => EmptyString | String c s => String (lower c) (to_lowercase s) end.

(** [s.contains(sub)] *)
Definition contains (s sub : string) : bool := match String.index 0 sub s with Some _ => true | None => false end.
Definition is_localhost (url : string) : bool := contains (to_lowercase url) "localhost".

(** ** create_rpc_connections *)

(** A client is what it was made from. *)
Record Web3 := mkWeb3 { web3_url : string; web3_timeout : Duration }.
Record Contact := mkContact { contact_url : string; contact_timeout : Duration; contact_prefix : string }.
Record Connections := mkConnections {
  conn_web3 : option Web3;
  conn_grpc : option string;
  conn_contact : option Contact;
}.

(** [Contact::new(..).unwrap()] *)
Definition contact_new (url : string) (timeout : Duration) (prefix : string) : eval Contact :=
  if contact_new_ok url timeout prefix then Done (mkContact url timeout prefix)
  else Panic "called `Result::unwrap()` on an `Err` value".

Definition check_scheme (input : Url) : eval unit :=
  if String.eqb (url_scheme input) "http" || String.eqb (url_scheme input) "https" then Done tt
  else Panic "Your url {} has an invalid scheme, please chose http or https".

(** The urls tried when the one given fails. *)
Definition ipv6_url (url : Url) : string := url_scheme url +:+ "://::1:" +:+ dec_string (default 80 (url_port url)).
Definition ipv4_url (url : Url) : string :=
  url_scheme url +:+ "://127.0.0.1:" +:+ dec_string (default 80 (url_port url)).
Definition https_on_80_url (body : string) : string := "https://" +:+ body +:+ ":80".
Definition https_on_443_url (body : string) : string := "https://" +:+ body +:+ ":443".
Definition upgradable (url : Url) : bool :=
  match url_port url with None => true | Some _ => String.eqb (url_scheme url) "http" end.

(** Exactly one of the two fallbacks must have worked. *)
Definition pick {A E} (first second : result A E) (first_url second_url : string) : eval string :=
  match first, second with
  | Ok _, Err _ => Done first_url
  | Err _, Ok _ => Done second_url
  | Ok _, Ok _ => Panic "This should never happen? Why didn't things work the first time?"
  | Err _, Err _ => Panic "Could not connect to {}, are you sure it's running and on the specified port? {}"
  end.

(** The Cosmos half. *)
Definition connect_grpc (address_prefix grpc_url : string) (timeout : Duration) : io (string * Contact) :=
  let connected (url : string) := let* contact := pure (contact_new url timeout address_prefix) in Ret (url, contact) in
  let* url := pure (match url_parse grpc_url with Ok u => Done u | Err _ => Panic "Invalid Cosmos gRPC url {}" end) in
  let* _ := pure (check_scheme url) in
  let cosmos_grpc_url := trim_slashes grpc_url in
  let* try_base := call (GrpcConnect cosmos_grpc_url) in
  match try_base with
  | Ok _ => connected cosmos_grpc_url
  | Err _ =>
      if is_localhost grpc_url then
        let* ipv6 := call (GrpcConnect (ipv6_url url)) in
        let* ipv4 := call (GrpcConnect (ipv4_url url)) in
        let* chosen := pure (pick ipv4 ipv6 (ipv4_url url) (ipv6_url url)) in
        connected chosen
      else if upgradable url then
        let* body := pure (match url_host_str url with Some b => Done b | None => Panic "Cosmos gRPC url contains no host? {}" end) in
        let* https_on_80 := call (GrpcConnect (https_on_80_url body)) in
        let* https_on_443 := call (GrpcConnect (https_on_443_url body)) in
        let* chosen := pure (pick https_on_80 https_on_443 (https_on_80_url body) (https_on_443_url body)) in
        connected chosen
      else panic "Could not connect to Cosmos gRPC! please check your grpc url {} for errors {:?}"
  end.

(** The Ethereum half: a client is made without a connection, and tried with one call. *)
Definition connect_web3 (eth_rpc_url : string) (timeout : Duration) : io Web3 :=
  let* url := pure (match url_parse eth_rpc_url with Ok u => Done u | Err _ => Panic "Invalid Ethereum RPC url {}" end) in
  let* _ := pure (check_scheme url) in
  let eth_url := trim_slashes eth_rpc_url in
  let* try_base := call (Web3TryBlockNumber eth_url) in
  match try_base with
  | Ok _ => Ret (mkWeb3 eth_url timeout)
  | Err _ =>
      if is_localhost eth_url then
        let* ipv6_test := call (Web3TryBlockNumber (ipv6_url url)) in
        let* ipv4_test := call (Web3TryBlockNumber (ipv4_url url)) in
        let* chosen := pure (pick ipv4_test ipv6_test (ipv4_url url) (ipv6_url url)) in
        Ret (mkWeb3 chosen timeout)
      else if upgradable url then
        let* body := pure (match url_host_str url with Some b => Done b | None => Panic "Ethereum rpc url contains no host? {}" end) in
        let* https_on_80_test := call (Web3TryBlockNumber (https_on_80_url body)) in
        let* https_on_443_test := call (Web3TryBlockNumber (https_on_443_url body)) in
        let* chosen := pure (pick https_on_80_test https_on_443_test (https_on_80_url body) (https_on_443_url body)) in
        Ret (mkWeb3 chosen timeout)
      else panic "Could not connect to Ethereum rpc! please check your grpc url {} for errors {:?}"
  end.

Definition create_rpc_connections (address_prefix : string) (grpc_url eth_rpc_url : option string)
    (timeout : Duration) : io Connections :=
  let* cosmos := match grpc_url with
    | Some url => let* c := connect_grpc address_prefix url timeout in Ret (Some c)
    | None => Ret None
    end in
  let* web3 := match eth_rpc_url with
    | Some url => let* w := connect_web3 url timeout in Ret (Some w)
    | None => Ret None
    end in
  Ret (mkConnections web3 (fst <$> cosmos) (snd <$> cosmos)).

(** ** The checks before the start *)

Definition READY_WAIT_TIME : Duration := 10.

Definition wait_for_cosmos_node_ready : io unit :=
  ITree.iter (λ _ : unit,
    let* res := call ContactGetChainStatus in
    match res with
    | Ok (Moving _) => Ret (inr tt)
    | Ok Syncing | Ok WaitingToStart | Err _ =>
        let* _ := call (Sleep READY_WAIT_TIME) in Ret (inl tt)
    end) tt.

(** The comparisons made when both queries are answered. *)
Definition compare_delegates (delegate_eth_address : EthAddress) (delegate_orchestrator_address : CosmosAddress)
    (e : QueryDelegateKeysByEthAddressResponse) (o : QueryDelegateKeysByOrchestratorAddressResponse) :
    eval (result unit GravityError) :=
  let! req_delegate_orchestrator_address := unwrap (cosmos_address_parse (dke_orchestrator_address e)) in
  let! req_delegate_eth_address := unwrap (address_parse (dko_eth_address o)) in
  let eth_differs := bool_decide (req_delegate_eth_address ≠ delegate_eth_address) in
  let orchestrator_differs := bool_decide (req_delegate_orchestrator_address ≠ delegate_orchestrator_address) in
  if eth_differs && orchestrator_differs then
    Done (Err (UnrecoverableError "Etehreum orchestrator addresses incorrect"))
  else if eth_differs then Done (Err (UnrecoverableError "Ethereum address incorrect"))
  else if orchestrator_differs then Done (Err (UnrecoverableError "Orchestrator Address Incorrect"))
  else if negb (String.eqb (dke_validator_address e) (dko_validator_address o)) then
    Done (Err (UnrecoverableError "Different validator addresses"))
  else Done (Ok tt).

Definition check_delegate_addresses (delegate_eth_address : EthAddress)
    (delegate_orchestrator_address : CosmosAddress) (prefix : string) : io (result unit GravityError) :=
  let* eth_response := call (QDelegateKeyByEth (address_to_string delegate_eth_address)) in
  let* orchestrator_address := pure (unwrap (cosmos_address_to_bech32 delegate_orchestrator_address prefix)) in
  let* orchestrator_response := call (QDelegateKeyByOrchestrator orchestrator_address) in
  match eth_response, orchestrator_response with
  | Ok e, Ok o => pure (compare_delegates delegate_eth_address delegate_orchestrator_address e o)
  | Err _, Ok _ => Ret (Err (UnrecoverableError
      "Your delegate Ethereum address is incorrect, please double check you private key. If you can't locate the correct private key register your delegate keys again and use the new value {:?}"))
  | Ok _, Err _ => Ret (Err (UnrecoverableError
      "Your delegate Cosmos address is incorrect, please double check your phrase. If you can't locate the correct phrase register your delegate keys again and use the new value {:?}"))
  | Err _, Err _ => Ret (Err (UnrecoverableError
      "Delegate keys are not set! Please Register your delegate keys"))
  end.

(** The loop over the balances. *)
Fixpoint fee_in (fee : Coin) (balances : list Coin) : result unit GravityError :=
  match balances with
  | [] => Err (UnrecoverableError
      "You have specified that fees should be paid in {} but account {} has no balance of that token!")
  | balance :: balances =>
      if contains (denom balance) (denom fee) then
        if amount balance <? amount fee then
          Err (ValidationError "You have specified a fee that is greater than your balance of that coin! {}{} > {}{}")
        else Ok tt
      else fee_in fee balances
  end.
Definition check_for_fee (fee : Coin) (address : CosmosAddress) : io (result unit GravityError) :=
  let* balances := get_balances_with_retry address in Ret (fee_in fee balances).

Definition check_for_eth (address : EthAddress) : io (result unit GravityError) :=
  let* balance := get_eth_balances_with_retry address in
  if balance =? 0 then Ret (Err (ValidationError "You don't have any Ethereum! You will need to send some to {} for this program to work. Dust will do for basic operations, more info about average relaying costs will be presented as the program runs"))
  else Ret (Ok tt).
End Connection.
