(* ===== verification/Args.v ===== *)
(** * The command line: nabt/src/args.rs

    What [Opts::parse()] gives, once [clap] has read the arguments and filled in the defaults. *)

From S2P Require Import Prelude Bytes Proto External Effects.

Section Args.
Context `{X : Ext}.

Record OrchestratorOpts := mkOrchestratorOpts {
  oo_cosmos_phrase : option CosmosPrivateKey;
  oo_ethereum_key : option EthPrivateKey;
  oo_cosmos_grpc : string;
  oo_ethereum_rpc : string;
  oo_fees : Coin;
  oo_gravity_contract_address : option EthAddress;
  oo_wait_time : option Z;
}.

Record RelayerOpts := mkRelayerOpts {
  ro_ethereum_key : option EthPrivateKey;
  ro_gravity_contract_address : option EthAddress;
  ro_ethereum_rpc : string;
  ro_cosmos_grpc : string;
  ro_wait_time : option Z;
}.

Record CosmosToEthOpts := mkCosmosToEthOpts {
  ce_cosmos_phrase : CosmosPrivateKey;
  ce_cosmos_grpc : string;
  ce_amount : Coin;
  ce_fees : Coin;
  ce_eth_destination : EthAddress;
  ce_no_batch : bool;
}.

Record EthToCosmosOpts := mkEthToCosmosOpts {
  ec_ethereum_key : EthPrivateKey;
  ec_ethereum_rpc : string;
  ec_gravity_contract_address : EthAddress;
  ec_token_contract_address : EthAddress;
  ec_amount : f64;
  ec_destination : CosmosAddress;
}.

Record DeployErc20RepresentationOpts := mkDeployErc20RepresentationOpts {
  de_cosmos_grpc : string;
  de_ethereum_rpc : string;
  de_cosmos_denom : string;
  de_ethereum_key : EthPrivateKey;
  de_gravity_contract_address : option EthAddress;
  de_erc20_name : string;
  de_erc20_symbol : string;
  de_erc20_decimals : Z; (* u8 *)
}.

Inductive ClientSubcommand :=
  | CosmosToEth (opts : CosmosToEthOpts)
  | EthToCosmos (opts : EthToCosmosOpts)
  | DeployErc20Representation (opts : DeployErc20RepresentationOpts).

Record RegisterOrchestratorAddressOpts := mkRegisterOrchestratorAddressOpts {
  ra_validator_phrase : CosmosPrivateKey;
  ra_ethereum_key : option EthPrivateKey;
  ra_cosmos_phrase : option string;
  ra_cosmos_grpc : string;
  ra_fees : Coin;
  ra_no_save : bool;
}.

Inductive KeysSubcommand :=
  | RegisterOrchestratorAddress (opts : RegisterOrchestratorAddressOpts)
  | SetEthereumKey (key : EthPrivateKey)
  | SetOrchestratorKey (phrase : string)
  | ShowKeys.

Inductive SubCommand :=
  | OrchestratorCommand (opts : OrchestratorOpts)
  | RelayerCommand (opts : RelayerOpts)
  | ClientCommand (subcmd : ClientSubcommand)
  | KeysCommand (subcmd : KeysSubcommand)
  | InitCommand.

Record Opts := mkOpts {
  opt_verbose : bool;
  opt_quiet : bool;
  opt_home : option PathBuf;
  opt_address_prefix : string;
  opt_subcmd : SubCommand;
}.
End Args.
