(* ===== verification/Submit.v ===== *)
(** * Submitting to Ethereum: the rest of ethereum_gravity

    The nonce getters of utils.rs, the submission and cost estimation of validator set updates,
    batches and logic calls, the deployment of an ERC20 and sending to Cosmos. *)

From ITree Require Import ITree.
From S2P Require Import Prelude Bytes Proto External Float Instances Types Signatures Valset Batches.
From S2P Require Import LogicCall Messages Effects Queries.
From Stdlib Require Import Strings.Byte SpecFloat.

Section Submit.
Context `{X : Ext} `{BD : Build}.

(** ** utils.rs *)

(** What the four nonce getters share: simulate a call of the contract, read the number it
    returns, and halt the bridge if it is no [u64]. *)
Definition read_nonce (contract_address caller_address : EthAddress) (function : string)
    (args : list Token) (overflow : string) : io (result Z Web3Error) :=
  let* payload := pure (unwrap (encode_call function args)) in
  let*? val := call (SimulateTransaction contract_address 0 payload caller_address) via id in
  let real_num := u256_from_bytes_be val in
  let* n := pure (downcast_uint256 real_num) in
  match n with
  | Some n => Ret (Ok n)
  | None => panic overflow
  end.

Definition get_valset_nonce (contract_address caller_address : EthAddress) : io (result Z Web3Error) :=
  read_nonce contract_address caller_address "state_lastValsetNonce()" []
    "Valset nonce overflow! Bridge Halt!".

Definition get_tx_batch_nonce (gravity_contract_address erc20_contract_address caller_address : EthAddress) :
    io (result Z Web3Error) :=
  read_nonce gravity_contract_address caller_address "lastBatchNonce(address)"
    [token_of_address erc20_contract_address] "TxBatch nonce overflow! Bridge Halt!".

Definition get_logic_call_nonce (gravity_contract_address : EthAddress) (invalidation_id : bytes)
    (caller_address : EthAddress) : io (result Z Web3Error) :=
  read_nonce gravity_contract_address caller_address "lastLogicCallNonce(bytes32)"
    [TokenBytes invalidation_id] "LogicCall nonce overflow! Bridge Halt!".

Definition get_event_nonce (gravity_contract_address caller_address : EthAddress) :
    io (result Z Web3Error) :=
  read_nonce gravity_contract_address caller_address "state_lastEventNonce()" []
    "EventNonce nonce overflow! Bridge Halt!".

Definition get_gravity_id (contract_address caller_address : EthAddress) : io (result string Web3Error) :=
  let* payload := pure (unwrap (encode_call "state_gravityId()" [])) in
  let*? val := call (SimulateTransaction contract_address 0 payload caller_address) via id in
  match from_utf8 val with
  | Ok val => Ret (Ok val)
  | Err _ => Ret (Err (web3_bad_response "invalid utf-8 sequence"))
  end.

Definition get_gravity_id_with_retry (contract_address caller_address : EthAddress)
    (wait_time : option Duration) : io (result string unit) :=
  let gravity_id_query := retry (get_gravity_id contract_address caller_address) 5 in
  match wait_time with
  | Some wait_time =>
      let* r := timeout wait_time gravity_id_query in
      Ret (match r with Some gravity_id => Ok gravity_id | None => Err tt end)
  | None => let* gravity_id := gravity_id_query in Ret (Ok gravity_id)
  end.

(** ** Cost estimation *)

(** The body [estimate_valset_cost], [estimate_tx_batch_cost] and [estimate_logic_call_cost] share;
    the payload is encoded last, inside the request. *)
Definition estimate_cost (payload : eval (result bytes GravityError))
    (gravity_contract_address : EthAddress) (our_eth_key : EthPrivateKey) :
    io (result GasCost GravityError) :=
  let our_eth_address := eth_key_to_address our_eth_key in
  let*? our_balance := call (EthGetBalance our_eth_address) via of_web3_error in
  let*? our_nonce := call (EthGetTransactionCount our_eth_address) via of_web3_error in
  let gas_limit := Z.min (U64_MAX - 1) our_balance in
  let*? gas_price := call EthGasPrice via of_web3_error in
  let zero := 0 in
  let*? data := pure payload via id in
  let*? val := call (EthEstimateGas {| req_from := Some our_eth_address;
                                       req_to := gravity_contract_address;
                                       req_nonce := Some our_nonce;
                                       req_gas_price := Some gas_price;
                                       req_gas := Some gas_limit;
                                       req_value := Some zero;
                                       req_data := Some data |}) via of_web3_error in
  Ret (Ok {| cost_gas := val; cost_gas_price := gas_price |}).

Definition estimate_valset_cost (new_valset old_valset : Valset) (confirms : list ValsetConfirmResponse)
    (gravity_contract_address : EthAddress) (gravity_id : string) (our_eth_key : EthPrivateKey) :
    io (result GasCost GravityError) :=
  estimate_cost (encode_valset_update_payload new_valset old_valset confirms gravity_id)
    gravity_contract_address our_eth_key.

Definition estimate_tx_batch_cost (current_valset : Valset) (batch : TransactionBatch)
    (confirms : list BatchConfirmResponse) (gravity_contract_address : EthAddress)
    (gravity_id : string) (our_eth_key : EthPrivateKey) : io (result GasCost GravityError) :=
  estimate_cost (encode_batch_payload current_valset batch confirms gravity_id)
    gravity_contract_address our_eth_key.

Definition estimate_logic_call_cost (current_valset : Valset) (c : LogicCall)
    (confirms : list LogicCallConfirmResponse) (gravity_contract_address : EthAddress)
    (gravity_id : string) (our_eth_key : EthPrivateKey) : io (result GasCost GravityError) :=
  estimate_cost (encode_logic_call_payload current_valset c confirms gravity_id)
    gravity_contract_address our_eth_key.

(** ** Submission *)

(** [1.10f32] *)
Definition f32_1_10 : f32 := S754_finite false 9227469 (-23).

Definition send_eth_valset_update (new_valset old_valset : Valset)
    (confirms : list ValsetConfirmResponse) (timeout : Duration)
    (gravity_contract_address : EthAddress) (gravity_id : string) (our_eth_key : EthPrivateKey) :
    io (result unit GravityError) :=
  let old_nonce := valset_nonce old_valset in
  let new_nonce := valset_nonce new_valset in
  let* _ := pure (rassert (old_nonce <? new_nonce) "assertion failed: new_nonce > old_nonce") in
  let eth_address := eth_key_to_address our_eth_key in
  let*? before_nonce := get_valset_nonce gravity_contract_address eth_address via of_web3_error in
  if negb (before_nonce =? old_nonce) then Ret (Ok tt)
  else
    let*? payload := pure (encode_valset_update_payload new_valset old_valset confirms gravity_id) via id in
    let*? tx := call (SendTransaction gravity_contract_address payload 0 eth_address our_eth_key
                        [OptGasPriceMultiplier f32_1_10]) via of_web3_error in
    let*? _ := call (WaitForTransaction tx timeout) via of_web3_error in
    let*? last_nonce := get_valset_nonce gravity_contract_address eth_address via of_web3_error in
    (* the new nonce is only logged *)
    Ret (Ok tt).

Definition send_eth_transaction_batch (current_valset : Valset) (batch : TransactionBatch)
    (confirms : list BatchConfirmResponse) (timeout : Duration)
    (gravity_contract_address : EthAddress) (gravity_id : string) (our_eth_key : EthPrivateKey) :
    io (result unit GravityError) :=
  let new_batch_nonce := batch_nonce batch in
  let eth_address := eth_key_to_address our_eth_key in
  let*? before_nonce := get_tx_batch_nonce gravity_contract_address (batch_token_contract batch)
                          eth_address via of_web3_error in
  let*? current_block_height := call EthBlockNumber via of_web3_error in
  if new_batch_nonce <=? before_nonce then Ret (Ok tt)
  else if batch_timeout batch <? current_block_height then Ret (Ok tt)
  else
    let*? payload := pure (encode_batch_payload current_valset batch confirms gravity_id) via id in
    let*? tx := call (SendTransaction gravity_contract_address payload 0 eth_address our_eth_key
                        [OptGasPriceMultiplier f32_1_10]) via of_web3_error in
    let*? _ := call (WaitForTransaction tx timeout) via of_web3_error in
    let*? last_nonce := get_tx_batch_nonce gravity_contract_address (batch_token_contract batch)
                          eth_address via of_web3_error in
    Ret (Ok tt).

Definition send_eth_logic_call (current_valset : Valset) (c : LogicCall)
    (confirms : list LogicCallConfirmResponse) (timeout : Duration)
    (gravity_contract_address : EthAddress) (gravity_id : string) (our_eth_key : EthPrivateKey) :
    io (result unit GravityError) :=
  let new_call_nonce := call_invalidation_nonce c in
  let eth_address := eth_key_to_address our_eth_key in
  let*? before_nonce := get_logic_call_nonce gravity_contract_address (call_invalidation_id c)
                          eth_address via of_web3_error in
  let*? current_block_height := call EthBlockNumber via of_web3_error in
  if new_call_nonce <=? before_nonce then Ret (Ok tt)
  else if call_timeout c <? current_block_height then Ret (Ok tt)
  else
    let*? payload := pure (encode_logic_call_payload current_valset c confirms gravity_id) via id in
    let*? tx := call (SendTransaction gravity_contract_address payload 0 eth_address our_eth_key [])
                  via of_web3_error in
    let*? _ := call (WaitForTransaction tx timeout) via of_web3_error in
    let*? last_nonce := get_logic_call_nonce gravity_contract_address (call_invalidation_id c)
                          eth_address via of_web3_error in
    Ret (Ok tt).

(** ** deploy_erc20.rs *)

(** [if let Some(timeout) = wait_timeout { web3.wait_for_transaction(tx, timeout, None).await?; }] *)
Definition wait_if {A} (wait_timeout : option Duration) (tx : Uint256)
    (k : io (result A GravityError)) : io (result A GravityError) :=
  match wait_timeout with
  | Some timeout => let*? _ := call (WaitForTransaction tx timeout) via of_web3_error in k
  | None => k
  end.

Definition deploy_erc20 (cosmos_denom erc20_name erc20_symbol : string) (decimals : Z)
    (gravity_contract : EthAddress) (wait_timeout : option Duration) (sender_secret : EthPrivateKey)
    (options : list SendTxOption) : io (result Uint256 GravityError) :=
  let sender_address := eth_key_to_address sender_secret in
  let*? payload := Ret (encode_call "deployERC20(string,string,string,uint8)"
    [TokenString cosmos_denom; TokenString erc20_name; TokenString erc20_symbol; token_of_u8 decimals])
    via of_clarity_error in
  let*? tx_hash := call (SendTransaction gravity_contract payload 0 sender_address sender_secret options)
    via of_web3_error in
  wait_if wait_timeout tx_hash (Ret (Ok tx_hash)).

(** ** send_to_cosmos.rs *)

Definition SEND_TO_COSMOS_GAS_LIMIT : Z := 100000.

Definition is_nonce_option (o : SendTxOption) : bool :=
  match o with OptNonce _ => true | _ => false end.
Definition is_gas_limit_option (o : SendTxOption) : bool :=
  match o with OptGasLimit _ => true | _ => false end.

(** [while approved.is_err() && Instant::now() - start < w { approved = check }] *)
Definition recheck_approved (check : io (result bool Web3Error)) (start w : Z)
    (approved : result bool Web3Error) : io (result bool Web3Error) :=
  ITree.iter (λ approved,
    if is_err approved then
      let* now := call Now in
      if now - start <? w then let* approved := check in Ret (inl approved)
      else Ret (inr approved)
    else Ret (inr approved)) approved.

(** [while bytes.len() < 32 { bytes.insert(0, 0u8) }] *)
Fixpoint pad_front (n : nat) (b : bytes) : bytes :=
  match n with
  | O => b
  | S n => if (length b <? 32)%nat then pad_front n (x00 :: b) else b
  end.

(** The approval, when it is missing: the nonce it was sent with. *)
Definition approve_if_needed (erc20 gravity_contract : EthAddress) (sender_secret : EthPrivateKey)
    (wait_timeout : option Duration) (options : list SendTxOption) (approved : bool) :
    io (result (option Uint256) GravityError) :=
  if negb approved then
    let*? nonce := call (EthGetTransactionCount (eth_key_to_address sender_secret)) via of_web3_error in
    let options := options ++ [OptNonce nonce] in
    let*? txid := call (ApproveErc20Transfers erc20 sender_secret gravity_contract options)
      via of_web3_error in
    wait_if wait_timeout txid (Ret (Ok (Some nonce)))
  else Ret (Ok None).

(** The deposit: its options, its payload, the transaction. *)
Definition send_deposit (erc20 gravity_contract : EthAddress) (amount : Uint256)
    (cosmos_destination : CosmosAddress) (sender_secret : EthPrivateKey)
    (wait_timeout : option Duration) (options : list SendTxOption) (approve_nonce : option Uint256) :
    io (result Uint256 GravityError) :=
  let sender_address := eth_key_to_address sender_secret in
  let has_gas_limit := existsb is_gas_limit_option options in
  let options :=
    if negb has_gas_limit then options ++ [OptGasLimit SEND_TO_COSMOS_GAS_LIMIT] else options in
  let* options :=
    match approve_nonce with
    | Some nonce => let* next := pure (u256_add nonce 1) in Ret (options ++ [OptNonce next])
    | None => Ret options
    end in
  let cosmos_dest_address_bytes := pad_front 32 (cosmos_address_as_bytes cosmos_destination) in
  let encoded_destination_address := TokenBytes cosmos_dest_address_bytes in
  let*? payload := Ret (encode_call "sendToCosmos(address,bytes32,uint256)"
    [token_of_address erc20; encoded_destination_address; token_of_u256 amount]) via of_clarity_error in
  let*? tx_hash := call (SendTransaction gravity_contract payload 0 sender_address sender_secret options)
    via of_web3_error in
  wait_if wait_timeout tx_hash (Ret (Ok tx_hash)).

Definition send_to_cosmos (erc20 gravity_contract : EthAddress) (amount : Uint256)
    (cosmos_destination : CosmosAddress) (sender_secret : EthPrivateKey)
    (wait_timeout : option Duration) (options : list SendTxOption) :
    io (result Uint256 GravityError) :=
  let sender_address := eth_key_to_address sender_secret in
  if existsb is_nonce_option options then
    Ret (Err (ValidationError "This call sends more than one tx! Can't specify"))
  else
  let check := call (CheckErc20Approved erc20 sender_address gravity_contract) in
  let* approved := check in
  let* approved :=
    match wait_timeout with
    | Some w => let* start := call Now in recheck_approved check start w approved
    | None => Ret approved
    end in
  let* approved := pure (unwrap approved) in
  let*? approve_nonce :=
    approve_if_needed erc20 gravity_contract sender_secret wait_timeout options approved via id in
  send_deposit erc20 gravity_contract amount cosmos_destination sender_secret wait_timeout options
    approve_nonce.
End Submit.
