(* ===== verification/Client.v ===== *)
(** * The client commands: nabt/src/client

    One file of the code per section; what the code only logs ([print_eth] and [print_atom] among
    it) is left out. *)

From ITree Require Import ITree.
From S2P Require Import Prelude Bytes Proto External Float Instances Types Effects Host Config.
From S2P Require Import CosmosSend Queries Connection Submit Args.
From Stdlib Require Import SpecFloat.

Section Client.
Context `{X : Ext} `{T : !Tools} `{BD : Build}.

(** [connections.web3.unwrap()] and the like *)
Definition the {A} (o : option A) : io A := pure (unwrap_option o).

(** The contract: the one given, or else the chain's parameter. *)
Definition contract_or_param (given : option EthAddress) : io (result EthAddress GravityError) :=
  match given with
  | Some c => Ret (Ok c)
  | None =>
      let* params := get_gravity_params in
      let* params := pure (unwrap params) in
      match address_parse (par_bridge_ethereum_address params) with
      | Err _ => Ret (Err (UnrecoverableError
          "The Gravity address is not yet set as a chain parameter! You must specify --gravity-contract-address"))
      | Ok c => Ret (Ok c)
      end
  end.

(** ** cosmos_to_eth.rs *)

(** The loop over the balances: the last one of the denomination. *)
Definition find_coin (d : string) (balances : list Coin) : option Coin :=
  fold_left (λ found coin, if String.eqb (denom coin) d then Some coin else found) balances None.

(** The transfer, and the request for a batch; a transfer that fails is logged. *)
Definition lock_and_batch (cosmos_key : CosmosPrivateKey) (eth_dest : EthAddress)
    (gravity_coin bridge_fee fee : Coin) (prefix : string) (no_batch : bool) : io (result unit GravityError) :=
  let* _ := send_to_eth cosmos_key eth_dest gravity_coin bridge_fee fee prefix in
  if negb no_batch then
    let* res := send_request_batch cosmos_key (denom gravity_coin) bridge_fee prefix (Some CLIENT_TIMEOUT) in
    let* _ := pure (expect res "Failed to request batch") in Ret (Ok tt)
  else Ret (Ok tt).

Definition cosmos_to_eth (args : CosmosToEthOpts) (address_prefix : string) : io (result unit GravityError) :=
  let cosmos_key := ce_cosmos_phrase args in
  let gravity_coin := ce_amount args in
  let fee := ce_fees args in
  let* cosmos_address := pure (unwrap (cosmos_key_to_address cosmos_key address_prefix)) in
  let* connections := create_rpc_connections address_prefix (Some (ce_cosmos_grpc args)) None CLIENT_TIMEOUT in
  let* contact := the (conn_contact connections) in
  let* grpc := the (conn_grpc connections) in
  let* res := call (QDenomToErc20 (denom gravity_coin)) in
  match res with
  | Err _ => Ret (Err (UnrecoverableError
      "Asset {} has no ERC20 representation, you may need to deploy an ERC20 for it!"))
  | Ok _ =>
      let bridge_fee := {| denom := denom gravity_coin; amount := 1 |} in
      let*? _ := check_for_fee gravity_coin cosmos_address via id in
      let*? _ := check_for_fee fee cosmos_address via id in
      let* balances := call (ContactGetBalances cosmos_address) in
      let* balances := pure (expect balances "Failed to get balances!") in
      match find_coin (denom gravity_coin) balances with
      | None => Ret (Err (UnrecoverableError "You don't have any {} tokens!"))
      | Some found =>
          if amount found <=? amount gravity_coin then
            Ret (Err (UnrecoverableError
              "Your transfer of {} {} tokens is greater than your balance of {} tokens. Remember you need some to pay for fees!"))
          else
            lock_and_batch cosmos_key (ce_eth_destination args) gravity_coin bridge_fee fee
              (contact_prefix contact) (ce_no_batch args)
      end
  end.

(** ** eth_to_cosmos.rs *)

(** [res.to_string().parse::<u8>().unwrap()] *)
Definition decimals_u8 (res : Uint256) : eval Z :=
  if res <=? 255 then Done res else Panic "called `Result::unwrap()` on an `Err` value".

Definition eth_to_cosmos (args : EthToCosmosOpts) (prefix : string) : io (result unit GravityError) :=
  let gravity_address := ec_gravity_contract_address args in
  let erc20_address := ec_token_contract_address args in
  let ethereum_key := ec_ethereum_key args in
  let ethereum_public_key := eth_key_to_address ethereum_key in
  let* connections := create_rpc_connections prefix None (Some (ec_ethereum_rpc args)) CLIENT_TIMEOUT in
  let* web3 := the (conn_web3 connections) in
  let* nonce := get_valset_nonce gravity_address ethereum_public_key in
  let* _ := pure (expect nonce "Incorrect Gravity Address or otherwise unable to contact Gravity") in
  let*? _ := check_for_eth ethereum_public_key via id in
  let* res := call (GetErc20Decimals erc20_address ethereum_public_key) in
  let* res := pure (expect res "Failed to query ERC20 contract") in
  let* decimals := pure (decimals_u8 res) in
  let amount := fraction_to_exponent (ec_amount args) decimals in
  let* erc20_balance := call (GetErc20Balance erc20_address ethereum_public_key) in
  let* erc20_balance := pure (expect erc20_balance "Failed to get balance, check ERC20 contract address") in
  if erc20_balance =? 0 then
    Ret (Err (UnrecoverableError "You have zero {} tokens, please double check your sender and erc20 addresses!"))
  else if erc20_balance <? amount then Ret (Err (UnrecoverableError "Insufficient balance {} > {}"))
  else
    let* _ := send_to_cosmos erc20_address gravity_address amount (ec_destination args) ethereum_key
                (Some CLIENT_TIMEOUT) [] in
    Ret (Ok tt).

(** ** deploy_erc20_representation.rs *)

(** 1.5 as [f32] *)
Definition f32_1_5 : f32 := S754_finite false 12582912 (-23).

Definition ADOPTION_TIMEOUT : Duration := 100.

Definition keep_querying_for_erc20 (denom : string) : io unit :=
  ITree.iter (λ _ : unit,
    let* res := call (QDenomToErc20 denom) in
    match res with
    | Ok _ => Ret (inr tt)
    | Err _ => let* _ := call (Sleep 1) in Ret (inl tt)
    end) tt.

Definition deploy_erc20_representation (args : DeployErc20RepresentationOpts) (address_prefix : string) :
    io (result unit GravityError) :=
  let ethereum_key := de_ethereum_key args in
  let denom := de_cosmos_denom args in
  let* connections := create_rpc_connections address_prefix (Some (de_cosmos_grpc args))
                        (Some (de_ethereum_rpc args)) CLIENT_TIMEOUT in
  let* web3 := the (conn_web3 connections) in
  let* grpc := the (conn_grpc connections) in
  let*? _ := check_for_eth (eth_key_to_address ethereum_key) via id in
  let*? contract_address := contract_or_param (de_gravity_contract_address args) via id in
  let* res := call (QDenomToErc20 denom) in
  match res with
  | Ok _ => Ret (Err (UnrecoverableError "Asset {} already has ERC20 representation {}"))
  | Err _ =>
      let* res := deploy_erc20 denom (de_erc20_name args) (de_erc20_symbol args) (de_erc20_decimals args)
                    contract_address (Some CLIENT_TIMEOUT) ethereum_key [OptGasPriceMultiplier f32_1_5] in
      let* _ := pure (unwrap res) in
      let* adopted := timeout ADOPTION_TIMEOUT (keep_querying_for_erc20 denom) in
      match adopted with
      | Some _ => Ret (Ok tt)
      | None => Ret (Err (UnrecoverableError
          "Your ERC20 contract was not adopted, double check the metadata and try again"))
      end
  end.
End Client.
