(* ===== verification/SubmitTheory.v ===== *)
(** * Submitting to Ethereum: what is sent, and when

    The rules the later files use to step through a program, and the guards under which the
    functions of Submit.v send a transaction. *)

From ITree Require Import ITree.
From S2P Require Import Prelude Bytes Proto External Float Instances Types Signatures Valset Batches.
From S2P Require Import LogicCall Messages Effects Queries Submit.

(** ** Stepping *)

Section Rules.
Context `{X : Ext}.
Implicit Types (P : spec) (A : env) (l : log).

(** The call was made and answered so. *)
Definition saw l {R} (e : callE R) (x : R) : Prop := mkEntry R e x ∈ l.

(** The transactions sent: destination and payload. *)
Definition sends l : list (EthAddress * bytes) :=
  omap (λ x, match ent_call x with
             | SendTransaction to payload _ _ _ _ => Some (to, payload)
             | _ => None
             end) l.

(** The calls that spend money or change files. *)
Definition spends {R} (e : callE R) : bool :=
  match e with
  | SendTransaction _ _ _ _ _ _ | ApproveErc20Transfers _ _ _ _ | ContactSendTransaction _
  | DiskWrite _ | EthSendRawTransaction _ | Erc20Send _ _ _ _ _ _ | WrapEth _ _ | SwapUniswap _ _ _ _
  | ContactDelegate _ _ _ _ _ | ContactSendTokens _ _ _ _ _ | ContactCreateGovProposal _ _ _ _ _ _
  | ContactVoteYes _ _ _ _ | CommandOutput _ _ _ => true
  | _ => false
  end.
Definition is_spend (x : entry) : bool := spends (ent_call x).
Definition is_send (x : entry) : bool := match ent_call x with SendTransaction _ _ _ _ _ _ => true | _ => false end.
Definition spent (l : list entry) : list entry := filter (λ x, spends (ent_call x) = true) l.

(** The transactions posted to the Cosmos chain. *)
Definition posts l : list bytes :=
  omap (λ x, match ent_call x with ContactSendTransaction msg => Some msg | _ => None end) l.

(** A requirement on transactions only. *)
Definition on_send (S : EthAddress → bytes → Uint256 → EthAddress → EthPrivateKey →
    list SendTxOption → log → Prop) : spec := λ R e l,
  match e with
  | SendTransaction to payload value own key options => S to payload value own key options l
  | _ => spends e = false
  end.

Definition lenient P : Prop := ∀ R (e : callE R) l, spends e = false → P R e l.

Lemma on_send_lenient S : lenient (on_send S).
Proof. intros R e l. by destruct e. Qed.

Lemma on_send_monotone S :
  (∀ to payload value own key options l l', l ⊆ l' →
     S to payload value own key options l → S to payload value own key options l') →
  log_monotone (on_send S).
Proof. intros HS R e l l' Hl. destruct e; simpl; try done. by apply HS. Qed.

Lemma sat_call_bind P A {R V} (e : callE R) (f : R → io V) l Q :
  P R e l → (∀ x, A R e x → sat P A (f x) (l ++ [mkEntry R e x]) Q) →
  sat P A (ITree.bind (call e) f) l Q.
Proof. intros. by apply sat_bind, sat_call. Qed.

Lemma sat_call_try P A {B C E F} (conv : E → F) (e : callE (result B E)) (f : B → io (result C F)) l Q :
  P _ e l →
  (∀ x, A _ e (Ok x) → sat P A (f x) (l ++ [mkEntry _ e (Ok x)]) Q) →
  (∀ err, A _ e (Err err) → Q (Err (conv err)) (l ++ [mkEntry _ e (Err err)])) →
  sat P A (try_io conv (call e) f) l Q.
Proof. intros HP Ho He. apply sat_try, sat_call; [done|]. intros [x|err] Hx; auto. Qed.

Lemma sat_pure_bind P A {R V} (m : eval R) (f : R → io V) l Q :
  (∀ w, m = Panic w → P _ (Panics w) l) → (∀ r, m = Done r → sat P A (f r) l Q) →
  sat P A (ITree.bind (pure m) f) l Q.
Proof. intros. by apply sat_bind, sat_pure. Qed.

Lemma sat_pure_try P A {B C E F} (conv : E → F) (m : eval (result B E)) (f : B → io (result C F)) l Q :
  (∀ w, m = Panic w → P _ (Panics w) l) →
  (∀ x, m = Done (Ok x) → sat P A (f x) l Q) →
  (∀ err, m = Done (Err err) → Q (Err (conv err)) l) →
  sat P A (try_io conv (pure m) f) l Q.
Proof. intros HP Ho He. apply sat_try, sat_pure; [done|]. intros [x|err] Hx; auto. Qed.

Lemma sat_ret_try P A {B C E F} (conv : E → F) (r : result B E) (f : B → io (result C F)) l Q :
  (∀ x, r = Ok x → sat P A (f x) l Q) → (∀ err, r = Err err → Q (Err (conv err)) l) →
  sat P A (try_io conv (Ret r) f) l Q.
Proof. intros Ho He. apply sat_try, sat_ret. destruct r; auto. Qed.

(** A program run inside another, known by its own specification. *)
Lemma sat_run P A {R V} (t : io R) (f : R → io V) l (Q0 : R → log → Prop) Q :
  sat P A t l Q0 → (∀ r l', Q0 r l' → sat P A (f r) l' Q) → sat P A (ITree.bind t f) l Q.
Proof. intros Ht Hf. apply sat_bind. by eapply sat_mono. Qed.

Lemma sat_run_try P A {B C E F} (conv : E → F) (t : io (result B E)) (f : B → io (result C F)) l
    (Q0 : result B E → log → Prop) Q :
  sat P A t l Q0 → (∀ x l', Q0 (Ok x) l' → sat P A (f x) l' Q) →
  (∀ err l', Q0 (Err err) l' → Q (Err (conv err)) l') →
  sat P A (try_io conv t f) l Q.
Proof. intros Ht Ho He. apply sat_try. eapply sat_mono; [exact Ht|]. intros [x|err] l'; auto. Qed.

Lemma saw_snoc l {R} (e : callE R) x : saw (l ++ [mkEntry R e x]) e x.
Proof. apply elem_of_app. right. by left. Qed.
Lemma saw_sub l l' {R} (e : callE R) x : l ⊆ l' → saw l e x → saw l' e x.
Proof. intros H. apply H. Qed.

(** An answer in a log of an environment's answers is one of them. *)
Lemma answered_saw A l {R} (e : callE R) x : answered A l → saw l e x → A R e x.
Proof. intros H Hs. unfold answered in H. rewrite Forall_forall in H. apply (H _ Hs). Qed.

Lemma sends_snoc l {R} (e : callE R) x : spends e = false → sends (l ++ [mkEntry R e x]) = sends l.
Proof.
  intros H. unfold sends. rewrite omap_app. simpl. destruct e; try discriminate H; by rewrite app_nil_r.
Qed.
Lemma posts_snoc l {R} (e : callE R) x : spends e = false → posts (l ++ [mkEntry R e x]) = posts l.
Proof.
  intros H. unfold posts. rewrite omap_app. simpl. destruct e; try discriminate H; by rewrite app_nil_r.
Qed.
Lemma spent_snoc l {R} (e : callE R) x : spends e = false → spent (l ++ [mkEntry R e x]) = spent l.
Proof.
  intros H. unfold spent. rewrite filter_app, filter_cons_False by (simpl; by rewrite H).
  by rewrite filter_nil, app_nil_r.
Qed.

(** What was spent determines what was sent and posted. *)
Lemma omap_filter {B} (f : entry → option B) l :
  (∀ x, spends (ent_call x) = false → f x = None) → omap f (spent l) = omap f l.
Proof.
  intros H. induction l as [|x l IH]; [done|]. unfold spent. destruct (spends (ent_call x)) eqn:E.
  - rewrite filter_cons_True by done. fold (spent l). cbn [omap list_omap]. by rewrite IH.
  - rewrite filter_cons_False by (by rewrite E). fold (spent l). cbn [omap list_omap].
    by rewrite (H x E), IH.
Qed.
Lemma sends_spent l l' : spent l' = spent l → sends l' = sends l.
Proof.
  intros H. unfold sends. rewrite <- !(omap_filter _ l), <- !(omap_filter _ l'), H; [done|..];
    intros [Y e x]; by destruct e.
Qed.
Lemma posts_spent l l' : spent l' = spent l → posts l' = posts l.
Proof.
  intros H. unfold posts. rewrite <- !(omap_filter _ l), <- !(omap_filter _ l'), H; [done|..];
    intros [Y e x]; by destruct e.
Qed.
End Rules.

(** [l ⊆ l ++ [a] ++ ..], and calls seen somewhere in such a log. *)
Ltac sub := repeat (first [done | etrans; [|apply subseteq_snoc]]).
Ltac solve_saw :=
  first [ apply saw_snoc | eapply saw_sub; [apply subseteq_snoc|]; solve_saw | eassumption ].

(** One step through a program under a lenient requirement. *)
Ltac sat_step :=
  lazymatch goal with
  | |- sat _ _ (Ret _) _ _ => apply sat_ret
  | |- sat _ _ (call _) _ _ => apply sat_call
  | |- sat _ _ (panic _) _ _ => apply sat_panic
  | |- sat _ _ (pure _) _ _ => apply sat_pure
  | |- sat _ _ (ITree.bind (call _) _) _ _ => apply sat_call_bind
  | |- sat _ _ (ITree.bind (pure _) _) _ _ => apply sat_pure_bind
  | |- sat _ _ (try_io _ (call _) _) _ _ => apply sat_call_try
  | |- sat _ _ (try_io _ (pure _) _) _ _ => apply sat_pure_try
  | |- sat _ _ (try_io _ (Ret _) _) _ _ => apply sat_ret_try
  | |- sat _ _ (match ?x with _ => _ end) _ _ => destruct x eqn:?
  | HP : lenient ?P |- ?P _ _ _ => apply HP; reflexivity
  | |- on_send _ _ _ _ => exact I
  | |- ∀ _, _ => intro
  | |- _ → _ => intro
  end.
Ltac sat_steps := repeat sat_step.

(** ** Quiet programs: they spend nothing, whatever is required of those who do *)

Section Quiet.
Context `{X : Ext} `{BD : Build}.
Implicit Types (P : spec) (A : env) (l : log).

(** [t] makes no call that spends. *)
Definition quiet {R} (t : io R) : Prop :=
  ∀ P A l, lenient P → sat P A t l (λ _ l', l ⊆ l' ∧ spent l' = spent l).

Lemma quiet_sub l l1 l2 : l ⊆ l1 ∧ spent l1 = spent l → l1 ⊆ l2 ∧ spent l2 = spent l1 →
  l ⊆ l2 ∧ spent l2 = spent l.
Proof. intros [H1 E1] [H2 E2]. split; [by etrans|congruence]. Qed.

Lemma quiet_ret {R} (r : R) : quiet (Ret r).
Proof. intros P A l HP. by apply sat_ret. Qed.
Lemma quiet_panic {R} w : quiet (panic (R := R) w).
Proof. intros P A l HP. apply sat_panic. by apply HP. Qed.
Lemma quiet_call {R} (e : callE R) : spends e = false → quiet (call e).
Proof.
  intros He P A l HP. apply sat_call; [by apply HP|]. intros x _.
  split; [apply subseteq_snoc|by apply spent_snoc].
Qed.
Lemma quiet_bind {R V} (t : io R) (f : R → io V) : quiet t → (∀ r, quiet (f r)) → quiet (ITree.bind t f).
Proof.
  intros Ht Hf P A l HP. eapply sat_run; [by apply Ht|]. intros r l' H'. simpl in H'.
  eapply sat_mono; [by apply Hf|]. intros r' l''. simpl. by apply quiet_sub.
Qed.
Lemma quiet_pure {R} (m : eval R) : quiet (pure m).
Proof. destruct m; [apply quiet_ret|apply quiet_panic]. Qed.
Lemma quiet_try {B C E F} (conv : E → F) (t : io (result B E)) (f : B → io (result C F)) :
  quiet t → (∀ x, quiet (f x)) → quiet (try_io conv t f).
Proof. intros Ht Hf. apply quiet_bind; [done|]. intros [x|e]; [done|apply quiet_ret]. Qed.
Lemma quiet_retry {B E} (t : io (result B E)) d : quiet t → quiet (retry t d).
Proof.
  intros Ht P A l HP. apply sat_retry with (Inv := λ l', l ⊆ l' ∧ spent l' = spent l); [|done].
  intros l' H'. eapply sat_mono; [by apply Ht|]. intros [x|e] l'' H''; simpl in *.
  - by eapply quiet_sub.
  - assert (l ⊆ l'' ∧ spent l'' = spent l) as Hs by by eapply quiet_sub.
    split; [done|]. split; [by apply HP|]. destruct Hs as [H1 H2].
    split; [etrans; [done|apply subseteq_snoc] | by rewrite spent_snoc].
Qed.
Lemma quiet_for {B V} (items : list B) (body : B → V → io V) s :
  (∀ x s, quiet (body x s)) → quiet (for_each items body s).
Proof.
  intros Hb. revert s. induction items as [|x items IH]; intros s; simpl; [apply quiet_ret|].
  by apply quiet_bind.
Qed.
Lemma quiet_iter {I R} (body : I → io (I + R)) i : (∀ i, quiet (body i)) → quiet (ITree.iter body i).
Proof.
  intros Hb P A l HP. apply sat_iter with (Inv := λ _ l', l ⊆ l' ∧ spent l' = spent l); [|done].
  intros j l' H'. eapply sat_mono; [by apply Hb|]. intros [k|r] l'' H''; by eapply quiet_sub.
Qed.

Lemma quiet_sends {R} (t : io R) P A l : quiet t → lenient P →
  sat P A t l (λ _ l', l ⊆ l' ∧ sends l' = sends l).
Proof.
  intros Ht HP. eapply sat_mono; [by apply Ht|]. intros r l' [Hl Hs]. split; [done|]. by apply sends_spent.
Qed.

(** A getter that retries gives an answer the node gave, and spends nothing. *)
Lemma retry_call_spec P A {R E} (e : callE (result R E)) d l : lenient P → spends e = false →
  sat P A (retry (call e) d) l (λ x l', (l ⊆ l' ∧ spent l' = spent l) ∧ saw l' e (Ok x) ∧ A _ e (Ok x)).
Proof.
  intros HP He. apply sat_retry with (Inv := λ l', l ⊆ l' ∧ spent l' = spent l); [|done].
  intros l' Hl'. apply sat_call; [by apply HP|]. intros [x|err] Hx.
  - split; [|split; [solve_saw|done]]. eapply quiet_sub; [exact Hl'|]. split; [sub|by apply spent_snoc].
  - assert (l ⊆ l' ++ [mkEntry _ e (Err err)] ∧ spent (l' ++ [mkEntry _ e (Err err)]) = spent l) as H.
    { eapply quiet_sub; [exact Hl'|]. split; [sub|by apply spent_snoc]. }
    split; [done|]. split; [by apply HP|]. eapply quiet_sub; [exact H|]. split; [sub|by apply spent_snoc].
Qed.
End Quiet.

Create HintDb quiet.
#[export] Hint Resolve quiet_ret quiet_panic quiet_pure : quiet.
Ltac quiet_tac :=
  repeat (intros; first
    [ done
    | solve [eauto with quiet]
    | apply quiet_bind | apply quiet_try | apply quiet_call; reflexivity | apply quiet_retry
    | apply quiet_iter | apply quiet_for
    | match goal with |- quiet (match ?x with _ => _ end) => destruct x end ]).

Section QuietQueries.
Context `{X : Ext} `{BD : Build}.

Lemma quiet_get_valset nonce : quiet (get_valset nonce).
Proof. unfold get_valset. quiet_tac. Qed.
Lemma quiet_get_latest_valsets : quiet get_latest_valsets.
Proof. unfold get_latest_valsets. quiet_tac. Qed.
Lemma quiet_get_all_valset_confirms nonce : quiet (get_all_valset_confirms nonce).
Proof. unfold get_all_valset_confirms. quiet_tac. Qed.
Lemma quiet_get_latest_transaction_batches : quiet get_latest_transaction_batches.
Proof. unfold get_latest_transaction_batches. quiet_tac. Qed.
Lemma quiet_get_transaction_batch_signatures n c : quiet (get_transaction_batch_signatures n c).
Proof. unfold get_transaction_batch_signatures. quiet_tac. Qed.
Lemma quiet_get_latest_logic_calls : quiet get_latest_logic_calls.
Proof. unfold get_latest_logic_calls. quiet_tac. Qed.
Lemma quiet_get_logic_call_signatures i n : quiet (get_logic_call_signatures i n).
Proof. unfold get_logic_call_signatures. quiet_tac. Qed.
Lemma quiet_get_last_event_nonce_for_validator a p : quiet (get_last_event_nonce_for_validator a p).
Proof. unfold get_last_event_nonce_for_validator. quiet_tac. Qed.
Lemma quiet_read_nonce c a f args o : quiet (read_nonce c a f args o).
Proof. unfold read_nonce. quiet_tac. Qed.
Lemma quiet_get_gravity_id c a : quiet (get_gravity_id c a).
Proof. unfold get_gravity_id. quiet_tac. Qed.
Lemma quiet_estimate_cost p g k : quiet (estimate_cost p g k).
Proof. unfold estimate_cost. quiet_tac. Qed.
End QuietQueries.
#[export] Hint Resolve quiet_get_valset quiet_get_latest_valsets quiet_get_all_valset_confirms
  quiet_get_latest_transaction_batches quiet_get_transaction_batch_signatures
  quiet_get_latest_logic_calls quiet_get_logic_call_signatures
  quiet_get_last_event_nonce_for_validator quiet_read_nonce quiet_get_gravity_id
  quiet_estimate_cost : quiet.

(** ** Guards *)

Section Guards.
Context `{X : Ext} `{BD : Build}.
Implicit Types (P : spec) (A : env) (l : log).

(** A nonce the contract has reported. *)
Definition saw_nonce l (contract caller : EthAddress) (function : string) (args : list Token) (n : Z) : Prop :=
  ∃ payload val, encode_call function args = Ok payload ∧
    saw l (SimulateTransaction contract 0 payload caller) (Ok val) ∧
    downcast_uint256 (u256_from_bytes_be val) = Done (Some n).
Definition saw_valset_nonce l contract caller :=
  saw_nonce l contract caller "state_lastValsetNonce()" [].
Definition saw_batch_nonce l contract erc20 caller :=
  saw_nonce l contract caller "lastBatchNonce(address)" [token_of_address erc20].
Definition saw_call_nonce l contract invalidation_id caller :=
  saw_nonce l contract caller "lastLogicCallNonce(bytes32)" [TokenBytes invalidation_id].
Definition saw_block l (h : Uint256) : Prop := saw l EthBlockNumber (Ok h).

Lemma saw_nonce_sub l l' c a f args n : l ⊆ l' → saw_nonce l c a f args n → saw_nonce l' c a f args n.
Proof. intros H (p & v & H1 & H2 & H3). exists p, v. split_and!; [done| |done]. by eapply saw_sub. Qed.

Lemma read_nonce_spec P A contract caller f args o l : lenient P →
  sat P A (read_nonce contract caller f args o) l (λ r l',
    (l ⊆ l' ∧ sends l' = sends l) ∧ ∀ n, r = Ok n → saw_nonce l' contract caller f args n).
Proof.
  intros HP. unfold read_nonce. sat_steps.
  - split; [split; [apply subseteq_snoc|by apply sends_snoc]|]. intros n [= <-].
    apply unwrap_Done in H. exists r, x. split_and!; [done|solve_saw|congruence].
  - split; [split; [apply subseteq_snoc|by apply sends_snoc]|done].
Qed.

(** When each of the three submissions may send: what it has seen by then. *)
Definition valset_guard (new_valset old_valset : Valset) (confirms : list ValsetConfirmResponse)
    (g : EthAddress) (id : string) (key : EthPrivateKey) (payload : bytes) l : Prop :=
  encode_valset_update_payload new_valset old_valset confirms id = Done (Ok payload) ∧
  valset_nonce old_valset < valset_nonce new_valset ∧
  saw_valset_nonce l g (eth_key_to_address key) (valset_nonce old_valset).

Definition batch_guard (vs : Valset) (b : TransactionBatch) (confirms : list BatchConfirmResponse)
    (g : EthAddress) (id : string) (key : EthPrivateKey) (payload : bytes) l : Prop :=
  encode_batch_payload vs b confirms id = Done (Ok payload) ∧
  (∃ n, saw_batch_nonce l g (batch_token_contract b) (eth_key_to_address key) n ∧ n < batch_nonce b) ∧
  (∃ h, saw_block l h ∧ h ≤ batch_timeout b).

Definition call_guard (vs : Valset) (c : LogicCall) (confirms : list LogicCallConfirmResponse)
    (g : EthAddress) (id : string) (key : EthPrivateKey) (payload : bytes) l : Prop :=
  encode_logic_call_payload vs c confirms id = Done (Ok payload) ∧
  (∃ n, saw_call_nonce l g (call_invalidation_id c) (eth_key_to_address key) n ∧
        n < call_invalidation_nonce c) ∧
  (∃ h, saw_block l h ∧ h ≤ call_timeout c).

(** What a submission leaves behind: nothing sent, or one transaction to the contract, accepted by
    the node, the guard holding when it was sent; on success it was also waited for. *)
Definition submitted l l' (g : EthAddress) (own : EthAddress) (key : EthPrivateKey)
    (options : list SendTxOption) (timeout : Duration) (ok : bool) : Prop :=
  ∃ payload r,
    saw l' (SendTransaction g payload 0 own key options) r ∧ sends l' = sends l ++ [(g, payload)] ∧
    (ok = true → ∃ tx, r = Ok tx ∧ saw l' (WaitForTransaction tx timeout) (Ok tt)).

(** The tail all three share: send, wait, read the nonce again. *)
Definition submit_tail (g : EthAddress) (payload : bytes) (own : EthAddress) (key : EthPrivateKey)
    (options : list SendTxOption) (timeout : Duration) (reread : io (result Z Web3Error)) :
    io (result unit GravityError) :=
  let*? tx := call (SendTransaction g payload 0 own key options) via of_web3_error in
  let*? _ := call (WaitForTransaction tx timeout) via of_web3_error in
  let*? last_nonce := reread via of_web3_error in
  Ret (Ok tt).

Lemma sends_send l to p v own key o x :
  sends (l ++ [mkEntry _ (SendTransaction to p v own key o) x]) = sends l ++ [(to, p)].
Proof. unfold sends. by rewrite omap_app. Qed.

Lemma sends_approve l e k c o x :
  sends (l ++ [mkEntry _ (ApproveErc20Transfers e k c o) x]) = sends l.
Proof. unfold sends. rewrite omap_app. simpl. by rewrite app_nil_r. Qed.

Lemma submit_tail_spec P A g payload own key options timeout reread l0 l :
  lenient P → quiet reread → l0 ⊆ l → sends l = sends l0 →
  P _ (SendTransaction g payload 0 own key options) l →
  sat P A (submit_tail g payload own key options timeout reread) l (λ r l',
    l0 ⊆ l' ∧ submitted l0 l' g own key options timeout (is_ok r)).
Proof.
  intros HP Hq Hl Hs HS. unfold submit_tail. apply sat_call_try; [done| |].
  - intros tx _. apply sat_call_try; [by apply HP| |].
    + intros [] _. eapply sat_run_try; [by apply quiet_sends| |].
      * intros n l' [Hl' Hs']. apply sat_ret. split; [etrans; [done|]; etrans; [|done]; sub|].
        exists payload, (Ok tx). split_and!.
        -- eapply saw_sub; [done|]. solve_saw.
        -- by rewrite Hs', sends_snoc, sends_send, Hs.
        -- intros _. exists tx. split; [done|]. eapply saw_sub; [done|]. solve_saw.
      * intros err l' [Hl' Hs']. split; [etrans; [done|]; etrans; [|done]; sub|].
        exists payload, (Ok tx). split_and!; [|by rewrite Hs', sends_snoc, sends_send, Hs|done].
        eapply saw_sub; [done|]. solve_saw.
    + intros err _. split; [etrans; [done|]; sub|].
      exists payload, (Ok tx). split_and!; [solve_saw|by rewrite sends_snoc, sends_send, Hs|done].
  - intros err _. split; [etrans; [done|]; sub|].
    exists payload, (Err err). split_and!; [solve_saw|by rewrite sends_send, Hs|done].
Qed.

Lemma send_valset_spec A S new_valset old_valset confirms timeout g id key l :
  let own := eth_key_to_address key in
  let options := [OptGasPriceMultiplier f32_1_10] in
  (∀ payload l', l ⊆ l' → sends l' = sends l →
    valset_guard new_valset old_valset confirms g id key payload l' → S g payload 0 own key options l') →
  sat (on_send S) A (send_eth_valset_update new_valset old_valset confirms timeout g id key) l (λ r l',
    l ⊆ l' ∧
    ((sends l' = sends l ∧ (r = Ok tt → ∃ n, saw_valset_nonce l' g own n ∧ n ≠ valset_nonce old_valset)) ∨
     submitted l l' g own key options timeout (is_ok r))).
Proof.
  intros own options HS. pose proof (on_send_lenient S) as HP. unfold send_eth_valset_update.
  apply sat_pure_bind; [done|]. intros [] Hlt. unfold rassert in Hlt.
  destruct (Z.ltb_spec (valset_nonce old_valset) (valset_nonce new_valset)) as [Hn|]; [|done].
  eapply sat_run_try; [by apply read_nonce_spec| |].
  - intros n l1 [[Hl Hs] Hsaw]. specialize (Hsaw n eq_refl).
    destruct (Z.eqb_spec n (valset_nonce old_valset)) as [->|Hne]; simpl.
    + apply sat_pure_try; [done| |intros err _; split; [done|]; by left].
      intros payload Hp. eapply sat_mono; [apply (submit_tail_spec _ _ _ _ _ _ _ _ _ l)|]; try done.
      * apply quiet_read_nonce.
      * by apply HS.
      * intros r l' [H1 H2]. split; [done|]. by right.
    + apply sat_ret. split; [done|]. left. split; [done|]. intros _. by exists n.
  - intros err l1 [[Hl Hs] _]. split; [done|]. by left.
Qed.

Lemma send_batch_spec A S vs b confirms timeout g id key l :
  let own := eth_key_to_address key in
  let options := [OptGasPriceMultiplier f32_1_10] in
  (∀ payload l', l ⊆ l' → sends l' = sends l →
    batch_guard vs b confirms g id key payload l' → S g payload 0 own key options l') →
  sat (on_send S) A (send_eth_transaction_batch vs b confirms timeout g id key) l (λ r l',
    l ⊆ l' ∧
    ((sends l' = sends l ∧ (r = Ok tt →
        (∃ n, saw_batch_nonce l' g (batch_token_contract b) own n ∧ batch_nonce b ≤ n) ∨
        (∃ h, saw_block l' h ∧ batch_timeout b < h))) ∨
     submitted l l' g own key options timeout (is_ok r))).
Proof.
  intros own options HS. pose proof (on_send_lenient S) as HP. unfold send_eth_transaction_batch.
  eapply sat_run_try; [by apply read_nonce_spec| |intros err l1 [[Hl Hs] _]; split; [done|]; by left].
  intros n l1 [[Hl Hs] Hsaw]. specialize (Hsaw n eq_refl).
  apply sat_call_try; [done| |]; cycle 1.
  { intros err _. split; [etrans; [done|]; sub|]. left. by rewrite sends_snoc. }
  intros h _. set (l2 := l1 ++ _). assert (l ⊆ l2 ∧ sends l2 = sends l) as [Hl2 Hs2].
  { unfold l2. split; [etrans; [done|]; sub|by rewrite sends_snoc]. }
  assert (saw_block l2 h) as Hh by (unfold l2; solve_saw).
  assert (saw_batch_nonce l2 g (batch_token_contract b) own n) as Hn2.
  { eapply saw_nonce_sub; [|done]. apply subseteq_snoc. }
  destruct (Z.leb_spec (batch_nonce b) n).
  { apply sat_ret. split; [done|]. left. split; [done|]. intros _. left. by exists n. }
  destruct (Z.ltb_spec (batch_timeout b) h).
  { apply sat_ret. split; [done|]. left. split; [done|]. intros _. right. by exists h. }
  apply sat_pure_try; [done| |intros err _; split; [done|]; by left].
  intros payload Hp. eapply sat_mono; [apply (submit_tail_spec _ _ _ _ _ _ _ _ _ l)|]; try done.
  - apply quiet_read_nonce.
  - apply HS; [done..|]. split_and!; [done|by exists n|by exists h].
  - intros r l' [H1 H2]. split; [done|]. by right.
Qed.

Lemma send_call_spec A S vs c confirms timeout g id key l :
  let own := eth_key_to_address key in
  (∀ payload l', l ⊆ l' → sends l' = sends l →
    call_guard vs c confirms g id key payload l' → S g payload 0 own key [] l') →
  sat (on_send S) A (send_eth_logic_call vs c confirms timeout g id key) l (λ r l',
    l ⊆ l' ∧
    ((sends l' = sends l ∧ (r = Ok tt →
        (∃ n, saw_call_nonce l' g (call_invalidation_id c) own n ∧ call_invalidation_nonce c ≤ n) ∨
        (∃ h, saw_block l' h ∧ call_timeout c < h))) ∨
     submitted l l' g own key [] timeout (is_ok r))).
Proof.
  intros own HS. pose proof (on_send_lenient S) as HP. unfold send_eth_logic_call.
  eapply sat_run_try; [by apply read_nonce_spec| |intros err l1 [[Hl Hs] _]; split; [done|]; by left].
  intros n l1 [[Hl Hs] Hsaw]. specialize (Hsaw n eq_refl).
  apply sat_call_try; [done| |]; cycle 1.
  { intros err _. split; [etrans; [done|]; sub|]. left. by rewrite sends_snoc. }
  intros h _. set (l2 := l1 ++ _). assert (l ⊆ l2 ∧ sends l2 = sends l) as [Hl2 Hs2].
  { unfold l2. split; [etrans; [done|]; sub|by rewrite sends_snoc]. }
  assert (saw_block l2 h) as Hh by (unfold l2; solve_saw).
  assert (saw_call_nonce l2 g (call_invalidation_id c) own n) as Hn2.
  { eapply saw_nonce_sub; [|done]. apply subseteq_snoc. }
  destruct (Z.leb_spec (call_invalidation_nonce c) n).
  { apply sat_ret. split; [done|]. left. split; [done|]. intros _. left. by exists n. }
  destruct (Z.ltb_spec (call_timeout c) h).
  { apply sat_ret. split; [done|]. left. split; [done|]. intros _. right. by exists h. }
  apply sat_pure_try; [done| |intros err _; split; [done|]; by left].
  intros payload Hp. eapply sat_mono; [apply (submit_tail_spec _ _ _ _ _ _ _ _ _ l)|]; try done.
  - apply quiet_read_nonce.
  - apply HS; [done..|]. split_and!; [done|by exists n|by exists h].
  - intros r l' [H1 H2]. split; [done|]. by right.
Qed.
End Guards.

(** ** Termination *)

Section Terminates.
Context `{X : Ext} `{BD : Build}.

Definition terminates (A : env) {R} (t : io R) : Prop := term A (λ _, True) t.

Lemma terminates_ret A {R} (r : R) : terminates A (Ret r).
Proof. by apply term_ret. Qed.
Lemma terminates_panic A {R} w : terminates A (panic (R := R) w).
Proof. apply term_panic. Qed.
Lemma terminates_call A {R} (e : callE R) : terminates A (call e).
Proof. by apply term_call. Qed.
Lemma terminates_pure A {R} (m : eval R) : terminates A (pure m).
Proof. by apply term_pure. Qed.
Lemma terminates_bind A {R V} (t : io R) (f : R → io V) :
  terminates A t → (∀ r, terminates A (f r)) → terminates A (ITree.bind t f).
Proof. intros Ht Hf. eapply term_bind; [exact Ht|]. intros r _. apply Hf. Qed.
Lemma terminates_try A {B C E F} (conv : E → F) (t : io (result B E)) (f : B → io (result C F)) :
  terminates A t → (∀ x, terminates A (f x)) → terminates A (try_io conv t f).
Proof. intros Ht Hf. apply terminates_bind; [done|]. intros [x|e]; [done|apply terminates_ret]. Qed.
Lemma terminates_for A {B V} (items : list B) (body : B → V → io V) s :
  (∀ x s, terminates A (body x s)) → terminates A (for_each items body s).
Proof. apply term_for. Qed.
End Terminates.

Create HintDb terminates.
#[export] Hint Resolve terminates_ret terminates_panic terminates_pure terminates_call : terminates.
Ltac terminates_tac :=
  repeat (intros; first
    [ done
    | solve [eauto with terminates]
    | apply terminates_bind | apply terminates_try | apply terminates_for
    | match goal with |- terminates _ (match ?x with _ => _ end) => destruct x end ]).

Section TerminatesSubmit.
Context `{X : Ext} `{BD : Build}.

Lemma terminates_read_nonce A c a f args o : terminates A (read_nonce c a f args o).
Proof. unfold read_nonce. terminates_tac. Qed.
Hint Resolve terminates_read_nonce : terminates.
Lemma terminates_estimate_cost A p g k : terminates A (estimate_cost p g k).
Proof. unfold estimate_cost. terminates_tac. Qed.
Lemma terminates_send_valset A n o c t g id k : terminates A (send_eth_valset_update n o c t g id k).
Proof. unfold send_eth_valset_update, get_valset_nonce. terminates_tac. Qed.
Lemma terminates_send_batch A vs b c t g id k : terminates A (send_eth_transaction_batch vs b c t g id k).
Proof. unfold send_eth_transaction_batch, get_tx_batch_nonce. terminates_tac. Qed.
Lemma terminates_send_call A vs c s t g id k : terminates A (send_eth_logic_call vs c s t g id k).
Proof. unfold send_eth_logic_call, get_logic_call_nonce. terminates_tac. Qed.
Lemma terminates_get_valset A n : terminates A (get_valset n).
Proof. unfold get_valset. terminates_tac. Qed.
Lemma terminates_get_latest_valsets A : terminates A get_latest_valsets.
Proof. unfold get_latest_valsets. terminates_tac. Qed.
Lemma terminates_get_all_valset_confirms A n : terminates A (get_all_valset_confirms n).
Proof. unfold get_all_valset_confirms. terminates_tac. Qed.
Lemma terminates_get_latest_transaction_batches A : terminates A get_latest_transaction_batches.
Proof. unfold get_latest_transaction_batches. terminates_tac. Qed.
Lemma terminates_get_transaction_batch_signatures A n c : terminates A (get_transaction_batch_signatures n c).
Proof. unfold get_transaction_batch_signatures. terminates_tac. Qed.
Lemma terminates_get_latest_logic_calls A : terminates A get_latest_logic_calls.
Proof. unfold get_latest_logic_calls. terminates_tac. Qed.
Lemma terminates_get_logic_call_signatures A i n : terminates A (get_logic_call_signatures i n).
Proof. unfold get_logic_call_signatures. terminates_tac. Qed.
End TerminatesSubmit.
#[export] Hint Resolve terminates_read_nonce terminates_estimate_cost terminates_send_valset
  terminates_send_batch terminates_send_call terminates_get_valset terminates_get_latest_valsets
  terminates_get_all_valset_confirms terminates_get_latest_transaction_batches
  terminates_get_transaction_batch_signatures terminates_get_latest_logic_calls
  terminates_get_logic_call_signatures : terminates.

(** ** The submission theorems *)

Section SubmitTheorems.
Context `{X : Ext} `{BD : Build}.

(** Whatever the node answers, [send_eth_transaction_batch] sends at most one transaction: the
    batch's payload, to the contract, after the contract reported a nonce below the batch's and the
    node a block not past its timeout. It succeeds only if that transaction was accepted and waited
    for, or if the nonce was already reached or the batch timed out and nothing was sent. *)
Theorem batch_submission_guarded vs b confirms timeout g id key :
  let own := eth_key_to_address key in
  let options := [OptGasPriceMultiplier f32_1_10] in
  sat (on_send (λ to payload value own' key' options' l,
         to = g ∧ value = 0 ∧ own' = own ∧ key' = key ∧ options' = options ∧ sends l = [] ∧
         batch_guard vs b confirms g id key payload l))
    any_env (send_eth_transaction_batch vs b confirms timeout g id key) []
    (λ r l,
      (sends l = [] ∧ (r = Ok tt →
        (∃ n, saw_batch_nonce l g (batch_token_contract b) own n ∧ batch_nonce b ≤ n) ∨
        (∃ h, saw_block l h ∧ batch_timeout b < h))) ∨
      submitted [] l g own key options timeout (is_ok r)).
Proof.
  intros own options. eapply sat_mono; [apply send_batch_spec|].
  - intros payload l Hl Hs Hg. by split_and!.
  - by intros r l [_ H].
Qed.

(** [send_eth_valset_update] sends at most one transaction: the update's payload, to the
    contract, only to a higher nonce and only after the contract reported the old set's nonce. *)
Theorem valset_submission_guarded new_valset old_valset confirms timeout g id key :
  let own := eth_key_to_address key in
  let options := [OptGasPriceMultiplier f32_1_10] in
  sat (on_send (λ to payload value own' key' options' l,
         to = g ∧ value = 0 ∧ own' = own ∧ key' = key ∧ options' = options ∧ sends l = [] ∧
         valset_guard new_valset old_valset confirms g id key payload l))
    any_env (send_eth_valset_update new_valset old_valset confirms timeout g id key) []
    (λ r l,
      (sends l = [] ∧ (r = Ok tt → ∃ n, saw_valset_nonce l g own n ∧ n ≠ valset_nonce old_valset)) ∨
      submitted [] l g own key options timeout (is_ok r)).
Proof.
  intros own options. eapply sat_mono; [apply send_valset_spec|].
  - intros payload l Hl Hs Hg. by split_and!.
  - by intros r l [_ H].
Qed.

(** [send_eth_logic_call] sends at most one transaction, under the guards of a batch. *)
Theorem logic_call_submission_guarded vs c confirms timeout g id key :
  let own := eth_key_to_address key in
  sat (on_send (λ to payload value own' key' options' l,
         to = g ∧ value = 0 ∧ own' = own ∧ key' = key ∧ options' = [] ∧ sends l = [] ∧
         call_guard vs c confirms g id key payload l))
    any_env (send_eth_logic_call vs c confirms timeout g id key) []
    (λ r l,
      (sends l = [] ∧ (r = Ok tt →
        (∃ n, saw_call_nonce l g (call_invalidation_id c) own n ∧ call_invalidation_nonce c ≤ n) ∨
        (∃ h, saw_block l h ∧ call_timeout c < h))) ∨
      submitted [] l g own key [] timeout (is_ok r)).
Proof.
  intros own. eapply sat_mono; [apply send_call_spec|].
  - intros payload l Hl Hs Hg. by split_and!.
  - by intros r l [_ H].
Qed.

(** Each of the three submissions ends after finitely many calls, whatever the answers. *)
Theorem submissions_terminate A vs vs' b c vconfirms bconfirms cconfirms timeout g id key :
  terminates A (send_eth_valset_update vs vs' vconfirms timeout g id key) ∧
  terminates A (send_eth_transaction_batch vs b bconfirms timeout g id key) ∧
  terminates A (send_eth_logic_call vs c cconfirms timeout g id key).
Proof. split_and!; auto with terminates. Qed.

(** ** Sending to Cosmos *)

Definition with_gas_limit (options : list SendTxOption) : list SendTxOption :=
  if existsb is_gas_limit_option options then options else options ++ [OptGasLimit SEND_TO_COSMOS_GAS_LIMIT].

(** The requirement on the two transactions [send_to_cosmos] may send. *)
Definition send_to_cosmos_spec (erc20 g : EthAddress) (amount : Uint256) (destination : CosmosAddress)
    (key : EthPrivateKey) (options : list SendTxOption) : spec := λ R e l,
  let own := eth_key_to_address key in
  match e with
  | ApproveErc20Transfers erc20' key' contract options' =>
      erc20' = erc20 ∧ key' = key ∧ contract = g ∧ sends l = [] ∧
      saw l (CheckErc20Approved erc20 own g) (Ok false) ∧
      ∃ nonce, saw l (EthGetTransactionCount own) (Ok nonce) ∧ options' = options ++ [OptNonce nonce]
  | SendTransaction to payload value own' key' options' =>
      encode_call "sendToCosmos(address,bytes32,uint256)" [token_of_address erc20;
        TokenBytes (pad_front 32 (cosmos_address_as_bytes destination)); token_of_u256 amount] = Ok payload ∧
      to = g ∧ value = 0 ∧ own' = own ∧ key' = key ∧ sends l = [] ∧
      existsb is_nonce_option options = false ∧
      ((saw l (CheckErc20Approved erc20 own g) (Ok true) ∧ options' = with_gas_limit options) ∨
       (∃ nonce next txid, saw l (ApproveErc20Transfers erc20 key g (options ++ [OptNonce nonce])) (Ok txid) ∧
          saw l (EthGetTransactionCount own) (Ok nonce) ∧ u256_add nonce 1 = Done next ∧
          options' = with_gas_limit options ++ [OptNonce next]))
  | _ => spends e = false
  end.

Lemma send_to_cosmos_spec_lenient erc20 g amount destination key options :
  lenient (send_to_cosmos_spec erc20 g amount destination key options).
Proof. intros R e l. by destruct e. Qed.

(** Whatever the history, the answer that counts is one the node gave. *)
Lemma recheck_approved_spec P A erc20 own g start w approved l :
  lenient P → (∀ b, approved = Ok b → saw l (CheckErc20Approved erc20 own g) (Ok b)) → sends l = [] →
  sat P A (recheck_approved (call (CheckErc20Approved erc20 own g)) start w approved) l
    (λ r l', sends l' = [] ∧ ∀ b, r = Ok b → saw l' (CheckErc20Approved erc20 own g) (Ok b)).
Proof.
  intros HP H0 Hs. apply sat_iter with (Inv := λ r l', sends l' = [] ∧
    ∀ b, r = Ok b → saw l' (CheckErc20Approved erc20 own g) (Ok b)); [|by split].
  clear - HP. intros r l [Hs Hr]. destruct (is_err r).
  - apply sat_call_bind; [by apply HP|]. intros now _. destruct (now - start <? w).
    + apply sat_call_bind; [by apply HP|]. intros r' _. apply sat_ret.
      split; [by rewrite !sends_snoc|]. intros b ->. solve_saw.
    + apply sat_ret. split; [by rewrite sends_snoc|]. intros b Hb. eapply saw_sub; [|by apply Hr]. sub.
  - by apply sat_ret.
Qed.

Lemma wait_if_spec {B} P A wait tx (r : B) l : lenient P →
  sat P A (wait_if wait tx (Ret (Ok r))) l (λ r' l', l ⊆ l' ∧ sends l' = sends l ∧ ∀ b, r' = Ok b → b = r).
Proof.
  intros HP. unfold wait_if. destruct wait as [d|].
  - apply sat_call_try; [by apply HP| |].
    + intros [] _. apply sat_ret. split_and!; [sub|by apply sends_snoc|by intros b [= ->]].
    + intros err _. split_and!; [sub|by apply sends_snoc|done].
  - apply sat_ret. split_and!; [done|done|by intros b [= ->]].
Qed.

(** What the approval step leaves behind. *)
Definition approval_outcome (erc20 g own : EthAddress) (key : EthPrivateKey)
    (options : list SendTxOption) (approve_nonce : option Uint256) (l : log) : Prop :=
  match approve_nonce with
  | None => saw l (CheckErc20Approved erc20 own g) (Ok true)
  | Some nonce => saw l (EthGetTransactionCount own) (Ok nonce) ∧
      ∃ txid, saw l (ApproveErc20Transfers erc20 key g (options ++ [OptNonce nonce])) (Ok txid)
  end.

Lemma approve_spec erc20 g amount destination key options wait approved l :
  let own := eth_key_to_address key in
  sends l = [] → saw l (CheckErc20Approved erc20 own g) (Ok approved) →
  sat (send_to_cosmos_spec erc20 g amount destination key options) any_env
    (approve_if_needed erc20 g key wait options approved) l
    (λ r l', sends l' = [] ∧ ∀ o, r = Ok o → approval_outcome erc20 g own key options o l').
Proof.
  intros own Hs Hap. pose proof (send_to_cosmos_spec_lenient erc20 g amount destination key options) as HP.
  unfold approve_if_needed. fold own. destruct approved; simpl; [apply sat_ret; naive_solver|].
  apply sat_call_try; [done| |intros err _; by rewrite sends_snoc].
  intros nonce _. apply sat_call_try; cycle 2.
  { intros err _. by rewrite sends_approve, sends_snoc. }
  { split_and!; [done..|by rewrite sends_snoc|solve_saw|]. exists nonce. split; [solve_saw|done]. }
  intros txid _. set (l2 := _ ++ _).
  assert (sends l2 = []) as Hs2 by (unfold l2; by rewrite sends_approve, sends_snoc).
  eapply sat_mono; [by apply wait_if_spec|]. intros r l3 (Hl & Hs3 & Hr).
  split; [by rewrite Hs3|]. intros o ->. rewrite (Hr o eq_refl). split; [|exists txid].
  - eapply saw_sub; [done|]. unfold l2. solve_saw.
  - eapply saw_sub; [done|]. unfold l2. solve_saw.
Qed.

Lemma deposit_spec erc20 g amount destination key options wait approve_nonce l :
  let own := eth_key_to_address key in
  sends l = [] → existsb is_nonce_option options = false →
  approval_outcome erc20 g own key options approve_nonce l →
  sat (send_to_cosmos_spec erc20 g amount destination key options) any_env
    (send_deposit erc20 g amount destination key wait options approve_nonce) l
    (λ r l', (length (sends l') ≤ 1)%nat ∧
       ∀ tx, r = Ok tx → ∃ payload opts, saw l' (SendTransaction g payload 0 own key opts) (Ok tx)).
Proof.
  intros own Hs Hno Hap. pose proof (send_to_cosmos_spec_lenient erc20 g amount destination key options) as HP.
  unfold send_deposit. cbv zeta. fold own.
  eapply sat_run with (Q0 := λ opts l', l' = l ∧
    match approve_nonce with
    | None => opts = with_gas_limit options
    | Some nonce => ∃ next, u256_add nonce 1 = Done next ∧ opts = with_gas_limit options ++ [OptNonce next]
    end).
  { unfold with_gas_limit. destruct approve_nonce as [nonce|].
    - apply sat_pure_bind; [done|]. intros next Hnext. apply sat_ret. split; [done|].
      exists next. split; [done|]. by destruct (existsb is_gas_limit_option options).
    - apply sat_ret. split; [done|]. by destruct (existsb is_gas_limit_option options). }
  intros opts l' [-> Hopts]. apply sat_ret_try; [|intros err _; rewrite Hs; simpl; split; [lia|done]].
  intros payload Hpayload. apply sat_call_try.
  - split_and!; [done..|]. destruct approve_nonce as [nonce|].
    + right. destruct Hopts as (next & Hnext & ->), Hap as (Hc & txid & Ht). by exists nonce, next, txid.
    + by left.
  - intros tx _. eapply sat_mono; [by apply wait_if_spec|]. intros r l3 (Hl & Hs3 & Hr).
    split; [by rewrite Hs3, sends_send, Hs|]. intros tx' E. rewrite (Hr tx' E).
    exists payload, opts. eapply saw_sub; [done|]. solve_saw.
  - intros err _. split; [by rewrite sends_send, Hs|done].
Qed.

Lemma send_to_cosmos_sat erc20 g amount destination key wait options l0 :
  sends l0 = [] →
  sat (send_to_cosmos_spec erc20 g amount destination key options) any_env
    (send_to_cosmos erc20 g amount destination key wait options) l0
    (λ r l, (length (sends l) ≤ 1)%nat ∧
       (existsb is_nonce_option options = true → l = l0 ∧ is_err r = true) ∧
       ∀ tx, r = Ok tx → ∃ payload opts,
         saw l (SendTransaction g payload 0 (eth_key_to_address key) key opts) (Ok tx)).
Proof.
  intros Hs0.
  pose proof (send_to_cosmos_spec_lenient erc20 g amount destination key options) as HP. unfold send_to_cosmos.
  set (own := eth_key_to_address key).
  destruct (existsb is_nonce_option options) eqn:Hno.
  { apply sat_ret. rewrite Hs0. split_and!; [simpl; lia|done|done]. }
  apply sat_call_bind; [done|]. intros ap _.
  eapply sat_run with (Q0 := λ r l', sends l' = [] ∧
    ∀ b, r = Ok b → saw l' (CheckErc20Approved erc20 own g) (Ok b)).
  { destruct wait as [w|].
    - apply sat_call_bind; [done|]. intros start _. apply recheck_approved_spec; [done| |].
      + intros b ->. solve_saw.
      + by rewrite !sends_snoc.
    - apply sat_ret. split; [by rewrite sends_snoc|]. intros b ->. solve_saw. }
  intros ap' l1 [Hs1 Hap]. apply sat_pure_bind; [done|]. intros approved Ha%unwrap_Done.
  eapply sat_run_try; [apply approve_spec; [done|by apply Hap]| |].
  - intros approve_nonce l2 [Hs2 Hn]. eapply sat_mono; [apply deposit_spec; [done..|by apply Hn]|].
    intros r l3 [H1 H2]. by split_and!.
  - intros err l2 [Hs2 _]. rewrite Hs2. split_and!; [simpl; lia|done|done].
Qed.

(** [send_to_cosmos] sends the deposit, of that amount of that token to that destination, at most
    once, and only when the contract is approved to
    move the tokens: either the node said so, or the approval was accepted first, with the account's
    nonce, and the deposit carries the next one. A caller's nonce option is refused, its gas limit
    kept. *)
Theorem send_to_cosmos_ordered erc20 g amount destination key wait options :
  sat (send_to_cosmos_spec erc20 g amount destination key options) any_env
    (send_to_cosmos erc20 g amount destination key wait options) []
    (λ r l, (length (sends l) ≤ 1)%nat ∧
       (existsb is_nonce_option options = true → l = [] ∧ is_err r = true) ∧
       ∀ tx, r = Ok tx → ∃ payload opts,
         saw l (SendTransaction g payload 0 (eth_key_to_address key) key opts) (Ok tx)).
Proof. by apply send_to_cosmos_sat. Qed.
End SubmitTheorems.
