(* ===== verification/CosmosTheory.v ===== *)
(** * Transactions to the Cosmos chain: what they say

    A confirmation signed here is one the relayer accepts; the claims of a transaction are in the
    order of their event nonces, one for each nonce; a transaction is posted once. *)

From ITree Require Import ITree.
From S2P Require Import Prelude Bytes Proto External Float Instances Types Signatures Valset ValsetTheory.
From S2P Require Import Batches LogicCall EthEvents Messages Effects CosmosSend Queries Submit SubmitTheory.
From Stdlib Require Import Sorted.

Lemma filter_none {A} (P : A → Prop) `{!∀ x, Decision (P x)} (l : list A) :
  (∀ x, x ∈ l → ¬ P x) → filter P l = [].
Proof.
  intros Hn. induction l as [|x l IH]; [done|]. rewrite filter_cons_False by (apply Hn; by left).
  apply IH. intros y Hy. apply Hn. by right.
Qed.

(** ** [BTreeMap] *)

Section BTree.
Context {V : Type}.
Implicit Types (m : list (Z * V)).

Definition sorted m : Prop := StronglySorted Z.lt m.*1.

Lemma btree_insert_keys k v m x : x ∈ (btree_insert k v m).*1 ↔ x = k ∨ x ∈ m.*1.
Proof.
  induction m as [|[k' v'] m IH]; simpl; [set_solver|].
  destruct (Z.compare_spec k k') as [->| |]; simpl; set_solver.
Qed.

Lemma btree_insert_sorted k v m : sorted m → sorted (btree_insert k v m).
Proof.
  unfold sorted. induction m as [|[k' v'] m IH]; simpl; intros Hs; [by repeat constructor|].
  inversion Hs as [|? ? Hm Hk]; subst. destruct (Z.compare_spec k k') as [->|Hlt|Hgt]; simpl.
  - by constructor.
  - constructor; [done|]. constructor; [done|]. eapply List.Forall_impl; [|exact Hk]. intros; lia.
  - constructor; [by apply IH|]. apply Forall_forall. intros x [->|Hx]%btree_insert_keys; [done|].
    rewrite Forall_forall in Hk. by apply Hk.
Qed.

Lemma btree_insert_elem k v m p :
  sorted m → p ∈ btree_insert k v m ↔ p = (k, v) ∨ (p.1 ≠ k ∧ p ∈ m).
Proof.
  unfold sorted. induction m as [|[k' v'] m IH]; simpl; intros Hs; [set_solver|].
  inversion Hs as [|? ? Hm Hk]; subst.
  assert (∀ q, q ∈ m → k' < q.1) as Hlt.
  { intros q Hq. rewrite Forall_forall in Hk. apply Hk. by apply list_elem_of_fmap_2. }
  destruct (Z.compare_spec k k') as [->|Hlt'|Hgt].
  - rewrite !elem_of_cons. split; [|naive_solver].
    intros [->|Hp]; [by left|right]. specialize (Hlt p Hp). split; [lia|by right].
  - rewrite !elem_of_cons. split; [|naive_solver].
    intros [->|[->|Hp]]; [by left|right; simpl; split; [lia|by left]|right].
    specialize (Hlt p Hp). split; [lia|by right].
  - rewrite !elem_of_cons, IH by done. split; [|naive_solver].
    intros [->|[->|[Hn Hp]]]; [right; simpl; split; [lia|by left]|by left|naive_solver].
Qed.

Lemma sorted_NoDup m : sorted m → NoDup m.*1.
Proof.
  unfold sorted. generalize (m.*1) as ks. induction 1 as [|k ks Hs IH Hk]; constructor; [|done].
  intros Hin. rewrite Forall_forall in Hk. specialize (Hk k Hin). lia.
Qed.
End BTree.

Section Claims.
Context `{X : Ext} `{BD : Build}.

(** Every event with the claim it gives rise to, in the order of the loops. *)
Definition claims_of {E} (nonce_of : E → Z) (claim : E → eval Msg) (events : list E) : list (Z * eval Msg) :=
  (λ e, (nonce_of e, claim e)) <$> events.
Definition all_claims (prefix : string) (our_address : CosmosAddress)
    (deposits : list SendToCosmosEvent) (withdraws : list TransactionBatchExecutedEvent)
    (erc20_deploys : list Erc20DeployedEvent) (logic_calls : list LogicCallExecutedEvent)
    (valsets : list ValsetUpdatedEvent) : list (Z * eval Msg) :=
  claims_of stc_event_nonce (deposit_claim prefix our_address) deposits ++
  claims_of tbe_event_nonce (withdraw_claim our_address) withdraws ++
  claims_of ede_event_nonce (deploy_claim our_address) erc20_deploys ++
  claims_of lce_event_nonce (logic_call_claim our_address) logic_calls ++
  claims_of vue_event_nonce (valset_claim our_address) valsets.

(** What [ordered_msgs] holds after some of the claims: sorted, and the last claim of each nonce. *)
Definition holds_claims (cs : list (Z * eval Msg)) (m : list (Z * Msg)) : Prop :=
  sorted m ∧ Forall (λ c, ∃ msg, c.2 = Done msg) cs ∧
  ∀ k msg, (k, msg) ∈ m ↔ last (filter (λ c, c.1 = k) cs) = Some (k, Done msg).

Lemma add_claims_spec {E} (nonce_of : E → Z) (claim : E → eval Msg) events cs m m' :
  holds_claims cs m → add_claims nonce_of claim events m = Done m' →
  holds_claims (cs ++ claims_of nonce_of claim events) m'.
Proof.
  revert cs m. induction events as [|e events IH]; intros cs m Hm H; simpl in H.
  - injection H as <-. by rewrite app_nil_r.
  - inv_bind. rename H into H'. unfold claims_of. rewrite fmap_cons. change (?x :: ?l) with ([x] ++ l).
    rewrite app_assoc. eapply IH; [|exact H']. clear IH H'.
    destruct Hm as (Hs & Hd & Hm). split_and!; [by apply btree_insert_sorted| |].
    { apply Forall_app. split; [done|]. apply Forall_singleton. eauto. }
    intros k msg. rewrite btree_insert_elem by done. rewrite filter_app, last_app.
    destruct (decide (nonce_of e = k)) as [<-|Hk].
    + rewrite filter_cons_True by done. simpl. split.
      * intros [[= ->]|[? _]]; [|done]. by f_equal; f_equal.
      * intros [= E']. left. f_equal. congruence.
    + rewrite filter_cons_False by done. simpl. rewrite <- Hm. naive_solver.
Qed.

Lemma holds_claims_nil : holds_claims [] [].
Proof. split_and!; [constructor|constructor|]. intros k msg. simpl. split; [by intros ?%elem_of_nil|done]. Qed.

Lemma ordered_claims_spec prefix own deposits withdraws deploys calls valsets m :
  ordered_claims prefix own deposits withdraws deploys calls valsets = Done m →
  holds_claims (all_claims prefix own deposits withdraws deploys calls valsets) m.
Proof.
  unfold ordered_claims. intros H.
  apply eval_bind_Done in H as (m1 & H1 & H). apply eval_bind_Done in H as (m2 & H2 & H).
  apply eval_bind_Done in H as (m3 & H3 & H). apply eval_bind_Done in H as (m4 & H4 & H).
  apply (add_claims_spec _ _ _ _ _ _ holds_claims_nil) in H1.
  apply (add_claims_spec _ _ _ _ _ _ H1) in H2. apply (add_claims_spec _ _ _ _ _ _ H2) in H3.
  apply (add_claims_spec _ _ _ _ _ _ H3) in H4. apply (add_claims_spec _ _ _ _ _ _ H4) in H.
  unfold all_claims. by rewrite !app_assoc.
Qed.
End Claims.

Section ClaimTheorems.
Context `{X : Ext} `{BD : Build}.

Lemma filter_nodup_singleton (cs : list (Z * eval Msg)) k v :
  NoDup cs.*1 → (k, v) ∈ cs → filter (λ c, c.1 = k) cs = [(k, v)].
Proof.
  induction cs as [|[k' v'] cs IH]; [by intros _ ?%elem_of_nil|].
  rewrite fmap_cons. intros [Hn Hd]%NoDup_cons Hin. simpl in Hn. apply elem_of_cons in Hin as [E|Hin].
  - injection E as <- <-. rewrite filter_cons_True by done. f_equal.
    apply filter_none. intros x Hx Ex. simpl in Ex. subst. destruct Hn. by apply list_elem_of_fmap_2.
  - assert (k' ≠ k) as Hk. { intros ->. destruct Hn. apply (list_elem_of_fmap_2 fst) in Hin. exact Hin. }
    rewrite filter_cons_False by done. by apply IH.
Qed.

(** Without two events of the same nonce, there is one claim for each. *)
Lemma holds_claims_complete (cs : list (Z * eval Msg)) m :
  holds_claims cs m → NoDup cs.*1 → prod_map id Done <$> m ≡ₚ cs.
Proof.
  intros (Hs & Hdone & Hm) Hd. apply NoDup_Permutation.
  - apply (NoDup_fmap_1 fst). rewrite <- list_fmap_compose. apply sorted_NoDup, Hs.
  - by apply (NoDup_fmap_1 fst).
  - intros [k v]. rewrite list_elem_of_fmap. split.
    + intros ([k' msg] & [= -> ->] & Hin). apply Hm in Hin. apply last_Some_elem_of in Hin.
      by apply list_elem_of_filter in Hin as [_ ?].
    + intros Hin. pose proof (filter_nodup_singleton cs k v Hd Hin) as Hf.
      rewrite Forall_forall in Hdone. destruct (Hdone _ Hin) as [msg Hmsg]. simpl in Hmsg. subst v.
      exists (k, msg). split; [done|]. apply Hm. by rewrite Hf.
Qed.

(** The claims of a transaction are in strictly increasing order of their event nonces, whatever
    the order of the five lists of events; and if no two events share a nonce, as the contract
    ensures, there is exactly one claim for each event and none besides. *)
Theorem claims_sorted_complete prefix own deposits withdraws deploys calls valsets m :
  ordered_claims prefix own deposits withdraws deploys calls valsets = Done m →
  StronglySorted Z.lt m.*1 ∧
  (NoDup (all_claims prefix own deposits withdraws deploys calls valsets).*1 →
   prod_map id Done <$> m ≡ₚ all_claims prefix own deposits withdraws deploys calls valsets).
Proof.
  intros H%ordered_claims_spec. split; [apply H|]. by apply holds_claims_complete.
Qed.
End ClaimTheorems.

(** ** Confirmations *)

Section Confirmations.
Context `{X : Ext} `{XL : !ExtLaws X} `{BD : Build}.

(** A confirmation that counts for [signer], as the relayer checks it. *)
Definition good_confirm {T} `{!Confirm T} (hash : bytes) (signer : EthAddress) (c : T) : Prop :=
  get_eth_address c = signer ∧ signature_is_valid (get_signature c) = true ∧
  signature_recover (get_signature c) hash = Ok signer.

(** The member is one of the signers. *)
Definition signed_by (signers : list EthAddress) (m : ValsetMember) : bool :=
  match member_eth_address m with
  | Some a => bool_decide (a ∈ signers)
  | None => false
  end.

Lemma good_confirms_signers {T} `{!Confirm T} hash signers (confirms : list T) :
  Forall2 (good_confirm hash) signers confirms → get_eth_address <$> confirms = signers.
Proof. induction 1 as [|a c signers confirms [Ha _] _ IH]; [done|]. rewrite fmap_cons. by f_equal. Qed.

Lemma last_confirm_is_Some {T} `{!Confirm T} (confirms : list T) a :
  is_Some (last_confirm confirms a) ↔ a ∈ get_eth_address <$> confirms.
Proof.
  unfold last_confirm. rewrite last_is_Some, list_elem_of_fmap. split.
  - intros Hn. destruct (filter _ confirms) as [|c l] eqn:E; [done|].
    assert (c ∈ filter (λ c, get_eth_address c = a) confirms) as Hc by (rewrite E; by left).
    apply list_elem_of_filter in Hc as [<- Hc]. by exists c.
  - intros (c & -> & Hc) Hn.
    assert (c ∈ filter (λ c', get_eth_address c' = get_eth_address c) confirms) as H
      by (by apply list_elem_of_filter).
    rewrite Hn in H. by apply elem_of_nil in H.
Qed.

(** Good confirmations of enough power are a quorum. *)
Lemma good_confirms_accepted {T} `{!Confirm T} (vs : Valset) hash (signers : list EthAddress) (confirms : list T) :
  Forall2 (good_confirm hash) signers confirms → signers ≠ [] → powers_ok (valset_members vs) →
  percent_threshold ≤ power_where (signed_by signers) (valset_members vs) →
  ∃ sigs, order_sigs vs hash confirms = Done (Ok sigs).
Proof.
  intros Hg Hne Hok Hp. pose proof (good_confirms_signers _ _ _ Hg) as Hs.
  rewrite order_sigs_eq; [|by intros ->; subst|done|].
  - assert (power_where (voted confirms) (valset_members vs) =
      power_where (signed_by signers) (valset_members vs)) as ->.
    { unfold power_where. f_equal. apply list_fmap_ext. intros _ m _. unfold voted, signed_by.
      destruct (member_eth_address m) as [a|]; [|done]. subst signers.
      by rewrite (bool_decide_ext _ _ (last_confirm_is_Some confirms a)). }
    destruct (Z.ltb_spec (power_where (signed_by signers) (valset_members vs)) percent_threshold); [lia|eauto].
  - apply Forall_forall. intros m _ a c _ Hc. apply last_confirm_address in Hc as Ha.
    unfold last_confirm in Hc. apply last_Some_elem_of, list_elem_of_filter in Hc as [_ Hc].
    apply list_elem_of_lookup in Hc as [i Hi]. destruct (Forall2_lookup_r _ _ _ _ _ Hg Hi) as (a' & _ & H1 & H2 & H3).
    rewrite <- Ha, H1. split; [done|]. by rewrite <- H1, H1.
Qed.

Lemma batch_confirm_good own key id b hash :
  encode_tx_batch_confirm_hashed id b = Done hash →
  ∃ p c, batch_confirm_msg own key id b = Done (mkMsg "/nab.v1.MsgConfirmBatch" (ConfirmBatch p)) ∧
    pcb_nonce p = batch_nonce b ∧ pcb_token_contract p = address_to_string (batch_token_contract b) ∧
    batch_confirm_try_from p = Done (Ok c) ∧ good_confirm hash (eth_key_to_address key) c.
Proof.
  unfold encode_tx_batch_confirm_hashed, batch_confirm_msg. intros H.
  apply eval_bind_Done in H as (digest & Hd & [= <-]). rewrite Hd. simpl.
  eexists _, (mkBatchConfirmResponse _ _ _ _ _). split_and!; [done|done|done| |].
  - unfold batch_confirm_try_from. simpl.
    rewrite law_cosmos_parse, !law_address_parse, law_sign_parse. reflexivity.
  - split_and!; simpl; [done|apply law_sign_valid|apply law_sign_recover].
Qed.

Lemma valset_confirm_good own key id vs :
  ∃ p c, valset_confirm_msg own key id vs = mkMsg "/nab.v1.MsgValsetConfirm" (ValsetConfirm p) ∧
    pvc_nonce p = valset_nonce vs ∧ valset_confirm_try_from p = Ok c ∧
    vcr_nonce c = valset_nonce vs ∧
    good_confirm (encode_valset_confirm_hashed id vs) (eth_key_to_address key) c.
Proof.
  eexists _, (mkValsetConfirmResponse _ _ _ _). split_and!; [done|done| | |].
  - unfold valset_confirm_try_from. simpl.
    rewrite law_cosmos_parse, law_address_parse, law_sign_parse. reflexivity.
  - done.
  - split_and!; simpl; [done|apply law_sign_valid|apply law_sign_recover].
Qed.

Lemma logic_call_confirm_good own key id call :
  ∃ p c, logic_call_confirm_msg own key id call = mkMsg "/nab.v1.MsgConfirmLogicCall" (ConfirmLogicCall p) ∧
    pclc_invalidation_nonce p = call_invalidation_nonce call ∧
    logic_call_confirm_try_from p = Done (Ok c) ∧
    lcr_invalidation_id c = call_invalidation_id call ∧
    good_confirm (encode_logic_call_confirm_hashed id call) (eth_key_to_address key) c.
Proof.
  eexists _, (mkLogicCallConfirmResponse _ _ _ _ _). split_and!; [done|done| | |].
  - unfold logic_call_confirm_try_from. simpl. rewrite law_hex_str. simpl.
    rewrite law_cosmos_parse, law_address_parse, law_sign_parse. reflexivity.
  - done.
  - split_and!; simpl; [done|apply law_sign_valid|apply law_sign_recover].
Qed.

(** One message and one confirmation for each signer. *)
Lemma collect {S M P T} `{!Confirm T} (msg : S → eval M) (wrap : P → M)
    (read : P → eval (result T GravityError)) (addr_of : S → EthAddress) hash (signers : list S) :
  (∀ s, ∃ p c, msg s = Done (wrap p) ∧ read p = Done (Ok c) ∧ good_confirm hash (addr_of s) c) →
  ∃ protos confirms, eval_map msg signers = Done (wrap <$> protos) ∧
    try_map read protos = Done (Ok confirms) ∧ Forall2 (good_confirm hash) (addr_of <$> signers) confirms.
Proof.
  intros H. induction signers as [|s signers IH]; [by exists [], []|].
  destruct (H s) as (p & c & Hm & Hr & Hg). destruct IH as (protos & confirms & H1 & H2 & H3).
  exists (p :: protos), (c :: confirms). simpl. rewrite Hm, H1, Hr, H2. split_and!; [done|done|by constructor].
Qed.

Context (current : Valset) (id : string) (signers : list (CosmosAddress * EthPrivateKey)).
Abbreviation addresses := ((λ s, eth_key_to_address (snd s)) <$> signers).
Hypotheses (Hsigners : signers ≠ []) (Hpowers : powers_ok (valset_members current)).
Hypothesis (Hquorum : percent_threshold ≤ power_where (signed_by addresses) (valset_members current)).

Lemma addresses_nonempty : addresses ≠ [].
Proof. by destruct signers. Qed.

(** C20: what the orchestrators sign the relayer accepts, batches: if validators that hold the
    threshold power of the contract's set have confirmed a batch, the messages they posted, read
    back from the chain, pass [order_sigs]. *)
Theorem batch_quorum_accepted b hash :
  encode_tx_batch_confirm_hashed id b = Done hash →
  ∃ protos confirms sigs,
    eval_map (λ s, batch_confirm_msg s.1 s.2 id b) signers =
      Done ((λ p, mkMsg "/nab.v1.MsgConfirmBatch" (ConfirmBatch p)) <$> protos) ∧
    try_map batch_confirm_try_from protos = Done (Ok confirms) ∧
    order_sigs current hash confirms = Done (Ok sigs).
Proof.
  intros Hh.
  destruct (collect (λ s, batch_confirm_msg s.1 s.2 id b)
    (λ p, mkMsg "/nab.v1.MsgConfirmBatch" (ConfirmBatch p)) batch_confirm_try_from
    (λ s, eth_key_to_address (snd s)) hash signers) as (protos & confirms & H1 & H2 & H3).
  { intros [own key]. destruct (batch_confirm_good own key id b hash Hh) as (p & c & ? & _ & _ & ? & ?). eauto. }
  destruct (good_confirms_accepted current hash _ confirms H3 addresses_nonempty Hpowers Hquorum) as [sigs Hs].
  by exists protos, confirms, sigs.
Qed.

(** The same for validator sets. *)
Theorem valset_quorum_accepted vs :
  ∃ protos confirms sigs,
    (λ s, valset_confirm_msg s.1 s.2 id vs) <$> signers =
      (λ p, mkMsg "/nab.v1.MsgValsetConfirm" (ValsetConfirm p)) <$> protos ∧
    try_map (λ c, Done (valset_confirm_try_from c)) protos = Done (Ok confirms) ∧
    order_sigs current (encode_valset_confirm_hashed id vs) confirms = Done (Ok sigs).
Proof.
  destruct (collect (λ s, Done (valset_confirm_msg s.1 s.2 id vs))
    (λ p, mkMsg "/nab.v1.MsgValsetConfirm" (ValsetConfirm p)) (λ c, Done (valset_confirm_try_from c))
    (λ s, eth_key_to_address (snd s)) (encode_valset_confirm_hashed id vs) signers)
    as (protos & confirms & H1 & H2 & H3).
  { intros [own key]. destruct (valset_confirm_good own key id vs) as (p & c & Hm & _ & Hr & _ & Hg).
    exists p, c. simpl. by rewrite Hm, Hr. }
  destruct (good_confirms_accepted current _ _ confirms H3 addresses_nonempty Hpowers Hquorum) as [sigs Hs].
  exists protos, confirms, sigs. split_and!; [|done|done].
  rewrite eval_map_pure in H1. by injection H1.
Qed.

(** The same for logic calls. *)
Theorem logic_call_quorum_accepted c :
  ∃ protos confirms sigs,
    (λ s, logic_call_confirm_msg s.1 s.2 id c) <$> signers =
      (λ p, mkMsg "/nab.v1.MsgConfirmLogicCall" (ConfirmLogicCall p)) <$> protos ∧
    try_map logic_call_confirm_try_from protos = Done (Ok confirms) ∧
    order_sigs current (encode_logic_call_confirm_hashed id c) confirms = Done (Ok sigs).
Proof.
  destruct (collect (λ s, Done (logic_call_confirm_msg s.1 s.2 id c))
    (λ p, mkMsg "/nab.v1.MsgConfirmLogicCall" (ConfirmLogicCall p)) logic_call_confirm_try_from
    (λ s, eth_key_to_address (snd s)) (encode_logic_call_confirm_hashed id c) signers)
    as (protos & confirms & H1 & H2 & H3).
  { intros [own key]. destruct (logic_call_confirm_good own key id c) as (p & c' & Hm & _ & Hr & _ & Hg).
    exists p, c'. simpl. by rewrite Hm, Hr. }
  destruct (good_confirms_accepted current _ _ confirms H3 addresses_nonempty Hpowers Hquorum) as [sigs Hs].
  exists protos, confirms, sigs. split_and!; [|done|done].
  rewrite eval_map_pure in H1. by injection H1.
Qed.
End Confirmations.
