(* ===== verification/Join.v ===== *)
(** * Joining futures: [tokio::join!] and [futures::try_join]

    Two futures that both run to their end, and a list of futures of which the first to fail stops
    the others. One thread polls them; the scheduler chooses which at every await. *)

From ITree Require Import ITree.
From S2P Require Import Prelude Bytes Proto External Float Instances Types Effects SubmitTheory.

Section Join.
Context `{X : Ext}.

(** One step of a future with a result. *)
Definition step_io {R} (t : io R) : io (R + io R) :=
  match observe t with
  | RetF r => Ret (inl r)
  | TauF t => Ret (inr t)
  | VisF e k => let* x := call e in Ret (inr (k x))
  end.

(** A turn of the first future, or of the second. *)
Definition turn_left {R} (t : io R) (b : unit + io unit) : io ((R + io R) * (unit + io unit) + R) :=
  let* a := step_io t in Ret (inl (a, b)).
Definition turn_right {R} (a : R + io R) (u : io unit) : io ((R + io R) * (unit + io unit) + R) :=
  let* b := step_io u in Ret (inl (a, b)).

(** [tokio::join!(t, u)]: the result of [t], when both have ended. *)
Definition join {R} (t : io R) (u : io unit) : io R :=
  ITree.iter (λ '((a, b) : (R + io R) * (unit + io unit)),
    match a, b with
    | inl r, inl _ => Ret (inr r)
    | inr t, inl _ => turn_left t b
    | inl _, inr u => turn_right a u
    | inr t, inr u => let* i := call (Pick 2) in if Nat.even i then turn_left t b else turn_right a u
    end) (inr t, inr u).

(** [try_join(..)] of futures that return [Result<(), E>]. *)
Definition try_join {E} (tasks : list (io (result unit E))) : io (result unit E) :=
  ITree.iter (λ active : list (io (result unit E)),
    match active with
    | [] => Ret (inr (Ok tt))
    | _ :: _ =>
        let* i := call (Pick (length active)) in
        let i := (i mod length active)%nat in
        match active !! i with
        | None => Ret (inl active)
        | Some t =>
            let* o := step_io t in
            match o with
            | inl (Err e) => Ret (inr (Err e))
            | inl (Ok _) => Ret (inl (delete i active))
            | inr t => Ret (inl (<[i := t]> active))
            end
        end
    end) tasks.

(** ** Safety *)

Implicit Types (P : spec) (A : env) (l : log).

(** A weaker requirement. *)
Lemma sat_spec_mono P P' A {R} (t : io R) l (Q : R → log → Prop) :
  (∀ Y (e : callE Y) l, P Y e l → P' Y e l) → sat P A t l Q → sat P' A t l Q.
Proof.
  intros HP Ht n. specialize (Ht n). revert t l Ht. induction n as [|n IH]; intros t l; simpl; [done|].
  destruct (observe t) as [r|t'|Y e k]; [done|apply IH|]. intros [H1 H2]. split; [by apply HP|].
  intros x Hx. by apply IH, H2.
Qed.

(** What was seen before the start is seen throughout. *)
Lemma sat_history P A {R} (t : io R) l (Q : R → log → Prop) (F : log → Prop) :
  (∀ l l', l ⊆ l' → F l → F l') → F l → sat P A t l Q →
  sat (λ Y e l, P Y e l ∧ F l) A t l (λ r l, Q r l ∧ F l).
Proof.
  intros HF Hl Ht n. specialize (Ht n). revert t l Hl Ht. induction n as [|n IH]; intros t l Hl; simpl; [done|].
  destruct (observe t) as [r|t'|Y e k]; [done|by apply IH|]. intros [H1 H2]. split; [done|].
  intros x Hx. apply IH; [|by apply H2]. eapply HF; [apply subseteq_snoc|done].
Qed.

(** A program all of whose calls spend nothing. *)
Lemma sat_unspent P A {R} (t : io R) l (Q : R → log → Prop) :
  sat (λ Y e l, P Y e l ∧ spends e = false) A t l Q → sat P A t l (λ r l', spent l' = spent l ∧ Q r l').
Proof.
  intros Ht n. specialize (Ht n).
  assert (∀ l0, spent l = spent l0 → wp P A n t l (λ r l', spent l' = spent l0 ∧ Q r l')) as H; [|by apply H].
  revert t l Ht. induction n as [|n IH]; intros t l; simpl; [done|].
  destruct (observe t) as [r|t'|Y e k]; [done|intros; by apply IH|]. intros [[HP He] Hk] l0 Hl0. split; [done|].
  intros x Hx. apply IH; [by apply Hk|]. by rewrite spent_snoc.
Qed.

Lemma sat_and P A {R} (t : io R) l (Q Q' : R → log → Prop) :
  sat P A t l Q → sat P A t l Q' → sat P A t l (λ r l, Q r l ∧ Q' r l).
Proof.
  intros H1 H2 n. specialize (H1 n). specialize (H2 n). revert t l H1 H2.
  induction n as [|n IH]; intros t l; simpl; [done|].
  destruct (observe t) as [r|t'|Y e k]; [done|apply IH|]. intros [HP H1] [_ H2]. split; [done|]. auto.
Qed.

Lemma step_io_sat P A {R} (t : io R) l (Q : R → log → Prop) :
  sat P A t l Q →
  sat P A (step_io t) l (λ o l', l ⊆ l' ∧ match o with inl r => Q r l' | inr t' => sat P A t' l' Q end).
Proof.
  intros H. apply sat_observe in H as Ho. unfold step_io. destruct (observe t) as [r|t'|Y e k] eqn:E.
  - by apply sat_ret.
  - apply sat_ret. split; [done|]. intros n. specialize (H (S n)). simpl in H. by rewrite E in H.
  - destruct Ho as [HPe Hk]. apply sat_call_bind; [done|]. intros x Hx. apply sat_ret.
    split; [apply subseteq_snoc|by apply Hk].
Qed.

(** What holds of one future alone, and no other's call invalidates, holds of it joined. *)
Definition holds P A {R} (Q : R → log → Prop) l (a : R + io R) : Prop :=
  match a with inl r => Q r l | inr t => sat P A t l Q end.

Lemma holds_mono P A {R} (Q : R → log → Prop) l l' a :
  log_monotone P → (∀ r l l', l ⊆ l' → Q r l → Q r l') → l ⊆ l' → holds P A Q l a → holds P A Q l' a.
Proof. intros HP HQ Hl. destruct a; simpl; [by apply HQ|by apply sat_log_mono]. Qed.

Lemma step_holds P A {R} (Q : R → log → Prop) l (t : io R) :
  sat P A t l Q → sat P A (step_io t) l (λ a l', l ⊆ l' ∧ holds P A Q l' a).
Proof. apply step_io_sat. Qed.

Lemma sat_join P A {R} (t : io R) (u : io unit) l (Q : R → log → Prop) (Qu : unit → log → Prop) :
  log_monotone P → (∀ n l, P _ (Pick n) l) →
  (∀ r l l', l ⊆ l' → Q r l → Q r l') → (∀ r l l', l ⊆ l' → Qu r l → Qu r l') →
  sat P A t l Q → sat P A u l Qu → sat P A (join t u) l Q.
Proof.
  intros HM Hpick HQ HQu Ht Hu. unfold join.
  apply sat_iter with (Inv := λ s l, holds P A Q l s.1 ∧ holds P A Qu l s.2); [|by split].
  clear l t u Ht Hu. intros [a b] l [Ha Hb]. cbn [fst snd] in Ha, Hb.
  assert (Hl : ∀ t l0, l ⊆ l0 → holds P A Q l0 (inr t) →
    sat P A (turn_left t b) l0 (λ r l, match r with
      | inl s => holds P A Q l s.1 ∧ holds P A Qu l s.2 | inr r => Q r l end)).
  { intros t l0 Hl0 Ht. eapply sat_run; [by apply step_holds|]. intros a' l1 [Hl1 Ha']. apply sat_ret.
    split; [done|]. eapply holds_mono; [done|done| |exact Hb]. by etrans. }
  assert (Hr : ∀ u l0, l ⊆ l0 → holds P A Qu l0 (inr u) →
    sat P A (turn_right a u) l0 (λ r l, match r with
      | inl s => holds P A Q l s.1 ∧ holds P A Qu l s.2 | inr r => Q r l end)).
  { intros u l0 Hl0 Hu. eapply sat_run; [by apply step_holds|]. intros b' l1 [Hl1 Hb']. apply sat_ret.
    split; [|done]. eapply holds_mono; [done|done| |exact Ha]. by etrans. }
  destruct a as [r|t], b as [[]|u].
  - by apply sat_ret.
  - by apply Hr.
  - by apply Hl.
  - apply sat_call_bind; [done|]. intros i _. destruct (Nat.even i).
    + apply Hl; [apply subseteq_snoc|]. eapply holds_mono; [done|done|apply subseteq_snoc|done].
    + apply Hr; [apply subseteq_snoc|]. eapply holds_mono; [done|done|apply subseteq_snoc|done].
Qed.

Lemma sat_try_join P A {E} (tasks : list (io (result unit E))) l (Q : result unit E → log → Prop) :
  log_monotone P → (∀ n l, P _ (Pick n) l) → (∀ r l l', l ⊆ l' → Q r l → Q r l') →
  tasks ≠ [] → Forall (λ t, sat P A t l Q) tasks → sat P A (try_join tasks) l Q.
Proof.
  intros HM Hpick HQ Hne Ht. unfold try_join.
  apply sat_iter with (Inv := λ active l, Forall (λ t, sat P A t l Q) active ∧ (active = [] → Q (Ok tt) l));
    [|by split].
  clear l tasks Hne Ht. intros active l [Hs He]. destruct active as [|t0 rest]; [by apply sat_ret, He|].
  clear He. set (active := t0 :: rest) in *. apply sat_call_bind; [done|]. intros i _. cbv zeta.
  set (j := (i mod length active)%nat). set (l0 := l ++ _).
  assert (∀ l', l ⊆ l' → Forall (λ t, sat P A t l' Q) active) as Hmono.
  { intros l' Hl. eapply Forall_impl; [exact Hs|]. intros t. by apply sat_log_mono. }
  destruct (active !! j) as [t|] eqn:Ej; [|by apply sat_ret; split; [apply Hmono, subseteq_snoc|]].
  assert (sat P A t l0 Q) as Htj.
  { exact (Forall_lookup_1 _ _ _ _ (Hmono _ (subseteq_snoc _ _)) Ej). }
  eapply sat_run; [by apply step_io_sat|]. intros o l1 [Hl1 Ho].
  assert (Forall (λ t, sat P A t l1 Q) active) as H1.
  { apply Hmono. etrans; [apply subseteq_snoc|exact Hl1]. }
  destruct o as [[[]|e]|t']; apply sat_ret; [by split; [apply Forall_delete|]|done|].
  split; [by apply Forall_insert|]. intros Hn. by apply (f_equal length) in Hn; rewrite length_insert in Hn.
Qed.

(** ** Liveness *)

(** No call is a panic. *)
Definition no_panic : spec := λ R e l, match e with Panics _ => False | _ => True end.
(** The program ends, whatever the answers that [A] allows, with a result and a log in [Q]. *)
Definition returns A {R} (t : io R) l (Q : R → log → Prop) : Prop := sat no_panic A t l Q ∧ terminates A t.

Lemma no_panic_monotone : log_monotone no_panic.
Proof. intros R e l l' _. by destruct e. Qed.

(** What holds at the end whatever is required on the way. *)
Lemma sat_and_post P P' A {R} (t : io R) l (Q Q' : R → log → Prop) :
  sat P A t l Q → sat P' A t l Q' → sat P A t l (λ r l, Q r l ∧ Q' r l).
Proof.
  intros H1 H2 n. specialize (H1 n). specialize (H2 n). revert t l H1 H2.
  induction n as [|n IH]; intros t l; simpl; [done|].
  destruct (observe t) as [r|t'|Y e k]; [done|apply IH|]. intros [HP H1] [_ H2]. split; [done|]. auto.
Qed.

(** A program that is safe, and each of whose promises holds, keeps all of them. *)
Lemma sat_forall P A {R I} (t : io R) l (Q : I → R → log → Prop) :
  sat P A t l (λ _ _, True) → (∀ i, sat P A t l (Q i)) → sat P A t l (λ r l, ∀ i, Q i r l).
Proof.
  intros H1 H2 n. specialize (H1 n). assert (∀ i, wp P A n t l (Q i)) as Hi by (intros i; apply H2).
  clear H2. revert t l H1 Hi. induction n as [|n IH]; intros t l H1 Hi; simpl in *; [done|].
  destruct (observe t) as [r|t'|Y e k]; [done|by apply IH|]. destruct H1 as [HP H1]. split; [done|].
  intros x Hx. apply IH; [by apply H1|]. intros i. by apply Hi.
Qed.

(** ** Termination *)

Definition measure_rel A {R} (a' a : R + io R) : Prop :=
  match a with
  | inl _ => False
  | inr t => match observe t with
             | RetF r => a' = inl r
             | TauF u => a' = inr u
             | VisF e k => ∃ x, A _ e x ∧ a' = inr (k x)
             end
  end.

Lemma term_measure_acc A {R} (Q : R → Prop) (t : io R) : term A Q t → Acc (measure_rel A) (inr t).
Proof.
  assert (∀ r : R, Acc (measure_rel A) (inl r)) as Hd by (intros r; by constructor).
  induction 1 as [t r E Hr|t t' E _ IH|t Y e k E _ IH]; constructor; intros u Hu;
    unfold measure_rel in Hu; rewrite E in Hu.
  - by subst.
  - by subst.
  - destruct Hu as (x & Hx & ->). by apply IH.
Qed.

Lemma term_step_io A {R} (t : io R) : term A (λ a, measure_rel A a (inr t)) (step_io t).
Proof.
  unfold step_io, measure_rel. destruct (observe t) as [r|u|Y e k] eqn:E.
  - by apply term_ret.
  - by apply term_ret.
  - eapply term_bind; [by apply term_call with (Q := A Y e)|]. intros x Hx. apply term_ret. eauto.
Qed.

(** Two futures that end end together, with a result of the first. *)
Lemma term_join A {R} (Q : R → Prop) (t : io R) (u : io unit) :
  term A Q t → term A (λ _, True) u → term A (λ _, True) (join t u).
Proof.
  intros Ht%term_measure_acc Hu%term_measure_acc. unfold join.
  set (smaller := λ s' s : (R + io R) * (unit + io unit),
    (measure_rel A s'.1 s.1 ∧ s'.2 = s.2) ∨ (s'.1 = s.1 ∧ measure_rel A s'.2 s.2)).
  assert (∀ a, Acc (measure_rel A) a → ∀ b, Acc (measure_rel A) b → Acc smaller (a, b)) as Hacc.
  { induction 1 as [a _ IHa]. induction 1 as [b Hb IHb]. constructor. intros [a' b'] [[H E]|[E H]];
      cbn [fst snd] in H, E; subst; [apply IHa; [done|by constructor]|by apply IHb]. }
  apply term_iter_acc with (smaller := smaller) (Inv := λ _, True); [|by apply Hacc|done].
  clear. intros [a b] _.
  assert (Hl : ∀ t, a = inr t → term A (λ r, match r with inl j => smaller j (a, b) ∧ True | inr _ => True end)
    (turn_left t b)).
  { intros t ->. eapply term_bind; [apply term_step_io|]. intros a' Ha'. apply term_ret. split; [by left|done]. }
  assert (Hr : ∀ u, b = inr u → term A (λ r, match r with inl j => smaller j (a, b) ∧ True | inr _ => True end)
    (turn_right a u)).
  { intros u ->. eapply term_bind; [apply term_step_io|]. intros b' Hb'. apply term_ret. split; [by right|done]. }
  destruct a as [r|t], b as [[]|u]; [by apply term_ret|by apply Hr|by apply Hl|].
  eapply term_bind; [by apply term_call with (Q := λ _, True)|]. intros i _.
  destruct (Nat.even i); [by apply Hl|by apply Hr].
Qed.
End Join.
