(* ===== verification/UnitTests.v ===== *)
(** * The repository's unit tests

    The [#[test]] functions of the library crates, as the definitions they exercise are modelled:
    message_signatures.rs, logic_call.rs and utils.rs of ethereum_gravity, signatures.rs and
    ethereum_events.rs of gravity_utils, utils.rs of nabt. A failed assertion is a panic. The vectors
    are outputs of other implementations: ethers, Hardhat, an Ethereum node. *)

From ITree Require Import ITree.
From S2P Require Import Prelude Bytes Proto External Evm Float Types Signatures Valset Batches LogicCall.
From S2P Require Import EthEvents Messages Effects Host Config.
From Stdlib Require Import SpecFloat.

(** [PrivateKey::sign_hash], which only tests call. *)
Class HashSigning `{X : Ext} := sign_hash : EthPrivateKey → bytes → EthSignature.

#[export] Instance ValsetDataBytes_eq_dec `{X : Ext} : EqDecision ValsetDataBytes.
Proof. solve_decision. Defined.
#[export] Instance GravitySignature_eq_dec `{X : Ext} : EqDecision GravitySignature.
Proof. solve_decision. Defined.

Section UnitTests.
Context `{X : Ext} `{V : !Evm} `{T : !Tools} `{HS : !HashSigning} `{BD : Build}.

Definition assert_eq {A} `{!EqDecision A} (a b : A) : eval unit :=
  rassert (bool_decide (a = b)) "assertion failed: `(left == right)`".
Definition assert_ne {A} `{!EqDecision A} (a b : A) : eval unit :=
  rassert (negb (bool_decide (a = b))) "assertion failed: `(left != right)`".

Definition eth_address (s : string) : eval EthAddress := unwrap (address_parse s).
Definition from_hex (s : string) : eval bytes := unwrap (hex_str_to_bytes s).

(** ** ethereum_gravity/src/message_signatures.rs *)

Definition members_of (power : Z) (texts : list string) : eval (list ValsetMember) :=
  eval_map (λ s, let! a := eth_address s in Done {| member_power := power; member_eth_address := Some a |}) texts.

Definition test_valset_signature : eval unit :=
  let! correct_hash := from_hex "0xaca2f283f21a03ba182dc7d34a55c04771b25087401d680011df7dcba453f798" in
  let! members := members_of 3333 ["0xE5904695748fe4A84b40b3fc79De2277660BD1D3";
    "0xc783df8a850f42e7F7e57013759C285caa701eB6"; "0xeAD9C93b79Ae7C1591b1FB5323BD777E86e150d4"] in
  let valset := {| valset_nonce := 0; valset_reward_amount := 0; valset_reward_token := None;
                   valset_members := members |} in
  let checkpoint_hash := keccak256 (encode_valset_confirm "foo" valset) in
  let! _ := assert_eq (bytes_to_hex_str correct_hash) (bytes_to_hex_str checkpoint_hash) in
  let! members := members_of 3333 ["0xc783df8a850f42e7F7e57013759C285caa701eB6";
    "0xeAD9C93b79Ae7C1591b1FB5323BD777E86e150d4"; "0xE5904695748fe4A84b40b3fc79De2277660BD1D3"] in
  let valset := {| valset_nonce := 1; valset_reward_amount := 0; valset_reward_token := None;
                   valset_members := members |} in
  let checkpoint_hash := keccak256 (encode_valset_confirm "foo" valset) in
  assert_ne (bytes_to_hex_str correct_hash) (bytes_to_hex_str checkpoint_hash).

(** The batch of a test: one transfer, of one unit, with a fee of one. *)
Definition one_transfer (erc20_addr : EthAddress) (sender_addr : CosmosAddress) (destination : EthAddress)
    (batch_timeout nonce id : Z) : TransactionBatch :=
  let token := {| erc20_amount := 1; erc20_token_contract_address := erc20_addr |} in {|
    batch_timeout := batch_timeout; batch_nonce := nonce;
    batch_transactions := [{| btx_id := id; btx_destination := destination; btx_sender := sender_addr;
                              btx_erc20_fee := token; btx_erc20_token := token |}];
    batch_total_fee := token; batch_token_contract := erc20_addr |}.

(** A fresh key signs what [message] evaluates to, and is recovered. *)
Definition sign_and_recover (message : eval bytes) : io unit :=
  let* secret := call (RandomBytes 32) in
  let* eth_key := pure (unwrap (eth_key_from_slice secret)) in
  let eth_address := eth_key_to_address eth_key in
  let* checkpoint := pure message in
  let eth_signature := sign_hash eth_key checkpoint in
  let* recovered := pure (unwrap (signature_recover eth_signature checkpoint)) in
  pure (assert_eq eth_address recovered).

Definition test_batch_signature : io unit :=
  let* correct_hash := pure (from_hex "0xa3a7ee0a363b8ad2514e7ee8f110d7449c0d88f3b0913c28c1751e6e0079a9b2") in
  let* erc20_addr := pure (eth_address "0x835973768750b3ED2D5c3EF5AdcD5eDb44d12aD4") in
  let* sender_addr := pure (unwrap (cosmos_address_parse "althea1c8nkaxk3d0p2gd7ummvmyqpdvqd6pkehqhwnnt")) in
  let* destination := pure (eth_address "0x9FC9C2DfBA3b6cF204C37a5F690619772b926e39") in
  let batch := one_transfer erc20_addr sender_addr destination 2111 1 1 in
  let* checkpoint := pure (encode_tx_batch_confirm "foo" batch) in
  let checkpoint_hash := keccak256 checkpoint in
  let* _ := pure (assert_eq (length correct_hash) (length checkpoint_hash)) in
  let* _ := pure (assert_eq correct_hash checkpoint_hash) in
  sign_and_recover (encode_tx_batch_confirm_hashed "foo" batch).

Definition test_specific_batch_signature : io unit :=
  let* erc20_addr := pure (eth_address "0x0635FF793Edf48cf5dB294916720A78e6e490E40") in
  let* sender_addr := pure (unwrap (cosmos_address_parse "cosmos1g0etv93428tvxqftnmj25jn06mz6dtdasj5nz7")) in
  let* destination := pure (eth_address "0x64D110e00064F2b428476cD64295d8E35836ffd6") in
  let batch := one_transfer erc20_addr sender_addr destination 4427201 15 1301 in
  sign_and_recover (encode_tx_batch_confirm_hashed "foo" batch).

(** The logic call of two tests, but for its token. *)
Definition sample_call (token_contract_address logic_contract_address : EthAddress)
    (payload invalidation_id : bytes) : LogicCall :=
  let token := [{| erc20_amount := 1; erc20_token_contract_address := token_contract_address |}] in {|
    call_transfers := token; call_fees := token; call_logic_contract_address := logic_contract_address;
    call_payload := payload; call_timeout := 4766922941000; call_invalidation_id := invalidation_id;
    call_invalidation_nonce := 1 |}.

Definition test_logic_call_signature : eval unit :=
  let! correct_hash := from_hex "0x1de95c9ace999f8ec70c6dc8d045942da2612950567c4861aca959c0650194da" in
  let! token_contract_address := eth_address "0xC26eFfa98B8A2632141562Ae7E34953Cfe5B4888" in
  let! logic_contract_address := eth_address "0x17c1736CcF692F653c433d7aa2aB45148C016F68" in
  let! payload := from_hex "0x74657374696e675061796c6f6164000000000000000000000000000000000000" in
  let! invalidation_id := from_hex "0x696e76616c69646174696f6e4964000000000000000000000000000000000000" in
  let logic_call := sample_call token_contract_address logic_contract_address payload invalidation_id in
  let checkpoint_hash := keccak256 (encode_logic_call_confirm "foo" logic_call) in
  let! _ := assert_eq (length correct_hash) (length checkpoint_hash) in
  assert_eq correct_hash checkpoint_hash.

(** ** ethereum_gravity/src/logic_call.rs *)

Definition golden_payload : string :=
  "0x4c164fef00000000000000000000000000000000000000000000000000000000000000a00000000000000000000000" +:+
  "0000000000000000000000000000000000000001c0000000000000000000000000000000000000000000000000000000" +:+
  "000000020000000000000000000000000000000000000000000000000000000000000002400000000000000000000000" +:+
  "000000000000000000000000000000000000000280000000000000000000000000000000000000000000000000000000" +:+
  "00000000a000000000000000000000000000000000000000000000000000000000000000e00000000000000000000000" +:+
  "000000000000000000000000000000000000000000000000000000000000000000000000000000000000000000000000" +:+
  "000000000000000000000000000000000000000000000000000000000000000000000000000000000000000000000000" +:+
  "000000000000000000000000000000000000000001000000000000000000000000c783df8a850f42e7f7e57013759c28" +:+
  "5caa701eb600000000000000000000000000000000000000000000000000000000000000010000000000000000000000" +:+
  "0000000000000000000000000000000000ffffffff000000000000000000000000000000000000000000000000000000" +:+
  "0000000001000000000000000000000000000000000000000000000000000000000000001c0000000000000000000000" +:+
  "000000000000000000000000000000000000000001b916bf9a6a908cbf3adee07b90c257ad68cd7006616e56db9de1b8" +:+
  "138b83c6b600000000000000000000000000000000000000000000000000000000000000013d124e8782f054c80d07de" +:+
  "84b5423a5f9a1d1cb005337a634066854b56b11da5000000000000000000000000000000000000000000000000000000" +:+
  "000000012000000000000000000000000000000000000000000000000000000000000001600000000000000000000000" +:+
  "0000000000000000000000000000000000000001a0000000000000000000000000000000000000000000000000000000" +:+
  "00000001e000000000000000000000000017c1736ccf692f653c433d7aa2ab45148c016f680000000000000000000000" +:+
  "000000000000000000000000000000000000000220000000000000000000000000000000000000000000000000000004" +:+
  "55e2bfa248696e76616c69646174696f6e49640000000000000000000000000000000000000000000000000000000000" +:+
  "000000000000000000000000000000000000000001000000000000000000000000000000000000000000000000000000" +:+
  "000000000100000000000000000000000000000000000000000000000000000000000000010000000000000000000000" +:+
  "000000000000000000000000000000000000000001000000000000000000000000c85759553aee2d4125afa8a9421aaf" +:+
  "5397b96e6b00000000000000000000000000000000000000000000000000000000000000010000000000000000000000" +:+
  "000000000000000000000000000000000000000001000000000000000000000000000000000000000000000000000000" +:+
  "0000000001000000000000000000000000c85759553aee2d4125afa8a9421aaf5397b96e6b0000000000000000000000" +:+
  "00000000000000000000000000000000000000002074657374696e675061796c6f616400000000000000000000000000" +:+
  "0000000000".

Definition encode_abiv2_function_header : eval unit :=
  let! encoded := from_hex golden_payload in
  let! token_contract_address := eth_address "0xc85759553AEE2D4125aFa8a9421AAf5397b96E6b" in
  let! logic_contract_address := eth_address "0x17c1736CcF692F653c433d7aa2aB45148C016F68" in
  let! invalidation_id := from_hex "0x696e76616c69646174696f6e4964000000000000000000000000000000000000" in
  let! ethereum_signer := eth_address "0xc783df8a850f42e7F7e57013759C285caa701eB6" in
  let! payload := from_hex "0x74657374696e675061796c6f6164000000000000000000000000000000000000" in
  let logic_call := sample_call token_contract_address logic_contract_address payload invalidation_id in
  let valset := {| valset_reward_token := None; valset_reward_amount := 0; valset_nonce := 0;
    valset_members := [{| member_eth_address := Some ethereum_signer; member_power := 4294967295 |}] |} in
  let! r := from_hex "0xb916bf9a6a908cbf3adee07b90c257ad68cd7006616e56db9de1b8138b83c6b6" in
  let! s := from_hex "0x3d124e8782f054c80d07de84b5423a5f9a1d1cb005337a634066854b56b11da5" in
  let! orchestrator := unwrap (cosmos_address_parse "cosmos1vlms2r8f6x7yxjh3ynyzc7ckarqd8a96ckjvrp") in
  let confirm := {| lcr_invalidation_id := invalidation_id; lcr_invalidation_nonce := 1;
    lcr_ethereum_signer := ethereum_signer; lcr_orchestrator := orchestrator;
    lcr_eth_signature := mkSignature 28 (u256_from_bytes_be r) (u256_from_bytes_be s) |} in
  let! result := encode_logic_call_payload valset logic_call [confirm] "foo" in
  let! result := unwrap result in
  assert_eq (bytes_to_hex_str encoded) (bytes_to_hex_str result).

(** ** ethereum_gravity/src/utils.rs *)

(** [while i < end { body; i += 1 }]: [n] turns. *)
Fixpoint count_up (n : nat) (i : Z) (body : Z → eval unit) : eval unit :=
  match n with O => Done tt | S n => let! _ := body i in count_up n (i + 1) body end.
Definition downcasts (downcast : Uint256 → eval (option Z)) (i : Z) : eval unit :=
  let! r := downcast i in let! r := unwrap_option r in assert_eq i r.
Definition hundred_thousand : nat := 1000 * 100.
Definition test_downcast_nonce : eval unit :=
  let! _ := count_up hundred_thousand 0 (downcasts downcast_uint256) in
  count_up hundred_thousand (4294967295 - 100) (downcasts downcast_uint256).
Definition test_downcast_to_u128 : eval unit :=
  let! _ := count_up hundred_thousand 0 (downcasts downcast_to_u128) in
  count_up hundred_thousand (U64_MAX - 100) (downcasts downcast_to_u128).

(** ** gravity_utils/src/types/signatures.rs *)

Definition gravity_signature_le (a b : GravitySignature) : Prop := gravity_signature_cmp a b ≠ Gt.
#[export] Instance gravity_signature_le_dec a b : Decision (gravity_signature_le a b).
Proof. unfold gravity_signature_le. apply _. Defined.

Definition unsigned (power : Z) (text : string) : eval GravitySignature :=
  let! a := eth_address text in
  Done {| gsig_power := power; gsig_eth_address := a; gsig_v := 0; gsig_r := 0; gsig_s := 0 |}.
Definition sorted_signatures : eval (list GravitySignature) :=
  eval_map (λ '(power, text), unsigned power text)
    [(685294939, "0x479FFc856Cdfa0f5D1AE6Fa61915b01351A7773D");
     (678509841, "0x6db48cBBCeD754bDc760720e38E456144e83269b");
     (671724742, "0x0A7254b318dd742A3086882321C27779B4B642a6");
     (671724742, "0x454330deAaB759468065d08F2b3B0562caBe1dD1");
     (671724742, "0x8E91960d704Df3fF24ECAb78AB9df1B5D9144140");
     (617443955, "0x3511A211A6759d48d107898302042d1301187BA9");
     (291759231, "0xF14879a175A2F1cEFC7c616f35b6d9c2b0Fd8326");
     (6785098, "0x37A0603dA2ff6377E5C7f75698dabA8EE4Ba97B8")].
(** [shuffle] is what the random number generator makes of [incorrect.shuffle]. *)
Definition test_valset_sort (shuffle : list GravitySignature → list GravitySignature) : eval unit :=
  let! correct := sorted_signatures in
  let incorrect := shuffle correct in
  let! _ := assert_ne incorrect correct in
  let incorrect := reverse (merge_sort gravity_signature_le incorrect) in
  assert_eq incorrect correct.

(** ** gravity_utils/src/types/ethereum_events.rs *)

Definition golden_event : string :=
  "0x0000000000000000000000000000000000000000000000000000000000000001000000000000000000000000000000" +:+
  "000000000000000000000000000000000000000000000000000000000000000000000000000000000000000000000000" +:+
  "0000000000000000000000000000000000000000000000000000000000000000a0000000000000000000000000000000" +:+
  "000000000000000000000000000000012000000000000000000000000000000000000000000000000000000000000000" +:+
  "030000000000000000000000001bb537aa56ffc7d608793baffc6c9c7de3c4f270000000000000000000000000906313" +:+
  "229cfb30959b39a5946099e4526625cbd40000000000000000000000009f49c7617b72b5784f482bd728d26eba354a0b" +:+
  "390000000000000000000000000000000000000000000000000000000000000003000000000000000000000000000000" +:+
  "000000000000000000000000005555555500000000000000000000000000000000000000000000000000000000555555" +:+
  "550000000000000000000000000000000000000000000000000000000055555555".

Definition test_valset_decode : eval unit :=
  let! event_bytes := from_hex golden_event in
  let! members := members_of 1431655765 ["0x1bb537Aa56fFc7D608793BAFFC6c9C7De3c4F270";
    "0x906313229CFB30959b39A5946099e4526625CBD4"; "0x9F49C7617b72b5784F482Bd728d26EbA354a0B39"] in
  let correct := {| vdb_event_nonce := 1; vdb_reward_amount := 0; vdb_reward_token := None;
                    vdb_members := members |} in
  let! res := decode_data_bytes event_bytes in
  let! res := unwrap res in
  assert_eq correct res.

End UnitTests.

(** ** nabt/src/utils.rs *)

(** The literals [1f64], [1.5f64], [1.15f64] and [1.1501f64]. *)
Definition f64_1 : f64 := S754_finite false 4503599627370496 (-52).
Definition f64_1_5 : f64 := S754_finite false 6755399441055744 (-52).
Definition f64_1_15 : f64 := S754_finite false 5179139571476070 (-52).
Definition f64_1_1501 : f64 := S754_finite false 5179589931438807 (-52).
Definition even_f32_rounding : eval unit :=
  let! _ := assert_eq 1000000000000000000 (fraction_to_exponent f64_1 18) in
  let! _ := assert_eq 1500000000000000000 (fraction_to_exponent f64_1_5 18) in
  let! _ := assert_eq 1150000000000000000 (fraction_to_exponent f64_1_15 18) in
  assert_eq 1150100000000000000 (fraction_to_exponent f64_1_1501 18).
