(* ===== verification/UnitTestTheory.v ===== *)
(** * The unit tests pass

    Given third-party code that follows the standards of Standards.v, the tests of UnitTests.v pass:
    what the encoders write, and what the contract hashes, is byte for byte what ethers, Hardhat and
    an Ethereum node wrote. *)

From ITree Require Import ITree.
From S2P Require Import Prelude Bytes Proto External Evm Float Instances Standards Contract ContractTheory.
From S2P Require Import Types Signatures Valset ValsetTheory Batches LogicCall EthEvents EthEventsTheory.
From S2P Require Import Messages Acceptance Effects Host Config SubmitTheory Join UnitTests.
From Stdlib Require Import Strings.Byte.

(** ** Sorting *)

(** [sort(); reverse()] has one possible result, if no two of the items are equal in the order. *)
Lemma reverse_sort_unique {A} (R : relation A) `{!∀ a b, Decision (R a b)} `{!Total R} `{!Transitive R} l l' :
  (∀ a b, a ∈ l' → b ∈ l' → R a b → R b a → a = b) → StronglySorted (flip R) l' → l ≡ₚ l' →
  reverse (merge_sort R l) = l'.
Proof.
  intros Hinj Hl' Hp. assert (reverse (merge_sort R l) ≡ₚ l') as Hp'.
  { by rewrite reverse_Permutation, merge_sort_Permutation. }
  apply (StronglySorted_unique_strong (flip R)); [|clear Hp'|done|done].
  - intros a b Ha Hb H1 H2. rewrite Hp' in Ha. by apply Hinj.
  - pose proof (StronglySorted_merge_sort R l) as Hs. induction Hs as [|x k Hs IH Hx]; [constructor|].
    rewrite reverse_cons. apply StronglySorted_app_2; [|done|repeat constructor].
    intros a b Ha Hb. apply list_elem_of_singleton in Hb as ->. rewrite elem_of_reverse in Ha.
    rewrite Forall_forall in Hx. by apply Hx.
Qed.

Section Sorting.
Context `{X : Ext} `{XL : !ExtLaws X}.

(** A signature's place is that of the member it belongs to. *)
Definition member_of_signature (g : GravitySignature) : ValsetMember :=
  mkValsetMember (gsig_power g) (Some (gsig_eth_address g)).
#[export] Instance gravity_signature_le_total : Total gravity_signature_le.
Proof. intros a b. exact (total valset_member_le (member_of_signature a) (member_of_signature b)). Qed.
#[export] Instance gravity_signature_le_trans : Transitive gravity_signature_le.
Proof.
  intros a b c. exact (transitivity (R := valset_member_le) (x := member_of_signature a)
    (y := member_of_signature b) (z := member_of_signature c)).
Qed.

Lemma gravity_signature_le_antisymm a b :
  gravity_signature_le a b → gravity_signature_le b a → member_of_signature a = member_of_signature b.
Proof. exact (anti_symm valset_member_le (member_of_signature a) (member_of_signature b)). Qed.
End Sorting.

Section UnitTestTheorems.
Context `{X : Ext} `{XL : !ExtLaws X} `{V : !Evm} `{VL : !EvmLaws V} `{SL : !Standards V}.
Context `{T : !Tools} `{HS : !HashSigning} `{BD : Build}.

(** ** Reading the vectors *)

Lemma read_address s b : hex_bytes s = Some b → length b = 20%nat →
  ∃ a, eth_address s = Done a ∧ address_as_bytes a = b.
Proof. intros H Hl. destruct (std_address_parse s b H Hl) as (a & Ha & Hb). exists a. unfold eth_address. by rewrite Ha. Qed.
Lemma read_hex s b : hex_bytes s = Some b → from_hex s = Done b.
Proof. intros H. unfold from_hex. by rewrite (std_hex_str_to_bytes s b H). Qed.

(** Replace every text of an address, or of bytes, by what it is read as. *)
Ltac read_texts :=
  repeat match goal with
  | |- context [eth_address ?s] =>
      let a := fresh "a" in let Ha := fresh "Ha" in let Hb := fresh "Hb" in
      destruct (read_address s _ ltac:(vm_compute; reflexivity) ltac:(reflexivity)) as (a & Ha & Hb);
      rewrite !Ha; cbn [eval_bind]
  | |- context [from_hex ?s] =>
      rewrite (read_hex s _ ltac:(vm_compute; reflexivity)); cbn [eval_bind]
  end.

(** ** message_signatures.rs *)

(** What is left is closed once the addresses are replaced by their bytes: run it. *)
Ltac run_closed :=
  unfold VAddress, address_word; pose proof law_address_zero;
  repeat match goal with H : address_as_bytes ?a = _ |- context [address_as_bytes ?a] => rewrite H end;
  vm_refl.

Lemma valset_signature_passes : test_valset_signature = Done tt.
Proof.
  unfold test_valset_signature, members_of. cbn [eval_map]. read_texts. cbv zeta.
  rewrite !valset_checkpoint by (simpl; lia). unfold makeCheckpoint, args_of_valset, filter_empty_addresses.
  cbn. rewrite !std_keccak, !std_abi, !std_bytes_to_hex_str. run_closed.
Qed.

Lemma logic_call_signature_passes : test_logic_call_signature = Done tt.
Proof.
  unfold test_logic_call_signature. read_texts. cbv zeta.
  rewrite !logic_call_checkpoint_eq by (simpl; lia). unfold logic_call_checkpoint, args_of_call, sample_call.
  cbn. rewrite !std_keccak, !std_abi. run_closed.
Qed.

(** A key that the secret gives; and what the tests that sign rely on. *)
Definition usable_secrets : env := λ R e,
  match e in callE R return R → Prop with
  | RandomBytes _ => λ b, is_ok (eth_key_from_slice b) = true
  | _ => λ _, True
  end.
Definition signs_hashes : Prop := ∀ k h, signature_recover (sign_hash k h) h = Ok (eth_key_to_address k).

Lemma returns_pure A {R} (m : eval R) l (Q : R → log → Prop) r :
  m = Done r → Q r l → returns A (pure m) l Q.
Proof. intros -> H. split; [by apply sat_ret|by apply term_ret]. Qed.
Lemma returns_pure_bind A {R W} (m : eval R) (f : R → io W) l (Q : W → log → Prop) r :
  m = Done r → returns A (f r) l Q → returns A (ITree.bind (pure m) f) l Q.
Proof.
  intros -> [H1 H2]. split; [by apply sat_bind, sat_ret|].
  apply (term_bind _ (λ x, x = r)); [by apply term_ret|]. by intros ? ->.
Qed.

Lemma returns_call_bind A {R W} (e : callE R) (f : R → io W) l (Q : W → log → Prop) :
  no_panic _ e l → (∀ x, A R e x → returns A (f x) (l ++ [mkEntry R e x]) Q) →
  returns A (ITree.bind (call e) f) l Q.
Proof.
  intros He H. split; [apply sat_call_bind; [done|]; intros x Hx; by apply H|].
  apply (term_bind _ (A R e)); [by apply term_call|]. intros x Hx. by apply H.
Qed.

Lemma sign_and_recover_returns (message : eval bytes) m l : signs_hashes → message = Done m →
  returns usable_secrets (sign_and_recover message) l (λ _ _, True).
Proof.
  intros Hs Hm. unfold sign_and_recover. apply returns_call_bind; [done|]. intros secret Hk.
  simpl in Hk. destruct (eth_key_from_slice secret) as [k|] eqn:Ek; [|done].
  eapply returns_pure_bind; [done|]. eapply returns_pure_bind; [exact Hm|].
  eapply returns_pure_bind; [by rewrite Hs|]. eapply returns_pure; [|done].
  unfold assert_eq. by rewrite bool_decide_eq_true_2.
Qed.

(** Texts that are read as Cosmos addresses. *)
Definition cosmos_text (s : string) : Prop := is_ok (cosmos_address_parse s) = true.
Lemma read_cosmos s : cosmos_text s → ∃ a, unwrap (cosmos_address_parse s) = Done a.
Proof. unfold cosmos_text. destruct (cosmos_address_parse s); [by eexists|done]. Qed.

Lemma batch_signature_passes l : signs_hashes → cosmos_text "althea1c8nkaxk3d0p2gd7ummvmyqpdvqd6pkehqhwnnt" →
  returns usable_secrets test_batch_signature l (λ _ _, True).
Proof.
  intros Hs [sender Hsender]%read_cosmos. unfold test_batch_signature.
  rewrite Hsender. read_texts. do 4 (eapply returns_pure_bind; [done|]). cbv zeta.
  match goal with |- context [encode_tx_batch_confirm _ ?b] =>
    destruct (batch_checkpoint_eq "foo" b ltac:(simpl; lia)) as (m & Hm & Hh) end.
  eapply returns_pure_bind; [exact Hm|]. rewrite Hh. unfold contract_batch_checkpoint, batch_checkpoint, one_transfer.
  cbn. rewrite !std_keccak, !std_abi.
  do 2 (apply returns_pure_bind with tt; [run_closed|]).
  by eapply sign_and_recover_returns.
Qed.
Lemma specific_batch_signature_passes l : signs_hashes → cosmos_text "cosmos1g0etv93428tvxqftnmj25jn06mz6dtdasj5nz7" →
  returns usable_secrets test_specific_batch_signature l (λ _ _, True).
Proof.
  intros Hs [sender Hsender]%read_cosmos. unfold test_specific_batch_signature.
  rewrite Hsender. read_texts. do 3 (eapply returns_pure_bind; [done|]). cbv zeta.
  by eapply sign_and_recover_returns.
Qed.

(** ** utils.rs *)

Lemma count_up_passes n i body : (∀ j, i ≤ j < i + Z.of_nat n → body j = Done tt) → count_up n i body = Done tt.
Proof.
  revert i. induction n as [|n IH]; intros i H; [done|]. simpl. rewrite H by lia. cbn [eval_bind].
  apply IH. intros j Hj. apply H. lia.
Qed.
Lemma downcasts_pass (downcast : Uint256 → eval (option Z)) bound i :
  (∀ z, 0 ≤ z → downcast z = Done (if z <? bound then Some z else None)) →
  0 ≤ i → i + 100000 ≤ bound → count_up hundred_thousand i (downcasts downcast) = Done tt.
Proof.
  intros H Hi Hb. apply count_up_passes. intros j Hj. assert (Z.of_nat hundred_thousand = 100000) as E by (by vm_compute).
  rewrite E in Hj. unfold downcasts. rewrite H, (proj2 (Z.ltb_lt j bound)) by lia. cbn [eval_bind unwrap_option].
  unfold assert_eq. by rewrite bool_decide_eq_true_2.
Qed.
Lemma downcast_nonce_passes : test_downcast_nonce = Done tt.
Proof.
  unfold test_downcast_nonce. rewrite !(downcasts_pass _ U64_MAX) by
    (apply downcast_uint256_eq || (unfold U64_MAX; lia)). done.
Qed.
Lemma downcast_u128_passes : test_downcast_to_u128 = Done tt.
Proof.
  unfold test_downcast_to_u128. rewrite !(downcasts_pass _ U128_MAX) by
    (apply downcast_to_u128_eq || (unfold U64_MAX, U128_MAX; lia)). done.
Qed.

(** ** signatures.rs *)

Definition is_unsigned (g : GravitySignature) : Prop := gsig_v g = 0 ∧ gsig_r g = 0 ∧ gsig_s g = 0.
Lemma unsigned_inj a b : is_unsigned a → is_unsigned b → member_of_signature a = member_of_signature b → a = b.
Proof. destruct a, b. unfold is_unsigned. simpl. intros (-> & -> & ->) (-> & -> & ->) [= -> ->]. done. Qed.

(** In order: each before all that follow. *)
Lemma signature_before p1 a1 p2 a2 : p2 < p1 ∨ (p1 = p2 ∧ be (address_as_bytes a1) < be (address_as_bytes a2)) →
  gravity_signature_le (mkGravitySignature p2 a2 0 0 0) (mkGravitySignature p1 a1 0 0 0).
Proof.
  intros H. unfold gravity_signature_le, gravity_signature_cmp. simpl. rewrite std_address_cmp.
  destruct (Z.eqb_spec p2 p1); simpl; [|destruct (Z.compare_spec p2 p1); naive_solver lia].
  destruct (Z.compare_spec (be (address_as_bytes a2)) (be (address_as_bytes a1))); naive_solver lia.
Qed.

Lemma valset_sort_passes shuffle :
  (∀ correct, sorted_signatures = Done correct → shuffle correct ≡ₚ correct ∧ shuffle correct ≠ correct) →
  test_valset_sort shuffle = Done tt.
Proof.
  unfold test_valset_sort, sorted_signatures, unsigned. cbn [eval_map]. read_texts.
  intros H. destruct (H _ eq_refl) as [Hp Hne]. clear H. unfold assert_ne, assert_eq.
  rewrite bool_decide_eq_false_2 by done. cbn [negb rassert eval_bind].
  rewrite bool_decide_eq_true_2; [done|]. apply (reverse_sort_unique gravity_signature_le); [| |done].
  - assert (∀ x y, is_unsigned x → is_unsigned y → gravity_signature_le x y → gravity_signature_le y x → x = y) as Hu.
    { intros x y Hx Hy H1 H2. by apply unsigned_inj, gravity_signature_le_antisymm. }
    match goal with |- ∀ a b, a ∈ ?l → _ => assert (Forall is_unsigned l) as Hall by (repeat constructor) end.
    rewrite Forall_forall in Hall. intros x y Hx Hy. apply Hu; by apply Hall.
  - repeat constructor; apply signature_before;
      repeat match goal with H : address_as_bytes ?a = _ |- context [address_as_bytes ?a] => rewrite H end;
      vm_compute; tauto.
Qed.

(** ** ethereum_events.rs *)

Lemma valset_decode_passes : test_valset_decode = Done tt.
Proof.
  unfold test_valset_decode, members_of. cbn [eval_map]. read_texts. cbv zeta.
  match goal with |- context [decode_data_bytes ?b] =>
    assert (b = valset_updated_data 1 0 None [(1431655765, a); (1431655765, a0); (1431655765, a1)] 3) as E end.
  { unfold valset_updated_data, member_words, power_words, addr_word. cbn [map concat default snd fst length].
    pose proof law_address_zero.
    repeat match goal with H : address_as_bytes ?a = _ |- context [address_as_bytes ?a] => rewrite H end. vm_refl. }
  rewrite E, valset_data_ok.
  - unfold assert_eq. cbn [eval_bind unwrap]. by rewrite bool_decide_eq_true_2.
  - by vm_compute.
  - by vm_compute.
  - done.
  - repeat constructor; by vm_compute.
  - by vm_compute.
  - rewrite <- E. by vm_compute.
Qed.

(** ** logic_call.rs *)

(** The digest of the test's call, and the signature of it that Hardhat's signer made. It is a fact of
    secp256k1 that the signer is recovered from the two. *)
Definition golden_digest : bytes :=
  default [] (hex_bytes "85771adec1953693f6cad8d8a4fd1d2506bd78a41b2129ce65f40bcf4dc9e114").
Definition golden_signature : EthSignature :=
  mkSignature 28 0xb916bf9a6a908cbf3adee07b90c257ad68cd7006616e56db9de1b8138b83c6b6
                 0x3d124e8782f054c80d07de84b5423a5f9a1d1cb005337a634066854b56b11da5.
Definition golden_signer : bytes := default [] (hex_bytes "0xc783df8a850f42e7F7e57013759C285caa701eB6").
Definition golden_recovers : Prop :=
  signature_is_valid golden_signature = true ∧
  ∀ a, address_as_bytes a = golden_signer → signature_recover golden_signature golden_digest = Ok a.

Lemma abiv2_function_header_passes :
  golden_recovers → cosmos_text "cosmos1vlms2r8f6x7yxjh3ynyzc7ckarqd8a96ckjvrp" →
  (∀ ts, length ts = 5%nat → is_ok (encode_call submit_logic_call_call ts) = true) →
  encode_abiv2_function_header = Done tt.
Proof.
  intros [Hvalid Hrec] [orchestrator Horch]%read_cosmos Hcall. unfold encode_abiv2_function_header.
  rewrite Horch. read_texts. cbv zeta. rewrite !law_u256_from_bytes_be by (simpl; lia).
  match goal with |- context [encode_logic_call_payload ?v ?c [?k] _] =>
    set (vs := v); set (call := c); set (confirm := k) end.
  assert (encode_logic_call_confirm_hashed "foo" call = golden_digest) as Hhash.
  { unfold encode_logic_call_confirm_hashed. rewrite law_msg_hash, logic_call_checkpoint_eq by (simpl; lia).
    unfold logic_call_checkpoint, args_of_call, call, sample_call. cbn. rewrite !std_keccak, !std_abi. run_closed. }
  assert (last_confirm [confirm] a1 = Some confirm) as Hlast.
  { unfold last_confirm. cbn [filter list_filter]. by rewrite decide_True. }
  assert (order_sigs vs golden_digest [confirm] =
    Done (Ok (ordered_signature [confirm] <$> valset_members vs))) as Horder.
  { rewrite order_sigs_eq; [|done|split_and!; [repeat constructor; by vm_compute|by vm_compute..]|].
    - unfold power_where, voted, vs. cbn [fmap list_fmap valset_members member_eth_address]. by rewrite Hlast.
    - apply Forall_singleton. intros b k [= <-] Hk. rewrite Hlast in Hk. injection Hk as <-.
      split; [exact Hvalid|by apply Hrec]. }
  assert (∃ payload, encode_logic_call_payload vs call [confirm] "foo" = Done (Ok payload)) as [payload Hp].
  { unfold encode_logic_call_payload. cbv zeta. rewrite Hhash, Horder, !amounts_and_contracts_eq. cbn [try_bind]. cbv beta iota zeta.
    match goal with |- context [encode_call _ ?ts] =>
      pose proof (Hcall ts eq_refl) as Hok; destruct (encode_call _ ts) as [p|]; [by exists p|done] end. }
  rewrite Hp. apply logic_call_payload_calldata in Hp as (out & Ho & Hc); [|simpl; lia].
  rewrite Hhash, Horder in Ho. injection Ho as <-. unfold ordered_signature in Hc. cbn [vs valset_members fmap list_fmap] in Hc.
  cbn [member_eth_address member_power] in Hc. rewrite Hlast in Hc. injection Hc as <-.
  cbn [eval_bind unwrap]. unfold vs, call, confirm, args_of_valset, args_of_call, sample_call, filter_empty_addresses.
  unfold valset_value, call_value, addresses, words.
  cbn. rewrite !std_selector, !std_abi, !std_bytes_to_hex_str. run_closed.
Qed.

(** ** The theorems *)

(** The contract's own checkpoints are those the tests name: the hashes were computed by ethers for
    the contract, and the model of the contract computes the same. *)
Lemma contract_checkpoint_golden members :
  address_as_bytes <$> members = omap hex_bytes
    ["E5904695748fe4A84b40b3fc79De2277660BD1D3"; "c783df8a850f42e7F7e57013759C285caa701eB6";
     "eAD9C93b79Ae7C1591b1FB5323BD777E86e150d4"] →
  Some (makeCheckpoint (mkValsetArgs members [3333; 3333; 3333] 0 0 ZERO_ADDRESS) (bytes32 (to_bytes "foo"))) =
  hex_bytes "aca2f283f21a03ba182dc7d34a55c04771b25087401d680011df7dcba453f798".
Proof.
  destruct members as [|a [|b [|c [|]]]]; try done. intros [= Ha Hb Hc].
  unfold makeCheckpoint. cbn [fmap list_fmap validators powers valsetNonce rewardAmount rewardToken].
  rewrite std_keccak, std_abi. run_closed.
Qed.

(** C12: golden vectors. Given third-party code that follows Keccak-256 and the ABI specification, what
    the encoders write for the validator set, the logic call and the [submitLogicCall] transaction of
    the unit tests is byte for byte what ethers and Hardhat computed for Gravity.sol, the reordered
    set has another hash, the event data of an Ethereum node decodes to the set it was emitted for,
    and the checkpoint that the contract itself computes is the same golden hash. *)
Theorem golden_vectors members :
  golden_recovers → cosmos_text "cosmos1vlms2r8f6x7yxjh3ynyzc7ckarqd8a96ckjvrp" →
  (∀ ts, length ts = 5%nat → is_ok (encode_call submit_logic_call_call ts) = true) →
  address_as_bytes <$> members = omap hex_bytes
    ["E5904695748fe4A84b40b3fc79De2277660BD1D3"; "c783df8a850f42e7F7e57013759C285caa701eB6";
     "eAD9C93b79Ae7C1591b1FB5323BD777E86e150d4"] →
  test_valset_signature = Done tt ∧ test_logic_call_signature = Done tt ∧
  encode_abiv2_function_header = Done tt ∧ test_valset_decode = Done tt ∧
  Some (makeCheckpoint (mkValsetArgs members [3333; 3333; 3333] 0 0 ZERO_ADDRESS) (bytes32 (to_bytes "foo"))) =
  hex_bytes "aca2f283f21a03ba182dc7d34a55c04771b25087401d680011df7dcba453f798".
Proof.
  intros Hg Hc Hcall Hm. split_and!.
  - apply valset_signature_passes.
  - apply logic_call_signature_passes.
  - by apply abiv2_function_header_passes.
  - apply valset_decode_passes.
  - by apply contract_checkpoint_golden.
Qed.

(** C25: the other unit tests pass, whatever the random numbers: a batch's hash is the golden one and any
    key that a secret gives signs it and is recovered; every shuffle of the signatures is sorted back
    (the test asks that it is not the sorted list to begin with); the down-casts are exact on the
    ranges tried; and the amounts of ether are converted as the test says. *)
Theorem unit_tests_pass shuffle l :
  signs_hashes → cosmos_text "althea1c8nkaxk3d0p2gd7ummvmyqpdvqd6pkehqhwnnt" →
  cosmos_text "cosmos1g0etv93428tvxqftnmj25jn06mz6dtdasj5nz7" →
  (∀ correct, sorted_signatures = Done correct → shuffle correct ≡ₚ correct ∧ shuffle correct ≠ correct) →
  returns usable_secrets test_batch_signature l (λ _ _, True) ∧
  returns usable_secrets test_specific_batch_signature l (λ _ _, True) ∧
  test_valset_sort shuffle = Done tt ∧ test_downcast_nonce = Done tt ∧ test_downcast_to_u128 = Done tt ∧
  even_f32_rounding = Done tt.
Proof.
  intros Hs H1 H2 Hsh. split_and!.
  - by apply batch_signature_passes.
  - by apply specific_batch_signature_passes.
  - by apply valset_sort_passes.
  - apply downcast_nonce_passes.
  - apply downcast_u128_passes.
  - vm_refl.
Qed.
End UnitTestTheorems.
