(* ===== verification/UnitTestRun.v ===== *)
(** * An instance that follows the standards

    Third-party code with the hash of Ethereum, the contract ABI and hexadecimal texts: the laws of
    External.v and Evm.v and the standards of Standards.v hold of it together, so the unit tests pass
    with it. Signatures are those of Instances.v, and one of Hardhat's. *)

From ITree Require Import ITree.
From S2P Require Import Prelude Bytes Proto External Evm Float Instances Standards Contract Types Signatures.
From S2P Require Import Messages Effects Host SubmitTheory Join UnitTests UnitTestTheory.

Definition standard_hash (m : bytes) : bytes := keccak_256 (signed_message_prefix ++ keccak_256 m).
Definition signer : address := addr (be golden_signer).
Definition standard_recover (s : EthSignature) (h : bytes) : result address string :=
  if (sig_v s =? 28) && (sig_r s =? sig_r golden_signature) && (sig_s s =? sig_s golden_signature) &&
     bool_decide (h = golden_digest) then Ok signer else recover s h.

Definition standard_choices : choices := {|
  ch_hash := standard_hash;
  ch_recover := standard_recover;
  ch_encode l := abi_arguments (value_of <$> l);
  ch_encode_call f l := Ok (function_selector f ++ abi_arguments (value_of <$> l));
  ch_hex := hex_text;
  ch_unhex s := match hex_bytes s with Some b => Ok b | None => Err "invalid hex"%string end;
  ch_show_address a := hex_text (`a);
  ch_parse_address s := match hex_bytes s with Some b => from_slice b | None => Err "invalid hex"%string end;
  ch_parse_cosmos s := from_slice (take 20 (to_bytes s));
|}.

Lemma standard_recover_own k m : standard_recover (sign_with standard_hash k m) (standard_hash m) = Ok (addr k).
Proof. apply (recover_sign_with standard_hash). Qed.

#[export] Instance standard_choices_ok : Choices standard_choices.
Proof.
  split; cbn [ch_hash ch_recover ch_hex ch_unhex ch_show_address ch_parse_address ch_parse_cosmos standard_choices].
  - intros m. apply length_keccak_256.
  - apply standard_recover_own.
  - intros b. by rewrite hex_bytes_text.
  - intros a. rewrite hex_bytes_text. apply from_slice_proj.
  - done.
  - intros [b Hb]. rewrite to_of_bytes. cbn [proj1_sig]. apply Nat.eqb_eq in Hb as Hl.
    rewrite take_ge by lia. exact (from_slice_proj (exist _ b Hb)).
Qed.

Definition standard_ext : Ext := ext_with standard_choices.
Definition standard_laws : ExtLaws standard_ext := ext_with_laws standard_choices.
Definition recovered (h : bytes) (v r s : Z) : @EthAddress standard_ext :=
  match standard_recover (mkSignature v r s) h with Ok a => a | Err _ => addr 0 end.
Definition standard_evm : @Evm standard_ext := {|
  keccak256 := keccak_256;
  ecrecover := recovered;
  abi_encode := abi_arguments;
  selector := function_selector;
  token_value := (value_of : @Token standard_ext → abi_value);
|}.

Lemma standard_evm_laws : @EvmLaws standard_ext standard_evm.
Proof.
  split; try done.
  - by intros f ts payload [= <-].
  - intros l. cbn. f_equal. by rewrite map_map.
  - intros l. cbn. f_equal. by rewrite map_map.
  - intros l. cbn. f_equal. by rewrite map_map.
  - intros [v r s] h a _ H. cbn in *. unfold recovered. by rewrite H.
Qed.

Lemma standard_standards : @Standards standard_ext standard_evm.
Proof.
  split; try done.
  - intros s b H Hl. cbn. rewrite H. unfold from_slice.
    destruct (mk_address_20 b Hl) as [a Ha]. rewrite Ha. exists a. split; [done|by apply mk_address_Some].
  - intros s b H. cbn. by rewrite H.
Qed.

Section Run.
#[local] Existing Instance standard_ext.
#[local] Existing Instance standard_laws.
#[local] Existing Instance standard_evm.
#[local] Existing Instance standard_evm_laws.
#[local] Existing Instance standard_standards.
#[local] Existing Instance checked_build.

(** Of the command line's tools the tests only use the one that reads a key. *)
#[local] Instance key_tools : @Tools standard_ext := {|
  Url := unit;
  url_parse _ := Err "no url"%string;
  url_scheme _ := ""%string;
  url_port _ := None;
  url_host_str _ := None;
  contact_new_ok _ _ _ := false;
  cosmos_key_from_phrase _ _ := Err "no phrase"%string;
  eth_key_from_slice b := if (length b =? 32)%nat then Ok (be b) else Err "byte length error"%string;
  toml_parse_config _ := Err "no file"%string;
  toml_parse_keys _ := Err "no file"%string;
  toml_print_keys _ := Err "no file"%string;
  default_home := None;
|}.
#[local] Instance hash_signing : @HashSigning standard_ext :=
  λ k h, mkSignature 27 (be (be_split 20 k)) (be h).
Lemma signs : signs_hashes.
Proof. intros k h. exact (recover_sign_with (λ h, h) k h). Qed.

Lemma golden : golden_recovers.
Proof.
  split; [done|]. intros a Ha. cbn in a, Ha. cbn [signature_recover standard_ext ext_with ch_recover standard_choices].
  unfold standard_recover. rewrite bool_decide_eq_true_2 by done. cbn.
  f_equal. apply (sig_eq_pi _). rewrite Ha. vm_refl.
Qed.

Definition golden_members : list EthAddress :=
  omap (λ s, match address_parse s with Ok a => Some a | Err _ => None end)
    ["E5904695748fe4A84b40b3fc79De2277660BD1D3"; "c783df8a850f42e7F7e57013759C285caa701eB6";
     "eAD9C93b79Ae7C1591b1FB5323BD777E86e150d4"].
Lemma golden_vectors_witness :
  encode_abiv2_function_header = Done tt ∧
  Some (makeCheckpoint (mkValsetArgs golden_members [3333; 3333; 3333] 0 0 ZERO_ADDRESS) (bytes32 (to_bytes "foo"))) =
  hex_bytes "aca2f283f21a03ba182dc7d34a55c04771b25087401d680011df7dcba453f798".
Proof.
  destruct (golden_vectors golden_members golden) as (_ & _ & H1 & _ & H2);
    [red; vm_refl|intros ts _; reflexivity|vm_refl|exact (conj H1 H2)].
Defined.

(** The last signature first. *)
Definition shuffle (l : list GravitySignature) : list GravitySignature := reverse l.
Lemma sorted_powers :
  match sorted_signatures with Done l => gsig_power <$> l | Panic _ => [] end =
  [685294939; 678509841; 671724742; 671724742; 671724742; 617443955; 291759231; 6785098].
Proof. vm_refl. Qed.
Lemma unit_tests_pass_witness :
  returns usable_secrets test_batch_signature [] (λ _ _, True) ∧ test_valset_sort shuffle = Done tt.
Proof.
  destruct (unit_tests_pass shuffle [] signs) as (H1 & _ & H2 & _); [red; vm_refl|red; vm_refl| |exact (conj H1 H2)].
  intros correct H. split; [unfold shuffle; apply reverse_Permutation|]. intros E.
  apply (f_equal (fmap gsig_power)) in E. unfold shuffle in E. rewrite fmap_reverse in E.
  pose proof sorted_powers as P. rewrite H in P. by rewrite P in E.
Defined.
End Run.
