(* ===== verification/ConnectionTheory.v ===== *)
(** * Connecting: which nodes the tool talks to, and what it checks first

    [connections_guarded]: every url tried is the one given or one of the documented fallbacks of it,
    which never leave https; the clients that come out answered. [delegates_checked] and the
    specifications after it: what the checks before the start mean when they pass. *)

From ITree Require Import ITree.
From S2P Require Import Prelude Bytes Proto External Float Instances Types Effects Host Queries Connection.
From S2P Require Import Submit SubmitTheory Join.

Section Connecting.
Context `{X : Ext} `{T : !Tools} `{BD : Build}.
Implicit Types (P : spec) (A : env) (l : log) (url : Url).

(** A call that tries a url. *)
Context {B E : Type} (probe : string → callE (result B E)).

Definition reached l (u : string) : Prop := ∃ x, saw l (probe u) (Ok x).
Definition refused l (u : string) : Prop := ∃ e, saw l (probe u) (Err e).

(** The fallbacks: another address of the local host under the scheme and port given, or https. *)
Definition fallback (text : string) url (u : string) : Prop :=
  (is_localhost text = true ∧ (u = ipv6_url url ∨ u = ipv4_url url)) ∨
  (is_localhost text = false ∧ upgradable url = true ∧
   ∃ body, url_host_str url = Some body ∧ (u = https_on_80_url body ∨ u = https_on_443_url body)).

(** A url that may be tried when [given] is asked for: itself, or once it failed, a fallback. *)
Definition may_try (given text u : string) l : Prop :=
  ∃ url, url_parse given = Ok url ∧ (url_scheme url = "http" ∨ url_scheme url = "https") ∧
    (u = trim_slashes given ∨ refused l (trim_slashes given) ∧ fallback text url u).

Lemma prefix_refl p s : String.prefix p (p +:+ s) = true.
Proof. induction p as [|c p IH]; [by destruct s|]. simpl. by destruct (Ascii.ascii_dec c c) as [|[]]. Qed.

(** No fallback of an https url leaves https. *)
Lemma fallback_secure text url u :
  fallback text url u → url_scheme url = "https" → String.prefix "https://" u = true.
Proof.
  intros [(_ & H)|(_ & _ & b & _ & H)] Hs; destruct H as [-> | ->];
    unfold ipv6_url, ipv4_url, https_on_80_url, https_on_443_url; try rewrite Hs; apply (prefix_refl "https://").
Qed.

Lemma check_scheme_Done url : check_scheme url = Done tt → url_scheme url = "http" ∨ url_scheme url = "https".
Proof.
  unfold check_scheme. destruct (String.eqb_spec (url_scheme url) "http"); [by left|].
  destruct (String.eqb_spec (url_scheme url) "https"); [by right|done].
Qed.

Lemma pick_Done {B' E'} (a b : result B' E') u1 u2 u :
  pick a b u1 u2 = Done u → (u = u1 ∧ ∃ x, a = Ok x) ∨ (u = u2 ∧ ∃ x, b = Ok x).
Proof. destruct a, b; simpl; intros [= <-]; [left|right]; eauto. Qed.
Lemma pick_swap {B' E'} (a b : result B' E') u1 u2 : pick b a u2 u1 = pick a b u1 u2.
Proof. by destruct a, b. Qed.

(** The two fallbacks, tried in turn; the choice among them does not depend on their order. *)
Lemma fallbacks_spec P A {R} (choose : result B E → result B E → eval string) u1 u2 (k : string → io R) l Q :
  (∀ a b, choose a b = pick a b u1 u2) →
  (∀ w l, P _ (Panics w) l) →
  (∀ l', l ⊆ l' → P _ (probe u1) l' ∧ P _ (probe u2) l') →
  (∀ u l', l ⊆ l' → u = u1 ∨ u = u2 → reached l' u → sat P A (k u) l' Q) →
  sat P A (let* a := call (probe u1) in let* b := call (probe u2) in
           let* chosen := pure (choose a b) in k chosen) l Q.
Proof.
  intros Hch Hw HP Hk. apply sat_call_bind; [by apply (HP l)|]. intros a _.
  apply sat_call_bind; [apply HP; sub|]. intros b _. apply sat_pure_bind; [intros; apply Hw|].
  rewrite Hch.
  intros u [(-> & x & ->)|(-> & x & ->)]%pick_Done; (apply Hk; [sub|by auto|]); exists x; solve_saw.
Qed.
End Connecting.

Section Guarded.
Context `{X : Ext} `{T : !Tools} `{BD : Build}.
Context (address_prefix : string) (grpc_url eth_rpc_url : option string) (timeout : Duration).
Implicit Types (P : spec) (A : env) (l : log).

Definition secure_try {B E} (probe : string → callE (result B E)) (given text u : string) l : Prop :=
  may_try probe given text u l ∧
  ∀ url, url_parse given = Ok url → url_scheme url = "https" →
    u = trim_slashes given ∨ String.prefix "https://" u = true.

Lemma may_try_secure {B E} (probe : string → callE (result B E)) given text u l :
  may_try probe given text u l → secure_try probe given text u l.
Proof.
  intros H. split; [done|]. intros url Hu Hs. destruct H as (url' & Hu' & _ & [->|[_ Hf]]); [by left|right].
  assert (url' = url) as -> by congruence. by eapply fallback_secure.
Qed.

(** Which calls [create_rpc_connections] may make. *)
Definition connection_spec : spec := λ R e l,
  match e with
  | GrpcConnect u => ∃ given, grpc_url = Some given ∧ secure_try GrpcConnect given given u l
  | Web3TryBlockNumber u =>
      ∃ given, eth_rpc_url = Some given ∧ secure_try Web3TryBlockNumber given (trim_slashes given) u l
  | Panics _ => True
  | _ => False
  end.

(** The clients it gives: connected to what answered. *)
Definition grpc_ready l (u : string) (c : Contact) : Prop :=
  reached GrpcConnect l u ∧ c = mkContact u timeout address_prefix ∧ contact_new_ok u timeout address_prefix = true.
Definition connections_ready (r : Connections) l : Prop :=
  match grpc_url with
  | None => conn_grpc r = None ∧ conn_contact r = None
  | Some _ => ∃ u c, conn_grpc r = Some u ∧ conn_contact r = Some c ∧ grpc_ready l u c
  end ∧
  match eth_rpc_url with
  | None => conn_web3 r = None
  | Some _ => ∃ u, conn_web3 r = Some (mkWeb3 u timeout) ∧ reached Web3TryBlockNumber l u
  end.

(** A requirement that lets the tool connect. *)
Definition lets_connect P : Prop := ∀ R (e : callE R) l, connection_spec R e l → P R e l.

Lemma contact_new_spec P A u l Q :
  (∀ w l, P _ (Panics w) l) →
  (∀ c, c = mkContact u timeout address_prefix → contact_new_ok u timeout address_prefix = true → Q (u, c) l) →
  sat P A (let* contact := pure (contact_new u timeout address_prefix) in Ret (u, contact)) l Q.
Proof.
  intros Hw HQ. apply sat_pure_bind; [intros; apply Hw|]. unfold contact_new. intros c.
  destruct (contact_new_ok u timeout address_prefix) eqn:E; [|done]. intros [= <-]. by apply sat_ret, HQ.
Qed.

Lemma connect_grpc_spec P A given l :
  lets_connect P → grpc_url = Some given →
  sat P A (connect_grpc address_prefix given timeout) l (λ r l', l ⊆ l' ∧ grpc_ready l' r.1 r.2).
Proof.
  intros HP Hg. assert (∀ w l, P _ (Panics w) l) as Hw by (intros; by apply HP).
  unfold connect_grpc. apply sat_pure_bind; [intros; apply Hw|]. intros url Hu.
  destruct (url_parse given) as [url'|] eqn:Hp; [|done]. injection Hu as ->.
  apply sat_pure_bind; [intros; apply Hw|]. intros [] Hs%check_scheme_Done.
  assert (∀ l u, u = trim_slashes given ∨ refused GrpcConnect l (trim_slashes given) ∧ fallback given url u →
    P _ (GrpcConnect u) l) as Htry.
  { intros l' u Hu. apply HP. exists given. split; [done|]. apply may_try_secure. by exists url. }
  apply sat_call_bind; [apply Htry; by left|].
  intros [[]|e] _.
  { apply contact_new_spec; [done|]. intros c Hc Hok. split; [sub|]. split; [exists tt; solve_saw|done]. }
  set (l1 := l ++ _).
  assert (∀ u l', l1 ⊆ l' → fallback given url u → P _ (GrpcConnect u) l') as Hfall.
  { intros u l' Hl' Hu. apply Htry. right. split; [|done]. exists e. eapply saw_sub; [done|]. unfold l1. solve_saw. }
  assert (∀ u l', l1 ⊆ l' → reached GrpcConnect l' u →
    sat P A (let* c := pure (contact_new u timeout address_prefix) in Ret (u, c)) l'
      (λ r l', l ⊆ l' ∧ grpc_ready l' r.1 r.2)) as Hk.
  { intros u l' Hl' Hr. apply contact_new_spec; [done|]. intros c Hc Hok.
    split; [by etrans; [apply subseteq_snoc|]|by split]. }
  destruct (is_localhost given) eqn:Hlocal.
  - apply (fallbacks_spec GrpcConnect) with (choose := λ a b, pick b a (ipv4_url url) (ipv6_url url))
      (k := λ u, let* c := pure (contact_new u timeout address_prefix) in Ret (u, c)); auto using @pick_swap.
    intros l' Hl'. split; apply Hfall; try done; left; auto.
  - destruct (upgradable url) eqn:Hup; [|apply sat_panic, Hw].
    apply sat_pure_bind; [intros; apply Hw|]. intros body Hb.
    destruct (url_host_str url) as [b|] eqn:Hh; [|done]. injection Hb as ->.
    apply (fallbacks_spec GrpcConnect) with
      (choose := λ a b, pick a b (https_on_80_url body) (https_on_443_url body))
      (k := λ u, let* c := pure (contact_new u timeout address_prefix) in Ret (u, c)); auto.
    intros l' Hl'. split; (apply Hfall; [done|]; right; split_and!; [done..|]; exists body; auto).
Qed.

Lemma connect_web3_spec P A given l :
  lets_connect P → eth_rpc_url = Some given →
  sat P A (connect_web3 given timeout) l
    (λ r l', l ⊆ l' ∧ ∃ u, r = mkWeb3 u timeout ∧ reached Web3TryBlockNumber l' u).
Proof.
  intros HP Hg. assert (∀ w l, P _ (Panics w) l) as Hw by (intros; by apply HP).
  unfold connect_web3. apply sat_pure_bind; [intros; apply Hw|]. intros url Hu.
  destruct (url_parse given) as [url'|] eqn:Hp; [|done]. injection Hu as ->.
  apply sat_pure_bind; [intros; apply Hw|]. intros [] Hs%check_scheme_Done. cbv zeta.
  set (text := trim_slashes given).
  assert (∀ l u, u = text ∨ refused Web3TryBlockNumber l text ∧ fallback text url u →
    P _ (Web3TryBlockNumber u) l) as Htry.
  { intros l' u Hu. apply HP. exists given. split; [done|]. apply may_try_secure. by exists url. }
  apply sat_call_bind; [apply Htry; by left|].
  intros [n|e] _.
  { apply sat_ret. split; [sub|]. exists text. split; [done|]. exists n. solve_saw. }
  set (l1 := l ++ _).
  assert (∀ u l', l1 ⊆ l' → fallback text url u → P _ (Web3TryBlockNumber u) l') as Hfall.
  { intros u l' Hl' Hu. apply Htry. right. split; [|done]. exists e. eapply saw_sub; [done|]. unfold l1. solve_saw. }
  assert (∀ u l', l1 ⊆ l' → reached Web3TryBlockNumber l' u →
    sat P A (Ret (mkWeb3 u timeout)) l'
      (λ r l', l ⊆ l' ∧ ∃ u, r = mkWeb3 u timeout ∧ reached Web3TryBlockNumber l' u)) as Hk.
  { intros u l' Hl' Hr. apply sat_ret. split; [by etrans; [apply subseteq_snoc|]|by exists u]. }
  destruct (is_localhost text) eqn:Hlocal.
  - apply (fallbacks_spec Web3TryBlockNumber) with (choose := λ a b, pick b a (ipv4_url url) (ipv6_url url))
      (k := λ u, Ret (mkWeb3 u timeout)); auto using @pick_swap.
    intros l' Hl'. split; apply Hfall; try done; left; auto.
  - destruct (upgradable url) eqn:Hup; [|apply sat_panic, Hw].
    apply sat_pure_bind; [intros; apply Hw|]. intros body Hb.
    destruct (url_host_str url) as [b|] eqn:Hh; [|done]. injection Hb as ->.
    apply (fallbacks_spec Web3TryBlockNumber) with
      (choose := λ a b, pick a b (https_on_80_url body) (https_on_443_url body))
      (k := λ u, Ret (mkWeb3 u timeout)); auto.
    intros l' Hl'. split; (apply Hfall; [done|]; right; split_and!; [done..|]; exists body; auto).
Qed.

Lemma create_rpc_connections_spec P A l :
  lets_connect P →
  sat P A (create_rpc_connections address_prefix grpc_url eth_rpc_url timeout) l
    (λ r l', l ⊆ l' ∧ connections_ready r l').
Proof.
  intros HP. unfold create_rpc_connections, connections_ready.
  eapply sat_run with (Q0 := λ o l', l ⊆ l' ∧ match grpc_url with
    | None => o = None | Some _ => ∃ u c, o = Some (u, c) ∧ grpc_ready l' u c end).
  { destruct grpc_url as [given|] eqn:Hg; [|by apply sat_ret].
    eapply sat_run; [apply connect_grpc_spec; [done|exact Hg]|]. intros [u c] l1 [Hl1 Hr].
    apply sat_ret. split; [done|]. by exists u, c. }
  intros cosmos l1 [Hl1 Hc].
  eapply sat_run with (Q0 := λ o l', l1 ⊆ l' ∧ match eth_rpc_url with
    | None => o = None | Some _ => ∃ u, o = Some (mkWeb3 u timeout) ∧ reached Web3TryBlockNumber l' u end).
  { destruct eth_rpc_url as [given|] eqn:Hg; [|by apply sat_ret].
    eapply sat_run; [apply connect_web3_spec; [done|exact Hg]|]. intros w l2 (Hl2 & u & -> & Hr).
    apply sat_ret. split; [done|]. by exists u. }
  intros web3 l2 [Hl2 Hw]. apply sat_ret. split; [by etrans|]. split.
  - destruct grpc_url; [|by rewrite Hc]. destruct Hc as (u & c & -> & (x & Hx) & Hr).
    exists u, c. split_and!; [done..|]. split; [|done]. exists x. by apply Hl2.
  - destruct eth_rpc_url; [|done]. destruct Hw as (u & -> & Hr). by exists u.
Qed.

Lemma create_rpc_connections_unspent P A l :
  lenient P →
  sat P A (create_rpc_connections address_prefix grpc_url eth_rpc_url timeout) l
    (λ r l', spent l' = spent l ∧ l ⊆ l' ∧ connections_ready r l').
Proof.
  intros HP. apply sat_unspent, create_rpc_connections_spec. intros R e l' He.
  assert (spends e = false) by by destruct e. split; [by apply HP|done].
Qed.

(** C19: every url [create_rpc_connections] tries is the one it was given, less its trailing slashes,
    or, once that has failed, one of its fallbacks: the two addresses of the local host under the
    same scheme and port if the url names localhost, else the same host over https if the url has no
    port or is http. An https url is never tried over http. What comes out is connected: each client
    asked for is there, made for a url that answered, with the timeout and prefix given, and a
    client not asked for is absent. *)
Theorem connections_guarded :
  sat connection_spec any_env (create_rpc_connections address_prefix grpc_url eth_rpc_url timeout) []
    (λ r l, connections_ready r l).
Proof.
  eapply sat_mono; [apply create_rpc_connections_spec; by intros R e l|]. by intros r l [_ H].
Qed.
End Guarded.

(** ** The checks before the start *)

Section Checks.
Context `{X : Ext} `{BD : Build}.
Implicit Types (P : spec) (A : env) (l : log).

(** The chain has this pair of delegate keys, of one validator. *)
Definition delegates_registered l (eth : EthAddress) (orchestrator : CosmosAddress) (prefix : string) : Prop :=
  ∃ text e o,
    cosmos_address_to_bech32 orchestrator prefix = Ok text ∧
    saw l (QDelegateKeyByEth (address_to_string eth)) (Ok e) ∧
    saw l (QDelegateKeyByOrchestrator text) (Ok o) ∧
    cosmos_address_parse (dke_orchestrator_address e) = Ok orchestrator ∧
    address_parse (dko_eth_address o) = Ok eth ∧
    dke_validator_address e = dko_validator_address o.

Lemma compare_delegates_Ok eth orchestrator e o :
  compare_delegates eth orchestrator e o = Done (Ok tt) ↔
  cosmos_address_parse (dke_orchestrator_address e) = Ok orchestrator ∧
  address_parse (dko_eth_address o) = Ok eth ∧
  dke_validator_address e = dko_validator_address o.
Proof.
  unfold compare_delegates. destruct (cosmos_address_parse _) as [a|]; [|naive_solver].
  destruct (address_parse _) as [b|]; [|naive_solver]. cbn [unwrap eval_bind].
  repeat case_bool_decide; destruct (String.eqb_spec (dke_validator_address e) (dko_validator_address o));
    simpl; split; intros Hx; try naive_solver; simplify_eq/=; destruct Hx as (? & ? & ?); congruence.
Qed.

Lemma compare_delegates_Err eth orchestrator e o err :
  compare_delegates eth orchestrator e o = Done (Err err) → ∃ s, err = UnrecoverableError s.
Proof.
  unfold compare_delegates. destruct (cosmos_address_parse _) as [a|]; [|done].
  destruct (address_parse _) as [b|]; [|done]. cbn [unwrap eval_bind]. repeat case_match; naive_solver.
Qed.

Lemma check_delegates_spec P A eth orchestrator prefix l :
  lenient P →
  sat P A (check_delegate_addresses eth orchestrator prefix) l (λ r l', l ⊆ l' ∧ spent l' = spent l ∧
    match r with
    | Ok _ => delegates_registered l' eth orchestrator prefix
    | Err e => ∃ s, e = UnrecoverableError s
    end).
Proof.
  intros HP. unfold check_delegate_addresses. apply sat_call_bind; [by apply HP|]. intros e _.
  apply sat_pure_bind; [intros; by apply HP|]. intros text Ht%unwrap_Done.
  apply sat_call_bind; [by apply HP|]. intros o _. set (l2 := _ ++ _).
  assert (l ⊆ l2 ∧ spent l2 = spent l) as [H1 H2].
  { unfold l2. split; [sub|by rewrite !spent_snoc]. }
  destruct e as [e|e], o as [o|o]; try (apply sat_ret; eauto).
  apply sat_pure; [intros; by apply HP|]. intros [[]|err] Hr; (split_and!; [done..|]).
  - apply compare_delegates_Ok in Hr as (Ho & He & Hv). exists text, e, o.
    split_and!; try done; unfold l2; solve_saw.
  - by apply compare_delegates_Err in Hr.
Qed.

(** [check_delegate_addresses] passes only if the chain, asked for the validator of each of the
    two addresses, names the other address and the same validator in both answers; every refusal is
    an unrecoverable error, and nothing is spent to find out. *)
Theorem delegates_checked eth orchestrator prefix :
  sat (on_send (λ _ _ _ _ _ _ _, False)) any_env (check_delegate_addresses eth orchestrator prefix) []
    (λ r l, match r with
            | Ok _ => delegates_registered l eth orchestrator prefix
            | Err e => ∃ s, e = UnrecoverableError s
            end).
Proof.
  eapply sat_mono; [apply check_delegates_spec, on_send_lenient|]. by intros r l (_ & _ & H).
Qed.

(** The node is past its last known block. *)
Definition node_moving l : Prop := ∃ h, saw l ContactGetChainStatus (Ok (Moving h)).

Lemma wait_ready_spec P A l :
  lenient P → sat P A wait_for_cosmos_node_ready l (λ _ l', l ⊆ l' ∧ spent l' = spent l ∧ node_moving l').
Proof.
  intros HP. apply sat_iter with (Inv := λ _ l', l ⊆ l' ∧ spent l' = spent l); [|done].
  intros _ l1 [Hl Hs]. apply sat_call_bind; [by apply HP|]. intros [[h| |]|e] _.
  2,3,4: apply sat_call_bind; [by apply HP|]; intros [] _; apply sat_ret;
    (split; [etrans; [exact Hl|sub]|by rewrite !spent_snoc]).
  apply sat_ret. split_and!; [etrans; [exact Hl|sub]|by rewrite spent_snoc|]. exists h. solve_saw.
Qed.

(** What [check_for_fee] accepts: the first balance whose denomination contains the fee's covers it. *)
Definition fee_covered (fee : Coin) (balances : list Coin) : Prop :=
  ∃ before balance after, balances = before ++ balance :: after ∧
    Forall (λ b, contains (denom b) (denom fee) = false) before ∧
    contains (denom balance) (denom fee) = true ∧ amount fee ≤ amount balance.

Lemma fee_in_Ok fee balances : fee_in fee balances = Ok tt ↔ fee_covered fee balances.
Proof.
  induction balances as [|b bs IH]; simpl.
  { split; [done|]. intros ([|] & ? & ? & ? & _); done. }
  destruct (contains (denom b) (denom fee)) eqn:Hc.
  - destruct (Z.ltb_spec (amount b) (amount fee)) as [Hlt|Hle]; split; try done.
    + intros ([|c pre] & x & post & [= <- ?] & Hf & _ & Ha); [lia|]. apply Forall_cons in Hf as [Hf _]. congruence.
    + intros _. by exists [], b, bs.
  - rewrite IH. split.
    + intros (pre & x & post & -> & Hf & Hx). exists (b :: pre), x, post. split_and!; [done|by constructor|naive_solver..].
    + intros ([|c pre] & x & post & [= <- ->] & Hf & Hx & Ha); [congruence|]. apply Forall_cons in Hf as [_ Hf].
      by exists pre, x, post.
Qed.

Definition fee_available l (fee : Coin) (own : CosmosAddress) : Prop :=
  ∃ balances, saw l (ContactGetBalances own) (Ok balances) ∧ fee_covered fee balances.
Definition has_ether l (own : EthAddress) : Prop := ∃ balance, saw l (EthGetBalance own) (Ok balance) ∧ balance ≠ 0.

Lemma check_for_fee_spec P A fee own l :
  lenient P →
  sat P A (check_for_fee fee own) l (λ r l', l ⊆ l' ∧ spent l' = spent l ∧ (r = Ok tt → fee_available l' fee own)).
Proof.
  intros HP. eapply sat_run; [by apply retry_call_spec|]. intros balances l1 ([Hl Hs] & Hb & _). apply sat_ret.
  split_and!; [done..|]. intros H%fee_in_Ok. by exists balances.
Qed.

Lemma check_for_eth_spec P A own l :
  lenient P →
  sat P A (check_for_eth own) l (λ r l', l ⊆ l' ∧ spent l' = spent l ∧ (r = Ok tt → has_ether l' own)).
Proof.
  intros HP. eapply sat_run; [by apply retry_call_spec|]. intros balance l1 ([Hl Hs] & Hb & _).
  destruct (Z.eqb_spec balance 0); apply sat_ret; split_and!; try done. intros _. by exists balance.
Qed.
End Checks.
