(* ===== verification/Relayer.v ===== *)
(** * The relayer: relayer/src

    find_latest_valset.rs, valset_relaying.rs, batch_relaying.rs, logic_call_relaying.rs and
    main_loop.rs: what moves validator sets, batches and logic calls from Cosmos to Ethereum. *)

From ITree Require Import ITree.
From S2P Require Import Prelude Bytes Proto External Float Instances Types Signatures Valset Batches.
From S2P Require Import LogicCall EthEvents Messages Effects Queries Submit.

Section Relayer.
Context `{X : Ext} `{BD : Build}.

(** ethereum_gravity/src/lib.rs *)
Definition one_eth : Uint256 := 1000000000000000000.

(** The [info!] line that prints a cost: its arguments can panic. *)
Definition log_cost (cost : GasCost) : eval unit :=
  if info_enabled then
    let! total := get_total cost in
    let! total := downcast_to_u128 total in
    let! total := unwrap_option total in
    let! one := downcast_to_u128 one_eth in
    let! one := unwrap_option one in
    Done tt
  else Done tt.

(** ** find_latest_valset.rs *)

Definition check_if_valsets_differ (cosmos_valset : option Valset) (ethereum_valset : Valset) : eval unit :=
  match cosmos_valset with
  | None => Done tt (* logged as bootstrapping, or as a possible highjacking *)
  | Some cosmos_valset =>
      if decide (cosmos_valset = ethereum_valset) then Done tt
      else rassert (valset_nonce cosmos_valset =? valset_nonce ethereum_valset) "assertion failed"
      (* the kind of difference is logged *)
  end.

Definition BLOCKS_TO_SEARCH : Z := 5000.

(** One turn of [find_latest_valset]'s loop, at [current_block > 0]: the next block to look from, or
    the result. *)
Definition search_window (gravity_contract_address : EthAddress) (current_block : Uint256) :
    io (Uint256 + result Valset GravityError) :=
  let* end_search :=
    pure (if current_block <? BLOCKS_TO_SEARCH then Done 0 else u256_sub current_block BLOCKS_TO_SEARCH) in
  let* all_valset_events := call (CheckForEvents end_search (Some current_block)
                                    [gravity_contract_address] VALSET_UPDATED_EVENT_SIG) in
  match all_valset_events with
  | Err e => Ret (inr (Err (of_web3_error e)))
  | Ok all_valset_events =>
      match reverse all_valset_events with
      | [] => Ret (inl end_search)
      | event :: _ =>
          let* event := pure (valset_updated_from_log event) in
          match event with
          | Err _ => Ret (inl end_search)
          | Ok event =>
              let latest_eth_valset := {|
                valset_nonce := vue_valset_nonce event;
                valset_members := vue_members event;
                valset_reward_amount := vue_reward_amount event;
                valset_reward_token := vue_reward_token event |} in
              let* cosmos_chain_valset := get_valset (valset_nonce latest_eth_valset) in
              match cosmos_chain_valset with
              | Err e => Ret (inr (Err e))
              | Ok cosmos_chain_valset =>
                  let* _ := pure (check_if_valsets_differ cosmos_chain_valset latest_eth_valset) in
                  Ret (inr (Ok latest_eth_valset))
              end
          end
      end
  end.

Definition find_latest_valset (gravity_contract_address : EthAddress) : io (result Valset GravityError) :=
  let*? latest_block := call EthBlockNumber via of_web3_error in
  ITree.iter (λ current_block,
    if 0 <? current_block then search_window gravity_contract_address current_block
    else panic "Could not find the last validator set for contract {}, probably not a valid Gravity contract!")
    latest_block.

(** ** valset_relaying.rs *)

(** One turn of the loop of [find_latest_valid_valset], at [latest_nonce > 0]. *)
Definition try_valset (current_valset : Valset) (gravity_id : string) (latest_nonce : Z)
    (last_error : option GravityError) :
    io ((Z * option GravityError) +
        (option Valset * option (list ValsetConfirmResponse) * option GravityError)) :=
  let next (last_error : option GravityError) :=
    let* latest_nonce := pure (u64_sub latest_nonce 1) in Ret (inl (latest_nonce, last_error)) in
  let* valset := get_valset latest_nonce in
  match valset with
  | Ok (Some valset) =>
      let* _ := pure (rassert (valset_nonce valset =? latest_nonce) "assertion failed") in
      let* confirms := get_all_valset_confirms latest_nonce in
      match confirms with
      | Ok confirms =>
          let* _ := pure (rassert (forallb (λ c, valset_nonce valset =? vcr_nonce c) confirms)
                            "assertion failed") in
          let hash := encode_valset_confirm_hashed gravity_id valset in
          let* res := pure (order_sigs current_valset hash confirms) in
          match res with
          | Ok _ => Ret (inr (Some valset, Some confirms, last_error))
          | Err e => next (Some e)
          end
      | Err _ => next last_error
      end
  | _ => next last_error
  end.

Definition find_latest_valid_valset (latest_nonce : Z) (current_valset : Valset) (gravity_id : string) :
    io (option Valset * option (list ValsetConfirmResponse) * option GravityError) :=
  ITree.iter (λ '(latest_nonce, last_error),
    if 0 <? latest_nonce then try_valset current_valset gravity_id latest_nonce last_error
    else Ret (inr (None, None, last_error))) (latest_nonce, None).

Definition valset_cost_error (ethereum_key : EthPrivateKey) (gravity_id : string)
    (gravity_contract_address : EthAddress) (latest_cosmos_valset : Valset)
    (latest_cosmos_confirmed : list ValsetConfirmResponse) (current_valset : Valset) : io unit :=
  let our_address := eth_key_to_address ethereum_key in
  let* current_valset_from_eth := get_valset_nonce gravity_contract_address our_address in
  match current_valset_from_eth with
  | Ok _ =>
      let hash := encode_valset_confirm_hashed gravity_id latest_cosmos_valset in
      let* payload := pure (let! r := encode_valset_update_payload latest_cosmos_valset current_valset
                              latest_cosmos_confirmed gravity_id in unwrap r) in
      Ret tt
  | Err _ => Ret tt
  end.

Definition should_relay_valset (valset : Valset) (ethereum_key : EthPrivateKey) (cost : GasCost) : io bool :=
  let* relaying_cost := pure (u256_mul (cost_gas cost) (cost_gas_price cost)) in
  let pub_key := eth_key_to_address ethereum_key in
  let reward := valset_reward_amount valset in
  match valset_reward_token valset with
  | None => Ret false
  | Some token_in =>
      let token_out := WETH_CONTRACT_ADDRESS in
      if decide (token_out = token_in) then
        let should_relay := relaying_cost <? reward in
        let sqrt_price_limit_x96_uint160 := 0 in
        if negb should_relay then
          let* value := call (GetUniswapPrice pub_key token_in token_out reward
                                (Some sqrt_price_limit_x96_uint160)) in
          match value with
          | Err _ => Ret should_relay
          | Ok val => Ret (relaying_cost <? val)
          end
        else Ret should_relay
      else Ret false
  end.

Definition relay_valid_valset (latest_cosmos_valset current_valset : Valset)
    (latest_cosmos_confirmed : list ValsetConfirmResponse) (gravity_contract_address : EthAddress)
    (gravity_id : string) (ethereum_key : EthPrivateKey) (timeout : Duration)
    (enable_relay_market : bool) : io unit :=
  let* cost := estimate_valset_cost latest_cosmos_valset current_valset latest_cosmos_confirmed
                 gravity_contract_address gravity_id ethereum_key in
  match cost with
  | Err _ => valset_cost_error ethereum_key gravity_id gravity_contract_address latest_cosmos_valset
               latest_cosmos_confirmed current_valset
  | Ok cost =>
      let* _ := pure (log_cost cost) in
      let* should_relay :=
        if enable_relay_market then should_relay_valset latest_cosmos_valset ethereum_key cost
        else Ret true in
      if should_relay : bool then
        let* _ := send_eth_valset_update latest_cosmos_valset current_valset latest_cosmos_confirmed
                    timeout gravity_contract_address gravity_id ethereum_key in
        Ret tt
      else Ret tt
  end.

Definition relay_valsets (current_valset : Valset) (ethereum_key : EthPrivateKey)
    (gravity_contract_address : EthAddress) (gravity_id : string) (timeout : Duration)
    (config : RelayerConfig) : io unit :=
  let* latest_valsets := get_latest_valsets in
  match latest_valsets with
  | Err _ | Ok [] => Ret tt
  | Ok (latest :: _) =>
      let* '(latest_valset, latest_confirmed, _) :=
        find_latest_valid_valset (valset_nonce latest) current_valset gravity_id in
      match latest_valset, latest_confirmed with
      | Some latest_cosmos_valset, Some latest_cosmos_confirmed =>
          if valset_nonce current_valset <? valset_nonce latest_cosmos_valset then
            relay_valid_valset latest_cosmos_valset current_valset latest_cosmos_confirmed
              gravity_contract_address gravity_id ethereum_key timeout (valset_market_enabled config)
          else Ret tt
      | _, _ => Ret tt
      end
  end.

(** ** batch_relaying.rs *)

Record SubmittableBatch := mkSubmittableBatch {
  sb_batch : TransactionBatch;
  sb_sigs : list BatchConfirmResponse;
}.

(** The body of the loop over the latest batches. *)
Definition sort_batch (current_valset : Valset) (gravity_id : string) (batch : TransactionBatch)
    (possible_batches : gmap EthAddress (list SubmittableBatch)) :
    io (gmap EthAddress (list SubmittableBatch)) :=
  let* signatures := get_transaction_batch_signatures (batch_nonce batch) (batch_token_contract batch) in
  match signatures with
  | Ok sigs =>
      let* hash := pure (encode_tx_batch_confirm_hashed gravity_id batch) in
      let* res := pure (order_sigs current_valset hash sigs) in
      if is_ok res then
        let list := default [] (possible_batches !! batch_token_contract batch) in
        Ret (<[batch_token_contract batch := list ++ [mkSubmittableBatch batch sigs]]> possible_batches)
      else Ret possible_batches
  | Err _ => Ret possible_batches
  end.

Definition get_batches_and_signatures (current_valset : Valset) (gravity_id : string) :
    io (gmap EthAddress (list SubmittableBatch)) :=
  let* latest_batches := get_latest_transaction_batches in
  match latest_batches with
  | Err _ => Ret ∅
  | Ok latest_batches =>
      let* possible_batches := for_each latest_batches (sort_batch current_valset gravity_id) ∅ in
      Ret (reverse <$> possible_batches)
  end.

Definition should_relay_batch (batch : TransactionBatch) (cost : Uint256) (pubkey : EthAddress) : io bool :=
  let batch_reward_amount := erc20_amount (batch_total_fee batch) in
  let batch_reward_token := erc20_token_contract_address (batch_total_fee batch) in
  if decide (batch_reward_token = WETH_CONTRACT_ADDRESS) then Ret (cost <? batch_reward_amount)
  else
    let* price := call (GetUniswapPrice pubkey batch_reward_token WETH_CONTRACT_ADDRESS
                          batch_reward_amount None) in
    match price with
    | Err _ => Ret false
    | Ok price => Ret (cost <? price)
    end.

(** The body of the loop over one token's batches; each [continue] returns. *)
Definition submit_batch (current_valset : Valset) (ethereum_key : EthPrivateKey)
    (gravity_contract_address : EthAddress) (gravity_id : string) (timeout : Duration)
    (config : RelayerConfig) (ethereum_block_height : Uint256) (latest_ethereum_batch : Z)
    (batch : SubmittableBatch) (_ : unit) : io unit :=
  let our_ethereum_address := eth_key_to_address ethereum_key in
  let oldest_signed_batch := sb_batch batch in
  let oldest_signatures := sb_sigs batch in
  let timeout_height := batch_timeout oldest_signed_batch in
  if timeout_height <? ethereum_block_height then Ret tt
  else
  let latest_cosmos_batch_nonce := batch_nonce oldest_signed_batch in
  if latest_ethereum_batch <? latest_cosmos_batch_nonce then
    let* cost := estimate_tx_batch_cost current_valset oldest_signed_batch oldest_signatures
                   gravity_contract_address gravity_id ethereum_key in
    match cost with
    | Err _ => Ret tt
    | Ok cost =>
        let* _ := pure (log_cost cost) in
        let* should_relay :=
          if batch_market_enabled config then
            let* total := pure (get_total cost) in
            should_relay_batch oldest_signed_batch total our_ethereum_address
          else Ret true in
        if should_relay : bool then
          let* res := send_eth_transaction_batch current_valset oldest_signed_batch oldest_signatures
                        timeout gravity_contract_address gravity_id ethereum_key in
          Ret tt
        else Ret tt
    end
  else Ret tt.

(** The future of one token type. *)
Definition submit_token_batches (current_valset : Valset) (ethereum_key : EthPrivateKey)
    (gravity_contract_address : EthAddress) (gravity_id : string) (timeout : Duration)
    (config : RelayerConfig) (ethereum_block_height : Uint256)
    (item : EthAddress * list SubmittableBatch) : io unit :=
  let '(erc20_contract, batches) := item in
  let* latest_ethereum_batch := get_tx_batch_nonce gravity_contract_address erc20_contract
                                  (eth_key_to_address ethereum_key) in
  match latest_ethereum_batch with
  | Err _ => Ret tt
  | Ok latest_ethereum_batch =>
      for_each batches (submit_batch current_valset ethereum_key gravity_contract_address gravity_id
                          timeout config ethereum_block_height latest_ethereum_batch) tt
  end.

Definition submit_batches (current_valset : Valset) (ethereum_key : EthPrivateKey)
    (gravity_contract_address : EthAddress) (gravity_id : string) (timeout : Duration)
    (possible_batches : gmap EthAddress (list SubmittableBatch)) (config : RelayerConfig) : io unit :=
  let* bn := call EthBlockNumber in
  match bn with
  | Err _ => Ret tt
  | Ok ethereum_block_height =>
      concurrent 2 (submit_token_batches current_valset ethereum_key gravity_contract_address gravity_id
                      timeout config ethereum_block_height <$> hash_order (map_to_list possible_batches))
  end.

Definition relay_batches (current_valset : Valset) (ethereum_key : EthPrivateKey)
    (gravity_contract_address : EthAddress) (gravity_id : string) (timeout : Duration)
    (config : RelayerConfig) : io unit :=
  let* possible_batches := get_batches_and_signatures current_valset gravity_id in
  submit_batches current_valset ethereum_key gravity_contract_address gravity_id timeout
    possible_batches config.

(** ** logic_call_relaying.rs *)

(** The loop that totals the fees by token. *)
Fixpoint total_rewards (fees : list Erc20Token) (rewards : gmap EthAddress Uint256) :
    eval (gmap EthAddress Uint256) :=
  match fees with
  | [] => Done rewards
  | fee :: fees =>
      let reward_token := erc20_token_contract_address fee in
      let reward_amount := erc20_amount fee in
      let! total := u256_add (default 0 (rewards !! reward_token)) reward_amount in
      total_rewards fees (<[reward_token := total]> rewards)
  end.

(** The loop over the totals, with its early return. *)
Fixpoint enough_reward (our_address : EthAddress) (cost : Uint256) (rewards : list (EthAddress * Uint256))
    (total_weth_reward : Uint256) : io bool :=
  match rewards with
  | [] => Ret false
  | (token, total) :: rewards =>
      let check (total_weth_reward : Uint256) : io bool :=
        if cost <? total_weth_reward then Ret true
        else enough_reward our_address cost rewards total_weth_reward in
      if decide (token = WETH_CONTRACT_ADDRESS) then
        let* total_weth_reward := pure (u256_add total_weth_reward total) in
        check total_weth_reward
      else
        let* weth_equiv := call (GetUniswapPrice our_address token WETH_CONTRACT_ADDRESS total None) in
        match weth_equiv with
        | Err _ => enough_reward our_address cost rewards total_weth_reward
        | Ok weth_equiv =>
            let* total_weth_reward := pure (u256_add total_weth_reward weth_equiv) in
            check total_weth_reward
        end
  end.

Definition should_relay_logic_call (our_address : EthAddress) (logic_call : LogicCall) (cost : Uint256) :
    io bool :=
  let* rewards := pure (total_rewards (call_fees logic_call) ∅) in
  enough_reward our_address cost (hash_order (map_to_list rewards)) 0.

(** The body of the loop over the latest calls; the last one that can be submitted wins. *)
Definition sort_call (current_valset : Valset) (gravity_id : string) (c : LogicCall)
    (oldest_signed : option (LogicCall * list LogicCallConfirmResponse)) :
    io (option (LogicCall * list LogicCallConfirmResponse)) :=
  let* sigs := get_logic_call_signatures (call_invalidation_id c) (call_invalidation_nonce c) in
  match sigs with
  | Ok sigs =>
      let hash := encode_logic_call_confirm_hashed gravity_id c in
      let* res := pure (order_sigs current_valset hash sigs) in
      if is_ok res then Ret (Some (c, sigs)) else Ret oldest_signed
  | Err _ => Ret oldest_signed
  end.

Definition relay_logic_calls (current_valset : Valset) (ethereum_key : EthPrivateKey)
    (gravity_contract_address : EthAddress) (gravity_id : string) (timeout : Duration)
    (config : RelayerConfig) : io unit :=
  let our_ethereum_address := eth_key_to_address ethereum_key in
  let* latest_calls := get_latest_logic_calls in
  match latest_calls with
  | Err _ => Ret tt
  | Ok latest_calls =>
  let* oldest_signed := for_each latest_calls (sort_call current_valset gravity_id) None in
  match oldest_signed with
  | None => Ret tt
  | Some (oldest_signed_call, oldest_signatures) =>
  let* latest_ethereum_call := get_logic_call_nonce gravity_contract_address
                                 (call_invalidation_id oldest_signed_call) our_ethereum_address in
  match latest_ethereum_call with
  | Err _ => Ret tt
  | Ok latest_ethereum_call =>
      let latest_cosmos_call_nonce := call_invalidation_nonce oldest_signed_call in
      if latest_ethereum_call <? latest_cosmos_call_nonce then
        let* cost := estimate_logic_call_cost current_valset oldest_signed_call oldest_signatures
                       gravity_contract_address gravity_id ethereum_key in
        match cost with
        | Err _ => Ret tt
        | Ok cost =>
            let* _ := pure (log_cost cost) in
            let* should_relay :=
              if logic_call_market_enabled config then
                let* total := pure (get_total cost) in
                should_relay_logic_call our_ethereum_address oldest_signed_call total
              else Ret true in
            if should_relay : bool then
              let* res := send_eth_logic_call current_valset oldest_signed_call oldest_signatures
                            timeout gravity_contract_address gravity_id ethereum_key in
              Ret tt
            else Ret tt
        end
      else Ret tt
  end
  end
  end.

(** ** main_loop.rs *)

Definition LOOP_SPEED : Duration := 17.

(** The future that does one round's work; it always yields [Ok(())]. *)
Definition relay_once (ethereum_key : EthPrivateKey) (gravity_contract_address : EthAddress)
    (gravity_id : string) (relayer_config : RelayerConfig) : io unit :=
  let* current_valset := find_latest_valset gravity_contract_address in
  match current_valset with
  | Err _ => Ret tt
  | Ok current_valset =>
      let* _ := relay_valsets current_valset ethereum_key gravity_contract_address gravity_id
                  LOOP_SPEED relayer_config in
      let* _ := relay_batches current_valset ethereum_key gravity_contract_address gravity_id
                  LOOP_SPEED relayer_config in
      relay_logic_calls current_valset ethereum_key gravity_contract_address gravity_id
        LOOP_SPEED relayer_config
  end.

(** [tokio::join!] of the round's work and the sleep: both to their end, interleaved. *)
Definition relayer_main_loop (ethereum_key : EthPrivateKey) (gravity_contract_address : EthAddress)
    (relayer_config : RelayerConfig) (wait_time : option Duration) : io (result unit GravityError) :=
  let our_ethereum_address := eth_key_to_address ethereum_key in
  let* gravity_id := get_gravity_id_with_retry gravity_contract_address our_ethereum_address wait_time in
  match gravity_id with
  | Err _ => Ret (Err (UnrecoverableError "Failed to get GravityID, check your ethereum node"))
  | Ok gravity_id =>
      ITree.iter (λ _ : unit,
        let* _ := concurrent 2 [relay_once ethereum_key gravity_contract_address gravity_id relayer_config;
                                call (Sleep LOOP_SPEED)] in
        Ret (inl tt)) tt
  end.
End Relayer.
