(* ===== verification/RelayerSearch.v ===== *)
(** * The relayer's searches

    What [find_latest_valset], [find_latest_valid_valset] and the loops over the chain's batches and
    logic calls return, in terms of what the nodes answered: the set the contract holds, and the sets,
    batches and calls that enough of its power has signed. *)

From ITree Require Import ITree.
From S2P Require Import Prelude Bytes Proto External Float Instances Types Signatures Valset.
From S2P Require Import ValsetTheory Batches LogicCall EthEvents Messages Effects Queries.
From S2P Require Import Submit SubmitTheory Join Relayer.

(** ** The current set *)

Section Current.
Context `{X : Ext} `{BD : Build}.
Implicit Types (l : log) (P : spec) (A : env).

Definition valset_of_event (ev : ValsetUpdatedEvent) : Valset := {|
  valset_nonce := vue_valset_nonce ev; valset_members := vue_members ev;
  valset_reward_amount := vue_reward_amount ev; valset_reward_token := vue_reward_token ev |}.

Definition saw_window l (g : EthAddress) (from to : Uint256) (logs : list Log) : Prop :=
  saw l (CheckForEvents from (Some to) [g] VALSET_UPDATED_EVENT_SIG) (Ok logs).

(** Where the window that ends at [current] starts. *)
Definition window_start (current : Uint256) : eval Uint256 :=
  if current <? BLOCKS_TO_SEARCH then Done 0 else u256_sub current BLOCKS_TO_SEARCH.

(** The blocks from [from] down to [to] were walked, window by window, and no window's last event
    decodes. *)
Inductive walked l (g : EthAddress) : Uint256 → Uint256 → Prop :=
  | walked_none from : walked l g from from
  | walked_window from mid to logs :
      walked l g from mid → 0 < mid → window_start mid = Done to → saw_window l g to mid logs →
      (∀ lg, last logs = Some lg → ∃ e, valset_updated_from_log lg = Done (Err e)) →
      walked l g from to.

(** The set of the last event of the first window, walking back from the reported block, whose last
    event decodes. *)
Definition saw_current l (g : EthAddress) (vs : Valset) : Prop :=
  ∃ latest mid to logs lg ev, saw_block l latest ∧ walked l g latest mid ∧ window_start mid = Done to ∧
    saw_window l g to mid logs ∧ last logs = Some lg ∧ valset_updated_from_log lg = Done (Ok ev) ∧
    vs = valset_of_event ev.

Lemma walked_sub l l' g a b : l ⊆ l' → walked l g a b → walked l' g a b.
Proof. intros H. induction 1; [constructor|]. econstructor; [done|done|done|by apply H|done]. Qed.
Lemma saw_current_sub l l' g vs : l ⊆ l' → saw_current l g vs → saw_current l' g vs.
Proof.
  intros H (latest & mid & to & logs & lg & ev & Hb & Hw & Hs & Hl & Hr). exists latest, mid, to, logs, lg, ev.
  split_and!; [by apply H|by eapply walked_sub|done|by apply H|apply Hr..].
Qed.

Lemma search_window_spec P A g latest current l :
  lenient P → 0 < current → saw_block l latest → walked l g latest current →
  sat P A (search_window g current) l (λ r l', l ⊆ l' ∧ match r with
    | inl next => walked l' g latest next
    | inr (Ok vs) => saw_current l' g vs
    | inr (Err _) => True
    end).
Proof.
  intros HP Hc Hb Hs. unfold search_window. fold (window_start current).
  apply sat_pure_bind; [intros; by apply HP|]. intros to Hto.
  apply sat_call_bind; [by apply HP|]. intros [logs|err] _; [|apply sat_ret; by split; [sub|]].
  set (l1 := _ ++ _). assert (l ⊆ l1) as Hl1 by sub.
  assert (saw_window l1 g to current logs) as Hw by (unfold l1, saw_window; solve_saw).
  destruct (reverse logs) as [|lg rest] eqn:El.
  - apply sat_ret. split; [done|]. eapply walked_window; [by eapply walked_sub|done|done|done|].
    intros lg. rewrite <- head_reverse, El. done.
  - assert (last logs = Some lg) as Hlast by (by rewrite <- head_reverse, El).
    apply sat_pure_bind; [intros; by apply HP|]. intros [ev|err] Hev.
    + cbv zeta. eapply sat_run; [by apply quiet_get_valset|]. intros [c|err] l2 [Hl2 _].
      2: { apply sat_ret. split; [by etrans|done]. }
      apply sat_pure_bind; [intros; by apply HP|]. intros _ _. apply sat_ret. split; [by etrans|].
      apply (saw_current_sub l1); [done|]. exists latest, current, to, logs, lg, ev.
      split_and!; [by apply Hl1|by eapply walked_sub|done..].
    + apply sat_ret. split; [done|]. eapply walked_window; [by eapply walked_sub|done|done|done|].
      intros lg'. rewrite Hlast. intros [= <-]. eauto.
Qed.

Lemma find_latest_valset_spec P A g l : lenient P →
  sat P A (find_latest_valset g) l (λ r l', ∀ vs, r = Ok vs → saw_current l' g vs).
Proof.
  intros HP. unfold find_latest_valset. apply sat_call_try; [by apply HP| |done]. intros latest _.
  apply sat_iter with (Inv := λ current l, saw_block l latest ∧ walked l g latest current);
    [|split; [solve_saw|constructor]].
  intros current l' [Hb Hw]. destruct (Z.ltb_spec 0 current); [|apply sat_panic; by apply HP].
  eapply sat_mono; [by apply (search_window_spec _ _ g latest)|].
  intros [next|[vs|e]] l'' [Hl H']; [|by intros ? [= <-]|done]. split; [by apply Hl|done].
Qed.

(** The block numbers of the node are [Uint256]s. *)
Definition block_env : env := λ R e,
  match e in callE R return R → Prop with
  | EthBlockNumber => λ r, match r with Ok h => 0 ≤ h ≤ U256_MAX | Err _ => True end
  | _ => λ _, True
  end.

(** The blocks from [from] down to [to] were searched, window by window, and hold no event that
    decodes in the last place of its window. *)
Inductive searched l (g : EthAddress) : Uint256 → Uint256 → Prop :=
  | searched_none from : searched l g from from
  | searched_window from mid to logs :
      searched l g from mid → 0 < mid → to = Z.max 0 (mid - BLOCKS_TO_SEARCH) →
      saw_window l g to mid logs →
      (∀ lg, last logs = Some lg → ∃ e, valset_updated_from_log lg = Done (Err e)) →
      searched l g from to.

Lemma window_start_eq `{XL : !ExtLaws X} current : 0 ≤ current ≤ U256_MAX →
  window_start current = Done (Z.max 0 (current - BLOCKS_TO_SEARCH)).
Proof.
  intros Hc. unfold window_start, BLOCKS_TO_SEARCH. destruct (Z.ltb_spec current 5000); [f_equal; lia|].
  rewrite law_u256_sub by lia. f_equal. lia.
Qed.

Lemma walked_searched `{XL : !ExtLaws X} l g from to :
  0 ≤ from ≤ U256_MAX → walked l g from to → searched l g from to ∧ 0 ≤ to ≤ from.
Proof.
  intros Hf. induction 1 as [from|from mid to logs _ IH Hmid Hto Hw Hnone]; [split; [apply searched_none|lia]|].
  destruct (IH Hf) as [Hs Hm]. rewrite window_start_eq in Hto by lia. injection Hto as <-. split.
  - by eapply searched_window.
  - unfold BLOCKS_TO_SEARCH. lia.
Qed.

(** What the log tells of the set found. *)
Definition found_set l (g : EthAddress) (vs : Valset) : Prop :=
  ∃ latest mid to logs lg ev, saw_block l latest ∧ searched l g latest mid ∧
    to = Z.max 0 (mid - BLOCKS_TO_SEARCH) ∧ saw_window l g to mid logs ∧ last logs = Some lg ∧
    valset_updated_from_log lg = Done (Ok ev) ∧ vs = valset_of_event ev.

Lemma saw_current_found `{XL : !ExtLaws X} l g vs :
  (∀ latest, saw_block l latest → 0 ≤ latest ≤ U256_MAX) → saw_current l g vs → found_set l g vs.
Proof.
  intros Hlatest (latest & mid & to & logs & lg & ev & Hb & Hw & Hto & Hrest).
  destruct (walked_searched l g latest mid (Hlatest _ Hb) Hw) as [Hs Hmid].
  specialize (Hlatest latest Hb). rewrite window_start_eq in Hto by lia. injection Hto as <-.
  by exists latest, mid, (Z.max 0 (mid - BLOCKS_TO_SEARCH)), logs, lg, ev.
Qed.

Lemma find_latest_valset_covers `{XL : !ExtLaws X} g :
  sat (λ _ _ _, True) block_env (find_latest_valset g) [] (λ r l, ∀ vs, r = Ok vs → found_set l g vs).
Proof.
  assert (lenient (λ R (_ : callE R) _, True)) as HP by done.
  eapply sat_mono; [eapply sat_spec_mono;
    [|apply sat_answered; [apply Forall_nil_2|apply (find_latest_valset_spec _ _ g [] HP)]]|].
  - done.
  - intros r l [Hf Ha] vs Hvs. apply saw_current_found; [|by apply Hf]. intros latest Hl.
    unfold answered in Ha. rewrite Forall_forall in Ha. apply (Ha _ Hl).
Qed.

(** C32: [find_latest_valset] returns the set of the last event of the first window, walking back from
    the latest block in contiguous windows of 5000 blocks, whose last event decodes: every later
    window was asked for, and is empty or ends in an event that does not decode. *)
Theorem find_latest_valset_latest `{XL : !ExtLaws X} g :
  sat (λ _ _ _, True) block_env (find_latest_valset g) []
    (λ r l, ∀ vs, r = Ok vs →
       ∃ latest mid to logs lg ev, saw_block l latest ∧ searched l g latest mid ∧
         to = Z.max 0 (mid - BLOCKS_TO_SEARCH) ∧ saw_window l g to mid logs ∧ last logs = Some lg ∧
         valset_updated_from_log lg = Done (Ok ev) ∧ vs = valset_of_event ev).
Proof. apply find_latest_valset_covers. Qed.
End Current.

(** ** The searches *)

Section Searches.
Context `{X : Ext} `{BD : Build}.
Implicit Types (l : log) (P : spec) (A : env).

(** Why a nonce was passed over by [find_latest_valid_valset]. *)
Definition valset_refused l (current : Valset) (id : string) (n : Z) : Prop :=
  (∃ e, saw l (QValsetRequest n) (Err e)) ∨ saw l (QValsetRequest n) (Ok None) ∨
  ∃ p vs, saw l (QValsetRequest n) (Ok (Some p)) ∧ valset_from_proto p = Done vs ∧
    ((∃ e, saw l (QValsetConfirmsByNonce n) (Err e)) ∨
     ∃ cs, saw l (QValsetConfirmsByNonce n) (Ok cs) ∧
       ((∃ e, try_map (λ c, Done (valset_confirm_try_from c)) cs = Done (Err e)) ∨
        ∃ confirms e, try_map (λ c, Done (valset_confirm_try_from c)) cs = Done (Ok confirms) ∧
          order_sigs current (encode_valset_confirm_hashed id vs) confirms = Done (Err e))).

(** What makes a set submittable: enough of the current set's power has signed it. *)
Definition valset_submittable l (current : Valset) (id : string) (vs : Valset)
    (confirms : list ValsetConfirmResponse) : Prop :=
  (∃ p, saw l (QValsetRequest (valset_nonce vs)) (Ok (Some p)) ∧ valset_from_proto p = Done vs) ∧
  (∃ cs, saw l (QValsetConfirmsByNonce (valset_nonce vs)) (Ok cs) ∧
     try_map (λ c, Done (valset_confirm_try_from c)) cs = Done (Ok confirms)) ∧
  Forall (λ c, vcr_nonce c = valset_nonce vs) confirms ∧
  ∃ sigs, order_sigs current (encode_valset_confirm_hashed id vs) confirms = Done (Ok sigs).

Lemma valset_refused_sub l l' c id n : l ⊆ l' → valset_refused l c id n → valset_refused l' c id n.
Proof.
  intros H [(e & He)|[He|(p & vs & Hp & Hv & Hr)]].
  - left. exists e. by apply H.
  - right; left. by apply H.
  - right; right. exists p, vs. split_and!; [by apply H|done|].
    destruct Hr as [(e & He)|(cs & Hc & Hr)]; [left; exists e; by apply H|right; exists cs].
    split; [by apply H|done].
Qed.

Lemma get_valset_spec P A n l : lenient P →
  sat P A (get_valset n) l (λ r l', l ⊆ l' ∧ match r with
    | Ok (Some vs) => ∃ p, saw l' (QValsetRequest n) (Ok (Some p)) ∧ valset_from_proto p = Done vs
    | Ok None => saw l' (QValsetRequest n) (Ok None)
    | Err _ => ∃ e, saw l' (QValsetRequest n) (Err e)
    end).
Proof.
  intros HP. unfold get_valset. apply sat_call_try; [by apply HP| |].
  - intros [p|] _.
    + apply sat_pure_bind; [intros; by apply HP|]. intros vs Hv. apply sat_ret. split; [sub|].
      exists p. split; [solve_saw|done].
    + apply sat_ret. split; [sub|solve_saw].
  - intros e _. split; [sub|]. exists e. solve_saw.
Qed.

Lemma get_confirms_spec P A n l : lenient P →
  sat P A (get_all_valset_confirms n) l (λ r l', l ⊆ l' ∧ match r with
    | Ok confirms => ∃ cs, saw l' (QValsetConfirmsByNonce n) (Ok cs) ∧
        try_map (λ c, Done (valset_confirm_try_from c)) cs = Done (Ok confirms)
    | Err e => (∃ e, saw l' (QValsetConfirmsByNonce n) (Err e)) ∨
        ∃ cs, saw l' (QValsetConfirmsByNonce n) (Ok cs) ∧
          try_map (λ c, Done (valset_confirm_try_from c)) cs = Done (Err e)
    end).
Proof.
  intros HP. unfold get_all_valset_confirms. apply sat_call_try; [by apply HP| |].
  - intros cs _. apply sat_pure; [intros; by apply HP|]. intros [confirms|e] Hc; (split; [sub|]).
    + exists cs. split; [solve_saw|done].
    + right. exists cs. split; [solve_saw|done].
  - intros e _. split; [sub|]. left. exists e. solve_saw.
Qed.

(** One turn of the search: the nonce's set is submittable, or it is refused. *)
Definition turned l (current : Valset) (id : string) (n : Z)
    (r : (Z * option GravityError) +
         (option Valset * option (list ValsetConfirmResponse) * option GravityError)) l' : Prop :=
  l ⊆ l' ∧ match r with
  | inl (n', _) => u64_sub n 1 = Done n' ∧ valset_refused l' current id n
  | inr (Some vs, Some confirms, _) => valset_nonce vs = n ∧ valset_submittable l' current id vs confirms
  | inr _ => False
  end.

Lemma try_valset_spec P A current id n err l : lenient P →
  sat P A (try_valset current id n err) l (turned l current id n).
Proof.
  intros HP. unfold try_valset. cbv zeta.
  assert (∀ (e : option GravityError) l1, l ⊆ l1 → valset_refused l1 current id n →
    sat P A (let* latest_nonce := pure (u64_sub n 1) in Ret (inl (latest_nonce, e))) l1
      (turned l current id n)) as Hnext.
  { intros e l1 Hl Hr. apply sat_pure_bind; [intros; by apply HP|]. intros m Hm. by apply sat_ret. }
  eapply sat_run; [by apply get_valset_spec|]. intros [[vs|]|e] l1 [Hl1 Hv].
  - destruct Hv as (p & Hp & Hvs). apply sat_pure_bind; [intros; by apply HP|].
    intros u Hn1. unfold rassert in Hn1. destruct (Z.eqb_spec (valset_nonce vs) n) as [E|]; [|done].
    eapply sat_run; [by apply get_confirms_spec|]. intros [confirms|e] l2 [Hl2 Hc].
    + destruct Hc as (cs & Hcs & Hmap). apply sat_pure_bind; [intros; by apply HP|].
      intros u' Hall. unfold rassert in Hall. destruct (forallb _ confirms) eqn:Hf; [|done].
      apply sat_pure_bind; [intros; by apply HP|]. intros [sigs|e] Ho.
      * apply sat_ret. split; [by etrans|]. split; [done|]. split_and!.
        -- exists p. rewrite E. split; [by apply Hl2|done].
        -- exists cs. by rewrite E.
        -- apply Forall_forall. intros c Hin. rewrite forallb_forall in Hf.
           specialize (Hf c). rewrite Z.eqb_eq in Hf. symmetry. apply Hf. by apply list_elem_of_In.
        -- by exists sigs.
      * apply Hnext; [by etrans|]. right; right. exists p, vs. split_and!; [by apply Hl2|done|].
        right. exists cs. split; [done|]. right. by exists confirms, e.
    + apply Hnext; [by etrans|]. right; right. exists p, vs. split_and!; [by apply Hl2|done|].
      destruct Hc as [?|(cs & Hcs & Hmap)]; [by left|right]. exists cs. split; [done|]. left. by exists e.
  - apply Hnext; [done|]. by right; left.
  - apply Hnext; [done|]. by left.
Qed.

(** Wherever the search starts and whatever was seen before. *)
Lemma find_latest_valid_valset_spec P A latest current id l : lenient P →
  sat P A (find_latest_valid_valset latest current id) l (λ r l', l ⊆ l' ∧ match r with
    | (Some vs, Some confirms, _) => valset_submittable l' current id vs confirms
    | _ => True
    end).
Proof.
  intros HP. eapply sat_extends, sat_iter with (Inv := λ _ _, True); [|done]. intros [n err] l' _.
  destruct (0 <? n); [|by apply sat_ret]. eapply sat_mono; [by apply try_valset_spec|].
  intros [[n' e']|[[[vs|] [confirms|]] e']] l'' [_ Hr]; try done. apply Hr.
Qed.

(** C28: [find_latest_valid_valset] returns the submittable validator set with the greatest nonce up
    to the one it starts from: every greater nonce was asked for and refused; and if it returns
    none, every nonce was. *)
Theorem find_latest_valid_valset_greatest latest current id :
  is_u64 latest →
  sat (λ _ _ _, True) any_env (find_latest_valid_valset latest current id) []
    (λ r l, match r with
     | (Some vs, Some confirms, _) => 0 < valset_nonce vs ≤ latest ∧
         valset_submittable l current id vs confirms ∧
         ∀ n, valset_nonce vs < n ≤ latest → valset_refused l current id n
     | (None, None, _) => ∀ n, 0 < n ≤ latest → valset_refused l current id n
     | _ => False
     end).
Proof.
  intros Hu. unfold find_latest_valid_valset.
  apply sat_iter with (Inv := λ s l, 0 ≤ s.1 ≤ latest ∧
    ∀ n, s.1 < n ≤ latest → valset_refused l current id n).
  2: { unfold is_u64 in Hu. simpl. split; [lia|]. intros n Hn. lia. }
  intros [n err] l [Hn Href]. simpl in Hn, Href. destruct (Z.ltb_spec 0 n) as [Hpos|].
  - eapply sat_mono; [by apply try_valset_spec|].
    intros [[n' e']|[[[vs|] [confirms|]] e']] l' [Hl' Hr]; try done; try (by destruct Hr).
    + destruct Hr as [Hn' Hr]. unfold u64_sub in Hn'. rewrite u64_wrap_ok in Hn' by (unfold is_u64 in *; lia).
      injection Hn' as <-. simpl. split; [lia|]. intros m Hm.
      destruct (decide (m = n)) as [->|]; [done|]. eapply valset_refused_sub; [done|]. apply Href. lia.
    + destruct Hr as [<- Hs]. split_and!; [lia|lia|done|].
      intros m Hm. eapply valset_refused_sub; [done|]. by apply Href.
  - apply sat_ret. intros m Hm. apply Href. lia.
Qed.

(** A batch with its signatures is submittable: enough of the current set's power has signed it. *)
Definition batch_submittable l (current : Valset) (id : string) (sb : SubmittableBatch) : Prop :=
  let b := sb_batch sb in
  ∃ cs hash sigs,
    saw l (QBatchConfirms (batch_nonce b) (address_to_string (batch_token_contract b))) (Ok cs) ∧
    try_map batch_confirm_try_from cs = Done (Ok (sb_sigs sb)) ∧
    encode_tx_batch_confirm_hashed id b = Done hash ∧ order_sigs current hash (sb_sigs sb) = Done (Ok sigs).

(** Why a batch was passed over. *)
Definition batch_refused l (current : Valset) (id : string) (b : TransactionBatch) : Prop :=
  (∃ e, saw l (QBatchConfirms (batch_nonce b) (address_to_string (batch_token_contract b))) (Err e)) ∨
  ∃ cs, saw l (QBatchConfirms (batch_nonce b) (address_to_string (batch_token_contract b))) (Ok cs) ∧
    ((∃ e, try_map batch_confirm_try_from cs = Done (Err e)) ∨
     ∃ confirms hash e, try_map batch_confirm_try_from cs = Done (Ok confirms) ∧
       encode_tx_batch_confirm_hashed id b = Done hash ∧ order_sigs current hash confirms = Done (Err e)).

Lemma batch_submittable_sub l l' c id sb : l ⊆ l' → batch_submittable l c id sb → batch_submittable l' c id sb.
Proof. intros H (cs & hash & sigs & Hs & Hr). exists cs, hash, sigs. split; [by apply H|done]. Qed.
Lemma batch_refused_sub l l' c id b : l ⊆ l' → batch_refused l c id b → batch_refused l' c id b.
Proof.
  intros H [(e & He)|(cs & Hs & Hr)]; [left; exists e; by apply H|right].
  exists cs. split; [by apply H|done].
Qed.

(** What the loop of [get_batches_and_signatures] has sorted after the batches [done]. *)
Definition sorted_batches (current : Valset) (id : string) (done : list TransactionBatch)
    (m : gmap EthAddress (list SubmittableBatch)) l : Prop :=
  (∀ token bs, m !! token = Some bs →
     (sb_batch <$> bs) `sublist_of` filter (λ b, batch_token_contract b = token) done ∧
     Forall (batch_submittable l current id) bs) ∧
  ∀ b, b ∈ done →
    (∃ bs, m !! batch_token_contract b = Some bs ∧ b ∈ sb_batch <$> bs) ∨ batch_refused l current id b.

Lemma sorted_batches_sub c id done m l l' : l ⊆ l' →
  sorted_batches c id done m l → sorted_batches c id done m l'.
Proof.
  intros H [H1 H2]. split.
  - intros token bs Hm. destruct (H1 token bs Hm) as [Hs Hf]. split; [assumption|].
    eapply Forall_impl; [exact Hf|]. intros sb. by apply batch_submittable_sub.
  - intros b Hb. destruct (H2 b Hb) as [?|?]; [by left|right]. by eapply batch_refused_sub.
Qed.

Lemma sorted_batches_refuse c id done m l b :
  sorted_batches c id done m l → batch_refused l c id b → sorted_batches c id (done ++ [b]) m l.
Proof.
  intros [H1 H2] Hb. split.
  - intros token bs Hm. destruct (H1 token bs Hm) as [Hs Hf]. split; [|assumption].
    rewrite filter_app. by apply sublist_inserts_r.
  - intros b' [Hin|Hin%list_elem_of_singleton]%elem_of_app; [by apply H2|subst; by right].
Qed.

Lemma sorted_batches_add c id done m l sb :
  let token := batch_token_contract (sb_batch sb) in
  sorted_batches c id done m l → batch_submittable l c id sb →
  sorted_batches c id (done ++ [sb_batch sb]) (<[token := default [] (m !! token) ++ [sb]]> m) l.
Proof.
  intros token [H1 H2] Hb. split.
  - intros t bs. destruct (decide (t = token)) as [->|Hne].
    + rewrite lookup_insert_eq. intros [= <-]. rewrite fmap_app, filter_app.
      rewrite (filter_cons_True _ (sb_batch sb) []) by reflexivity.
      destruct (m !! token) as [bs|] eqn:Em; simpl.
      * destruct (H1 token bs Em) as [Hs Hf]. split; [by apply sublist_app|].
        apply Forall_app. by split; [|apply Forall_singleton].
      * split; [by apply sublist_inserts_l|by apply Forall_singleton].
    + rewrite lookup_insert_ne by congruence. intros Hm. destruct (H1 t bs Hm) as [Hs Hf].
      split; [|assumption]. rewrite filter_app. by apply sublist_inserts_r.
  - intros b Hin. destruct (decide (batch_token_contract b = token)) as [E|Hne].
    + apply elem_of_app in Hin as [Hin| ->%list_elem_of_singleton].
      * destruct (H2 b Hin) as [(bs & Hm & Hbs)|?]; [left|by right]. rewrite E in Hm |- *.
        rewrite lookup_insert_eq, Hm. eexists. split; [reflexivity|]. rewrite fmap_app.
        apply elem_of_app. by left.
      * left. fold token. rewrite lookup_insert_eq. eexists. split; [reflexivity|]. rewrite fmap_app.
        apply elem_of_app. right. by left.
    + rewrite lookup_insert_ne by congruence.
      apply elem_of_app in Hin as [Hin| ->%list_elem_of_singleton]; [by apply H2|by destruct Hne].
Qed.

Lemma sort_batch_spec P A current id done m b l : lenient P →
  sorted_batches current id done m l →
  sat P A (sort_batch current id b m) l (λ m' l', l ⊆ l' ∧ sorted_batches current id (done ++ [b]) m' l').
Proof.
  intros HP Hm. unfold sort_batch.
  eapply sat_run with (Q0 := λ r l', l ⊆ l' ∧ match r with
    | Ok sigs => ∃ cs, saw l' (QBatchConfirms (batch_nonce b) (address_to_string (batch_token_contract b))) (Ok cs) ∧
        try_map batch_confirm_try_from cs = Done (Ok sigs)
    | Err _ => batch_refused l' current id b
    end).
  { unfold get_transaction_batch_signatures. apply sat_call_try; [by apply HP| |].
    - intros cs _. apply sat_pure; [intros; by apply HP|]. intros [sigs|e] Hc; (split; [sub|]).
      + exists cs. split; [solve_saw|assumption].
      + right. exists cs. split; [solve_saw|]. left. by exists e.
    - intros e _. split; [sub|]. left. exists e. solve_saw. }
  intros [sigs|e] l1 [Hl Hr].
  - destruct Hr as (cs & Hcs & Hmap). apply sat_pure_bind; [intros; by apply HP|]. intros hash Hh.
    apply sat_pure_bind; [intros; by apply HP|]. intros [res|e] Ho; simpl; apply sat_ret; (split; [assumption|]).
    + apply (sorted_batches_add current id done m l1 (mkSubmittableBatch b sigs));
        [by eapply sorted_batches_sub|]. by exists cs, hash, res.
    + apply sorted_batches_refuse; [by eapply sorted_batches_sub|]. right. exists cs. split; [assumption|].
      right. by exists sigs, hash, e.
  - apply sat_ret. split; [assumption|]. apply sorted_batches_refuse; [by eapply sorted_batches_sub|assumption].
Qed.

Lemma get_batches_spec P A current id l : lenient P →
  sat P A (get_batches_and_signatures current id) l
    (λ m l', l ⊆ l' ∧ ((m = ∅ ∧ ∃ r e, saw l' QOutgoingTxBatches r ∧ (∀ protos, r = Ok protos → try_map batch_try_from protos = Done (Err e))) ∨ ∃ protos batches,
       saw l' QOutgoingTxBatches (Ok protos) ∧ try_map batch_try_from protos = Done (Ok batches) ∧
       sorted_batches current id batches (reverse <$> m) l')).
Proof.
  intros HP. apply sat_extends. unfold get_batches_and_signatures.
  eapply sat_run with (Q0 := λ r l, match r with
    | Ok batches => ∃ protos, saw l QOutgoingTxBatches (Ok protos) ∧ try_map batch_try_from protos = Done (Ok batches)
    | Err e => ∃ r, saw l QOutgoingTxBatches r ∧ ∀ protos, r = Ok protos → try_map batch_try_from protos = Done (Err e)
    end).
  { unfold get_latest_transaction_batches. apply sat_call_try; [by apply HP| |].
    - intros protos _. apply sat_pure; [intros; by apply HP|].
      intros [batches|e] Hr; [by exists protos; split; [solve_saw|]|].
      exists (Ok protos). split; [solve_saw|]. by intros ? [= <-].
    - intros e _. exists (Err e). split; [solve_saw|done]. }
  clear l. intros [batches|e] l Hb; [|apply sat_ret; left; split; [done|]; destruct Hb as (r & Hr); by exists r, e].
  destruct Hb as (protos & Hs & Ht).
  eapply sat_run.
  - eapply sat_for with (Inv := λ done m l', l ⊆ l' ∧ sorted_batches current id done m l') (done := [])
      (items := batches); [| |reflexivity].
    + intros done b rest m l1 _ [Hl Hm]. eapply sat_mono; [by apply sort_batch_spec|].
      intros m' l2 [Hl' Hm']. split; [by etrans|assumption].
    + split; [done|]. split; [intros ? ?; by rewrite lookup_empty|]. intros b Hin. by apply not_elem_of_nil in Hin.
  - intros m l1 [Hl Hm]. apply sat_ret. right. exists protos, batches.
    split_and!; [by apply Hl|done|].
    replace (reverse <$> (reverse <$> m)) with m; [done|]. rewrite <- map_fmap_compose.
    rewrite <- (map_fmap_id m) at 1. apply map_fmap_ext. intros t bs _. simpl. by rewrite reverse_involutive.
Qed.

(** [get_batches_and_signatures] groups the submittable batches by token, each group in the
    reverse of the order the chain lists them in (newest first, so oldest first): every batch of
    the list is in its token's group with enough signatures, or was refused; and it returns nothing
    when the list cannot be had. *)
Theorem batches_grouped_oldest_first current id :
  sat (λ _ _ _, True) any_env (get_batches_and_signatures current id) []
    (λ m l, m = ∅ ∨ ∃ protos batches,
       saw l QOutgoingTxBatches (Ok protos) ∧ try_map batch_try_from protos = Done (Ok batches) ∧
       sorted_batches current id batches (reverse <$> m) l).
Proof.
  eapply sat_mono; [by apply get_batches_spec|]. intros m l [_ [[? _]|?]]; [by left|by right].
Qed.

(** The chain lists the batch as one to be relayed. *)
Definition chain_batch l (b : TransactionBatch) : Prop :=
  ∃ protos p, saw l QOutgoingTxBatches (Ok protos) ∧ p ∈ protos ∧ batch_try_from p = Done (Ok b).
(** The batch is the chain's, and enough of the current set has signed it. *)
Definition batch_due l (current : Valset) (id : string) (sb : SubmittableBatch) : Prop :=
  chain_batch l (sb_batch sb) ∧ batch_submittable l current id sb.

Lemma batch_due_sub l l' c id sb : l ⊆ l' → batch_due l c id sb → batch_due l' c id sb.
Proof.
  intros H [(ps & p & Hs & Hr) Hb]. split; [exists ps, p; split; [by apply H|done]|].
  by eapply batch_submittable_sub.
Qed.

Lemma get_batches_due P A current id l : lenient P →
  sat P A (get_batches_and_signatures current id) l
    (λ m l', l ⊆ l' ∧ ∀ token bs, m !! token = Some bs → Forall (batch_due l' current id) bs).
Proof.
  intros HP. eapply sat_mono; [by apply get_batches_spec|].
  intros m l' [Hl [[-> _]|(protos & batches & Hs & Ht & Hm & _)]]; split; try done.
  apply try_map_Ok in Ht. intros token bs Htok.
  destruct (Hm token (reverse bs)) as [Hsub Hok]; [by rewrite lookup_fmap, Htok|].
  rewrite Forall_reverse in Hok. rewrite Forall_forall in *. intros sb Hin. split; [|by apply Hok].
  assert (sb_batch sb ∈ batches) as Hb.
  { eapply list_elem_of_filter, (sublist_subseteq _ _ Hsub). rewrite fmap_reverse.
    by apply elem_of_reverse, list_elem_of_fmap_2. }
  apply list_elem_of_lookup_1 in Hb as [i Hi]. destruct (Forall2_lookup_r _ _ _ _ _ Ht Hi) as (p & Hp & Hc).
  exists protos, p. split_and!; [done|by eapply list_elem_of_lookup_2|done].
Qed.

(** The chain lists the call, and enough of the current set has signed it. *)
Definition call_due l (current : Valset) (id : string) (c : LogicCall)
    (confirms : list LogicCallConfirmResponse) : Prop :=
  (∃ protos p, saw l QOutgoingLogicCalls (Ok protos) ∧ p ∈ protos ∧ logic_call_try_from p = Done (Ok c)) ∧
  (∃ cs, saw l (QLogicConfirms (call_invalidation_id c) (call_invalidation_nonce c)) (Ok cs) ∧
     try_map logic_call_confirm_try_from cs = Done (Ok confirms)) ∧
  ∃ sigs, order_sigs current (encode_logic_call_confirm_hashed id c) confirms = Done (Ok sigs).

Lemma call_due_sub l l' c id call confirms : l ⊆ l' → call_due l c id call confirms → call_due l' c id call confirms.
Proof.
  intros H ((ps & p & Hs & Hr) & (cs & Hc & Hm) & Ho).
  split_and!; [exists ps, p; split; [by apply H|done]|exists cs; split; [by apply H|done]|done].
Qed.

Lemma valset_submittable_sub l l' c id vs confirms :
  l ⊆ l' → valset_submittable l c id vs confirms → valset_submittable l' c id vs confirms.
Proof.
  intros H ((p & Hs & Hr) & (cs & Hc & Hm) & Ho).
  split_and!; [exists p; split; [by apply H|done]|exists cs; split; [by apply H|done]|apply Ho..].
Qed.

(** What the loop over the calls keeps: a call of the list that can be submitted. *)
Lemma sort_calls_spec P A current id protos calls l :
  lenient P → saw l QOutgoingLogicCalls (Ok protos) → try_map logic_call_try_from protos = Done (Ok calls) →
  sat P A (for_each calls (sort_call current id) None) l
    (λ r l', l ⊆ l' ∧ ∀ c confirms, r = Some (c, confirms) → call_due l' current id c confirms).
Proof.
  intros HP Hs Ht%try_map_Ok.
  eapply sat_for with (done := []) (items := calls) (Inv := λ done r l', l ⊆ l' ∧
    ∀ c confirms, r = Some (c, confirms) → call_due l' current id c confirms); [| |reflexivity].
  2: by split.
  intros done c rest r l1 Hc [Hl Hr]. unfold sort_call.
  assert (∃ p, p ∈ protos ∧ logic_call_try_from p = Done (Ok c)) as (p & Hp & Hpc).
  { assert (calls !! length done = Some c) as Hi by (by rewrite Hc, list_lookup_middle).
    destruct (Forall2_lookup_r _ _ _ _ _ Ht Hi) as (p & Hp & Hpc). exists p.
    split; [by eapply list_elem_of_lookup_2|assumption]. }
  eapply sat_run with (Q0 := λ r l2, l1 ⊆ l2 ∧ ∀ sigs, r = Ok sigs → ∃ cs,
    saw l2 (QLogicConfirms (call_invalidation_id c) (call_invalidation_nonce c)) (Ok cs) ∧
    try_map logic_call_confirm_try_from cs = Done (Ok sigs)).
  { unfold get_logic_call_signatures. apply sat_call_try; [by apply HP| |intros e _; by split; [sub|]].
    intros cs _. apply sat_pure; [intros; by apply HP|]. intros res Hres. split; [sub|].
    intros sigs ->. exists cs. split; [solve_saw|assumption]. }
  intros [sigs|e] l2 [Hl2 Hsigs]; [|apply sat_ret; split; [by etrans|]; intros; eapply call_due_sub; eauto].
  apply sat_pure_bind; [intros; by apply HP|]. intros [out|e] Ho; simpl; apply sat_ret; (split; [by etrans|]).
  - intros c' confirms [= <- <-]. split_and!; [|by apply Hsigs|by exists out].
    exists protos, p. split_and!; [|assumption..]. apply Hl2, Hl, Hs.
  - intros. eapply call_due_sub; eauto.
Qed.
End Searches.

