(* ===== verification/RelayerTheory.v ===== *)
(** * The relayer: what it may send, and that its rounds end

    Safety of everything Relayer.v sends, as a requirement on each transaction that looks at the
    calls and answers before it; termination of a round. *)

From ITree Require Import ITree.
From S2P Require Import Prelude Bytes Proto External Float Instances Types Signatures Valset.
From S2P Require Import ValsetTheory Batches LogicCall EthEvents Messages Effects Queries.
From S2P Require Import Submit SubmitTheory Relayer RelayerSearch.

(** ** What has been seen *)

Section Seen.
Context `{X : Ext} `{BD : Build}.
Implicit Types (l : log).

(** The node has estimated the gas of sending a payload, and a gas price. *)
Definition saw_cost l (g : EthAddress) (payload : bytes) (cost : GasCost) : Prop :=
  ∃ req, saw l (EthEstimateGas req) (Ok (cost_gas cost)) ∧ req_to req = g ∧
    req_data req = Some payload ∧ saw l EthGasPrice (Ok (cost_gas_price cost)).

(** A token amount is worth [value] in WETH: it is WETH, or uniswap said so. *)
Definition saw_worth l (own token : EthAddress) (amount value : Uint256) : Prop :=
  (token = WETH_CONTRACT_ADDRESS ∧ value = amount) ∨
  saw l (GetUniswapPrice own token WETH_CONTRACT_ADDRESS amount None) (Ok value).

Definition valset_profitable l (own : EthAddress) (vs : Valset) (cost : GasCost) : Prop :=
  valset_reward_token vs = Some WETH_CONTRACT_ADDRESS ∧
  ∃ total, u256_mul (cost_gas cost) (cost_gas_price cost) = Done total ∧
    (total < valset_reward_amount vs ∨
     ∃ value, saw l (GetUniswapPrice own WETH_CONTRACT_ADDRESS WETH_CONTRACT_ADDRESS
                       (valset_reward_amount vs) (Some 0)) (Ok value) ∧ total < value).

Definition batch_profitable l (own : EthAddress) (b : TransactionBatch) (cost : GasCost) : Prop :=
  ∃ total value, get_total cost = Done total ∧ total < value ∧
    saw_worth l own (erc20_token_contract_address (batch_total_fee b))
      (erc20_amount (batch_total_fee b)) value.

(** The sum of the worths of some of the totals. *)
Inductive worth_sum l (own : EthAddress) : list (EthAddress * Uint256) → Uint256 → Uint256 → Prop :=
  | worth_nil s : worth_sum l own [] s s
  | worth_skip token amount rewards s s' :
      worth_sum l own rewards s s' → worth_sum l own ((token, amount) :: rewards) s s'
  | worth_add token amount value rewards s s1 s' :
      saw_worth l own token amount value → u256_add s value = Done s1 →
      worth_sum l own rewards s1 s' → worth_sum l own ((token, amount) :: rewards) s s'.

Definition call_profitable l (own : EthAddress) (c : LogicCall) (cost : GasCost) : Prop :=
  ∃ total rewards value, get_total cost = Done total ∧ total_rewards (call_fees c) ∅ = Done rewards ∧
    worth_sum l own (hash_order (map_to_list rewards)) 0 value ∧ total < value.

Lemma saw_cost_sub l l' g p c : l ⊆ l' → saw_cost l g p c → saw_cost l' g p c.
Proof. intros H (r & H1 & H2 & H3 & H4). exists r. split_and!; try done; by apply H. Qed.
Lemma saw_worth_sub l l' o t a v : l ⊆ l' → saw_worth l o t a v → saw_worth l' o t a v.
Proof. intros H [?|Hs]; [by left|right]. by apply H. Qed.
Lemma valset_profitable_sub l l' o v c : l ⊆ l' → valset_profitable l o v c → valset_profitable l' o v c.
Proof.
  intros H (Ht & total & Hm & Hr). split; [done|]. exists total. split; [done|].
  destruct Hr as [?|(value & Hs & Hv)]; [by left|right]. exists value. split; [by apply H|done].
Qed.
Lemma batch_profitable_sub l l' o b c : l ⊆ l' → batch_profitable l o b c → batch_profitable l' o b c.
Proof.
  intros H (t & v & H1 & H2 & H3). exists t, v. split_and!; [done..|]. by eapply saw_worth_sub.
Qed.
Lemma worth_sum_sub l l' o r s s' : l ⊆ l' → worth_sum l o r s s' → worth_sum l' o r s s'.
Proof.
  intros H. induction 1; [constructor|by constructor|]. econstructor; [by eapply saw_worth_sub|done..].
Qed.
Lemma call_profitable_sub l l' o b c : l ⊆ l' → call_profitable l o b c → call_profitable l' o b c.
Proof.
  intros H (t & r & v & H1 & H2 & H3 & H4). exists t, r, v. split_and!; try done. by eapply worth_sum_sub.
Qed.

Lemma valset_guard_sub l l' n o c g id k p : l ⊆ l' →
  valset_guard n o c g id k p l → valset_guard n o c g id k p l'.
Proof. intros H (H1 & H2 & H3). split_and!; [done..|]. by eapply saw_nonce_sub. Qed.
Lemma batch_guard_sub l l' vs b c g id k p : l ⊆ l' →
  batch_guard vs b c g id k p l → batch_guard vs b c g id k p l'.
Proof.
  intros H (H1 & (n & Hn & Hlt) & (h & Hh & Hle)). split_and!; [done| |].
  - exists n. split; [by eapply saw_nonce_sub|done].
  - exists h. split; [by apply H|done].
Qed.
Lemma call_guard_sub l l' vs b c g id k p : l ⊆ l' →
  call_guard vs b c g id k p l → call_guard vs b c g id k p l'.
Proof.
  intros H (H1 & (n & Hn & Hlt) & (h & Hh & Hle)). split_and!; [done| |].
  - exists n. split; [by eapply saw_nonce_sub|done].
  - exists h. split; [by apply H|done].
Qed.
End Seen.

(** ** The requirement on the relayer's transactions *)

Section Requirement.
Context `{X : Ext} `{XL : !ExtLaws X} `{BD : Build}.
Context (g : EthAddress) (id : string) (key : EthPrivateKey) (config : RelayerConfig).
Implicit Types (l : log) (S : EthAddress → bytes → Uint256 → EthAddress → EthPrivateKey →
  list SendTxOption → log → Prop).
Abbreviation own := (eth_key_to_address key).

(** The three kinds of payload, relative to the set [vs] the contract holds. *)
Definition valset_payload (vs : Valset) (payload : bytes) l : Prop :=
  ∃ new confirms, valset_submittable l vs id new confirms ∧ valset_guard new vs confirms g id key payload l ∧
    (valset_market_enabled config = true →
     ∃ cost, saw_cost l g payload cost ∧ valset_profitable l own new cost).
Definition batch_payload_ok (vs : Valset) (payload : bytes) l : Prop :=
  ∃ b confirms, batch_due l vs id (mkSubmittableBatch b confirms) ∧ batch_guard vs b confirms g id key payload l ∧
    (batch_market_enabled config = true →
     ∃ cost, saw_cost l g payload cost ∧ batch_profitable l own b cost).
Definition call_payload_ok (vs : Valset) (payload : bytes) l : Prop :=
  ∃ c confirms, call_due l vs id c confirms ∧ call_guard vs c confirms g id key payload l ∧
    (logic_call_market_enabled config = true →
     ∃ cost, saw_cost l g payload cost ∧ call_profitable l own c cost).

Definition relayer_send : EthAddress → bytes → Uint256 → EthAddress → EthPrivateKey →
    list SendTxOption → log → Prop := λ to payload value own' key' _ l,
  to = g ∧ value = 0 ∧ own' = own ∧ key' = key ∧
  ∃ vs, saw_current l g vs ∧
    (valset_payload vs payload l ∨ batch_payload_ok vs payload l ∨ call_payload_ok vs payload l).

Lemma relayer_send_monotone : log_monotone (on_send relayer_send).
Proof.
  intros R e l l' Hl. destruct e; simpl; try done.
  intros (-> & -> & -> & -> & vs & Hc & H). split_and!; [done..|]. exists vs.
  split; [by eapply saw_current_sub|].
  destruct H as [(n & c & Hd & Hg & Hp)|[(b & c & Hd & Hg & Hp)|(b & c & Hd & Hg & Hp)]];
    [left|right; left|right; right]; eexists _, c;
    (split; [first [by eapply valset_submittable_sub|by eapply batch_due_sub|by eapply call_due_sub]|]);
    (split; [first [by eapply valset_guard_sub|by eapply batch_guard_sub|by eapply call_guard_sub]|]);
    intros Hm; destruct (Hp Hm) as (cost & H1 & H2); exists cost; (split; [by eapply saw_cost_sub|]).
  - by eapply valset_profitable_sub.
  - by eapply batch_profitable_sub.
  - by eapply call_profitable_sub.
Qed.

(** A program that meets the requirement from every history on of which [F] holds. *)
Definition relays (F : log → Prop) {R} (t : io R) : Prop :=
  ∀ l, F l → sat (on_send relayer_send) any_env t l (λ _ _, True).

Lemma lasting_current vs : lasting (λ l, saw_current l g vs).
Proof. intros l l'. apply saw_current_sub. Qed.
Lemma lasting_and F G : lasting F → lasting G → lasting (λ l, F l ∧ G l).
Proof. intros HF HG l l' Hl [H1 H2]. split; [by eapply HF|by eapply HG]. Qed.
Lemma lasting_due vs bs : lasting (λ l, Forall (batch_due l vs id) bs).
Proof. intros l l' Hl H. eapply Forall_impl; [exact H|]. intros sb. by apply batch_due_sub. Qed.

Lemma quiet_relays F {R} (t : io R) : quiet t → relays F t.
Proof. intros Hq l _. eapply sat_mono; [apply Hq, on_send_lenient|done]. Qed.
Lemma relays_bind F {R V} (t : io R) (f : R → io V) :
  lasting F → relays F t → (∀ r, relays F (f r)) → relays F (ITree.bind t f).
Proof.
  intros HF Ht Hf l Hl. eapply sat_run; [apply sat_extends, Ht, Hl|]. intros r l' [Hsub _].
  apply Hf. by eapply HF.
Qed.
Lemma relays_for F {B} (items : list B) (body : B → unit → io unit) s :
  lasting F → (∀ x s, x ∈ items → relays F (body x s)) → relays F (for_each items body s).
Proof.
  intros HF. revert s. induction items as [|x items IH]; intros s Hb; simpl; [apply quiet_relays, quiet_ret|].
  apply relays_bind; [done|apply Hb; by left|]. intros r. apply IH. intros y u Hy. apply Hb. by right.
Qed.

(** ** Costs *)

Lemma estimate_cost_spec P A payload l : lenient P →
  sat P A (estimate_cost payload g key) l (λ r l', l ⊆ l' ∧
    ∀ cost, r = Ok cost → ∃ p, payload = Done (Ok p) ∧ saw_cost l' g p cost).
Proof.
  intros HP. unfold estimate_cost.
  apply sat_call_try; [by apply HP|intros bal _|intros; split; [sub|done]].
  apply sat_call_try; [by apply HP|intros n _|intros; split; [sub|done]].
  apply sat_call_try; [by apply HP|intros price _|intros; split; [sub|done]].
  apply sat_pure_try; [intros; by apply HP|intros p Hp|intros; split; [sub|done]].
  apply sat_call_try; [by apply HP|intros gas _|intros; split; [sub|done]].
  apply sat_ret. split; [sub|]. intros cost [= <-]. exists p. split; [done|].
  eexists _. simpl. split_and!; [solve_saw|done|done|solve_saw].
Qed.

(** ** Profit *)

Lemma should_relay_valset_spec P A vs cost l : lenient P →
  sat P A (should_relay_valset vs key cost) l (λ r l', l ⊆ l' ∧
    (r = true → valset_profitable l' own vs cost)).
Proof.
  intros HP. unfold should_relay_valset. apply sat_pure_bind; [intros; by apply HP|]. intros total Ht.
  destruct (valset_reward_token vs) as [token|] eqn:Et; [|by apply sat_ret].
  destruct (decide (WETH_CONTRACT_ADDRESS = token)) as [E|]; [|by apply sat_ret].
  cbv zeta. destruct (Z.ltb_spec total (valset_reward_amount vs)); simpl.
  - apply sat_ret. split; [done|]. intros _. split; [congruence|]. exists total. split; [done|by left].
  - apply sat_call_bind; [by apply HP|]. intros [value|err] _; apply sat_ret; (split; [sub|]); [|done].
    intros Hlt%Z.ltb_lt. split; [congruence|]. exists total. split; [done|]. right. exists value.
    split; [|done]. rewrite <- E. solve_saw.
Qed.

Lemma should_relay_batch_spec P A b cost total l : lenient P → get_total cost = Done total →
  sat P A (should_relay_batch b total own) l (λ r l', l ⊆ l' ∧ (r = true → batch_profitable l' own b cost)).
Proof.
  intros HP Ht. unfold should_relay_batch. case_decide as E.
  - apply sat_ret. split; [done|]. intros Hlt%Z.ltb_lt. exists total, (erc20_amount (batch_total_fee b)).
    split_and!; [done..|by left].
  - apply sat_call_bind; [by apply HP|]. intros [value|err] _; apply sat_ret; (split; [sub|]); [|done].
    intros Hlt%Z.ltb_lt. exists total, value. split_and!; [done..|]. right. solve_saw.
Qed.

Lemma enough_reward_spec P A cost rewards s l : lenient P →
  sat P A (enough_reward own cost rewards s) l (λ r l', l ⊆ l' ∧
    (r = true → ∃ value, worth_sum l' own rewards s value ∧ cost < value)).
Proof.
  intros HP. assert (∀ l (rs : list (EthAddress * Uint256)) s, worth_sum l own rs s s) as Hskip.
  { intros l0 rs s0. induction rs as [|[] rs IH]; by constructor. }
  assert (∀ token amount rs value s s1 l0 l1, l0 ⊆ l1 → saw_worth l0 own token amount value →
    u256_add s value = Done s1 →
    sat P A (enough_reward own cost rs s1) l1 (λ r l', l1 ⊆ l' ∧
      (r = true → ∃ value, worth_sum l' own rs s1 value ∧ cost < value)) →
    sat P A (if cost <? s1 then Ret true else enough_reward own cost rs s1) l1 (λ r l', l0 ⊆ l' ∧
      (r = true → ∃ value, worth_sum l' own ((token, amount) :: rs) s value ∧ cost < value))) as Hcheck.
  { intros token amount rs value s0 s1 l0 l1 Hl Hw Ha IH. destruct (Z.ltb_spec cost s1) as [Hc|].
    - apply sat_ret. split; [done|]. intros _. exists s1. split; [|done].
      eapply worth_add; [by eapply saw_worth_sub|done|apply Hskip].
    - eapply sat_mono; [exact IH|]. intros r l' [Hl' Hr]. split; [by etrans|]. intros ->.
      destruct (Hr eq_refl) as (v & Hv & Hlt). exists v. split; [|done].
      eapply worth_add; [|done..]. eapply saw_worth_sub; [|done]. by etrans. }
  revert s l. induction rewards as [|[token amount] rewards IH]; intros s l; simpl; [by apply sat_ret|].
  case_decide as E.
  - apply sat_pure_bind; [intros; by apply HP|]. intros s1 Hs1.
    eapply Hcheck; [done| |done|apply IH]. by left.
  - apply sat_call_bind; [by apply HP|]. intros [value|err] _.
    + apply sat_pure_bind; [intros; by apply HP|]. intros s1 Hs1. set (l1 := _ ++ _).
      eapply sat_mono; [eapply (Hcheck _ _ _ _ _ _ l1 l1); [done| |done|apply IH]|].
      * right. unfold l1. solve_saw.
      * intros r l' [Hl Hr]. split; [|done]. etrans; [apply subseteq_snoc|done].
    + eapply sat_mono; [apply IH|]. intros r l' [Hl Hr]. split; [etrans; [apply subseteq_snoc|done]|].
      intros ->. destruct (Hr eq_refl) as (v & Hv & Hlt). exists v. split; [by constructor|done].
Qed.

Lemma should_relay_logic_call_spec P A c cost total l : lenient P → get_total cost = Done total →
  sat P A (should_relay_logic_call own c total) l (λ r l', l ⊆ l' ∧ (r = true → call_profitable l' own c cost)).
Proof.
  intros HP Ht. unfold should_relay_logic_call. apply sat_pure_bind; [intros; by apply HP|].
  intros rewards Hr. eapply sat_mono; [by apply enough_reward_spec|]. intros r l' [Hl Hp]. split; [done|].
  intros ->. destruct (Hp eq_refl) as (v & Hv & Hlt). exists total, rewards, v. done.
Qed.

(** ** Each relaying function meets the requirement *)

(** The common end: send if the market is off or the payload profitable. *)
Lemma relays_send_valset vs new confirms timeout l :
  saw_current l g vs → valset_submittable l vs id new confirms →
  (valset_market_enabled config = true → ∃ p cost, encode_valset_update_payload new vs confirms id = Done (Ok p) ∧
     saw_cost l g p cost ∧ valset_profitable l own new cost) →
  sat (on_send relayer_send) any_env (send_eth_valset_update new vs confirms timeout g id key) l (λ _ _, True).
Proof.
  intros Hc Hd Hm. eapply sat_mono; [apply send_valset_spec|done].
  intros payload l' Hl _ Hg. split_and!; [done..|]. exists vs. split; [by eapply saw_current_sub|].
  left. exists new, confirms. split; [by eapply valset_submittable_sub|]. split; [done|]. intros Hen.
  destruct (Hm Hen) as (p & cost & Hp & H1 & H2). destruct Hg as [Hp' _]. rewrite Hp in Hp'.
  injection Hp' as <-. exists cost. split; [by eapply saw_cost_sub|by eapply valset_profitable_sub].
Qed.
Lemma relays_send_batch vs b confirms timeout l :
  saw_current l g vs → batch_due l vs id (mkSubmittableBatch b confirms) →
  (batch_market_enabled config = true → ∃ p cost, encode_batch_payload vs b confirms id = Done (Ok p) ∧
     saw_cost l g p cost ∧ batch_profitable l own b cost) →
  sat (on_send relayer_send) any_env (send_eth_transaction_batch vs b confirms timeout g id key) l (λ _ _, True).
Proof.
  intros Hc Hd Hm. eapply sat_mono; [apply send_batch_spec|done].
  intros payload l' Hl _ Hg. split_and!; [done..|]. exists vs. split; [by eapply saw_current_sub|].
  right; left. exists b, confirms. split; [by eapply batch_due_sub|]. split; [done|]. intros Hen.
  destruct (Hm Hen) as (p & cost & Hp & H1 & H2). destruct Hg as [Hp' _]. rewrite Hp in Hp'.
  injection Hp' as <-. exists cost. split; [by eapply saw_cost_sub|by eapply batch_profitable_sub].
Qed.
Lemma relays_send_call vs c confirms timeout l :
  saw_current l g vs → call_due l vs id c confirms →
  (logic_call_market_enabled config = true → ∃ p cost, encode_logic_call_payload vs c confirms id = Done (Ok p) ∧
     saw_cost l g p cost ∧ call_profitable l own c cost) →
  sat (on_send relayer_send) any_env (send_eth_logic_call vs c confirms timeout g id key) l (λ _ _, True).
Proof.
  intros Hc Hd Hm. eapply sat_mono; [apply send_call_spec|done].
  intros payload l' Hl _ Hg. split_and!; [done..|]. exists vs. split; [by eapply saw_current_sub|].
  right; right. exists c, confirms. split; [by eapply call_due_sub|]. split; [done|]. intros Hen.
  destruct (Hm Hen) as (p & cost & Hp & H1 & H2). destruct Hg as [Hp' _]. rewrite Hp in Hp'.
  injection Hp' as <-. exists cost. split; [by eapply saw_cost_sub|by eapply call_profitable_sub].
Qed.

Lemma quiet_valset_cost_error gid vs confirms current :
  quiet (valset_cost_error key gid g vs confirms current).
Proof. unfold valset_cost_error, get_valset_nonce. quiet_tac. Qed.

Lemma relays_valid_valset vs new confirms timeout :
  relays (λ l, saw_current l g vs ∧ valset_submittable l vs id new confirms)
    (relay_valid_valset new vs confirms g id key timeout (valset_market_enabled config)).
Proof.
  intros l [Hl Hn]. pose proof (on_send_lenient relayer_send) as HP. unfold relay_valid_valset.
  eapply sat_run; [by apply estimate_cost_spec|]. intros [cost|err] l1 [Hl1 Hcost].
  2: { by eapply (quiet_relays (λ _, True)); [apply quiet_valset_cost_error|]. }
  destruct (Hcost cost eq_refl) as (p & Hp & Hsc). apply sat_pure_bind; [done|]. intros _ _.
  eapply sat_run with (Q0 := λ r l2, l1 ⊆ l2 ∧
    (r = true → valset_market_enabled config = true → valset_profitable l2 own new cost)).
  { destruct (valset_market_enabled config); [|by apply sat_ret].
    eapply sat_mono; [by apply should_relay_valset_spec|]. naive_solver. }
  intros [] l2 [Hl2 Hprof]; [|by apply sat_ret]. assert (l ⊆ l2) as Hl02 by by etrans.
  eapply sat_run; [apply relays_send_valset|intros; by apply sat_ret].
  - by eapply saw_current_sub.
  - by eapply valset_submittable_sub.
  - intros Hm. exists p, cost. split_and!; [done|by apply (saw_cost_sub l1)|by apply Hprof].
Qed.

Lemma relays_valsets vs timeout : relays (λ l, saw_current l g vs) (relay_valsets vs key g id timeout config).
Proof.
  pose proof (on_send_lenient relayer_send) as HP. unfold relay_valsets.
  apply relays_bind; [apply lasting_current|apply quiet_relays; auto with quiet|].
  intros [[|latest rest]|err]; try (apply quiet_relays, quiet_ret). intros l Hl.
  eapply sat_run; [by apply find_latest_valid_valset_spec|].
  intros [[[new|] [confirms|]] e] l1 [Hl1 Hs]; try (by apply sat_ret).
  destruct (_ <? _); [|by apply sat_ret]. apply relays_valid_valset. split; [by eapply saw_current_sub|done].
Qed.

Lemma relays_submit_batch vs timeout h n sb u :
  relays (λ l, saw_current l g vs ∧ batch_due l vs id sb)
    (submit_batch vs key g id timeout config h n sb u).
Proof.
  intros l [Hl Hd]. pose proof (on_send_lenient relayer_send) as HP. unfold submit_batch.
  destruct (_ <? h); [by apply sat_ret|]. destruct (n <? _); [|by apply sat_ret].
  eapply sat_run; [by apply estimate_cost_spec|]. intros [cost|err] l1 [Hl1 Hcost]; [|by apply sat_ret].
  destruct (Hcost cost eq_refl) as (p & Hp & Hsc). apply sat_pure_bind; [done|]. intros _ _.
  eapply sat_run with (Q0 := λ r l2, l1 ⊆ l2 ∧
    (r = true → batch_market_enabled config = true → batch_profitable l2 own (sb_batch sb) cost)).
  { destruct (batch_market_enabled config); [|by apply sat_ret].
    apply sat_pure_bind; [done|]. intros total Ht.
    eapply sat_mono; [by apply should_relay_batch_spec|]. naive_solver. }
  intros [] l2 [Hl2 Hprof]; [|by apply sat_ret]. assert (l ⊆ l2) as Hl02 by by etrans.
  eapply sat_run; [apply relays_send_batch|intros; by apply sat_ret].
  - by eapply saw_current_sub.
  - destruct sb. by eapply batch_due_sub.
  - intros Hm. exists p, cost. split_and!; [done|by apply (saw_cost_sub l1)|by apply Hprof].
Qed.

Lemma relays_submit_batches vs timeout m :
  relays (λ l, saw_current l g vs ∧ ∀ token bs, m !! token = Some bs → Forall (batch_due l vs id) bs)
    (submit_batches vs key g id timeout m config).
Proof.
  assert (∀ bs, lasting (λ l, saw_current l g vs ∧ Forall (batch_due l vs id) bs)) as HF.
  { intros bs. apply lasting_and; [apply lasting_current|apply lasting_due]. }
  unfold submit_batches. intros l [Hl Hm]. apply sat_call_bind; [done|].
  intros [h|err] _; [|by apply sat_ret]. set (l1 := l ++ _).
  apply sat_concurrent; [apply relayer_send_monotone|done|]. apply Forall_fmap, Forall_forall.
  intros [token batches] Hin. rewrite law_hash_order, elem_of_map_to_list in Hin.
  assert (saw_current l1 g vs ∧ Forall (batch_due l1 vs id) batches) as H1.
  { apply (HF batches l); [sub|]. split; [done|]. by eapply Hm. }
  revert H1. generalize l1. fold (relays (λ l, saw_current l g vs ∧ Forall (batch_due l vs id) batches)
    (submit_token_batches vs key g id timeout config h (token, batches))).
  unfold submit_token_batches. apply relays_bind; [apply HF|apply quiet_relays; apply quiet_read_nonce|].
  intros [n|err]; [|apply quiet_relays, quiet_ret]. apply relays_for; [apply HF|].
  intros sb u Hsb l2 [Hc Hd]. rewrite Forall_forall in Hd. apply relays_submit_batch. split; [done|by apply Hd].
Qed.

Lemma relays_batches vs timeout : relays (λ l, saw_current l g vs) (relay_batches vs key g id timeout config).
Proof.
  intros l Hl. unfold relay_batches. eapply sat_run; [apply get_batches_due, on_send_lenient|].
  intros m l1 [Hl1 Hm]. apply relays_submit_batches. split; [by eapply saw_current_sub|done].
Qed.

Lemma relays_logic_calls vs timeout :
  relays (λ l, saw_current l g vs) (relay_logic_calls vs key g id timeout config).
Proof.
  intros l Hl. pose proof (on_send_lenient relayer_send) as HP. unfold relay_logic_calls.
  eapply sat_run with (Q0 := λ r l1, l ⊆ l1 ∧ ∀ calls, r = Ok calls → ∃ protos,
    saw l1 QOutgoingLogicCalls (Ok protos) ∧ try_map logic_call_try_from protos = Done (Ok calls)).
  { unfold get_latest_logic_calls. apply sat_call_try; [done| |intros e _; by split; [sub|]].
    intros protos _. apply sat_pure; [done|]. intros r Hr. split; [sub|]. intros calls ->.
    exists protos. split; [solve_saw|done]. }
  intros [calls|err] l1 [Hl1 Hcalls]; [|by apply sat_ret]. destruct (Hcalls calls eq_refl) as (protos & Hs & Ht).
  eapply sat_run; [by eapply sort_calls_spec|]. intros [[c confirms]|] l2 [Hl2 Hdue]; [|by apply sat_ret].
  specialize (Hdue c confirms eq_refl).
  eapply sat_run; [by apply sat_extends, quiet_read_nonce|]. intros [n|err] l3 [Hl3 _]; [|by apply sat_ret].
  destruct (n <? _); [|by apply sat_ret].
  eapply sat_run; [by apply estimate_cost_spec|]. intros [cost|err] l4 [Hl4 Hcost]; [|by apply sat_ret].
  destruct (Hcost cost eq_refl) as (p & Hp & Hsc). apply sat_pure_bind; [done|]. intros _ _.
  eapply sat_run with (Q0 := λ r l5, l4 ⊆ l5 ∧
    (r = true → logic_call_market_enabled config = true → call_profitable l5 own c cost)).
  { destruct (logic_call_market_enabled config); [|by apply sat_ret].
    apply sat_pure_bind; [done|]. intros total Htotal.
    eapply sat_mono; [by apply should_relay_logic_call_spec|]. naive_solver. }
  intros [] l5 [Hl5 Hprof]; [|by apply sat_ret]. assert (l2 ⊆ l5) as Hl25 by (etrans; [done|]; by etrans).
  eapply sat_run; [apply relays_send_call|intros; by apply sat_ret].
  - eapply saw_current_sub; [|done]. etrans; [done|]. by etrans.
  - by eapply call_due_sub.
  - intros Hm. exists p, cost. split_and!; [done|by apply (saw_cost_sub l4)|by apply Hprof].
Qed.

Lemma relay_once_sat l : sat (on_send relayer_send) any_env (relay_once key g id config) l (λ _ _, True).
Proof.
  unfold relay_once. eapply sat_run; [apply find_latest_valset_spec, on_send_lenient|].
  intros [vs|err] l1 Hc; [|by apply sat_ret]. specialize (Hc vs eq_refl).
  revert l1 Hc. fold (relays (λ l, saw_current l g vs) (
      let* _ := relay_valsets vs key g id LOOP_SPEED config in
      let* _ := relay_batches vs key g id LOOP_SPEED config in
      relay_logic_calls vs key g id LOOP_SPEED config)).
  apply relays_bind; [apply lasting_current|apply relays_valsets|]. intros _.
  apply relays_bind; [apply lasting_current|apply relays_batches|]. intros _. apply relays_logic_calls.
Qed.
End Requirement.

(** ** The main loop *)

Section MainLoop.
Context `{X : Ext} `{XL : !ExtLaws X} `{BD : Build}.
Implicit Types (l : log) (P : spec) (A : env).

(** The contract has reported its gravity id. *)
Definition saw_gravity_id l (g own : EthAddress) (id : string) : Prop :=
  ∃ payload val, encode_call "state_gravityId()" [] = Ok payload ∧
    saw l (SimulateTransaction g 0 payload own) (Ok val) ∧ from_utf8 val = Ok id.

Lemma saw_gravity_id_sub l l' g own id : l ⊆ l' → saw_gravity_id l g own id → saw_gravity_id l' g own id.
Proof. intros H (p & v & H1 & H2 & H3). exists p, v. split_and!; [done|by apply H|done]. Qed.

Lemma sat_timeout P A {R} d (t : io R) l (Q : R → log → Prop) :
  lenient P → log_monotone P → (∀ r l l', l ⊆ l' → Q r l → Q r l') →
  sat P A t l Q → sat P A (timeout d t) l (λ o l', match o with Some r => Q r l' | None => True end).
Proof.
  intros HP HM HQ Ht. apply sat_iter with (Inv := λ t l, sat P A t l Q); [|done].
  clear - HP HM HQ. intros t l Ht. apply sat_observe in Ht. destruct (observe t) as [r|u|Y e k].
  - by apply sat_ret.
  - by apply sat_ret.
  - destruct Ht as [HPe Hk]. apply sat_call_bind; [done|]. intros x Hx.
    apply sat_call_bind; [by apply HP|]. intros [] _; apply sat_ret; [done|].
    eapply sat_log_mono; [done|done|apply subseteq_snoc|by apply Hk].
Qed.

Lemma get_gravity_id_spec P A g own wait l :
  lenient P → log_monotone P →
  sat P A (get_gravity_id_with_retry g own wait) l (λ r l', ∀ id, r = Ok id → saw_gravity_id l' g own id).
Proof.
  intros HP HM.
  assert (sat P A (retry (get_gravity_id g own) 5) l (λ id l', saw_gravity_id l' g own id)) as Hr.
  { apply sat_retry with (Inv := λ _, True); [|done]. intros l0 _. unfold get_gravity_id.
    apply sat_pure_bind; [intros; by apply HP|]. intros payload Hp%unwrap_Done.
    apply sat_call_try; [by apply HP| |intros; split_and!; [done|by apply HP|done]].
    intros val _. destruct (from_utf8 val) as [id|e] eqn:E; apply sat_ret.
    - exists payload, val. split_and!; [done|solve_saw|done].
    - split_and!; [done|by apply HP|done]. }
  unfold get_gravity_id_with_retry. destruct wait as [d|].
  - eapply sat_run.
    + eapply sat_timeout; [done..| |exact Hr]. intros id l1 l2 Hl. simpl. by apply saw_gravity_id_sub.
    + intros [id|] l' H; apply sat_ret; [|done]. intros id' [= <-]. done.
  - eapply sat_run; [exact Hr|]. intros id l' H. apply sat_ret. intros id' [= <-]. done.
Qed.

(** The requirement on a transaction of the relayer, under the gravity id the contract reported. *)
Definition relayer_requires (key : EthPrivateKey) (g : EthAddress) (config : RelayerConfig) :
    EthAddress → bytes → Uint256 → EthAddress → EthPrivateKey → list SendTxOption → log → Prop :=
  λ to payload value own key' options l,
    ∃ id, saw_gravity_id l g (eth_key_to_address key) id ∧
      relayer_send g id key config to payload value own key' options l.

Lemma relayer_requires_monotone key g config : log_monotone (on_send (relayer_requires key g config)).
Proof.
  apply on_send_monotone. intros to payload value own key' options l l' Hl (id & Hid & Hs). exists id.
  split; [by eapply saw_gravity_id_sub|].
  exact (relayer_send_monotone g id key config _ (SendTransaction to payload value own key' options) l l' Hl Hs).
Qed.

Lemma relayer_loop_sat key g config wait l :
  sat (on_send (relayer_requires key g config)) any_env (relayer_main_loop key g config wait) l
    (λ r _, r = Err (UnrecoverableError "Failed to get GravityID, check your ethereum node")).
Proof.
  pose proof (on_send_lenient (relayer_requires key g config)) as HP.
  pose proof (relayer_requires_monotone key g config) as HM.
  unfold relayer_main_loop. eapply sat_run; [by apply get_gravity_id_spec|].
  intros [id|err] l1 Hid; [|by apply sat_ret]. specialize (Hid id eq_refl).
  apply sat_iter with (Inv := λ _ l, saw_gravity_id l g (eth_key_to_address key) id); [|done].
  clear l l1 Hid. intros _ l Hid.
  eapply sat_run; [apply sat_extends, sat_concurrent; [done|done|]|].
  2: { intros [] l' [Hl _]. apply sat_ret. by eapply saw_gravity_id_sub. }
  repeat constructor; [|by apply sat_call].
  pose proof (relay_once_sat g id key config l) as Hr. revert Hr. generalize (relay_once key g id config).
  intros t Ht n. specialize (Ht n). revert t l Hid Ht.
  induction n as [|n IH]; intros t l Hid; simpl; [done|].
  destruct (observe t) as [r|u|Y e k]; [done|by apply IH|]. intros [Hpe Hk]. split.
  - destruct e; try done. by exists id.
  - intros x Hx. apply IH; [|by apply Hk]. eapply saw_gravity_id_sub; [apply subseteq_snoc|done].
Qed.

(** C2: whatever the two nodes answer and however the futures interleave, every transaction the
    relayer sends goes to the Gravity contract, carries no ether, is signed with its own key, and
    is the payload of a validator set update, a batch or a logic call that the chain has listed, with
    the confirmations the chain has for it, which [order_sigs] accepts. They are counted against the
    set of the last event of the first window of blocks, walking back from the reported one, whose
    last event can be read, under the gravity id the contract reported. It is sent after the contract
    reported the old set's nonce, or a nonce below the batch's or call's at a block not past its
    timeout; and, where the configuration enables that market, after a cost estimate of that very
    payload was found to be below the reward's worth. The loop ends only if no gravity id could be
    had, or in a panic. *)
Theorem relayer_sends_guarded key g config wait :
  sat (on_send (relayer_requires key g config)) any_env (relayer_main_loop key g config wait) []
    (λ r _, r = Err (UnrecoverableError "Failed to get GravityID, check your ethereum node")).
Proof. apply relayer_loop_sat. Qed.
End MainLoop.

(** ** Rounds end *)

Section Termination.
Context `{X : Ext} `{BD : Build}.
Implicit Types (A : env).

(** The windows of [search_window] move down, at least to 0. *)
Lemma term_search_window `{XL : !ExtLaws X} A g current :
  0 < current ≤ U256_MAX →
  term A (λ r, match r with inl next => 0 ≤ next < current | inr _ => True end)
    (search_window g current).
Proof.
  intros Hc. unfold search_window. eapply term_bind with (Q := λ next, 0 ≤ next < current).
  { apply term_pure. intros next. unfold BLOCKS_TO_SEARCH.
    destruct (Z.ltb_spec current 5000); [intros [= <-]; lia|].
    rewrite law_u256_sub by lia. intros [= <-]. lia. }
  intros next Hnext. eapply term_bind; [by apply term_call with (Q := λ _, True)|].
  intros [logs|err] _; [|by apply term_ret]. destruct (reverse logs); [by apply term_ret|].
  eapply term_bind; [by apply term_pure with (Q := λ _, True)|]. intros [ev|err] _; [|by apply term_ret].
  cbv zeta. eapply term_bind; [apply terminates_get_valset|]. intros [c|err] _; [|by apply term_ret].
  eapply term_bind; [by apply term_pure with (Q := λ _, True)|]. intros _ _. by apply term_ret.
Qed.

Lemma terminates_find_latest_valset `{XL : !ExtLaws X} g : terminates block_env (find_latest_valset g).
Proof.
  unfold find_latest_valset. eapply term_bind; [by apply term_call with (Q := λ r, match r with
    | Ok h => 0 ≤ h ≤ U256_MAX | Err _ => True end)|].
  intros [h|err] Hh; [|by apply term_ret].
  apply term_iter with (measure := Z.to_nat) (Inv := λ c, 0 ≤ c ≤ U256_MAX); [|done].
  intros c Hc. destruct (Z.ltb_spec 0 c); [|apply term_panic].
  eapply term_mono; [|apply term_search_window; lia]. intros [next|r]; [|done]. intros. split; lia.
Qed.

(** [latest_nonce -= 1] goes down whatever the build. *)
Lemma u64_sub_1_lt n m : 0 < n → u64_sub n 1 = Done m → m < n.
Proof. intros Hn Hm%u64_wrap_mod. pose proof (Z.mod_le (n - 1) (2 ^ 64)). lia. Qed.

Lemma term_try_valset A current id n err : 0 < n →
  term A (λ r, match r with inl (n', _) => n' < n | inr _ => True end) (try_valset current id n err).
Proof.
  intros Hn. unfold try_valset. cbv zeta.
  assert (∀ e : option GravityError,
    term A (λ r : (Z * option GravityError) +
      (option Valset * option (list ValsetConfirmResponse) * option GravityError),
      match r with inl (n', _) => n' < n | inr _ => True end)
      (let* latest_nonce := pure (u64_sub n 1) in Ret (inl (latest_nonce, e)))) as Hnext.
  { intros e. eapply term_bind; [apply term_pure with (Q := λ m, m < n)|].
    - intros m. by apply u64_sub_1_lt.
    - intros m Hm. by apply term_ret. }
  eapply term_bind; [apply terminates_get_valset|]. intros [[vs|]|e] _; [|apply Hnext..].
  eapply term_bind; [by apply term_pure with (Q := λ _, True)|]. intros _ _.
  eapply term_bind; [apply terminates_get_all_valset_confirms|]. intros [cs|e] _; [|apply Hnext].
  eapply term_bind; [by apply term_pure with (Q := λ _, True)|]. intros _ _.
  eapply term_bind; [by apply term_pure with (Q := λ _, True)|]. intros [s|e] _; [|apply Hnext].
  by apply term_ret.
Qed.

Lemma terminates_find_latest_valid_valset A latest current id :
  terminates A (find_latest_valid_valset latest current id).
Proof.
  apply term_iter with (measure := λ s, Z.to_nat s.1) (Inv := λ _, True); [|done].
  intros [n err] _. destruct (Z.ltb_spec 0 n); [|by apply term_ret].
  eapply term_mono; [|by apply term_try_valset]. intros [[n' e']|r]; [|done]. simpl. split; [lia|done].
Qed.
Hint Resolve terminates_find_latest_valid_valset : terminates.

Lemma terminates_relay_valsets A vs key g id timeout config :
  terminates A (relay_valsets vs key g id timeout config).
Proof.
  unfold relay_valsets, relay_valid_valset, estimate_valset_cost, valset_cost_error,
    should_relay_valset, get_valset_nonce. terminates_tac.
Qed.

Lemma terminates_submit_batches A vs key g id timeout m config :
  terminates A (submit_batches vs key g id timeout m config).
Proof.
  unfold submit_batches. apply terminates_bind; [auto with terminates|]. intros [h|err]; [|apply terminates_ret].
  apply term_concurrent, Forall_fmap, Forall_forall. intros [token batches] _.
  change (terminates A (submit_token_batches vs key g id timeout config h (token, batches))).
  unfold submit_token_batches, submit_batch, should_relay_batch, estimate_tx_batch_cost,
    get_tx_batch_nonce. terminates_tac.
Qed.

Lemma terminates_relay_batches A vs key g id timeout config :
  terminates A (relay_batches vs key g id timeout config).
Proof.
  unfold relay_batches. apply terminates_bind; [|intros; apply terminates_submit_batches].
  unfold get_batches_and_signatures, sort_batch. terminates_tac.
Qed.

Lemma terminates_enough_reward A own cost rewards total : terminates A (enough_reward own cost rewards total).
Proof.
  revert total. induction rewards as [|[token amount] rewards IH]; intros total; simpl; [apply terminates_ret|].
  terminates_tac.
Qed.
Hint Resolve terminates_enough_reward : terminates.

Lemma terminates_relay_logic_calls A vs key g id timeout config :
  terminates A (relay_logic_calls vs key g id timeout config).
Proof.
  unfold relay_logic_calls, sort_call, should_relay_logic_call, estimate_logic_call_cost,
    get_logic_call_nonce. terminates_tac.
Qed.

(** C30: a round of the relayer ends after finitely many calls, whatever the nodes answer and
    however the futures of [relay_batches] interleave, if block numbers are [Uint256]s: the walk
    back over the blocks reaches block 0, and the walk down the nonces reaches nonce 0. *)
Theorem relayer_round_terminates `{XL : !ExtLaws X} key g id config :
  terminates block_env (relay_once key g id config).
Proof.
  unfold relay_once. apply terminates_bind; [apply terminates_find_latest_valset|].
  intros [vs|err]; [|apply terminates_ret].
  apply terminates_bind; [apply terminates_relay_valsets|]. intros _.
  apply terminates_bind; [apply terminates_relay_batches|]. intros _. apply terminates_relay_logic_calls.
Qed.
End Termination.
