(* ===== verification/RelayerRun.v ===== *)
(** * The relayer, run

    A chain and an Ethereum node small enough to execute, and a round of the relayer against them:
    the hypotheses of the theorems of RelayerTheory.v can be met, and what they require of a
    transaction is not vacuous, since one is sent. *)

From ITree Require Import ITree.
From S2P Require Import Prelude Bytes Proto External Float Instances Types Signatures Valset.
From S2P Require Import ValsetTheory Batches LogicCall EthEvents EthEventsTheory Messages.
From S2P Require Import Effects Queries Submit SubmitTheory Relayer RelayerSearch RelayerTheory.

Section Node.
#[local] Existing Instance concrete_ext.
#[local] Existing Instance concrete_laws.
#[local] Existing Instance checked_build.

Definition contract : EthAddress := eth 100.
Definition run_id : string := "gravity".
Definition run_config : RelayerConfig :=
  {| valset_market_enabled := false; batch_market_enabled := true; logic_call_market_enabled := true |}.

(** The contract's set: nonce 4, two members, set in block 700. *)
Definition event_log : Log :=
  mkLog [word 1; word 4] (valset_updated_data 9 7 (Some (eth 3)) sample_members 2) (Some 700).

(** A confirmation of the sample batch. *)
Definition sample_batch_hash : bytes :=
  match encode_tx_batch_confirm_hashed run_id sample_batch with Done h => h | Panic _ => [] end.
Definition batch_confirm_of (k : Z) : PMsgConfirmBatch := {|
  pcb_nonce := 2; pcb_token_contract := address_to_string (eth 4);
  pcb_eth_signer := address_to_string (eth k); pcb_orchestrator := address_to_string (eth k);
  pcb_signature := of_bytes (signature_to_bytes (sign_ethereum_msg (k : EthPrivateKey) sample_batch_hash)) |}.

(** The node: its latest block is 6000 (or so), so that the event is in the second window. *)
Definition node (block : Z) : handler (W := unit) := λ R e w,
  match e in callE R return option (R * unit) with
  | EthBlockNumber => Some (Ok block, w)
  | EthGetBalance _ => Some (Ok 1000000, w)
  | EthGetTransactionCount _ => Some (Ok 3, w)
  | EthGasPrice => Some (Ok 2, w)
  | EthEstimateGas _ => Some (Ok 20, w)
  | SimulateTransaction _ _ _ _ => Some (Ok (be_split 32 1), w)
  | SendTransaction _ _ _ _ _ _ => Some (Ok 77, w)
  | WaitForTransaction _ _ => Some (Ok tt, w)
  | CheckForEvents from _ _ _ => Some (Ok (if from <=? 700 then [event_log] else []), w)
  | GetUniswapPrice _ _ _ _ _ => Some (Ok 100, w)
  | QValsetRequest _ => Some (Ok None, w)
  | QLastValsetRequests => Some (Ok [], w)
  | QOutgoingTxBatches => Some (Ok [batch_into sample_batch], w)
  | QBatchConfirms _ _ => Some (Ok [batch_confirm_of 2; batch_confirm_of 1], w)
  | QOutgoingLogicCalls => Some (Ok [], w)
  | Pick _ => Some (O, w)
  | Sleep _ => Some (tt, w)
  | _ => None
  end.

Lemma node_block_env block : 0 ≤ block ≤ U256_MAX →
  ∀ Y (e : callE Y) w x w', node block Y e w = Some (x, w') → block_env Y e x.
Proof. intros Hb Y e w x w'. destruct e; simpl; try done. by intros [= <- <-]. Qed.

Definition ended {R} (o : outcome R * log) : bool := match o.1 with Returned _ => true | _ => false end.

Example round_sends_batch :
  let r := run (node 400) 400 (relay_once (1 : EthPrivateKey) contract run_id run_config) tt [] in
  ended r = true ∧ length (sends r.2) = 1%nat.
Proof. split; vm_refl. Qed.
Example late_round_sends_nothing :
  let r := run (node 6000) 400 (relay_once (1 : EthPrivateKey) contract run_id run_config) tt [] in
  ended r = true ∧ length (sends r.2) = 0%nat.
Proof. split; vm_refl. Qed.

Lemma relayer_round_terminates_witness :
  terminates block_env (relay_once (1 : EthPrivateKey) contract run_id run_config) ∧
  ended (run (node 6000) 400 (relay_once (1 : EthPrivateKey) contract run_id run_config) tt []) = true.
Proof. split; [apply relayer_round_terminates | vm_refl]. Defined.

(** The set found is the one of the event, two windows back. *)
Definition found_valset : Valset := {|
  valset_nonce := 4; valset_members := as_members sample_members; valset_reward_amount := 7;
  valset_reward_token := Some (eth 3) |}.
Definition found_log : log := (run (node 6000) 400 (find_latest_valset contract) tt []).2.
Lemma found_run :
  run (node 6000) 400 (find_latest_valset contract) tt [] = (Returned (Ok found_valset), found_log).
Proof. unfold found_log. vm_refl. Qed.

Lemma find_latest_valset_latest_witness : ∃ latest mid logs lg ev,
  saw_block found_log latest ∧ searched found_log contract latest mid ∧
  saw_window found_log contract (Z.max 0 (mid - BLOCKS_TO_SEARCH)) mid logs ∧ last logs = Some lg ∧
  valset_updated_from_log lg = Done (Ok ev) ∧ found_valset = valset_of_event ev.
Proof.
  destruct (run_sat (node 6000) _ _ _ _ _ _ _ _ _ (node_block_env 6000 ltac:(split; vm_compute; discriminate))
    (find_latest_valset_latest contract) found_run found_valset eq_refl)
    as (latest & mid & to & logs & lg & ev & H1 & H2 & -> & H3 & H4 & H5 & H6).
  exists latest, mid, logs, lg, ev. by split_and!.
Defined.

(** The chain knows no set of nonce 1 to 3: each is refused. *)
Definition refused_log : log :=
  (run (node 6000) 400 (find_latest_valid_valset 3 sample_valset run_id) tt []).2.
Lemma refused_run :
  run (node 6000) 400 (find_latest_valid_valset 3 sample_valset run_id) tt [] =
  (Returned (None, None, None), refused_log).
Proof. unfold refused_log. vm_refl. Qed.

Lemma find_latest_valid_valset_greatest_witness :
  is_u64 3 ∧ ∀ n, 0 < n ≤ 3 → valset_refused refused_log sample_valset run_id n.
Proof.
  assert (is_u64 3) as H3 by (split; vm_compute; discriminate). split; [done|].
  exact (run_sat (node 6000) _ any_env _ _ _ _ _ _ _ (λ _ _ _ _ _ _, I)
    (find_latest_valid_valset_greatest 3 sample_valset run_id H3) refused_run).
Defined.
End Node.
