(* ===== verification/Oracle.v ===== *)
(** * The oracle: orchestrator/src/oracle_resync.rs and ethereum_event_watcher.rs

    Where an oracle that starts resumes watching, and the events it claims on the Cosmos chain. *)

From ITree Require Import ITree.
From S2P Require Import Prelude Bytes Proto External Float Instances Types Signatures Valset.
From S2P Require Import Batches LogicCall EthEvents Messages Effects CosmosSend Queries.

Section Oracle.
Context `{X : Ext} `{BD : Build}.

(** ** oracle_resync.rs *)

Definition RESYNC_BLOCKS_TO_SEARCH : Z := 5000.

(** The first four loops over the events of a window: the block of the first event that carries the
    nonce; events that do not parse are logged and skipped. *)
Fixpoint block_of_nonce {E} (from_log : Log → eval (result E GravityError)) (nonce_of : E → Z)
    (last_event_nonce : Uint256) (events : list Log) : eval (option Uint256) :=
  match events with
  | [] => Done None
  | event :: events =>
      let! parsed := from_log event in
      match parsed, block_number event with
      | Ok e, Some block =>
          if nonce_of e =? last_event_nonce then Done (Some block)
          else block_of_nonce from_log nonce_of last_event_nonce events
      | _, _ => block_of_nonce from_log nonce_of last_event_nonce events
      end
  end.

(** The loop over the validator set events, newest first. *)
Fixpoint block_of_valset (last_event_nonce : Uint256) (events : list Log) : eval (option Uint256) :=
  match events with
  | [] => Done None
  | event :: events =>
      let! parsed := valset_updated_from_log event in
      match parsed with
      | Ok valset =>
          let bootstrapping := (vue_valset_nonce valset =? 0) && (last_event_nonce =? 1) in
          let common_case := (vue_event_nonce valset =? last_event_nonce) &&
            match block_number event with Some _ => true | None => false end in
          if common_case || bootstrapping then
            let! block := unwrap_option (block_number event) in Done (Some block)
          else if (vue_valset_nonce valset =? 0) && (1 <? last_event_nonce) then
            Panic "Could not find the last event relayed by {}, Last Event nonce is {} but no event matching that could be found!"
          else block_of_valset last_event_nonce events
      | Err _ => block_of_valset last_event_nonce events
      end
  end.

(** [if let Some(block) = m { return block }] *)
Definition or_else (m : eval (option Uint256)) (k : eval (option Uint256)) : eval (option Uint256) :=
  let! o := m in match o with Some block => Done (Some block) | None => k end.

(** The events of one window, searched in the order of the code. *)
Definition search_events (last_event_nonce : Uint256)
    (batch_events send_to_cosmos_events erc20_deployed_events logic_call_executed_events
     valset_events : list Log) : eval (option Uint256) :=
  or_else (block_of_nonce batch_executed_from_log tbe_event_nonce last_event_nonce batch_events)
  (or_else (block_of_nonce send_to_cosmos_from_log stc_event_nonce last_event_nonce send_to_cosmos_events)
  (or_else (block_of_nonce erc20_deployed_from_log ede_event_nonce last_event_nonce erc20_deployed_events)
  (or_else (block_of_nonce logic_call_executed_from_log lce_event_nonce last_event_nonce
              logic_call_executed_events)
  (block_of_valset last_event_nonce (reverse valset_events))))).

(** One turn of the loop, at [current_block > 0]. *)
Definition resync_window (gravity_contract_address : EthAddress) (last_event_nonce current_block : Uint256) :
    io (Uint256 + Uint256) :=
  let* end_search :=
    pure (if current_block <? RESYNC_BLOCKS_TO_SEARCH then Done 0
          else u256_sub current_block RESYNC_BLOCKS_TO_SEARCH) in
  let events_of (signature : string) :=
    call (CheckForEvents end_search (Some current_block) [gravity_contract_address] signature) in
  let* batch_events := events_of TRANSACTION_BATCH_EXECUTED_EVENT_SIG in
  let* send_to_cosmos_events := events_of SENT_TO_COSMOS_EVENT_SIG in
  let* erc20_deployed_events := events_of ERC20_DEPLOYED_EVENT_SIG in
  let* logic_call_executed_events := events_of LOGIC_CALL_EVENT_SIG in
  let* valset_events := events_of VALSET_UPDATED_EVENT_SIG in
  match batch_events, send_to_cosmos_events, valset_events, erc20_deployed_events,
        logic_call_executed_events with
  | Ok batch_events, Ok send_to_cosmos_events, Ok valset_events, Ok erc20_deployed_events,
    Ok logic_call_executed_events =>
      let* found := pure (search_events last_event_nonce batch_events send_to_cosmos_events
                            erc20_deployed_events logic_call_executed_events valset_events) in
      match found with
      | Some block => Ret (inr block)
      | None => Ret (inl end_search)
      end
  | _, _, _, _, _ =>
      let* _ := call (Sleep RETRY_TIME) in Ret (inl current_block)
  end.

Definition get_last_checked_block (our_cosmos_address : CosmosAddress) (prefix : string)
    (gravity_contract_address : EthAddress) : io Uint256 :=
  let* latest_block := get_block_number_with_retry in
  let* last_event_nonce := get_last_event_nonce_with_retry our_cosmos_address prefix in
  let last_event_nonce := if last_event_nonce =? 0 then 1 else last_event_nonce in
  ITree.iter (λ current_block,
    if 0 <? current_block then resync_window gravity_contract_address last_event_nonce current_block
    else panic "You have reached the end of block history without finding the Gravity contract deploy event! You must have the wrong contract address!")
    latest_block.

(** ** ethereum_event_watcher.rs *)

(** The match on the network id. *)
Definition block_delay (net_version : Z) : Uint256 :=
  if bool_decide (net_version ∈ [1; 3; 6; 7]) then 6
  else if bool_decide (net_version ∈ [2018; 15; 31337]) then 0
  else if bool_decide (net_version ∈ [4; 5]) then 10
  else 6.

Definition get_block_delay : io Uint256 :=
  let* net_version := get_net_version_with_retry in Ret (block_delay net_version).

(** The [info!] line about the first deposit unwraps its destination. *)
Definition log_deposits (prefix : string) (deposits : list SendToCosmosEvent) : eval unit :=
  match deposits with
  | deposit :: _ =>
      if info_enabled then
        let! _ := unwrap (cosmos_address_to_bech32 (stc_destination deposit) prefix) in Done tt
      else Done tt
  | [] => Done tt
  end.

Definition nonempty {A} (l : list A) : bool := match l with [] => false | _ :: _ => true end.

(** What is left to do once the events have been fetched: parse and filter them, claim them. *)
Definition claim_events (prefix : string) (our_private_key : CosmosPrivateKey)
    (our_cosmos_address : CosmosAddress) (fee : Coin) (latest_block : Uint256)
    (valset_logs batch_logs deposit_logs deploy_logs call_logs : list Log) :
    io (result Uint256 GravityError) :=
  let*? valsets := pure (valset_updated_from_logs valset_logs) via id in
  let*? withdraws := pure (batch_executed_from_logs batch_logs) via id in
  let*? deposits := pure (send_to_cosmos_from_logs deposit_logs) via id in
  let*? erc20_deploys := pure (erc20_deployed_from_logs deploy_logs) via id in
  let*? logic_calls := pure (logic_call_executed_from_logs call_logs) via id in
  let*? last_event_nonce := get_last_event_nonce_for_validator our_cosmos_address prefix via id in
  let valsets := valset_updated_filter last_event_nonce valsets in
  let deposits := send_to_cosmos_filter last_event_nonce deposits in
  let withdraws := batch_executed_filter last_event_nonce withdraws in
  let erc20_deploys := erc20_deployed_filter last_event_nonce erc20_deploys in
  let logic_calls := logic_call_executed_filter last_event_nonce logic_calls in
  let* _ := pure (log_deposits prefix deposits) in
  if nonempty deposits || nonempty withdraws || nonempty erc20_deploys || nonempty logic_calls ||
     nonempty valsets then
    let*? res := send_ethereum_claims prefix our_private_key deposits withdraws erc20_deploys
                   logic_calls valsets fee via of_grpc_error in
    let*? new_event_nonce := get_last_event_nonce_for_validator our_cosmos_address prefix via id in
    if new_event_nonce =? last_event_nonce then
      Ret (Err (ValidationError "Claims did not process, trying to update but still on {}, trying again in a moment, check txhash {} for errors"))
    else Ret (Ok latest_block)
  else Ret (Ok latest_block).

Definition check_for_events (prefix : string) (gravity_contract_address : EthAddress)
    (our_private_key : CosmosPrivateKey) (fee : Coin) (starting_block : Uint256) :
    io (result Uint256 GravityError) :=
  let* our_cosmos_address := pure (unwrap (cosmos_key_to_address our_private_key prefix)) in
  let* latest_block := get_block_number_with_retry in
  let* delay := get_block_delay in
  let* latest_block := pure (u256_sub latest_block delay) in
  let events_of (signature : string) :=
    call (CheckForEvents starting_block (Some latest_block) [gravity_contract_address] signature) in
  let* deposits := events_of SENT_TO_COSMOS_EVENT_SIG in
  let* batches := events_of TRANSACTION_BATCH_EXECUTED_EVENT_SIG in
  let* valsets := events_of VALSET_UPDATED_EVENT_SIG in
  let* erc20_deployed := events_of ERC20_DEPLOYED_EVENT_SIG in
  let* logic_call_executed := events_of LOGIC_CALL_EVENT_SIG in
  match valsets, batches, deposits, erc20_deployed, logic_call_executed with
  | Ok valsets, Ok batches, Ok deposits, Ok deploys, Ok logic_calls =>
      claim_events prefix our_private_key our_cosmos_address fee latest_block
        valsets batches deposits deploys logic_calls
  | _, _, _, _, _ => Ret (Err (RpcError (BoxWeb3 (web3_bad_response "Failed to get logs!"))))
  end.
End Oracle.
