(* ===== verification/Orchestrator.v ===== *)
(** * The orchestrator: orchestrator/src/main_loop.rs

    The oracle's loop, the signer's loop, and the two of them beside the relayer's. *)

From ITree Require Import ITree.
From S2P Require Import Prelude Bytes Proto External Float Instances Types Signatures Valset.
From S2P Require Import Batches LogicCall EthEvents Messages Effects CosmosSend Queries Submit Join.
From S2P Require Import Relayer Oracle.

Section Orchestrator.
Context `{X : Ext} `{BD : Build}.

Definition ETH_SIGNER_LOOP_SPEED : Duration := 11.
Definition ETH_ORACLE_LOOP_SPEED : Duration := 13.
Definition DELAY : Duration := 5.

(** Both loops first ask both nodes: they work on only while Ethereum answers and Cosmos moves, and
    sleep otherwise. *)
Definition both_ready : io bool :=
  let* latest_eth_block := call EthBlockNumber in
  let* latest_cosmos_block := call ContactGetChainStatus in
  match latest_eth_block, latest_cosmos_block with
  | Ok _, Ok (Moving _) => Ret true
  | _, _ => let* _ := call (Sleep DELAY) in Ret false
  end.

(** ** The oracle *)

(** The work of a round: the block to look from in the next one. *)
Definition oracle_once (prefix : string) (cosmos_key : CosmosPrivateKey)
    (gravity_contract_address : EthAddress) (fee : Coin) (last_checked_block : Uint256) : io Uint256 :=
  let* ready := both_ready in
  if ready : bool then
    let* r := check_for_events prefix gravity_contract_address cosmos_key fee last_checked_block in
    match r with
    | Ok new_block => Ret new_block
    | Err _ => Ret last_checked_block
    end
  else Ret last_checked_block.

Definition eth_oracle_main_loop (prefix : string) (cosmos_key : CosmosPrivateKey)
    (gravity_contract_address : EthAddress) (fee : Coin) : io (result unit GravityError) :=
  let* our_cosmos_address := pure (unwrap (cosmos_key_to_address cosmos_key prefix)) in
  let* last_checked_block := get_last_checked_block our_cosmos_address prefix gravity_contract_address in
  ITree.iter (λ last_checked_block,
    let* last_checked_block :=
      join (oracle_once prefix cosmos_key gravity_contract_address fee last_checked_block)
        (call (Sleep ETH_SIGNER_LOOP_SPEED)) in
    Ret (inl last_checked_block)) last_checked_block.

(** ** The signer *)

Definition check_for_fee_error (res : result TxResponse CosmosGrpcError) (fee : Coin) :
    result unit GravityError :=
  match res with
  | Err (InsufficientFees (FeeInsufficientFees _)) =>
      Err (UnrecoverableError "Specified fee value too small")
  | Err (InsufficientFees FeeInsufficientGas) =>
      Err (UnrecoverableError "Hardcoded gas amounts insufficient!")
  | _ => Ok tt
  end.

(** The work of a round. *)
Definition sign_valsets (prefix : string) (cosmos_key : CosmosPrivateKey) (ethereum_key : EthPrivateKey)
    (fee : Coin) (gravity_id : string) (our_cosmos_address : CosmosAddress) :
    io (result unit GravityError) :=
  let* valsets := get_oldest_unsigned_valsets our_cosmos_address prefix in
  match valsets with
  | Ok [] | Err _ => Ret (Ok tt)
  | Ok valsets =>
      let* res := send_valset_confirms prefix ethereum_key fee valsets cosmos_key gravity_id in
      Ret (check_for_fee_error res fee)
  end.

Definition sign_batch (prefix : string) (cosmos_key : CosmosPrivateKey) (ethereum_key : EthPrivateKey)
    (fee : Coin) (gravity_id : string) (our_cosmos_address : CosmosAddress) :
    io (result unit GravityError) :=
  let* batch := get_oldest_unsigned_transaction_batch our_cosmos_address prefix in
  match batch with
  | Ok (Some last_unsigned_batch) =>
      let* res := send_batch_confirm prefix ethereum_key fee [last_unsigned_batch] cosmos_key gravity_id in
      Ret (check_for_fee_error res fee)
  | Ok None | Err _ => Ret (Ok tt)
  end.

Definition sign_logic_call (prefix : string) (cosmos_key : CosmosPrivateKey) (ethereum_key : EthPrivateKey)
    (fee : Coin) (gravity_id : string) (our_cosmos_address : CosmosAddress) :
    io (result unit GravityError) :=
  let* c := get_oldest_unsigned_logic_call our_cosmos_address prefix in
  match c with
  | Ok (Some last_unsigned_call) =>
      let* res := send_logic_call_confirm prefix ethereum_key fee [last_unsigned_call] cosmos_key gravity_id in
      Ret (check_for_fee_error res fee)
  | Ok None | Err _ => Ret (Ok tt)
  end.

Definition sign_once (prefix : string) (cosmos_key : CosmosPrivateKey) (ethereum_key : EthPrivateKey)
    (fee : Coin) (gravity_id : string) (our_cosmos_address : CosmosAddress) :
    io (result unit GravityError) :=
  let* ready := both_ready in
  if ready : bool then
    let*? _ := sign_valsets prefix cosmos_key ethereum_key fee gravity_id our_cosmos_address via id in
    let*? _ := sign_batch prefix cosmos_key ethereum_key fee gravity_id our_cosmos_address via id in
    sign_logic_call prefix cosmos_key ethereum_key fee gravity_id our_cosmos_address
  else Ret (Ok tt).

Definition eth_signer_main_loop (prefix : string) (cosmos_key : CosmosPrivateKey)
    (ethereum_key : EthPrivateKey) (gravity_contract_address : EthAddress) (fee : Coin)
    (wait_time : option Duration) : io (result unit GravityError) :=
  let* our_cosmos_address := pure (unwrap (cosmos_key_to_address cosmos_key prefix)) in
  let our_ethereum_address := eth_key_to_address ethereum_key in
  let* gravity_id := get_gravity_id_with_retry gravity_contract_address our_ethereum_address wait_time in
  match gravity_id with
  | Err _ => Ret (Err (UnrecoverableError "Failed to get GravityID, check your ethereum node"))
  | Ok gravity_id =>
      ITree.iter (λ _ : unit,
        let* async_result :=
          join (sign_once prefix cosmos_key ethereum_key fee gravity_id our_cosmos_address)
            (call (Sleep ETH_SIGNER_LOOP_SPEED)) in
        match async_result with
        | Err e => Ret (inr (Err e))
        | Ok _ => Ret (inl tt)
        end) tt
  end.

(** ** All of it *)

Definition orchestrator_main_loop (prefix : string) (cosmos_key : CosmosPrivateKey)
    (ethereum_key : EthPrivateKey) (gravity_contract_address : EthAddress) (user_fee_amount : Coin)
    (config : GravityBridgeToolsConfig) (wait_time : option Duration) : io (result unit GravityError) :=
  let fee := user_fee_amount in
  let a := eth_oracle_main_loop prefix cosmos_key gravity_contract_address fee in
  let b := eth_signer_main_loop prefix cosmos_key ethereum_key gravity_contract_address fee wait_time in
  let c := relayer_main_loop ethereum_key gravity_contract_address (config_relayer config) wait_time in
  if relayer_enabled (config_orchestrator config) then try_join [a; b; c] else try_join [a; b].
End Orchestrator.
