(* ===== verification/Nabt.v ===== *)
(** * The command line tool: nabt/src

    orchestrator.rs, relayer.rs, keys/register_orchestrator_address.rs and main.rs. *)

From ITree Require Import ITree.
From S2P Require Import Prelude Bytes Proto External Instances Types Effects Host Config.
From S2P Require Import CosmosSend Queries Connection Relayer Orchestrator Args Client.

Section Nabt.
Context `{X : Ext} `{T : !Tools} `{BD : Build}.

(** What reads the files and may write them. *)
Definition on_disk {A} (f : fs A) : io A :=
  let* d := call DiskRead in
  let* _ := call (DiskWrite (f d).2) in pure (f d).1.

(** ** The keys a command uses *)

(** What keys.json holds, if the tool has been set up. *)
Definition stored_keys (home_dir : PathBuf) : io (result KeyStorage GravityError) :=
  let* d := call DiskRead in
  if config_exists home_dir d then let* d := call DiskRead in pure (load_keys home_dir d)
  else Ret (Ok key_storage_default).

(** [CosmosPrivateKey::from_phrase(phrase, "").unwrap()] *)
Definition phrase_key (phrase : string) : io CosmosPrivateKey := pure (unwrap (cosmos_key_from_phrase phrase "")).

(** The key given on the command line, or else the stored one. *)
Definition chosen_cosmos_key (given : option CosmosPrivateKey) (home_dir : PathBuf) :
    io (result CosmosPrivateKey GravityError) :=
  match given with
  | Some k => Ret (Ok k)
  | None =>
      let*? keys := stored_keys home_dir via id in
      match orchestrator_phrase keys with
      | Some stored_key => let* k := phrase_key stored_key in Ret (Ok k)
      | None => Ret (Err (UnrecoverableError "Cosmos key phrase not specified"))
      end
  end.
Definition chosen_ethereum_key (given : option EthPrivateKey) (home_dir : PathBuf) :
    io (result EthPrivateKey GravityError) :=
  match given with
  | Some k => Ret (Ok k)
  | None =>
      let*? keys := stored_keys home_dir via id in
      match ethereum_key keys with
      | Some k => Ret (Ok k)
      | None => Ret (Err (UnrecoverableError "Ethereum key not specified"))
      end
  end.

(** [args.wait_time.map(|minutes| Duration::from_secs(minutes * 60))] *)
Definition wait_seconds (wait_time : option Z) : eval (option Duration) :=
  match wait_time with
  | Some minutes => let! s := u64_mul minutes 60 in Done (Some s)
  | None => Done None
  end.

(** ** orchestrator.rs *)

Definition orchestrator (args : OrchestratorOpts) (address_prefix : string) (home_dir : PathBuf)
    (config : GravityBridgeToolsConfig) : io (result unit GravityError) :=
  let fee := oo_fees args in
  let* wait_time := pure (wait_seconds (oo_wait_time args)) in
  let*? cosmos_key := chosen_cosmos_key (oo_cosmos_phrase args) home_dir via id in
  let*? ethereum_key := chosen_ethereum_key (oo_ethereum_key args) home_dir via id in
  let timeout := Z.min (Z.min ETH_SIGNER_LOOP_SPEED ETH_ORACLE_LOOP_SPEED) LOOP_SPEED in
  let* connections := create_rpc_connections address_prefix (Some (oo_cosmos_grpc args))
                        (Some (oo_ethereum_rpc args)) timeout in
  let* grpc := the (conn_grpc connections) in
  let* contact := the (conn_contact connections) in
  let* web3 := the (conn_web3 connections) in
  let public_eth_key := eth_key_to_address ethereum_key in
  let* public_cosmos_key := pure (unwrap (cosmos_key_to_address cosmos_key (contact_prefix contact))) in
  let* _ := wait_for_cosmos_node_ready in
  let*? _ := check_delegate_addresses public_eth_key public_cosmos_key (contact_prefix contact) via id in
  let*? _ := check_for_fee fee public_cosmos_key via id in
  let*? _ := check_for_eth public_eth_key via id in
  let*? contract_address := contract_or_param (oo_gravity_contract_address args) via id in
  orchestrator_main_loop (contact_prefix contact) cosmos_key ethereum_key contract_address fee config wait_time.

(** ** relayer.rs *)

Definition relayer (args : RelayerOpts) (address_prefix : string) (home_dir : PathBuf)
    (config : RelayerConfig) : io (result unit GravityError) :=
  let* wait_time := pure (wait_seconds (ro_wait_time args)) in
  let* connections := create_rpc_connections address_prefix (Some (ro_cosmos_grpc args))
                        (Some (ro_ethereum_rpc args)) LOOP_SPEED in
  let*? ethereum_key := chosen_ethereum_key (ro_ethereum_key args) home_dir via id in
  let public_eth_key := eth_key_to_address ethereum_key in
  let* contact := the (conn_contact connections) in
  let* web3 := the (conn_web3 connections) in
  let* grpc := the (conn_grpc connections) in
  let* _ := wait_for_cosmos_node_ready in
  let*? _ := check_for_eth public_eth_key via id in
  let*? contract_address := contract_or_param (ro_gravity_contract_address args) via id in
  relayer_main_loop ethereum_key contract_address config wait_time.

(** ** keys/register_orchestrator_address.rs *)

(** The key to register, and the phrase it was generated from. *)
Definition registered_cosmos_key (cosmos_phrase : option string) (home_dir : PathBuf) :
    io (result (CosmosPrivateKey * option string) GravityError) :=
  match cosmos_phrase with
  | Some cosmos_phrase =>
      let* k := pure (expect (cosmos_key_from_phrase cosmos_phrase "") "Failed to parse cosmos key") in
      Ret (Ok (k, None))
  | None =>
      let*? keys := stored_keys home_dir via id in
      match orchestrator_phrase keys with
      | Some phrase => let* k := phrase_key phrase in Ret (Ok (k, None))
      | None =>
          let* new_phrase := call (GeneratePhrase 24) in
          let* k := phrase_key new_phrase in Ret (Ok (k, Some new_phrase))
      end
  end.
Definition registered_ethereum_key (given : option EthPrivateKey) (home_dir : PathBuf) :
    io (result EthPrivateKey GravityError) :=
  match given with
  | Some k => Ret (Ok k)
  | None =>
      let*? keys := stored_keys home_dir via id in
      match ethereum_key keys with
      | Some k => Ret (Ok k)
      | None =>
          let* e := call (RandomBytes 32) in
          let* k := pure (unwrap (eth_key_from_slice e)) in Ret (Ok k)
      end
  end.

(** What is saved: the phrase generated, the one given, or the one already stored. *)
Definition phrase_to_save (generated_cosmos cosmos_phrase : option string) (home_dir : PathBuf) :
    io (result string GravityError) :=
  match generated_cosmos, cosmos_phrase with
  | Some v, None => Ret (Ok v)
  | None, Some s => Ret (Ok s)
  | _, _ =>
      let* d := call DiskRead in
      let*? keys := pure (load_keys home_dir d) via id in
      let* phrase := the (orchestrator_phrase keys) in Ret (Ok phrase)
  end.
Definition save_registered (generated_cosmos cosmos_phrase : option string) (ethereum_key : EthPrivateKey)
    (home_dir : PathBuf) : io (result unit GravityError) :=
  let*? phrase := phrase_to_save generated_cosmos cosmos_phrase home_dir via id in
  let new_keys := mkKeyStorage (Some phrase) (Some ethereum_key) in
  let* _ := on_disk (save_keys home_dir new_keys) in Ret (Ok tt).

Definition register_orchestrator_address (args : RegisterOrchestratorAddressOpts) (prefix : string)
    (home_dir : PathBuf) : io (result unit GravityError) :=
  let fee := ra_fees args in
  let validator_key := ra_validator_phrase args in
  let cosmos_phrase := ra_cosmos_phrase args in
  let* set_up := if ra_no_save args then Ret true
                 else let* d := call DiskRead in Ret (config_exists home_dir d) in
  if negb set_up then Ret (Err not_initialised)
  else
  let* connections := create_rpc_connections prefix (Some (ra_cosmos_grpc args)) None CLIENT_TIMEOUT in
  let* contact := the (conn_contact connections) in
  let* _ := wait_for_cosmos_node_ready in
  let* validator_addr := pure (unwrap (cosmos_key_to_address validator_key (contact_prefix contact))) in
  let*? _ := check_for_fee fee validator_addr via id in
  let*? cosmos := registered_cosmos_key cosmos_phrase home_dir via id in
  let '(cosmos_key, generated_cosmos) := cosmos in
  let*? ethereum_key := registered_ethereum_key (ra_ethereum_key args) home_dir via id in
  let* cosmos_address := pure (unwrap (cosmos_key_to_address cosmos_key (contact_prefix contact))) in
  let* res := set_gravity_delegate_addresses (contact_prefix contact) (eth_key_to_address ethereum_key)
                cosmos_address validator_key fee in
  let* res := pure (expect res "Failed to update Eth address") in
  let* res := call (ContactWaitForTx res CLIENT_TIMEOUT) in
  match res with
  | Err _ => Ret (Err (UnrecoverableError
      "Failed trying to register delegate addresses error {:?}, correct the error and try again"))
  | Ok _ =>
      if negb (ra_no_save args) then save_registered generated_cosmos cosmos_phrase ethereum_key home_dir
      else Ret (Ok tt)
  end.

(** ** main.rs *)


Definition run_client (subcmd : ClientSubcommand) (address_prefix : string) : io (result unit GravityError) :=
  match subcmd with
  | EthToCosmos opts => eth_to_cosmos opts address_prefix
  | CosmosToEth opts => cosmos_to_eth opts address_prefix
  | DeployErc20Representation opts => deploy_erc20_representation opts address_prefix
  end.
Definition run_keys (subcmd : KeysSubcommand) (address_prefix : string) (home_dir : PathBuf) :
    io (result unit GravityError) :=
  match subcmd with
  | RegisterOrchestratorAddress opts => register_orchestrator_address opts address_prefix home_dir
  | ShowKeys => let* d := call DiskRead in pure (show_keys home_dir address_prefix d)
  | SetEthereumKey key => on_disk (set_eth_key home_dir key)
  | SetOrchestratorKey phrase => on_disk (set_orchestrator_key home_dir phrase)
  end.

Definition run_nabt (opts : Opts) : io (result unit GravityError) :=
  let address_prefix := opt_address_prefix opts in
  let*? home_dir := Ret (get_home_dir (opt_home opts)) via id in
  let* d := call DiskRead in
  let*? config := pure (load_config home_dir d) via id in
  match opt_subcmd opts with
  | ClientCommand subcmd => run_client subcmd address_prefix
  | KeysCommand subcmd => run_keys subcmd address_prefix home_dir
  | OrchestratorCommand orchestrator_opts => orchestrator orchestrator_opts address_prefix home_dir config
  | RelayerCommand relayer_opts => relayer relayer_opts address_prefix home_dir (config_relayer config)
  | InitCommand => on_disk (init_config home_dir)
  end.

(** The exit code: only what cannot be recovered from is a failure. *)
Definition main (opts : Opts) : io Z :=
  let* r := run_nabt opts in
  Ret (match r with
       | Err (UnrecoverableError _) => 1
       | Err (ValidationError _) | Err (RpcError _) | Ok _ => 0
       end).
End Nabt.
