(* ===== verification/OracleTheory.v ===== *)
(** * The oracle: what it claims, and from where

    Every transaction the oracle posts claims events it has fetched, above the last nonce the chain
    has from it, in their order; an oracle that starts resumes at the block of that nonce. *)

From ITree Require Import ITree.
From S2P Require Import Prelude Bytes Proto External Float Instances Types Signatures Valset ValsetTheory.
From S2P Require Import Batches LogicCall EthEvents Messages Effects CosmosSend Queries Submit SubmitTheory.
From S2P Require Import CosmosTheory Join Oracle.
From Stdlib Require Import Sorted.

Section Posting.
Context `{X : Ext} `{BD : Build}.
Implicit Types (P : spec) (A : env) (l : log).

(** A requirement on the transactions posted to Cosmos; none may be sent to Ethereum. *)
Definition on_post (S : bytes → log → Prop) : spec := λ R e l,
  match e with
  | ContactSendTransaction msg => S msg l
  | _ => spends e = false
  end.
Lemma on_post_lenient S : lenient (on_post S).
Proof. intros R e l. by destruct e. Qed.

(** The bytes are these messages, signed by the key for the sequence the chain reported. *)
Definition signed_as (key : CosmosPrivateKey) (own : CosmosAddress) (msgs : list Msg) (fee : Fee)
    (msg : bytes) l : Prop :=
  ∃ args, saw l (ContactGetMessageArgs own fee) (Ok args) ∧ sign_std_msg key msgs args MEMO = Ok msg.

Lemma signed_as_sub key own msgs fee msg l l' : l ⊆ l' → signed_as key own msgs fee msg l → signed_as key own msgs fee msg l'.
Proof. intros H (args & Ha & Hs). exists args. split; [by apply H|done]. Qed.

Lemma posts_post l msg x : posts (l ++ [mkEntry _ (ContactSendTransaction msg) x]) = posts l ++ [msg].
Proof. unfold posts. by rewrite omap_app. Qed.
Lemma sends_post l msg x : sends (l ++ [mkEntry _ (ContactSendTransaction msg) x]) = sends l.
Proof. unfold sends. rewrite omap_app. simpl. by rewrite app_nil_r. Qed.

(** At most one transaction is posted, and a failure before it leaves nothing behind. *)
Definition posted_once l0 l (ok : bool) : Prop :=
  l0 ⊆ l ∧ sends l = sends l0 ∧
  ((ok = false ∧ posts l = posts l0) ∨ ∃ msg, posts l = posts l0 ++ [msg]).

Lemma sign_and_send_spec P A own key msgs fee wait l0 :
  lenient P →
  (∀ msg l, l0 ⊆ l → spent l = spent l0 → signed_as key own msgs fee msg l →
     P _ (ContactSendTransaction msg) l) →
  sat P A (sign_and_send own key msgs fee wait) l0 (λ r l, posted_once l0 l (is_ok r)).
Proof.
  intros HP HS. unfold sign_and_send. apply sat_call_try; [by apply HP| |].
  2: { intros e _. split_and!; [sub|by apply sends_snoc|left; split; [done|by apply posts_snoc]]. }
  intros args _. apply sat_ret_try.
  2: { intros e _. split_and!; [sub|by apply sends_snoc|left; split; [done|by apply posts_snoc]]. }
  intros msg Hmsg. apply sat_call_try.
  { apply HS; [sub|by apply spent_snoc|]. exists args. split; [solve_saw|done]. }
  - intros response _. destruct wait as [d|].
    + apply sat_call; [by apply HP|]. intros r _. split_and!; [sub| |].
      * by rewrite sends_snoc, sends_post, sends_snoc by done.
      * right. exists msg. by rewrite posts_snoc, posts_post, posts_snoc by done.
    + apply sat_ret. split_and!; [sub|by rewrite sends_post, sends_snoc|].
      right. exists msg. by rewrite posts_post, posts_snoc by done.
  - intros e _. split_and!; [sub|by rewrite sends_post, sends_snoc|].
    right. exists msg. by rewrite posts_post, posts_snoc by done.
Qed.

(** A result means that the transaction was signed so, posted and accepted; where the caller waits, it
    is what the wait for that transaction answered. *)
Lemma sign_and_send_accepted P A own key msgs fee wait l0 :
  lenient P →
  (∀ msg l, l0 ⊆ l → spent l = spent l0 → signed_as key own msgs fee msg l →
     P _ (ContactSendTransaction msg) l) →
  sat P A (sign_and_send own key msgs fee wait) l0 (λ r l, l0 ⊆ l ∧ (length (posts l) ≤ S (length (posts l0)))%nat ∧
    (is_ok r = true → ∃ msg response, posts l = posts l0 ++ [msg] ∧ signed_as key own msgs fee msg l ∧
       saw l (ContactSendTransaction msg) (Ok response) ∧
       match wait with Some d => saw l (ContactWaitForTx response d) r | None => r = Ok response end)).
Proof.
  intros HP HS. unfold sign_and_send.
  apply sat_call_try; [by apply HP| |intros e _; split_and!; [sub|rewrite posts_snoc by done; lia|done]].
  intros args _. apply sat_ret_try; [|intros e _; split_and!; [sub|rewrite posts_snoc by done; lia|done]].
  intros msg Hmsg. set (l1 := l0 ++ _).
  assert (signed_as key own msgs fee msg l1) as Hsigned by (exists args; split; [unfold l1; solve_saw|done]).
  apply sat_call_try.
  - apply HS; [unfold l1; sub|by apply spent_snoc|done].
  - intros response _. set (l2 := l1 ++ _).
    assert (posts l2 = posts l0 ++ [msg]) as Hposts by (unfold l2, l1; by rewrite posts_post, posts_snoc).
    assert (signed_as key own msgs fee msg l2) as Hs2 by (eapply signed_as_sub; [apply subseteq_snoc|done]).
    assert (saw l2 (ContactSendTransaction msg) (Ok response)) as Ha by (unfold l2; solve_saw).
    assert (∀ l3 (W : TxResponse → Prop), l2 ⊆ l3 → posts l3 = posts l2 → W response →
      l0 ⊆ l3 ∧ (length (posts l3) ≤ S (length (posts l0)))%nat ∧
      ∃ msg response, posts l3 = posts l0 ++ [msg] ∧ signed_as key own msgs fee msg l3 ∧
        saw l3 (ContactSendTransaction msg) (Ok response) ∧ W response) as Hend.
    { intros l3 W Hl3 Hp HW. split_and!; [etrans; [|exact Hl3]; unfold l2, l1; sub| |].
      - rewrite Hp, Hposts, length_app. simpl. lia.
      - exists msg, response. split_and!; [by rewrite Hp|by eapply signed_as_sub|by apply Hl3|done]. }
    destruct wait as [d|].
    + apply sat_call; [by apply HP|]. intros r _.
      set (l3 := l2 ++ _).
      destruct (Hend l3 (λ x, saw l3 (ContactWaitForTx x d) r)) as (?&?&?);
        [unfold l3; sub|by unfold l3; rewrite posts_snoc|unfold l3; solve_saw|].
      split_and!; [done..|]. intros _. done.
    + apply sat_ret. destruct (Hend l2 (λ x, Ok response = Ok x :> result TxResponse CosmosGrpcError)) as (?&?&?); [done..|]. split_and!; [done..|]. intros _. done.
  - intros e _. split_and!; [unfold l1; sub| |done]. rewrite posts_post, length_app. unfold l1.
    rewrite posts_snoc by done. simpl. lia.
Qed.
End Posting.

(** ** Claiming events *)

Section Claiming.
Context `{X : Ext} `{BD : Build}.
Implicit Types (P : spec) (A : env) (l : log).

(** The last block watched: the reported one less the delay of the reported network. *)
Definition saw_latest l (latest : Uint256) : Prop :=
  ∃ h v, saw l EthBlockNumber (Ok h) ∧ saw l NetVersion (Ok v) ∧ u256_sub h (block_delay v) = Done latest.

(** The last event nonce the chain has from this oracle. *)
Definition saw_event_nonce l (own : CosmosAddress) (prefix : string) (n : Z) : Prop :=
  ∃ text, cosmos_address_to_bech32 own prefix = Ok text ∧ saw l (QLastEventNonce text) (Ok n).

(** The events of a kind in a range of blocks, all of them decoded. *)
Definition saw_events {E} (from_log : Log → eval (result E GravityError)) (signature : string) l
    (g : EthAddress) (from to : Uint256) (events : list E) : Prop :=
  ∃ logs, saw l (CheckForEvents from (Some to) [g] signature) (Ok logs) ∧
    try_map from_log logs = Done (Ok events).

(** The five kinds of events of a range. *)
Record events := mkEvents {
  ev_deposits : list SendToCosmosEvent;
  ev_withdraws : list TransactionBatchExecutedEvent;
  ev_deploys : list Erc20DeployedEvent;
  ev_calls : list LogicCallExecutedEvent;
  ev_valsets : list ValsetUpdatedEvent;
}.
Definition saw_all_events l (g : EthAddress) (from to : Uint256) (evs : events) : Prop :=
  saw_events send_to_cosmos_from_log SENT_TO_COSMOS_EVENT_SIG l g from to (ev_deposits evs) ∧
  saw_events batch_executed_from_log TRANSACTION_BATCH_EXECUTED_EVENT_SIG l g from to (ev_withdraws evs) ∧
  saw_events erc20_deployed_from_log ERC20_DEPLOYED_EVENT_SIG l g from to (ev_deploys evs) ∧
  saw_events logic_call_executed_from_log LOGIC_CALL_EVENT_SIG l g from to (ev_calls evs) ∧
  saw_events valset_updated_from_log VALSET_UPDATED_EVENT_SIG l g from to (ev_valsets evs).

(** Those above a nonce, and the claims they give rise to. *)
Definition above (last : Z) (evs : events) : events :=
  {| ev_deposits := filter (λ e, last < stc_event_nonce e) (ev_deposits evs);
     ev_withdraws := filter (λ e, last < tbe_event_nonce e) (ev_withdraws evs);
     ev_deploys := filter (λ e, last < ede_event_nonce e) (ev_deploys evs);
     ev_calls := filter (λ e, last < lce_event_nonce e) (ev_calls evs);
     ev_valsets := filter (λ e, last < vue_event_nonce e) (ev_valsets evs) |}.
Definition claims_for (prefix : string) (own : CosmosAddress) (evs : events) : list (Z * eval Msg) :=
  all_claims prefix own (ev_deposits evs) (ev_withdraws evs) (ev_deploys evs) (ev_calls evs) (ev_valsets evs).
Definition no_events : events := mkEvents [] [] [] [] [].

(** When the oracle may post: the bytes are the claims of the events above the last nonce of a range
    of blocks it has fetched, sorted by nonce, one for each nonce. *)
Definition claims_guard (prefix : string) (g : EthAddress) (key : CosmosPrivateKey) (fee : Coin)
    (start : Uint256) (msg : bytes) l : Prop :=
  ∃ own latest evs last m,
    cosmos_key_to_address key prefix = Ok own ∧ saw_latest l latest ∧
    saw_all_events l g start latest evs ∧ saw_event_nonce l own prefix last ∧
    holds_claims (claims_for prefix own (above last evs)) m ∧ m ≠ [] ∧
    StronglySorted Z.lt (last :: m.*1) ∧
    signed_as key own m.*2 (one_coin_fee fee 500000000) msg l.

Lemma saw_latest_sub l l' h : l ⊆ l' → saw_latest l h → saw_latest l' h.
Proof. intros H (b & v & H1 & H2 & H3). exists b, v. split_and!; [by apply H|by apply H|done]. Qed.
Lemma saw_event_nonce_sub l l' o p n : l ⊆ l' → saw_event_nonce l o p n → saw_event_nonce l' o p n.
Proof. intros H (t & Ht & Hs). exists t. split; [done|by apply H]. Qed.
Lemma saw_events_sub {E} (f : Log → eval (result E GravityError)) sg l l' g a b evs :
  l ⊆ l' → saw_events f sg l g a b evs → saw_events f sg l' g a b evs.
Proof. intros H (logs & Hs & Hm). exists logs. split; [by apply H|done]. Qed.
Lemma saw_all_events_sub l l' g a b evs : l ⊆ l' → saw_all_events l g a b evs → saw_all_events l' g a b evs.
Proof. intros H (H1 & H2 & H3 & H4 & H5). split_and!; by eapply saw_events_sub. Qed.
Lemma claims_guard_sub prefix g key fee start msg l l' :
  l ⊆ l' → claims_guard prefix g key fee start msg l → claims_guard prefix g key fee start msg l'.
Proof.
  intros H (own & latest & evs & last & m & H1 & H2 & H3 & H4 & H5 & H6 & H7 & H8).
  exists own, latest, evs, last, m. split_and!; try done.
  - by eapply saw_latest_sub.
  - by eapply saw_all_events_sub.
  - by eapply saw_event_nonce_sub.
  - by eapply signed_as_sub.
Qed.

Lemma get_event_nonce_spec P A own prefix l : lenient P →
  sat P A (get_last_event_nonce_for_validator own prefix) l (λ r l',
    (l ⊆ l' ∧ spent l' = spent l) ∧ ∀ n, r = Ok n → saw_event_nonce l' own prefix n ∧
      ∃ text, A _ (QLastEventNonce text) (Ok n)).
Proof.
  intros HP. unfold get_last_event_nonce_for_validator. apply sat_pure_bind; [intros; by apply HP|].
  intros text Ht%unwrap_Done. apply sat_call_try; [by apply HP| |].
  - intros n Hn. apply sat_ret. split; [split; [sub|by apply spent_snoc]|]. intros m [= <-].
    split; [|by exists text]. exists text. split; [done|solve_saw].
  - intros e _. split; [split; [sub|by apply spent_snoc]|done].
Qed.

(** The claims of filtered events are above the nonce they were filtered by. *)
Lemma claims_above prefix own last evs k c : (k, c) ∈ claims_for prefix own (above last evs) → last < k.
Proof.
  unfold claims_for, all_claims, claims_of, above. simpl.
  rewrite !elem_of_app, !list_elem_of_fmap. intros H.
  repeat destruct H as [H|H]; destruct H as (e & [= -> _] & He); apply list_elem_of_filter in He; naive_solver.
Qed.

Lemma claims_sorted_above prefix own last evs m :
  holds_claims (claims_for prefix own (above last evs)) m → StronglySorted Z.lt (last :: m.*1).
Proof.
  intros (Hs & _ & Hm). constructor; [exact Hs|]. apply Forall_forall. intros k Hk.
  apply list_elem_of_fmap in Hk as ([k' msg] & -> & Hin). apply Hm in Hin.
  apply last_Some_elem_of, list_elem_of_filter in Hin as [_ Hin]. by eapply claims_above.
Qed.

Lemma claims_nonempty prefix own evs m :
  holds_claims (claims_for prefix own evs) m → claims_for prefix own evs ≠ [] → m ≠ [].
Proof.
  intros (_ & Hd & Hm) Hne ->. destruct (claims_for prefix own evs) as [|[k c] cs] eqn:E; [done|].
  assert (last (filter (λ c, c.1 = k) ((k, c) :: cs)) ≠ None) as Hl.
  { rewrite filter_cons_True by done. by rewrite last_None. }
  destruct (last (filter (λ c, c.1 = k) ((k, c) :: cs))) as [[k' c']|] eqn:Hlast; [|done].
  pose proof (last_Some_elem_of _ _ Hlast) as Hin. apply list_elem_of_filter in Hin as [Hk Hin].
  simpl in Hk. subst k'. rewrite Forall_forall in Hd. destruct (Hd _ Hin) as [msg Hmsg]. simpl in Hmsg.
  subst c'. apply Hm in Hlast. by apply elem_of_nil in Hlast.
Qed.

(** What a round of watching leaves behind: at most one transaction; and if it succeeds, the block
    it returns is the latest one watched, and either no event was above the last nonce and nothing
    was posted, or one transaction was, and the chain's nonce changed. *)
Definition watched (prefix : string) (g : EthAddress) (key : CosmosPrivateKey) (start : Uint256) l0
    (r : result Uint256 GravityError) l : Prop :=
  l0 ⊆ l ∧ sends l = sends l0 ∧ (length (posts l) ≤ S (length (posts l0)))%nat ∧
  ∀ b, r = Ok b → ∃ own evs last,
    cosmos_key_to_address key prefix = Ok own ∧ saw_latest l b ∧ saw_all_events l g start b evs ∧
    saw_event_nonce l own prefix last ∧
    ((above last evs = no_events ∧ posts l = posts l0) ∨
     (∃ new msg, saw_event_nonce l own prefix new ∧ new ≠ last ∧ posts l = posts l0 ++ [msg])).

Lemma watched_err prefix g key start l0 l e :
  l0 ⊆ l → spent l = spent l0 → watched prefix g key start l0 (Err e) l.
Proof. intros Hl Hs. split_and!; [done|by apply sends_spent|by rewrite (posts_spent _ _ Hs); lia|done]. Qed.

Lemma nonempty_events evs prefix own :
  let found := nonempty (ev_deposits evs) || nonempty (ev_withdraws evs) || nonempty (ev_deploys evs) ||
    nonempty (ev_calls evs) || nonempty (ev_valsets evs) in
  (found = true → claims_for prefix own evs ≠ []) ∧ (found = false → evs = no_events).
Proof.
  destruct evs as [deposits withdraws deploys calls valsets]. unfold claims_for, all_claims. simpl.
  by destruct deposits, withdraws, deploys, calls, valsets.
Qed.

(** Posting the claims, and asking for the nonce again. *)
Lemma send_claims_spec P A prefix key own fee evs last l0 :
  lenient P → cosmos_key_to_address key prefix = Ok own → claims_for prefix own (above last evs) ≠ [] →
  (∀ m msg l, l0 ⊆ l → spent l = spent l0 → holds_claims (claims_for prefix own (above last evs)) m →
     m ≠ [] → StronglySorted Z.lt (last :: m.*1) →
     signed_as key own m.*2 (one_coin_fee fee 500000000) msg l → P _ (ContactSendTransaction msg) l) →
  let new := above last evs in
  sat P A (send_ethereum_claims prefix key (ev_deposits new) (ev_withdraws new) (ev_deploys new)
    (ev_calls new) (ev_valsets new) fee) l0 (λ r l, posted_once l0 l (is_ok r)).
Proof.
  intros HP Hown Hne HS new. unfold send_ethereum_claims. rewrite Hown. cbn [unwrap].
  apply sat_pure_bind; [done|]. intros own' [= <-]. apply sat_pure_bind; [intros; by apply HP|].
  intros m Hm%ordered_claims_spec. change (holds_claims (claims_for prefix own new) m) in Hm.
  apply sign_and_send_spec; [done|]. intros msg l Hl Hsp Hsig. apply (HS m); try done.
  - by eapply claims_nonempty.
  - by eapply claims_sorted_above.
Qed.

Lemma claim_events_spec P A prefix g key own fee start latest valset_logs batch_logs deposit_logs
    deploy_logs call_logs l0 :
  lenient P → cosmos_key_to_address key prefix = Ok own → saw_latest l0 latest →
  let fetched sg logs := saw l0 (CheckForEvents start (Some latest) [g] sg) (Ok logs) in
  fetched SENT_TO_COSMOS_EVENT_SIG deposit_logs → fetched TRANSACTION_BATCH_EXECUTED_EVENT_SIG batch_logs →
  fetched VALSET_UPDATED_EVENT_SIG valset_logs → fetched ERC20_DEPLOYED_EVENT_SIG deploy_logs →
  fetched LOGIC_CALL_EVENT_SIG call_logs →
  (∀ msg l, l0 ⊆ l → spent l = spent l0 → claims_guard prefix g key fee start msg l →
     P _ (ContactSendTransaction msg) l) →
  sat P A (claim_events prefix key own fee latest valset_logs batch_logs deposit_logs deploy_logs call_logs)
    l0 (watched prefix g key start l0).
Proof.
  intros HP Hown Hlatest fetched Hd Hb Hv He Hc HS. unfold claim_events.
  assert (∀ e, watched prefix g key start l0 (Err e) l0) as Herr by (intros; by apply watched_err).
  apply sat_pure_try; [intros; by apply HP| |done]. intros valsets Hvs.
  apply sat_pure_try; [intros; by apply HP| |done]. intros withdraws Hws.
  apply sat_pure_try; [intros; by apply HP| |done]. intros deposits Hds.
  apply sat_pure_try; [intros; by apply HP| |done]. intros deploys Hes.
  apply sat_pure_try; [intros; by apply HP| |done]. intros calls Hcs.
  set (evs := mkEvents deposits withdraws deploys calls valsets).
  assert (saw_all_events l0 g start latest evs) as Hevs.
  { split_and!; [by exists deposit_logs|by exists batch_logs|by exists deploy_logs|by exists call_logs|
      by exists valset_logs]. }
  eapply sat_run_try; [by apply get_event_nonce_spec| |].
  2: { intros e l [[Hl Hs] _]. by apply watched_err. }
  intros last l1 [[Hl1 Hs1] Hlast]. destruct (Hlast last eq_refl) as [Hlast' _]. clear Hlast. rename Hlast' into Hlast. cbv zeta.
  unfold valset_updated_filter, send_to_cosmos_filter, batch_executed_filter, erc20_deployed_filter,
    logic_call_executed_filter. rewrite !filter_by_nonce_eq.
  change (filter (λ x, last < vue_event_nonce x) valsets) with (ev_valsets (above last evs)).
  change (filter (λ x, last < stc_event_nonce x) deposits) with (ev_deposits (above last evs)).
  change (filter (λ x, last < tbe_event_nonce x) withdraws) with (ev_withdraws (above last evs)).
  change (filter (λ x, last < ede_event_nonce x) deploys) with (ev_deploys (above last evs)).
  change (filter (λ x, last < lce_event_nonce x) calls) with (ev_calls (above last evs)).
  apply sat_pure_bind; [intros; by apply HP|]. intros _ _.
  destruct (nonempty_events (above last evs) prefix own) as [Hsome Hnone].
  match type of Hsome with ?b = true → _ => destruct b eqn:Hfound end.
  - eapply sat_run_try; [eapply (send_claims_spec P A prefix key own fee evs last); [done|done|by apply Hsome|]| |].
    + intros m msg l Hl Hsp Hm Hne Hsort Hsig. apply HS; [by etrans|congruence|].
      exists own, latest, evs, last, m. split_and!; try done.
      * eapply saw_latest_sub; [|done]. by etrans.
      * eapply saw_all_events_sub; [|done]. by etrans.
      * by eapply saw_event_nonce_sub.
    + intros res l2 (Hl2 & Hsend & [[? _]|[msg Hmsg]]); [done|].
      assert (l0 ⊆ l2) as H02 by by etrans.
      eapply sat_run_try; [by apply get_event_nonce_spec| |].
      * intros new l3 [[Hl3 Hs3] Hnew]. destruct (Hnew new eq_refl) as [Hnew' _].
        pose proof (posts_spent _ _ Hs3) as Hp3. pose proof (posts_spent _ _ Hs1) as Hp1.
        assert (posts l3 = posts l0 ++ [msg]) as Hp by congruence.
        assert (sends l3 = sends l0) as Hsn.
        { rewrite (sends_spent _ _ Hs3), Hsend. by apply sends_spent. }
        assert (l0 ⊆ l3) as H03 by by etrans.
        destruct (Z.eqb_spec new last); apply sat_ret;
          (split_and!; [done|done|rewrite Hp, length_app; simpl; lia|]); [done|].
        intros b [= <-]. exists own, evs, last. split_and!; [done| | | |].
        -- by eapply saw_latest_sub.
        -- by eapply saw_all_events_sub.
        -- eapply saw_event_nonce_sub; [|done]. by etrans.
        -- right. by exists new, msg.
      * intros e l3 [[Hl3 Hs3] _]. split_and!; [by etrans| | |done].
        -- rewrite (sends_spent _ _ Hs3), Hsend. by apply sends_spent.
        -- rewrite (posts_spent _ _ Hs3), Hmsg, (posts_spent _ _ Hs1), length_app. simpl. lia.
    + intros e l2 (Hl2 & Hsend & Hpost). split_and!; [by etrans| | |done].
      * rewrite Hsend. by apply sends_spent.
      * destruct Hpost as [[_ ->]|[msg ->]]; rewrite ?length_app, (posts_spent _ _ Hs1); simpl; lia.
  - apply sat_ret. split_and!; [done|by apply sends_spent|by rewrite (posts_spent _ _ Hs1); lia|].
    intros b [= <-]. exists own, evs, last. split_and!; [done| | |done|].
    + by eapply saw_latest_sub.
    + by eapply saw_all_events_sub.
    + left. split; [by apply Hnone|by apply posts_spent].
Qed.

Lemma check_for_events_spec P A prefix g key fee start l0 :
  lenient P →
  (∀ msg l, l0 ⊆ l → spent l = spent l0 → claims_guard prefix g key fee start msg l →
     P _ (ContactSendTransaction msg) l) →
  sat P A (check_for_events prefix g key fee start) l0 (watched prefix g key start l0).
Proof.
  intros HP HS. unfold check_for_events. apply sat_pure_bind; [intros; by apply HP|].
  intros own Hown%unwrap_Done. unfold get_block_number_with_retry, get_block_delay, get_net_version_with_retry.
  eapply sat_run; [by apply retry_call_spec|]. intros h l1 [[Hl1 Hs1] [Hh _]].
  apply sat_bind. eapply sat_run; [by apply retry_call_spec|]. intros v l2 [[Hl2 Hs2] [Hv _]]. apply sat_ret.
  apply sat_pure_bind; [intros; by apply HP|]. intros latest Hlatest. cbv zeta.
  assert (l0 ⊆ l2) as H02 by by etrans. assert (spent l2 = spent l0) as Hs by congruence.
  assert (saw_latest l2 latest) as Hlat.
  { exists h, v. split_and!; [by apply Hl2|done|done]. }
  do 5 (apply sat_call_bind; [by apply HP|]; intros ? _).
  set (l3 := _ ++ _).
  assert (l2 ⊆ l3) as H23 by (unfold l3; sub).
  assert (spent l3 = spent l0) as Hs3 by (unfold l3; by rewrite !spent_snoc by done).
  assert (l0 ⊆ l3) as H03 by by etrans.
  repeat match goal with
  | |- sat _ _ (match ?r with _ => _ end) _ _ => destruct r as [?|?]
  | |- sat _ _ (Ret (Err _)) _ _ => apply sat_ret; by apply watched_err
  end.
  eapply sat_mono; [eapply claim_events_spec; [done|done|exact (saw_latest_sub _ _ _ H23 Hlat)|..]|].
  1-5: unfold l3; solve_saw.
  - intros msg l Hl Hsp Hg. apply HS; [by etrans|congruence|done].
  - intros r l (H1 & H2 & H3 & H4).
    rewrite (posts_spent _ _ Hs3) in H3, H4. rewrite (sends_spent _ _ Hs3) in H2.
    split_and!; [by etrans|done|done|done].
Qed.

(** C16: the oracle claims only what it saw. The one transaction a round of watching may post is made
    of the claims of all the events above the last nonce the chain has from this oracle, in a range
    of blocks that ends the network's delay below the reported block, in strictly increasing order
    of their nonces, signed with the oracle's key; it sends nothing to Ethereum. The round succeeds
    with the end of the range only if there was nothing to claim, or the chain's nonce changed. *)
Theorem oracle_claims_guarded prefix g key fee start :
  sat (on_post (λ msg l, posts l = [] ∧ claims_guard prefix g key fee start msg l)) any_env
    (check_for_events prefix g key fee start) [] (watched prefix g key start []).
Proof.
  apply check_for_events_spec; [apply on_post_lenient|]. intros msg l _ Hs Hg.
  split; [by apply (posts_spent [] l)|done].
Qed.
End Claiming.

(** ** Resuming *)

Section Resuming.
Context `{X : Ext} `{XL : !ExtLaws X} `{BD : Build}.
Implicit Types (P : spec) (A : env) (l : log).

(** No event of the list, that has a block, carries the nonce. *)
Definition no_nonce {E} (from_log : Log → eval (result E GravityError)) (nonce_of : E → Z) (last : Z)
    (logs : list Log) : Prop :=
  Forall (λ lg, ∀ e, from_log lg = Done (Ok e) → is_Some (block_number lg) → nonce_of e ≠ last) logs.
Definition carries {E} (from_log : Log → eval (result E GravityError)) (nonce_of : E → Z) (last : Z)
    (lg : Log) : Prop := ∃ e, from_log lg = Done (Ok e) ∧ nonce_of e = last.

(** The validator set of the contract's constructor. *)
Definition first_valset (lg : Log) : Prop := carries valset_updated_from_log vue_valset_nonce 0 lg.

Lemma block_of_nonce_spec {E} (f : Log → eval (result E GravityError)) (nonce_of : E → Z) last logs o :
  block_of_nonce f nonce_of last logs = Done o →
  match o with
  | Some b => ∃ lg, lg ∈ logs ∧ block_number lg = Some b ∧ carries f nonce_of last lg
  | None => no_nonce f nonce_of last logs
  end.
Proof.
  induction logs as [|lg logs IH]; simpl; [by intros [= <-]; constructor|].
  intros H. apply eval_bind_Done in H as (r & Hr & H).
  assert (block_of_nonce f nonce_of last logs = Done o →
    (∀ e, r = Ok e → is_Some (block_number lg) → nonce_of e ≠ last) →
    match o with
    | Some b => ∃ lg', lg' ∈ lg :: logs ∧ block_number lg' = Some b ∧ carries f nonce_of last lg'
    | None => no_nonce f nonce_of last (lg :: logs)
    end) as Hnext.
  { intros H' Hn. specialize (IH H'). destruct o as [b|].
    - destruct IH as (lg' & Hin & ?). exists lg'. split; [by right|done].
    - constructor; [|done]. intros e He Hb. apply Hn; [congruence|done]. }
  destruct r as [e|]; [|by apply Hnext]. destruct (block_number lg) as [b|] eqn:Eb.
  - destruct (Z.eqb_spec (nonce_of e) last) as [En|En].
    + injection H as <-. exists lg. split_and!; [by left|done|by exists e].
    + apply Hnext; [done|]. by intros e' [= ->].
  - apply Hnext; [done|]. by intros e' _ [? ?].
Qed.

Lemma block_of_valset_spec last logs o :
  1 ≤ last → block_of_valset last logs = Done o →
  match o with
  | Some b => ∃ lg, lg ∈ logs ∧ block_number lg = Some b ∧
      (carries valset_updated_from_log vue_event_nonce last lg ∨ (last = 1 ∧ first_valset lg))
  | None => no_nonce valset_updated_from_log vue_event_nonce last logs ∧ Forall (λ lg, ¬ first_valset lg) logs
  end.
Proof.
  intros Hlast. induction logs as [|lg logs IH]; simpl; [intros [= <-]; by repeat constructor|].
  intros H. apply eval_bind_Done in H as (r & Hr & H).
  assert (block_of_valset last logs = Done o →
    (∀ e, r = Ok e → (is_Some (block_number lg) → vue_event_nonce e ≠ last) ∧ vue_valset_nonce e ≠ 0) →
    match o with
    | Some b => ∃ lg', lg' ∈ lg :: logs ∧ block_number lg' = Some b ∧
        (carries valset_updated_from_log vue_event_nonce last lg' ∨ (last = 1 ∧ first_valset lg'))
    | None => no_nonce valset_updated_from_log vue_event_nonce last (lg :: logs) ∧
        Forall (λ lg, ¬ first_valset lg) (lg :: logs)
    end) as Hnext.
  { intros H' Hn. specialize (IH H'). destruct o as [b|].
    - destruct IH as (lg' & Hin & ?). exists lg'. split; [by right|done].
    - destruct IH as [H1 H2]. split; (constructor; [|done]).
      + intros e He Hb. destruct (Hn e) as [Hn1 _]; [congruence|auto].
      + intros (e & He & H0). destruct (Hn e) as [_ Hn2]; [congruence|done]. }
  destruct r as [e|]; [|by apply Hnext].
  destruct (block_number lg) as [b|] eqn:Eb; cbn [unwrap_option eval_bind] in H;
    [rewrite andb_true_r in H|rewrite andb_false_r in H].
  - destruct (Z.eqb_spec (vue_event_nonce e) last) as [En|En].
    { injection H as <-. exists lg. split_and!; [by left|done|]. left. by exists e. }
    destruct (Z.eqb_spec (vue_valset_nonce e) 0) as [E0|E0]; simpl in H.
    + destruct (Z.eqb_spec last 1) as [E1|E1].
      * injection H as <-. exists lg. split_and!; [by left|done|]. right. split; [done|by exists e].
      * destruct (Z.ltb_spec 1 last); [done|lia].
    + apply Hnext; [done|]. by intros e' [= <-].
  - destruct (Z.eqb_spec (vue_valset_nonce e) 0) as [E0|E0]; simpl in H.
    + destruct (Z.eqb_spec last 1) as [E1|E1]; [done|]. destruct (Z.ltb_spec 1 last); [done|lia].
    + apply Hnext; [done|]. intros e' [= <-]. split; [by intros [? ?]|done].
Qed.

Lemma or_else_Done m k o :
  or_else m k = Done o ↔ (∃ b, m = Done (Some b) ∧ o = Some b) ∨ (m = Done None ∧ k = Done o).
Proof. unfold or_else. rewrite eval_bind_Done. split; [|naive_solver]. intros ([b|] & -> & H); naive_solver. Qed.

(** The logs of a window, by kind. *)
Record window := mkWindow {
  w_batches : list Log; w_deposits : list Log; w_deploys : list Log; w_calls : list Log; w_valsets : list Log;
}.
Definition saw_logs l (g : EthAddress) (from to : Uint256) (w : window) : Prop :=
  let saw_kind sg logs := saw l (CheckForEvents from (Some to) [g] sg) (Ok logs) in
  saw_kind TRANSACTION_BATCH_EXECUTED_EVENT_SIG (w_batches w) ∧
  saw_kind SENT_TO_COSMOS_EVENT_SIG (w_deposits w) ∧ saw_kind ERC20_DEPLOYED_EVENT_SIG (w_deploys w) ∧
  saw_kind LOGIC_CALL_EVENT_SIG (w_calls w) ∧ saw_kind VALSET_UPDATED_EVENT_SIG (w_valsets w).
Definition search_window_events (last : Z) (w : window) : eval (option Uint256) :=
  search_events last (w_batches w) (w_deposits w) (w_deploys w) (w_calls w) (w_valsets w).

(** No event of the window carries the nonce, and the contract was not deployed in it. *)
Definition cleared (last : Z) (w : window) : Prop :=
  no_nonce batch_executed_from_log tbe_event_nonce last (w_batches w) ∧
  no_nonce send_to_cosmos_from_log stc_event_nonce last (w_deposits w) ∧
  no_nonce erc20_deployed_from_log ede_event_nonce last (w_deploys w) ∧
  no_nonce logic_call_executed_from_log lce_event_nonce last (w_calls w) ∧
  no_nonce valset_updated_from_log vue_event_nonce last (w_valsets w) ∧
  Forall (λ lg, ¬ first_valset lg) (w_valsets w).

(** The block found is the one of an event that carries the nonce, or of the first validator set. *)
Definition found_in (last : Z) (w : window) (b : Uint256) : Prop :=
  ∃ lg, block_number lg = Some b ∧
    ((lg ∈ w_batches w ∧ carries batch_executed_from_log tbe_event_nonce last lg) ∨
     (lg ∈ w_deposits w ∧ carries send_to_cosmos_from_log stc_event_nonce last lg) ∨
     (lg ∈ w_deploys w ∧ carries erc20_deployed_from_log ede_event_nonce last lg) ∨
     (lg ∈ w_calls w ∧ carries logic_call_executed_from_log lce_event_nonce last lg) ∨
     (lg ∈ w_valsets w ∧ (carries valset_updated_from_log vue_event_nonce last lg ∨
                          (last = 1 ∧ first_valset lg)))).

Lemma search_events_spec last w o :
  1 ≤ last → search_window_events last w = Done o →
  match o with Some b => found_in last w b | None => cleared last w end.
Proof.
  intros Hl. unfold search_window_events, search_events. rewrite !or_else_Done.
  intros [(b & H & ->)|[H1%block_of_nonce_spec H]].
  { apply block_of_nonce_spec in H as (lg & ? & ? & ?). exists lg. split; [done|]. by left. }
  destruct H as [(b & H & ->)|[H2%block_of_nonce_spec H]].
  { apply block_of_nonce_spec in H as (lg & ? & ? & ?). exists lg. split; [done|]. by right; left. }
  destruct H as [(b & H & ->)|[H3%block_of_nonce_spec H]].
  { apply block_of_nonce_spec in H as (lg & ? & ? & ?). exists lg. split; [done|]. by do 2 right; left. }
  destruct H as [(b & H & ->)|[H4%block_of_nonce_spec H]].
  { apply block_of_nonce_spec in H as (lg & ? & ? & ?). exists lg. split; [done|]. by do 3 right; left. }
  apply block_of_valset_spec in H; [|done]. destruct o as [b|].
  - destruct H as (lg & Hin & Hb & Hc). rewrite elem_of_reverse in Hin. exists lg. split; [done|].
    do 4 right. by split.
  - destruct H as [H5 H6]. unfold no_nonce in H5. rewrite Forall_reverse in H5, H6.
    unfold cleared, no_nonce in *. by split_and!.
Qed.

(** The blocks from [from] down to [to] were searched, window by window, and are cleared. *)
Inductive resynced l (g : EthAddress) (last : Z) : Uint256 → Uint256 → Prop :=
  | resynced_none from : resynced l g last from from
  | resynced_window from mid to w :
      resynced l g last from mid → 0 < mid → to = Z.max 0 (mid - RESYNC_BLOCKS_TO_SEARCH) →
      saw_logs l g to mid w → cleared last w → resynced l g last from to.

Lemma saw_logs_sub l l' g a b w : l ⊆ l' → saw_logs l g a b w → saw_logs l' g a b w.
Proof. intros H (?&?&?&?&?). split_and!; by apply H. Qed.
Lemma resynced_sub l l' g last a b : l ⊆ l' → resynced l g last a b → resynced l' g last a b.
Proof. intros H. induction 1; [constructor|]. econstructor; [done|done|done|by eapply saw_logs_sub|done]. Qed.

(** Block numbers are [Uint256]s, nonces [u64]s. *)
Definition node_env : env := λ R e,
  match e in callE R return R → Prop with
  | EthBlockNumber => λ r, match r with Ok h => 0 ≤ h ≤ U256_MAX | Err _ => True end
  | QLastEventNonce _ => λ r, match r with Ok n => is_u64 n | Err _ => True end
  | _ => λ _, True
  end.

Lemma window_start current : 0 < current ≤ U256_MAX →
  (if current <? RESYNC_BLOCKS_TO_SEARCH then Done 0 else u256_sub current RESYNC_BLOCKS_TO_SEARCH) =
  Done (Z.max 0 (current - RESYNC_BLOCKS_TO_SEARCH)).
Proof.
  intros H. unfold RESYNC_BLOCKS_TO_SEARCH. destruct (Z.ltb_spec current 5000); [f_equal; lia|].
  rewrite law_u256_sub by lia. f_equal. lia.
Qed.

Lemma resync_window_spec P A g last latest current l :
  lenient P → 1 ≤ last → 0 < current ≤ U256_MAX → resynced l g last latest current →
  sat P A (resync_window g last current) l (λ r l', l ⊆ l' ∧ match r with
    | inl next => (next = current ∨ next = Z.max 0 (current - RESYNC_BLOCKS_TO_SEARCH)) ∧
        resynced l' g last latest next
    | inr b => ∃ to w, to = Z.max 0 (current - RESYNC_BLOCKS_TO_SEARCH) ∧ saw_logs l' g to current w ∧
        found_in last w b
    end).
Proof.
  intros HP Hlast Hc Hs. unfold resync_window. rewrite window_start by done.
  apply sat_pure_bind; [done|]. intros to [= <-]. set (to := Z.max 0 _). cbv zeta.
  do 5 (apply sat_call_bind; [by apply HP|]; intros ? _). set (l1 := _ ++ _).
  assert (l ⊆ l1) as Hl1 by (unfold l1; sub).
  assert (resynced l1 g last latest current) as Hs1 by by eapply resynced_sub.
  assert (sat P A (let* _ := call (Sleep RETRY_TIME) in Ret (inl current)) l1 (λ r l', l ⊆ l' ∧ match r with
    | inl next => (next = current ∨ next = to) ∧ resynced l' g last latest next
    | inr b => ∃ t w, t = to ∧ saw_logs l' g t current w ∧ found_in last w b
    end)) as Hsleep.
  { apply sat_call_bind; [by apply HP|]. intros [] _. apply sat_ret. split; [etrans; [done|]; sub|].
    split; [by left|]. eapply resynced_sub; [|done]. sub. }
  repeat match goal with
  | |- sat _ _ (match ?r with _ => _ end) _ _ => is_var r; destruct r as [?|?]
  end; try exact Hsleep.
  match goal with |- sat _ _ (ITree.bind (pure (search_events _ ?b ?d ?e ?c ?v)) _) _ _ =>
    set (w := mkWindow b d e c v); change (search_events _ b d e c v) with (search_window_events last w) end.
  assert (saw_logs l1 g to current w) as Hw by (unfold l1; split_and!; simpl; solve_saw).
  apply sat_pure_bind; [intros; by apply HP|]. intros o Ho%search_events_spec; [|done].
  destruct o as [b|]; apply sat_ret; (split; [done|]).
  - by exists to, w.
  - split; [by right|]. econstructor; [done|lia|done|done|done].
Qed.

(** C17: an oracle that starts resumes at the block of the last event the chain has from it, or of
    the first event when it has none: the block returned is the one of an event that carries that
    nonce, or of the contract's first validator set when the nonce sought is 1; and every later
    window, walking back from the latest block without gaps, holds neither. *)
Theorem oracle_resumes own prefix g :
  sat (λ _ _ _, True) node_env (get_last_checked_block own prefix g) []
    (λ b l, ∃ n last latest mid to w,
       saw_event_nonce l own prefix n ∧ last = Z.max 1 n ∧ saw l EthBlockNumber (Ok latest) ∧
       resynced l g last latest mid ∧ to = Z.max 0 (mid - RESYNC_BLOCKS_TO_SEARCH) ∧
       saw_logs l g to mid w ∧ found_in last w b).
Proof.
  unfold get_last_checked_block, get_block_number_with_retry, get_last_event_nonce_with_retry.
  eapply sat_run; [by apply retry_call_spec|]. intros latest l1 (_ & Hlatest & Hb). simpl in Hb.
  eapply sat_run with (Q0 := λ n l, l1 ⊆ l ∧ saw_event_nonce l own prefix n ∧ is_u64 n).
  { apply sat_retry with (Inv := λ l, l1 ⊆ l); [|done]. intros l Hl.
    eapply sat_mono; [by apply get_event_nonce_spec|]. intros [n|e] l' [[Hl' _] Hn].
    - destruct (Hn n eq_refl) as (Hs & text & Hu). split_and!; [by etrans|done|exact Hu].
    - split_and!; [by etrans|done|]. etrans; [by etrans|]. sub. }
  intros n l2 (Hl2 & Hn & Hu). cbv zeta.
  assert ((if n =? 0 then 1 else n) = Z.max 1 n) as ->.
  { unfold is_u64 in Hu. destruct (Z.eqb_spec n 0); lia. }
  set (last := Z.max 1 n).
  apply sat_iter with (Inv := λ current l, l2 ⊆ l ∧ 0 ≤ current ≤ U256_MAX ∧ resynced l g last latest current).
  2: { split_and!; [done|lia|lia|constructor]. }
  intros current l (Hl & Hc & Hs). destruct (Z.ltb_spec 0 current); [|by apply sat_panic].
  eapply sat_mono; [apply (resync_window_spec _ _ g last latest); [done|lia|lia|done]|].
  intros [next|b] l' [Hl' H'].
  - destruct H' as [Hnext Hs']. split_and!; [by etrans|..|done];
      unfold RESYNC_BLOCKS_TO_SEARCH in Hnext; destruct Hnext; lia.
  - destruct H' as (to & w & Hto & Hw & Hf). exists n, last, latest, current, to, w.
    split_and!; try done.
    + eapply saw_event_nonce_sub; [|done]. by etrans.
    + apply Hl', Hl, Hl2, Hlatest.
    + by eapply resynced_sub.
Qed.

(** Both nodes answer every query. *)
Definition live_env : env := λ R e,
  match e in callE R return R → Prop with
  | EthBlockNumber => λ r, match r with Ok h => 0 ≤ h ≤ U256_MAX | Err _ => False end
  | QLastEventNonce _ => λ r, match r with Ok n => is_u64 n | Err _ => False end
  | CheckForEvents _ _ _ _ => λ r, is_ok r = true
  | _ => λ _, True
  end.

Lemma term_retry_live {R E} (t : io (result R E)) d (Q : R → Prop) :
  term live_env (λ r, match r with Ok x => Q x | Err _ => False end) t → term live_env Q (retry t d).
Proof.
  intros Ht. apply term_iter with (measure := λ _, 0%nat) (Inv := λ _, True); [|done]. intros _ _.
  eapply term_bind; [exact Ht|]. intros [x|e] Hx; [|done]. by apply term_ret.
Qed.

Lemma term_resync_window g last current : 0 < current ≤ U256_MAX →
  term live_env (λ r, match r with inl next => 0 ≤ next < current | inr _ => True end)
    (resync_window g last current).
Proof.
  intros Hc. unfold resync_window. rewrite window_start by done.
  eapply term_bind; [apply term_pure with (Q := λ to, to = Z.max 0 (current - RESYNC_BLOCKS_TO_SEARCH));
    by intros ? [= <-]|]. intros to ->. cbv zeta.
  do 5 (eapply term_bind; [by apply term_call with (Q := λ r, is_ok r = true)|]; intros [?|?] ?; [|done]).
  eapply term_bind; [by apply term_pure with (Q := λ _, True)|]. intros [b|] _; apply term_ret; [done|].
  unfold RESYNC_BLOCKS_TO_SEARCH. lia.
Qed.

(** How many times the contract's logs were asked for, and in how many windows the blocks up to the
    latest fit. *)
Definition scans l : Z :=
  Z.of_nat (length (omap (λ x, match ent_call x with CheckForEvents _ _ _ _ => Some tt | _ => None end) l)).
Definition windows (latest : Z) : Z := (latest + (RESYNC_BLOCKS_TO_SEARCH - 1)) / RESYNC_BLOCKS_TO_SEARCH.

Lemma scans_snoc {R} (e : callE R) x l :
  scans (l ++ [mkEntry R e x]) = scans l + match e with CheckForEvents _ _ _ _ => 1 | _ => 0 end.
Proof. unfold scans. rewrite omap_app, length_app, Nat2Z.inj_add. by destruct e. Qed.

(** What the walk has learnt before it begins. *)
Definition walk_begun own prefix l (last latest : Z) : Prop :=
  ∃ n, saw_event_nonce l own prefix n ∧ last = Z.max 1 n ∧ saw l EthBlockNumber (Ok latest).

(** The walk asks for the five kinds of events of the [k]-th window of 5000 blocks back from the latest,
    and only for those, while the window begins above block 0. It panics for three reasons only: the
    account's address has no text; the search panics on the logs of a window that it came to; or it
    is at block 0, having searched every window and found each cleared. *)
Definition walk_spec own prefix g : spec := λ R e l,
  match e with
  | CheckForEvents from to contracts _ => ∃ latest, saw l EthBlockNumber (Ok latest) ∧
      let current := latest - RESYNC_BLOCKS_TO_SEARCH * (scans l / 5) in
      0 < current ∧ to = Some current ∧ from = Z.max 0 (current - RESYNC_BLOCKS_TO_SEARCH) ∧ contracts = [g]
  | Panics why =>
      (∀ text, cosmos_address_to_bech32 own prefix ≠ Ok text) ∨
      ∃ last latest, walk_begun own prefix l last latest ∧
        (resynced l g last latest 0 ∧ scans l = 5 * windows latest ∨
         ∃ mid w, resynced l g last latest mid ∧
           saw_logs l g (Z.max 0 (mid - RESYNC_BLOCKS_TO_SEARCH)) mid w ∧ search_window_events last w = Panic why)
  | _ => spends e = false
  end.

(** The walk after [k] windows. *)
Definition walked own prefix g last latest (k current : Z) l : Prop :=
  walk_begun own prefix l last latest ∧ resynced l g last latest current ∧
  0 ≤ k ∧ scans l = 5 * k ∧ 0 ≤ latest ≤ U256_MAX ∧ current = Z.max 0 (latest - RESYNC_BLOCKS_TO_SEARCH * k) ∧
  (k = 0 ∨ 0 < latest - RESYNC_BLOCKS_TO_SEARCH * (k - 1)).

Lemma walk_begun_sub own prefix l l' last latest :
  l ⊆ l' → walk_begun own prefix l last latest → walk_begun own prefix l' last latest.
Proof. intros H (n & H1 & H2 & H3). exists n. split_and!; [by eapply saw_event_nonce_sub|done|by apply H]. Qed.

Lemma walked_windows own prefix g last latest k current l :
  walked own prefix g last latest k current l →
  0 ≤ k ≤ windows latest ∧ (current = 0 → k = windows latest) ∧ (0 < current → k < windows latest).
Proof.
  intros (_ & _ & Hk & _ & Hl & -> & Hpos). unfold windows, RESYNC_BLOCKS_TO_SEARCH in *.
  pose proof (Z.div_mod (latest + (5000 - 1)) 5000). pose proof (Z.mod_pos_bound (latest + (5000 - 1)) 5000).
  lia.
Qed.

(** The queries of one window. *)
Lemma sat_scan own prefix g last latest k current l l' sg i {R} (f : result (list Log) Web3Error → io R) Q :
  walked own prefix g last latest k current l → 0 < current → l ⊆ l' → scans l' = scans l + i → 0 ≤ i < 5 →
  (∀ logs, sat (walk_spec own prefix g) live_env (f (Ok logs))
    (l' ++ [mkEntry _ (CheckForEvents (Z.max 0 (current - RESYNC_BLOCKS_TO_SEARCH)) (Some current) [g] sg) (Ok logs)]) Q) →
  sat (walk_spec own prefix g) live_env
    (let* r := call (CheckForEvents (Z.max 0 (current - RESYNC_BLOCKS_TO_SEARCH)) (Some current) [g] sg) in f r) l' Q.
Proof.
  intros ((n & _ & _ & Hlatest) & _ & Hk & Hs & Hl & Hc & _) Hpos Hsub Hi Hlt Hf. apply sat_call_bind.
  - assert (scans l' / 5 = k) as Hdiv by (symmetry; apply Z.div_unique with i; lia).
    exists latest. split; [by apply Hsub|]. rewrite Hdiv. unfold RESYNC_BLOCKS_TO_SEARCH in *.
    assert (latest - 5000 * k = current) as -> by lia. done.
  - intros [logs|e] H; [apply Hf|done].
Qed.

Lemma walk_window own prefix g last latest k current l :
  1 ≤ last → walked own prefix g last latest k current l → 0 < current →
  sat (walk_spec own prefix g) live_env (resync_window g last current) l (λ r l', match r with
    | inl next => next < current ∧ walked own prefix g last latest (k + 1) next l'
    | inr b => l ⊆ l' ∧ scans l' = 5 * (k + 1) ∧ ∃ w,
        saw_logs l' g (Z.max 0 (current - RESYNC_BLOCKS_TO_SEARCH)) current w ∧ found_in last w b
    end).
Proof.
  intros Hlast Hw Hpos. pose proof Hw as (Hb & Hr & Hk & Hs & Hl & Hc & _). unfold resync_window.
  rewrite window_start by (unfold RESYNC_BLOCKS_TO_SEARCH in *; lia).
  apply sat_pure_bind; [done|]. intros to [= <-]. cbv zeta.
  eapply (sat_scan _ _ _ _ _ _ _ l l _ 0); [done|done|done|lia|lia|]. intros lb.
  eapply (sat_scan _ _ _ _ _ _ _ l _ _ 1); [done|done|sub|rewrite !scans_snoc; cbn iota; lia|lia|]. intros ls.
  eapply (sat_scan _ _ _ _ _ _ _ l _ _ 2); [done|done|sub|rewrite !scans_snoc; cbn iota; lia|lia|]. intros ld.
  eapply (sat_scan _ _ _ _ _ _ _ l _ _ 3); [done|done|sub|rewrite !scans_snoc; cbn iota; lia|lia|]. intros lc.
  eapply (sat_scan _ _ _ _ _ _ _ l _ _ 4); [done|done|sub|rewrite !scans_snoc; cbn iota; lia|lia|]. intros lv.
  set (l1 := _ ++ _). cbn iota.
  assert (l ⊆ l1) as Hl1 by (unfold l1; sub).
  assert (scans l1 = 5 * (k + 1)) as Hs1 by (unfold l1; rewrite !scans_snoc; cbn iota; lia).
  set (w := mkWindow lb ls ld lc lv).
  change (search_events last lb ls ld lc lv) with (search_window_events last w).
  assert (saw_logs l1 g (Z.max 0 (current - RESYNC_BLOCKS_TO_SEARCH)) current w) as Hlogs
    by (unfold l1; split_and!; simpl; solve_saw).
  apply (walk_begun_sub _ _ _ l1) in Hb; [|done]. apply (resynced_sub _ l1) in Hr; [|done].
  apply sat_pure_bind.
  { intros why Hwhy. right. exists last, latest. split; [done|]. right. by exists current, w. }
  intros o Ho%search_events_spec; [|done]. destruct o as [b|]; apply sat_ret.
  - split_and!; [done..|]. by exists w.
  - unfold walked, RESYNC_BLOCKS_TO_SEARCH in *. split; [lia|]. split_and!; [done| |lia|done|lia..].
    by eapply resynced_window.
Qed.

(** What a returned block is: it was found in a window of the walk. *)
Definition walk_found own prefix g (b : Uint256) l : Prop :=
  ∃ last latest mid w, walk_begun own prefix l last latest ∧ resynced l g last latest mid ∧
    saw_logs l g (Z.max 0 (mid - RESYNC_BLOCKS_TO_SEARCH)) mid w ∧ found_in last w b ∧
    scans l ≤ 5 * windows latest.

Lemma walk_sat own prefix g last latest l :
  1 ≤ last → walked own prefix g last latest 0 latest l →
  sat (walk_spec own prefix g) live_env
    (ITree.iter (λ current,
       if 0 <? current then resync_window g last current
       else panic "You have reached the end of block history without finding the Gravity contract deploy event! You must have the wrong contract address!")
       latest) l (walk_found own prefix g).
Proof.
  intros Hlast Hw. apply sat_iter with (Inv := λ c l, ∃ k, walked own prefix g last latest k c l); [|by exists 0].
  clear l Hw. intros c l (k & Hw). pose proof (walked_windows _ _ _ _ _ _ _ _ Hw) as (Hk & H0 & Hpos).
  destruct (Z.ltb_spec 0 c) as [Hc|Hc].
  - eapply sat_mono; [by apply (walk_window own prefix g last latest k)|]. intros [next|b] l'.
    { intros [_ ?]. by exists (k + 1). }
    intros (Hl & Hs & w & Hlogs & Hf). destruct Hw as (Hb & Hr & _). exists last, latest, c, w.
    split_and!; [by eapply walk_begun_sub|by eapply resynced_sub|done..|]. specialize (Hpos Hc). lia.
  - apply sat_panic. right. destruct Hw as (Hb & Hr & _ & Hs & _ & Hcur & _).
    assert (c = 0) as -> by lia. exists last, latest. split; [done|]. left. split; [done|].
    by rewrite Hs, (H0 eq_refl).
Qed.

(** C31: while both nodes answer, finding that block ends, in a return or a panic. It walks back from the
    latest block in windows of 5000 blocks, the last one cut at block 0, asking in each for the
    contract's events of the five kinds and for nothing else; so it asks for at most five times as
    many logs as there are such windows. It returns only a block found in a window it came to, the
    ones above it being cleared. It panics only when the account's address has no text, when the
    search panics on the logs of such a window, or when it has searched every window down to block 0
    and found each cleared. *)
Theorem oracle_resync_terminates own prefix g :
  terminates live_env (get_last_checked_block own prefix g) ∧
  sat (walk_spec own prefix g) live_env (get_last_checked_block own prefix g) [] (walk_found own prefix g).
Proof.
  unfold get_last_checked_block, get_block_number_with_retry, get_last_event_nonce_with_retry. split.
  - eapply term_bind; [apply term_retry_live, term_call with (Q := λ r, match r with
      | Ok h => 0 ≤ h ≤ U256_MAX | Err _ => False end); by intros [?|?]|].
    intros latest Hl. eapply term_bind with (Q := λ _, True).
    { apply term_retry_live. unfold get_last_event_nonce_for_validator.
      eapply term_bind; [by apply term_pure with (Q := λ _, True)|]. intros text _.
      eapply term_bind; [by apply term_call with (Q := λ r, is_ok r = true); intros [n|?]|].
      intros [n|e] Hn; [by apply term_ret|done]. }
    intros n _. cbv zeta.
    apply term_iter with (measure := Z.to_nat) (Inv := λ c, 0 ≤ c ≤ U256_MAX); [|done].
    intros c Hc. destruct (Z.ltb_spec 0 c); [|apply term_panic].
    eapply term_mono; [|apply term_resync_window; lia]. intros [next|b]; [|done]. intros. split; lia.
  - eapply sat_run with (Q0 := λ latest l, 0 ≤ latest ≤ U256_MAX ∧ l = [mkEntry _ EthBlockNumber (Ok latest)]).
    { apply sat_retry with (Inv := λ l, l = []); [|done]. intros ? ->. apply sat_call; [done|].
      by intros [h|e] Hh. }
    intros latest l1 [Hlatest ->].
    eapply sat_run with (Q0 := λ n l, is_u64 n ∧ ∃ text, cosmos_address_to_bech32 own prefix = Ok text ∧
      l = [mkEntry _ EthBlockNumber (Ok latest); mkEntry _ (QLastEventNonce text) (Ok n)]).
    { apply sat_retry with (Inv := λ l, l = [mkEntry _ EthBlockNumber (Ok latest)]); [|done]. intros ? ->.
      unfold get_last_event_nonce_for_validator. apply sat_pure_bind.
      { intros why Hw. left. intros text Ht. by rewrite Ht in Hw. }
      intros text Ht%unwrap_Done. apply sat_call_try; [done| |by intros e He].
      intros n Hn. apply sat_ret. split; [done|]. by exists text. }
    intros n l2 (Hn & text & Ht & ->). cbv zeta.
    assert ((if n =? 0 then 1 else n) = Z.max 1 n) as ->.
    { unfold is_u64 in Hn. destruct (Z.eqb_spec n 0); lia. }
    apply walk_sat; [lia|]. split_and!; [|constructor|done|done|lia|lia|lia|by left].
    exists n. split_and!; [exists text; split; [done|]|done|]; unfold saw; set_solver.
Qed.
End Resuming.
