(* ===== verification/OrchestratorTheory.v ===== *)
(** * The orchestrator: what its three roles may do

    The signer confirms only what the chain asks it to, and the whole program, its roles
    interleaved, makes no other transactions than theirs. *)

From ITree Require Import ITree.
From S2P Require Import Prelude Bytes Proto External Float Instances Types Signatures Valset ValsetTheory.
From S2P Require Import Batches LogicCall EthEvents Messages Effects CosmosSend Queries Submit SubmitTheory.
From S2P Require Import CosmosTheory Join Relayer RelayerSearch RelayerTheory Oracle OracleTheory Orchestrator.

(** ** The signer *)

Section Signer.
Context `{X : Ext} `{BD : Build}.
Context (prefix : string) (g : EthAddress) (cosmos_key : CosmosPrivateKey) (ethereum_key : EthPrivateKey).
Context (fee : Coin).
Implicit Types (P : spec) (A : env) (l : log).

(** The messages confirm what the chain reported as unsigned by this orchestrator. *)
Definition confirms_unsigned (own : CosmosAddress) (id text : string) (msgs : list Msg) l : Prop :=
  (∃ ps vs, saw l (QLastPendingValsetRequests text) (Ok ps) ∧ eval_map valset_from_proto ps = Done vs ∧
     vs ≠ [] ∧ msgs = valset_confirm_msg own ethereum_key id <$> vs) ∨
  (∃ p b m, saw l (QLastPendingBatch text) (Ok (Some p)) ∧ batch_try_from p = Done (Ok b) ∧
     batch_confirm_msg own ethereum_key id b = Done m ∧ msgs = [m]) ∨
  (∃ p c, saw l (QLastPendingLogicCall text) (Ok (Some p)) ∧ logic_call_try_from p = Done (Ok c) ∧
     msgs = [logic_call_confirm_msg own ethereum_key id c]).

(** When the signer may post. *)
Definition signer_guard (msg : bytes) l : Prop :=
  ∃ own id text msgs,
    cosmos_key_to_address cosmos_key prefix = Ok own ∧
    saw_gravity_id l g (eth_key_to_address ethereum_key) id ∧
    cosmos_address_to_bech32 own prefix = Ok text ∧ confirms_unsigned own id text msgs l ∧
    signed_as cosmos_key own msgs (one_coin_fee fee 500000000) msg l.

Lemma confirms_unsigned_sub own id text msgs l l' :
  l ⊆ l' → confirms_unsigned own id text msgs l → confirms_unsigned own id text msgs l'.
Proof.
  intros H [(ps & vs & Hs & Hr)|[(p & b & m & Hs & Hr)|(p & c & Hs & Hr)]].
  - left. exists ps, vs. split; [by apply H|done].
  - right; left. exists p, b, m. split; [by apply H|done].
  - right; right. exists p, c. split; [by apply H|done].
Qed.
Lemma signer_guard_sub msg l l' : l ⊆ l' → signer_guard msg l → signer_guard msg l'.
Proof.
  intros H (own & id & text & msgs & H1 & H2 & H3 & H4 & H5). exists own, id, text, msgs. split_and!.
  - done.
  - by eapply saw_gravity_id_sub.
  - done.
  - by eapply confirms_unsigned_sub.
  - by eapply signed_as_sub.
Qed.

(** The only errors the signer reports: the fee it was given, or the gas it asks for, is too low. *)
Definition fee_error (e : GravityError) : Prop :=
  e = UnrecoverableError "Specified fee value too small" ∨
  e = UnrecoverableError "Hardcoded gas amounts insufficient!".
Definition fee_result (r : result unit GravityError) : Prop :=
  match r with Ok _ => True | Err e => fee_error e end.

Lemma check_for_fee_error_spec res : fee_result (check_for_fee_error res fee).
Proof. destruct res as [|[| [] | | |]]; simpl; unfold fee_error; auto. Qed.

Context (P : spec) (HP : lenient P) (HS : ∀ msg l, signer_guard msg l → P _ (ContactSendTransaction msg) l).
Context (own : CosmosAddress) (Hown : cosmos_key_to_address cosmos_key prefix = Ok own) (gid : string).

(** What each step of the signer's round is shown to do, from a log that has the gravity id. *)
Definition signs (t : io (result unit GravityError)) : Prop :=
  ∀ A l, saw_gravity_id l g (eth_key_to_address ethereum_key) gid →
    sat P A t l (λ r l', l ⊆ l' ∧ fee_result r).

(** Sending confirmations of what has been seen. *)
Lemma send_confirms_spec A msgs text l :
  saw_gravity_id l g (eth_key_to_address ethereum_key) gid →
  cosmos_address_to_bech32 own prefix = Ok text → confirms_unsigned own gid text msgs l →
  sat P A (sign_and_send own cosmos_key msgs (one_coin_fee fee 500000000) (Some TIMEOUT)) l
    (λ _ l', l ⊆ l').
Proof.
  intros Hid Ht Hc. eapply sat_mono; [apply sign_and_send_spec; [done|]|by intros r l' (Hl' & _)].
  intros msg l' Hl' _ Hs. apply HS. exists own, gid, text, msgs. split_and!; try done.
  - by eapply saw_gravity_id_sub.
  - by eapply confirms_unsigned_sub.
Qed.

(** The address is computed again, to the same result. *)
Lemma own_again {R} (k : CosmosAddress → io R) A l Q :
  sat P A (k own) l Q → sat P A (ITree.bind (pure (unwrap (cosmos_key_to_address cosmos_key prefix))) k) l Q.
Proof. intros H. apply sat_pure_bind; [intros; by apply HP|]. intros a. rewrite Hown. by intros [= <-]. Qed.

Lemma sign_valsets_spec : signs (sign_valsets prefix cosmos_key ethereum_key fee gid own).
Proof.
  intros A l Hid. unfold sign_valsets, get_oldest_unsigned_valsets.
  eapply sat_run with (Q0 := λ r l', l ⊆ l' ∧ ∀ vs, r = Ok vs → ∃ text ps,
    cosmos_address_to_bech32 own prefix = Ok text ∧ saw l' (QLastPendingValsetRequests text) (Ok ps) ∧
    eval_map valset_from_proto ps = Done vs).
  { apply sat_pure_bind; [intros; by apply HP|]. intros text Ht%unwrap_Done.
    apply sat_call_try; [by apply HP| |intros e _; by split; [sub|]].
    intros ps _. apply sat_pure_bind; [intros; by apply HP|]. intros vs Hvs. apply sat_ret.
    split; [sub|]. intros vs' [= <-]. exists text, ps. split_and!; [done|solve_saw|done]. }
  intros [[|v vs]|e] l1 [Hl1 Hv]; [by apply sat_ret| |by apply sat_ret].
  destruct (Hv _ eq_refl) as (text & ps & Ht & Hs & Hm). unfold send_valset_confirms.
  eapply sat_run; [apply own_again, (send_confirms_spec _ _ text);
    [by eapply saw_gravity_id_sub|done|]|].
  - left. by exists ps, (v :: vs).
  - intros res l2 Hl2. apply sat_ret. split; [by etrans|apply check_for_fee_error_spec].
Qed.

Lemma sign_batch_spec : signs (sign_batch prefix cosmos_key ethereum_key fee gid own).
Proof.
  intros A l Hid. unfold sign_batch, get_oldest_unsigned_transaction_batch.
  eapply sat_run with (Q0 := λ r l', l ⊆ l' ∧ ∀ b, r = Ok (Some b) → ∃ text p,
    cosmos_address_to_bech32 own prefix = Ok text ∧ saw l' (QLastPendingBatch text) (Ok (Some p)) ∧
    batch_try_from p = Done (Ok b)).
  { apply sat_pure_bind; [intros; by apply HP|]. intros text Ht%unwrap_Done.
    apply sat_call_try; [by apply HP| |intros e _; by split; [sub|]].
    intros [p|] _; [|apply sat_ret; by split; [sub|]].
    apply sat_pure; [intros; by apply HP|]. intros r Hr. split; [sub|]. intros b ->.
    apply try_bind_Ok in Hr as (b' & Hb & [= ->]). exists text, p. split_and!; [done|solve_saw|done]. }
  intros [[b|]|e] l1 [Hl1 Hv]; [|by apply sat_ret|by apply sat_ret].
  destruct (Hv _ eq_refl) as (text & p & Ht & Hs & Hb). unfold send_batch_confirm.
  eapply sat_run; [apply own_again|].
  - apply sat_pure_bind; [intros; by apply HP|]. intros msgs Hm. simpl in Hm.
    apply eval_bind_Done in Hm as (m & Hm & [= <-]).
    apply (send_confirms_spec _ _ text); [by eapply saw_gravity_id_sub|done|].
    right; left. by exists p, b, m.
  - intros res l2 Hl2. apply sat_ret. split; [by etrans|apply check_for_fee_error_spec].
Qed.

Lemma sign_logic_call_spec : signs (sign_logic_call prefix cosmos_key ethereum_key fee gid own).
Proof.
  intros A l Hid. unfold sign_logic_call, get_oldest_unsigned_logic_call.
  eapply sat_run with (Q0 := λ r l', l ⊆ l' ∧ ∀ c, r = Ok (Some c) → ∃ text p,
    cosmos_address_to_bech32 own prefix = Ok text ∧ saw l' (QLastPendingLogicCall text) (Ok (Some p)) ∧
    logic_call_try_from p = Done (Ok c)).
  { apply sat_pure_bind; [intros; by apply HP|]. intros text Ht%unwrap_Done.
    apply sat_call_try; [by apply HP| |intros e _; by split; [sub|]].
    intros [p|] _; [|apply sat_ret; by split; [sub|]].
    apply sat_pure; [intros; by apply HP|]. intros r Hr. split; [sub|]. intros c ->.
    apply try_bind_Ok in Hr as (c' & Hc & [= ->]). exists text, p. split_and!; [done|solve_saw|done]. }
  intros [[c|]|e] l1 [Hl1 Hv]; [|by apply sat_ret|by apply sat_ret].
  destruct (Hv _ eq_refl) as (text & p & Ht & Hs & Hc). unfold send_logic_call_confirm.
  eapply sat_run; [apply own_again, (send_confirms_spec _ _ text);
    [by eapply saw_gravity_id_sub|done|]|].
  - right; right. by exists p, c.
  - intros res l2 Hl2. apply sat_ret. split; [by etrans|apply check_for_fee_error_spec].
Qed.

Lemma signs_try (t u : io (result unit GravityError)) :
  signs t → signs u → signs (let*? _ := t via id in u).
Proof.
  intros Ht Hu A l Hid. eapply sat_run_try; [by apply Ht| |by intros e l1].
  intros [] l1 [Hl1 _]. eapply sat_mono; [apply Hu; by eapply saw_gravity_id_sub|].
  intros r l2 [Hl2 Hr]. split; [by etrans|done].
Qed.

Lemma both_ready_spec A l : sat P A both_ready l (λ _ l', l ⊆ l').
Proof.
  assert (quiet both_ready) as Hq.
  { unfold both_ready. do 2 (apply quiet_bind; [by apply quiet_call|]; intros [?|?]);
      repeat case_match; quiet_tac. }
  eapply sat_mono; [by apply Hq|]. by intros r l' [Hl _].
Qed.

Lemma sign_once_spec : signs (sign_once prefix cosmos_key ethereum_key fee gid own).
Proof.
  intros A l Hid. unfold sign_once. eapply sat_run; [apply both_ready_spec|].
  intros [] l1 Hl1; [|by apply sat_ret].
  eapply sat_mono.
  - apply (signs_try _ _ sign_valsets_spec); [|by eapply saw_gravity_id_sub].
    apply (signs_try _ _ sign_batch_spec sign_logic_call_spec).
  - intros r l2 [Hl2 Hr]. split; [by etrans|done].
Qed.

(** The whole loop, from any log. *)
Lemma signer_loop_after A l :
  log_monotone P → saw_gravity_id l g (eth_key_to_address ethereum_key) gid →
  sat P A (ITree.iter (λ _ : unit,
    let* async_result :=
      join (sign_once prefix cosmos_key ethereum_key fee gid own) (call (Sleep ETH_SIGNER_LOOP_SPEED)) in
    match async_result with Err e => Ret (inr (Err e)) | Ok _ => Ret (inl tt) end) tt) l
    (λ (r : result unit GravityError) _, ∃ e, r = Err e ∧ fee_error e).
Proof.
  intros HM Hid. apply sat_iter with
    (Inv := λ _ l, saw_gravity_id l g (eth_key_to_address ethereum_key) gid); [|done].
  clear l Hid. intros _ l Hid.
  eapply sat_run; [apply sat_join with (Q := λ r l', l ⊆ l' ∧ fee_result r) (Qu := λ _ _, True)|].
  - done.
  - intros. by apply HP.
  - intros r l1 l2 H12 [H1 Hr]. split; [by etrans|done].
  - done.
  - by apply sign_once_spec.
  - apply sat_call; [by apply HP|done].
  - intros [[]|e] l' [Hl' He]; apply sat_ret; [by eapply saw_gravity_id_sub|by exists e].
Qed.
End Signer.

Section Loops.
Context `{X : Ext} `{BD : Build}.
Context (prefix : string) (g : EthAddress) (cosmos_key : CosmosPrivateKey) (ethereum_key : EthPrivateKey).
Context (fee : Coin).
Implicit Types (P : spec) (A : env) (l : log).

Definition no_gravity_id (r : result unit GravityError) : Prop :=
  r = Err (UnrecoverableError "Failed to get GravityID, check your ethereum node").
Definition fatal (r : result unit GravityError) : Prop :=
  no_gravity_id r ∨ ∃ e, r = Err e ∧ fee_error e.

Lemma signer_loop_sat P A wait l :
  lenient P → log_monotone P →
  (∀ msg l, signer_guard prefix g cosmos_key ethereum_key fee msg l → P _ (ContactSendTransaction msg) l) →
  sat P A (eth_signer_main_loop prefix cosmos_key ethereum_key g fee wait) l (λ r _, fatal r).
Proof.
  intros HP HM HS. unfold eth_signer_main_loop. apply sat_pure_bind; [intros; by apply HP|].
  intros own Hown%unwrap_Done. eapply sat_run; [by apply get_gravity_id_spec|].
  intros [gid|err] l1 Hid; [|by apply sat_ret; left].
  eapply sat_mono; [apply (signer_loop_after prefix g cosmos_key ethereum_key fee); auto|].
  intros r l2 H. by right.
Qed.

(** A round of the oracle's loop posts under its guard, whatever the block it starts from. *)
Definition oracle_guard (msg : bytes) l : Prop := ∃ start, claims_guard prefix g cosmos_key fee start msg l.

Lemma oracle_loop_sat P A l :
  lenient P → log_monotone P →
  (∀ msg l, oracle_guard msg l → P _ (ContactSendTransaction msg) l) →
  sat P A (eth_oracle_main_loop prefix cosmos_key g fee) l (λ _ _, False).
Proof.
  intros HP HM HS. unfold eth_oracle_main_loop. apply sat_pure_bind; [intros; by apply HP|]. intros own _.
  assert (quiet (get_last_checked_block own prefix g)) as Hq.
  { unfold get_last_checked_block, get_block_number_with_retry, get_last_event_nonce_with_retry,
      resync_window. quiet_tac. }
  eapply sat_run; [by apply Hq|]. intros start l1 _.
  apply sat_iter with (Inv := λ _ _, True); [|done]. clear own Hq start l l1. intros start l _.
  eapply sat_run with (Q0 := λ _ _, True); [|intros; by apply sat_ret].
  apply sat_join with (Qu := λ _ _, True); try done.
  - intros. by apply HP.
  - unfold oracle_once. eapply sat_run; [by apply both_ready_spec|]. intros [] l1 _; [|by apply sat_ret].
    eapply sat_run; [apply check_for_events_spec; [done|]|].
    + intros msg l2 _ _ Hg. apply HS. by exists start.
    + intros [b|e] l2 _; by apply sat_ret.
  - apply sat_call; [by apply HP|done].
Qed.

Context (config : GravityBridgeToolsConfig).

(** What the orchestrator may spend on: an event it claims, a confirmation it was asked for; and, if
    the relayer is enabled, what a relayer may send. *)
Definition orchestrator_spec : spec := λ R e l,
  match e with
  | ContactSendTransaction msg =>
      oracle_guard msg l ∨ signer_guard prefix g cosmos_key ethereum_key fee msg l
  | SendTransaction to payload value own key options =>
      relayer_enabled (config_orchestrator config) = true ∧
      relayer_requires ethereum_key g (config_relayer config) to payload value own key options l
  | _ => spends e = false
  end.

Lemma orchestrator_spec_lenient : lenient orchestrator_spec.
Proof. intros R e l. by destruct e. Qed.
Lemma orchestrator_spec_monotone : log_monotone orchestrator_spec.
Proof.
  intros R e l l' Hl. destruct e; simpl; try done.
  - intros [Hen Hr]. split; [done|].
    exact (relayer_requires_monotone ethereum_key g (config_relayer config) _
      (SendTransaction _ _ _ _ _ _) l l' Hl Hr).
  - intros [(start & Hs)|Hs]; [left; exists start; by eapply claims_guard_sub|right; by eapply signer_guard_sub].
Qed.

Lemma orchestrator_loop_sat `{XL : !ExtLaws X} wait l0 :
  sat orchestrator_spec any_env
    (orchestrator_main_loop prefix cosmos_key ethereum_key g fee config wait) l0 (λ r _, fatal r).
Proof.
  pose proof orchestrator_spec_lenient as HP. pose proof orchestrator_spec_monotone as HM.
  assert (∀ l, sat orchestrator_spec any_env (eth_oracle_main_loop prefix cosmos_key g fee) l
    (λ r _, fatal r)) as Ha.
  { intros l. eapply sat_mono; [apply oracle_loop_sat; [done|done|]|done]. intros msg l' H. by left. }
  assert (∀ l, sat orchestrator_spec any_env
    (eth_signer_main_loop prefix cosmos_key ethereum_key g fee wait) l (λ r _, fatal r)) as Hb.
  { intros l. apply signer_loop_sat; [done|done|]. intros msg l' H. by right. }
  unfold orchestrator_main_loop. destruct (relayer_enabled (config_orchestrator config)) eqn:Hen;
    (apply sat_try_join; [done|intros; by apply HP|done|done|]); repeat constructor; auto.
  eapply sat_spec_mono; [|eapply sat_mono; [apply relayer_loop_sat|intros r l Hr; by left]].
  intros Y e l. destruct e; simpl; try done.
Qed.

(** C1: whatever the nodes answer and however the roles interleave, everything the orchestrator
    spends is one of three things: a transaction to Cosmos that claims events it has fetched, above
    the last nonce the chain has from it, in order; a transaction to Cosmos that confirms, with the
    Ethereum key, exactly what the chain reported as not yet confirmed by it, under the gravity id
    the contract reported; or, only if the relayer is enabled, a transaction of the relayer's under
    the relayer's guards. It never approves a transfer and writes no file, and it ends only in a panic or for one of
    the unrecoverable errors: no gravity id, a fee too small, or too little gas. *)
Theorem orchestrator_guarded `{XL : !ExtLaws X} wait :
  sat orchestrator_spec any_env
    (orchestrator_main_loop prefix cosmos_key ethereum_key g fee config wait) [] (λ r _, fatal r).
Proof. apply orchestrator_loop_sat. Qed.
End Loops.
