(* ===== verification/NabtTheory.v ===== *)
(** * The commands: when they act

    The two daemons spend nothing before the chain moves and what they were given checks out; the
    one-shot commands send what they were asked to, and save what they registered. *)

From ITree Require Import ITree.
From S2P Require Import Prelude Bytes Proto External Float Instances Types Effects Host Config Queries.
From S2P Require Import CosmosSend Connection Args Submit SubmitTheory Client Join ConnectionTheory.
From S2P Require Import CosmosTheory Relayer RelayerSearch RelayerTheory Oracle OracleTheory Orchestrator.
From S2P Require Import OrchestratorTheory Nabt.

Section Daemons.
Context `{X : Ext} `{T : !Tools} `{BD : Build}.
Implicit Types (P : spec) (A : env) (l : log).

(** A key the tool has stored: [field] of keys.json. *)
Definition stored {K} (field : KeyStorage → option K) (home_dir : PathBuf) (k : K) l : Prop :=
  ∃ d d' keys, saw l DiskRead d ∧ config_exists home_dir d = true ∧
    saw l DiskRead d' ∧ load_keys home_dir d' = Done (Ok keys) ∧ field keys = Some k.
Definition cosmos_key_from (given : option CosmosPrivateKey) (home_dir : PathBuf) (k : CosmosPrivateKey) l : Prop :=
  given = Some k ∨ given = None ∧ ∃ phrase, stored orchestrator_phrase home_dir phrase l ∧
    cosmos_key_from_phrase phrase "" = Ok k.
Definition ethereum_key_from (given : option EthPrivateKey) (home_dir : PathBuf) (k : EthPrivateKey) l : Prop :=
  given = Some k ∨ given = None ∧ stored ethereum_key home_dir k l.
(** The contract: the one given, or the chain's parameter. *)
Definition contract_from (given : option EthAddress) (g : EthAddress) l : Prop :=
  given = Some g ∨ given = None ∧ ∃ params, saw l QParams (Ok (Some params)) ∧
    address_parse (par_bridge_ethereum_address params) = Ok g.

(** A step that spends nothing, and what its success means. *)
Definition finds {R} (t : io (result R GravityError)) (F : R → log → Prop) : Prop :=
  ∀ P A l, lenient P → sat P A t l (λ r l', l ⊆ l' ∧ spent l' = spent l ∧ ∀ x, r = Ok x → F x l').

Lemma finds_try P A {R V} (t : io (result R GravityError)) (F : R → log → Prop)
    (f : R → io (result V GravityError)) l Q :
  finds t F → lenient P →
  (∀ x l', l ⊆ l' → spent l' = spent l → F x l' → sat P A (f x) l' Q) →
  (∀ e l', l ⊆ l' → spent l' = spent l → Q (Err e) l') →
  sat P A (let*? x := t via id in f x) l Q.
Proof.
  intros Ht HP Hf He. eapply sat_run_try; [by apply Ht|by intros x l' (?&?&?); auto|].
  intros e l' (?&?&?). by apply He.
Qed.

Lemma stored_keys_spec {K} (field : KeyStorage → option K) home_dir :
  finds (stored_keys home_dir) (λ keys l, ∀ k, field keys = Some k →
    field key_storage_default = None → stored field home_dir k l).
Proof.
  intros P A l HP. unfold stored_keys. apply sat_call_bind; [by apply HP|]. intros d _.
  destruct (config_exists home_dir d) eqn:Hd.
  - apply sat_call_bind; [by apply HP|]. intros d' _. apply sat_pure; [intros; by apply HP|]. intros r Hr.
    split_and!; [sub|by rewrite !spent_snoc|]. intros keys -> k Hk _.
    exists d, d', keys. split_and!; try done; solve_saw.
  - apply sat_ret. split_and!; [sub|by rewrite spent_snoc|]. intros keys [= <-] k Hk Hn. congruence.
Qed.

Lemma chosen_cosmos_key_spec given home_dir :
  finds (chosen_cosmos_key given home_dir) (cosmos_key_from given home_dir).
Proof.
  intros P A l HP. unfold chosen_cosmos_key. destruct given as [k|].
  { apply sat_ret. split_and!; [done..|]. intros x [= ->]. by left. }
  apply (finds_try _ _ _ _ _ _ _ (stored_keys_spec orchestrator_phrase home_dir)); [done| |done].
  intros keys l1 Hl Hs Hk. destruct (orchestrator_phrase keys) as [phrase|] eqn:E; [|by apply sat_ret].
  apply sat_pure_bind; [intros; by apply HP|]. intros k Hkey%unwrap_Done. apply sat_ret.
  split_and!; [done..|]. intros x [= <-]. right. split; [done|]. exists phrase. auto.
Qed.
Lemma chosen_ethereum_key_spec given home_dir :
  finds (chosen_ethereum_key given home_dir) (ethereum_key_from given home_dir).
Proof.
  intros P A l HP. unfold chosen_ethereum_key. destruct given as [k|].
  { apply sat_ret. split_and!; [done..|]. intros x [= ->]. by left. }
  apply (finds_try _ _ _ _ _ _ _ (stored_keys_spec ethereum_key home_dir)); [done| |done].
  intros keys l1 Hl Hs Hk. destruct (ethereum_key keys) as [k|] eqn:E; [|by apply sat_ret].
  apply sat_ret. split_and!; [done..|]. intros x [= <-]. right. auto.
Qed.

Lemma contract_or_param_spec given : finds (contract_or_param given) (contract_from given).
Proof.
  intros P A l HP. unfold contract_or_param. destruct given as [c|].
  { apply sat_ret. split_and!; [done..|]. intros x [= ->]. by left. }
  eapply sat_run with (Q0 := λ r l', l ⊆ l' ∧ spent l' = spent l ∧
    ∀ p, r = Ok p → saw l' QParams (Ok (Some p))).
  { apply sat_call_try; [by apply HP| |].
    - intros o _. apply sat_pure_bind; [intros; by apply HP|]. intros p Hp. apply sat_ret.
      split_and!; [sub|by rewrite spent_snoc|]. intros p' [= <-]. destruct o; [|done].
      injection Hp as ->. solve_saw.
    - intros err _. split_and!; [sub|by rewrite spent_snoc|done]. }
  intros r l1 (Hl & Hs & Hr). apply sat_pure_bind; [intros; by apply HP|]. intros p Hp%unwrap_Done.
  destruct (address_parse _) as [c|] eqn:E; apply sat_ret; split_and!; try done.
  intros x [= <-]. right. split; [done|]. exists p. auto.
Qed.

Lemma unit_finds (t : io (result unit GravityError)) (F : log → Prop) :
  (∀ P A l, lenient P → sat P A t l (λ r l', l ⊆ l' ∧ spent l' = spent l ∧ (r = Ok tt → F l'))) →
  finds t (λ _, F).
Proof. intros H P A l HP. eapply sat_mono; [by apply H|]. intros r l' (?&?&Hr). split_and!; try done. by intros [] ->; auto. Qed.
Lemma fee_finds fee own : finds (check_for_fee fee own) (λ _ l, fee_available l fee own).
Proof. apply unit_finds. intros. by apply check_for_fee_spec. Qed.
Lemma eth_finds own : finds (check_for_eth own) (λ _ l, has_ether l own).
Proof. apply unit_finds. intros. by apply check_for_eth_spec. Qed.
Lemma delegates_finds eth own prefix :
  finds (check_delegate_addresses eth own prefix) (λ _ l, delegates_registered l eth own prefix).
Proof.
  apply unit_finds. intros P A l HP. eapply sat_mono; [by apply check_delegates_spec|].
  intros r l' (?&?&Hr). split_and!; [done..|]. by intros ->.
Qed.

(** Facts about a log that more history does not change. *)
Lemma stored_sub {K} (field : KeyStorage → option K) home k l l' :
  l ⊆ l' → stored field home k l → stored field home k l'.
Proof. intros H (d & d' & ks & H1 & H2 & H3 & H4). exists d, d', ks. split_and!; [by apply H|done|by apply H|apply H4..]. Qed.
Lemma cosmos_key_from_sub given home k l l' : l ⊆ l' → cosmos_key_from given home k l → cosmos_key_from given home k l'.
Proof. intros H [?|(? & p & Hp & ?)]; [by left|right]. split; [done|]. exists p. split; [by eapply stored_sub|done]. Qed.
Lemma ethereum_key_from_sub given home k l l' : l ⊆ l' → ethereum_key_from given home k l → ethereum_key_from given home k l'.
Proof. intros H [?|[? Hs]]; [by left|right]. split; [done|]. by eapply stored_sub. Qed.
Lemma contract_from_sub given g l l' : l ⊆ l' → contract_from given g l → contract_from given g l'.
Proof. intros H [?|(? & p & Hp & ?)]; [by left|right]. split; [done|]. exists p. split; [by apply H|done]. Qed.
Lemma node_moving_sub l l' : l ⊆ l' → node_moving l → node_moving l'.
Proof. intros H [h Hh]. exists h. by apply H. Qed.
Lemma has_ether_sub own l l' : l ⊆ l' → has_ether l own → has_ether l' own.
Proof. intros H (b & Hb & ?). exists b. split; [by apply H|done]. Qed.
Lemma fee_available_sub fee own l l' : l ⊆ l' → fee_available l fee own → fee_available l' fee own.
Proof. intros H (b & Hb & ?). exists b. split; [by apply H|done]. Qed.
Lemma delegates_sub eth own prefix l l' :
  l ⊆ l' → delegates_registered l eth own prefix → delegates_registered l' eth own prefix.
Proof.
  intros H (t & e & o & H1 & H2 & H3 & H4). exists t, e, o.
  split_and!; [done|by apply H|by apply H|apply H4..].
Qed.

(** ** orchestrator.rs *)

Section OrchestratorCommand.
Context (args : OrchestratorOpts) (prefix : string) (home_dir : PathBuf) (config : GravityBridgeToolsConfig).

(** What the command has made sure of when it starts its three loops. *)
Definition orchestrator_ready (cosmos_key : CosmosPrivateKey) (eth_key : EthPrivateKey) (g : EthAddress) l : Prop :=
  ∃ own, cosmos_key_to_address cosmos_key prefix = Ok own ∧
    cosmos_key_from (oo_cosmos_phrase args) home_dir cosmos_key l ∧
    ethereum_key_from (oo_ethereum_key args) home_dir eth_key l ∧
    node_moving l ∧
    delegates_registered l (eth_key_to_address eth_key) own prefix ∧
    fee_available l (oo_fees args) own ∧
    has_ether l (eth_key_to_address eth_key) ∧
    contract_from (oo_gravity_contract_address args) g l.

Lemma orchestrator_ready_sub ck ek g l l' : l ⊆ l' → orchestrator_ready ck ek g l → orchestrator_ready ck ek g l'.
Proof.
  intros H (own & H1 & H2 & H3 & H4 & H5 & H6 & H7 & H8). exists own. split_and!; [done|..].
  - by eapply cosmos_key_from_sub.
  - by eapply ethereum_key_from_sub.
  - by eapply node_moving_sub.
  - by eapply delegates_sub.
  - by eapply fee_available_sub.
  - by eapply has_ether_sub.
  - by eapply contract_from_sub.
Qed.

(** What it may spend on, and when. *)
Definition orchestrator_command_spec : spec := λ R e l,
  spends e = true → ∃ ck ek g, orchestrator_ready ck ek g l ∧
    orchestrator_spec prefix g ck ek (oo_fees args) config R e l.

Lemma orchestrator_command_lenient : lenient orchestrator_command_spec.
Proof. intros R e l He Hs. congruence. Qed.

(** C4: the [orchestrator] command spends nothing before the chain has been seen to move, the chain has
    named the orchestrator's two addresses as each other's delegates for one validator, the Ethereum
    account has been seen to hold some ether, and the fee has been checked: the first balance listed
    for the Cosmos account whose denomination contains the fee's (as a substring, so that it may be
    that of another coin) is at least the fee's amount. The keys are those given or those stored, the
    contract the one given or the chain's parameter. Everything spent after that is what the guards
    of its three loops allow. It never ends well: it stops only with an error. *)
Theorem orchestrator_starts_checked `{XL : !ExtLaws X} :
  sat orchestrator_command_spec any_env (orchestrator args prefix home_dir config) []
    (λ r _, ∃ e, r = Err e).
Proof.
  pose proof orchestrator_command_lenient as HP. unfold orchestrator.
  apply sat_pure_bind; [done|]. intros wait _.
  apply (finds_try _ _ _ _ _ _ _ (chosen_cosmos_key_spec _ _)); [done| |eauto]. intros ck l1 _ _ Hck.
  apply (finds_try _ _ _ _ _ _ _ (chosen_ethereum_key_spec _ _)); [done| |eauto]. intros ek l2 Hl2 _ Hek.
  apply (cosmos_key_from_sub _ _ _ _ _ Hl2) in Hck. clear l1 Hl2. cbv zeta.
  eapply sat_run; [by apply create_rpc_connections_unspent|].
  intros c l3 (_ & Hl3 & (u & ct & -> & -> & (_ & -> & _)) & (w & -> & _)).
  apply sat_pure_bind; [done|]. intros _ _. apply sat_pure_bind; [done|]. intros contact [= <-].
  apply sat_pure_bind; [done|]. intros _ _. cbn [contact_prefix].
  apply sat_pure_bind; [done|]. intros own Hown%unwrap_Done.
  eapply sat_run; [by apply wait_ready_spec|]. intros [] l4 (Hl4 & _ & Hmoving).
  apply (finds_try _ _ _ _ _ _ _ (delegates_finds _ _ _)); [done| |eauto]. intros [] l5 Hl5 _ Hdel.
  apply (finds_try _ _ _ _ _ _ _ (fee_finds _ _)); [done| |eauto]. intros [] l6 Hl6 _ Hfee.
  apply (finds_try _ _ _ _ _ _ _ (eth_finds _)); [done| |eauto]. intros [] l7 Hl7 _ Heth.
  apply (finds_try _ _ _ _ _ _ _ (contract_or_param_spec _)); [done| |eauto]. intros g l8 Hl8 _ Hg.
  assert (orchestrator_ready ck ek g l8) as Hready.
  { assert (l4 ⊆ l8) by (do 4 (etrans; [eassumption|]); done).
    assert (l2 ⊆ l8) by (etrans; [exact Hl3|]; etrans; [exact Hl4|]; done).
    exists own. split_and!; [done|..].
    - by eapply cosmos_key_from_sub.
    - by eapply ethereum_key_from_sub.
    - eapply node_moving_sub; [|done]; done.
    - eapply delegates_sub; [|done]. etrans; [exact Hl6|]. by etrans.
    - eapply fee_available_sub; [|done]. by etrans.
    - eapply has_ether_sub; [|done]; done.
    - done. }
  eapply sat_spec_mono; [|eapply sat_mono; [eapply (sat_history _ _ _ _ _ (orchestrator_ready ck ek g));
    [intros; by eapply orchestrator_ready_sub|done|exact (orchestrator_loop_sat _ _ _ _ _ _ _ _)]|]].
  - intros Y e l [H1 H2] _. by exists ck, ek, g.
  - intros r l [[->|(e & -> & _)] _]; eauto.
Qed.
End OrchestratorCommand.

(** ** relayer.rs *)

Section RelayerCommand.
Context (args : RelayerOpts) (prefix : string) (home_dir : PathBuf) (config : RelayerConfig).

Definition relayer_ready (eth_key : EthPrivateKey) (g : EthAddress) l : Prop :=
  ethereum_key_from (ro_ethereum_key args) home_dir eth_key l ∧ node_moving l ∧
  has_ether l (eth_key_to_address eth_key) ∧ contract_from (ro_gravity_contract_address args) g l.

Lemma relayer_ready_sub ek g l l' : l ⊆ l' → relayer_ready ek g l → relayer_ready ek g l'.
Proof.
  intros H (H1 & H2 & H3 & H4). split_and!.
  - by eapply ethereum_key_from_sub.
  - by eapply node_moving_sub.
  - by eapply has_ether_sub.
  - by eapply contract_from_sub.
Qed.

Definition relayer_command_spec : spec := λ R e l,
  spends e = true → ∃ ek g, relayer_ready ek g l ∧ on_send (relayer_requires ek g config) R e l.

Lemma relayer_command_lenient : lenient relayer_command_spec.
Proof. intros R e l He Hs. congruence. Qed.

(** The [relayer] command posts nothing to Cosmos, approves nothing and writes no file; what it
    sends to Ethereum is under the relayer's guards, after the chain has been seen to move and the
    account to hold some ether, with the key given or stored and to the contract given or the
    chain's. It stops only with an error. *)
Theorem relayer_starts_checked `{XL : !ExtLaws X} :
  sat relayer_command_spec any_env (relayer args prefix home_dir config) [] (λ r _, ∃ e, r = Err e).
Proof.
  pose proof relayer_command_lenient as HP. unfold relayer.
  apply sat_pure_bind; [done|]. intros wait _.
  eapply sat_run; [by apply create_rpc_connections_unspent|].
  intros c l1 (_ & _ & (u & ct & -> & -> & _) & (w & -> & _)).
  apply (finds_try _ _ _ _ _ _ _ (chosen_ethereum_key_spec _ _)); [done| |eauto]. intros ek l2 _ _ Hek. cbv zeta.
  do 3 (apply sat_pure_bind; [done|]; intros ? _).
  eapply sat_run; [by apply wait_ready_spec|]. intros [] l4 (Hl4 & _ & Hmoving).
  apply (finds_try _ _ _ _ _ _ _ (eth_finds _)); [done| |eauto]. intros [] l7 Hl7 _ Heth.
  apply (finds_try _ _ _ _ _ _ _ (contract_or_param_spec _)); [done| |eauto]. intros g l8 Hl8 _ Hg.
  assert (relayer_ready ek g l8) as Hready.
  { split_and!; [| | |done].
    - eapply ethereum_key_from_sub; [|done]. etrans; [exact Hl4|]. by etrans.
    - eapply node_moving_sub; [|done]. by etrans.
    - by eapply has_ether_sub. }
  eapply sat_spec_mono; [|eapply sat_mono; [eapply (sat_history _ _ _ _ _ (relayer_ready ek g));
    [intros; by eapply relayer_ready_sub|done|exact (relayer_loop_sat _ _ _ _ _)]|]].
  - intros Y e l [H1 H2] _. by exists ek, g.
  - intros r' l [-> _]; eauto.
Qed.
End RelayerCommand.

(** ** register_orchestrator_address.rs *)

Section Register.
Context (args : RegisterOrchestratorAddressOpts) (prefix : string) (home_dir : PathBuf).

(** Nobody else writes to the disk. *)
Definition disk_is (d0 : disk) : env := λ R e,
  match e in callE R return R → Prop with DiskRead => λ d, d = d0 | _ => λ _, True end.
Context (d0 : disk).

(** The message that registers a pair of keys, and the bytes that carry it. *)
Definition registration (own : CosmosAddress) (valoper : string) (cosmos_address : CosmosAddress)
    (ek : EthPrivateKey) : Msg :=
  mkMsg "/nab.v1.MsgSetOrchestratorAddress" (SetOrchestratorAddress {|
    msoa_validator := valoper;
    msoa_orchestrator := cosmos_address_to_string cosmos_address;
    msoa_eth_address := address_to_string (eth_key_to_address ek) |}).
Definition registers (ck : CosmosPrivateKey) (ek : EthPrivateKey) (msg : bytes) l : Prop :=
  ∃ own valoper cosmos_address,
    cosmos_key_to_address (ra_validator_phrase args) prefix = Ok own ∧
    cosmos_address_to_bech32 own (prefix +:+ "valoper") = Ok valoper ∧
    cosmos_key_to_address ck prefix = Ok cosmos_address ∧
    signed_as (ra_validator_phrase args) own [registration own valoper cosmos_address ek]
      (one_coin_fee (ra_fees args) 500000) msg l.
Lemma registers_sub ck ek msg l l' : l ⊆ l' → registers ck ek msg l → registers ck ek msg l'.
Proof.
  intros H (o & v & c & H1 & H2 & H3 & H4). exists o, v, c. split_and!; [done..|]. by eapply signed_as_sub.
Qed.

(** What the tool has stored: the contents of keys.json if it was set up, and otherwise nothing. *)
Definition stores (keys : KeyStorage) : Prop :=
  if config_exists home_dir d0 then load_keys home_dir d0 = Done (Ok keys) else keys = key_storage_default.

(** Where the keys registered come from: each is the one given, or else the one stored, or else one
    made from the generator's answer. [generated] is the phrase of a key just made. *)
Definition cosmos_key_source (phrase : string) (generated : option string) l : Prop :=
  match ra_cosmos_phrase args with
  | Some given => phrase = given ∧ generated = None
  | None => ∃ keys, stores keys ∧
      match orchestrator_phrase keys with
      | Some stored_phrase => phrase = stored_phrase ∧ generated = None
      | None => saw l (GeneratePhrase 24) phrase ∧ generated = Some phrase
      end
  end.
Definition ethereum_key_source (ek : EthPrivateKey) l : Prop :=
  match ra_ethereum_key args with
  | Some given => ek = given
  | None => ∃ keys, stores keys ∧
      match ethereum_key keys with
      | Some stored_key => ek = stored_key
      | None => ∃ random, saw l (RandomBytes 32) random ∧ eth_key_from_slice random = Ok ek
      end
  end.
Definition keys_asked (phrase : string) (ck : CosmosPrivateKey) (ek : EthPrivateKey) l : Prop :=
  (∃ generated, cosmos_key_source phrase generated l) ∧ cosmos_key_from_phrase phrase "" = Ok ck ∧
  ethereum_key_source ek l.

Lemma cosmos_key_source_sub phrase generated l l' :
  l ⊆ l' → cosmos_key_source phrase generated l → cosmos_key_source phrase generated l'.
Proof.
  unfold cosmos_key_source. intros Hl. destruct (ra_cosmos_phrase args); [done|]. intros (keys & Hk & H).
  exists keys. split; [done|]. destruct (orchestrator_phrase keys); [done|]. destruct H. split; [by apply Hl|done].
Qed.
Lemma ethereum_key_source_sub ek l l' : l ⊆ l' → ethereum_key_source ek l → ethereum_key_source ek l'.
Proof.
  unfold ethereum_key_source. intros Hl. destruct (ra_ethereum_key args); [done|]. intros (keys & Hk & H).
  exists keys. split; [done|]. destruct (ethereum_key keys); [done|]. destruct H as (r & Hr & ?).
  exists r. split; [by apply Hl|done].
Qed.
Lemma keys_asked_sub phrase ck ek l l' : l ⊆ l' → keys_asked phrase ck ek l → keys_asked phrase ck ek l'.
Proof.
  intros Hl ((g & H1) & H2 & H3). split_and!; [exists g; by eapply cosmos_key_source_sub|done|].
  by eapply ethereum_key_source_sub.
Qed.

(** The registration was posted and accepted, and both waits found it in a block. *)
Definition registered (ck : CosmosPrivateKey) (ek : EthPrivateKey) l : Prop :=
  ∃ msg response waited included, registers ck ek msg l ∧ saw l (ContactSendTransaction msg) (Ok response) ∧
    saw l (ContactWaitForTx response TIMEOUT) (Ok waited) ∧
    saw l (ContactWaitForTx waited CLIENT_TIMEOUT) (Ok included).
Lemma registered_sub ck ek l l' : l ⊆ l' → registered ck ek l → registered ck ek l'.
Proof.
  intros Hl (m & r & w & i & H1 & H2 & H3 & H4). exists m, r, w, i.
  split_and!; [by eapply registers_sub|by apply Hl..].
Qed.

(** The key file that goes with a registration. *)
Definition saved (phrase : string) (ek : EthPrivateKey) : disk :=
  (save_keys home_dir (mkKeyStorage (Some phrase) (Some ek)) d0).2.

Definition register_spec : spec := λ R e l,
  match e with
  | ContactSendTransaction msg =>
      posts l = [] ∧ node_moving l ∧
      (∃ own, cosmos_key_to_address (ra_validator_phrase args) prefix = Ok own ∧ fee_available l (ra_fees args) own) ∧
      ∃ phrase ck ek, keys_asked phrase ck ek l ∧ registers ck ek msg l
  | DiskWrite d =>
      ra_no_save args = false ∧ config_exists home_dir d0 = true ∧ ∃ phrase ck ek,
        keys_asked phrase ck ek l ∧ registered ck ek l ∧ d = saved phrase ek
  | _ => spends e = false
  end.

Lemma register_lenient : lenient register_spec.
Proof. intros R e l. by destruct e. Qed.

(** What success means. *)
Definition registration_done l : Prop :=
  length (posts l) = 1%nat ∧ ∃ phrase ck ek, keys_asked phrase ck ek l ∧ registered ck ek l ∧
    (ra_no_save args = false → saw l (DiskWrite (saved phrase ek)) tt).

Lemma read_stored_keys P l :
  lenient P →
  sat P (disk_is d0) (stored_keys home_dir) l (λ r l', l ⊆ l' ∧ spent l' = spent l ∧
    ∀ keys, r = Ok keys → stores keys).
Proof.
  intros HP. unfold stored_keys, stores. apply sat_call_bind; [by apply HP|]. intros d Hd. simpl in Hd. subst d.
  destruct (config_exists home_dir d0).
  - apply sat_call_bind; [by apply HP|]. intros d Hd. simpl in Hd. subst d.
    apply sat_pure; [intros; by apply HP|]. intros r Hr.
    split_and!; [sub|by rewrite !spent_snoc|]. by intros keys ->.
  - apply sat_ret. split_and!; [sub|by rewrite spent_snoc|]. by intros keys [= <-].
Qed.

Lemma registered_cosmos_key_spec P l :
  lenient P →
  sat P (disk_is d0) (registered_cosmos_key (ra_cosmos_phrase args) home_dir) l (λ r l',
    l ⊆ l' ∧ spent l' = spent l ∧ ∀ ck generated, r = Ok (ck, generated) →
      ∃ phrase, cosmos_key_source phrase generated l' ∧ cosmos_key_from_phrase phrase "" = Ok ck).
Proof.
  intros HP. unfold registered_cosmos_key, cosmos_key_source. destruct (ra_cosmos_phrase args) as [s|].
  { apply sat_pure_bind; [intros; by apply HP|]. intros k Hk. apply sat_ret. split_and!; [done..|].
    intros ck gen [= <- <-]. exists s. unfold expect in Hk. by destruct (cosmos_key_from_phrase s "") eqn:E; simplify_eq. }
  eapply sat_run_try; [by apply read_stored_keys| |by intros err l1 (?&?&?)].
  intros keys l1 (Hl & Hs & Hk). specialize (Hk keys eq_refl).
  destruct (orchestrator_phrase keys) as [phrase|] eqn:E.
  - apply sat_pure_bind; [intros; by apply HP|]. intros k Hkey%unwrap_Done. apply sat_ret.
    split_and!; [done..|]. intros ck gen [= <- <-]. exists phrase. split; [|done]. exists keys. by rewrite E.
  - apply sat_call_bind; [by apply HP|]. intros v _. apply sat_pure_bind; [intros; by apply HP|].
    intros k Hkey%unwrap_Done. apply sat_ret. split_and!; [etrans; [done|sub]|by rewrite spent_snoc|].
    intros ck gen [= <- <-]. exists v. split; [|done]. exists keys. rewrite E. split_and!; [done|solve_saw|done].
Qed.

Lemma registered_ethereum_key_spec P l :
  lenient P →
  sat P (disk_is d0) (registered_ethereum_key (ra_ethereum_key args) home_dir) l (λ r l',
    l ⊆ l' ∧ spent l' = spent l ∧ ∀ ek, r = Ok ek → ethereum_key_source ek l').
Proof.
  intros HP. unfold registered_ethereum_key, ethereum_key_source. destruct (ra_ethereum_key args) as [k|].
  { apply sat_ret. split_and!; [done..|]. by intros x [= ->]. }
  eapply sat_run_try; [by apply read_stored_keys| |by intros err l1 (?&?&?)].
  intros keys l1 (Hl & Hs & Hk). specialize (Hk keys eq_refl). destruct (ethereum_key keys) as [k|] eqn:E.
  { apply sat_ret. split_and!; [done..|]. intros x [= <-]. exists keys. by rewrite E. }
  apply sat_call_bind; [by apply HP|]. intros e _. apply sat_pure_bind; [intros; by apply HP|].
  intros k Hkey%unwrap_Done. apply sat_ret. split_and!; [etrans; [done|sub]|by rewrite spent_snoc|].
  intros x [= <-]. exists keys. rewrite E. split; [done|]. exists e. split; [solve_saw|done].
Qed.

Lemma phrase_to_save_spec P phrase generated l0 l :
  lenient P → cosmos_key_source phrase generated l0 →
  sat P (disk_is d0) (phrase_to_save generated (ra_cosmos_phrase args) home_dir) l (λ r l',
    l ⊆ l' ∧ spent l' = spent l ∧ ∀ p, r = Ok p → p = phrase).
Proof.
  intros HP Hsrc. unfold phrase_to_save, cosmos_key_source in *. destruct (ra_cosmos_phrase args) as [s|].
  { destruct Hsrc as [-> ->]. apply sat_ret. split_and!; [done..|]. by intros p [= <-]. }
  destruct Hsrc as (keys & Hk & Hp). destruct (orchestrator_phrase keys) as [v|] eqn:E.
  - destruct Hp as [-> ->]. apply sat_call_bind; [by apply HP|]. intros d Hd. simpl in Hd. subst d.
    unfold stores in Hk. destruct (config_exists home_dir d0); [|by subst keys]. rewrite Hk.
    apply sat_pure_try; [intros; by apply HP| |done]. intros keys' [= <-]. rewrite E.
    apply sat_pure_bind; [intros; by apply HP|]. intros p [= <-]. apply sat_ret.
    split_and!; [sub|by rewrite spent_snoc|]. by intros p [= <-].
  - destruct Hp as [_ ->]. apply sat_ret. split_and!; [done..|]. by intros p [= <-].
Qed.

Lemma posts_write l d : posts (l ++ [mkEntry _ (DiskWrite d) tt]) = posts l.
Proof. unfold posts. rewrite omap_app. simpl. by rewrite app_nil_r. Qed.

Lemma save_registered_spec phrase ck ek generated l :
  ra_no_save args = false → config_exists home_dir d0 = true →
  cosmos_key_source phrase generated l → keys_asked phrase ck ek l → registered ck ek l →
  sat register_spec (disk_is d0) (save_registered generated (ra_cosmos_phrase args) ek home_dir) l
    (λ r l', l ⊆ l' ∧ posts l' = posts l ∧ (r = Ok tt → saw l' (DiskWrite (saved phrase ek)) tt)).
Proof.
  intros Hsave Hset Hsrc Hask Hreg. pose proof register_lenient as HP.
  eapply sat_run_try; [by eapply phrase_to_save_spec| |by intros err l1 (? & Hs & _); split_and!; [|apply posts_spent|]].
  intros p l1 (Hl & Hs1 & Hp). rewrite (Hp p eq_refl). unfold on_disk.
  eapply sat_run with (Q0 := λ _ l', l ⊆ l' ∧ posts l' = posts l ∧ saw l' (DiskWrite (saved phrase ek)) tt).
  - apply sat_call_bind; [done|]. intros d Hd. simpl in Hd. subst d. set (l2 := l1 ++ _).
    assert (l ⊆ l2) as Hl2 by (etrans; [done|unfold l2; sub]).
    apply sat_call_bind.
    { split_and!; [done..|]. exists phrase, ck, ek. split_and!; [by eapply keys_asked_sub|by eapply registered_sub|done]. }
    intros [] _. apply sat_pure; [done|]. intros [] _. split_and!; [etrans; [done|sub]| |solve_saw].
    unfold l2. by rewrite posts_write, posts_snoc, (posts_spent l).
  - intros [] l2 (? & ? & ?). by apply sat_ret.
Qed.

Lemma set_delegates_spec phrase ck ek cown l :
  posts l = [] → node_moving l → keys_asked phrase ck ek l →
  (∃ own, cosmos_key_to_address (ra_validator_phrase args) prefix = Ok own ∧ fee_available l (ra_fees args) own) →
  cosmos_key_to_address ck prefix = Ok cown →
  sat register_spec (disk_is d0)
    (set_gravity_delegate_addresses prefix (eth_key_to_address ek) cown (ra_validator_phrase args) (ra_fees args)) l
    (λ r l', l ⊆ l' ∧ (length (posts l') ≤ 1)%nat ∧ ∀ waited, r = Ok waited →
      length (posts l') = 1%nat ∧ ∃ msg response, registers ck ek msg l' ∧
        saw l' (ContactSendTransaction msg) (Ok response) ∧ saw l' (ContactWaitForTx response TIMEOUT) (Ok waited)).
Proof.
  intros Hp Hm Hask (own & Hown & Hfee) Hck. pose proof register_lenient as HP.
  unfold set_gravity_delegate_addresses. rewrite !Hown. cbn [unwrap].
  apply sat_pure_bind; [done|]. intros own' [= <-]. apply sat_pure_bind; [done|]. intros valoper Hv%unwrap_Done.
  apply sat_pure_bind; [done|]. intros own' [= <-]. cbv zeta.
  assert (∀ msg l', signed_as (ra_validator_phrase args) own [registration own valoper cown ek]
    (one_coin_fee (ra_fees args) 500000) msg l' → registers ck ek msg l') as Hreg.
  { intros msg l' H. by exists own, valoper, cown. }
  eapply sat_mono; [apply sign_and_send_accepted; [done|]|].
  - intros msg l1 Hl Hs Hsig. split; [by rewrite (posts_spent _ _ Hs)|].
    split; [by eapply node_moving_sub|]. split; [exists own; split; [done|]; by eapply fee_available_sub|].
    exists phrase, ck, ek. split; [by eapply keys_asked_sub|]. by apply Hreg.
  - intros r l1 (Hl & Hlen & Hok). rewrite Hp in Hlen. split_and!; [done..|]. intros waited ->.
    destruct (Hok eq_refl) as (msg & res & Hpo & Hsig & Hsaw & Hwait). rewrite Hpo, Hp. split; [done|].
    exists msg, res. auto.
Qed.

(** After the registration: the second wait, and the key file. *)
Definition settled_registration (generated : option string) (ek : EthPrivateKey) (waited : TxResponse) :
    io (result unit GravityError) :=
  let* res := call (ContactWaitForTx waited CLIENT_TIMEOUT) in
  match res with
  | Err _ => Ret (Err (UnrecoverableError
      "Failed trying to register delegate addresses error {:?}, correct the error and try again"))
  | Ok _ =>
      if negb (ra_no_save args) then save_registered generated (ra_cosmos_phrase args) ek home_dir
      else Ret (Ok tt)
  end.
Lemma settled_registration_spec phrase ck ek generated msg response waited l :
  (ra_no_save args = false → config_exists home_dir d0 = true) →
  cosmos_key_source phrase generated l → keys_asked phrase ck ek l → registers ck ek msg l →
  saw l (ContactSendTransaction msg) (Ok response) → saw l (ContactWaitForTx response TIMEOUT) (Ok waited) →
  length (posts l) = 1%nat →
  sat register_spec (disk_is d0) (settled_registration generated ek waited) l
    (λ r l', (length (posts l') ≤ 1)%nat ∧ (r = Ok tt → registration_done l')).
Proof.
  intros Hset Hsrc Hask Hreg Hsent Hwait Hone. pose proof register_lenient as HP. unfold settled_registration.
  apply sat_call_bind; [done|]. intros w _. set (l1 := l ++ _). assert (l ⊆ l1) as Hl by (unfold l1; sub).
  assert (length (posts l1) = 1%nat) as Hone1 by (unfold l1; by rewrite posts_snoc).
  destruct w as [w|e]; [|apply sat_ret; split; [lia|done]].
  assert (registered ck ek l1) as Hr.
  { exists msg, response, waited, w. split_and!; [by eapply registers_sub|by apply Hl..|unfold l1; solve_saw]. }
  apply (keys_asked_sub _ _ _ _ l1 Hl) in Hask.
  destruct (ra_no_save args) eqn:Hns; cbn [negb].
  { apply sat_ret. split; [lia|]. intros _. split; [done|]. exists phrase, ck, ek. split_and!; congruence. }
  eapply sat_mono; [apply (save_registered_spec phrase ck); try done; [by apply Hset|by eapply cosmos_key_source_sub]|].
  intros r l2 (Hl2 & Hp & Hw). rewrite Hp. split; [lia|]. intros Hok. split; [congruence|].
  exists phrase, ck, ek. split_and!; [by eapply keys_asked_sub|by eapply registered_sub|auto].
Qed.

(** C18: [register_orchestrator_address] posts at most one transaction, signed by the validator once the
    chain moves and the first balance listed for the validator whose denomination contains the fee's
    has been seen to be at least the fee: it registers the addresses of two keys, each of which is the
    one given, or else the one stored, or else one made from what the generator answered. It writes
    the key file only after the broadcast was accepted and both waits for the transaction answered that
    it was included, only without --no-save and only if the tool was set up; what it writes is that
    Ethereum key and the phrase of that Cosmos key, so that the orchestrator started from the file is
    the one registered. Success means just that: the one post, such keys, the registration accepted
    and included, and unless --no-save was given, that file written. Nobody else writes to the disk
    meanwhile. *)
Theorem registration_saved :
  sat register_spec (disk_is d0) (register_orchestrator_address args prefix home_dir) []
    (λ r l, (length (posts l) ≤ 1)%nat ∧ (r = Ok tt → registration_done l)).
Proof.
  pose proof register_lenient as HP. unfold register_orchestrator_address. cbv zeta.
  eapply sat_run with (Q0 := λ set_up l, posts l = [] ∧
    (ra_no_save args = false → set_up = config_exists home_dir d0)).
  { destruct (ra_no_save args); [by apply sat_ret|]. apply sat_call_bind; [done|]. intros d Hd.
    simpl in Hd. subst d. by apply sat_ret. }
  intros set_up l1 [Hp1 Hset]. destruct set_up; [|by apply sat_ret; rewrite Hp1; split; [simpl; lia|]]. cbn [negb].
  eapply sat_run; [by apply create_rpc_connections_unspent|].
  intros c l2 (Hs2 & _ & (u & ct & _ & -> & (_ & -> & _)) & _).
  apply sat_pure_bind; [done|]. intros contact [= <-]. cbn [contact_prefix].
  eapply sat_run; [by apply wait_ready_spec|]. intros [] l3 (_ & Hs3 & Hmoving).
  apply sat_pure_bind; [done|]. intros own Hown%unwrap_Done.
  assert (posts l3 = []) as Hp3 by (by rewrite (posts_spent l1) by congruence).
  assert (∀ (e : GravityError) l, spent l = spent l3 → (length (posts l) ≤ 1)%nat ∧
    (Err (A := unit) e = Ok tt → registration_done l)) as Herr.
  { intros e l Hl. split; [|done]. rewrite (posts_spent l3), Hp3 by done. simpl. lia. }
  apply (finds_try _ _ _ _ _ _ _ (fee_finds _ _)); [done| |by auto]. intros [] l4 Hl4 Hs4 Hfee.
  eapply sat_run_try; [by apply registered_cosmos_key_spec| |intros e l (_ & Hs & _); apply Herr; congruence].
  intros [ck generated] l5 (Hl5 & Hs5 & Hsrc). destruct (Hsrc _ _ eq_refl) as (phrase & Hphrase & Hck).
  eapply sat_run_try; [by apply registered_ethereum_key_spec| |intros e l (_ & Hs & _); apply Herr; congruence].
  intros ek l6 (Hl6 & Hs6 & Hek). specialize (Hek _ eq_refl).
  apply sat_pure_bind; [done|]. intros cown Hcown%unwrap_Done.
  apply (cosmos_key_source_sub _ _ _ _ Hl6) in Hphrase.
  assert (keys_asked phrase ck ek l6) as Hask by (split_and!; [by exists generated|done..]).
  eapply sat_run; [apply (set_delegates_spec phrase ck ek cown); [|  |done| |done]|].
  - rewrite (posts_spent l3); [done|congruence].
  - eapply node_moving_sub; [|done]. etrans; [exact Hl4|]. by etrans.
  - exists own. split; [done|]. eapply fee_available_sub; [|done]. by etrans.
  - intros res l7 (Hl7 & Hlen & Hok). apply sat_pure_bind; [done|]. intros waited Hres.
    assert (res = Ok waited) as -> by (destruct res; simpl in Hres; congruence).
    destruct (Hok _ eq_refl) as (Hone & msg & response & Hreg & Hsent & Hwait).
    apply (settled_registration_spec phrase ck ek generated msg response); try done.
    + intros Hns. by rewrite <- Hset.
    + by eapply cosmos_key_source_sub.
    + by eapply keys_asked_sub.
Qed.
End Register.
End Daemons.
