(* ===== verification/ClientTheory.v ===== *)
(** * The client commands: what they send

    Each of the three sends what it was asked to, once, and only after the checks that make it worth
    sending. *)

From ITree Require Import ITree.
From S2P Require Import Prelude Bytes Proto External Float Instances Types Messages Effects Host Config.
From S2P Require Import CosmosSend Queries Connection Args Submit SubmitTheory Client Join ConnectionTheory.
From S2P Require Import CosmosTheory Relayer RelayerSearch RelayerTheory Oracle OracleTheory Orchestrator.
From S2P Require Import OrchestratorTheory Nabt NabtTheory.

Section Clients.
Context `{X : Ext} `{T : !Tools} `{BD : Build}.
Implicit Types (P : spec) (A : env) (l : log).

Lemma expect_Done {B E} (r : result B E) why b : expect r why = Done b → r = Ok b.
Proof. destruct r; simpl; congruence. Qed.

(** A query whose failure is a panic. *)
Lemma sat_query P A {B E R} (e : callE (result B E)) why (f : B → io R) l Q :
  lenient P → spends e = false →
  (∀ b, sat P A (f b) (l ++ [mkEntry _ e (Ok b)]) Q) →
  sat P A (let* r := call e in let* b := pure (expect r why) in f b) l Q.
Proof.
  intros HP He Hf. apply sat_call_bind; [by apply HP|]. intros r _.
  apply sat_pure_bind; [intros; by apply HP|]. by intros b ->%expect_Done.
Qed.

(** ** eth_to_cosmos.rs *)

Section EthToCosmos.
Context (args : EthToCosmosOpts) (prefix : string).
Let erc20 := ec_token_contract_address args.
Let g := ec_gravity_contract_address args.
Let key := ec_ethereum_key args.
Let own := eth_key_to_address key.

(** The amount, in the token's smallest unit, is one the account has. *)
Definition deposit_funded (amount : Uint256) l : Prop :=
  ∃ n decimals balance, saw_valset_nonce l g own n ∧ has_ether l own ∧
    saw l (GetErc20Decimals erc20 own) (Ok decimals) ∧ decimals ≤ 255 ∧
    amount = fraction_to_exponent (ec_amount args) decimals ∧
    saw l (GetErc20Balance erc20 own) (Ok balance) ∧ balance ≠ 0 ∧ amount ≤ balance.

Definition eth_to_cosmos_spec : spec := λ R e l,
  spends e = true → ∃ amount, deposit_funded amount l ∧
    send_to_cosmos_spec erc20 g amount (ec_destination args) key [] R e l.

Lemma eth_to_cosmos_lenient : lenient eth_to_cosmos_spec.
Proof. intros R e l He Hs. congruence. Qed.

Lemma deposit_funded_sub amount l l' : l ⊆ l' → deposit_funded amount l → deposit_funded amount l'.
Proof.
  intros H (n & d & b & H1 & H2 & H3 & H4 & H5 & H6 & H7). exists n, d, b. split_and!.
  - by eapply saw_nonce_sub.
  - by eapply has_ether_sub.
  - by apply H.
  - done.
  - done.
  - by apply H.
  - apply H7.
  - apply H7.
Qed.

(** [eth_to_cosmos] sends one deposit at most, and spends on nothing but it and its approval: the
    amount asked for in the token's smallest unit, by the decimals the token reported, to the
    destination given. It does so only after the contract has answered with a validator set's nonce
    and the account has been seen to hold ether, and no less of the token than that amount. *)
Theorem eth_to_cosmos_funded :
  sat eth_to_cosmos_spec any_env (eth_to_cosmos args prefix) [] (λ _ l, (length (sends l) ≤ 1)%nat).
Proof.
  pose proof eth_to_cosmos_lenient as HP. unfold eth_to_cosmos. cbv zeta. fold erc20 g key own.
  eapply sat_run; [by apply create_rpc_connections_unspent|].
  intros c l1 (Hs1 & _ & _ & (u & -> & _)). apply sat_pure_bind; [done|]. intros w _.
  eapply sat_run with (Q0 := λ r l, spent l = spent l1 ∧ ∀ n, r = Ok n → saw_valset_nonce l g own n).
  { eapply sat_mono; [apply sat_and; [by apply quiet_read_nonce|by apply read_nonce_spec]|]. naive_solver. }
  intros r l2 [Hs2 Hn]. apply sat_pure_bind; [done|]. intros n ->%expect_Done. specialize (Hn n eq_refl).
  assert (sends l2 = []) as Hp2 by (rewrite (sends_spent []); [done|]; by rewrite Hs2, Hs1).
  apply (finds_try _ _ _ _ _ _ _ (eth_finds _)); [done| |].
  2: { intros e l _ Hs. rewrite (sends_spent l2), Hp2 by done. simpl. lia. }
  intros [] l3 Hl3 Hs3 Heth. apply sat_query; [done|done|]. intros res.
  apply sat_pure_bind; [done|]. intros decimals Hdec. apply sat_query; [done|done|]. intros balance. set (l4 := _ ++ _).
  assert (sends l4 = []) as Hp4.
  { rewrite (sends_spent l2); [done|]. unfold l4. by rewrite !spent_snoc. }
  destruct (Z.eqb_spec balance 0) as [|Hb]; [apply sat_ret; rewrite Hp4; simpl; lia|].
  destruct (Z.ltb_spec balance (fraction_to_exponent (ec_amount args) decimals)) as [|Ha];
    [apply sat_ret; rewrite Hp4; simpl; lia|].
  set (amount := fraction_to_exponent _ _) in *.
  assert (deposit_funded amount l4) as Hfunded.
  { unfold decimals_u8 in Hdec. destruct (Z.leb_spec res 255); [|done]. injection Hdec as <-.
    exists n, res, balance. split_and!; try done.
    - eapply saw_nonce_sub; [|done]. etrans; [done|]. unfold l4. sub.
    - eapply has_ether_sub; [|done]. unfold l4. sub.
    - unfold l4. solve_saw.
    - unfold l4. solve_saw. }
  eapply sat_run with (Q0 := λ _ l, (length (sends l) ≤ 1)%nat); [|by intros r l H; apply sat_ret].
  eapply sat_spec_mono; [|eapply sat_mono; [eapply (sat_history _ _ _ _ _ (deposit_funded amount));
    [intros ??; by apply deposit_funded_sub|done|by apply send_to_cosmos_sat]|by intros r l [[H _] _]]].
  intros Y e l [H1 H2] _. by exists amount.
Qed.
End EthToCosmos.

(** ** deploy_erc20_representation.rs *)

Section Deploy.
Context (args : DeployErc20RepresentationOpts) (prefix : string).
Let key := de_ethereum_key args.
Let own := eth_key_to_address key.
Let query := QDenomToErc20 (de_cosmos_denom args).

(** The one transaction: the deployment, to the contract, of a denomination without a token. *)
Definition deploy_spec : spec := λ R e l,
  match e with
  | SendTransaction to payload value from key' options =>
      sends l = [] ∧ contract_from (de_gravity_contract_address args) to l ∧ has_ether l own ∧
      refused (λ d, QDenomToErc20 d) l (de_cosmos_denom args) ∧
      encode_call "deployERC20(string,string,string,uint8)" [TokenString (de_cosmos_denom args);
        TokenString (de_erc20_name args); TokenString (de_erc20_symbol args);
        token_of_u8 (de_erc20_decimals args)] = Ok payload ∧
      value = 0 ∧ from = own ∧ key' = key ∧ options = [OptGasPriceMultiplier f32_1_5]
  | _ => spends e = false
  end.

Lemma deploy_lenient : lenient deploy_spec.
Proof. intros R e l. by destruct e. Qed.

Lemma keep_querying_spec P A l :
  lenient P → sat P A (keep_querying_for_erc20 (de_cosmos_denom args)) l (λ _ l', ∃ x, saw l' query (Ok x)).
Proof.
  intros HP. apply sat_iter with (Inv := λ _ _, True); [|done]. clear l. intros _ l _.
  apply sat_call_bind; [by apply HP|]. intros [x|e] _; [apply sat_ret; exists x; solve_saw|].
  apply sat_call_bind; [by apply HP|]. intros [] _. by apply sat_ret.
Qed.

(** Waiting for the adoption spends nothing, and ends with the chain's answer or the timer. *)
Lemma adoption_spec P A l :
  lenient P →
  sat P A (timeout ADOPTION_TIMEOUT (keep_querying_for_erc20 (de_cosmos_denom args))) l
    (λ r l', spent l' = spent l ∧ (is_Some r → ∃ x, saw l' query (Ok x))).
Proof.
  intros HP. apply sat_unspent. eapply sat_spec_mono with (P := λ Y e l, spends e = false).
  { intros Y e l' He. split; [by apply HP|done]. }
  eapply sat_mono; [apply sat_timeout; [|  | |by apply keep_querying_spec; intros Y e l' He]|].
  - by intros Y e l' He.
  - by intros Y e l1 l2 _.
  - intros r l1 l2 Hl (x & Hx). exists x. by apply Hl.
  - intros [r|] l' H; [by intros _|by intros [? [=]]].
Qed.

(** [deploy_erc20_representation] sends at most one transaction, and nothing else: the deployment of
    the token asked for, to the contract given or else the chain's, once the account has been seen to
    hold ether and the chain to have no token for the denomination. It succeeds only when it sent
    the deployment and the chain then reported a token. *)
Theorem deployment_once :
  sat deploy_spec any_env (deploy_erc20_representation args prefix) []
    (λ r l, (length (sends l) ≤ 1)%nat ∧
      (r = Ok tt → length (sends l) = 1%nat ∧ ∃ x, saw l query (Ok x))).
Proof.
  pose proof deploy_lenient as HP. unfold deploy_erc20_representation. cbv zeta. fold key own query.
  eapply sat_run; [by apply create_rpc_connections_unspent|].
  intros c l1 (Hs1 & _ & (u & ct & -> & _) & (w & -> & _)).
  do 2 (apply sat_pure_bind; [done|]; intros ? _).
  assert (∀ l, spent l = spent l1 → sends l = []) as Hnone.
  { intros l Hl. rewrite (sends_spent []); [done|congruence]. }
  assert (∀ (e : GravityError) l, spent l = spent l1 → (length (sends l) ≤ 1)%nat ∧
    (Err (A := unit) e = Ok tt → length (sends l) = 1%nat ∧ ∃ x, saw l query (Ok x))) as Herr.
  { intros e l Hl. split; [rewrite Hnone by done; simpl; lia|done]. }
  apply (finds_try _ _ _ _ _ _ _ (eth_finds _)); [done| |intros e l _ Hs; by apply Herr].
  intros [] l2 Hl2 Hs2 Heth.
  apply (finds_try _ _ _ _ _ _ _ (contract_or_param_spec _)); [done| |intros e l _ Hs; apply Herr; congruence].
  intros g l3 Hl3 Hs3 Hg. apply sat_call_bind; [done|]. intros res _. set (l4 := l3 ++ _).
  assert (spent l4 = spent l1) as Hs4 by (unfold l4; rewrite spent_snoc by done; congruence).
  destruct res as [x|e]; [by apply sat_ret, Herr|].
  unfold deploy_erc20.
  eapply sat_run with (Q0 := λ r l, is_ok r = true → length (sends l) = 1%nat).
  - apply sat_ret_try; [|done]. intros payload Hpayload. apply sat_call_try; [|intros tx _|done].
    + split_and!; try done.
      * by apply Hnone.
      * eapply contract_from_sub; [|done]. unfold l4. sub.
      * eapply has_ether_sub; [|done]. etrans; [exact Hl3|]. unfold l4. sub.
      * exists e. unfold l4. solve_saw.
    + eapply sat_mono; [by apply wait_if_spec|]. intros r' l5 (_ & Hs5 & _) _.
      by rewrite Hs5, sends_send, Hnone.
  - intros r' l5 Hone. apply sat_pure_bind; [done|]. intros tx ->%unwrap_Done. specialize (Hone eq_refl).
    eapply sat_run; [by apply adoption_spec|]. intros o l6 [Hs6 Ho].
    assert (length (sends l6) = 1%nat) as H6 by (by rewrite (sends_spent l5)).
    destruct o as [[]|]; apply sat_ret; (split; [by rewrite H6|]); [|done]. intros _. split; [done|]. by apply Ho.
Qed.
End Deploy.

(** ** cosmos_to_eth.rs *)

Section CosmosToEth.
Context (args : CosmosToEthOpts) (prefix : string).
Let key := ce_cosmos_phrase args.
Let coin := ce_amount args.
Let bridge_fee : Coin := {| denom := denom coin; amount := 1 |}.

Lemma find_coin_Some d balances c :
  find_coin d balances = Some c → c ∈ balances ∧ denom c = d.
Proof.
  unfold find_coin. assert (∀ found, (∀ x, found = Some x → denom x = d) →
    ∀ x, fold_left (λ found coin, if String.eqb (denom coin) d then Some coin else found) balances found = Some x →
    (x ∈ balances ∨ found = Some x) ∧ denom x = d) as H.
  { induction balances as [|b bs IH]; intros found Hf x Hx; simpl in Hx; [auto|].
    destruct (String.eqb_spec (denom b) d) as [E|E].
    - apply IH in Hx as [[?|[= ->]] ?]; [..|by intros y [= <-]]; split; try done; left; set_solver.
    - apply IH in Hx as [[?|?] ?]; [..|done]; split; try done; [left; set_solver|by right]. }
  intros Hx. apply H in Hx as [[?|?] ?]; done.
Qed.

(** What has been seen before the coins are locked. *)
Definition transfer_checked (own : CosmosAddress) l : Prop :=
  (∃ erc20, saw l (QDenomToErc20 (denom coin)) (Ok erc20)) ∧
  fee_available l coin own ∧ fee_available l (ce_fees args) own ∧
  ∃ balances found, saw l (ContactGetBalances own) (Ok balances) ∧
    found ∈ balances ∧ denom found = denom coin ∧ amount coin < amount found.

Lemma transfer_checked_sub own l l' : l ⊆ l' → transfer_checked own l → transfer_checked own l'.
Proof.
  intros H ((x & H1) & H2 & H3 & b & f & H4 & H5). split_and!.
  - exists x. by apply H.
  - by eapply fee_available_sub.
  - by eapply fee_available_sub.
  - exists b, f. split; [by apply H|done].
Qed.

Definition transfer (own : CosmosAddress) : Msg :=
  mkMsg "/nab.v1.MsgSendToEth" (SendToEth {|
    mse_sender := cosmos_address_to_string own;
    mse_eth_dest := address_to_string (ce_eth_destination args);
    mse_amount := Some coin; mse_bridge_fee := Some bridge_fee |}).
Definition batch_request (own : CosmosAddress) : Msg :=
  mkMsg "/nab.v1.MsgRequestBatch" (RequestBatch {|
    mrb_sender := cosmos_address_to_string own; mrb_denom := denom coin |}).

Definition cosmos_to_eth_spec : spec := λ R e l,
  match e with
  | ContactSendTransaction msg => ∃ own, cosmos_key_to_address key prefix = Ok own ∧ transfer_checked own l ∧
      (posts l = [] ∧ signed_as key own [transfer own] (one_coin_fee (ce_fees args) 500000) msg l ∨
       (length (posts l) ≤ 1)%nat ∧ ce_no_batch args = false ∧
         signed_as key own [batch_request own] (one_coin_fee bridge_fee 500000000) msg l)
  | _ => spends e = false
  end.

Lemma cosmos_to_eth_lenient : lenient cosmos_to_eth_spec.
Proof. intros R e l. by destruct e. Qed.

Context (own : CosmosAddress) (Hown : cosmos_key_to_address key prefix = Ok own).

Lemma transfer_spec l :
  posts l = [] → transfer_checked own l →
  sat cosmos_to_eth_spec any_env
    (send_to_eth key (ce_eth_destination args) coin bridge_fee (ce_fees args) prefix) l
    (λ _ l', l ⊆ l' ∧ (length (posts l') ≤ 1)%nat).
Proof.
  intros Hp Hc. pose proof cosmos_to_eth_lenient as HP. unfold send_to_eth. rewrite Hown. cbn [unwrap].
  apply sat_pure_bind; [done|]. intros own' [= <-].
  destruct (negb _); [apply sat_ret; rewrite Hp; simpl; split; [done|lia]|].
  apply sat_call_bind; [done|]. intros r _. set (l1 := l ++ _).
  assert (posts l1 = []) as Hp1 by (unfold l1; by rewrite posts_snoc).
  assert (l ⊆ l1) as Hl1 by (unfold l1; sub).
  apply sat_pure_bind; [done|]. intros balances _.
  apply sat_pure_try; [done| |intros err _; rewrite Hp1; simpl; split; [done|lia]].
  intros found _. destruct (negb found); [apply sat_ret; rewrite Hp1; simpl; split; [done|lia]|].
  eapply sat_mono; [apply sign_and_send_accepted; [done|]|].
  - intros msg l2 Hl2 Hs2 Hsig. exists own. split_and!; [done|by eapply transfer_checked_sub; [|done]; etrans|].
    left. split; [by rewrite (posts_spent l1)|done].
  - intros r' l2 (Hl2 & Hlen & _). rewrite Hp1 in Hlen. split; [by etrans|done].
Qed.

Lemma batch_request_spec wait l :
  ce_no_batch args = false → (length (posts l) ≤ 1)%nat → transfer_checked own l →
  sat cosmos_to_eth_spec any_env (send_request_batch key (denom coin) bridge_fee prefix wait) l
    (λ r l', (length (posts l') ≤ 2)%nat ∧ (is_ok r = true → ∃ msg response,
       signed_as key own [batch_request own] (one_coin_fee bridge_fee 500000000) msg l' ∧
       saw l' (ContactSendTransaction msg) (Ok response))).
Proof.
  intros Hb Hp Hc. pose proof cosmos_to_eth_lenient as HP. unfold send_request_batch. rewrite Hown. cbn [unwrap].
  apply sat_pure_bind; [done|]. intros own' [= <-].
  eapply sat_mono; [apply sign_and_send_accepted; [done|]|].
  - intros msg l2 Hl2 Hs2 Hsig. exists own. split_and!; [done|by eapply transfer_checked_sub|].
    right. split_and!; [by rewrite (posts_spent l)|done|done].
  - intros r' l2 (Hl2 & Hlen & Hok). split; [lia|]. intros H. destruct (Hok H) as (m & res & _ & ? & ? & _). by exists m, res.
Qed.
End CosmosToEth.

(** C21: [cosmos_to_eth] posts at most two transactions, both signed by the key given: first the transfer
    of the coins to the Ethereum address, with a bridge fee of one unit of the same coin, then, unless
    --no-batch was given, the request for a batch of that denomination. Both come after the chain has
    named a token for the denomination, the account has been seen to hold strictly more of exactly that
    coin than is sent, and both the amount sent and the transaction fee have been checked: of the
    balances listed, the first whose denomination contains the coin's (the fee's) as a substring,
    perhaps that of another coin, is at least the amount (the fee). Where a batch is wanted, success
    means that the broadcast of the request was accepted. *)
Theorem cosmos_to_eth_checked args prefix :
  sat (cosmos_to_eth_spec args prefix) any_env (cosmos_to_eth args prefix) []
    (λ r l, (length (posts l) ≤ 2)%nat ∧
      (r = Ok tt → ce_no_batch args = false → ∃ own msg response,
         signed_as (ce_cosmos_phrase args) own [batch_request args own]
           (one_coin_fee {| denom := denom (ce_amount args); amount := 1 |} 500000000) msg l ∧
         saw l (ContactSendTransaction msg) (Ok response))).
Proof.
  pose proof (cosmos_to_eth_lenient args prefix) as HP. unfold cosmos_to_eth. cbv zeta.
  apply sat_pure_bind; [done|]. intros own Hown%unwrap_Done.
  eapply sat_run; [by apply create_rpc_connections_unspent|].
  intros c l1 (Hs1 & _ & (u & ct & -> & -> & (_ & -> & _)) & _).
  apply sat_pure_bind; [done|]. intros contact [= <-]. apply sat_pure_bind; [done|]. intros _ _. cbn [contact_prefix].
  set (Post := λ (r : result unit GravityError) l, _ ∧ _).
  assert (∀ e l, spent l = spent l1 → Post (Err e) l) as Herr.
  { intros e l Hl. split; [|done]. rewrite (posts_spent []) by congruence. simpl. lia. }
  apply sat_call_bind; [done|]. intros res _. set (l2 := l1 ++ _).
  assert (spent l2 = spent l1) as Hs2 by (unfold l2; by rewrite spent_snoc).
  destruct res as [erc20|e]; [|by apply sat_ret, Herr].
  apply (finds_try _ _ _ _ _ _ _ (fee_finds _ _)); [done| |intros e l _ Hs; apply Herr; congruence].
  intros [] l3 Hl3 Hs3 Hcoin.
  apply (finds_try _ _ _ _ _ _ _ (fee_finds _ _)); [done| |intros e l _ Hs; apply Herr; congruence].
  intros [] l4 Hl4 Hs4 Hfee. apply sat_query; [done|done|]. intros balances. set (l5 := l4 ++ _).
  assert (spent l5 = spent l1) as Hs5 by (unfold l5; rewrite spent_snoc by done; congruence).
  assert (posts l5 = []) as Hp5 by (by rewrite (posts_spent []) by congruence).
  destruct (find_coin _ _) as [found|] eqn:Hfound; [|by apply sat_ret, Herr].
  apply find_coin_Some in Hfound as [Hin Hden].
  destruct (Z.leb_spec (amount found) (amount (ce_amount args))) as [|Hlt]; [by apply sat_ret, Herr|].
  assert (transfer_checked args own l5) as Hchecked.
  { split_and!.
    - exists erc20. eapply saw_sub; [|unfold l2; solve_saw]. etrans; [exact Hl3|]. etrans; [exact Hl4|]. unfold l5. sub.
    - eapply fee_available_sub; [|done]. etrans; [exact Hl4|]. unfold l5. sub.
    - eapply fee_available_sub; [|done]. unfold l5. sub.
    - exists balances, found. split_and!; [unfold l5; solve_saw|done..]. }
  unfold lock_and_batch. eapply sat_run; [by apply (transfer_spec _ _ own)|]. intros r l6 [Hl6 Hp6].
  destruct (ce_no_batch args) eqn:Hb; cbn [negb]; [apply sat_ret; split; [lia|done]|].
  eapply sat_run; [apply (batch_request_spec _ _ own); [done|done|done|by eapply transfer_checked_sub]|].
  intros r' l7 [Hlen Hok]. apply sat_pure_bind; [done|]. intros response ->%expect_Done. apply sat_ret.
  split; [done|]. intros _ _. destruct (Hok eq_refl) as (m & res & ?). by exists own, m, res.
Qed.
End Clients.
