(* ===== verification/OrchestratorRun.v ===== *)
(** * The orchestrator, run

    Two nodes small enough to execute, and the orchestrator against them: the hypotheses of the
    theorems of CosmosTheory.v and OracleTheory.v can be met, and what they require of a transaction
    is not vacuous, since each of the three roles makes one. *)

From ITree Require Import ITree.
From S2P Require Import Prelude Bytes Proto External Float Instances Types Signatures Valset.
From S2P Require Import ValsetTheory Batches LogicCall EthEvents EthEventsTheory Messages.
From S2P Require Import Effects CosmosSend Queries Submit SubmitTheory CosmosTheory Join.
From S2P Require Import Relayer RelayerSearch RelayerTheory RelayerRun Oracle Orchestrator OracleTheory OrchestratorTheory.
From Stdlib Require Import Sorted.

Section Nodes.
#[local] Existing Instance concrete_ext.
#[local] Existing Instance concrete_laws.
#[local] Existing Instance checked_build.

(** ** Confirmations of a quorum *)

(** Two of the four members, with 3/4.3 of the power. *)
Definition two_signers : list (CosmosAddress * EthPrivateKey) :=
  [(cosmos 1, 1 : EthPrivateKey); (cosmos 2, 2 : EthPrivateKey)].

Lemma two_signers_quorum :
  percent_threshold ≤ power_where (signed_by ((λ s, eth_key_to_address s.2) <$> two_signers))
    (valset_members sample_valset).
Proof. vm_compute. discriminate. Qed.

Lemma batch_quorum_accepted_witness : ∃ protos confirms sigs,
  eval_map (λ s, batch_confirm_msg s.1 s.2 run_id sample_batch) two_signers =
    Done ((λ p, mkMsg "/nab.v1.MsgConfirmBatch" (ConfirmBatch p)) <$> protos) ∧
  try_map batch_confirm_try_from protos = Done (Ok confirms) ∧
  order_sigs sample_valset sample_batch_hash confirms = Done (Ok sigs).
Proof.
  apply (batch_quorum_accepted sample_valset run_id two_signers ltac:(discriminate) sample_powers
    two_signers_quorum sample_batch). vm_refl.
Defined.

Lemma valset_quorum_accepted_witness : ∃ protos confirms sigs,
  (λ s, valset_confirm_msg s.1 s.2 run_id other_valset) <$> two_signers =
    (λ p, mkMsg "/nab.v1.MsgValsetConfirm" (ValsetConfirm p)) <$> protos ∧
  try_map (λ c, Done (valset_confirm_try_from c)) protos = Done (Ok confirms) ∧
  order_sigs sample_valset (encode_valset_confirm_hashed run_id other_valset) confirms = Done (Ok sigs).
Proof.
  exact (valset_quorum_accepted sample_valset run_id two_signers ltac:(discriminate) sample_powers
    two_signers_quorum other_valset).
Defined.

Lemma logic_call_quorum_accepted_witness : ∃ protos confirms sigs,
  (λ s, logic_call_confirm_msg s.1 s.2 run_id sample_call) <$> two_signers =
    (λ p, mkMsg "/nab.v1.MsgConfirmLogicCall" (ConfirmLogicCall p)) <$> protos ∧
  try_map logic_call_confirm_try_from protos = Done (Ok confirms) ∧
  order_sigs sample_valset (encode_logic_call_confirm_hashed run_id sample_call) confirms = Done (Ok sigs).
Proof.
  exact (logic_call_quorum_accepted sample_valset run_id two_signers ltac:(discriminate) sample_powers
    two_signers_quorum sample_call).
Defined.

(** ** Claims *)

Definition deposit_event : SendToCosmosEvent := {|
  stc_erc20 := eth 5; stc_sender := eth 6; stc_destination := cosmos 8; stc_amount := 100;
  stc_event_nonce := 4; stc_block_height := 710 |}.
Definition withdraw_event : TransactionBatchExecutedEvent := {|
  tbe_batch_nonce := 12; tbe_block_height := 705; tbe_erc20 := eth 5; tbe_event_nonce := 3 |}.
Definition deploy_event : Erc20DeployedEvent := {|
  ede_cosmos_denom := "footoken"; ede_erc20_address := eth 5; ede_name := "foo"; ede_symbol := "";
  ede_decimals := 6; ede_event_nonce := 2; ede_block_height := 703 |}.

Definition sample_claims : list (Z * Msg) :=
  match ordered_claims "cosmos" (cosmos 1) [deposit_event] [withdraw_event] [deploy_event] [] [] with
  | Done m => m
  | Panic _ => []
  end.
Lemma claims_sorted_complete_witness : sample_claims.*1 = [2; 3; 4] ∧ StronglySorted Z.lt sample_claims.*1.
Proof.
  split; [vm_refl|].
  refine (proj1 (claims_sorted_complete "cosmos" (cosmos 1) [deposit_event] [withdraw_event]
    [deploy_event] [] [] sample_claims _)). vm_refl.
Defined.

(** ** The two nodes *)

(** The last nonce the chain has from this oracle, and the scheduler's turn. *)
Record world := mkWorld { w_nonce : Z; w_turn : nat }.

(** What the contract answers to every getter; read as a string, it is the gravity id. *)
Definition answer : bytes := be_split 32 1.
Definition reported_id : string := of_bytes answer.
Definition confirm_of (k : Z) : PMsgConfirmBatch :=
  let hash := match encode_tx_batch_confirm_hashed reported_id sample_batch with Done h => h | Panic _ => [] end in
  {| pcb_nonce := 2; pcb_token_contract := address_to_string (eth 4);
     pcb_eth_signer := address_to_string (eth k); pcb_orchestrator := address_to_string (eth k);
     pcb_signature := of_bytes (signature_to_bytes (sign_ethereum_msg (k : EthPrivateKey) hash)) |}.

(** The contract's events: a validator set, a batch and a deposit, nonces 2 to 4. *)
Definition events_of (signature : string) : list Log :=
  if String.eqb signature VALSET_UPDATED_EVENT_SIG then
    [mkLog [word 1; word 4] (valset_updated_data 2 7 (Some (eth 3)) sample_members 2) (Some 300)]
  else if String.eqb signature TRANSACTION_BATCH_EXECUTED_EVENT_SIG then
    [mkLog [word 1; word 12; addr_word (eth 5)] (word 3) (Some 305)]
  else if String.eqb signature SENT_TO_COSMOS_EVENT_SIG then
    [mkLog [word 1; addr_word (eth 5); addr_word (eth 6); pad12 (be_split 20 8)] (word 100 ++ word 4) (Some 310)]
  else [].

Definition nodes : handler (W := world) := λ R e w,
  match e in callE R return option (R * world) with
  | EthBlockNumber => Some (Ok 400, w)
  | NetVersion => Some (Ok 1, w)
  | EthGetBalance _ => Some (Ok 1000000, w)
  | EthGetTransactionCount _ => Some (Ok 3, w)
  | EthGasPrice => Some (Ok 2, w)
  | EthEstimateGas _ => Some (Ok 20, w)
  | SimulateTransaction _ _ _ _ => Some (Ok answer, w)
  | SendTransaction _ _ _ _ _ _ => Some (Ok 77, w)
  | WaitForTransaction _ _ => Some (Ok tt, w)
  | CheckForEvents _ _ _ signature => Some (Ok (events_of signature), w)
  | GetUniswapPrice _ _ _ _ _ => Some (Ok 100, w)
  | QValsetRequest _ => Some (Ok None, w)
  | QLastValsetRequests => Some (Ok [], w)
  | QLastPendingValsetRequests _ => Some (Ok [valset_to_proto sample_valset], w)
  | QLastPendingBatch _ => Some (Ok (Some (batch_into sample_batch)), w)
  | QLastPendingLogicCall _ => Some (Ok None, w)
  | QOutgoingTxBatches => Some (Ok [batch_into sample_batch], w)
  | QBatchConfirms _ _ => Some (Ok [confirm_of 2; confirm_of 1], w)
  | QOutgoingLogicCalls => Some (Ok [], w)
  | QLastEventNonce _ => Some (Ok (w_nonce w), w)
  | ContactGetChainStatus => Some (Ok (Moving 9), w)
  | ContactGetMessageArgs _ _ => Some (Ok tt, w)
  | ContactSendTransaction _ => Some (Ok [], mkWorld 4 (w_turn w))
  | ContactWaitForTx _ _ => Some (Ok [], w)
  | Sleep _ => Some (tt, w)
  | TimerFired _ => Some (false, w)
  | Pick n => Some (w_turn w, mkWorld (w_nonce w) (S (w_turn w)))
  | _ => None
  end.
Definition fresh_world : world := mkWorld 2 0.
Definition user_fee : Coin := {| denom := "stake"; amount := 1 |}.
Definition run_tools_config : GravityBridgeToolsConfig :=
  {| config_relayer := run_config; config_orchestrator := mkOrchestratorConfig true |}.

(** Some turns of the whole program: each role acts; the relayer, when it is enabled. *)
Definition turns (config : GravityBridgeToolsConfig) (n : nat) : log :=
  (run nodes n (orchestrator_main_loop "cosmos" (1 : CosmosPrivateKey) (1 : EthPrivateKey) contract
    user_fee config (Some 60)) fresh_world []).2.
Example orchestrator_acts :
  length (sends (turns run_tools_config 1500)) ≠ 0%nat ∧ length (posts (turns run_tools_config 1500)) ≠ 0%nat.
Proof. split; vm_compute; discriminate. Qed.
Example relayer_disabled :
  sends (turns {| config_relayer := run_config; config_orchestrator := mkOrchestratorConfig false |} 600) = [].
Proof. vm_refl. Qed.

Lemma orchestrator_guarded_witness : ∃ x, turns run_tools_config 1500 !! 455%nat = Some x ∧ is_send x = true ∧
  orchestrator_spec "cosmos" contract (1 : @CosmosPrivateKey concrete_ext) (1 : @EthPrivateKey concrete_ext) user_fee run_tools_config _
    (ent_call x) (take 455 (turns run_tools_config 1500)).
Proof.
  apply (run_sat_picked nodes _ any_env _ _ _ _ _ is_send (λ _ _ _ _ _ _, I)
    (orchestrator_guarded "cosmos" contract (1 : @CosmosPrivateKey concrete_ext) (1 : @EthPrivateKey concrete_ext) user_fee run_tools_config
       (Some 60))). vm_refl.
Defined.

(** The relayer alone. *)
Definition relayer_turns : log :=
  (run nodes 300 (relayer_main_loop (1 : @EthPrivateKey concrete_ext) contract run_config None) fresh_world []).2.
Lemma relayer_sends_guarded_witness : ∃ x, relayer_turns !! 62%nat = Some x ∧ is_send x = true ∧
  on_send (relayer_requires (1 : @EthPrivateKey concrete_ext) contract run_config) _ (ent_call x) (take 62 relayer_turns).
Proof.
  apply (run_sat_picked nodes _ any_env _ _ _ _ _ is_send (λ _ _ _ _ _ _, I)
    (relayer_sends_guarded (1 : @EthPrivateKey concrete_ext) contract run_config None)). vm_refl.
Defined.

(** ** Resuming *)

Lemma nodes_env : ∀ Y (e : callE Y) w x w', nodes Y e w = Some (x, w') →
  match e in callE R return R → Prop with QLastEventNonce _ => λ _, True | e => node_env _ e end x.
Proof.
  intros Y e w x w'. destruct e; simpl; try done. intros [= <- <-]. split; vm_compute; discriminate.
Qed.

(** The chain's last nonce is 3: the batch, in block 305. *)
Definition resuming : handler (W := world) := λ R e w,
  match e in callE R return option (R * world) with
  | QLastEventNonce _ => Some (Ok 3, w)
  | e => nodes _ e w
  end.
Lemma resuming_env : ∀ Y (e : callE Y) w x w', resuming Y e w = Some (x, w') → node_env Y e x.
Proof.
  intros Y e w x w' H. destruct e; try exact (nodes_env _ _ _ _ _ H).
  injection H as <- <-. split; vm_compute; discriminate.
Qed.
Definition resume_log : log :=
  (run resuming 200 (get_last_checked_block (cosmos 1) "cosmos" contract) fresh_world []).2.
Lemma resume_run :
  run resuming 200 (get_last_checked_block (cosmos 1) "cosmos" contract) fresh_world [] =
  (Returned 305, resume_log).
Proof. unfold resume_log. vm_refl. Qed.

Lemma oracle_resumes_witness : ∃ n mid to w,
  saw_event_nonce resume_log (cosmos 1) "cosmos" n ∧ saw_logs resume_log contract to mid w ∧
  found_in (Z.max 1 n) w 305.
Proof.
  destruct (run_sat resuming _ _ _ _ _ _ _ _ _ resuming_env
    (oracle_resumes (cosmos 1) "cosmos" contract) resume_run)
    as (n & last & latest & mid & to & w & H1 & -> & _ & _ & _ & H2 & H3).
  by exists n, mid, to, w.
Defined.

Lemma oracle_resync_terminates_witness :
  terminates live_env (get_last_checked_block (cosmos 1) "cosmos" contract) ∧
  ended (run nodes 200 (get_last_checked_block (cosmos 1) "cosmos" contract) fresh_world []) = true.
Proof. split; [apply (oracle_resync_terminates (cosmos 1) "cosmos" contract) | vm_refl]. Defined.
End Nodes.
