(* ===== verification/Background.v ===== *)
(** * Background tasks and what a returning program has seen

    [tokio::spawn] hands a future to the runtime, which polls it from then on beside the program; a
    panic in it ends only that task. [join_all] polls futures until all have ended. And a logic for
    programs that check things: [passes t Q] says that whenever [t] returns, its own calls and
    answers satisfy [Q]; [▷] says in which order. What a program has seen on its own it has seen
    among the calls of tasks beside it too. *)

From ITree Require Import ITree.
From S2P Require Import Prelude Bytes Proto External Instances Types Effects SubmitTheory Join.

(** ** The runtime *)

Section Tasks.
Context `{X : Ext}.

Definition is_panic {R} (e : callE R) : bool := match e with Panics _ => true | _ => false end.

(** One step of a task; what is left of it, if anything is. *)
Definition step_task (t : io unit) : io (option (io unit)) :=
  match observe t with
  | RetF _ => Ret None
  | TauF t => Ret (Some t)
  | VisF e k => if is_panic e then Ret None else let* x := call e in Ret (Some (k x))
  end.

(** The program runs to its end, the tasks beside it; it is left with the tasks. *)
Definition alongside {R} (tasks : list (io unit)) (main : io R) : io (R * list (io unit)) :=
  ITree.iter (λ '(main, tasks),
    let* i := call (Pick (S (length tasks))) in
    match (i mod S (length tasks))%nat with
    | O =>
        let* o := step_io main in
        Ret (match o with inl r => inr (r, tasks) | inr main => inl (main, tasks) end)
    | S j =>
        match tasks !! j with
        | None => Ret (inl (main, tasks))
        | Some t =>
            let* o := step_task t in
            Ret (inl (main, match o with Some t => <[j := t]> tasks | None => delete j tasks end))
        end
    end) (main, tasks).

(** [join_all(futures).await]: the results, in the order of the futures. *)
Definition results {A} (futures : list (A + io A)) : option (list A) :=
  mapM (λ f, match f with inl a => Some a | inr _ => None end) futures.
Definition join_all {A} (futures : list (io A)) : io (list A) :=
  ITree.iter (λ futures : list (A + io A),
    match results futures with
    | Some l => Ret (inr l)
    | None =>
        let* i := call (Pick (length futures)) in
        let j := (i mod length futures)%nat in
        match futures !! j with
        | Some (inr t) => let* o := step_io t in Ret (inl (<[j := o]> futures))
        | _ => Ret (inl futures)
        end
    end) (inr <$> futures).
End Tasks.

(** ** What a returning program has seen *)

Section Passing.
Context `{X : Ext}.
Implicit Types (k l : log) (Q : log → Prop).

Definition free : spec := λ _ _ _, True.
Definition passes {R} (t : io R) (Q : R → log → Prop) : Prop := sat free any_env t [] Q.

(** Calls between and after do not matter. *)
Definition steady Q : Prop := ∀ k k', k `sublist_of` k' → Q k → Q k'.

(** The call, answered so; one thing and, later, another. *)
Definition one {R} (e : callE R) (x : R) : log → Prop := λ k, mkEntry R e x ∈ k.
Definition andthen (Q1 Q2 : log → Prop) : log → Prop := λ k,
  ∃ k1 k2, k1 ++ k2 `sublist_of` k ∧ Q1 k1 ∧ Q2 k2.

Lemma steady_one {R} (e : callE R) x : steady (one e x).
Proof. intros k k' Hs. by apply sublist_subseteq. Qed.
Lemma steady_andthen Q1 Q2 : steady (andthen Q1 Q2).
Proof. intros k k' Hs (k1 & k2 & H & H1 & H2). exists k1, k2. split; [by etrans|done]. Qed.
Lemma steady_exists {B} (Q : B → log → Prop) : (∀ b, steady (Q b)) → steady (λ k, ∃ b, Q b k).
Proof. intros H k k' Hs [b Hb]. exists b. by eapply H. Qed.
Lemma steady_and Q1 Q2 : steady Q1 → steady Q2 → steady (λ k, Q1 k ∧ Q2 k).
Proof. intros H1 H2 k k' Hs [? ?]. split; [by eapply H1|by eapply H2]. Qed.
Lemma steady_pure (φ : Prop) : steady (λ _, φ).
Proof. by intros k k' _. Qed.

(** What is yet to be seen, of a program that has made some calls. *)
Lemma steady_after Q (f : log → log) :
  (∀ k k', k `sublist_of` k' → f k `sublist_of` f k') → steady Q → steady (λ k, Q (f k)).
Proof. intros Hf H k k' Hs. by apply H, Hf. Qed.

Lemma andthen_intro Q1 Q2 k1 k2 : Q1 k1 → Q2 k2 → andthen Q1 Q2 (k1 ++ k2).
Proof. intros H1 H2. by exists k1, k2. Qed.
Lemma andthen_mono Q1 Q1' Q2 Q2' k :
  (∀ k, Q1 k → Q1' k) → (∀ k, Q2 k → Q2' k) → andthen Q1 Q2 k → andthen Q1' Q2' k.
Proof. intros H1 H2 (k1 & k2 & Hs & ? & ?). exists k1, k2. auto. Qed.
Lemma steady_app_r Q k1 k2 : steady Q → Q k2 → Q (k1 ++ k2).
Proof. intros H. apply H. by apply sublist_inserts_l. Qed.
Lemma steady_app_l Q k1 k2 : steady Q → Q k1 → Q (k1 ++ k2).
Proof. intros H. apply H. by apply sublist_inserts_r. Qed.
Lemma steady_cons Q x k : steady Q → Q k → Q (x :: k).
Proof. intros H. apply H. by apply sublist_cons. Qed.
Lemma one_here {R} (e : callE R) x k : one e x (mkEntry R e x :: k).
Proof. by left. Qed.
Lemma andthen_one {R} (e : callE R) x Q k : Q k → andthen (one e x) Q (mkEntry R e x :: k).
Proof. intros H. exists [mkEntry R e x], k. split_and!; [done|by left|done]. Qed.
Lemma andthen_apart {R} (e : callE R) x Q k : andthen (one e x) Q k → one e x k.
Proof.
  intros (k1 & k2 & Hs & H1 & _). eapply steady_one; [exact Hs|]. apply elem_of_app. by left.
Qed.

(** ** Its rules *)

Lemma passes_mono {R} (t : io R) (Q Q' : R → log → Prop) :
  passes t Q → (∀ r k, Q r k → Q' r k) → passes t Q'.
Proof. apply sat_mono. Qed.

Lemma passes_any {R} (t : io R) : passes t (λ _ _, True).
Proof.
  intros n. generalize (@nil entry). revert t. induction n as [|n IH]; intros t l; simpl; [done|].
  destruct (observe t); [done|apply IH|split; [done|]]. intros x _. apply IH.
Qed.

(** From any history: it adds its own calls. *)
Lemma passes_frame {R} (t : io R) (Q : R → log → Prop) l :
  passes t Q → sat free any_env t l (λ r l', ∃ k, l' = l ++ k ∧ Q r k).
Proof.
  assert (∀ n t k, wp free any_env n t k Q →
    wp free any_env n t (l ++ k) (λ r l', ∃ k, l' = l ++ k ∧ Q r k)) as Hw.
  { induction n as [|n IH]; intros t' k; simpl; [done|]. destruct (observe t') as [r|u|Y e f].
    - by exists k.
    - apply IH.
    - intros [_ Hf]. split; [done|]. intros x Hx. rewrite <- app_assoc. by apply IH, Hf. }
  intros H n. specialize (Hw n t [] (H n)). by rewrite app_nil_r in Hw.
Qed.

Lemma passes_ret {R} (r : R) (Q : R → log → Prop) : Q r [] → passes (Ret r) Q.
Proof. apply sat_ret. Qed.

Lemma passes_bind {R V} (t : io R) (f : R → io V) (Q1 : R → log → Prop) (Q : V → log → Prop) :
  passes t Q1 → (∀ r k1, Q1 r k1 → passes (f r) (λ v k2, Q v (k1 ++ k2))) → passes (ITree.bind t f) Q.
Proof.
  intros Ht Hf. eapply sat_run; [exact Ht|]. intros r k1 H1.
  eapply sat_mono; [eapply passes_frame, Hf, H1|]. by intros v k (k2 & -> & H2).
Qed.

(** What a step is for may be its result, or its calls, or nothing. *)
Lemma passes_then {R V} (t : io R) (f : R → io V) (φ : R → Prop) (Q : V → log → Prop) :
  (∀ v, steady (Q v)) → passes t (λ r _, φ r) → (∀ r, φ r → passes (f r) Q) → passes (ITree.bind t f) Q.
Proof.
  intros HQ Ht Hf. eapply passes_bind; [exact Ht|]. intros r k1 H1.
  eapply passes_mono; [by apply Hf|]. intros v k2. by apply steady_app_r.
Qed.
Lemma passes_skip {R V} (t : io R) (f : R → io V) (Q : V → log → Prop) :
  (∀ v, steady (Q v)) → (∀ r, passes (f r) Q) → passes (ITree.bind t f) Q.
Proof. intros HQ Hf. apply passes_then with (φ := λ _, True); [done|apply passes_any|auto]. Qed.

Lemma passes_call {R} (e : callE R) (Q : R → log → Prop) :
  (∀ x, Q x [mkEntry R e x]) → passes (call e) Q.
Proof. intros H. by apply sat_call. Qed.
Lemma passes_call_bind {R V} (e : callE R) (f : R → io V) (Q : V → log → Prop) :
  (∀ x, passes (f x) (λ v k, Q v (mkEntry R e x :: k))) → passes (ITree.bind (call e) f) Q.
Proof.
  intros H. eapply passes_bind; [apply (passes_call e (λ x k, k = [mkEntry R e x])); done|].
  intros x k ->. apply H.
Qed.
Lemma passes_pure {R} (m : eval R) (Q : R → log → Prop) : (∀ r, m = Done r → Q r []) → passes (pure m) Q.
Proof. intros H. by apply sat_pure. Qed.
Lemma passes_pure_bind {R V} (m : eval R) (f : R → io V) (Q : V → log → Prop) :
  (∀ r, m = Done r → passes (f r) Q) → passes (ITree.bind (pure m) f) Q.
Proof. intros H. by apply sat_pure_bind. Qed.
Lemma passes_panic {R} w (Q : R → log → Prop) : passes (panic w) Q.
Proof. by apply sat_panic. Qed.
Lemma passes_panic_bind {R V} w (f : R → io V) (Q : V → log → Prop) : passes (ITree.bind (panic w) f) Q.
Proof. by apply sat_bind, sat_panic. Qed.

Lemma passes_try {B C E F} (conv : E → F) (t : io (result B E)) (f : B → io (result C F))
    (Q1 : result B E → log → Prop) (Q : result C F → log → Prop) :
  passes t Q1 → (∀ x k1, Q1 (Ok x) k1 → passes (f x) (λ v k2, Q v (k1 ++ k2))) →
  (∀ err k1, Q1 (Err err) k1 → Q (Err (conv err)) k1) → passes (try_io conv t f) Q.
Proof.
  intros Ht Hf He. eapply passes_bind; [exact Ht|]. intros [x|err] k1 H1; [by apply Hf|].
  apply passes_ret. rewrite app_nil_r. by apply He.
Qed.

Lemma passes_call_try {B C E F} (conv : E → F) (e : callE (result B E)) (f : B → io (result C F))
    (Q : result C F → log → Prop) :
  (∀ x, passes (f x) (λ v k, Q v (mkEntry _ e (Ok x) :: k))) →
  (∀ err, Q (Err (conv err)) [mkEntry _ e (Err err)]) → passes (try_io conv (call e) f) Q.
Proof. intros Ho He. apply passes_call_bind. intros [x|err]; [apply Ho|by apply passes_ret]. Qed.
Lemma passes_ret_try {B C E F} (conv : E → F) (r : result B E) (f : B → io (result C F))
    (Q : result C F → log → Prop) :
  (∀ x, r = Ok x → passes (f x) Q) → (∀ err, r = Err err → Q (Err (conv err)) []) →
  passes (try_io conv (Ret r) f) Q.
Proof. apply sat_ret_try. Qed.

(** A loop: what holds when it is left. *)
Lemma passes_iter {I R} (body : I → io (I + R)) (Inv : I → Prop) i (Q : R → log → Prop) :
  (∀ r, steady (Q r)) →
  (∀ i, Inv i → passes (body i) (λ r k, match r with inl j => Inv j | inr r => Q r k end)) →
  Inv i → passes (ITree.iter body i) Q.
Proof.
  intros HQ Hb Hi. apply sat_iter with (Inv := λ i _, Inv i); [|done]. clear i Hi. intros i l Hi.
  eapply sat_mono; [by apply passes_frame, Hb|]. intros [j|r] l' (k & -> & H); [done|]. by apply steady_app_r.
Qed.
Lemma passes_loop {I R} (body : I → io (I + R)) i (Q : R → log → Prop) :
  (∀ r, steady (Q r)) →
  (∀ i, passes (body i) (λ r k, match r with inl _ => True | inr r => Q r k end)) →
  passes (ITree.iter body i) Q.
Proof. intros HQ Hb. by apply passes_iter with (Inv := λ _, True). Qed.

(** A loop over a list: each turn's part, in their order. *)
Definition each {B} (items : list B) (Q : B → log → Prop) : log → Prop :=
  foldr (λ x, andthen (Q x)) (λ _, True) items.

Lemma steady_each {B} (items : list B) (Q : B → log → Prop) : steady (each items Q).
Proof. destruct items; [apply steady_pure|apply steady_andthen]. Qed.

Lemma passes_for {B V} (items : list B) (body : B → V → io V) s (Q : B → log → Prop) :
  (∀ x s, x ∈ items → passes (body x s) (λ _, Q x)) → passes (for_each items body s) (λ _, each items Q).
Proof.
  revert s. induction items as [|x items IH]; intros s Hb; simpl; [by apply passes_ret|].
  eapply passes_bind; [apply Hb; by left|]. intros s' k1 H1.
  eapply passes_mono; [apply IH; intros; apply Hb; by right|]. intros v k2 H2. by apply andthen_intro.
Qed.

(** ** Among other calls *)

(** What is left of a program that has made the calls [l0], which are among those of [l]. *)
Definition left_over {R} (Q : R → log → Prop) (t : io R) l : Prop :=
  ∃ l0, l0 `sublist_of` l ∧ sat free any_env t l0 Q.

Lemma left_over_other {R} (Q : R → log → Prop) (t : io R) l l' :
  l `sublist_of` l' → left_over Q t l → left_over Q t l'.
Proof. intros Hl (l0 & H0 & Ht). exists l0. split; [by etrans|done]. Qed.

Lemma left_over_step {R} (Q : R → log → Prop) (t : io R) l :
  (∀ r, steady (Q r)) → left_over Q t l →
  sat free any_env (step_io t) l (λ o l', match o with inl r => Q r l' | inr t' => left_over Q t' l' end).
Proof.
  intros HQ (l0 & Hl & Ht%sat_observe). unfold step_io. destruct (observe t) as [r|t'|Y e f].
  - apply sat_ret. by eapply HQ.
  - apply sat_ret. by exists l0.
  - destruct Ht as [_ Hf]. apply sat_call_bind; [done|]. intros x Hx. apply sat_ret.
    exists (l0 ++ [mkEntry Y e x]). split; [by apply sublist_app|by apply Hf].
Qed.

Lemma sat_free_frame {R} (t : io R) l : sat free any_env t l (λ _ l', l `sublist_of` l').
Proof.
  eapply sat_mono; [apply passes_frame, passes_any|]. intros r l' (k & -> & _). by apply sublist_inserts_r.
Qed.

(** What a program sees on its own it sees beside other tasks. *)
Lemma passes_alongside {R} tasks (main : io R) (Q : R → log → Prop) :
  (∀ r, steady (Q r)) → passes main Q → passes (alongside tasks main) (λ r, Q r.1).
Proof.
  intros HQ Hm. apply sat_iter with (Inv := λ s l, left_over Q s.1 l); [|by exists []].
  clear main tasks Hm. intros [main tasks] l Hm. cbn [fst] in Hm. apply sat_call_bind; [done|]. intros i _.
  assert (left_over Q main (l ++ [mkEntry _ (Pick (S (length tasks))) i])) as Hm'.
  { eapply left_over_other; [|done]. by apply sublist_inserts_r. }
  destruct (i mod S (length tasks))%nat as [|j].
  - eapply sat_run; [by apply left_over_step|]. intros [r|main'] l' H; apply sat_ret; exact H.
  - destruct (tasks !! j) as [t|]; [|by apply sat_ret].
    eapply sat_run; [apply sat_free_frame|]. intros o l' Hl. apply sat_ret. exact (left_over_other _ _ _ _ Hl Hm').
Qed.

(** A timeout lets its program be seen, to its end or not. *)
Lemma passes_timeout {R} d (t : io R) (Q : R → log → Prop) :
  (∀ r, steady (Q r)) → passes t Q →
  passes (timeout d t) (λ o k, match o with Some r => Q r k | None => one (TimerFired d) true k end).
Proof.
  intros HQ Ht. apply sat_iter with (Inv := λ t l, left_over Q t l); [|by exists []].
  clear t Ht. intros t l (l0 & Hl & Ht%sat_observe). destruct (observe t) as [r|t'|Y e f].
  - apply sat_ret. by eapply HQ.
  - apply sat_ret. by exists l0.
  - destruct Ht as [_ Hf]. apply sat_call_bind; [done|]. intros x Hx. apply sat_call_bind; [done|].
    intros [] _; apply sat_ret; [apply elem_of_app; right; by left|]. exists (l0 ++ [mkEntry Y e x]). split; [|by apply Hf].
    rewrite <- app_assoc. apply sublist_app; [done|]. by apply sublist_skip, sublist_nil_l.
Qed.

(** The calls a future has made by itself when its timer fires, each made as [P] requires. *)
Lemma passes_timeout_calls {R} d (t : io R) P (Q : R → log → Prop) :
  (∀ r, steady (Q r)) → sat P any_env t [] Q →
  passes (timeout d t) (λ o k, match o with
    | Some r => Q r k
    | None => ∃ l Y (e : callE Y) x, l ++ [mkEntry Y e x; mkEntry _ (TimerFired d) true] `sublist_of` k ∧ P Y e l
    end).
Proof.
  intros HQ Ht.
  apply sat_iter with (Inv := λ t k, ∃ l, l `sublist_of` k ∧ sat P any_env t l Q); [|by exists []].
  clear t Ht. intros t k (l & Hl & Ht%sat_observe). destruct (observe t) as [r|t'|Y e f].
  - apply sat_ret. by eapply HQ.
  - apply sat_ret. by exists l.
  - destruct Ht as [HP Hf]. apply sat_call_bind; [done|]. intros x Hx. apply sat_call_bind; [done|].
    intros [] _; apply sat_ret; rewrite <- app_assoc.
    + exists l, Y, e, x. split; [|done]. by apply sublist_app.
    + exists (l ++ [mkEntry Y e x]). split; [|by apply Hf]. apply sublist_app; [done|]. apply sublist_skip, sublist_nil_l.
Qed.
End Passing.

Infix "▷" := andthen (at level 55, right associativity) : rust_scope.

Create HintDb steady.
#[export] Hint Resolve steady_one steady_andthen steady_pure steady_each : steady.
Ltac after_calls := lazymatch goal with
  | |- steady (λ k, ?Q (@?f k)) => apply (steady_after Q f);
      [intros ? ? ?; repeat first [assumption | apply sublist_app; [reflexivity|] | apply sublist_skip]|steady]
  end
with steady := cbv beta; lazymatch goal with
  | |- ∀ _, _ => intro; steady
  | |- steady (λ k, ∃ x, _) => apply steady_exists; steady
  | |- steady (λ k, _ ∧ _) => apply steady_and; steady
  | |- steady (λ k, ?Q (_ ++ _)) => after_calls
  | |- steady (λ k, ?Q (_ :: _)) => after_calls
  | |- _ => solve [auto with steady]
  end.
