(* ===== verification/TestUtils.v ===== *)
(** * The test runner's tools: test_runner/src/utils.rs, bootstrapping.rs and the constants of main.rs

    What the integration tests share: the addresses and keys they read, funding accounts, checking
    balances, starting orchestrators beside the test, a governance proposal, and the deployment of the
    contracts. A failed check is a panic. *)

From ITree Require Import ITree.
From S2P Require Import Prelude Bytes Proto External Float Instances Types Effects Host Config.
From S2P Require Import Submit Join Orchestrator Nabt Background.
From Stdlib Require Import Strings.Byte SpecFloat.

(** ** Strings *)

(** [s.contains(needle)] *)
Fixpoint contains (needle s : string) : bool :=
  String.prefix needle s || match s with EmptyString => false | String _ s => contains needle s end.

(** [s.split(c).last().unwrap()], for a one-byte [c]: what follows its last occurrence. *)
Definition after_last (c : byte) (s : string) : string :=
  of_bytes (foldl (λ acc b, if decide (b = c) then [] else acc ++ [b]) [] (to_bytes s)).

(** The UTF-8 encodings of the characters of the property White_Space. *)
Definition white_space : list bytes :=
  [[x09]; [x0a]; [x0b]; [x0c]; [x0d]; [x20]; [xc2; x85]; [xc2; xa0]; [xe1; x9a; x80]] ++
  ((λ b, [xe2; x80; b]) <$> [x80; x81; x82; x83; x84; x85; x86; x87; x88; x89; x8a; xa8; xa9; xaf]) ++
  [[xe2; x81; x9f]; [xe3; x80; x80]].
Fixpoint strip_prefix (p b : bytes) : option bytes :=
  match p, b with
  | [], _ => Some b
  | x :: p, y :: b => if decide (x = y) then strip_prefix p b else None
  | _ :: _, [] => None
  end.
(** Strip any of [ps] as often as it is there; [b] is the fuel: each turn strips a byte at least. *)
Fixpoint strip_all (fuel : bytes) (ps : list bytes) (b : bytes) : bytes :=
  match fuel, omap (λ p, strip_prefix p b) ps with
  | _ :: fuel, b :: _ => strip_all fuel ps b
  | _, _ => b
  end.
(** [s.trim()] *)
Definition trim (s : string) : string :=
  let b := to_bytes s in
  let b := strip_all b white_space b in
  of_bytes (reverse (strip_all b (reverse <$> white_space) (reverse b))).

(** [s.lines()], and [BufReader::lines], which then reads each as UTF-8. *)
Fixpoint lines_from (line b : bytes) : list bytes :=
  match b with
  | [] => match line with [] => [] | _ => [line] end
  | x :: b =>
      if decide (x = x0a)
      then (match reverse line with x0d :: r => reverse r | _ => line end) :: lines_from [] b
      else lines_from (line ++ [x]) b
  end.
Definition str_lines (s : string) : list string := of_bytes <$> lines_from [] (to_bytes s).

(** A path, by its components. *)
Fixpoint components_from (part b : bytes) : list string :=
  match b with
  | [] => match part with [] => [] | _ => [of_bytes part] end
  | x :: b =>
      if decide (x = x2f)
      then (match part with [] => [] | _ => [of_bytes part] end) ++ components_from [] b
      else components_from (part ++ [x]) b
  end.
Definition path_of (s : string) : PathBuf :=
  match to_bytes s with x2f :: b => "/" :: components_from [] b | b => components_from [] b end.

(** ** What the tests rely on *)

(** [clarity::Transaction], unsigned. *)
Record EthTransaction `{Ext} := mkEthTransaction {
  tx_to : EthAddress;
  tx_nonce : Uint256;
  tx_gas_price : Uint256;
  tx_gas_limit : Uint256;
  tx_value : Uint256;
  tx_data : bytes;
}.

(** Third-party code that only the tests use. *)
Class TestTools `{X : Ext} := {
  (** [EthPrivateKey::from_str], its hexadecimal form, [CosmosPrivateKey::from_secret] *)
  eth_key_parse : string → result EthPrivateKey ClarityError;
  eth_key_to_hex : EthPrivateKey → string;
  cosmos_key_from_secret : bytes → CosmosPrivateKey;
  (** [==] of keys *)
  eth_key_eqb : EthPrivateKey → EthPrivateKey → bool;
  cosmos_key_eqb : CosmosPrivateKey → CosmosPrivateKey → bool;
  (** [tx.sign(key, Some(net_version)).to_bytes()] *)
  signed_tx_bytes : EthTransaction → EthPrivateKey → option Z → result bytes ClarityError;
  web3_error_string : Web3Error → string;
  DAI_CONTRACT_ADDRESS : EthAddress;
  (** [serde_json::to_string] of a coin; [prost]'s decoders *)
  coin_to_json : Coin → result string string;
  decode_send_to_cosmos_claim : bytes → result MsgSendToCosmosClaim string;
  decode_valset_updated_claim : bytes → result MsgValsetUpdatedClaim string;
}.

(** main.rs: the values read once from the environment, and the miner's key. *)
Class Statics `{X : Ext} := mkStatics {
  ADDRESS_PREFIX : string;
  STAKING_TOKEN : string;
  COSMOS_NODE_GRPC : string;
  COSMOS_NODE_ABCI : string;
  ETH_NODE : string;
  MINER_PRIVATE_KEY : EthPrivateKey;
}.

Section Constants.
Context `{X : Ext} `{TT : !TestTools} .

(** The environment's variables; each is read at its first use. *)
Definition statics (var : string → option string) : eval Statics :=
  let! miner := unwrap (eth_key_parse "0xb1bab011e03a9862664706fc3bbaa1b16651528e5f0e7fbfcbfdd8be302a13e7") in
  Done {|
    ADDRESS_PREFIX := default COSMOS_DEFAULT_PREFIX (var "ADDRESS_PREFIX");
    STAKING_TOKEN := default "stake" (var "STAKING_TOKEN");
    COSMOS_NODE_GRPC := default "http://localhost:9090" (var "COSMOS_NODE_GRPC");
    COSMOS_NODE_ABCI := default "http://localhost:26657" (var "COSMOS_NODE_ABCI");
    ETH_NODE := default "http://localhost:8545" (var "ETH_NODE");
    MINER_PRIVATE_KEY := miner |}.

Definition OPERATION_TIMEOUT : Duration := 120.
Definition TOTAL_TIMEOUT : Duration := 600.
Definition STAKE_SUPPLY_PER_VALIDATOR : Z := 1000000000000000000000.
Definition STARTING_STAKE_PER_VALIDATOR : Z := STAKE_SUPPLY_PER_VALIDATOR / 2.

Definition get_test_token_name : string := "footoken".
Definition get_fee : Coin := mkCoin get_test_token_name 1.
Definition get_chain_id : string := "gravity-test".
Definition one_eth : Uint256 := 1000000000000000000.
Definition one_hundred_eth : Uint256 := 1000000000000000000 * 100.

(** [to_lowercase], of letters of ASCII: no other letter becomes one of those compared with. *)
Definition lower (s : string) : string :=
  of_bytes ((λ b, let z := byte_val b in if (65 <=? z) && (z <=? 90) then byte_of (z + 32) else b) <$> to_bytes s).
Definition should_deploy_contracts (var : string → option string) : bool :=
  match var "DEPLOY_CONTRACTS" with
  | Some s => String.eqb s "1" || String.eqb (lower s) "yes" || String.eqb (lower s) "true"
  | None => false
  end.
End Constants.

Section Utils.
Context `{X : Ext} `{T : !Tools} `{TT : !TestTools} `{ST : !Statics} `{BD : Build}.

Definition MINER_ADDRESS : EthAddress := eth_key_to_address MINER_PRIVATE_KEY.

(** [m.await.unwrap()] and [m.await.expect(why)] *)
Definition unwrapped {A E} (m : io (result A E)) : io A := let* r := m in pure (unwrap r).
Definition expected {A E} (m : io (result A E)) (why : string) : io A := let* r := m in pure (expect r why).

(** ** utils.rs *)

Record ValidatorKeys := mkValidatorKeys {
  eth_key : EthPrivateKey;
  orch_key : CosmosPrivateKey;
  validator_key : CosmosPrivateKey;
}.

Record BridgeUserKey := mkBridgeUserKey {
  user_eth_address : EthAddress;
  user_eth_key : EthPrivateKey;
  user_cosmos_address : CosmosAddress;
  user_cosmos_key : CosmosPrivateKey;
  user_eth_dest_address : EthAddress;
  user_eth_dest_key : EthPrivateKey;
}.

(** [#[derive(PartialEq)]] *)
Definition user_key_eqb (a b : BridgeUserKey) : bool :=
  bool_decide (user_eth_address a = user_eth_address b) && eth_key_eqb (user_eth_key a) (user_eth_key b) &&
  bool_decide (user_cosmos_address a = user_cosmos_address b) &&
  cosmos_key_eqb (user_cosmos_key a) (user_cosmos_key b) &&
  bool_decide (user_eth_dest_address a = user_eth_dest_address b) &&
  eth_key_eqb (user_eth_dest_key a) (user_eth_dest_key b).

Definition create_default_test_config : GravityBridgeToolsConfig :=
  {| config_relayer := {| batch_market_enabled := false; valset_market_enabled := false;
                          logic_call_market_enabled := false |};
     config_orchestrator := config_orchestrator tools_config_default |}.
Definition create_market_test_config : GravityBridgeToolsConfig :=
  {| config_relayer := {| batch_market_enabled := true; valset_market_enabled := true;
                          logic_call_market_enabled := false |};
     config_orchestrator := config_orchestrator tools_config_default |}.

Definition HIGH_GAS_PRICE : Z := 1000000000.

Definition send_eth_bulk (amount : Uint256) (destinations : list EthAddress) : io unit :=
  let* net_version := unwrapped (call NetVersion) in
  let* nonce := unwrapped (call (EthGetTransactionCount MINER_ADDRESS)) in
  let* _ := for_each destinations (λ address nonce,
    let tx := {| tx_to := address; tx_nonce := nonce; tx_gas_price := HIGH_GAS_PRICE;
                 tx_gas_limit := 24000; tx_value := amount; tx_data := [] |} in
    let* tx := pure (unwrap (signed_tx_bytes tx MINER_PRIVATE_KEY (Some net_version))) in
    let* txid := call (EthSendRawTransaction tx) in
    let* txid := pure (unwrap txid) in
    let* _ := unwrapped (call (WaitForTransaction txid TOTAL_TIMEOUT)) in
    pure (u256_add nonce 1)) nonce in
  Ret tt.

Definition send_eth_to_orchestrators (keys : list ValidatorKeys) : io unit :=
  let* balance := unwrapped (call (EthGetBalance MINER_ADDRESS)) in
  let eth_keys := (λ k, eth_key_to_address (eth_key k)) <$> keys in
  let* amount := pure (u256_mul one_eth 100) in
  send_eth_bulk amount eth_keys.

Definition send_one_eth (dest : EthAddress) : io unit := send_eth_bulk one_eth [dest].

(** The first coin whose denomination starts so. *)
Definition coin_starting (prefix : string) (coins : list Coin) : option Coin :=
  head (filter (λ c, Is_true (String.prefix prefix (denom c))) coins).
Definition check_cosmos_balance (prefix : string) (address : CosmosAddress) : io (option Coin) :=
  let* account_info := unwrapped (call (ContactGetBalances address)) in
  Ret (coin_starting prefix account_info).

(** [5.0f32] *)
Definition f32_5 : f32 := S754_finite false 10485760 (-21).

Definition check_erc20_balance (address erc20 : EthAddress) (amount : Uint256) : io unit :=
  let get_erc20_balance := ITree.iter (λ _ : unit,
    let* r := call (GetErc20Balance erc20 address) in
    match r with
    | Ok new_balance => Ret (inr (Some new_balance))
    | Err err => if negb (contains "maxFeePerGas" (web3_error_string err)) then Ret (inr None) else Ret (inl tt)
    end) tt in
  let* r := timeout TOTAL_TIMEOUT get_erc20_balance in
  match r with
  | None => panic "get_erc20_balance timedout"
  | Some new_balance =>
      let* new_balance := pure (unwrap_option new_balance) in
      pure (rassert (amount <=? new_balance) "assertion failed: new_balance >= amount.clone()")
  end.

Definition send_erc20_bulk (amount : Uint256) (erc20 : EthAddress) (destinations : list EthAddress) : io unit :=
  let* miner_balance := unwrapped (call (GetErc20Balance erc20 MINER_ADDRESS)) in
  let* total := pure (u256_mul amount (Z.of_nat (length destinations))) in
  let* _ := pure (rassert (total <? miner_balance) "assertion failed: miner_balance > amount.clone() * destinations.len().into()") in
  let* nonce := unwrapped (call (EthGetTransactionCount MINER_ADDRESS)) in
  let* _ := for_each destinations (λ address nonce,
    let* txid := call (Erc20Send amount address erc20 MINER_PRIVATE_KEY (Some OPERATION_TIMEOUT)
                         [OptNonce nonce; OptGasLimit 100000; OptGasPriceMultiplier f32_5]) in
    let* txid := pure (unwrap txid) in
    let* _ := unwrapped (call (WaitForTransaction txid TOTAL_TIMEOUT)) in
    let* _ := check_erc20_balance address erc20 amount in
    pure (u256_add nonce 1)) nonce in
  Ret tt.

Definition get_user_key : io BridgeUserKey :=
  let* secret := call (RandomBytes 32) in
  let* eth_key := pure (unwrap (eth_key_from_slice secret)) in
  let eth_address := eth_key_to_address eth_key in
  let cosmos_key := cosmos_key_from_secret secret in
  let* cosmos_address := pure (unwrap (cosmos_key_to_address cosmos_key ADDRESS_PREFIX)) in
  let* secret := call (RandomBytes 32) in
  let* eth_dest_key := pure (unwrap (eth_key_from_slice secret)) in
  let eth_dest_address := eth_key_to_address eth_key in
  Ret {| user_eth_address := eth_address; user_eth_key := eth_key;
         user_cosmos_address := cosmos_address; user_cosmos_key := cosmos_key;
         user_eth_dest_address := eth_dest_address; user_eth_dest_key := eth_dest_key |}.

(** Gets the operator address for a validator's key. *)
Definition get_operator_address (key : CosmosPrivateKey) : eval CosmosAddress :=
  unwrap (cosmos_key_to_address key (ADDRESS_PREFIX +:+ "valoper")).

(** The [info!] line of [start_orchestrators]. *)
Definition log_spawn (k : ValidatorKeys) : eval unit :=
  if info_enabled then
    let! _ := unwrap (cosmos_key_to_address (orch_key k) ADDRESS_PREFIX) in
    let! _ := get_operator_address (validator_key k) in Done tt
  else Done tt.

(** What is spawned for one validator. *)
Definition orchestrator_task (gravity_address : EthAddress) (config : GravityBridgeToolsConfig)
    (k : ValidatorKeys) : io unit :=
  if contact_new_ok COSMOS_NODE_GRPC OPERATION_TIMEOUT ADDRESS_PREFIX then
    let* _ := orchestrator_main_loop ADDRESS_PREFIX (orch_key k) (eth_key k) gravity_address get_fee
                config None in
    Ret tt
  else panic "called `Result::unwrap()` on an `Err` value".

(** The tasks that are running when it is done: those spawned run while the next ones connect. *)
Fixpoint spawn_orchestrators (keys : list ValidatorKeys) (num_validators count : nat)
    (gravity_address : EthAddress) (validator_out : bool) (config : GravityBridgeToolsConfig)
    (tasks : list (io unit)) : io (list (io unit)) :=
  match keys with
  | [] => Ret tasks
  | k :: keys =>
      let* _ := pure (log_spawn k) in
      let* '(_, tasks) := alongside tasks (unwrapped (call (GrpcConnect COSMOS_NODE_GRPC))) in
      let tasks := tasks ++ [orchestrator_task gravity_address config k] in
      let count := S count in
      if validator_out && (count =? num_validators - 1)%nat then Ret tasks
      else spawn_orchestrators keys num_validators count gravity_address validator_out config tasks
  end.
Definition start_orchestrators (keys : list ValidatorKeys) (gravity_address : EthAddress)
    (validator_out : bool) (orchestrator_config : GravityBridgeToolsConfig) : io (list (io unit)) :=
  spawn_orchestrators keys (length keys) 0 gravity_address validator_out orchestrator_config [].

Definition create_parameter_change_proposal (key : CosmosPrivateKey) (deposit : Coin)
    (gravity_address : EthAddress) (valset_reward : Coin) : io unit :=
  let quoted s := of_bytes [x22] +:+ s +:+ of_bytes [x22] in
  let* json_value := pure (unwrap (coin_to_json valset_reward)) in
  let params_to_change :=
    [mkParamChange "nab" "BridgeContractAddress" (quoted (address_to_string gravity_address));
     mkParamChange "nab" "ValsetReward" json_value;
     mkParamChange "nab" "BridgeChainID" (quoted "1")] in
  let proposal := {| pcp_title := "Set gravity settings!"; pcp_description := "test proposal";
                     pcp_changes := params_to_change |} in
  let* res := unwrapped (call (ContactCreateGovProposal proposal
    "/cosmos.params.v1beta1.ParameterChangeProposal" deposit get_fee key (Some TOTAL_TIMEOUT))) in
  let* _ := unwrapped (call (ContactWaitForTx res TOTAL_TIMEOUT)) in
  Ret tt.

(** ** bootstrapping.rs *)

(** [File::open(p).expect(why)], its lines, each [expect]ed to be UTF-8. *)
Definition file_lines (filename why why_line : string) (d : disk) : eval (list string) :=
  let! contents := expect (read_file d (path_of filename)) why in
  eval_map (λ b, expect (from_utf8 b) why_line) (lines_from [] (to_bytes contents)).

Fixpoint ethereum_keys_of (lines : list string) : eval (list EthPrivateKey) :=
  match lines with
  | [] => Done []
  | key :: lines =>
      if String.eqb key "" || contains "public" key || contains "address" key then ethereum_keys_of lines
      else
        let key := trim (after_last x3a key) in
        let! k := unwrap (eth_key_parse key) in
        let! ks := ethereum_keys_of lines in Done (k :: ks)
  end.
Definition parse_ethereum_keys (d : disk) : eval (list EthPrivateKey) :=
  let! lines := file_lines "/validator-eth-keys" "Failed to find eth keys" "Error reading eth key file!" d in
  ethereum_keys_of lines.

Fixpoint phrases_of (lines : list string) : eval (list CosmosPrivateKey) :=
  match lines with
  | [] => Done []
  | phrase :: lines =>
      if String.eqb phrase "" || contains "write this mnemonic phrase" phrase ||
         contains "recover your account if" phrase then phrases_of lines
      else
        let! k := expect (cosmos_key_from_phrase phrase "") "Bad phrase!" in
        let! ks := phrases_of lines in Done (k :: ks)
  end.
Definition parse_phrases (filename : string) (d : disk) : eval (list CosmosPrivateKey) :=
  let! lines := file_lines filename "Failed to find phrases" "Error reading phrase file!" d in
  phrases_of lines.
Definition parse_validator_keys : disk → eval (list CosmosPrivateKey) := parse_phrases "/validator-phrases".
Definition parse_orchestrator_keys : disk → eval (list CosmosPrivateKey) := parse_phrases "/orchestrator-phrases".

Fixpoint zip_keys (cosmos_keys orch_keys : list CosmosPrivateKey) (eth_keys : list EthPrivateKey) :
    list ValidatorKeys :=
  match cosmos_keys, orch_keys, eth_keys with
  | c_key :: cosmos_keys, o_key :: orch_keys, e_key :: eth_keys =>
      {| eth_key := e_key; validator_key := c_key; orch_key := o_key |} :: zip_keys cosmos_keys orch_keys eth_keys
  | _, _, _ => []
  end.
Definition get_keys : io (list ValidatorKeys) :=
  let* d := call DiskRead in let* cosmos_keys := pure (parse_validator_keys d) in
  let* d := call DiskRead in let* orch_keys := pure (parse_orchestrator_keys d) in
  let* d := call DiskRead in let* eth_keys := pure (parse_ethereum_keys d) in
  Ret (zip_keys cosmos_keys orch_keys eth_keys).

Fixpoint all_paths_exist (input : list string) : io bool :=
  match input with
  | [] => Ret true
  | i :: input =>
      let* d := call DiskRead in
      if path_exists d (path_of i) then all_paths_exist input else Ret false
  end.
Definition return_existing (a b : string * string) : io (string * string) :=
  let* ok := all_paths_exist [a.1; a.2] in
  if ok : bool then Ret a
  else
    let* ok := all_paths_exist [b.1; b.2] in
    if ok : bool then Ret b else panic "No paths exist!".

Definition deployer_args (contract : string) : list string :=
  ["--cosmos-node=" +:+ COSMOS_NODE_ABCI; "--eth-node=" +:+ ETH_NODE;
   "--eth-privkey=" +:+ eth_key_to_hex MINER_PRIVATE_KEY; "--contract=" +:+ contract; "--test-mode=true"].

Definition deploy_contracts : io unit :=
  let* _ := unwrapped (call (ContactWaitForNextBlock TOTAL_TIMEOUT)) in
  let A := ("contract-deployer", "Gravity.json") in
  let B := ("/solidity/contract-deployer", "/solidity/Gravity.json") in
  let C0 := "/nab/solidity/contract-deployer.ts" in
  let C1 := "/nab/solidity/artifacts/contracts/Gravity.sol/Gravity.json" in
  let C2 := "/nab/solidity/" in
  let* a := all_paths_exist [A.1; A.2] in
  let* a_or_b := if a : bool then Ret true else all_paths_exist [B.1; B.2] in
  let* output :=
    if a_or_b : bool then
      let* paths := return_existing A B in
      expected (call (CommandOutput paths.1 (deployer_args paths.2) None)) "Failed to deploy contracts!"
    else
      let* c := all_paths_exist [C0; C1; C2] in
      if c : bool then
        expected (call (CommandOutput "npx" (["ts-node"; C0] ++ deployer_args C1) (Some C2)))
          "Failed to deploy contracts!"
      else panic "Could not find Gravity.json contract artifact in any known location!" in
  if negb (out_success output) then panic "Contract deploy failed!"
  else on_disk (write_file (path_of "/contracts") (out_stdout output)
                  "called `Result::unwrap()` on an `Err` value").

Record BootstrapContractAddresses := mkBootstrapContractAddresses {
  gravity_contract : EthAddress;
  erc20_addresses : list EthAddress;
  uniswap_liquidity_address : option EthAddress;
}.

(** The address after the last dash of a line. *)
Definition line_address (line : string) : eval EthAddress := unwrap (address_parse (trim (after_last x2d line))).
Fixpoint contracts_of (lines : list string) (gravity : option EthAddress) (erc20s : list EthAddress)
    (uniswap : option EthAddress) : eval (option EthAddress * list EthAddress * option EthAddress) :=
  match lines with
  | [] => Done (gravity, erc20s, uniswap)
  | line :: lines =>
      if contains "Gravity deployed at Address -" line then
        let! a := line_address line in contracts_of lines (Some a) erc20s uniswap
      else if contains "ERC20 deployed at Address -" line then
        let! a := line_address line in contracts_of lines gravity (erc20s ++ [a]) uniswap
      else if contains "Uniswap Liquidity test deployed at Address - " line then
        let! a := line_address line in contracts_of lines gravity erc20s (Some a)
      else contracts_of lines gravity erc20s uniswap
  end.
(** [read_to_string] fails on what is not UTF-8. *)
Definition parse_contract_addresses (d : disk) : eval BootstrapContractAddresses :=
  let! output := expect (read_file d (path_of "/contracts")) "Failed to find contracts! did they not deploy?" in
  let! output := unwrap (from_utf8 (to_bytes output)) in
  let! '(gravity, erc20s, uniswap) := contracts_of (str_lines output) None [] None in
  let! gravity := unwrap_option gravity in
  Done {| gravity_contract := gravity; erc20_addresses := erc20s; uniswap_liquidity_address := uniswap |}.
End Utils.

Example trimmed : trim (" a b	" +:+ of_bytes [xe2; x80; xa9]) = "a b".
Proof. reflexivity. Qed.
Example last_part : trim (after_last x3a "private: 0xab ") = "0xab".
Proof. reflexivity. Qed.
Example two_lines : str_lines (of_bytes [x61; x0d; x0a; x0a; x62]) = ["a"; ""; "b"].
Proof. reflexivity. Qed.
Example root_path : path_of "/nab/solidity/" = ["/"; "nab"; "solidity"].
Proof. reflexivity. Qed.
