(* ===== verification/HappyPath.v ===== *)
(** * The happy path: test_runner/src/happy_path.rs

    The test that moves a token to Cosmos and back, with orchestrators beside it. An [async] block
    under a timeout is a definition of its own. *)

From ITree Require Import ITree.
From S2P Require Import Prelude Bytes Proto External Float Instances Types EthEvents Effects Host Config.
From S2P Require Import CosmosSend Queries Submit Background TestUtils.

Section HappyPath.
Context `{X : Ext} `{T : !Tools} `{TT : !TestTools} `{ST : !Statics} `{BD : Build}.

(** [v[i]] *)
Definition index {A} (l : list A) (i : nat) : io A :=
  pure (match l !! i with Some x => Done x | None => Panic "index out of bounds" end).

Definition no_gravity : string := "Incorrect Gravity Address or otherwise unable to contact Gravity".

(** ** Attestations *)

(** The claim of an attestation, if it has one that decodes. *)
Definition decode_claim {C} (decode : bytes → result C string) (att : Attestation) : option C :=
  match att_claim att with
  | None => None
  | Some (_, value) => match decode value with Err _ => None | Ok decoded => Some decoded end
  end.
(** The closure [f] is run on each claim that decodes as a [T]; [s] is what it mutates. *)
Definition iterate_attestations {C S} (decode : bytes → result C string) (f : C → S → S) (s : S) : io S :=
  let* attestations := expected (get_attestations None)
    "Something happened while getting attestations after delegating to validator" in
  Ret (foldl (λ s att, match decode_claim decode att with None => s | Some decoded => f decoded s end)
         s attestations).

Definition key_of_validator (keys : list ValidatorKeys) (bridge_val : PBridgeValidator) : bool :=
  existsb (λ key, String.eqb (pbv_ethereum_address bridge_val)
                    (address_to_string (eth_key_to_address (eth_key key)))) keys.
Definition check_valset_update_attestation (keys : list ValidatorKeys) : io unit :=
  let* found := iterate_attestations decode_valset_updated_claim
    (λ decoded found, foldl (λ found bridge_val, found && key_of_validator keys bridge_val) found
                        (mvc_members decoded)) true in
  pure (rassert found "Could not find the valset updated attestation we were looking for!").

(** Whether a claim is the deposit looked for. *)
Definition right_claim (erc20_address : EthAddress) (receiver : CosmosAddress) (sender : EthAddress)
    (decoded : MsgSendToCosmosClaim) : bool :=
  let right_contract := String.eqb (msc_token_contract decoded) (address_to_string erc20_address) in
  let right_destination := String.eqb (msc_cosmos_receiver decoded) (cosmos_address_to_string receiver) in
  let right_sender := String.eqb (msc_ethereum_sender decoded) (address_to_string sender) in
  right_contract && right_destination && right_sender.
Definition look_for_claim (erc20_address : EthAddress) (receiver : CosmosAddress) (sender : EthAddress) : io unit :=
  ITree.iter (λ _ : unit,
    let* found := iterate_attestations decode_send_to_cosmos_claim
                    (λ decoded _, right_claim erc20_address receiver sender decoded) false in
    if found : bool then Ret (inr tt)
    else let* _ := call (Sleep 5) in Ret (inl tt)) tt.
Definition check_send_to_cosmos_attestation (erc20_address : EthAddress) (receiver : CosmosAddress)
    (sender : EthAddress) : io unit :=
  let* r := timeout TOTAL_TIMEOUT (look_for_claim erc20_address receiver sender) in
  match r with
  | None => panic "Could not find the send_to_cosmos attestation we were looking for!"
  | Some _ => Ret tt
  end.

(** ** Validator sets *)

Definition nonzero_valset (gravity_address : EthAddress) : io unit :=
  ITree.iter (λ _ : unit,
    let* r := get_valset_nonce gravity_address MINER_ADDRESS in
    match r with
    | Err _ => panic "Failed to get current eth valset"
    | Ok current_eth_valset_nonce =>
        if current_eth_valset_nonce =? 0 then let* _ := call (Sleep 4) in Ret (inl tt)
        else Ret (inr tt)
    end) tt.
Definition wait_for_nonzero_valset (gravity_address : EthAddress) : io unit :=
  let* r := timeout TOTAL_TIMEOUT (nonzero_valset gravity_address) in
  match r with None => panic "Failed to update validator set" | Some _ => Ret tt end.

(** Waits until a nonce is no longer the one it started from, and returns it. *)
Definition changed_nonce (get_nonce : io (result Z Web3Error)) (why : string) (starting_nonce : Z) : io Z :=
  ITree.iter (λ _ : unit,
    let* current_nonce := expected get_nonce why in
    if negb (starting_nonce =? current_nonce) then Ret (inr current_nonce)
    else let* _ := call (Sleep 4) in Ret (inl tt)) tt.

Definition test_valset_update (keys : list ValidatorKeys) (gravity_address : EthAddress) : io unit :=
  let* first := index keys 0 in
  let* _ := expected (get_valset_nonce gravity_address (eth_key_to_address (eth_key first))) no_gravity in
  let* starting_eth_valset_nonce :=
    expected (get_valset_nonce gravity_address MINER_ADDRESS) "Failed to get starting eth valset" in
  let* validator_to_change := call (RandomBelow (length keys)) in
  let* changed := index keys validator_to_change in
  let* delegate_address := pure (get_operator_address (validator_key changed)) in
  let amount := mkCoin STAKING_TOKEN (STARTING_STAKE_PER_VALIDATOR / 4) in
  let* second := index keys 1 in
  let* _ := unwrapped (call (ContactDelegate delegate_address amount get_fee (validator_key second)
                               (Some TOTAL_TIMEOUT))) in
  let* _ := check_valset_update_attestation keys in
  let* r := timeout TOTAL_TIMEOUT (changed_nonce (get_valset_nonce gravity_address MINER_ADDRESS)
                                     "Failed to get current eth valset" starting_eth_valset_nonce) in
  match r with
  | None => panic "Failed to update validator set"
  | Some current_eth_valset_nonce =>
      pure (rassert (negb (starting_eth_valset_nonce =? current_eth_valset_nonce))
              "assertion failed: starting_eth_valset_nonce != current_eth_valset_nonce")
  end.

(** ** Ethereum to Cosmos *)

(** The loop that waits for the deposit. *)
Definition deposit_arrives (dest : CosmosAddress) (amount : Uint256) (start_coin : option Coin) :
    io (result unit unit) :=
  ITree.iter (λ _ : unit,
    let again := let* _ := unwrapped (call (ContactWaitForNextBlock TOTAL_TIMEOUT)) in Ret (inl tt) in
    let* end_coin := check_cosmos_balance "nab" dest in
    match start_coin, end_coin with
    | Some start_coin, Some end_coin =>
        let* sum := pure (u256_add (Proto.amount start_coin) amount) in
        if (sum =? Proto.amount end_coin) && String.eqb (denom start_coin) (denom end_coin)
        then Ret (inr (Ok tt)) else again
    | None, Some end_coin =>
        if amount =? Proto.amount end_coin then Ret (inr (Ok tt)) else Ret (inr (Err tt))
    | _, None => again
    end) tt.

Definition test_erc20_deposit (dest : CosmosAddress) (gravity_address erc20_address : EthAddress)
    (amount : Uint256) : io unit :=
  let* _ := expected (get_valset_nonce gravity_address MINER_ADDRESS) no_gravity in
  let* start_coin := check_cosmos_balance "nab" dest in
  let* tx_id := expected (send_to_cosmos erc20_address gravity_address amount dest MINER_PRIVATE_KEY None [])
                  "Failed to send tokens to Cosmos" in
  let* _ := check_send_to_cosmos_attestation erc20_address dest MINER_ADDRESS in
  let* _ := expected (call (WaitForTransaction tx_id OPERATION_TIMEOUT))
              "Send to cosmos transaction failed to be included into ethereum side" in
  let* r := timeout TOTAL_TIMEOUT (deposit_arrives dest amount start_coin) in
  match r with
  | None | Some (Err _) => panic "Failed to bridge ERC20!"
  | Some (Ok _) => Ret tt
  end.

(** ** Back to Ethereum *)

Definition test_batch (dest_eth_address gravity_address : EthAddress)
    (requester_cosmos_private_key dest_cosmos_private_key : CosmosPrivateKey)
    (erc20_contract : EthAddress) : io unit :=
  let* _ := expected (get_valset_nonce gravity_address MINER_ADDRESS) no_gravity in
  let* dest_cosmos_address := pure (unwrap (cosmos_key_to_address dest_cosmos_private_key ADDRESS_PREFIX)) in
  let* coin := check_cosmos_balance "nab" dest_cosmos_address in
  let* coin := pure (unwrap_option coin) in
  let token_name := denom coin in
  let bridge_denom_fee := mkCoin token_name 1 in
  let* amount := pure (u256_sub (Proto.amount coin) 5) in
  let* _ := unwrapped (send_to_eth dest_cosmos_private_key dest_eth_address (mkCoin token_name amount)
                         bridge_denom_fee bridge_denom_fee ADDRESS_PREFIX) in
  let* _ := unwrapped (send_request_batch requester_cosmos_private_key token_name get_fee ADDRESS_PREFIX None) in
  let* _ := unwrapped (call (ContactWaitForNextBlock TOTAL_TIMEOUT)) in
  let* requester_address := pure (unwrap (cosmos_key_to_address requester_cosmos_private_key ADDRESS_PREFIX)) in
  let* _ := expected (get_oldest_unsigned_transaction_batch requester_address ADDRESS_PREFIX)
              "Failed to get batch to sign" in
  let nonce := get_tx_batch_nonce gravity_address erc20_contract MINER_ADDRESS in
  let* starting_batch_nonce := expected nonce "Failed to get current eth valset" in
  let* r := timeout TOTAL_TIMEOUT (changed_nonce nonce "Failed to get current eth tx batch nonce"
                                     starting_batch_nonce) in
  match r with
  | None => panic "Failed to submit transaction batch set"
  | Some current_eth_batch_nonce =>
      let* txid := expected (call (SendTransaction dest_eth_address [] 1000000000000000000 MINER_ADDRESS
                                     MINER_PRIVATE_KEY [])) "Failed to send Eth to validator {}" in
      let* _ := unwrapped (call (WaitForTransaction txid TOTAL_TIMEOUT)) in
      let* _ := send_one_eth dest_eth_address in
      let* balance := unwrapped (call (GetErc20Balance erc20_contract dest_eth_address)) in
      pure (rassert (balance =? amount) "assertion failed: `(left == right)`")
  end.

Definition duplicate_event (nonce : Z) (erc20_address : EthAddress) (amount : Uint256)
    (receiver : CosmosAddress) (ethereum_sender : EthAddress) : SendToCosmosEvent := {|
  stc_event_nonce := nonce; stc_block_height := 500; stc_erc20 := erc20_address;
  stc_sender := ethereum_sender; stc_destination := receiver; stc_amount := amount |}.

Definition submit_duplicate_erc20_send (nonce : Z) (erc20_address : EthAddress) (amount : Uint256)
    (receiver : CosmosAddress) (keys : list ValidatorKeys) : io unit :=
  let* start_coin := check_cosmos_balance "nab" receiver in
  let* start_coin := pure (match start_coin with Some c => Done c | None => Panic "Did not find coins!" end) in
  let* ethereum_sender := pure (unwrap (address_parse "0x912fd21d7a69678227fe6d08c64222db41477ba0")) in
  let event := duplicate_event nonce erc20_address amount receiver ethereum_sender in
  let* _ := for_each keys (λ k _,
    let* _ := unwrapped (send_ethereum_claims ADDRESS_PREFIX (orch_key k) [event] [] [] [] [] get_fee) in
    Ret tt) tt in
  let* _ := unwrapped (call (ContactWaitForNextBlock TOTAL_TIMEOUT)) in
  let* end_coin := check_cosmos_balance "nab" receiver in
  match end_coin with
  | Some end_coin =>
      if (Proto.amount start_coin =? Proto.amount end_coin) && String.eqb (denom start_coin) (denom end_coin)
      then Ret tt else panic "Duplicated ERC20!"
  | None => panic "Duplicate test failed for unknown reasons!"
  end.

(** ** The test *)

(** What follows the start of the orchestrators. *)
Definition operational_tests (keys : list ValidatorKeys) (gravity_address erc20_address : EthAddress)
    (validator_out : bool) : io unit :=
  let* _ :=
    if negb validator_out then for_each (seq 0 2) (λ _ _, test_valset_update keys gravity_address) tt
    else wait_for_nonzero_valset gravity_address in
  let* user_keys := get_user_key in
  let* _ := for_each (seq 0 3) (λ _ _,
    test_erc20_deposit (user_cosmos_address user_keys) gravity_address erc20_address 100) tt in
  let* event_nonce := unwrapped (get_event_nonce gravity_address MINER_ADDRESS) in
  let* _ := submit_duplicate_erc20_send event_nonce erc20_address 1 (user_cosmos_address user_keys) keys in
  let* first := index keys 0 in
  test_batch (user_eth_address user_keys) gravity_address (validator_key first) (user_cosmos_key user_keys)
    erc20_address.

Definition happy_path_test (keys : list ValidatorKeys) (gravity_address erc20_address : EthAddress)
    (validator_out : bool) : io unit :=
  let* tasks := start_orchestrators keys gravity_address validator_out create_default_test_config in
  let* _ := alongside tasks (operational_tests keys gravity_address erc20_address validator_out) in
  Ret tt.
End HappyPath.
