(* ===== verification/Scenarios.v ===== *)
(** * The other integration tests of test_runner/src

    happy_path_v2.rs, relay_market.rs, tx_cancel.rs, valset_rewards.rs, valset_stress.rs,
    orch_keys.rs, evidence_based_slashing.rs and arbitrary_logic.rs. *)

From ITree Require Import ITree.
From S2P Require Import Prelude Bytes Proto External Float Instances Types Valset Messages Effects Host Config.
From S2P Require Import CosmosSend Queries Submit Background TestUtils HappyPath.

Section Scenarios.
Context `{X : Ext} `{T : !Tools} `{TT : !TestTools} `{ST : !Statics} `{BD : Build}.

(** ** happy_path_v2.rs *)

(** The loop that waits for the chain to adopt the token. *)
Definition get_cosmos_asset_on_eth (token_to_send_to_eth : string) : io string :=
  ITree.iter (λ _ : unit,
    let* res := call (QDenomToErc20 token_to_send_to_eth) in
    match res with
    | Ok res => Ret (inr (qdr_erc20 res))
    | Err _ => let* _ := call (Sleep 1) in Ret (inl tt)
    end) tt.

(** The deployment, before the orchestrators start. *)
Definition deploy_and_count (gravity_address : EthAddress) (first : ValidatorKeys)
    (token_to_send_to_eth token_to_send_to_eth_display_name : string) : io unit :=
  let own := eth_key_to_address (eth_key first) in
  let* _ := expected (get_valset_nonce gravity_address own) no_gravity in
  let* starting_event_nonce := unwrapped (get_event_nonce gravity_address own) in
  let* _ := unwrapped (deploy_erc20 token_to_send_to_eth token_to_send_to_eth_display_name
              token_to_send_to_eth_display_name 6 gravity_address (Some TOTAL_TIMEOUT) (eth_key first) []) in
  let* ending_event_nonce := unwrapped (get_event_nonce gravity_address own) in
  pure (rassert (negb (starting_event_nonce =? ending_event_nonce))
          "assertion failed: starting_event_nonce != ending_event_nonce").
Definition adopted (token_to_send_to_eth : string) : io EthAddress :=
  let* r := timeout TOTAL_TIMEOUT (get_cosmos_asset_on_eth token_to_send_to_eth) in
  match r with
  | None => panic "Cosmos did not adopt the ERC20 contract for {} it must be invalid in some way"
  | Some erc20_contract => pure (unwrap (address_parse erc20_contract))
  end.

(** The token's contract, and the orchestrators that are left running. *)
Definition deploy_cosmos_representing_erc20_and_check_adoption (gravity_address : EthAddress)
    (keys : list ValidatorKeys) (validator_out : bool)
    (token_to_send_to_eth token_to_send_to_eth_display_name : string) : io (EthAddress * list (io unit)) :=
  let* first := index keys 0 in
  let* _ := deploy_and_count gravity_address first token_to_send_to_eth token_to_send_to_eth_display_name in
  let* tasks := start_orchestrators keys gravity_address validator_out create_default_test_config in
  alongside tasks (adopted token_to_send_to_eth).

(** The loop that waits for the tokens on Ethereum. *)
Definition verify_asset_is_bridged_to_eth (erc20_contract address : EthAddress) (amount_to_bridge : Uint256) :
    io unit :=
  ITree.iter (λ _ : unit,
    let again := let* _ := call (Sleep 1) in Ret (inl tt) in
    let* r := call (GetErc20Balance erc20_contract address) in
    match r with
    | Err _ => again
    | Ok balance =>
        if balance =? amount_to_bridge then Ret (inr tt)
        else if negb (balance =? 0) then panic "Expected {} {} but got {} instead"
        else again
    end) tt.

Definition bridge_cosmos_asset (keys : list ValidatorKeys) (token_to_send_to_eth : string)
    (erc20_contract : EthAddress) : io unit :=
  let amount_to_bridge := 1000000 in
  let* more := pure (u256_add amount_to_bridge 100) in
  let send_to_user_coin := mkCoin token_to_send_to_eth more in
  let send_to_eth_coin := mkCoin token_to_send_to_eth amount_to_bridge in
  let* user := get_user_key in
  let* first := index keys 0 in
  let* _ := unwrapped (call (ContactSendTokens send_to_user_coin (Some get_fee) (user_cosmos_address user)
                               (validator_key first) (Some TOTAL_TIMEOUT))) in
  let* balances := unwrapped (call (ContactGetBalances (user_cosmos_address user))) in
  let found := existsb (λ coin, String.eqb (denom coin) token_to_send_to_eth) balances in
  if negb found then panic "Failed to send {} to the user address"
  else
  let* _ := send_one_eth (user_eth_address user) in
  let* _ := unwrapped (send_to_eth (user_cosmos_key user) (user_eth_address user) send_to_eth_coin
                         get_fee get_fee ADDRESS_PREFIX) in
  let* _ := unwrapped (send_request_batch (validator_key first) token_to_send_to_eth get_fee ADDRESS_PREFIX
                         (Some CosmosSend.TIMEOUT)) in
  let* r := timeout TOTAL_TIMEOUT
              (verify_asset_is_bridged_to_eth erc20_contract (user_eth_address user) amount_to_bridge) in
  match r with
  | None => panic "failed to verify asset is bridged to ethereum: timed out"
  | Some _ => Ret tt
  end.

Definition happy_path_test_v2 (keys : list ValidatorKeys) (gravity_address : EthAddress)
    (validator_out : bool) : io unit :=
  let token_to_send_to_eth := "footoken" in
  let* '(erc20_contract, tasks) := deploy_cosmos_representing_erc20_and_check_adoption gravity_address keys
                                     validator_out token_to_send_to_eth "mfootoken" in
  let* _ := alongside tasks (bridge_cosmos_asset keys token_to_send_to_eth erc20_contract) in
  Ret tt.

(** ** relay_market.rs *)

Record BatchTest := mkBatchTest {
  bt_cdai_held : Coin;
  bt_send_amount : Uint256;
  bt_requester_key : CosmosPrivateKey;
  bt_requester_address : CosmosAddress;
  bt_dest_eth_address : EthAddress;
}.

Definition setup_batch_test (keys : list ValidatorKeys) (gravity_address erc20_contract : EthAddress)
    (bridge_fee_amount : Uint256) : io BatchTest :=
  let* wrapped := pure (u256_mul one_eth 10000) in
  let* weth_acquired := call (WrapEth wrapped MINER_PRIVATE_KEY) in
  let* _ := pure (rassert (is_ok weth_acquired) "Unable to wrap eth via web30.wrap_eth() {:?}") in
  let* swapped := pure (u256_mul one_eth 1000) in
  let* token_acquired := call (SwapUniswap MINER_PRIVATE_KEY WETH_CONTRACT_ADDRESS erc20_contract swapped) in
  let* _ := pure (rassert (is_ok token_acquired) "Unable to give the miner 1000 WETH worth of {}") in
  let* secret := call (RandomBytes 32) in
  let dest_cosmos_private_key := cosmos_key_from_secret secret in
  let* dest_cosmos_address := pure (unwrap (cosmos_key_to_address dest_cosmos_private_key ADDRESS_PREFIX)) in
  let* dest_eth_private_key := pure (unwrap (eth_key_from_slice secret)) in
  let dest_eth_address := eth_key_to_address dest_eth_private_key in
  let* hundred := pure (u256_mul one_eth 100) in
  let* _ := for_each (seq 0 3) (λ _ _,
    test_erc20_deposit dest_cosmos_address gravity_address erc20_contract hundred) tt in
  let* first := index keys 0 in
  let requester_cosmos_private_key := validator_key first in
  let* requester_address := pure (unwrap (cosmos_key_to_address requester_cosmos_private_key ADDRESS_PREFIX)) in
  let* _ := test_erc20_deposit requester_address gravity_address erc20_contract hundred in
  let* cdai_held := check_cosmos_balance "nab" dest_cosmos_address in
  let* cdai_held := pure (unwrap_option cdai_held) in
  let cdai_name := denom cdai_held in
  let bridge_denom_fee := mkCoin cdai_name bridge_fee_amount in
  let* send_amount := pure (u256_mul one_eth 200) in
  let* _ := unwrapped (send_to_eth dest_cosmos_private_key dest_eth_address (mkCoin cdai_name send_amount)
                         bridge_denom_fee bridge_denom_fee ADDRESS_PREFIX) in
  Ret {| bt_cdai_held := cdai_held; bt_send_amount := send_amount;
         bt_requester_key := requester_cosmos_private_key; bt_requester_address := requester_address;
         bt_dest_eth_address := dest_eth_address |}.

Definition wait_for_batch (expect_batch : bool) (requester_address : CosmosAddress)
    (erc20_contract gravity_address : EthAddress) : io Z :=
  let* _ := unwrapped (call (ContactWaitForNextBlock OPERATION_TIMEOUT)) in
  let* _ := expected (get_oldest_unsigned_transaction_batch requester_address ADDRESS_PREFIX)
              "Failed to get batch to sign" in
  let nonce := get_tx_batch_nonce gravity_address erc20_contract MINER_ADDRESS in
  let* starting_batch_nonce := expected nonce "Failed to get current eth valset" in
  let* r := timeout OPERATION_TIMEOUT (changed_nonce nonce "Failed to get current eth tx batch nonce"
                                         starting_batch_nonce) in
  match r with
  | None => if expect_batch then panic "Failed to submit transaction batch set" else Ret starting_batch_nonce
  | Some current_eth_batch_nonce =>
      if negb expect_batch && negb (starting_batch_nonce =? current_eth_batch_nonce)
      then panic "Expected to not have a batch update, but observed nonce {} change to {}"
      else Ret current_eth_batch_nonce
  end.

(** A batch is requested for a fee, and waited for. *)
Definition request_and_wait (expect_batch : bool) (batch : BatchTest) (fee : Uint256)
    (erc20_contract gravity_address : EthAddress) : io Z :=
  let request_batch_fee := mkCoin (denom (bt_cdai_held batch)) fee in
  let* _ := unwrapped (send_request_batch (bt_requester_key batch) (denom request_batch_fee) request_batch_fee
                         ADDRESS_PREFIX (Some CosmosSend.TIMEOUT)) in
  wait_for_batch expect_batch (bt_requester_address batch) erc20_contract gravity_address.

Definition test_good_batch (keys : list ValidatorKeys) (gravity_address erc20_contract : EthAddress) : io unit :=
  let* bridge_fee_amount := pure (u256_mul one_eth 10) in
  let* batch := setup_batch_test keys gravity_address erc20_contract bridge_fee_amount in
  let* fee := pure (u256_mul one_eth 20) in
  let* _ := request_and_wait true batch fee erc20_contract gravity_address in
  let* txid := expected (call (SendTransaction (bt_dest_eth_address batch) [] 1000000000000000000 MINER_ADDRESS
                                 MINER_PRIVATE_KEY [])) "Failed to send Eth to validator {}" in
  let* _ := unwrapped (call (WaitForTransaction txid TOTAL_TIMEOUT)) in
  let* _ := send_one_eth (bt_dest_eth_address batch) in
  let* dest_eth_bal := unwrapped (call (GetErc20Balance erc20_contract (bt_dest_eth_address batch))) in
  pure (rassert (dest_eth_bal =? bt_send_amount batch) "destination eth balance {} != {}").

Definition test_bad_batch (keys : list ValidatorKeys) (gravity_address erc20_contract : EthAddress) : io unit :=
  let* batch := setup_batch_test keys gravity_address erc20_contract 2500 in
  let* _ := request_and_wait false batch 2500 erc20_contract gravity_address in
  let* _ := send_one_eth (bt_dest_eth_address batch) in
  let* dest_eth_bal := unwrapped (call (GetErc20Balance erc20_contract (bt_dest_eth_address batch))) in
  pure (rassert (negb (dest_eth_bal =? bt_send_amount batch)) "destination eth balance {} == {}").

(** [test_batches], which is all of [relay_market_test]. *)
Definition test_batches (keys : list ValidatorKeys) (gravity_address : EthAddress) : io unit :=
  let* tasks := start_orchestrators keys gravity_address false create_market_test_config in
  let* _ := alongside tasks (
    let* _ := test_good_batch keys gravity_address DAI_CONTRACT_ADDRESS in
    test_bad_batch keys gravity_address DAI_CONTRACT_ADDRESS) in
  Ret tt.
Definition relay_market_test (keys : list ValidatorKeys) (gravity_address : EthAddress) : io unit :=
  test_batches keys gravity_address.

(** ** tx_cancel.rs *)

Definition cancel_test (gravity_address erc20_address : EthAddress) : io unit :=
  let* user_keys := get_user_key in
  let own := user_cosmos_address user_keys in
  let* _ := test_erc20_deposit own gravity_address erc20_address one_eth in
  let token_name := "nab" +:+ address_to_string erc20_address in
  let bridge_denom_fee := mkCoin token_name 500 in
  let* amount := pure (u256_sub one_eth 1500) in
  let* _ := unwrapped (send_to_eth (user_cosmos_key user_keys) (user_eth_address user_keys)
                         (mkCoin token_name amount) bridge_denom_fee bridge_denom_fee ADDRESS_PREFIX) in
  let* res := unwrapped (get_pending_send_to_eth own) in
  let* pending := index (qps_unbatched_transfers res) 0 in
  let send_to_eth_id := ptx_id pending in
  let* _ := unwrapped (cancel_send_to_eth (user_cosmos_key user_keys) bridge_denom_fee ADDRESS_PREFIX send_to_eth_id) in
  let* res := unwrapped (get_pending_send_to_eth own) in
  pure (rassert (match qps_unbatched_transfers res with [] => true | _ => false end)
          "assertion failed: res.unbatched_transfers.is_empty()").
Definition send_to_eth_and_cancel (keys : list ValidatorKeys) (gravity_address erc20_address : EthAddress) : io unit :=
  let* tasks := start_orchestrators keys gravity_address false create_default_test_config in
  let* _ := alongside tasks (cancel_test gravity_address erc20_address) in
  Ret tt.

(** ** valset_rewards.rs *)

Definition vote_on_proposals (keys : list ValidatorKeys) : io unit :=
  let* proposals := unwrapped (call ContactProposalsInVotingPeriod) in
  for_each proposals (λ proposal_id _,
    for_each keys (λ key _,
      let* res := unwrapped (call (ContactVoteYes proposal_id get_fee (validator_key key) (Some TOTAL_TIMEOUT))) in
      let* _ := unwrapped (call (ContactWaitForTx res TOTAL_TIMEOUT)) in
      Ret tt) tt) tt.

(** The loop over the relayers' balances. *)
Definition find_rewarded (keys : list ValidatorKeys) (erc20_contract : EthAddress) (reward : Uint256) : io bool :=
  for_each keys (λ key found,
    let* balance_of_footoken := unwrapped (call (GetErc20Balance erc20_contract (eth_key_to_address (eth_key key)))) in
    Ret (if balance_of_footoken =? reward then true else found)) false.

Definition reward_test (keys : list ValidatorKeys) (gravity_address erc20_contract : EthAddress)
    (token_to_send_to_eth : string) : io unit :=
  let valset_reward := mkCoin token_to_send_to_eth 1000000 in
  let deposit := mkCoin STAKING_TOKEN 1000000000 in
  let* first := index keys 0 in
  let* _ := create_parameter_change_proposal (validator_key first) deposit gravity_address valset_reward in
  let* _ := vote_on_proposals keys in
  let* _ := call (Sleep 65) in
  let* params := unwrapped get_gravity_params in
  let* _ := pure (rassert (par_bridge_chain_id params =? 1) "assertion failed: `(left == right)`") in
  let* _ := pure (rassert (String.eqb (par_bridge_ethereum_address params) (address_to_string gravity_address))
                    "assertion failed: `(left == right)`") in
  let* _ := test_valset_update keys gravity_address in
  let* found := find_rewarded keys erc20_contract (Proto.amount valset_reward) in
  if negb found then panic "No relayer was rewarded in footoken for relaying validator set!" else Ret tt.

Definition valset_rewards_test (keys : list ValidatorKeys) (gravity_address : EthAddress)
    (validator_out : bool) : io unit :=
  let token_to_send_to_eth := "footoken" in
  let* '(erc20_contract, tasks) := deploy_cosmos_representing_erc20_and_check_adoption gravity_address keys
                                     validator_out token_to_send_to_eth "mfootoken" in
  let* _ := alongside tasks (reward_test keys gravity_address erc20_contract token_to_send_to_eth) in
  Ret tt.

(** ** valset_stress.rs and arbitrary_logic.rs *)

Definition validator_set_stress_test (keys : list ValidatorKeys) (gravity_address : EthAddress) : io unit :=
  let* tasks := start_orchestrators keys gravity_address false create_default_test_config in
  let* _ := alongside tasks (for_each (seq 0 10) (λ _ _, test_valset_update keys gravity_address) tt) in
  Ret tt.

Definition arbitrary_logic_test (keys : list ValidatorKeys) (gravity_address : EthAddress) : io unit :=
  let* tasks := start_orchestrators keys gravity_address false create_default_test_config in
  let* _ := alongside tasks (call (Sleep TOTAL_TIMEOUT)) in
  Ret tt.

(** ** orch_keys.rs *)

Definition check_delegates_of (k : ValidatorKeys) : io unit :=
  let eth_address := eth_key_to_address (eth_key k) in
  let* orch_address := pure (unwrap (cosmos_key_to_address (orch_key k) ADDRESS_PREFIX)) in
  let* eth_response := unwrapped (call (QDelegateKeyByEth (address_to_string eth_address))) in
  let* parsed_response_orch_address := pure (unwrap (cosmos_address_parse (dke_orchestrator_address eth_response))) in
  let* _ := pure (rassert (bool_decide (parsed_response_orch_address = orch_address)) "assertion failed: `(left == right)`") in
  let* orchestrator_response := unwrapped (call (QDelegateKeyByOrchestrator (cosmos_address_to_string orch_address))) in
  let* parsed_response_eth_address := pure (unwrap (address_parse (dko_eth_address orchestrator_response))) in
  pure (rassert (bool_decide (parsed_response_eth_address = eth_address)) "assertion failed: `(left == right)`").
Definition orch_keys (keys : list ValidatorKeys) : io unit := for_each keys (λ k _, check_delegates_of k) tt.

(** ** evidence_based_slashing.rs *)

Definition check_validator (key : CosmosPrivateKey) (status : string) : io (bool * bool) :=
  let* validators := unwrapped (call (ContactGetValidators status)) in
  let* addr := pure (get_operator_address key) in
  match filter (λ val, val_operator_address val = cosmos_address_to_string addr) validators with
  | val :: _ => Ret (true, val_jailed val)
  | [] => Ret (false, false)
  end.

(** What it prints is only logged. *)
Definition print_validator_status : io unit :=
  let* validators := unwrapped (call ContactGetActiveValidators) in Ret tt.

Definition delegate_to_validator (keys : list ValidatorKeys) (to : CosmosPrivateKey) : io unit :=
  let* delegate_address := pure (get_operator_address to) in
  let amount := mkCoin STAKING_TOKEN (STARTING_STAKE_PER_VALIDATOR / 4) in
  let* second := index keys 1 in
  let* _ := unwrapped (call (ContactDelegate delegate_address amount get_fee (validator_key second)
                               (Some TOTAL_TIMEOUT))) in
  Ret tt.

Definition false_valset (eth_addr : EthAddress) : Valset := {|
  valset_nonce := 500; valset_members := [{| member_power := 1337; member_eth_address := Some eth_addr |}];
  valset_reward_amount := 0; valset_reward_token := None |}.

Definition evidence_based_slashing (keys : list ValidatorKeys) (gravity_address : EthAddress) : io unit :=
  let* second := index keys 1 in
  let* _ := delegate_to_validator keys (validator_key second) in
  let* third := index keys 2 in
  let* _ := delegate_to_validator keys (validator_key third) in
  let* first := index keys 0 in
  let cosmos_private_key := validator_key first in
  let eth_private_key := eth_key first in
  let eth_addr := eth_key_to_address eth_private_key in
  let submitter_private_key := orch_key second in
  let false_valset := false_valset eth_addr in
  let* gravity_id := get_gravity_id_with_retry gravity_address eth_addr None in
  let* gravity_id := pure (unwrap gravity_id) in
  let message := encode_valset_confirm gravity_id false_valset in
  let eth_signature := sign_ethereum_msg eth_private_key message in
  let* _ := print_validator_status in
  let* '(is_in_set, jailed) := check_validator cosmos_private_key "BOND_STATUS_BONDED" in
  let* _ := pure (rassert is_in_set "assertion failed: is_in_set") in
  let* _ := pure (rassert (negb jailed) "assertion failed: !jailed") in
  let* _ := unwrapped (submit_bad_signature_evidence submitter_private_key get_fee ADDRESS_PREFIX
                         (EvidenceValset false_valset) eth_signature) in
  let* '(is_in_set, jailed) := check_validator cosmos_private_key "BOND_STATUS_UNBONDING" in
  let* _ := pure (rassert is_in_set "assertion failed: is_in_set") in
  pure (rassert jailed "assertion failed: jailed").
End Scenarios.
