(* ===== verification/TestRunner.v ===== *)
(** * The stress test and the choice of a test: test_runner/src/transaction_stress_test.rs and main.rs *)

From ITree Require Import ITree.
From S2P Require Import Prelude Bytes Proto External Float Instances Types Effects Host Config.
From S2P Require Import CosmosSend Queries Submit Background TestUtils HappyPath Scenarios.

Section Stress.
Context `{X : Ext} `{T : !Tools} `{TT : !TestTools} `{ST : !Statics} `{BD : Build}.

(** ** transaction_stress_test.rs *)

Definition TIMEOUT : Duration := 120.
Definition NUM_USERS : nat := 20.

(** Every user gets ether at both addresses, and every token. *)
Definition fund_users (user_keys : list BridgeUserKey) (erc20_addresses : list EthAddress) : io unit :=
  let sending_eth_addresses := user_eth_address <$> user_keys in
  let dest_eth_addresses := user_eth_dest_address <$> user_keys in
  let* _ := send_eth_bulk one_eth (sending_eth_addresses ++ dest_eth_addresses) in
  for_each erc20_addresses (λ token _, send_erc20_bulk one_hundred_eth token sending_eth_addresses) tt.

Definition deposit_all (user_keys : list BridgeUserKey) (gravity_address : EthAddress)
    (erc20_addresses : list EthAddress) : io unit :=
  for_each erc20_addresses (λ token _,
    let* txids := join_all ((λ keys,
      send_to_cosmos token gravity_address one_hundred_eth (user_cosmos_address keys) (user_eth_key keys)
        (Some TIMEOUT) [OptGasPriceMultiplier f32_5]) <$> user_keys) in
    let* txids := pure (eval_map unwrap txids) in
    let* results := join_all ((λ txid, call (WaitForTransactionBlock txid TIMEOUT)) <$> txids) in
    let* _ := pure (eval_map (λ result, let! block := unwrap result in unwrap_option block) results) in
    Ret tt) tt.

(** Whether a user has the whole deposit of a token. *)
Definition has_deposit (balances : list Coin) (token : EthAddress) : bool :=
  existsb (λ balance, contains (address_to_string token) (denom balance) &&
                      (amount balance =? one_hundred_eth)) balances.
Definition check_all_deposits_bridged_to_cosmos (user_keys : list BridgeUserKey)
    (erc20_addresses : list EthAddress) : io unit :=
  ITree.iter (λ _ : unit,
    let* good := for_each user_keys (λ keys good,
      let* balances := unwrapped (call (ContactGetBalances (user_cosmos_address keys))) in
      Ret (if forallb (has_deposit balances) erc20_addresses then good else false)) true in
    if good : bool then Ret (inr tt) else let* _ := call (Sleep 5) in Ret (inl tt)) tt.

(** The coin of a token, the last one if there are several, and every denomination seen. *)
Definition coin_to_send (balances : list Coin) (token : EthAddress) (denoms : gset string) :
    option Coin * gset string :=
  foldl (λ '(send_coin, denoms) balance,
    if contains (address_to_string token) (denom balance)
    then (Some balance, {[denom balance]} ∪ denoms) else (send_coin, denoms)) (None, denoms) balances.

Definition withdraw_all (user_keys : list BridgeUserKey) (erc20_addresses : list EthAddress)
    (send_amount : Uint256) : io (gset string) :=
  for_each erc20_addresses (λ token denoms,
    let* '(futs, denoms) := for_each user_keys (λ keys '(futs, denoms),
      let* balances := unwrapped (call (ContactGetBalances (user_cosmos_address keys))) in
      let '(send_coin, denoms) := coin_to_send balances token denoms in
      let* send_coin := pure (unwrap_option send_coin) in
      let send_coin := mkCoin (denom send_coin) send_amount in
      let send_fee := mkCoin (denom send_coin) 1 in
      let res := send_to_eth (user_cosmos_key keys) (user_eth_dest_address keys) send_coin send_fee send_fee
                   ADDRESS_PREFIX in
      Ret (futs ++ [res], denoms)) ([], denoms) in
    let* results := join_all futs in
    let* _ := pure (eval_map unwrap results) in
    Ret denoms) ∅.

(** [assert!(pending.transfers_in_batches.is_empty())], and whether the unbatched ones are. *)
Definition no_transfers (l : list POutgoingTransferTx) : bool := match l with [] => true | _ => false end.
Definition in_no_batch (pending : QueryPendingSendToEthResponse) : io unit :=
  pure (rassert (no_transfers (qps_transfers_in_batches pending)) "assertion failed: pending.transfers_in_batches.is_empty()").

(** The user who cancels, if the victim's transfers are refused or not. *)
Definition cancel_one (user_keys : list BridgeUserKey) (denoms : gset string) : io BridgeUserKey :=
  let* i := call (RandomBelow (length user_keys)) in
  let* user_who_cancels := pure (unwrap_option (user_keys !! i)) in
  let own := user_cosmos_address user_who_cancels in
  let* pending := unwrapped (get_pending_send_to_eth own) in
  let* _ := in_no_batch pending in
  let* _ := pure (rassert (negb (no_transfers (qps_unbatched_transfers pending)))
                    "assertion failed: !pending.unbatched_transfers.is_empty()") in
  let* first_denom := pure (unwrap_option (head (hash_order (elements denoms)))) in
  let bridge_fee := mkCoin first_denom 1 in
  let* _ := for_each (qps_unbatched_transfers pending) (λ tx _,
    let* _ := unwrapped (cancel_send_to_eth (user_cosmos_key user_who_cancels) bridge_fee ADDRESS_PREFIX (ptx_id tx)) in
    Ret tt) tt in
  let* _ := unwrapped (call (ContactWaitForNextBlock TIMEOUT)) in
  let* pending := unwrapped (get_pending_send_to_eth own) in
  let* _ := in_no_batch pending in
  let* _ := pure (rassert (no_transfers (qps_unbatched_transfers pending))
                    "assertion failed: pending.unbatched_transfers.is_empty()") in
  let victim := head (filter (λ key, Is_true (negb (user_key_eqb key user_who_cancels))) user_keys) in
  let* victim := pure (unwrap_option victim) in
  let* pending := unwrapped (get_pending_send_to_eth (user_cosmos_address victim)) in
  let* _ := for_each (qps_unbatched_transfers pending) (λ tx _,
    let* _ := cancel_send_to_eth (user_cosmos_key user_who_cancels) bridge_fee ADDRESS_PREFIX (ptx_id tx) in
    Ret tt) tt in
  Ret user_who_cancels.

Definition request_batches (requester : CosmosPrivateKey) (denoms : gset string) : io unit :=
  for_each (hash_order (elements denoms)) (λ denom _,
    let* _ := unwrapped (send_request_batch requester denom get_fee ADDRESS_PREFIX (Some TIMEOUT)) in
    Ret tt) tt.

(** A balance, asked for until it is answered. *)
Definition balance_of (token address : EthAddress) : io Uint256 :=
  let* r := timeout TIMEOUT (ITree.iter (λ _ : unit,
    let* r := call (GetErc20Balance token address) in
    match r with Ok res => Ret (inr res) | Err _ => let* _ := call (SleepMillis 100) in Ret (inl tt) end) tt) in
  match r with Some bal => Ret bal | None => panic "Can't get_erc20_balance within {:?}" end.

(** One user's token: whether all is good so far, and whether the one who cancelled was found. *)
Definition check_withdraw (cancelled : EthAddress) (send_amount : Uint256) (e_dest_addr token : EthAddress)
    (state : bool * bool) : io (bool * bool) :=
  let '(good, found_canceled) := state in
  let* bal := balance_of token e_dest_addr in
  if negb (bal =? send_amount) then
    if bool_decide (e_dest_addr = cancelled) && (bal =? 0) then Ret (good, true)
    else Ret (false, found_canceled)
  else Ret (good, found_canceled).
Definition check_withdraws_from_ethereum (user_keys : list BridgeUserKey) (user_who_cancels : BridgeUserKey)
    (erc20_addresses : list EthAddress) (send_amount : Uint256) : io unit :=
  ITree.iter (λ _ : unit,
    let* '(good, found_canceled) := for_each user_keys (λ keys state,
      for_each erc20_addresses (check_withdraw (user_eth_address user_who_cancels) send_amount
                                  (user_eth_dest_address keys)) state) (true, false) in
    if good && found_canceled : bool then Ret (inr tt) else let* _ := call (Sleep 5) in Ret (inl tt)) tt.

(** What follows the start of the orchestrators. *)
Definition stress_users (keys : list ValidatorKeys) (gravity_address : EthAddress)
    (erc20_addresses : list EthAddress) : io unit :=
  let* user_keys := for_each (seq 0 NUM_USERS) (λ _ user_keys,
    let* k := get_user_key in Ret (user_keys ++ [k])) [] in
  let* _ := fund_users user_keys erc20_addresses in
  let* _ := deposit_all user_keys gravity_address erc20_addresses in
  let* r := timeout TOTAL_TIMEOUT (check_all_deposits_bridged_to_cosmos user_keys erc20_addresses) in
  match r with
  | None => panic "Failed to perform all {} deposits to Cosmos!"
  | Some _ =>
  let* send_amount := pure (u256_sub one_hundred_eth 500) in
  let* denoms := withdraw_all user_keys erc20_addresses send_amount in
  let* user_who_cancels := cancel_one user_keys denoms in
  let* first := index keys 0 in
  let* _ := request_batches (validator_key first) denoms in
  let* r := timeout TOTAL_TIMEOUT
              (check_withdraws_from_ethereum user_keys user_who_cancels erc20_addresses send_amount) in
  match r with
  | None => panic "Failed to perform all {} withdraws to Ethereum!"
  | Some _ =>
      for_each erc20_addresses (λ token _,
        let* nonce := unwrapped (get_tx_batch_nonce gravity_address token (eth_key_to_address (eth_key first))) in
        pure (rassert (0 <? nonce) "assertion failed: get_tx_batch_nonce(..) > 0")) tt
  end
  end.

Definition transaction_stress_test (keys : list ValidatorKeys) (gravity_address : EthAddress)
    (erc20_addresses : list EthAddress) : io unit :=
  let* tasks := start_orchestrators keys gravity_address false create_default_test_config in
  let* _ := alongside tasks (stress_users keys gravity_address erc20_addresses) in
  Ret tt.

(** ** main.rs *)

(** The test named by TEST_TYPE; the happy path without one, or with another name. *)
Definition run_test (test_type : option string) (keys : list ValidatorKeys) (gravity_address : EthAddress)
    (erc20_addresses : list EthAddress) : io unit :=
  let happy validator_out :=
    let* erc20 := index erc20_addresses 0 in happy_path_test keys gravity_address erc20 validator_out in
  match test_type with
  | None => happy false
  | Some test_type =>
      let named := String.eqb test_type in
      if named "VALIDATOR_OUT" then happy true
      else if named "BATCH_STRESS" then
        if contact_new_ok COSMOS_NODE_GRPC TOTAL_TIMEOUT ADDRESS_PREFIX
        then transaction_stress_test keys gravity_address erc20_addresses
        else panic "called `Result::unwrap()` on an `Err` value"
      else if named "VALSET_STRESS" then validator_set_stress_test keys gravity_address
      else if named "VALSET_REWARDS" then valset_rewards_test keys gravity_address false
      else if named "V2_HAPPY_PATH" || named "HAPPY_PATH_V2" then happy_path_test_v2 keys gravity_address false
      else if named "ARBITRARY_LOGIC" then arbitrary_logic_test keys gravity_address
      else if named "RELAY_MARKET" then relay_market_test keys gravity_address
      else if named "ORCHESTRATOR_KEYS" then orch_keys keys
      else if named "EVIDENCE" then evidence_based_slashing keys gravity_address
      else if named "TXCANCEL" then
        let* erc20 := index erc20_addresses 0 in send_to_eth_and_cancel keys gravity_address erc20
      else happy false
  end.

Definition start_testing (var : string → option string) : io unit :=
  if negb (contact_new_ok COSMOS_NODE_GRPC OPERATION_TIMEOUT ADDRESS_PREFIX)
  then panic "called `Result::unwrap()` on an `Err` value"
  else
  let* _ := wait_for_cosmos_online TOTAL_TIMEOUT in
  let* _ := unwrapped (call (GrpcConnect COSMOS_NODE_GRPC)) in
  let* keys := get_keys in
  if should_deploy_contracts var then deploy_contracts
  else
  let* d := call DiskRead in
  let* contracts := pure (parse_contract_addresses d) in
  let* _ := send_eth_to_orchestrators keys in
  let* first := index keys 0 in
  let* address := pure (unwrap (cosmos_key_to_address (validator_key first) ADDRESS_PREFIX)) in
  let* balance := check_cosmos_balance get_test_token_name address in
  let* _ := pure (rassert (bool_decide (is_Some balance)) "assertion failed: check_cosmos_balance(..).is_some()") in
  run_test (var "TEST_TYPE") keys (gravity_contract contracts) (erc20_addresses contracts).
End Stress.

Definition runner_main `{X : Ext} `{T : !Tools} `{TT : !TestTools} `{BD : Build} (var : string → option string) :
    io unit :=
  let* ST := pure (statics var) in start_testing (ST := ST) var.
