(* ===== verification/TestTheory.v ===== *)
(** * What a passed test has seen

    For the integration tests of HappyPath.v, Scenarios.v and TestRunner.v: if a test returns, then its
    calls and answers, whatever the orchestrators did in between, show in this order what the test is
    there to show. *)

From ITree Require Import ITree.
From S2P Require Import Prelude Bytes Proto External Float Instances Types Valset EthEvents Messages Effects Host Config.
From S2P Require Import CosmosSend Queries Submit SubmitTheory Join OracleTheory RelayerTheory.
From S2P Require Import Background TestUtils HappyPath Scenarios TestRunner.

Section Steps.
Context `{X : Ext} `{T : !Tools} `{TT : !TestTools} `{ST : !Statics} `{BD : Build}.
Implicit Types (k l : log) (Q : log → Prop).

Lemma free_lenient : lenient free.
Proof. by intros ?. Qed.

(** ** Steps *)

Lemma passes_unwrapped {B E} (m : io (result B E)) (Q : B → log → Prop) :
  passes m (λ r k, ∀ x, r = Ok x → Q x k) → passes (unwrapped m) Q.
Proof.
  intros Hm. eapply passes_bind; [exact Hm|]. intros r k H. apply passes_pure. intros x Hx%unwrap_Done.
  rewrite app_nil_r. by apply H.
Qed.
Lemma passes_expected {B E} (m : io (result B E)) why (Q : B → log → Prop) :
  passes m (λ r k, ∀ x, r = Ok x → Q x k) → passes (expected m why) Q.
Proof.
  intros Hm. eapply passes_bind; [exact Hm|]. intros r k H. apply passes_pure. intros x Hx.
  rewrite app_nil_r. apply H. destruct r; [by injection Hx as ->|done].
Qed.
(** A call that must succeed. *)
Lemma passes_must {B E V} (e : callE (result B E)) (f : B → io V) (Q : V → log → Prop) :
  (∀ x, passes (f x) (λ v k, Q v (mkEntry _ e (Ok x) :: k))) →
  passes (ITree.bind (unwrapped (call e)) f) Q.
Proof.
  intros H. eapply passes_bind with (Q1 := λ y k, k = [mkEntry _ e (Ok y)]).
  { apply passes_unwrapped, passes_call. by intros x y ->. }
  intros x k ->. apply H.
Qed.
Lemma passes_must_expect {B E V} (e : callE (result B E)) why (f : B → io V) (Q : V → log → Prop) :
  (∀ x, passes (f x) (λ v k, Q v (mkEntry _ e (Ok x) :: k))) →
  passes (ITree.bind (expected (call e) why) f) Q.
Proof.
  intros H. eapply passes_bind with (Q1 := λ y k, k = [mkEntry _ e (Ok y)]).
  { apply passes_expected, passes_call. by intros x y ->. }
  intros x k ->. apply H.
Qed.
Lemma passes_index {B V} (l : list B) i (f : B → io V) (Q : V → log → Prop) :
  (∀ x, l !! i = Some x → passes (f x) Q) → passes (ITree.bind (index l i) f) Q.
Proof.
  intros H. apply passes_pure_bind. intros x Hx. apply H. destruct (l !! i); [by injection Hx as ->|done].
Qed.
Lemma passes_rassert b why (Q : unit → log → Prop) : (b = true → Q tt []) → passes (pure (rassert b why)) Q.
Proof. intros H. apply passes_pure. intros [] Hb. apply H. by destruct b. Qed.
Lemma passes_rassert_bind {V} b why (f : unit → io V) (Q : V → log → Prop) :
  (b = true → passes (f tt) Q) → passes (ITree.bind (pure (rassert b why)) f) Q.
Proof. intros H. apply passes_pure_bind. intros [] Hb. apply H. by destruct b. Qed.
(** What must end before its timeout. *)
Lemma passes_in_time {B V} d (t : io B) (f : option B → io V) (Q1 : B → log → Prop) (Q : V → log → Prop) :
  (∀ r, steady (Q1 r)) → passes t Q1 → (∀ r k1, Q1 r k1 → passes (f (Some r)) (λ v k2, Q v (k1 ++ k2))) →
  passes (f None) (λ _ _, False) → passes (ITree.bind (timeout d t) f) Q.
Proof.
  intros HQ Ht Hf Hn. eapply passes_bind; [by apply passes_timeout|]. intros [r|] k1 H1; [by apply Hf|].
  eapply passes_mono; [exact Hn|done].
Qed.

(** ** Reads *)

Lemma steady_saw_nonce g own f args n : steady (λ k, saw_nonce k g own f args n).
Proof. intros k k' Hs. by apply saw_nonce_sub, sublist_subseteq. Qed.

Lemma steady_saw_valset_nonce g own n : steady (λ k, saw_valset_nonce k g own n).
Proof. apply steady_saw_nonce. Qed.

Lemma passes_nonce g own f args o :
  passes (read_nonce g own f args o) (λ r k, ∀ n, r = Ok n → saw_nonce k g own f args n).
Proof. eapply passes_mono; [apply (read_nonce_spec free any_env g own f args o []), free_lenient|]. by intros r k [_ H]. Qed.

Lemma passes_changed get why start (Q : Z → log → Prop) :
  (∀ n, steady (Q n)) → passes get (λ r k, ∀ n, r = Ok n → Q n k) →
  passes (changed_nonce get why start) (λ n k, n ≠ start ∧ Q n k).
Proof.
  intros HQ Hg. apply passes_loop; [steady|]. intros _.
  eapply passes_bind; [by apply passes_expected|]. intros n k H. destruct (Z.eqb_spec start n); simpl.
  - eapply passes_bind; [apply passes_any|]. intros _ k1 _. by apply passes_ret.
  - apply passes_ret. rewrite app_nil_r. by split.
Qed.

(** The balance, of the first coin of a kind. *)
Lemma passes_balance prefix address V (f : option Coin → io V) (Q : V → log → Prop) :
  (∀ balances, passes (f (coin_starting prefix balances))
    (λ v k, Q v (mkEntry _ (ContactGetBalances address) (Ok balances) :: k))) →
  passes (ITree.bind (check_cosmos_balance prefix address) f) Q.
Proof.
  intros H. eapply passes_bind with (Q1 := λ c k, ∃ balances, c = coin_starting prefix balances ∧
    k = [mkEntry _ (ContactGetBalances address) (Ok balances)]).
  - apply passes_must. intros balances. apply passes_ret. by exists balances.
  - intros c k (balances & -> & ->). apply H.
Qed.

(** ** Transactions *)

(** A transaction of those messages, signed with the key, was posted and taken. *)
Definition posted (key : CosmosPrivateKey) (msgs : list Msg) : log → Prop := λ k, ∃ args msg response,
  sign_std_msg key msgs args MEMO = Ok msg ∧ one (ContactSendTransaction msg) (Ok response) k.
Lemma steady_posted key msgs : steady (posted key msgs).
Proof. intros k k' Hs (a & m & r & H & Ho). exists a, m, r. split; [done|]. by eapply steady_one. Qed.

Lemma passes_sign_and_send key own msgs fee wait :
  passes (sign_and_send own key msgs fee wait) (λ r k, ∀ x, r = Ok x → posted key msgs k).
Proof.
  eapply passes_mono; [apply (sign_and_send_accepted free any_env own key msgs fee wait [] free_lenient); done|].
  intros r k (_ & _ & H) x ->. destruct (H eq_refl) as (msg & res & _ & (args & _ & Hs) & Ha & _).
  by exists args, msg, res.
Qed.
Lemma passes_posts key own msgs fee wait V (f : TxResponse → io V) (Q : V → log → Prop) :
  (∀ x k, posted key msgs k → passes (f x) (λ v k2, Q v (k ++ k2))) →
  passes (ITree.bind (unwrapped (sign_and_send own key msgs fee wait)) f) Q.
Proof. intros H. eapply passes_bind; [apply passes_unwrapped, passes_sign_and_send|]. intros x k Hk. by apply H. Qed.

(** The deposit was sent to the contract by the miner, with the payload of [sendToCosmos]. *)
Definition deposit_sent (g erc20 : EthAddress) (amount : Uint256) (dest : CosmosAddress) (tx : Uint256) :
    log → Prop := λ k, ∃ payload options,
  encode_call "sendToCosmos(address,bytes32,uint256)" [token_of_address erc20;
    TokenBytes (pad_front 32 (cosmos_address_as_bytes dest)); token_of_u256 amount] = Ok payload ∧
  one (SendTransaction g payload 0 MINER_ADDRESS MINER_PRIVATE_KEY options) (Ok tx) k.
Lemma steady_deposit_sent g erc20 amount dest tx : steady (deposit_sent g erc20 amount dest tx).
Proof. intros k k' Hs (p & o & H & Ho). exists p, o. split; [done|]. by eapply steady_one. Qed.

Lemma passes_wait_if {B} wait tx (m : io (result B GravityError)) (Q : result B GravityError → log → Prop) :
  (∀ r, steady (Q r)) → passes m Q → (∀ e k, Q (Err e) k) → passes (wait_if wait tx m) Q.
Proof.
  intros HQ Hm He. destruct wait as [d|]; [|exact Hm]. eapply passes_try; [apply passes_any| |].
  - intros [] k1 _. eapply passes_mono; [exact Hm|]. intros r k. by apply steady_app_r.
  - intros e k _. apply He.
Qed.

Lemma passes_send_deposit erc20 g amount dest wait options nonce :
  passes (send_deposit erc20 g amount dest MINER_PRIVATE_KEY wait options nonce)
    (λ r k, ∀ tx, r = Ok tx → deposit_sent g erc20 amount dest tx k).
Proof.
  assert (∀ r : result Uint256 GravityError, steady (λ k, ∀ tx, r = Ok tx → deposit_sent g erc20 amount dest tx k)) as Hst.
  { intros r k k' Hs H tx E. eapply steady_deposit_sent; [exact Hs|by apply H]. }
  unfold send_deposit. apply passes_skip; [done|]. intros opts.
  apply passes_ret_try; [|done]. intros payload Hp. apply passes_call_try; [|done]. intros tx.
  apply passes_wait_if; [| |done].
  - intros r k k' Hs H tx' Er. eapply steady_deposit_sent; [|by apply H]. by apply sublist_skip.
  - apply passes_ret. intros tx' [= <-]. exists payload, opts. split; [done|]. by left.
Qed.

Lemma passes_send_to_cosmos erc20 g amount dest wait options :
  passes (send_to_cosmos erc20 g amount dest MINER_PRIVATE_KEY wait options)
    (λ r k, ∀ tx, r = Ok tx → deposit_sent g erc20 amount dest tx k).
Proof.
  assert (∀ r : result Uint256 GravityError, steady (λ k, ∀ tx, r = Ok tx → deposit_sent g erc20 amount dest tx k)) as Hst.
  { intros r k k' Hs H tx E. eapply steady_deposit_sent; [exact Hs|by apply H]. }
  unfold send_to_cosmos. destruct (existsb _ _); [by apply passes_ret|]. cbv zeta.
  apply passes_skip; [done|]. intros ap. apply passes_skip; [done|]. intros ap'.
  apply passes_skip; [done|]. intros approved. eapply passes_try; [apply passes_any| |done]. intros nonce k1 _.
  eapply passes_mono; [apply passes_send_deposit|]. intros r k H tx Er.
  apply steady_app_r; [apply steady_deposit_sent|by apply H].
Qed.
End Steps.

(** ** What each test shows *)

Section Tests.
Context `{X : Ext} `{T : !Tools} `{TT : !TestTools} `{ST : !Statics} `{BD : Build}.
Implicit Types (k l : log) (Q : log → Prop).
#[local] Hint Resolve steady_saw_nonce steady_saw_valset_nonce steady_posted steady_deposit_sent : steady.
Context (keys : list ValidatorKeys) (g : EthAddress).

(** The contract's set nonce was seen to change after a delegation that changes the powers. *)
Definition valset_updated : log → Prop := λ k, ∃ second to response start current,
  keys !! 1%nat = Some second ∧ start ≠ current ∧
  ((λ k, saw_valset_nonce k g MINER_ADDRESS start) ▷
   one (ContactDelegate to (mkCoin STAKING_TOKEN (STARTING_STAKE_PER_VALIDATOR / 4)) get_fee
          (validator_key second) (Some TOTAL_TIMEOUT)) (Ok response) ▷
   (λ k, saw_valset_nonce k g MINER_ADDRESS current)) k.

Lemma steady_valset_updated : steady valset_updated.
Proof. unfold valset_updated. steady. Qed.
#[local] Hint Resolve steady_valset_updated : steady.

Lemma valset_update_passed : passes (test_valset_update keys g) (λ _, valset_updated).
Proof.
  assert (∀ u : unit, steady ((λ _, valset_updated) u)) as Hst by (intros u; apply steady_valset_updated).
  unfold test_valset_update. apply passes_index. intros first _. apply passes_skip; [done|]. intros _.
  eapply passes_bind; [apply passes_expected, passes_nonce|]. intros start k0 H0.
  apply passes_skip; [steady|]. intros i. apply passes_index. intros changed _.
  apply passes_skip; [steady|]. intros to. apply passes_index. intros second Hsecond.
  apply passes_must. intros response. apply passes_skip; [steady|]. intros _.
  eapply passes_in_time; [|apply passes_changed; [|apply passes_nonce]|
    intros current k1 [Hne H1]; apply passes_rassert; intros _|apply passes_panic]; [steady..|].
  exists second, to, response, start, current. split_and!; [done|congruence|].
  apply andthen_intro; [done|]. apply andthen_one. rewrite app_nil_r. exact H1.
Qed.

(** The oracle has attested to the deposit: a claim that reads so is among the attestations. *)
Definition deposit_attested (erc20 : EthAddress) (dest : CosmosAddress) : log → Prop := λ k,
  ∃ attestations att decoded,
    one (QAttestations 1000) (Ok attestations) k ∧ att ∈ attestations ∧
    decode_claim decode_send_to_cosmos_claim att = Some decoded ∧
    right_claim erc20 dest MINER_ADDRESS decoded = true.
Lemma steady_deposit_attested erc20 dest : steady (deposit_attested erc20 dest).
Proof. unfold deposit_attested. steady. Qed.

Lemma passes_attestations {C S} (decode : bytes → result C string) (f : C → S → S) s V (h : S → io V)
    (Q : V → log → Prop) :
  (∀ attestations, passes (h (foldl (λ s att,
     match decode_claim decode att with None => s | Some decoded => f decoded s end) s attestations))
     (λ v k, Q v (mkEntry _ (QAttestations 1000) (Ok attestations) :: k))) →
  passes (ITree.bind (iterate_attestations decode f s) h) Q.
Proof.
  intros H. eapply passes_bind with (Q1 := λ s' k, ∃ attestations, s' = foldl _ s attestations ∧
    k = [mkEntry _ (QAttestations 1000) (Ok attestations)]).
  - eapply passes_bind with (Q1 := λ a k, k = [mkEntry _ (QAttestations 1000) (Ok a)]).
    + apply passes_expected. apply passes_call_try; [|done]. intros a. apply passes_ret. by intros x [= <-].
    + intros a k ->. apply passes_ret. by exists a.
  - intros s' k (a & -> & ->). apply H.
Qed.

(** A closure that overwrites what it found: if it is true at the end, then it was for a claim. *)
Lemma last_found {B C} (d : B → option C) (p : C → bool) (l : list B) :
  foldl (λ s x, match d x with None => s | Some y => p y end) false l = true →
  ∃ x y, x ∈ l ∧ d x = Some y ∧ p y = true.
Proof.
  induction l as [|x l IH] using rev_ind; [done|]. rewrite foldl_app. simpl.
  destruct (d x) as [y|] eqn:E; intros H.
  - exists x, y. split; [apply elem_of_app; right; by left|done].
  - destruct (IH H) as (x' & y & Hx & Hy). exists x', y. split; [apply elem_of_app; by left|done].
Qed.

Lemma look_for_claim_passed erc20 dest :
  passes (look_for_claim erc20 dest MINER_ADDRESS) (λ _, deposit_attested erc20 dest).
Proof.
  apply passes_loop; [intros _; apply steady_deposit_attested|]. intros _. apply passes_attestations.
  intros attestations. destruct (foldl _ _ _) eqn:E.
  2: { eapply passes_bind; [apply passes_any|]. intros _ k1 _. by apply passes_ret. }
  apply passes_ret. apply last_found in E as (att & decoded & H).
  exists attestations, att, decoded. split; [by left|done].
Qed.

Lemma attestation_passed erc20 dest :
  passes (check_send_to_cosmos_attestation erc20 dest MINER_ADDRESS) (λ _, deposit_attested erc20 dest).
Proof.
  eapply passes_in_time; [|apply look_for_claim_passed|intros u k1 H; apply passes_ret|apply passes_panic].
  - intros u. apply steady_deposit_attested.
  - by rewrite app_nil_r.
Qed.

(** The balance after is the balance before and the amount, in one denomination. *)
Definition increased (amount : Uint256) (before after : list Coin) : Prop :=
  ∃ final, coin_starting "nab" after = Some final ∧
  match coin_starting "nab" before with
  | Some start => u256_add (Proto.amount start) amount = Done (Proto.amount final) ∧ denom start = denom final
  | None => amount = Proto.amount final
  end.

(** A deposit went all the way. *)
Definition deposited (dest : CosmosAddress) (erc20 : EthAddress) (amount : Uint256) : log → Prop := λ k,
  ∃ before tx after, increased amount before after ∧
    (one (ContactGetBalances dest) (Ok before) ▷ deposit_sent g erc20 amount dest tx ▷
     deposit_attested erc20 dest ▷ one (WaitForTransaction tx OPERATION_TIMEOUT) (Ok tt) ▷
     one (ContactGetBalances dest) (Ok after)) k.
Lemma steady_deposited dest erc20 amount : steady (deposited dest erc20 amount).
Proof. unfold deposited. steady. Qed.
#[local] Hint Resolve steady_deposited : steady.

Lemma deposit_arrives_passed dest amount before :
  passes (deposit_arrives dest amount (coin_starting "nab" before)) (λ r k, r = Ok tt →
    ∃ after, increased amount before after ∧ one (ContactGetBalances dest) (Ok after) k).
Proof.
  apply passes_loop.
  { intros r k k' Hs H Hr. destruct (H Hr) as (after & Ha & Ho). exists after. split; [done|]. by eapply steady_one. }
  intros _. apply passes_balance. intros after.
  set (again := ITree.bind _ _). assert (∀ Q : unit + result unit unit → log → Prop, (∀ k, Q (inl tt) k) → passes again Q) as Hagain.
  { intros Q HQ. eapply passes_bind; [apply passes_any|]. intros _ k1 _. by apply passes_ret. }
  assert (∀ r : result unit unit, (r = Ok tt → increased amount before after) → r = Ok tt →
    ∃ after', increased amount before after' ∧
      one (ContactGetBalances dest) (Ok after') [mkEntry _ (ContactGetBalances dest) (Ok after)]) as Hend.
  { intros r Hi Hr. exists after. split; [by apply Hi|by left]. }
  unfold increased in *. destruct (coin_starting "nab" after) as [final|];
    [|destruct (coin_starting "nab" before); by apply Hagain].
  destruct (coin_starting "nab" before) as [start|].
  - apply passes_pure_bind. intros sum Hsum. destruct (_ && _) eqn:E; [|by apply Hagain].
    apply andb_prop in E as [Ea%Z.eqb_eq Ed%String.eqb_eq]. subst sum. apply passes_ret, Hend. intros _. by exists final.
  - destruct (Z.eqb_spec amount (Proto.amount final)) as [->|]; apply passes_ret; [|done].
    apply Hend. intros _. by exists final.
Qed.

Lemma deposit_passed dest erc20 amount :
  passes (test_erc20_deposit dest g erc20 amount) (λ _, deposited dest erc20 amount).
Proof.
  assert (∀ u : unit, steady ((λ _, deposited dest erc20 amount) u)) as Hst by (intros u; apply steady_deposited).
  unfold test_erc20_deposit. apply passes_skip; [done|]. intros _. apply passes_balance. intros before.
  eapply passes_bind; [apply passes_expected, passes_send_to_cosmos|]. intros tx k1 Hsent.
  eapply passes_bind; [apply attestation_passed|]. intros u k2 Hatt.
  apply passes_must_expect. intros [].
  eapply passes_in_time; [|apply deposit_arrives_passed| |apply passes_panic].
  { intros r k k' Hs H Hr. destruct (H Hr) as (after & Ha & Ho). exists after. split; [done|]. by eapply steady_one. }
  intros [[]|] k3 H; [|apply passes_panic]. destruct (H eq_refl) as (after & Hinc & Hafter). apply passes_ret.
  exists before, tx, after. split; [done|]. apply andthen_one, andthen_intro; [done|]. apply andthen_intro; [done|].
  apply andthen_one. by rewrite app_nil_r.
Qed.

(** ** Back to Ethereum *)

(** A transaction of messages that name its sender. *)
Definition posted_as (key : CosmosPrivateKey) (msgs : CosmosAddress → list Msg) : log → Prop := λ k,
  ∃ own, cosmos_key_to_address key ADDRESS_PREFIX = Ok own ∧ posted key (msgs own) k.
Lemma steady_posted_as key msgs : steady (posted_as key msgs).
Proof. unfold posted_as. steady. Qed.
#[local] Hint Resolve steady_posted_as : steady.

Definition send_to_eth_msg (dest : EthAddress) (coin fee : Coin) (own : CosmosAddress) : list Msg :=
  [mkMsg "/nab.v1.MsgSendToEth" (SendToEth {|
     mse_sender := cosmos_address_to_string own; mse_eth_dest := address_to_string dest;
     mse_amount := Some coin; mse_bridge_fee := Some fee |})].
Definition request_batch_msg (batch_denom : string) (own : CosmosAddress) : list Msg :=
  [mkMsg "/nab.v1.MsgRequestBatch" (RequestBatch {|
     mrb_sender := cosmos_address_to_string own; mrb_denom := batch_denom |})].

Lemma passes_send_to_eth key dest coin bridge_fee fee :
  passes (send_to_eth key dest coin bridge_fee fee ADDRESS_PREFIX)
    (λ r k, ∀ x, r = Ok x → posted_as key (send_to_eth_msg dest coin bridge_fee) k).
Proof.
  assert (∀ r : result TxResponse CosmosGrpcError,
    steady (λ k, ∀ x, r = Ok x → posted_as key (send_to_eth_msg dest coin bridge_fee) k)) as Hst.
  { intros r k k' Hs H x E. eapply steady_posted_as; [exact Hs|by apply (H x)]. }
  unfold send_to_eth. apply passes_pure_bind. intros own Hown%unwrap_Done.
  destruct (negb _); [by apply passes_ret|]. apply passes_skip; [done|]. intros balances.
  apply passes_skip; [done|]. intros bs. eapply passes_try; [apply passes_any| |done]. intros found k1 _.
  apply passes_mono with (λ r k, ∀ x, r = Ok x → posted_as key (send_to_eth_msg dest coin bridge_fee) k).
  - destruct (negb found); [by apply passes_ret|].
    eapply passes_mono; [apply passes_sign_and_send|]. intros r k H x E. exists own. split; [done|by apply (H x)].
  - intros r k H x E. apply steady_app_r; [apply steady_posted_as|by apply (H x)].
Qed.
Lemma passes_request_batch key batch_denom fee wait :
  passes (send_request_batch key batch_denom fee ADDRESS_PREFIX wait)
    (λ r k, ∀ x, r = Ok x → posted_as key (request_batch_msg batch_denom) k).
Proof.
  unfold send_request_batch. apply passes_pure_bind. intros own Hown%unwrap_Done.
  eapply passes_mono; [apply passes_sign_and_send|]. intros r k H x E. exists own. split; [done|by apply (H x)].
Qed.

Definition batch_nonce_seen (erc20 : EthAddress) (n : Z) : log → Prop := λ k, saw_batch_nonce k g erc20 MINER_ADDRESS n.
Lemma steady_batch_nonce_seen erc20 n : steady (batch_nonce_seen erc20 n).
Proof. apply steady_saw_nonce. Qed.
#[local] Hint Resolve steady_batch_nonce_seen : steady.

(** Tokens were sent back: all but five of the coin; the contract's batch nonce has been seen to change
    since. *)
Definition batch_executed (dest : EthAddress) (requester owner : CosmosPrivateKey) (erc20 : EthAddress) :
    log → Prop := λ k, ∃ own balances coin amount start current,
  cosmos_key_to_address owner ADDRESS_PREFIX = Ok own ∧ coin_starting "nab" balances = Some coin ∧
  u256_sub (Proto.amount coin) 5 = Done amount ∧ current ≠ start ∧
  (one (ContactGetBalances own) (Ok balances) ▷
   posted_as owner (send_to_eth_msg dest (mkCoin (denom coin) amount) (mkCoin (denom coin) 1)) ▷
   posted_as requester (request_batch_msg (denom coin)) ▷
   batch_nonce_seen erc20 start ▷ batch_nonce_seen erc20 current ▷
   one (GetErc20Balance erc20 dest) (Ok amount)) k.
Lemma steady_batch_executed dest requester owner erc20 : steady (batch_executed dest requester owner erc20).
Proof. unfold batch_executed. steady. Qed.
#[local] Hint Resolve steady_batch_executed : steady.

(** What both tests of a batch end with: ether for the destination, then its balance. *)
Lemma passes_final_balance dest erc20 (check : Uint256 → bool) why (Q : unit → log → Prop) :
  (∀ u, steady (Q u)) →
  (∀ balance, check balance = true → Q tt [mkEntry _ (GetErc20Balance erc20 dest) (Ok balance)]) →
  passes (let* _ := send_one_eth dest in
          let* balance := unwrapped (call (GetErc20Balance erc20 dest)) in pure (rassert (check balance) why)) Q.
Proof.
  intros HQ H. apply passes_skip; [done|]. intros _. apply passes_must. intros balance.
  apply passes_rassert. apply H.
Qed.

Lemma batch_passed dest requester owner erc20 :
  passes (test_batch dest g requester owner erc20) (λ _, batch_executed dest requester owner erc20).
Proof.
  assert (∀ u : unit, steady ((λ _, batch_executed dest requester owner erc20) u)) as Hst by (intros u; steady).
  unfold test_batch. apply passes_skip; [done|]. intros _.
  apply passes_pure_bind. intros own Hown%unwrap_Done. apply passes_balance. intros balances.
  apply passes_pure_bind. intros coin Hcoin.
  assert (coin_starting "nab" balances = Some coin) as Hstart by (destruct (coin_starting _ _); [by injection Hcoin as ->|done]).
  apply passes_pure_bind. intros amount Hamount.
  eapply passes_bind; [apply passes_unwrapped, passes_send_to_eth|]. intros x1 k1 H1.
  eapply passes_bind; [apply passes_unwrapped, passes_request_batch|]. intros x2 k2 H2.
  apply passes_skip; [steady|]. intros _. apply passes_skip; [steady|]. intros address.
  apply passes_skip; [steady|]. intros _.
  eapply passes_bind; [apply passes_expected, passes_nonce|]. intros start k3 H3.
  eapply passes_in_time; [|apply passes_changed; [|apply passes_nonce]| |apply passes_panic]; [steady..|].
  intros current k4 [Hne H4]. apply passes_skip; [steady|]. intros txid. apply passes_skip; [steady|]. intros _.
  apply passes_final_balance; [steady|]. intros balance ->%Z.eqb_eq.
  exists own, balances, coin, amount, start, current. split_and!; [done..|].
  apply andthen_one, andthen_intro; [done|]. apply andthen_intro; [done|]. apply andthen_intro; [done|].
  apply andthen_intro; [done|]. apply one_here.
Qed.

(** ** Duplicate claims *)

(** Every orchestrator claims a deposit under the given nonce, and the balance stays. *)
Definition duplicate_claimed (nonce : Z) (erc20 : EthAddress) (receiver : CosmosAddress) (v : ValidatorKeys) :
    log → Prop := λ k, ∃ own sender claims,
  address_parse "0x912fd21d7a69678227fe6d08c64222db41477ba0" = Ok sender ∧
  cosmos_key_to_address (orch_key v) ADDRESS_PREFIX = Ok own ∧
  ordered_claims ADDRESS_PREFIX own [duplicate_event nonce erc20 1 receiver sender] [] [] [] [] = Done claims ∧
  posted (orch_key v) claims.*2 k.
Definition duplicates_ignored (nonce : Z) (erc20 : EthAddress) (receiver : CosmosAddress) : log → Prop := λ k,
  ∃ before after start final,
    coin_starting "nab" before = Some start ∧ coin_starting "nab" after = Some final ∧
    Proto.amount start = Proto.amount final ∧ denom start = denom final ∧
    (one (ContactGetBalances receiver) (Ok before) ▷ each keys (duplicate_claimed nonce erc20 receiver) ▷
     one (ContactGetBalances receiver) (Ok after)) k.
Lemma steady_duplicate_claimed nonce erc20 receiver v : steady (duplicate_claimed nonce erc20 receiver v).
Proof. unfold duplicate_claimed. steady. Qed.
Lemma steady_duplicates_ignored nonce erc20 receiver : steady (duplicates_ignored nonce erc20 receiver).
Proof. unfold duplicates_ignored. steady. Qed.
#[local] Hint Resolve steady_duplicate_claimed steady_duplicates_ignored : steady.

Lemma duplicate_passed nonce erc20 receiver :
  passes (submit_duplicate_erc20_send nonce erc20 1 receiver keys) (λ _, duplicates_ignored nonce erc20 receiver).
Proof.
  unfold submit_duplicate_erc20_send. apply passes_balance. intros before.
  destruct (coin_starting "nab" before) as [start|] eqn:Hs; [|apply passes_panic_bind].
  apply passes_pure_bind. intros start' [= <-]. apply passes_pure_bind. intros sender Hsender%unwrap_Done.
  eapply passes_bind.
  { apply (passes_for _ _ _ (duplicate_claimed nonce erc20 receiver)). intros v _ _.
    eapply passes_bind with (Q1 := λ _, duplicate_claimed nonce erc20 receiver v).
    - unfold send_ethereum_claims. apply passes_unwrapped, passes_pure_bind. intros own Hown%unwrap_Done.
      apply passes_pure_bind. intros claims Hclaims. eapply passes_mono; [apply passes_sign_and_send|].
      intros r k H x E. exists own, sender, claims. split_and!; [done..|by apply (H x)].
    - intros x k H. apply passes_ret. by rewrite app_nil_r. }
  intros u k1 H1. apply passes_skip; [steady|]. intros _.
  apply passes_balance. intros after. destruct (coin_starting "nab" after) as [final|] eqn:Hf; [|apply passes_panic].
  destruct (_ && _) eqn:E; [|apply passes_panic]. apply andb_prop in E as [Ea%Z.eqb_eq Ed%String.eqb_eq].
  apply passes_ret. exists before, after, start, final. split_and!; [done..|].
  apply andthen_one, andthen_intro; [done|]. apply one_here.
Qed.

(** ** The happy path *)

Definition user_made (u : BridgeUserKey) : Prop :=
  cosmos_key_to_address (user_cosmos_key u) ADDRESS_PREFIX = Ok (user_cosmos_address u) ∧
  user_eth_address u = eth_key_to_address (user_eth_key u) ∧
  user_eth_dest_address u = user_eth_address u.
Lemma user_key_made : passes get_user_key (λ u _, user_made u).
Proof.
  unfold get_user_key. apply passes_skip; [steady|]. intros secret.
  apply passes_pure_bind. intros key _. apply passes_pure_bind. intros own Hown%unwrap_Done.
  apply passes_skip; [steady|]. intros secret'. apply passes_pure_bind. intros dest_key _. by apply passes_ret.
Qed.

Definition set_replaced (validator_out : bool) : log → Prop :=
  if validator_out then λ k, ∃ n, n ≠ 0 ∧ saw_valset_nonce k g MINER_ADDRESS n
  else each (seq 0 2) (λ _, valset_updated).
Lemma steady_set_replaced validator_out : steady (set_replaced validator_out).
Proof. destruct validator_out; [|apply steady_each]. unfold set_replaced. cbv iota. steady. Qed.
#[local] Hint Resolve steady_set_replaced : steady.

Lemma nonzero_passed :
  passes (wait_for_nonzero_valset g) (λ _ k, ∃ n, n ≠ 0 ∧ saw_valset_nonce k g MINER_ADDRESS n).
Proof.
  eapply passes_in_time with (Q1 := λ _ k, ∃ n, n ≠ 0 ∧ saw_valset_nonce k g MINER_ADDRESS n).
  - steady.
  - apply passes_loop; [steady|]. intros _. eapply passes_bind; [apply passes_nonce|].
    intros [n|] k H; [|apply passes_panic]. destruct (Z.eqb_spec n 0).
    + eapply passes_bind; [apply passes_any|]. intros _ k1 _. by apply passes_ret.
    + apply passes_ret. rewrite app_nil_r. exists n. split; [done|by apply H].
  - intros u k H. apply passes_ret. by rewrite app_nil_r.
  - apply passes_panic.
Qed.

(** What the whole test shows, of one user. *)
Definition happy_path_shown (validator_out : bool) (erc20 : EthAddress) : log → Prop := λ k,
  ∃ user requester nonce, user_made user ∧ keys !! 0%nat = Some requester ∧
  (set_replaced validator_out ▷
   each (seq 0 3) (λ _, deposited (user_cosmos_address user) erc20 100) ▷
   (λ k, saw_nonce k g MINER_ADDRESS "state_lastEventNonce()" [] nonce) ▷
   duplicates_ignored nonce erc20 (user_cosmos_address user) ▷
   batch_executed (user_eth_address user) (validator_key requester) (user_cosmos_key user) erc20) k.

Lemma operational_passed erc20 validator_out :
  passes (operational_tests keys g erc20 validator_out) (λ _, happy_path_shown validator_out erc20).
Proof.
  unfold operational_tests. eapply passes_bind with (Q1 := λ _, set_replaced validator_out).
  { destruct validator_out; [apply nonzero_passed|]. apply passes_for. intros _ _ _. apply valset_update_passed. }
  intros u0 k0 H0. eapply passes_bind; [apply user_key_made|]. intros user ku Huser.
  eapply passes_bind; [apply passes_for; intros i s _; apply deposit_passed|]. intros u1 k1 H1.
  eapply passes_bind; [apply passes_unwrapped, passes_nonce|]. intros nonce k2 H2.
  eapply passes_bind; [apply duplicate_passed|]. intros u3 k3 H3.
  apply passes_index. intros requester Hreq.
  eapply passes_mono; [apply batch_passed|]. intros u4 k4 H4. exists user, requester, nonce.
  split_and!; [done..|]. apply andthen_intro; [done|]. apply steady_app_r; [steady|].
  apply andthen_intro; [done|]. apply andthen_intro; [done|]. by apply andthen_intro.
Qed.

(** What holds of the test holds of it with the orchestrators beside it. *)
Lemma passes_with_orchestrators validator_out config (test : io unit) (Q : log → Prop) :
  steady Q → passes test (λ _, Q) →
  passes (let* tasks := start_orchestrators keys g validator_out config in
          let* _ := alongside tasks test in Ret tt) (λ _, Q).
Proof.
  intros HQ Ht. apply passes_skip; [done|]. intros tasks.
  eapply passes_bind; [apply passes_alongside with (Q := λ _, Q); [done|exact Ht]|]. intros [u ts] k H.
  apply passes_ret. by rewrite app_nil_r.
Qed.

(** C22: When the happy path test returns, whatever its nodes answered and however the orchestrators it
    started were scheduled beside it, then its log shows in this order, of one user: the contract's
    nonce of its validator set, twice read before a delegation and read different after it (or, with a
    validator out, read to be other than 0); three times, a balance of the user, the deposit sent by the
    miner with the payload of that token, the amount 100 and that user, a claim among the attestations
    that names the token, the user and the miner (it need not name the amount, and may be that of an
    earlier deposit), the wait for the deposit's transaction over, and a balance whose first coin of
    this chain is the one before and 100, in the same denomination (or 100 of a coin, if there was none
    before); the contract's last event nonce read, a claim of a deposit of 1 under that nonce posted by
    every orchestrator and accepted, and the user's coin and its amount the same before and after; then
    the user's transfer to Ethereum of all but five of that coin and the request for a batch, both
    accepted, two different last batch nonces of the token read from the contract, and the amount
    transferred as exactly the balance of the token that the user has on Ethereum. *)
Theorem happy_path_passed erc20 validator_out :
  passes (happy_path_test keys g erc20 validator_out) (λ _, happy_path_shown validator_out erc20).
Proof. apply passes_with_orchestrators; [unfold happy_path_shown; steady|apply operational_passed]. Qed.
End Tests.
