(* ===== verification/ScenarioTheory.v ===== *)
(** * What the other tests have seen when they pass

    The relay market, the evidence of a bad signature, the token of Cosmos on Ethereum, cancelling,
    rewards, delegate keys, and the stress test, whose last check relies on a slip in the making of
    its users' keys. *)

From ITree Require Import ITree.
From S2P Require Import Prelude Bytes Proto External Float Instances Types Valset Messages Effects Host Config.
From S2P Require Import CosmosSend Queries Submit SubmitTheory Join OracleTheory RelayerTheory.
From S2P Require Import Background TestUtils HappyPath Scenarios TestRunner TestTheory.

Section Shown.
Context `{X : Ext} `{T : !Tools} `{TT : !TestTools} `{ST : !Statics} `{BD : Build}.
Implicit Types (k l : log) (Q : log → Prop).
#[local] Hint Resolve steady_saw_nonce steady_saw_valset_nonce steady_posted steady_deposit_sent : steady.
#[local] Hint Resolve steady_valset_updated steady_deposited steady_posted_as steady_batch_nonce_seen : steady.
Context (keys : list ValidatorKeys) (g : EthAddress).

(** ** The relay market *)

(** A user was given three hundred tokens by deposits, the requester a hundred, and the user sent two
    hundred back for a fee. *)
Definition batch_set_up (erc20 : EthAddress) (fee : Uint256) (batch : BatchTest) : log → Prop := λ k,
  ∃ requester own key hundred,
    keys !! 0%nat = Some requester ∧ bt_requester_key batch = validator_key requester ∧
    cosmos_key_to_address (validator_key requester) ADDRESS_PREFIX = Ok (bt_requester_address batch) ∧
    u256_mul one_eth 100 = Done hundred ∧ u256_mul one_eth 200 = Done (bt_send_amount batch) ∧
    let token := denom (bt_cdai_held batch) in
    (each (seq 0 3) (λ _, deposited g own erc20 hundred) ▷
     deposited g (bt_requester_address batch) erc20 hundred ▷
     posted_as key (send_to_eth_msg (bt_dest_eth_address batch) (mkCoin token (bt_send_amount batch))
                      (mkCoin token fee))) k.
Lemma steady_batch_set_up erc20 fee batch : steady (batch_set_up erc20 fee batch).
Proof.
  intros k k' Hs (r & own & key & h & H1 & H2 & H3 & H4 & H5 & H6). exists r, own, key, h.
  split_and!; [done..|]. by eapply steady_andthen.
Qed.
#[local] Hint Resolve steady_batch_set_up : steady.

Lemma set_up_passed erc20 fee : passes (setup_batch_test keys g erc20 fee) (λ b, batch_set_up erc20 fee b).
Proof.
  unfold setup_batch_test. do 6 (apply passes_skip; [steady|]; intros ?).
  apply passes_skip; [steady|]. intros secret. apply passes_pure_bind. intros own Hown%unwrap_Done.
  apply passes_skip; [steady|]. intros dest_key. apply passes_pure_bind. intros hundred Hh.
  eapply passes_bind; [apply passes_for; intros i s _; apply deposit_passed|]. intros u1 k1 H1.
  apply passes_index. intros requester Hreq. apply passes_pure_bind. intros raddr Hraddr%unwrap_Done.
  eapply passes_bind; [apply deposit_passed|]. intros u2 k2 H2.
  apply passes_skip; [steady|]. intros held. apply passes_skip; [steady|]. intros cdai.
  apply passes_pure_bind. intros send Hsend.
  eapply passes_bind; [apply passes_unwrapped, passes_send_to_eth|]. intros res k3 H3. apply passes_ret.
  rewrite app_nil_r. exists requester, own, (cosmos_key_from_secret secret), hundred. split_and!; [done..|].
  apply andthen_intro; [done|]. by apply andthen_intro.
Qed.

(** The wait for a batch: turns that each read the starting nonce again and sleep, and the next call, that
    reads the nonce or ends such a turn. *)
Definition batch_read (erc20 : EthAddress) (n : Z) k : Prop := ∃ payload val,
  encode_call "lastBatchNonce(address)" [token_of_address erc20] = Ok payload ∧
  downcast_uint256 (u256_from_bytes_be val) = Done (Some n) ∧
  k = [mkEntry _ (SimulateTransaction g 0 payload MINER_ADDRESS) (Ok val)].
Inductive unchanged (erc20 : EthAddress) (start : Z) : log → Prop :=
  | unchanged_nil : unchanged erc20 start []
  | unchanged_turn l k : unchanged erc20 start l → batch_read erc20 start k →
      unchanged erc20 start (l ++ k ++ [mkEntry _ (Sleep 4) tt]).
Definition waits (erc20 : EthAddress) (start : Z) : spec := λ R e l,
  match e with
  | SimulateTransaction contract value payload caller => unchanged erc20 start l ∧
      contract = g ∧ value = 0 ∧ caller = MINER_ADDRESS ∧
      encode_call "lastBatchNonce(address)" [token_of_address erc20] = Ok payload
  | Sleep d => d = 4 ∧ ∃ l0 k, unchanged erc20 start l0 ∧ batch_read erc20 start k ∧ l = l0 ++ k
  | Panics _ => True
  | _ => False
  end.
(** When the timer fired, during or right after the call [e], the contract's nonce had not been read to
    be another. *)
Definition waited_in_vain (erc20 : EthAddress) (start : Z) : log → Prop := λ k,
  ∃ l R (e : callE R) x, l ++ [mkEntry R e x; mkEntry _ (TimerFired OPERATION_TIMEOUT) true] `sublist_of` k ∧
    waits erc20 start R e l.
Lemma steady_waited_in_vain erc20 start : steady (waited_in_vain erc20 start).
Proof. intros k k' Hs (l & R & e & x & H & Hw). exists l, R, e, x. split; [by etrans|done]. Qed.
#[local] Hint Resolve steady_waited_in_vain : steady.

Lemma wait_sat erc20 start why :
  sat (waits erc20 start) any_env (changed_nonce (get_tx_batch_nonce g erc20 MINER_ADDRESS) why start) []
    (λ n k, n ≠ start ∧ batch_nonce_seen g erc20 n k).
Proof.
  apply sat_iter with (Inv := λ _ l, unchanged erc20 start l); [|constructor]. intros _ l Hl.
  apply sat_bind. unfold expected, get_tx_batch_nonce, read_nonce.
  eapply sat_run with (Q0 := λ r l', ∀ n, r = Ok n → ∃ k, batch_read erc20 n k ∧ l' = l ++ k).
  - apply sat_pure_bind; [done|]. intros payload Hp%unwrap_Done. apply sat_call_try; [done| |done]. intros val _.
    cbv zeta. apply sat_pure_bind; [done|]. intros [n|] Hn; [|by apply sat_panic]. apply sat_ret.
    intros n' [= <-]. eexists. split; [|done]. by exists payload, val.
  - intros r l1 Hr. apply sat_pure; [done|]. intros n Hn. destruct r as [n'|]; [|done]. injection Hn as ->.
    destruct (Hr n eq_refl) as (k & Hk & ->). destruct (Z.eqb_spec start n) as [<-|Hne]; cbn [negb].
    + apply sat_call_bind; [by split; [|exists l, k]|]. intros [] _. apply sat_ret. rewrite <- app_assoc.
      by constructor.
    + apply sat_ret. split; [congruence|]. destruct Hk as (payload & val & Hp & Hv & ->).
      exists payload, val. split_and!; [done|by apply elem_of_app; right; left|done].
Qed.

(** A batch of those tokens was requested; whether the contract's nonce was then seen to change in time. *)
Definition batch_relayed (erc20 : EthAddress) (batch : BatchTest) : log → Prop := λ k, ∃ start current,
  current ≠ start ∧
  (posted_as (bt_requester_key batch) (request_batch_msg (denom (bt_cdai_held batch))) ▷
   batch_nonce_seen g erc20 start ▷ batch_nonce_seen g erc20 current) k.
Definition batch_left (erc20 : EthAddress) (batch : BatchTest) : log → Prop := λ k, ∃ start,
  (posted_as (bt_requester_key batch) (request_batch_msg (denom (bt_cdai_held batch))) ▷
   batch_nonce_seen g erc20 start ▷ waited_in_vain erc20 start) k.

Lemma request_passed expect batch fee erc20 :
  passes (request_and_wait expect batch fee erc20 g)
    (λ _, if expect then batch_relayed erc20 batch else batch_left erc20 batch).
Proof.
  assert (∀ (u : Z), steady (if expect then batch_relayed erc20 batch else batch_left erc20 batch)) as Hst.
  { intros _. destruct expect; [unfold batch_relayed|unfold batch_left]; steady. }
  unfold request_and_wait. eapply passes_bind; [apply passes_unwrapped, passes_request_batch|]. intros x k1 H1.
  unfold wait_for_batch. apply passes_skip; [intros u; apply steady_after; [intros; by apply sublist_app|by apply Hst]|]. intros _.
  apply passes_skip; [intros u; apply steady_after; [intros; by apply sublist_app|by apply Hst]|]. intros _.
  eapply passes_bind; [apply passes_expected, passes_nonce|]. intros start k2 H2.
  eapply passes_bind; [apply passes_timeout_calls; [|apply wait_sat]|]; [steady..|].
  intros [current|] k3 H3; destruct expect; simpl.
  - destruct H3 as [Hne H3]. apply passes_ret. exists start, current. split; [done|].
    apply andthen_intro; [done|]. apply andthen_intro; [done|]. by rewrite app_nil_r.
  - destruct H3 as [Hne H3]. destruct (Z.eqb_spec start current) as [->|]; [done|apply passes_panic].
  - apply passes_panic.
  - apply passes_ret. exists start. apply andthen_intro; [done|]. apply andthen_intro; [done|]. by rewrite app_nil_r.
Qed.

Definition good_batch_shown (erc20 : EthAddress) : log → Prop := λ k, ∃ batch fee,
  u256_mul one_eth 10 = Done fee ∧
  (batch_set_up erc20 fee batch ▷ batch_relayed erc20 batch ▷
   one (GetErc20Balance erc20 (bt_dest_eth_address batch)) (Ok (bt_send_amount batch))) k.
Definition bad_batch_shown (erc20 : EthAddress) : log → Prop := λ k, ∃ batch balance,
  balance ≠ bt_send_amount batch ∧
  (batch_set_up erc20 2500 batch ▷ batch_left erc20 batch ▷
   one (GetErc20Balance erc20 (bt_dest_eth_address batch)) (Ok balance)) k.

Lemma good_batch_passed erc20 : passes (test_good_batch keys g erc20) (λ _, good_batch_shown erc20).
Proof.
  assert (steady (good_batch_shown erc20)) by (unfold good_batch_shown; steady).
  unfold test_good_batch. apply passes_pure_bind. intros fee Hfee.
  eapply passes_bind; [apply set_up_passed|]. intros batch k1 H1. apply passes_skip; [steady|]. intros f.
  eapply passes_bind; [apply (request_passed true)|]. intros n k2 H2.
  apply passes_skip; [steady|]. intros txid. apply passes_skip; [steady|]. intros _.
  apply passes_final_balance; [steady|]. intros balance ->%Z.eqb_eq. exists batch, fee. split; [done|].
  apply andthen_intro; [done|]. apply andthen_intro; [done|]. apply one_here.
Qed.
Lemma bad_batch_passed erc20 : passes (test_bad_batch keys g erc20) (λ _, bad_batch_shown erc20).
Proof.
  assert (steady (bad_batch_shown erc20)) by (unfold bad_batch_shown; steady).
  unfold test_bad_batch. eapply passes_bind; [apply set_up_passed|]. intros batch k1 H1.
  eapply passes_bind; [apply (request_passed false)|]. intros n k2 H2.
  apply passes_final_balance; [steady|]. intros balance Hb%negb_true_iff%Z.eqb_neq. exists batch, balance.
  split; [done|]. apply andthen_intro; [done|]. apply andthen_intro; [done|]. apply one_here.
Qed.

(** C23: When the relay market test returns, whatever its nodes answered and however its orchestrators were
    scheduled, its log shows both sides of the market. First, after deposits to a user and to the
    requester, the user's transfer with a bridge fee of 10 * 10^18 units of DAI and the request for a
    batch were accepted, two different last batch nonces of the token were then read from the contract,
    and the amount transferred is exactly the destination's balance. Later, after as many deposits, a
    transfer with a bridge fee of 2500 units and the request for its batch were accepted, a last batch
    nonce was read, and the test waited until its timer of two minutes fired: every nonce it read in
    that wait, before the call that the timer overtook, was that same one; and the destination's
    balance is not the amount transferred. *)
Theorem relay_market_passed :
  passes (relay_market_test keys g)
    (λ _, good_batch_shown DAI_CONTRACT_ADDRESS ▷ bad_batch_shown DAI_CONTRACT_ADDRESS).
Proof.
  apply passes_with_orchestrators; [apply steady_andthen|].
  eapply passes_bind; [apply good_batch_passed|]. intros u k1 H1.
  eapply passes_mono; [apply bad_batch_passed|]. intros u' k2 H2. by apply andthen_intro.
Qed.

(** ** Evidence of a bad signature *)

(** The chain lists a validator under a status, jailed or not. *)
Definition listed (status : string) (key : CosmosPrivateKey) (jailed : bool) : log → Prop := λ k,
  ∃ validators operator val, one (ContactGetValidators status) (Ok validators) k ∧
    cosmos_key_to_address key (ADDRESS_PREFIX +:+ "valoper") = Ok operator ∧
    val ∈ validators ∧ val_operator_address val = cosmos_address_to_string operator ∧ val_jailed val = jailed.
Lemma steady_listed status key jailed : steady (listed status key jailed).
Proof. unfold listed. steady. Qed.
#[local] Hint Resolve steady_listed : steady.

Lemma check_validator_passed key status :
  passes (check_validator key status) (λ r k, r.1 = true → listed status key r.2 k).
Proof.
  unfold check_validator. apply passes_must. intros validators. apply passes_pure_bind.
  intros operator Hop%unwrap_Done. destruct (filter _ validators) as [|val rest] eqn:E; apply passes_ret; [done|].
  intros _. assert (val ∈ filter (λ val, val_operator_address val = cosmos_address_to_string operator) validators) as Hin.
  { rewrite E. by left. }
  apply list_elem_of_filter in Hin as [Hv Hin]. exists validators, operator, val. split_and!; [by left|done..].
Qed.

(** What is submitted: a set that names only its signer, under a nonce the chain has not reached, with
    its signature of the checkpoint that the contract would check. *)
Definition evidence_msg (v : ValidatorKeys) (gravity_id : string) (own : CosmosAddress) : list Msg :=
  let signer := eth_key_to_address (eth_key v) in
  [mkMsg "/nab.v1.MsgSubmitBadSignatureEvidence" (SubmitBadSignatureEvidence {|
     mbe_subject := Some (to_any (EvidenceValset (false_valset signer)));
     mbe_signature := deep_space_bytes_to_hex_str (signature_to_bytes
       (sign_ethereum_msg (eth_key v) (encode_valset_confirm gravity_id (false_valset signer))));
     mbe_sender := cosmos_address_to_string own |})].

Definition slashed (victim reporter : ValidatorKeys) : log → Prop := λ k, ∃ gravity_id,
  ((λ k, saw_gravity_id k g (eth_key_to_address (eth_key victim)) gravity_id) ▷
   listed "BOND_STATUS_BONDED" (validator_key victim) false ▷
   posted_as (orch_key reporter) (evidence_msg victim gravity_id) ▷
   listed "BOND_STATUS_UNBONDING" (validator_key victim) true) k.

Lemma evidence_slashes victim reporter :
  keys !! 0%nat = Some victim → keys !! 1%nat = Some reporter →
  passes (evidence_based_slashing keys g) (λ _, slashed victim reporter).
Proof.
  intros Hv Hr. assert (steady (slashed victim reporter)) by (unfold slashed; steady).
  unfold evidence_based_slashing. apply passes_index. intros second Hsecond. rewrite Hr in Hsecond.
  injection Hsecond as <-. apply passes_skip; [steady|]. intros _. apply passes_index. intros third _.
  apply passes_skip; [steady|]. intros _. apply passes_index. intros first Hfirst. rewrite Hv in Hfirst.
  injection Hfirst as <-. cbv zeta.
  eapply passes_bind; [apply (get_gravity_id_spec free any_env _ _ _ []); [apply free_lenient|by intros ?]|].
  intros gid k1 H1. apply passes_pure_bind. intros gravity_id Hgid%unwrap_Done.
  apply passes_skip; [steady|]. intros _.
  eapply passes_bind; [apply check_validator_passed|]. intros [is_in_set jailed] k2 H2.
  apply passes_rassert_bind. intros ->. apply passes_rassert_bind. intros Hj%negb_true_iff. simpl in Hj. subst.
  eapply passes_bind with (Q1 := λ _, posted_as (orch_key reporter) (evidence_msg victim gravity_id)).
  { unfold submit_bad_signature_evidence. apply passes_unwrapped, passes_pure_bind. intros own Hown%unwrap_Done.
    eapply passes_mono; [apply passes_sign_and_send|]. intros r k H0 x E. exists own. split; [done|by apply (H0 x)]. }
  intros res k3 H3. eapply passes_bind; [apply check_validator_passed|]. intros [is_in_set jailed] k4 H4.
  apply passes_rassert_bind. intros ->. apply passes_rassert. intros Hj. simpl in Hj. subst.
  exists gravity_id. apply andthen_intro; [by apply H1|]. apply andthen_intro; [by apply H2|].
  apply andthen_intro; [done|]. rewrite app_nil_r. by apply H4.
Qed.

(** C24: When the slashing test returns, the chain listed the victim as bonded and not jailed, then
    the evidence was posted, then the chain listed it as unbonding and jailed; and what was posted is
    evidence indeed: the signature, in the form the chain and the contract recover it, is the
    victim's own, over the checkpoint of the false set under the contract's gravity id. *)
Theorem evidence_passed `{XL : !ExtLaws X} victim reporter :
  keys !! 0%nat = Some victim → keys !! 1%nat = Some reporter →
  passes (evidence_based_slashing keys g) (λ _, slashed victim reporter) ∧
  ∀ gravity_id, let signer := eth_key_to_address (eth_key victim) in
    signature_recover (sign_ethereum_msg (eth_key victim) (encode_valset_confirm gravity_id (false_valset signer)))
      (encode_valset_confirm_hashed gravity_id (false_valset signer)) = Ok signer.
Proof.
  intros Hv Hr. split; [by apply evidence_slashes|]. intros gravity_id signer.
  unfold encode_valset_confirm_hashed. apply law_sign_recover.
Qed.

(** ** A Cosmos token on Ethereum *)

(** The token's contract was deployed, which the bridge contract counted as an event, and the chain
    has adopted it. *)
Definition token_adopted (first : ValidatorKeys) (token name : string) (erc20 : EthAddress) : log → Prop := λ k,
  let own := eth_key_to_address (eth_key first) in
  ∃ start payload tx current res, start ≠ current ∧
    encode_call "deployERC20(string,string,string,uint8)"
      [TokenString token; TokenString name; TokenString name; token_of_u8 6] = Ok payload ∧
    address_parse (qdr_erc20 res) = Ok erc20 ∧
    ((λ k, saw_nonce k g own "state_lastEventNonce()" [] start) ▷
     one (SendTransaction g payload 0 own (eth_key first) []) (Ok tx) ▷
     (λ k, saw_nonce k g own "state_lastEventNonce()" [] current) ▷
     one (QDenomToErc20 token) (Ok res)) k.
Lemma steady_token_adopted first token name erc20 : steady (token_adopted first token name erc20).
Proof. unfold token_adopted. cbv zeta. steady. Qed.
#[local] Hint Resolve steady_token_adopted : steady.

Lemma passes_deploy_erc20 key denom name decimals :
  passes (deploy_erc20 denom name name decimals g (Some TOTAL_TIMEOUT) key [])
    (λ r k, ∀ x, r = Ok x → ∃ payload tx, encode_call "deployERC20(string,string,string,uint8)"
       [TokenString denom; TokenString name; TokenString name; token_of_u8 decimals] = Ok payload ∧
       one (SendTransaction g payload 0 (eth_key_to_address key) key []) (Ok tx) k).
Proof.
  unfold deploy_erc20. apply passes_ret_try; [|done]. intros payload Hp. apply passes_call_try; [|done]. intros tx.
  simpl. apply passes_call_try; [|done]. intros []. apply passes_ret. intros x [= <-].
  exists payload, tx. split; [done|by left].
Qed.

Lemma adoption_passed first token name validator_out :
  keys !! 0%nat = Some first →
  passes (deploy_cosmos_representing_erc20_and_check_adoption g keys validator_out token name)
    (λ r, token_adopted first token name r.1).
Proof.
  intros Hf. unfold deploy_cosmos_representing_erc20_and_check_adoption. apply passes_index.
  intros first' Hf'. rewrite Hf in Hf'. injection Hf' as <-. set (own := eth_key_to_address (eth_key first)).
  eapply passes_bind with (Q1 := λ _ k, ∃ start payload tx current, start ≠ current ∧
    encode_call "deployERC20(string,string,string,uint8)"
      [TokenString token; TokenString name; TokenString name; token_of_u8 6] = Ok payload ∧
    ((λ k, saw_nonce k g own "state_lastEventNonce()" [] start) ▷
     one (SendTransaction g payload 0 own (eth_key first) []) (Ok tx) ▷
     (λ k, saw_nonce k g own "state_lastEventNonce()" [] current)) k).
  { unfold deploy_and_count. apply passes_skip; [steady|]. intros _.
    eapply passes_bind; [apply passes_unwrapped, passes_nonce|]. intros start k1 H1.
    eapply passes_bind; [apply passes_unwrapped, passes_deploy_erc20|]. intros x k2 (payload & tx & Hp & H2).
    eapply passes_bind; [apply passes_unwrapped, passes_nonce|]. intros current k3 H3.
    apply passes_rassert. intros Hne%negb_true_iff%Z.eqb_neq. exists start, payload, tx, current. split_and!; [done..|].
    apply andthen_intro; [done|]. apply andthen_intro; [done|]. by rewrite app_nil_r. }
  intros u k1 (start & payload & tx & current & Hne & Hp & k2 & k3 & Hs & H2 & k4 & k5 & Hs' & H4 & H5).
  assert (∀ r, steady (λ k, token_adopted first token name r (k1 ++ k))) as Hst by (intros r; steady).
  apply passes_skip; [intros r; apply Hst|]. intros tasks.
  apply passes_alongside with (Q := λ r k, token_adopted first token name r (k1 ++ k)); [done|].
  eapply passes_in_time with (Q1 := λ r k, ∃ res, r = qdr_erc20 res ∧ one (QDenomToErc20 token) (Ok res) k);
    [steady| | |apply passes_panic].
  - apply passes_loop; [steady|]. intros _. apply passes_call_bind. intros [res|].
    + apply passes_ret. exists res. split; [done|by left].
    + eapply passes_bind; [apply passes_any|]. intros _ k _. by apply passes_ret.
  - intros r k6 (res & -> & H6). apply passes_pure. intros erc20 Herc%unwrap_Done.
    exists start, payload, tx, current, res. split_and!; [done..|]. rewrite app_nil_r.
    exists k2, (k3 ++ k6). split_and!; [rewrite app_assoc; by apply sublist_app|done|].
    exists k4, (k5 ++ k6). split_and!; [rewrite app_assoc; by apply sublist_app|done|]. by apply andthen_intro.
Qed.

(** When the second happy path returns: the token was deployed and adopted, and a million of what a
    user then sent from Cosmos, and a batch was requested for, is its balance on Ethereum. *)
Theorem happy_path_v2_passed first validator_out : keys !! 0%nat = Some first →
  passes (happy_path_test_v2 keys g validator_out) (λ _ k, ∃ erc20 user, user_made user ∧
    (token_adopted first "footoken" "mfootoken" erc20 ▷
     posted_as (user_cosmos_key user) (send_to_eth_msg (user_eth_address user) (mkCoin "footoken" 1000000) get_fee) ▷
     posted_as (validator_key first) (request_batch_msg "footoken") ▷
     one (GetErc20Balance erc20 (user_eth_address user)) (Ok 1000000)) k).
Proof.
  intros Hf. unfold happy_path_test_v2. cbv zeta.
  eapply passes_bind; [by apply adoption_passed|]. intros [erc20 tasks] k0 H0.
  eapply passes_bind; [apply passes_alongside with (Q := λ _ k, ∃ user, user_made user ∧
     (posted_as (user_cosmos_key user) (send_to_eth_msg (user_eth_address user) (mkCoin "footoken" 1000000) get_fee) ▷
      posted_as (validator_key first) (request_batch_msg "footoken") ▷
      one (GetErc20Balance erc20 (user_eth_address user)) (Ok 1000000)) k); [steady|]|].
  2: { intros r k (user & Hu & H). apply passes_ret. exists erc20, user. split; [done|].
       rewrite app_nil_r. by apply andthen_intro. }
  unfold bridge_cosmos_asset. apply passes_skip; [steady|]. intros more.
  eapply passes_then; [steady|apply user_key_made|]. intros user Huser.
  apply passes_index. intros first' Hf'. rewrite Hf in Hf'. injection Hf' as <-.
  apply passes_skip; [steady|]. intros x. apply passes_skip; [steady|]. intros balances.
  destruct (negb _); [apply passes_panic|]. apply passes_skip; [steady|]. intros y.
  eapply passes_bind; [apply passes_unwrapped, passes_send_to_eth|]. intros x1 k1 H1.
  eapply passes_bind; [apply passes_unwrapped, passes_request_batch|]. intros x2 k2 H2.
  eapply passes_in_time with (Q1 := λ _, one (GetErc20Balance erc20 (user_eth_address user)) (Ok 1000000));
    [steady| | |apply passes_panic].
  - apply passes_loop; [steady|]. intros _. apply passes_call_bind.
    assert (∀ e, passes (let* _ := call (Sleep 1) in Ret (inl tt)) (λ (r : unit + unit) k, match r with inl _ => True | inr _ =>
      one (GetErc20Balance erc20 (user_eth_address user)) (Ok 1000000) (e :: k) end)) as Hagain.
    { intros e. eapply passes_bind; [apply passes_any|]. intros _ k _. by apply passes_ret. }
    intros [balance|]; [|apply Hagain]. destruct (Z.eqb_spec balance 1000000) as [->|]; [apply passes_ret; by left|].
    destruct (negb _); [apply passes_panic|apply Hagain].
  - intros u k3 H3. apply passes_ret. exists user. split; [done|]. apply andthen_intro; [done|].
    apply andthen_intro; [done|]. by rewrite app_nil_r.
Qed.

(** ** Cancelling, and delegate keys *)

Definition cancel_msg (id : Z) (own : CosmosAddress) : list Msg :=
  [mkMsg "/nab.v1.MsgCancelSendToEth" (CancelSendToEth {|
     mcs_transaction_id := id; mcs_sender := cosmos_address_to_string own |})].

(** When the cancellation test returns: a deposit was sent on towards Ethereum, the chain listed it as
    pending, its cancellation under that number was posted, and the chain lists nothing pending. *)
Theorem cancel_passed erc20 :
  passes (send_to_eth_and_cancel keys g erc20) (λ _ k, ∃ user amount pending tx cleared, user_made user ∧
    u256_sub one_eth 1500 = Done amount ∧
    head (qps_unbatched_transfers pending) = Some tx ∧ qps_unbatched_transfers cleared = [] ∧
    let own := cosmos_address_to_string (user_cosmos_address user) in
    let coin := mkCoin ("nab" +:+ address_to_string erc20) in
    (deposited g (user_cosmos_address user) erc20 one_eth ▷
     posted_as (user_cosmos_key user) (send_to_eth_msg (user_eth_address user) (coin amount) (coin 500)) ▷
     one (QPendingSendToEth own) (Ok pending) ▷ posted_as (user_cosmos_key user) (cancel_msg (ptx_id tx)) ▷
     one (QPendingSendToEth own) (Ok cleared)) k).
Proof.
  apply passes_with_orchestrators; [cbv zeta; steady|]. unfold cancel_test.
  eapply passes_then; [cbv zeta; steady|apply user_key_made|]. intros user Huser. cbv zeta.
  eapply passes_bind; [apply deposit_passed|]. intros u1 k1 H1.
  apply passes_pure_bind. intros amount Hamount.
  eapply passes_bind; [apply passes_unwrapped, passes_send_to_eth|]. intros x2 k2 H2.
  assert (∀ own V (f : QueryPendingSendToEthResponse → io V) (Q : V → log → Prop),
    (∀ p, passes (f p) (λ v k, Q v (mkEntry _ (QPendingSendToEth (cosmos_address_to_string own)) (Ok p) :: k))) →
    passes (ITree.bind (unwrapped (get_pending_send_to_eth own)) f) Q) as Hpending.
  { intros own V f Q H. eapply passes_bind with (Q1 := λ p k, k = [mkEntry _ (QPendingSendToEth (cosmos_address_to_string own)) (Ok p)]).
    - apply passes_unwrapped, passes_call_try; [|done]. intros p. apply passes_ret. by intros x [= <-].
    - intros p k ->. apply H. }
  apply Hpending. intros pending. apply passes_index. intros tx Htx.
  eapply passes_bind with (Q1 := λ _, posted_as (user_cosmos_key user) (cancel_msg (ptx_id tx))).
  { unfold cancel_send_to_eth. apply passes_unwrapped, passes_pure_bind. intros own Hown%unwrap_Done.
    eapply passes_mono; [apply passes_sign_and_send|]. intros r k H x E. exists own. split; [done|by apply (H x)]. }
  intros x3 k3 H3. apply Hpending. intros cleared. apply passes_rassert. intros Hc.
  exists user, amount, pending, tx, cleared. split_and!; [done|done| |by destruct (qps_unbatched_transfers cleared)|].
  { by destruct (qps_unbatched_transfers pending). }
  apply andthen_intro; [done|]. apply andthen_intro; [exact H2|]. apply andthen_one, andthen_intro; [done|].
  apply one_here.
Qed.

(** The chain knows the validator's keys, under each other. *)
Definition delegates_known (v : ValidatorKeys) : log → Prop := λ k, ∃ orch by_eth by_orch,
  let own := eth_key_to_address (eth_key v) in
  cosmos_key_to_address (orch_key v) ADDRESS_PREFIX = Ok orch ∧
  cosmos_address_parse (dke_orchestrator_address by_eth) = Ok orch ∧
  address_parse (dko_eth_address by_orch) = Ok own ∧
  (one (QDelegateKeyByEth (address_to_string own)) (Ok by_eth) ▷
   one (QDelegateKeyByOrchestrator (cosmos_address_to_string orch)) (Ok by_orch)) k.
Theorem orch_keys_passed : passes (Scenarios.orch_keys keys) (λ _, each keys delegates_known).
Proof.
  apply passes_for. intros v _ _. unfold check_delegates_of. apply passes_pure_bind. intros orch Horch%unwrap_Done.
  apply passes_must. intros by_eth. apply passes_pure_bind. intros orch' Ho%unwrap_Done.
  apply passes_rassert_bind. intros ->%bool_decide_eq_true. apply passes_must. intros by_orch.
  apply passes_pure_bind. intros own Hown%unwrap_Done. apply passes_rassert. intros ->%bool_decide_eq_true.
  exists orch, by_eth, by_orch. split_and!; [done..|]. apply andthen_one, one_here.
Qed.

(** ** The stress test's last check *)

(** A loop that keeps a fact about its state. *)
Lemma passes_fold {B V} (items : list B) (body : B → V → io V) s (I : V → Prop) :
  (∀ x s, x ∈ items → I s → passes (body x s) (λ s' _, I s')) → I s →
  passes (for_each items body s) (λ s' _, I s').
Proof.
  revert s. induction items as [|x items IH]; intros s Hb Hs; simpl; [by apply passes_ret|].
  eapply passes_bind; [apply Hb; [by left|done]|]. intros s' k1 H1.
  apply IH; [|done]. intros y s0 Hy. apply Hb. by right.
Qed.

(** The check can end only when it finds the one who cancelled, by comparing each user's destination
    with the canceller's sending address. *)
Lemma unfound users canceller tokens amount :
  (∀ u, u ∈ users → user_eth_dest_address u ≠ user_eth_address canceller) →
  passes (check_withdraws_from_ethereum users canceller tokens amount) (λ _ _, False).
Proof.
  intros Hne. apply passes_loop; [intros _; apply steady_pure|]. intros _.
  eapply passes_bind with (Q1 := λ st _, st.2 = false).
  - apply passes_fold; [|done]. intros u st Hu Hst. apply passes_fold; [|done]. intros token [good found] _ Hf.
    simpl in Hf. subst. unfold check_withdraw. eapply passes_bind; [apply passes_any|]. intros bal k _.
    destruct (negb _); [|by apply passes_ret].
    rewrite bool_decide_eq_false_2 by by apply Hne. by apply passes_ret.
  - intros [good found] k Hf. simpl in Hf. subst. rewrite andb_false_r.
    eapply passes_bind; [apply passes_any|]. intros _ k' _. by apply passes_ret.
Qed.

(** C26: The users of the tests were meant to have two Ethereum addresses, one to send from and one to
    receive at; as [get_user_key] makes them, both are the address of the first key. The stress test
    depends on it: were no user's destination the sending address of the user who cancels, then its
    last check, which looks for that address among the destinations, would never end but by its
    timeout, and the test could not pass, whatever the chain does. *)
Theorem stress_test_needs_one_address users canceller tokens amount :
  (∀ u, u ∈ users → user_eth_dest_address u ≠ user_eth_address canceller) →
  passes get_user_key (λ u _, user_eth_dest_address u = user_eth_address u) ∧
  passes (check_withdraws_from_ethereum users canceller tokens amount) (λ _ _, False).
Proof.
  intros Hne. split; [|by apply unfound]. eapply passes_mono; [apply user_key_made|]. by intros u k (_ & _ & H).
Qed.
End Shown.
