(* ===== verification/RelayerLive.v ===== *)
(** * The relayer makes progress

    Safety says what the relayer may send; here, what it does send: against nodes that answer, its
    work on batches ends without a panic, however the futures of the tokens interleave, and every
    batch that the chain lists, that enough of the current set has signed, that is new to the contract
    and has not timed out, has been sent. *)

From ITree Require Import ITree.
From S2P Require Import Prelude Bytes Proto External Float Instances Types Signatures Valset ValsetTheory.
From S2P Require Import Batches LogicCall EthEvents Messages Effects Queries Submit SubmitTheory Join.
From S2P Require Import Relayer RelayerSearch RelayerTheory RelayerRun.

Section Live.
Context `{X : Ext} `{XL : !ExtLaws X} `{BD : Build}.
Implicit Types (A : env) (l : log).

Context (key : EthPrivateKey) (g : EthAddress) (id : string) (wait : Duration) (config : RelayerConfig).
Context (Hmarket : batch_market_enabled config = false).
Context (current : Valset).
Abbreviation own := (eth_key_to_address key).
Context (Hencode : ∀ f ts, is_ok (encode_call f ts) = true).

(** What the chain lists, and its confirmations for a nonce and a token's text; for each token a
    nonce that the contract does not pass meanwhile, and a block number that is not passed. *)
Context (protos : list POutgoingTxBatch) (batches : list TransactionBatch).
Context (Hbatches : try_map batch_try_from protos = Done (Ok batches)).
Context (confirms_for : Z → string → list PMsgConfirmBatch).
Context (nonces : EthAddress → Z) (Hnonces : ∀ token, nonces token < U64_MAX).
Context (height : Z).

Definition raw_confirms (b : TransactionBatch) : list PMsgConfirmBatch :=
  confirms_for (batch_nonce b) (address_to_string (batch_token_contract b)).
(** The confirmations of a batch can be read, and its hash made; counting them does not panic (as an
    invalid one would make it). *)
Definition countable (b : TransactionBatch) : Prop := ∃ confirms hash r,
  try_map batch_confirm_try_from (raw_confirms b) = Done (Ok confirms) ∧
  encode_tx_batch_confirm_hashed id b = Done hash ∧ order_sigs current hash confirms = Done r.
Context (Hcountable : Forall countable batches).

(** Both nodes are up and answer; a gas estimate and price are such that their product is a [u128]. *)
Definition answering : env := λ R e,
  match e in callE R return R → Prop with
  | EthBlockNumber => λ r, ∃ h, r = Ok h ∧ h ≤ height
  | EthGetBalance _ | EthGetTransactionCount _ => λ r, is_ok r = true
  | EthGasPrice => λ r, ∃ p, r = Ok p ∧ 0 ≤ p < 2 ^ 63
  | EthEstimateGas _ => λ r, ∃ v, r = Ok v ∧ 0 ≤ v < 2 ^ 64
  | SimulateTransaction _ _ payload _ => λ r, ∃ val, r = Ok val ∧ length val = 32%nat ∧
      ∀ token, encode_call "lastBatchNonce(address)" [token_of_address token] = Ok payload → be val ≤ nonces token
  | SendTransaction _ _ _ _ _ _ => λ r, is_ok r = true
  | WaitForTransaction _ _ => λ r, is_ok r = true
  | QOutgoingTxBatches => λ r, r = Ok protos
  | QBatchConfirms nonce token => λ r, r = Ok (confirms_for nonce token)
  | _ => λ _, True
  end.

(** A batch that the contract would take, and its transaction. *)
Definition due (b : TransactionBatch) : Prop :=
  nonces (batch_token_contract b) < batch_nonce b ∧ height ≤ batch_timeout b ∧
  ∃ confirms hash sigs, try_map batch_confirm_try_from (raw_confirms b) = Done (Ok confirms) ∧
    encode_tx_batch_confirm_hashed id b = Done hash ∧ order_sigs current hash confirms = Done (Ok sigs).
Definition sent (b : TransactionBatch) l : Prop := ∃ confirms payload tx,
  try_map batch_confirm_try_from (raw_confirms b) = Done (Ok confirms) ∧
  encode_batch_payload current b confirms id = Done (Ok payload) ∧
  saw l (SendTransaction g payload 0 own key [OptGasPriceMultiplier f32_1_10]) (Ok tx).

Lemma sent_lasting b : lasting (sent b).
Proof. intros l l' H (cs & p & tx & H1 & H2 & Hs). exists cs, p, tx. split_and!; [done..|by apply H]. Qed.

(** ** The calls *)

Lemma read_nonce_lives token l :
  sat no_panic answering (get_tx_batch_nonce g token own) l (λ r l', l ⊆ l' ∧ ∃ n, r = Ok n ∧ n ≤ nonces token).
Proof using Hencode Hnonces XL.
  unfold get_tx_batch_nonce, read_nonce. specialize (Hencode "lastBatchNonce(address)" [token_of_address token]).
  destruct (encode_call _ _) as [payload|] eqn:E; [|done]. apply sat_pure_bind; [done|]. intros p [= <-].
  apply sat_call_try; [done| |by intros err (? & ? & _)]. intros val (val' & [= <-] & Hlen & Hv).
  specialize (Hv token E). specialize (Hnonces token). rewrite u256_word by done.
  pose proof (be_bound val). rewrite downcast_uint256_eq by lia. rewrite (proj2 (Z.ltb_lt _ _)) by lia.
  apply sat_pure_bind; [done|]. intros n [= <-]. apply sat_ret. split; [sub|]. by eexists.
Qed.

Definition moderate (cost : GasCost) : Prop := 0 ≤ cost_gas cost < 2 ^ 64 ∧ 0 ≤ cost_gas_price cost < 2 ^ 63.

Lemma estimate_lives payload p l : payload = Done (Ok p) →
  sat no_panic answering (estimate_cost payload g key) l (λ r l', l ⊆ l' ∧ ∃ cost, r = Ok cost ∧ moderate cost).
Proof using.
  intros ->. unfold estimate_cost. apply sat_call_try; [done| |done]. intros bal _.
  apply sat_call_try; [done| |done]. intros n _.
  apply sat_call_try; [done| |by intros err (? & ? & _)]. intros price (pr & [= <-] & Hprice).
  apply sat_pure_try; [done| |done]. intros d [= <-].
  apply sat_call_try; [done| |by intros err (? & ? & _)]. intros gas (v & [= <-] & Hgas).
  apply sat_ret. split; [sub|]. eexists. split; [done|]. by split.
Qed.

Lemma downcast_to_u128_ok z : 0 ≤ z < U128_MAX → downcast_to_u128 z = Done (Some z).
Proof using XL.
  intros Hz. unfold downcast_to_u128. rewrite (proj2 (Z.leb_gt _ _)) by lia.
  destruct (Z.eq_dec z 0) as [->|].
  - rewrite law_u256_to_bytes_be_zero, low_bytes_ok by (simpl; lia). done.
  - destruct (law_u256_to_bytes_be z 16) as [Hl Hb].
    { change (256 ^ Z.of_nat 16) with (2 ^ 128). unfold U128_MAX in Hz. lia. }
    rewrite low_bytes_ok by lia. by rewrite Hb.
Qed.

Lemma log_cost_ok cost : moderate cost → log_cost cost = Done tt.
Proof using XL.
  intros [Hg Hp]. unfold log_cost. destruct info_enabled; [|done]. unfold get_total.
  assert (0 ≤ cost_gas cost * cost_gas_price cost < U128_MAX) as Hb by (unfold U128_MAX; nia).
  rewrite law_u256_mul by (unfold U256_MAX, U128_MAX in *; nia). cbn [eval_bind].
  rewrite downcast_to_u128_ok by done. by rewrite downcast_to_u128_ok by by vm_compute.
Qed.

(** ** One batch *)

(** The batch with the confirmations that the chain has, and these suffice. *)
Definition signed (sb : SubmittableBatch) : Prop := ∃ hash sigs,
  try_map batch_confirm_try_from (raw_confirms (sb_batch sb)) = Done (Ok (sb_sigs sb)) ∧
  encode_tx_batch_confirm_hashed id (sb_batch sb) = Done hash ∧
  order_sigs current hash (sb_sigs sb) = Done (Ok sigs).

Lemma payload_made sb : signed sb →
  ∃ p, encode_batch_payload current (sb_batch sb) (sb_sigs sb) id = Done (Ok p).
Proof using Hencode.
  intros (hash & sigs & _ & Hh & Ho). unfold encode_batch_payload. rewrite Hh. cbn [eval_bind]. rewrite Ho. cbn [try_bind eval_bind].
  unfold encode_tx_batch_confirm_hashed, encode_tx_batch_confirm in Hh.
  destruct (get_checkpoint_values _) as [[[a d] f]|]; [|done]. cbn [eval_bind].
  match goal with |- context [encode_call ?f ?ts] => specialize (Hencode f ts); by destruct (encode_call f ts); [eexists|] end.
Qed.

Lemma send_batch_lives sb l : signed sb →
  sat no_panic answering (send_eth_transaction_batch current (sb_batch sb) (sb_sigs sb) wait g id key) l
    (λ _ l', l ⊆ l' ∧ (due (sb_batch sb) → sent (sb_batch sb) l')).
Proof using Hencode Hnonces XL.
  intros Hs. destruct (payload_made sb Hs) as [p Hp]. unfold send_eth_transaction_batch. rewrite Hp.
  eapply sat_run_try; [apply read_nonce_lives| |naive_solver]. intros n l1 (Hl1 & n' & [= <-] & Hn).
  apply sat_call_try; [done| |by intros err (? & ? & _)]. intros h (h' & [= <-] & Hh).
  assert (l ⊆ l1 ++ [mkEntry _ EthBlockNumber (Ok h)]) as Hl by sub.
  destruct (Z.leb_spec (batch_nonce (sb_batch sb)) n).
  { apply sat_ret. split; [done|]. intros (Hd & _). lia. }
  destruct (Z.ltb_spec (batch_timeout (sb_batch sb)) h).
  { apply sat_ret. split; [done|]. intros (_ & Hd & _). lia. }
  apply sat_pure_try; [done| |done]. intros p' [= <-].
  apply sat_call_try; [done| |done]. intros tx _.
  assert (∀ l', (l1 ++ [mkEntry _ EthBlockNumber (Ok h)]) ++ [mkEntry _
    (SendTransaction g p 0 own key [OptGasPriceMultiplier f32_1_10]) (Ok tx)] ⊆ l' → sent (sb_batch sb) l') as Hsent.
  { intros l' Hl'. exists (sb_sigs sb), p, tx. destruct Hs as (hash & sigs & Hc & _). split_and!; [done..|].
    apply Hl'. apply saw_snoc. }
  apply sat_call_try; [done| |done]. intros u _.
  eapply sat_run_try; [apply read_nonce_lives| |naive_solver]. intros m l2 [Hl2 _]. apply sat_ret.
  split; [|intros _; apply Hsent]; (etrans; [|exact Hl2]; sub).
Qed.

Lemma submit_batch_lives h n sb u l : signed sb → n ≤ nonces (batch_token_contract (sb_batch sb)) → h ≤ height →
  sat no_panic answering (submit_batch current key g id wait config h n sb u) l
    (λ _ l', l ⊆ l' ∧ (due (sb_batch sb) → sent (sb_batch sb) l')).
Proof using Hencode Hnonces XL Hmarket.
  intros Hs Hn Hh. unfold submit_batch.
  destruct (Z.ltb_spec (batch_timeout (sb_batch sb)) h).
  { apply sat_ret. split; [done|]. intros (_ & Hd & _). lia. }
  destruct (Z.ltb_spec n (batch_nonce (sb_batch sb))).
  2: { apply sat_ret. split; [done|]. intros (Hd & _). lia. }
  destruct (payload_made sb Hs) as [p Hp].
  eapply sat_run; [by eapply estimate_lives|]. intros r l1 (Hl1 & cost & -> & Hcost).
  rewrite log_cost_ok, Hmarket by done. apply sat_pure_bind; [done|]. intros _ _.
  eapply sat_run with (Q0 := λ r l', r = true ∧ l' = l1); [by apply sat_ret|]. intros b l2 [-> ->].
  eapply sat_run; [by apply send_batch_lives|]. intros _ l3 [Hl3 Hsent]. apply sat_ret. split; [by etrans|done].
Qed.

(** ** The batches *)

Lemma sort_batch_lives b m l : countable b →
  sat no_panic answering (sort_batch current id b m) l (λ _ _, True).
Proof using.
  intros (confirms & hash & r & Hc & Hh & Ho). unfold sort_batch, get_transaction_batch_signatures.
  eapply sat_run with (Q0 := λ r l', r = Ok confirms).
  - apply sat_call_try; [done| |done]. intros cs [= ->]. unfold raw_confirms in Hc. rewrite Hc. by apply sat_ret.
  - intros r' l' ->. rewrite Hh. apply sat_pure_bind; [done|]. intros h [= <-]. rewrite Ho.
    apply sat_pure_bind; [done|]. intros res _. destruct (is_ok res); by apply sat_ret.
Qed.

Lemma sorting_lives l : sat no_panic answering (get_batches_and_signatures current id) l (λ _ _, True).
Proof using Hbatches Hcountable.
  unfold get_batches_and_signatures, get_latest_transaction_batches.
  eapply sat_run with (Q0 := λ r l', r = Ok batches).
  - apply sat_call_try; [done| |done]. intros ps [= ->]. rewrite Hbatches. by apply sat_ret.
  - intros r l' ->. eapply sat_run; [|intros; by apply sat_ret].
    eapply sat_for with (Inv := λ _ _ _, True) (done := []) (items := batches); [|done|reflexivity].
    intros done b rest m l1 E _. apply sort_batch_lives. rewrite Forall_forall in Hcountable.
    apply Hcountable. rewrite E. apply elem_of_app. right. by left.
Qed.

(** What the sorting leaves to submit: every batch in its token's group, signed, and the due ones all. *)
Definition to_submit (m : gmap EthAddress (list SubmittableBatch)) : Prop :=
  (∀ token bs, m !! token = Some bs → Forall (λ sb, batch_token_contract (sb_batch sb) = token ∧ signed sb) bs) ∧
  ∀ b, b ∈ batches → due b → ∃ bs sb, m !! batch_token_contract b = Some bs ∧ sb ∈ bs ∧ sb_batch sb = b.

Lemma submittable_signed l sb : answered answering l → batch_submittable l current id sb → signed sb.
Proof.
  intros Ha (cs & hash & sigs & Hs & Hc & Hh & Ho). apply (answered_saw _ _ _ _ Ha) in Hs. injection Hs as ->.
  by exists hash, sigs.
Qed.
Lemma due_not_refused l b : answered answering l → due b → ¬ batch_refused l current id b.
Proof.
  intros Ha (_ & _ & confirms & hash & sigs & Hc & Hh & Ho).
  intros [(e & Hs)|(cs & Hs & Hr)]; apply (answered_saw _ _ _ _ Ha) in Hs; [done|]. injection Hs as ->.
  unfold raw_confirms in Hc. destruct Hr as [(e & Hr)|(confirms' & hash' & e & Hr & Hh' & Ho')]; [congruence|].
  rewrite Hc in Hr. injection Hr as <-. rewrite Hh in Hh'. injection Hh' as <-. congruence.
Qed.

Lemma sorted_to_submit l m : answered answering l → sorted_batches current id batches (reverse <$> m) l → to_submit m.
Proof.
  intros Ha [H1 H2]. split.
  - intros token bs Hm. destruct (H1 token (reverse bs)) as [Hsub Hok]; [by rewrite lookup_fmap, Hm|].
    rewrite Forall_reverse in Hok. rewrite Forall_forall in *. intros sb Hin.
    split; [|by eapply submittable_signed, Hok].
    assert (sb_batch sb ∈ filter (λ b, batch_token_contract b = token) batches) as Hb; [|by apply list_elem_of_filter in Hb as [? _]].
    eapply (sublist_subseteq _ _ Hsub). rewrite fmap_reverse. by apply elem_of_reverse, list_elem_of_fmap_2.
  - intros b Hin Hd. destruct (H2 b Hin) as [(bs & Hm & Hb)|Hr]; [|by destruct (due_not_refused _ _ Ha Hd)].
    rewrite lookup_fmap in Hm. destruct (m !! batch_token_contract b) as [bs'|]; [|done]. injection Hm as <-.
    rewrite fmap_reverse in Hb. apply elem_of_reverse, list_elem_of_fmap in Hb as (sb & -> & Hsb). by exists bs', sb.
Qed.

Lemma get_batches_lives l : answered answering l →
  sat no_panic answering (get_batches_and_signatures current id) l (λ m _, to_submit m).
Proof using Hbatches Hcountable.
  intros Ha. eapply sat_mono.
  { apply (sat_and_post _ (λ Y e l, True ∧ answered answering l)); [apply sorting_lives|].
    apply sat_answered; [done|]. apply (get_batches_spec (λ _ _ _, True)). by intros ?. }
  intros m l' (_ & (_ & Hm) & Ha'). destruct Hm as [(_ & r & e & Hs & He)|(ps & bs & Hs & Ht & Hm)];
    apply (answered_saw _ _ _ _ Ha') in Hs; simpl in Hs; subst.
  - specialize (He protos eq_refl). congruence.
  - injection Hs as ->. rewrite Hbatches in Ht. injection Ht as <-. by eapply sorted_to_submit.
Qed.

(** ** The tokens *)

(** One token's batches: the due ones are all sent. *)
Lemma submit_token_lives h token bs l : h ≤ height →
  Forall (λ sb, batch_token_contract (sb_batch sb) = token ∧ signed sb) bs →
  sat no_panic answering (submit_token_batches current key g id wait config h (token, bs)) l
    (λ _ l', Forall (λ sb, due (sb_batch sb) → sent (sb_batch sb) l') bs).
Proof using Hencode Hnonces XL Hmarket.
  intros Hh Hbs. unfold submit_token_batches.
  eapply sat_run; [apply read_nonce_lives|]. intros r l1 (_ & n & -> & Hn).
  apply (sat_for no_panic answering bs _ (λ ended _ l', Forall (λ sb, due (sb_batch sb) → sent (sb_batch sb) l') ended) []);
    [|done|done].
  intros ended sb rest u l2 E Hd. rewrite Forall_forall in Hbs. destruct (Hbs sb) as [Ht Hs].
  { rewrite E. apply elem_of_app. right. by left. }
  eapply sat_mono; [apply submit_batch_lives; [done|by rewrite Ht|done]|]. intros _ l3 [Hl3 Hsent].
  apply Forall_app. split; [|by apply Forall_singleton]. eapply Forall_impl; [exact Hd|].
  intros sb' H' Hd'. eapply sent_lasting; [exact Hl3|by apply H'].
Qed.

Lemma submit_batches_lives m l : to_submit m →
  sat no_panic answering (submit_batches current key g id wait m config) l
    (λ _ l', ∀ b, b ∈ batches ∧ due b → sent b l').
Proof using Hencode Hnonces XL Hmarket.
  intros [Hm1 Hm2]. unfold submit_batches. apply sat_call_bind; [done|]. intros r (h & -> & Hh).
  set (l1 := l ++ _). set (tasks := _ <$> _).
  assert (∀ token bs l0, m !! token = Some bs →
    sat no_panic answering (submit_token_batches current key g id wait config h (token, bs)) l0
      (λ _ l', Forall (λ sb, due (sb_batch sb) → sent (sb_batch sb) l') bs)) as Htok.
  { intros token bs l0 Hm. apply submit_token_lives; [done|by apply Hm1]. }
  assert (∀ Qs, Forall lasting Qs → Forall (λ Q : log → Prop, ∃ t, t ∈ tasks ∧ sat no_panic answering t l1 (λ _ l', Q l')) Qs →
    sat no_panic answering (concurrent 2 tasks) l1 (λ _ l', Forall (λ Q : log → Prop, Q l') Qs)) as Hall.
  { intros Qs HQs Hts. apply sat_concurrent_all; [apply no_panic_monotone|done|left; lia|done| |done].
    apply Forall_fmap, Forall_forall. intros [token bs] Hin. rewrite law_hash_order, elem_of_map_to_list in Hin.
    eapply sat_mono; [by apply Htok|done]. }
  assert (∀ b, b ∈ batches → due b → sat no_panic answering (concurrent 2 tasks) l1 (λ _ l', sent b l')) as Hone.
  { intros b Hin Hd. eapply sat_mono; [apply (Hall [sent b])|].
    - apply Forall_singleton. intros l0 l'. apply sent_lasting.
    - apply Forall_singleton. destruct (Hm2 b Hin Hd) as (bs & sb & Hb & Hsb & <-). eexists. split.
      + apply list_elem_of_fmap. exists (batch_token_contract (sb_batch sb), bs). split; [done|].
        by rewrite law_hash_order, elem_of_map_to_list.
      + eapply sat_mono; [by apply Htok|]. intros u l' H. cbv beta in H. rewrite Forall_forall in H. by apply H.
    - intros u l' H. by inversion H. }
  eapply sat_mono; [apply (sat_forall _ _ _ _ (λ (b : {b | b ∈ batches ∧ due b}) _ l', sent (proj1_sig b) l'))|].
  - eapply sat_mono; [by apply (Hall [])|done].
  - intros (b & Hin & Hd). by apply Hone.
  - intros u l' H b Hb. apply (H (exist _ b Hb)).
Qed.

(** C11: with the batch market off, [relay_batches] ends without a panic, whatever the order in which the
    futures of the tokens are polled, and has then sent every batch that the chain lists, that enough of
    the current set has signed, that is newer than the contract's last batch of its token and has not
    timed out: with the payload made of exactly the chain's confirmations. It is assumed that both nodes
    answer every query and take what is sent; that the listed batches can be read; that, for every
    listed batch, the confirmations can be read, the hash can be made and [order_sigs] does not panic on
    them (as it does on one with an invalid signature); that the ABI encoder never fails; that the
    contract's last nonce of each token stays at or below a given one, itself below 2^64-1, and the
    block number at or below a given height, which are the ones a batch is compared with; and that gas
    prices are below 2^63 and gas estimates below 2^64. (With [relayer_sends_guarded]: the relayer sends
    only what its guards allow.) *)
Theorem relayer_relays_due l : answered answering l →
  returns answering (relay_batches current key g id wait config) l
    (λ _ l', ∀ b, b ∈ batches ∧ due b → sent b l').
Proof using All.
  intros Ha. split; [|apply terminates_relay_batches]. unfold relay_batches.
  eapply sat_run; [by apply get_batches_lives|]. intros m l1. apply submit_batches_lives.
Qed.
End Live.

(** The sample batch is due, and sent. *)
Section LiveRun.
#[local] Existing Instance concrete_ext.
#[local] Existing Instance concrete_laws.
#[local] Existing Instance checked_build.

Definition market_off : RelayerConfig :=
  {| valset_market_enabled := false; batch_market_enabled := false; logic_call_market_enabled := false |}.
Definition sample_confirms : list PMsgConfirmBatch := [batch_confirm_of 2; batch_confirm_of 1].
Definition read_confirms : list BatchConfirmResponse :=
  match try_map batch_confirm_try_from sample_confirms with Done (Ok cs) => cs | _ => [] end.
Definition ordered_confirms : list _ :=
  match order_sigs found_valset sample_batch_hash read_confirms with Done (Ok sigs) => sigs | _ => [] end.

Lemma sample_read : try_map batch_confirm_try_from sample_confirms = Done (Ok read_confirms).
Proof. vm_refl. Qed.
Lemma sample_hashed : encode_tx_batch_confirm_hashed run_id sample_batch = Done sample_batch_hash.
Proof. vm_refl. Qed.
Lemma sample_ordered : order_sigs found_valset sample_batch_hash read_confirms = Done (Ok ordered_confirms).
Proof. vm_refl. Qed.
Lemma sample_listed : try_map batch_try_from [batch_into sample_batch] = Done (Ok [sample_batch]).
Proof. vm_refl. Qed.

Lemma relayer_relays_due_witness :
  due run_id found_valset (λ _ _, sample_confirms) (λ _, 1) 400 sample_batch ∧
  returns (answering [batch_into sample_batch] (λ _ _, sample_confirms) (λ _, 1) 400)
    (relay_batches found_valset (1 : EthPrivateKey) contract run_id 17 market_off) []
    (λ _ l', ∀ b, b ∈ [sample_batch] ∧ due run_id found_valset (λ _ _, sample_confirms) (λ _, 1) 400 b →
       sent (1 : EthPrivateKey) contract run_id found_valset (λ _ _, sample_confirms) b l').
Proof.
  split.
  - split_and!; [by vm_compute|by vm_compute|]. exists read_confirms, sample_batch_hash, ordered_confirms.
    split_and!; [apply sample_read|apply sample_hashed|apply sample_ordered].
  - apply relayer_relays_due.
    + done.
    + intros f ts. vm_refl.
    + apply sample_listed.
    + intros token. by vm_compute.
    + apply Forall_singleton. exists read_confirms, sample_batch_hash, (Ok ordered_confirms).
      split_and!; [apply sample_read|apply sample_hashed|apply sample_ordered].
    + apply Forall_nil_2.
Defined.
End LiveRun.
