(* ===== verification/SignerLive.v ===== *)
(** * The signer makes progress

    Safety says what the signer may confirm; here, what it does: against nodes that answer, a round
    of the signer ends without a panic, and everything the chain reported as unsigned has been
    confirmed, in three transactions at most. *)

From ITree Require Import ITree.
From S2P Require Import Prelude Bytes Proto External Float Instances Types Signatures Valset ValsetTheory.
From S2P Require Import Batches LogicCall EthEvents Messages Effects CosmosSend Queries Submit SubmitTheory.
From S2P Require Import CosmosTheory Join Relayer RelayerSearch RelayerTheory Oracle OracleTheory Orchestrator OrchestratorTheory.
From S2P Require Import RelayerRun OrchestratorRun.

Section Live.
Context `{X : Ext} `{BD : Build}.
Implicit Types (A : env) (l : log).

Context (prefix : string) (cosmos_key : CosmosPrivateKey) (ethereum_key : EthPrivateKey) (fee : Coin).
Context (own : CosmosAddress) (text gid : string).
Context (Hown : cosmos_key_to_address cosmos_key prefix = Ok own).
Context (Htext : cosmos_address_to_bech32 own prefix = Ok text).
Context (Hsign : ∀ msgs args, is_ok (sign_std_msg cosmos_key msgs args MEMO) = true).

(** What the chain has for this orchestrator to sign: as it reports it, and as it reads. *)
Context (valset_protos : list PValset) (valsets : list Valset).
Context (Hvalsets : eval_map valset_from_proto valset_protos = Done valsets).
Context (batch_proto : option POutgoingTxBatch) (batch : option (TransactionBatch * Msg)).
Context (Hbatch : match batch_proto, batch with
  | None, None => True
  | Some p, Some (b, m) => batch_try_from p = Done (Ok b) ∧ batch_confirm_msg own ethereum_key gid b = Done m
  | _, _ => False end).
Context (call_proto : option POutgoingLogicCall) (logic_call : option LogicCall).
Context (Hcall : match call_proto, logic_call with
  | None, None => True
  | Some p, Some c => logic_call_try_from p = Done (Ok c)
  | _, _ => False end).

(** Both nodes are up, report that, and take what is posted. *)
Definition answering : env := λ R e,
  match e in callE R return R → Prop with
  | EthBlockNumber => λ r, is_ok r = true
  | ContactGetChainStatus => λ r, ∃ h, r = Ok (Moving h)
  | QLastPendingValsetRequests _ => λ r, r = Ok valset_protos
  | QLastPendingBatch _ => λ r, r = Ok batch_proto
  | QLastPendingLogicCall _ => λ r, r = Ok call_proto
  | ContactGetMessageArgs _ _ => λ r, is_ok r = true
  | ContactSendTransaction _ => λ r, is_ok r = true
  | ContactWaitForTx _ _ => λ r, is_ok r = true
  | _ => λ _, True
  end.

(** The confirmations due: a transaction of messages for each kind of object there is. *)
Definition due_valsets : list (list Msg) :=
  match valsets with [] => [] | _ => [valset_confirm_msg own ethereum_key gid <$> valsets] end.
Definition due_batch : list (list Msg) := match batch with None => [] | Some (_, m) => [[m]] end.
Definition due_call : list (list Msg) :=
  match logic_call with None => [] | Some c => [[logic_call_confirm_msg own ethereum_key gid c]] end.

(** Each of them was posted, signed, in order, and nothing else. *)
Definition posted (due : list (list Msg)) l l' : Prop :=
  l ⊆ l' ∧ ∃ ms, posts l' = posts l ++ ms ∧
    Forall2 (λ msgs m, signed_as cosmos_key own msgs (one_coin_fee fee 500000000) m l') due ms.
Definition confirms (t : io (result unit GravityError)) (due : list (list Msg)) : Prop :=
  ∀ l, returns answering t l (λ r l', r = Ok tt ∧ posted due l l').

Lemma posted_nil l l' : l ⊆ l' → posts l' = posts l → posted [] l l'.
Proof. intros H Hp. split; [done|]. exists []. by rewrite app_nil_r. Qed.

Lemma posted_app d1 d2 l l1 l2 : posted d1 l l1 → posted d2 l1 l2 → posted (d1 ++ d2) l l2.
Proof.
  intros (H1 & m1 & E1 & F1) (H2 & m2 & E2 & F2). split; [by etrans|]. exists (m1 ++ m2).
  split; [by rewrite E2, E1, app_assoc|]. apply Forall2_app; [|done].
  eapply Forall2_impl; [exact F1|]. intros ms m. by apply signed_as_sub.
Qed.

Lemma confirms_try t u d1 d2 :
  confirms t d1 → confirms u d2 → confirms (let*? _ := t via id in u) (d1 ++ d2).
Proof.
  intros Ht Hu l. destruct (Ht l) as [Hs Hd]. split.
  - eapply sat_run_try; [exact Hs| |by intros e l1 [? _]]. intros [] l1 [_ H1].
    eapply sat_mono; [apply Hu|]. intros r l2 [-> H2]. split; [done|]. by eapply posted_app.
  - apply terminates_try; [done|]. intros _. apply (Hu l).
Qed.

(** Signing and sending succeeds, with any node that takes what is posted. *)
Definition takes_posts A : Prop :=
  (∀ own text r, A _ (ContactGetMessageArgs own text) r → is_ok r = true) ∧
  (∀ m r, A _ (ContactSendTransaction m) r → is_ok r = true) ∧
  (∀ tx d r, A _ (ContactWaitForTx tx d) r → is_ok r = true).
Lemma send_lives A msgs l : takes_posts A →
  sat no_panic A (sign_and_send own cosmos_key msgs (one_coin_fee fee 500000000) (Some TIMEOUT)) l
    (λ r l', is_ok r = true ∧ posted [msgs] l l').
Proof using Hsign.
  intros (Hargs & Hsend & Hwait). unfold sign_and_send.
  apply sat_call_try; [done| |by intros err ?%Hargs]. intros args _.
  apply sat_ret_try; [|intros err E; specialize (Hsign msgs args); by rewrite E in Hsign].
  intros msg Hmsg. apply sat_call_try; [done| |by intros err ?%Hsend]. intros response _.
  apply sat_call; [done|]. intros r Hr%Hwait. split; [done|]. split; [sub|]. exists [msg]. split.
  - by rewrite posts_snoc, posts_post, posts_snoc by done.
  - constructor; [|done]. exists args. split; [solve_saw|done].
Qed.

Lemma check_after_send msgs (t : io (result TxResponse CosmosGrpcError)) l :
  sat no_panic answering t l (λ r l', is_ok r = true ∧ posted [msgs] l l') →
  sat no_panic answering (let* res := t in Ret (check_for_fee_error res fee)) l
    (λ r l', r = Ok tt ∧ posted [msgs] l l').
Proof.
  intros H. eapply sat_run; [exact H|]. intros [res|] l' [Hok Hp]; [|done]. by apply sat_ret.
Qed.

Lemma sign_valsets_confirms :
  confirms (sign_valsets prefix cosmos_key ethereum_key fee gid own) due_valsets.
Proof using Hown Htext Hsign Hvalsets.
  intros l. unfold sign_valsets, get_oldest_unsigned_valsets, send_valset_confirms. split.
  2: { unfold sign_and_send. terminates_tac. }
  rewrite Htext, Hown. cbn [unwrap].
  eapply sat_run with (Q0 := λ r l', r = Ok valsets ∧ posted [] l l').
  - apply sat_pure_bind; [done|]. intros t [= <-]. apply sat_call_try; [done| |done].
    intros ps [= ->]. rewrite Hvalsets. apply sat_pure_bind; [done|]. intros vs [= <-]. apply sat_ret.
    split; [done|]. apply posted_nil; [sub|by apply posts_snoc].
  - intros r l1 [-> Hp1]. unfold due_valsets. destruct valsets as [|v vs]; [by apply sat_ret|].
    eapply sat_mono; [apply check_after_send|].
    + apply sat_pure_bind; [done|]. intros a [= <-]. by apply send_lives.
    + intros r l2 [-> Hp2]. split; [done|]. by apply (posted_app [] _ _ _ _ Hp1).
Qed.

Lemma sign_batch_confirms :
  confirms (sign_batch prefix cosmos_key ethereum_key fee gid own) due_batch.
Proof using Hown Htext Hsign Hbatch.
  intros l. unfold sign_batch, get_oldest_unsigned_transaction_batch, send_batch_confirm. split.
  2: { unfold sign_and_send. terminates_tac. }
  rewrite Htext, Hown. cbn [unwrap].
  eapply sat_run with (Q0 := λ r l', r = Ok (fst <$> batch) ∧ posted [] l l').
  - apply sat_pure_bind; [done|]. intros t [= <-]. apply sat_call_try; [done| |done].
    intros p [= ->]. assert (posted [] l (l ++ [mkEntry _ (QLastPendingBatch text) (Ok batch_proto)])) as Hp.
    { apply posted_nil; [sub|by apply posts_snoc]. }
    destruct batch_proto as [p|], batch as [[b m]|]; try done; [|by apply sat_ret].
    destruct Hbatch as [Hb _]. rewrite Hb. by apply sat_pure; [|intros r [= <-]].
  - intros r l1 [-> Hp1]. unfold due_batch. destruct batch_proto as [p|], batch as [[b m]|]; try done; [|by apply sat_ret].
    destruct Hbatch as [_ Hm]. cbn [fmap option_fmap option_map fst].
    eapply sat_mono; [apply (check_after_send [m])|].
    + apply sat_pure_bind; [done|]. intros a [= <-]. cbn [eval_map]. rewrite Hm.
      apply sat_pure_bind; [done|]. intros ms [= <-]. by apply send_lives.
    + intros r l2 [-> Hp2]. split; [done|]. by apply (posted_app [] _ _ _ _ Hp1).
Qed.

Lemma sign_logic_call_confirms :
  confirms (sign_logic_call prefix cosmos_key ethereum_key fee gid own) due_call.
Proof using Hown Htext Hsign Hcall.
  intros l. unfold sign_logic_call, get_oldest_unsigned_logic_call, send_logic_call_confirm. split.
  2: { unfold sign_and_send. terminates_tac. }
  rewrite Htext, Hown. cbn [unwrap].
  eapply sat_run with (Q0 := λ r l', r = Ok logic_call ∧ posted [] l l').
  - apply sat_pure_bind; [done|]. intros t [= <-]. apply sat_call_try; [done| |done].
    intros p [= ->]. assert (posted [] l (l ++ [mkEntry _ (QLastPendingLogicCall text) (Ok call_proto)])) as Hp.
    { apply posted_nil; [sub|by apply posts_snoc]. }
    destruct call_proto as [p|], logic_call as [c|]; try done; [|by apply sat_ret].
    rewrite Hcall. by apply sat_pure; [|intros r [= <-]].
  - intros r l1 [-> Hp1]. unfold due_call. destruct logic_call as [c|]; [|by apply sat_ret].
    eapply sat_mono; [apply (check_after_send [logic_call_confirm_msg own ethereum_key gid c])|].
    + apply sat_pure_bind; [done|]. intros a [= <-]. by apply send_lives.
    + intros r l2 [-> Hp2]. split; [done|]. by apply (posted_app [] _ _ _ _ Hp1).
Qed.

End Live.

Section LiveRun.
#[local] Existing Instance concrete_ext.
#[local] Existing Instance concrete_laws.
#[local] Existing Instance checked_build.

Definition signer_key : @CosmosPrivateKey concrete_ext := 1.
Definition confirm_key : @EthPrivateKey concrete_ext := 1.
Definition sample_batch_msg : Msg :=
  match batch_confirm_msg (cosmos 1) confirm_key run_id sample_batch with Done m => m | Panic _ => mkMsg "" (RequestBatch {| mrb_sender := ""; mrb_denom := "" |}) end.

End LiveRun.
