(* ===== verification/NabtRun.v ===== *)
(** * The command line tool, run

    A url parser, a key file format and two nodes small enough to execute: the hypotheses of
    ConfigTheory.v can be met, and the commands do what their theorems constrain. *)

From ITree Require Import ITree.
From S2P Require Import Prelude Bytes Proto External Float Instances Types Signatures Valset.
From S2P Require Import ValsetTheory Batches LogicCall EthEvents EthEventsTheory Messages.
From S2P Require Import Effects Host Config ConfigTheory CosmosSend Queries Connection Args Submit SubmitTheory.
From S2P Require Import Client Join ConnectionTheory CosmosTheory Relayer RelayerSearch RelayerTheory RelayerRun Oracle.
From S2P Require Import Orchestrator Nabt OracleTheory OrchestratorTheory OrchestratorRun NabtTheory ClientTheory.
From Stdlib Require Import Strings.Ascii.

Section Tools.
#[local] Existing Instance concrete_ext.
#[local] Existing Instance concrete_laws.
#[local] Existing Instance checked_build.

(** ** A format for the key file: the binary digits of an encoding *)

Fixpoint pos_string (p : positive) : string :=
  match p with
  | xH => ""
  | xO p => String "0"%char (pos_string p)
  | xI p => String "1"%char (pos_string p)
  end.
Fixpoint string_pos (s : string) : option positive :=
  match s with
  | EmptyString => Some xH
  | String c s =>
      match string_pos s with
      | Some p => if Ascii.eqb c "0"%char then Some (xO p) else if Ascii.eqb c "1"%char then Some (xI p) else None
      | None => None
      end
  end.
Lemma string_pos_string p : string_pos (pos_string p) = Some p.
Proof. induction p as [p IH|p IH|]; simpl; rewrite ?IH; done. Qed.

Definition print_keys (k : KeyStorage) : result string string :=
  Ok (pos_string (encode (orchestrator_phrase k, (ethereum_key k : option Z)))).
Definition parse_keys (s : string) : result KeyStorage string :=
  match string_pos s with
  | Some p => match decode p with
              | Some (phrase, key) => Ok (mkKeyStorage phrase (key : option Z))
              | None => Err "invalid keys"
              end
  | None => Err "not a number"
  end.
Lemma parse_print_keys k s : print_keys k = Ok s → parse_keys s = Ok k.
Proof.
  intros [= <-]. unfold parse_keys. rewrite string_pos_string.
  change (decode (encode (orchestrator_phrase k, (ethereum_key k : option Z)))) with
    (decode (A := option string * option Z) (encode (orchestrator_phrase k, (ethereum_key k : option Z)))).
  rewrite decode_encode. by destruct k.
Qed.

(** ** Urls *)

Record url := mkUrl { u_scheme : string; u_host : string; u_port : option Z }.
Definition cut (sep s : string) : option (string * string) :=
  match String.index 0 sep s with
  | Some n => Some (String.substring 0 n s, String.substring (n + String.length sep) (String.length s) s)
  | None => None
  end.
Definition parse_url (s : string) : result url string :=
  match cut "://" s with
  | None => Err "relative URL without a base"
  | Some (scheme, rest) =>
      let authority := match cut "/" rest with Some (a, _) => a | None => rest end in
      match cut ":" authority with
      | None => Ok (mkUrl scheme authority None)
      | Some (host, port) =>
          match parse_uint 65535 port with
          | Ok p =>
              let usual := if String.eqb scheme "https" then 443 else 80 in
              Ok (mkUrl scheme host (if p =? usual then None else Some p))
          | Err _ => Err "invalid port number"
          end
      end
  end.

#[local] Instance concrete_tools : @Tools concrete_ext := {|
  Url := url;
  url_parse := parse_url;
  url_scheme := u_scheme;
  url_port := u_port;
  url_host_str u := Some (u_host u);
  contact_new_ok _ _ _ := true;
  cosmos_key_from_phrase phrase _ := if String.eqb phrase "" then Err "empty" else Ok (Z.of_nat (String.length phrase));
  eth_key_from_slice b := Ok (be b);
  toml_parse_config s := if String.eqb s get_default_config then Ok tools_config_default else Err "invalid";
  toml_parse_keys := parse_keys;
  toml_print_keys := print_keys;
  default_home := Some ["home"];
|}.
#[local] Instance concrete_tools_laws : ToolsLaws concrete_tools.
Proof. constructor. exact parse_print_keys. Qed.

(** ** Files *)

Definition home : PathBuf := ["home"; ".nabt"].
Definition empty_disk : disk := mkDisk {[ []; ["home"] ]} ∅.
Lemma empty_disk_wf : disk_wf empty_disk.
Proof.
  intros p. unfold empty_disk. cbn [dirs]. rewrite elem_of_union, !elem_of_singleton.
  intros [-> | ->]; set_solver.
Qed.
Definition no_keys_text : string := match print_keys key_storage_default with Ok s => s | Err _ => "" end.

Lemma init_sets_up_witness :
  path_exists empty_disk home = false ∧ ∃ d', init_config home empty_disk = (Done (Ok tt), d') ∧
    config_exists home d' = true ∧ load_keys home d' = Done (Ok key_storage_default).
Proof.
  split; [vm_refl|].
  destruct (init_sets_up home empty_disk no_keys_text empty_disk_wf ltac:(vm_refl)) as (d' & H1 & H2 & H3 & _);
    [vm_compute; set_solver|].
  exists d'. auto.
Defined.

(** Set up; then with an Ethereum key; then with a phrase too. *)
Definition five : @EthPrivateKey concrete_ext := 5.
Definition fresh_disk : disk := (init_config home empty_disk).2.
Definition keyed_disk : disk := (set_eth_key home five fresh_disk).2.
Definition phrased_disk : disk := (set_orchestrator_key home "words" keyed_disk).2.

Lemma set_keys_loads_witness :
  load_keys home keyed_disk = Done (Ok (mkKeyStorage None (Some five))) ∧
  updates home keyed_disk phrased_disk (Done (Ok tt)) (λ keys, mkKeyStorage (Some "words") (ethereum_key keys)) ∧
  updates home fresh_disk keyed_disk (Done (Ok tt))
    (λ keys, mkKeyStorage (orchestrator_phrase keys) (Some five)).
Proof.
  split; [vm_refl|]. split.
  - apply (proj2 (set_keys_loads home keyed_disk phrased_disk (Done (Ok tt))) "words"). vm_refl.
  - apply (proj1 (set_keys_loads home fresh_disk keyed_disk (Done (Ok tt))) five). vm_refl.
Defined.
Example keys_accumulate :
  load_keys home phrased_disk = Done (Ok (mkKeyStorage (Some "words") (Some five))) ∧
  (set_orchestrator_key home "" keyed_disk).1 = Done (Err (UnrecoverableError "Invalid Cosmos mnemonic phrase {} {:?}")) ∧
  (init_config home phrased_disk).1 = Done (Err (ValidationError "Directory already exists")).
Proof. split; [vm_refl|split; vm_refl]. Qed.

(** ** The nodes, with a disk

    The gRPC server listens on the IPv4 address only; the account is the delegate of one validator;
    [refuse] posts of the next ones are refused. *)

Record machine := mkMachine { m_disk : disk; m_world : world; m_refuse : nat }.

Definition tool_nodes : handler (W := machine) := λ R e w,
  match e in callE R return option (R * machine) with
  | DiskRead => Some (m_disk w, w)
  | DiskWrite d => Some (tt, mkMachine d (m_world w) (m_refuse w))
  | GrpcConnect u => Some (if String.eqb u "http://127.0.0.1:9090" then Ok tt else Err "refused", w)
  | Web3TryBlockNumber u => Some (if String.eqb u "https://node:443" then Ok 400 else Err "refused", w)
  | ContactGetBalances _ => Some (Ok [{| denom := "ufootoken"; amount := 500 |}; {| denom := "footoken"; amount := 100 |};
                                      {| denom := "stake"; amount := 100 |}], w)
  | QDenomToErc20 d => Some (if String.eqb d "footoken" then Ok (mkQueryDenomToErc20Response "erc20" true) else Err "none", w)
  | QDelegateKeyByEth _ =>
      Some (Ok (mkQueryDelegateKeysByEthAddressResponse "validator" (cosmos_address_to_string (cosmos 5))), w)
  | QDelegateKeyByOrchestrator _ =>
      Some (Ok (mkQueryDelegateKeysByOrchestratorAddressResponse "validator" (address_to_string (eth 5))), w)
  | GetErc20Decimals _ _ => Some (Ok 6, w)
  | GetErc20Balance _ _ => Some (Ok 1000000, w)
  | CheckErc20Approved _ _ _ => Some (Ok true, w)
  | Now => Some (0, w)
  | GeneratePhrase _ => Some ("new phrase", w)
  | RandomBytes n => Some (be_split n 7, w)
  | ContactSendTransaction msg =>
      match m_refuse w with
      | S n => Some (Err (OtherGrpcError ("refused" : GrpcOther)), mkMachine (m_disk w) (m_world w) n)
      | O => match nodes _ (ContactSendTransaction msg) (m_world w) with
             | Some (x, w') => Some (x, mkMachine (m_disk w) w' 0)
             | None => None
             end
      end
  | e => match nodes _ e (m_world w) with
         | Some (x, w') => Some (x, mkMachine (m_disk w) w' (m_refuse w))
         | None => None
         end
  end.

Definition start (d : disk) (refuse : nat) : machine := mkMachine d fresh_world refuse.
Definition grpc : string := "http://localhost:9090/".
Definition ethereum : string := "http://node".

(** The orchestrator's command, with the keys on the disk: its loops run, and post. *)
Definition orchestrator_args (fee : Coin) : OrchestratorOpts :=
  mkOrchestratorOpts None None grpc ethereum fee (Some contract) (Some 1).
Definition orchestrator_run (fee : Coin) (d : disk) : outcome (result unit GravityError) * log :=
  run tool_nodes 500 (orchestrator (orchestrator_args fee) "cosmos" home run_tools_config) (start d 0) [].
Definition five_words : disk := (set_orchestrator_key home "words" keyed_disk).2.
Example orchestrator_command_acts :
  posts (orchestrator_run user_fee five_words).2 ≠ [] ∧ posts (orchestrator_run user_fee keyed_disk).2 = [] ∧
  (orchestrator_run user_fee keyed_disk).1 = Returned (Err (UnrecoverableError "Cosmos key phrase not specified")).
Proof. split; [vm_compute; discriminate|split; vm_refl]. Qed.

Lemma orchestrator_starts_checked_witness : ∃ x,
  (orchestrator_run user_fee five_words).2 !! 113%nat = Some x ∧ is_spend x = true ∧
  orchestrator_command_spec (orchestrator_args user_fee) "cosmos" home run_tools_config _ (ent_call x)
    (take 113 (orchestrator_run user_fee five_words).2).
Proof.
  apply (run_sat_picked tool_nodes _ any_env _ _ _ _ _ is_spend (λ _ _ _ _ _ _, I)
    (orchestrator_starts_checked (orchestrator_args user_fee) "cosmos" home run_tools_config)). vm_refl.
Defined.

(** A fee in a coin that the account does not have passes, if the name of another contains its name. *)
Example fee_of_another_coin :
  fee_in {| denom := "oto"; amount := 500 |} [{| denom := "ufootoken"; amount := 500 |}] = Ok tt ∧
  posts (orchestrator_run {| denom := "oto"; amount := 500 |} five_words).2 ≠ [].
Proof. split; [vm_refl|vm_compute; discriminate]. Qed.

(** The fallbacks taken: the IPv4 address of the Cosmos node, https on 443 of the Ethereum node. *)
Example connections_found :
  (run tool_nodes 50 (create_rpc_connections "cosmos" (Some grpc) (Some ethereum) 60) (start keyed_disk 0) []).1 =
  Returned (mkConnections (Some (mkWeb3 "https://node:443" 60)) (Some "http://127.0.0.1:9090")
              (Some (mkContact "http://127.0.0.1:9090" 60 "cosmos"))).
Proof. vm_refl. Qed.

(** Registering: a generated phrase and key, saved; and a refused registration, not saved. *)
Definition register_args (no_save : bool) : RegisterOrchestratorAddressOpts :=
  mkRegisterOrchestratorAddressOpts (3 : @CosmosPrivateKey concrete_ext) None None grpc user_fee no_save.
Definition register_run (no_save : bool) (refuse : nat) : outcome (result unit GravityError) * log :=
  run tool_nodes 100 (register_orchestrator_address (register_args no_save) "cosmos" home) (start fresh_disk refuse) [].
Definition last_written (l : log) : option disk :=
  last (omap (λ x, match ent_call x with DiskWrite d => Some d | _ => None end) l).
Example register_saves :
  (register_run false 0).1 = Returned (Ok tt) ∧
  (load_keys home <$> last_written (register_run false 0).2) =
    Some (Done (Ok (mkKeyStorage (Some "new phrase") (Some (7 : @EthPrivateKey concrete_ext))))) ∧
  last_written (register_run true 0).2 = None ∧ last_written (register_run false 1).2 = None.
Proof. split_and!; vm_refl. Qed.

(** A transfer that the chain refuses: the batch is requested all the same, and the command succeeds. *)
Definition transfer_args : CosmosToEthOpts :=
  mkCosmosToEthOpts (1 : @CosmosPrivateKey concrete_ext) grpc {| denom := "footoken"; amount := 50 |} user_fee (eth 9) false.
Definition transfer_run (refuse : nat) : outcome (result unit GravityError) * log :=
  run tool_nodes 100 (cosmos_to_eth transfer_args "cosmos") (start fresh_disk refuse) [].
Example refused_transfer_succeeds :
  (transfer_run 1).1 = Returned (Ok tt) ∧ length (posts (transfer_run 1).2) = 2%nat.
Proof. split; vm_refl. Qed.

(** A deposit of 0.47. *)
Definition deposit_args : EthToCosmosOpts :=
  mkEthToCosmosOpts (1 : @EthPrivateKey concrete_ext) ethereum contract (eth 5) (fin 8466767299456532 (-54)) (cosmos 8).
Example deposit_sent :
  length (sends (run tool_nodes 100 (eth_to_cosmos deposit_args "cosmos") (start fresh_disk 0) []).2) = 1%nat.
Proof. vm_refl. Qed.

(** Deploying a token, until the chain adopts it; and not again. *)
Definition deploy_args (d : string) : DeployErc20RepresentationOpts :=
  mkDeployErc20RepresentationOpts grpc ethereum d (1 : @EthPrivateKey concrete_ext) (Some contract) "foo" "FOO" 6.
Definition deploy_run (d : string) : outcome (result unit GravityError) * log :=
  run tool_nodes 100 (deploy_erc20_representation (deploy_args d) "cosmos") (start fresh_disk 0) [].
Example deploys_once :
  length (sends (deploy_run "bar").2) = 1%nat ∧
  (deploy_run "footoken").1 = Returned (Err (UnrecoverableError "Asset {} already has ERC20 representation {}")) ∧
  sends (deploy_run "footoken").2 = [].
Proof. split; [vm_refl|split; vm_refl]. Qed.
End Tools.
