(* ===== verification/EventFlow.v ===== *)
(** * From the contract to the chain

    The logs a node gives of the events of Contract.v, and what the oracle and the relayer make of
    them: the oracle claims the contract's events one by one, from the first its chain has not seen,
    none left out; and the relayer finds the validator set the contract stores. *)

From ITree Require Import ITree.
From S2P Require Import Prelude Bytes Proto External Evm Float Instances Contract ContractTheory.
From S2P Require Import Types Signatures Valset ValsetTheory Batches LogicCall EthEvents EthEventsTheory.
From S2P Require Import Messages Acceptance Effects CosmosSend Queries Submit SubmitTheory CosmosTheory.
From S2P Require Import Join Relayer RelayerSearch RelayerTheory Oracle Orchestrator OracleTheory.
From Stdlib Require Import Sorted Strings.Byte.

(** An event, and the block it was emitted in. *)
Abbreviation dated := (GravityEvent * Z)%type (only parsing).

(** ** The logs of the contract's events *)

Section Logs.
Context `{X : Ext} `{VM : !Evm}.

Definition signature_of (e : GravityEvent) : string :=
  match e with
  | Contract.TransactionBatchExecutedEvent _ _ _ => TRANSACTION_BATCH_EXECUTED_EVENT_SIG
  | Contract.SendToCosmosEvent _ _ _ _ _ => SENT_TO_COSMOS_EVENT_SIG
  | Contract.ERC20DeployedEvent _ _ _ _ _ _ => ERC20_DEPLOYED_EVENT_SIG
  | Contract.ValsetUpdatedEvent _ _ _ _ _ _ => VALSET_UPDATED_EVENT_SIG
  | Contract.LogicCallEvent _ _ _ _ => LOGIC_CALL_EVENT_SIG
  end.

(** The event as the Rust code decodes it; the destination's upper 12 bytes are not read. *)
Definition as_withdraw (d : dated) : option EthEvents.TransactionBatchExecutedEvent :=
  match d.1 with
  | Contract.TransactionBatchExecutedEvent batch_nonce token nonce => Some {|
      tbe_batch_nonce := batch_nonce; tbe_block_height := d.2; tbe_erc20 := token; tbe_event_nonce := nonce |}
  | _ => None
  end.
Definition as_deposit (d : dated) : option EthEvents.SendToCosmosEvent :=
  match d.1 with
  | Contract.SendToCosmosEvent token sender destination amount nonce =>
      match cosmos_address_from_bytes (be_split 20 destination) COSMOS_DEFAULT_PREFIX with
      | Ok destination => Some {|
          stc_erc20 := token; stc_sender := sender; stc_destination := destination; stc_amount := amount;
          stc_event_nonce := nonce; stc_block_height := d.2 |}
      | Err _ => None
      end
  | _ => None
  end.
Definition as_deploy (d : dated) : option Erc20DeployedEvent :=
  match d.1 with
  | Contract.ERC20DeployedEvent denom token name symbol decimals nonce => Some {|
      ede_cosmos_denom := denom; ede_erc20_address := token; ede_name := name; ede_symbol := symbol;
      ede_decimals := decimals; ede_event_nonce := nonce; ede_block_height := d.2 |}
  | _ => None
  end.
Definition token_option (a : EthAddress) : option EthAddress := if decide (a = ZERO_ADDRESS) then None else Some a.
Definition as_valset (d : dated) : option EthEvents.ValsetUpdatedEvent :=
  match d.1 with
  | Contract.ValsetUpdatedEvent valset_nonce nonce amount token validators powers => Some {|
      vue_valset_nonce := valset_nonce; vue_event_nonce := nonce; vue_block_height := d.2;
      vue_reward_amount := amount; vue_reward_token := token_option token;
      vue_members := as_members (zip powers validators) |}
  | _ => None
  end.

(** The topics after the signature's hash, and the data, as the ABI encodes them. *)
Definition event_topics (e : GravityEvent) : list bytes :=
  match e with
  | Contract.TransactionBatchExecutedEvent batch_nonce token _ => [word batch_nonce; addr_word token]
  | Contract.SendToCosmosEvent token sender destination _ _ => [addr_word token; addr_word sender; word destination]
  | Contract.ERC20DeployedEvent _ token _ _ _ _ => [addr_word token]
  | Contract.ValsetUpdatedEvent valset_nonce _ _ _ _ _ => [word valset_nonce]
  | Contract.LogicCallEvent _ _ _ _ => []
  end.
Definition event_data (e : GravityEvent) : bytes :=
  match e with
  | Contract.TransactionBatchExecutedEvent _ _ nonce => word nonce
  | Contract.SendToCosmosEvent _ _ _ amount nonce => word amount ++ word nonce
  | Contract.ERC20DeployedEvent denom token name symbol decimals nonce => erc20_deployed_data {|
      ede_cosmos_denom := denom; ede_erc20_address := token; ede_name := name; ede_symbol := symbol;
      ede_decimals := decimals; ede_event_nonce := nonce; ede_block_height := 0 |}
  | Contract.ValsetUpdatedEvent _ nonce amount token validators powers =>
      valset_updated_data nonce amount (token_option token) (zip powers validators) (Z.of_nat (length powers))
  | Contract.LogicCallEvent id invalidation_nonce return_data nonce =>
      word id ++ word invalidation_nonce ++ word 128 ++ word nonce ++ text return_data
  end.
Definition event_log (d : dated) : Log :=
  mkLog (keccak256 (to_bytes (signature_of d.1)) :: event_topics d.1) (event_data d.1) (Some d.2).

(** What a node answers for a signature and a range of blocks. *)
Definition in_blocks (from to : Z) (history : list dated) : list dated := filter (λ d, from ≤ d.2 ≤ to) history.
Definition logs_of (history : list dated) (from to : Z) (signature : string) : list Log :=
  event_log <$> filter (λ d, signature_of d.1 = signature) (in_blocks from to history).
(** The log of a run in which every node did. *)
Definition truthful (g : EthAddress) (history : list dated) (l : log) : Prop :=
  ∀ from to signature logs,
    saw l (CheckForEvents from (Some to) [g] signature) (Ok logs) → logs = logs_of history from to signature.

(** The events the decoders can read: numbers of the width they expect, UTF-8, no logic calls. *)
Definition decodable (d : dated) : Prop :=
  is_u64 d.2 ∧ is_u64 (event_nonce d.1) ∧
  match d.1 with
  | Contract.TransactionBatchExecutedEvent batch_nonce _ _ => is_u64 batch_nonce
  | Contract.SendToCosmosEvent _ _ destination amount _ => word_ok destination ∧ word_ok amount
  | Contract.ERC20DeployedEvent denom _ name symbol decimals _ =>
      0 ≤ decimals ≤ U8_MAX ∧
      Forall (λ s, blen (to_bytes s) ≤ U32_MAX ∧ utf8_valid (to_bytes s) = true) [denom; name; symbol]
  | Contract.ValsetUpdatedEvent valset_nonce _ amount _ validators powers =>
      is_u64 valset_nonce ∧ word_ok amount ∧ length validators = length powers ∧ Forall is_u64 powers ∧
      blen (event_data d.1) ≤ ISIZE_MAX
  | Contract.LogicCallEvent _ _ _ _ => False
  end.

Definition decodes {E} (from_log : Log → eval (result E GravityError)) (as_event : dated → option E)
    (signature : string) : Prop :=
  ∀ d, decodable d → signature_of d.1 = signature → ∃ e, as_event d = Some e ∧ from_log (event_log d) = Done (Ok e).
End Logs.

Section Decoding.
Context `{X : Ext} `{XL : !ExtLaws X} `{VM : !Evm} `{BD : Build}.

Lemma word_split z : word z = be_split 12 (z / 256 ^ 20) ++ be_split 20 z.
Proof.
  apply be_inj; [by rewrite length_app, !length_be_split|].
  unfold word. rewrite be_app, !be_be_split, length_be_split.
  change (256 ^ Z.of_nat 32) with (256 ^ 20 * 256 ^ 12). change (Z.of_nat 12) with 12. change (Z.of_nat 20) with 20.
  rewrite Z.rem_mul_r by lia. lia.
Qed.

Lemma zip_firsts (ms : list Z) (l : list EthAddress) : length l = length ms → (zip ms l).*1 = ms.
Proof. intros H. apply fst_zip. lia. Qed.
Lemma token_option_default a : default ZERO_ADDRESS (token_option a) = a.
Proof. unfold token_option. by case_decide. Qed.
Lemma token_option_nonzero a : token_option a ≠ Some ZERO_ADDRESS.
Proof. unfold token_option. case_decide; congruence. Qed.
Lemma u64_word z : is_u64 z → word_ok z.
Proof. unfold is_u64, word_ok, U64_MAX, U256_MAX. lia. Qed.

Lemma withdraws_decode : decodes batch_executed_from_log as_withdraw TRANSACTION_BATCH_EXECUTED_EVENT_SIG.
Proof.
  intros [[] h] (Hh & Hn & Hd); try done. intros _. eexists. split; [done|]. simpl in *.
  unfold event_log. cbn [fst snd event_topics event_data]. rewrite batch_executed_decodes by (by apply u64_word).
  unfold is_u64 in *. by rewrite bool_decide_true by lia.
Qed.
Lemma deposits_decode : decodes send_to_cosmos_from_log as_deposit SENT_TO_COSMOS_EVENT_SIG.
Proof.
  intros [[] h] (Hh & Hn & Hd); try done. intros _. simpl in *. destruct Hd as [Hd Ha].
  unfold as_deposit, event_log. cbn [fst snd event_topics event_data].
  pose proof (law_cosmos_from_bytes (be_split 20 destination) COSMOS_DEFAULT_PREFIX (length_be_split _ _)) as Hok.
  destruct (cosmos_address_from_bytes _ _) as [a|] eqn:Ea; [|done]. eexists. split; [done|].
  rewrite word_split.
  rewrite (send_to_cosmos_decodes _ _ _ _ _ a) by (done || apply length_be_split || by apply u64_word).
  unfold is_u64 in *. by rewrite bool_decide_true by lia.
Qed.
Lemma deploys_decode : decodes erc20_deployed_from_log as_deploy ERC20_DEPLOYED_EVENT_SIG.
Proof.
  intros [[] h] (Hh & Hn & Hd); try done. intros _. eexists. split; [done|]. simpl in *.
  destruct Hd as [Hd Hs]. rewrite !Forall_cons in Hs. destruct Hs as ([L1 V1] & [L2 V2] & [L3 V3] & _).
  set (ev := mkErc20DeployedEvent cosmosDenom tokenContract name symbol decimals eventNonce h).
  refine (eq_trans (erc20_deployed_log_ok _ ev Hd Hn _) _); [by repeat constructor|].
  unfold texts_valid. simpl. by rewrite V1, V2, V3.
Qed.
Lemma valsets_decode : decodes valset_updated_from_log as_valset VALSET_UPDATED_EVENT_SIG.
Proof.
  intros [[] h] (Hh & Hn & Hd); try done. intros _. eexists. split; [done|]. simpl in *.
  destruct Hd as (Hvn & Ha & Hl & Hp & Hb).
  unfold event_log. cbn [fst snd event_topics event_data].
  assert (length powers = length (zip powers validators)) as E by (rewrite length_zip_with; lia).
  rewrite E in Hb |- *. apply valset_updated_log_ok; try done; [apply token_option_nonzero|].
  rewrite <- (zip_firsts powers validators Hl) in Hp. exact (proj1 (Forall_fmap fst is_u64 _) Hp).
Qed.

(** A whole answer decodes to the events of the kind. *)
Lemma logs_decode {E} (from_log : Log → eval (result E GravityError)) as_event signature history from to :
  decodes from_log as_event signature → (∀ d, signature_of d.1 ≠ signature → as_event d = None) →
  Forall decodable (in_blocks from to history) →
  try_map from_log (logs_of history from to signature) = Done (Ok (omap as_event (in_blocks from to history))).
Proof.
  intros Hf Hn Hd. unfold logs_of. apply try_map_Ok. induction Hd as [|d l Hd Hl IH]; [by rewrite filter_nil|].
  destruct (decide (signature_of d.1 = signature)) as [Hs|Hs].
  - rewrite filter_cons_True by done. destruct (Hf d Hd Hs) as (e & He & Hlog). simpl. rewrite He. by constructor.
  - rewrite filter_cons_False by done. simpl. by rewrite (Hn d Hs).
Qed.
End Decoding.

(** ** The claims of the contract's events *)

Section Claims.
Context `{X : Ext} `{XL : !ExtLaws X} `{VM : !Evm} `{BD : Build}.
Variables (prefix : string) (own : CosmosAddress).

(** The claim of an event, and the nonce it is filed under. *)
Definition claim_of (d : dated) : eval Msg :=
  match as_deposit d, as_withdraw d, as_deploy d, as_valset d with
  | Some e, _, _, _ => deposit_claim prefix own e
  | _, Some e, _, _ => withdraw_claim own e
  | _, _, Some e, _ => deploy_claim own e
  | _, _, _, Some e => valset_claim own e
  | _, _, _, _ => Panic "not implemented"
  end.
Definition filed (d : dated) : Z * eval Msg := (event_nonce d.1, claim_of d).

(** The events above a nonce, up to a block. *)
Definition pending (last to : Z) (history : list dated) : list dated :=
  filter (λ d, last < event_nonce d.1 ∧ d.2 ≤ to) history.

Lemma pending_cons last to d history :
  pending last to (d :: history) =
  if decide (last < event_nonce d.1 ∧ d.2 ≤ to) then d :: pending last to history else pending last to history.
Proof. unfold pending. by rewrite filter_cons. Qed.

Lemma pending_numbered last to n history :
  (λ d, event_nonce d.1) <$> history = seqZ n (Z.of_nat (length history)) →
  StronglySorted Z.le history.*2 →
  let p := pending last to history in
  (λ d, event_nonce d.1) <$> p = seqZ (Z.max (last + 1) n) (Z.of_nat (length p)).
Proof.
  revert n. induction history as [|d history IH]; intros n Hn Hs; [done|]. cbn [fmap list_fmap length] in Hn.
  rewrite seqZ_cons in Hn by lia. injection Hn as Hd Hn. apply StronglySorted_inv in Hs as [Hs' Hle].
  replace (Z.pred _) with (Z.of_nat (length history)) in Hn by lia. specialize (IH _ Hn Hs').
  rewrite pending_cons. case_decide as Hc; [|destruct (decide (d.2 ≤ to)) as [Hto|Hto]].
  - cbn [fmap list_fmap length]. rewrite (seqZ_cons (Z.max _ _)) by lia. f_equal; [lia|].
    refine (eq_trans IH _). f_equal; lia.
  - refine (eq_trans IH _). f_equal. lia.
  - assert (pending last to history = []) as ->; [|done]. apply filter_none. intros e He [_ H].
    rewrite List.Forall_forall in Hle.
    specialize (Hle e.2 (proj1 (list_elem_of_In _ _) (list_elem_of_fmap_2 _ _ _ He))). lia.
Qed.

(** Each event is of one of the four kinds. *)
Lemma filed_permutation l : Forall decodable l →
  all_claims prefix own (omap as_deposit l) (omap as_withdraw l) (omap as_deploy l) [] (omap as_valset l) ≡ₚ
  filed <$> l.
Proof.
  unfold all_claims, claims_of. induction 1 as [|d l Hd _ IH]; [done|]. rewrite fmap_cons, <- IH. clear IH.
  unfold filed, claim_of. destruct d as [[] h], Hd as (_ & _ & Hd); cbn [omap list_omap];
    unfold as_deposit, as_withdraw, as_deploy, as_valset; cbn [fst snd event_nonce fmap list_fmap].
  - solve_Permutation.
  - pose proof (law_cosmos_from_bytes (be_split 20 destination) COSMOS_DEFAULT_PREFIX (length_be_split _ _)) as Hok.
    destruct (cosmos_address_from_bytes _ _) as [a|] eqn:Ea; [|done]. done.
  - solve_Permutation.
  - solve_Permutation.
  - done.
Qed.
End Claims.

Section Gapless.
Context `{X : Ext} `{XL : !ExtLaws X} `{VM : !Evm} `{BD : Build}.

Lemma filter_ext_elem {A} (P Q : A → Prop) `{!∀ x, Decision (P x)} `{!∀ x, Decision (Q x)} (l : list A) :
  (∀ x, x ∈ l → P x ↔ Q x) → filter P l = filter Q l.
Proof.
  induction l as [|x l IH]; intros Hpq; [done|].
  rewrite !filter_cons, IH by (intros y Hy; apply Hpq; by right).
  specialize (Hpq x (list_elem_of_here _ _)). do 2 case_decide; naive_solver.
Qed.
Lemma filter_omap {E} (as_event : dated → option E) (nonce_of : E → Z) last (l : list dated) :
  (∀ d e, as_event d = Some e → nonce_of e = event_nonce d.1) →
  filter (λ e, last < nonce_of e) (omap as_event l) = omap as_event (filter (λ d, last < event_nonce d.1) l).
Proof.
  intros Hn. induction l as [|d l IH]; [done|]. rewrite filter_cons. cbn [omap list_omap].
  destruct (as_event d) as [e|] eqn:Ee.
  - rewrite filter_cons, IH, (Hn _ _ Ee). case_decide; simpl; by rewrite ?Ee.
  - rewrite IH. case_decide; simpl; by rewrite ?Ee.
Qed.

Lemma as_nonces d :
  (∀ e, as_deposit d = Some e → stc_event_nonce e = event_nonce d.1) ∧
  (∀ e, as_withdraw d = Some e → tbe_event_nonce e = event_nonce d.1) ∧
  (∀ e, as_deploy d = Some e → ede_event_nonce e = event_nonce d.1) ∧
  (∀ e, as_valset d = Some e → vue_event_nonce e = event_nonce d.1).
Proof.
  unfold as_deposit, as_withdraw, as_deploy, as_valset.
  destruct d as [[] h]; simpl; split_and!; intros e; try done; try (by intros [= <-]).
  destruct (cosmos_address_from_bytes _ _); [|done]. by intros [= <-].
Qed.
Lemma as_kinds d :
  (signature_of d.1 ≠ SENT_TO_COSMOS_EVENT_SIG → as_deposit d = None) ∧
  (signature_of d.1 ≠ TRANSACTION_BATCH_EXECUTED_EVENT_SIG → as_withdraw d = None) ∧
  (signature_of d.1 ≠ ERC20_DEPLOYED_EVENT_SIG → as_deploy d = None) ∧
  (signature_of d.1 ≠ VALSET_UPDATED_EVENT_SIG → as_valset d = None).
Proof. unfold as_deposit, as_withdraw, as_deploy, as_valset. by destruct d as [[] h]. Qed.

(** What the oracle decodes from the answers of a truthful node. *)
Definition events_of_history (l : list dated) : events :=
  mkEvents (omap as_deposit l) (omap as_withdraw l) (omap as_deploy l) [] (omap as_valset l).

Lemma truthful_events g history from to (l : log) evs :
  truthful g history l → Forall decodable (in_blocks from to history) → saw_all_events l g from to evs →
  evs = events_of_history (in_blocks from to history).
Proof.
  intros Ht Hd ((l1 & S1 & D1) & (l2 & S2 & D2) & (l3 & S3 & D3) & (l4 & S4 & D4) & (l5 & S5 & D5)).
  apply Ht in S1, S2, S3, S4, S5. subst.
  rewrite (logs_decode _ _ _ _ _ _ deposits_decode) in D1 by (done || apply as_kinds).
  rewrite (logs_decode _ _ _ _ _ _ withdraws_decode) in D2 by (done || apply as_kinds).
  rewrite (logs_decode _ _ _ _ _ _ deploys_decode) in D3 by (done || apply as_kinds).
  rewrite (logs_decode _ _ _ _ _ _ valsets_decode) in D5 by (done || apply as_kinds).
  unfold logs_of in D4. rewrite filter_none in D4.
  - destruct evs. simpl in *. unfold events_of_history. congruence.
  - intros d Hin Hs. rewrite Forall_forall in Hd. specialize (Hd d Hin). by destruct d as [[] h], Hd as (_ & _ & []).
Qed.

Lemma above_history last l :
  above last (events_of_history l) = events_of_history (filter (λ d, last < event_nonce d.1) l).
Proof.
  unfold above, events_of_history. simpl. by rewrite !filter_omap by (intros ? ?; apply as_nonces).
Qed.

Lemma sorted_by_key {A} (l : list (Z * A)) :
  StronglySorted Z.lt l.*1 → StronglySorted (λ p q, p.1 < q.1) l.
Proof.
  induction l as [|p l IH]; cbn [fmap list_fmap]; [constructor|]. intros [Hs Hp]%StronglySorted_inv.
  constructor; [by apply IH|]. exact (proj1 (Forall_fmap fst (Z.lt p.1) l) Hp).
Qed.
Lemma seqZ_sorted n k : StronglySorted Z.lt (seqZ n (Z.of_nat k)).
Proof.
  revert n. induction k as [|k IH]; intros n; [constructor|]. rewrite seqZ_cons by lia.
  replace (Z.pred _) with (Z.of_nat k) by lia. constructor; [apply IH|]. apply Forall_seqZ. lia.
Qed.

(** What a transaction of claims holds: every event from the one after the chain's last nonce on, up
    to the last block watched. *)
Lemma claims_are_pending prefix own (history : list dated) from to last m :
  event_nonce <$> history.*1 = seqZ 1 (Z.of_nat (length history)) → StronglySorted Z.le history.*2 →
  Forall (λ d, from ≤ d.2 → decodable d) history → 0 ≤ last →
  Forall (λ d, last < event_nonce d.1 → from ≤ d.2) history →
  holds_claims (claims_for prefix own (above last (events_of_history (in_blocks from to history)))) m →
  prod_map id Done <$> m = filed prefix own <$> pending last to history ∧
  m.*1 = seqZ (last + 1) (Z.of_nat (length m)).
Proof.
  intros Hn Hs Hd Hlast Hfrom Hm. rewrite above_history in Hm.
  assert (filter (λ d, last < event_nonce d.1) (in_blocks from to history) = pending last to history) as E.
  { unfold in_blocks, pending. rewrite list_filter_filter. apply filter_ext_elem. rewrite Forall_forall in Hfrom.
    intros d Hin. specialize (Hfrom d Hin). naive_solver. }
  assert (Forall decodable (pending last to history)) as Hdec.
  { rewrite Forall_forall in *. intros d [[Hl _] Hin]%list_elem_of_filter. apply (Hd d Hin), (Hfrom d Hin), Hl. }
  pose proof (filed_permutation prefix own _ Hdec) as Hperm.
  rewrite E in Hm. change (claims_for _ _ _) with (all_claims prefix own
    (omap as_deposit (pending last to history)) (omap as_withdraw (pending last to history))
    (omap as_deploy (pending last to history)) [] (omap as_valset (pending last to history))) in Hm.
  rewrite <- list_fmap_compose in Hn. pose proof (pending_numbered last to 1 history Hn Hs) as Hp. cbv zeta in Hp.
  rewrite Z.max_l in Hp by lia.
  assert ((filed prefix own <$> pending last to history).*1 = seqZ (last + 1) (Z.of_nat (length (pending last to history))))
    as Hkeys by (by rewrite <- list_fmap_compose).
  pose proof Hm as [Hsorted _].
  apply holds_claims_complete in Hm; [|rewrite Hperm, Hkeys; apply NoDup_seqZ]. rewrite Hperm in Hm.
  assert (prod_map id Done <$> m = filed prefix own <$> pending last to history) as Heq.
  { apply (StronglySorted_unique_strong (λ p q, p.1 < q.1)); [|apply sorted_by_key|apply sorted_by_key|done].
    - intros. lia.
    - by rewrite <- list_fmap_compose.
    - rewrite Hkeys. apply seqZ_sorted. }
  split; [exact Heq|].
  assert (length m = length (pending last to history)) as Hlen.
  { apply (f_equal length) in Heq. by rewrite !length_fmap in Heq. }
  rewrite Hlen, <- Hkeys, <- Heq, <- list_fmap_compose. done.
Qed.
End Gapless.

(** ** The oracle and the contract *)

Section OracleFlow.
Context `{X : Ext} `{XL : !ExtLaws X} `{VM : !Evm} `{BD : Build}.
Implicit Types (history : list dated) (l : log).

(** The history of a contract: the events it has emitted, in blocks that follow one another. *)
Definition recorded (st : Gravity) history : Prop :=
  reachable st ∧ emitted st = history.*1 ∧ StronglySorted Z.le history.*2.

Lemma recorded_numbered st history :
  recorded st history → event_nonce <$> history.*1 = seqZ 1 (Z.of_nat (length history)).
Proof.
  intros (Hr & He & _). destruct (reachable_well_formed st Hr) as [Hn Hb _ _ _ _]. rewrite He in Hn.
  rewrite Hn. f_equal. apply (f_equal length) in Hn. rewrite !length_fmap, length_seqZ in Hn. lia.
Qed.

(** C8: the oracle claims events without a gap, once it starts early enough. Assume that the nodes answer
    with the events of a reachable contract, and that the decoders can read those from the block the
    oracle starts at on. Then a round of watching posts only transactions signed with its key, after
    it has seen the chain's last nonce from this oracle and the latest block. Assume besides that this last nonce is not negative and that no event
    above it lies in a block before the start block (the oracle has not been started too late). Then
    what such a transaction claims is exactly the events above that nonce up to the last block watched:
    one claim each, with consecutive nonces from the one after the last nonce on. *)
Theorem oracle_claims_gapless st history prefix g key fee start :
  recorded st history → Forall (λ d, start ≤ d.2 → decodable d) history →
  sat (on_post (λ msg l, truthful g history l →
    ∃ own latest last m,
      cosmos_key_to_address key prefix = Ok own ∧ saw_latest l latest ∧ saw_event_nonce l own prefix last ∧
      signed_as key own m.*2 (one_coin_fee fee 500000000) msg l ∧
      (0 ≤ last → Forall (λ d, last < event_nonce d.1 → start ≤ d.2) history →
       prod_map id Done <$> m = filed prefix own <$> pending last latest history ∧
       m.*1 = seqZ (last + 1) (Z.of_nat (length m)))))
    any_env (check_for_events prefix g key fee start) [] (λ _ _, True).
Proof.
  intros Hrec Hd. pose proof (recorded_numbered _ _ Hrec) as Hn. destruct Hrec as (_ & _ & Hs).
  eapply sat_mono; [apply check_for_events_spec; [apply on_post_lenient|]|done].
  intros msg l _ _ (own & latest & evs & last & m & Hown & Hlat & Hev & Hlast & Hm & _ & _ & Hsig) Ht.
  exists own, latest, last, m. split_and!; [done..|]. intros H0 Hfrom.
  apply (truthful_events g history) in Hev; [|done|].
  - subst evs. by apply claims_are_pending with (from := start).
  - unfold in_blocks. rewrite Forall_forall in *. intros d [[Hl _] Hin]%list_elem_of_filter. by apply Hd.
Qed.

(** Events no oracle can read: a deployment with text that is not UTF-8, which anyone may make, and any
    logic call. *)
Definition unreadable (d : dated) : Prop :=
  match d.1 with
  | Contract.ERC20DeployedEvent denom token name symbol decimals nonce =>
      0 ≤ decimals ≤ U8_MAX ∧ is_u64 nonce ∧ Forall (λ s, blen (to_bytes s) ≤ U32_MAX) [denom; name; symbol] ∧
      texts_valid (mkErc20DeployedEvent denom token name symbol decimals nonce d.2) = false
  | Contract.LogicCallEvent _ _ _ _ => True
  | _ => False
  end.

Lemma unreadable_unseen g history from to l evs d :
  truthful g history l → d ∈ history → unreadable d → from ≤ d.2 → saw_all_events l g from to evs → to < d.2.
Proof.
  intros Ht Hin Hd Hfrom (_ & _ & (l3 & S3 & D3) & (l4 & S4 & D4) & _).
  destruct (Z.lt_ge_cases to d.2) as [|Hto]; [done|]. exfalso. apply Ht in S3, S4. subst.
  assert (event_log d ∈ logs_of history from to (signature_of d.1)) as Hlog.
  { unfold logs_of, in_blocks. apply list_elem_of_fmap_2, list_elem_of_filter. split; [done|].
    by apply list_elem_of_filter. }
  apply try_map_Ok in D3, D4. destruct d as [[] h]; try done; cbn [fst signature_of] in Hlog.
  - apply list_elem_of_lookup in Hlog as [i Hi]. destruct (Forall2_lookup_l _ _ _ _ _ D3 Hi) as (e & _ & He).
    destruct Hd as (Hdec & Hn & Hs & Hv). unfold event_log in He. cbn [fst snd event_topics event_data] in He.
    pose proof (erc20_deployed_log_ok (keccak256 (to_bytes ERC20_DEPLOYED_EVENT_SIG))
      (mkErc20DeployedEvent cosmosDenom tokenContract name symbol decimals eventNonce h) Hdec Hn Hs) as Hok.
    unfold texts_valid in Hok. cbn [ede_cosmos_denom ede_name ede_symbol] in Hok.
    unfold texts_valid in Hv. cbn [ede_cosmos_denom ede_name ede_symbol] in Hv. rewrite Hv in Hok. discriminate (eq_trans (eq_sym He) Hok).
  - apply list_elem_of_lookup in Hlog as [i Hi]. by destruct (Forall2_lookup_l _ _ _ _ _ D4 Hi) as (e & _ & He).
Qed.

(** C15: one event that no decoder reads stops the oracle for good: neither a transaction nor a round
    that succeeds ever covers its block, so that the next round starts before it again; and such an
    event is a deployment of a token whose name is not UTF-8, which the contract lets anyone make. *)
Theorem unreadable_event_stops_oracle g history prefix key fee start d :
  d ∈ history → unreadable d → start ≤ d.2 →
  sat (on_post (λ msg l, truthful g history l → ∃ latest, saw_latest l latest ∧ latest < d.2))
    any_env (check_for_events prefix g key fee start) []
    (λ r l, truthful g history l → ∀ latest, r = Ok latest → latest < d.2).
Proof.
  intros Hin Hd Hstart. eapply sat_mono; [apply check_for_events_spec; [apply on_post_lenient|]|].
  - intros msg l _ _ (own & latest & evs & last & m & _ & Hlat & Hev & _) Ht. exists latest. split; [done|].
    by eapply unreadable_unseen.
  - intros r l (_ & _ & _ & H) Ht latest Hr. destruct (H latest Hr) as (own & evs & last & _ & _ & Hev & _).
    by eapply unreadable_unseen.
Qed.
End OracleFlow.

(** ** The relayer and the contract *)

Section RelayerFlow.
Context `{X : Ext} `{XL : !ExtLaws X} `{VM : !Evm} `{BD : Build}.
Implicit Types (history : list dated) (l : log).

Definition is_valset (d : dated) : Prop := signature_of d.1 = VALSET_UPDATED_EVENT_SIG.
#[local] Instance is_valset_dec d : Decision (is_valset d) := decide (_ = _).

Lemma valset_events history from to :
  logs_of history from to VALSET_UPDATED_EVENT_SIG = event_log <$> in_blocks from to (filter is_valset history).
Proof.
  unfold logs_of, in_blocks. f_equal. rewrite !list_filter_filter. apply list_filter_iff. unfold is_valset. tauto.
Qed.

(** The set an update event names, as the contract was given it. *)
Definition args_of_event (e : GravityEvent) : option ValsetArgs :=
  match e with
  | Contract.ValsetUpdatedEvent n _ amount token vals pows => Some (mkValsetArgs vals pows n amount token)
  | _ => None
  end.
Lemma last_valsets history :
  last (valsets history.*1) = last (filter is_valset history) ≫= λ d, args_of_event d.1.
Proof.
  unfold valsets. induction history as [|d history IH] using rev_ind; [done|].
  rewrite fmap_app, omap_app, filter_app, !last_app.
  destruct d as [[] h]; cbn [fmap list_fmap omap list_omap];
    ((rewrite filter_cons_False by done) || (rewrite filter_cons_True by done)); done.
Qed.

Lemma event_args d ev : decodable d → as_valset d = Some ev →
  args_of_event d.1 = Some (args_of_valset (valset_of_event ev)).
Proof.
  intros (_ & _ & Hd) He. destruct d as [[] h]; try done. injection He as <-. destruct Hd as (_ & _ & Hl & _).
  unfold args_of_valset. rewrite filter_empty_addresses_eq. simpl. rewrite token_option_default.
  f_equal. assert (∀ ps vs, length vs = length ps →
    vs = (λ m, default address_default (member_eth_address m)) <$> as_members (zip ps vs) ∧
    ps = member_power <$> as_members (zip ps vs)) as Hzip.
  { induction ps as [|p ps IH]; intros [|v vs]; try done. intros [= E]. destruct (IH vs E) as [E1 E2].
    split; [exact (f_equal (cons v) E1) | exact (f_equal (cons p) E2)]. }
  by destruct (Hzip powers validators Hl) as [<- <-].
Qed.

(** A search that found nothing in its windows passed no event of a set. *)
Lemma searched_truthful g history l from to :
  truthful g history l → Forall decodable history → searched l g from to →
  Forall (λ d, is_valset d → d.2 ≤ from) history → Forall (λ d, is_valset d → d.2 ≤ to) history.
Proof.
  intros Ht Hd Hs. induction Hs as [from|from mid to logs _ IH Hmid -> Hw Hnone]; [done|].
  intros Hfrom. specialize (IH Hfrom). rewrite Forall_forall in *. intros d Hin Hv.
  specialize (IH d Hin Hv). destruct (Hd d Hin) as (Hh & _). 
  destruct (Z.le_gt_cases d.2 (Z.max 0 (mid - BLOCKS_TO_SEARCH))) as [|Hgt]; [done|]. exfalso.
  apply Ht in Hw. rewrite valset_events in Hw. subst logs.
  destruct (last (in_blocks (Z.max 0 (mid - BLOCKS_TO_SEARCH)) mid (filter is_valset history))) as [d'|] eqn:El.
  - destruct (Hnone (event_log d')) as [e He]; [by rewrite fmap_last, El|].
    apply last_Some_elem_of in El. apply list_elem_of_filter in El as [_ El].
    apply list_elem_of_filter in El as [Hv' Hin'].
    destruct (valsets_decode d' (Hd d' Hin') Hv') as (ev & _ & E). congruence.
  - apply last_None in El. assert (d ∈ @nil dated) as []%elem_of_nil. rewrite <- El.
    unfold in_blocks. apply list_elem_of_filter. split; [lia|]. by apply list_elem_of_filter.
Qed.

Lemma last_filter_last {A} (P : A → Prop) `{!∀ x, Decision (P x)} (l : list A) x :
  last l = Some x → P x → last (filter P l) = Some x.
Proof.
  intros Hl Hp. destruct l as [|y l] using rev_ind; [done|]. rewrite last_snoc in Hl. injection Hl as ->.
  by rewrite filter_app, filter_cons_True, filter_nil, last_snoc.
Qed.

(** The last event of a window that holds any is the last of all, when no event is after the window. *)
Lemma last_in_window from to (l : list dated) d :
  StronglySorted Z.le l.*2 → Forall (λ d, d.2 ≤ to) l → last (in_blocks from to l) = Some d → last l = Some d.
Proof.
  intros Hs Hto Hl. destruct l as [|x l] using rev_ind; [done|]. clear IHl.
  assert (d ∈ in_blocks from to (l ++ [x])) as [[Hd _] Hin]%list_elem_of_filter by by apply last_Some_elem_of.
  rewrite Forall_app, Forall_singleton in Hto. destruct Hto as [_ Hx].
  assert (from ≤ x.2) as Hfrom.
  { apply elem_of_app in Hin as [Hin| ->%list_elem_of_singleton]; [|done].
    rewrite fmap_app in Hs. apply StronglySorted_app in Hs as (Hle & _ & _).
    specialize (Hle d.2 x.2 (list_elem_of_fmap_2 _ _ _ Hin) (list_elem_of_here _ _)). lia. }
  rewrite <- Hl, last_snoc. symmetry. apply last_filter_last; [apply last_snoc|lia].
Qed.

Lemma sorted_filter (P : dated → Prop) `{!∀ d, Decision (P d)} history :
  StronglySorted Z.le history.*2 → StronglySorted Z.le (filter P history).*2.
Proof.
  induction history as [|d history IH]; cbn [fmap list_fmap]; [done|]. intros [Hs Hd]%StronglySorted_inv.
  rewrite filter_cons. case_decide; [|by apply IH]. cbn [fmap list_fmap]. constructor; [by apply IH|].
  rewrite Forall_forall in *. intros h (e & -> & [_ He]%list_elem_of_filter)%list_elem_of_fmap.
  apply Hd. by apply list_elem_of_fmap_2.
Qed.

(** The set found is the stored one. *)
Lemma found_stored st history g l vs :
  recorded st history → Forall decodable history → truthful g history l →
  (∀ latest, saw_block l latest → Forall (λ d, d.2 ≤ latest) history) → found_set l g vs →
  ∃ d ev, d ∈ history ∧ as_valset d = Some ev ∧ vs = valset_of_event ev ∧
    makeCheckpoint (args_of_valset vs) (state_gravityId st) = state_lastValsetCheckpoint st.
Proof.
  intros (Hr & He & Hs) Hd Ht Hlatest (latest & mid & to & logs & lg & ev & Hb & Hsearch & -> & Hw & Hlast & Hev & ->).
  assert (Forall (λ d, is_valset d → d.2 ≤ mid) history) as Hmid.
  { apply (searched_truthful _ _ _ _ _ Ht Hd Hsearch). eapply Forall_impl; [by apply Hlatest|]. auto. }
  apply Ht in Hw. rewrite valset_events in Hw. subst logs. rewrite fmap_last in Hlast.
  destruct (last (in_blocks _ _ _)) as [d|] eqn:El; [|done]. injection Hlast as <-.
  apply last_in_window in El; [|by apply sorted_filter|].
  2: { rewrite Forall_forall in *. intros d' [Hv Hin]%list_elem_of_filter. by apply Hmid. }
  destruct (reachable_well_formed st Hr) as [_ _ _ _ (stored & Hstored & -> & _) _].
  rewrite He, last_valsets, El in Hstored. simpl in Hstored.
  apply last_Some_elem_of, list_elem_of_filter in El as [Hv Hin]. rewrite Forall_forall in Hd.
  destruct (valsets_decode d (Hd d Hin) Hv) as (ev' & Has & Hdec). rewrite Hdec in Hev. injection Hev as <-.
  exists d, ev'. split_and!; [done..|]. f_equal.
  rewrite (event_args d ev' (Hd d Hin) Has) in Hstored. by injection Hstored.
Qed.

(** C14: the relayer finds the set the contract stores. If the node answers with the events of a
    reachable contract, all of them readable and none above the block it reports, then a search that
    returns a set returns the one whose checkpoint the contract stores, whatever windows it took. *)
Theorem stored_set_found st history g :
  recorded st history → Forall decodable history →
  sat (λ _ _ _, True) block_env (find_latest_valset g) []
    (λ r l, truthful g history l → (∀ latest, saw_block l latest → Forall (λ d, d.2 ≤ latest) history) →
      ∀ vs, r = Ok vs →
        makeCheckpoint (args_of_valset vs) (state_gravityId st) = state_lastValsetCheckpoint st).
Proof.
  intros Hrec Hd. eapply sat_mono; [apply find_latest_valset_covers|].
  intros r l H Ht Hlatest vs Hvs.
  by destruct (found_stored st history g l vs Hrec Hd Ht Hlatest (H vs Hvs)) as (_ & _ & _ & _ & _ & ?).
Qed.
End RelayerFlow.
