(* ===== verification/Relayed.v ===== *)
(** * From the relayer to the contract and back

    The relayer against a node that follows the contract: what it asks it is told as the contract has
    it. Then everything it sends is a call that the contract decides as its source says, and what can
    still go wrong is known exactly. *)

From ITree Require Import ITree.
From S2P Require Import Prelude Bytes Proto External Evm Float Instances Contract ContractTheory.
From S2P Require Import Types Signatures Valset ValsetTheory Batches LogicCall EthEvents EthEventsTheory.
From S2P Require Import Messages Acceptance Effects CosmosSend Queries Submit SubmitTheory Join.
From S2P Require Import Relayer RelayerSearch RelayerTheory Oracle Orchestrator OracleTheory EventFlow.
From Stdlib Require Import Sorted Strings.Byte.

Section Follows.
Context `{X : Ext} `{XL : !ExtLaws X} `{VM : !Evm} `{VL : !EvmLaws VM} `{BD : Build}.
Implicit Types (l : log).

(** ** A node that follows the contract *)

Section Node.
Context (st : Gravity) (history : list dated) (g : EthAddress).

(** The contract's getters, as the Rust code names them and encodes their arguments. *)
Inductive view : string → list Token → Z → Prop :=
  | view_valset_nonce : view "state_lastValsetNonce()" [] (state_lastValsetNonce st)
  | view_batch_nonce token :
      view "lastBatchNonce(address)" [token_of_address token] (lastBatchNonce st token)
  | view_call_nonce id : (length id ≤ 32)%nat →
      view "lastLogicCallNonce(bytes32)" [TokenBytes id] (lastLogicCallNonce st (bytes32 id))
  | view_gravity_id : view "state_gravityId()" [] (state_gravityId st).

(** The Ethereum node has the contract's events, up to the block it reports, and its getters' values.
    The chain has batches whose fees fit a word, invalidation ids that fit one, and confirmations
    whose signatures are those of [sign_ethereum_msg]. *)
Definition follows : env := λ R e,
  match e in callE R return R → Prop with
  | EthBlockNumber => λ r, ∀ h, r = Ok h → 0 ≤ h ≤ U256_MAX ∧ Forall (λ d, d.2 ≤ h) history
  | CheckForEvents from (Some to) contracts signature => λ r, ∀ logs,
      r = Ok logs → contracts = [g] → logs = logs_of history from to signature
  | SimulateTransaction contract _ payload _ => λ r, ∀ val f args z,
      r = Ok val → contract = g → view f args z → encode_call f args = Ok payload →
      length val = 32%nat ∧ be val = z
  | QOutgoingTxBatches => λ r, ∀ protos p b, r = Ok protos → p ∈ protos → batch_try_from p = Done (Ok b) →
      Forall (λ f, 0 ≤ f) (batch_fees b) ∧ zsum (batch_fees b) < 2 ^ 256
  | QOutgoingLogicCalls => λ r, ∀ protos p c, r = Ok protos → p ∈ protos → logic_call_try_from p = Done (Ok c) →
      (length (call_invalidation_id c) ≤ 32)%nat
  | QValsetConfirmsByNonce _ => λ r, ∀ cs confirms, r = Ok cs →
      try_map (λ c, Done (valset_confirm_try_from c)) cs = Done (Ok confirms) → Forall plain_v confirms
  | QBatchConfirms _ _ => λ r, ∀ cs confirms, r = Ok cs →
      try_map batch_confirm_try_from cs = Done (Ok confirms) → Forall plain_v confirms
  | QLogicConfirms _ _ => λ r, ∀ cs confirms, r = Ok cs →
      try_map logic_call_confirm_try_from cs = Done (Ok confirms) → Forall plain_v confirms
  | _ => λ _, True
  end.

(** The powers of every set fit a [u64], as the chain normalises them. *)
Definition fitting (d : dated) : Prop :=
  match d.1 with
  | Contract.ValsetUpdatedEvent _ _ _ _ _ powers => zsum powers ≤ U64_MAX ∧ Z.of_nat (length powers) ≤ U64_MAX
  | _ => True
  end.

(** ** What the contract decides *)

(** The relayer's own check of the confirmations: a threshold in single precision. *)
Definition checked_power {T} `{!Confirm T} (current : Valset) (confirms : list T) : Prop :=
  percent_threshold ≤ power_where (voted confirms) (valset_members current).

(** Whoever sends the payload, in whatever block, while nothing else happens to the contract: the set,
    the nonces and the signatures are in order, and what is left is the timeout, the power between the
    relayer's threshold and the contract's, and the contracts that are called. *)
Definition decided (payload : bytes) l : Prop :=
  ∃ current c, makeCheckpoint (args_of_valset current) (state_gravityId st) = state_lastValsetCheckpoint st ∧
    calldata c = Some payload ∧
    ((∃ new (confirms : list ValsetConfirmResponse), checked_power current confirms ∧
        settles (if rewards (args_of_valset new) then 1 else 0) (update_outcome new st) (updated (args_of_valset new) st) ∧
        ∀ sender block replies, execute sender block c (st, replies) =
          if has_power st current confirms then update_outcome new st replies else no_power) ∨
     (∃ b (confirms : list BatchConfirmResponse) h, checked_power current confirms ∧
        saw_block l h ∧ h ≤ batch_timeout b ∧
        settles (S (length (batch_transactions b))) (batch_outcome b st) (paid b st) ∧
        ∀ sender block replies, execute sender block c (st, replies) =
          if negb (block <? batch_timeout b) then late_batch
          else if has_power st current confirms then batch_outcome b st replies else no_power) ∨
     (∃ call (confirms : list LogicCallConfirmResponse) h, checked_power current confirms ∧
        saw_block l h ∧ h ≤ call_timeout call ∧
        call_settles call st ∧
        ∀ sender block replies, execute sender block c (st, replies) =
          if negb (block <? call_timeout call) then late_call
          else if has_power st current confirms then call_outcome call st replies else no_power)).

(** ** What the answers tell *)


Lemma follows_truthful l : answered follows l → truthful g history l.
Proof. intros Ha from to signature logs Hs. exact (answered_saw _ _ _ _ Ha Hs logs eq_refl eq_refl). Qed.

Lemma follows_nonce l own f args z n :
  answered follows l → view f args z → saw_nonce l g own f args n → n = z.
Proof.
  intros Ha Hv (payload & val & Hp & Hs & Hn).
  destruct (answered_saw _ _ _ _ Ha Hs val f args z eq_refl eq_refl Hv Hp) as [Hlen <-].
  pose proof (be_bound val). rewrite u256_word in Hn by done. rewrite downcast_uint256_eq in Hn by lia.
  destruct (_ <? U64_MAX); by simplify_eq.
Qed.

Lemma length_to_bytes s : length (to_bytes s) = String.length s.
Proof.
  unfold to_bytes, String.list_byte_of_string. rewrite length_map. induction s as [|c s IH]; [done|].
  simpl. by rewrite IH.
Qed.

Lemma follows_id l own id : answered follows l → saw_gravity_id l g own id →
  (String.length id ≤ 32)%nat ∧ state_gravityId st = id_word id.
Proof.
  intros Ha (payload & val & Hp & Hs & Hid).
  destruct (answered_saw _ _ _ _ Ha Hs val _ _ _ eq_refl eq_refl view_gravity_id Hp) as [Hlen Hbe].
  unfold from_utf8 in Hid. destruct (utf8_valid val); [|done]. injection Hid as <-.
  rewrite <- length_to_bytes. unfold id_word, bytes32. rewrite to_of_bytes, Hlen. split; [lia|].
  by rewrite app_nil_r, Hbe.
Qed.

Lemma event_powers d ev : decodable d → fitting d → as_valset d = Some ev →
  powers_ok (valset_members (valset_of_event ev)).
Proof.
  intros (_ & _ & Hd) Hf He. destruct d as [[] h]; try done. injection He as <-.
  cbn [fst] in Hd, Hf. destruct Hd as (_ & _ & Hl & Hp & _), Hf as [Hsum Hlen].
  assert (member_power <$> as_members (zip powers validators) = powers) as E.
  { transitivity ((zip powers validators).*1); [|by apply fst_zip; simpl in *; lia].
    induction (zip powers validators) as [|[p a] ms IH]; [done|]. exact (f_equal (cons p) IH). }
  unfold powers_ok. cbn [valset_members valset_of_event vue_members]. split_and!.
  - rewrite <- E, Forall_fmap in Hp. eapply Forall_impl; [exact Hp|]. by intros m [? _].
  - by rewrite E.
  - replace (length (as_members (zip powers validators))) with (length powers); [done|].
    rewrite <- E at 1. by rewrite length_fmap.
Qed.

Lemma follows_current l id current :
  recorded st history → Forall decodable history → Forall fitting history →
  state_lastEventNonce st + 1 < 2 ^ 256 → (String.length id ≤ 32)%nat → state_gravityId st = id_word id →
  answered follows l → saw_current l g current → knows st id current.
Proof.
  intros Hrec Hd Hf Hroom Hlen Hid Ha Hc.
  destruct (found_stored st history g l current Hrec Hd) as (d & ev & Hin & Hev & -> & Hset).
  - by apply follows_truthful.
  - intros latest Hl. by apply (answered_saw _ _ _ _ Ha Hl).
  - apply saw_current_found; [|done]. intros latest Hl. by apply (answered_saw _ _ _ _ Ha Hl).
  - rewrite Forall_forall in Hd, Hf. constructor; [done|done|done| |done].
    by eapply event_powers; [apply Hd|apply Hf|].
Qed.

(** ** The relayer's requirement, on such a node *)

Lemma negb_ltb_false a b : a < b → negb (a <? b) = false.
Proof. intros H. by rewrite (proj2 (Z.ltb_lt _ _) H). Qed.

Lemma valset_payload_decided l id current key config payload :
  knows st id current → answered follows l → valset_payload g id key config current payload l → decided payload l.
Proof.
  intros Hk Ha (new & confirms & (_ & (cs & Hcs & Hmap) & _ & sigs & Ho) & (Hp & Hn & _) & _).
  pose proof (answered_saw _ _ _ _ Ha Hcs cs confirms eq_refl Hmap) as Hv.
  destruct (valset_update_decision st id current new confirms payload Hk Hv Hp) as (c & Hc & E).
  exists current, c. split_and!; [by apply (knows_set _ _ _ Hk)|done|]. left. exists new, confirms.
  split_and!; [eapply order_sigs_power; [by apply (knows_powers _ _ _ Hk)|done]|apply update_settles, (knows_room _ _ _ Hk)|].
  intros sender block replies. by rewrite E, (negb_ltb_false _ _ Hn).
Qed.

Lemma batch_payload_decided l id current key config payload :
  knows st id current → answered follows l → batch_payload_ok g id key config current payload l → decided payload l.
Proof.
  intros Hk Ha (b & confirms & ((protos & p & Hps & Hin & Hb) & cs & hash & sigs & Hcs & Hmap & _ & Ho) &
    (Hp & (n & Hn & Hlt) & h & Hh & Hle) & _). cbn [sb_batch sb_sigs] in *.
  pose proof (answered_saw _ _ _ _ Ha Hcs cs confirms eq_refl Hmap) as Hv.
  destruct (answered_saw _ _ _ _ Ha Hps protos p b eq_refl Hin Hb) as [Hf Hsum].
  apply (follows_nonce _ _ _ _ _ _ Ha (view_batch_nonce _)) in Hn as ->.
  destruct (batch_decision st id current b confirms payload Hk Hv Hf Hsum Hp) as (c & Hc & E).
  exists current, c. split_and!; [by apply (knows_set _ _ _ Hk)|done|]. right; left. exists b, confirms, h.
  split_and!; [eapply order_sigs_power; [by apply (knows_powers _ _ _ Hk)|done]|done|done|
    apply batch_settles, (knows_room _ _ _ Hk)|].
  intros sender block replies. by rewrite E, (negb_ltb_false _ _ Hlt).
Qed.

Lemma call_payload_decided l id current key config payload :
  knows st id current → answered follows l → call_payload_ok g id key config current payload l → decided payload l.
Proof.
  intros Hk Ha (call & confirms & ((protos & p & Hps & Hin & Hb) & (cs & Hcs & Hmap) & sigs & Ho) &
    (Hp & (n & Hn & Hlt) & h & Hh & Hle) & _).
  pose proof (answered_saw _ _ _ _ Ha Hcs cs confirms eq_refl Hmap) as Hv.
  pose proof (answered_saw _ _ _ _ Ha Hps protos p call eq_refl Hin Hb) as Hinv.
  apply (follows_nonce _ _ _ _ _ _ Ha (view_call_nonce _ Hinv)) in Hn as ->.
  destruct (logic_call_decision st id current call confirms payload Hk Hv Hinv Hp) as (c & Hc & E).
  exists current, c. split_and!; [by apply (knows_set _ _ _ Hk)|done|]. right; right. exists call, confirms, h.
  split_and!; [eapply order_sigs_power; [by apply (knows_powers _ _ _ Hk)|done]|done|done|
    apply logic_call_settles, (knows_room _ _ _ Hk)|].
  intros sender block replies. rewrite E. by rewrite (negb_ltb_false _ _ Hlt).
Qed.

(** C3: The relayer and the contract agree. Suppose the contract is reachable, all its events so far can
    be decoded, its sets' powers fit a [u64] in sum and number, and its event counter has room; the
    node's answers are the contract's (its events, up to the block it reports, and its getters'
    values), and the contract does not change meanwhile; and what the chain lists is well formed:
    batches with fees that are not negative and sum to less than 2^256, invalidation ids of at most
    32 bytes, and confirmations whose signatures have [v] 27 or 28. Then whatever the relayer sends is
    without value, to the contract, and a call that, whoever sends it and in whatever block, names
    the very set the contract stores and is refused only for one of three reasons: the block is no
    longer below the timeout, though the relayer saw one that was not past it; the power that has
    signed is not above the contract's threshold, though it reaches the relayer's; or one of the calls
    the contract then makes fails it, a token's or the logic contract's. If those do as asked, the call
    succeeds. No nonce, no checkpoint, no signature and no array length is ever what is refused. *)
Theorem relayed_decided key config wait :
  recorded st history → Forall decodable history → Forall fitting history →
  state_lastEventNonce st + 1 < 2 ^ 256 →
  sat (on_send (λ to payload value _ _ _ l, to = g ∧ value = 0 ∧ decided payload l)) follows
    (relayer_main_loop key g config wait) [] (λ _ _, True).
Proof.
  intros Hrec Hd Hf Hroom.
  pose proof (sat_env_mono _ _ follows _ _ _ (λ _ _ _ _, I) (relayer_loop_sat key g config wait [])) as H.
  apply sat_answered in H; [|apply Forall_nil_2].
  eapply sat_spec_mono; [|eapply sat_mono; [exact H|done]]. clear H.
  intros Y e l [He Ha]. destruct e; simpl in *; try done.
  destruct He as (id & Hid & -> & -> & _ & _ & vs & Hc & Hpayload). split_and!; [done..|].
  destruct (follows_id _ _ _ Ha Hid) as [Hlen Hst].
  pose proof (follows_current _ _ _ Hrec Hd Hf Hroom Hlen Hst Ha Hc) as Hk.
  destruct Hpayload as [Hp|[Hp|Hp]].
  - by eapply valset_payload_decided.
  - by eapply batch_payload_decided.
  - by eapply call_payload_decided.
Qed.
End Node.
End Follows.
