(* ===== verification/FlowRun.v ===== *)
(** * From the contract to the chain, run

    The contract of ContractRun.v after a deposit and a deployment, a node that answers with its
    events, and the oracle and the relayer against it. *)

From ITree Require Import ITree.
From S2P Require Import Prelude Bytes Proto External Evm Float Instances Contract ContractTheory.
From S2P Require Import Types Signatures Valset ValsetTheory Batches LogicCall EthEvents EthEventsTheory.
From S2P Require Import Messages Acceptance ContractRun Effects CosmosSend Queries Submit SubmitTheory.
From S2P Require Import CosmosTheory Join Relayer RelayerSearch RelayerTheory RelayerRun Oracle Orchestrator OracleTheory.
From S2P Require Import OrchestratorTheory OrchestratorRun EventFlow Relayed.
From Stdlib Require Import Sorted Strings.Byte.

Section Flow.
#[local] Existing Instance concrete_ext.
#[local] Existing Instance concrete_laws.
#[local] Existing Instance concrete_evm.
#[local] Existing Instance concrete_evm_laws.
#[local] Existing Instance checked_build.

(** ** A contract with a history *)

Definition after (c : GravityCall) (st : Gravity) : Gravity :=
  match execute (eth 60) 100 c (st, obliging 1) with Ok (_, (st, _)) => st | Err _ => st end.
Lemma after_reachable c st : reachable st →
  is_ok (execute (eth 60) 100 c (st, obliging 1)) = true → reachable (after c st).
Proof.
  intros Hr Hok. unfold after. destruct (execute _ _ _ _) as [[[] [st' rest]]|] eqn:E; [|done].
  eapply reachable_step; [exact Hr|]. by econstructor.
Qed.

Definition deposit : GravityCall := SendToCosmos (eth 5) 8 100.
Definition deployment (name : string) : GravityCall :=
  DeployERC20 (mkDeploy "footoken" name "foo" 6 (eth 41)).
Definition used (name : string) : Gravity := after (deployment name) (after deposit fresh).
Lemma used_reachable name : reachable (used name).
Proof.
  unfold used. apply after_reachable; [apply after_reachable; [apply fresh_reachable|reflexivity]|reflexivity].
Qed.

(** The three events, in blocks 300, 310 and 320. *)
Definition history (name : string) : list (GravityEvent * Z) := [
  (Contract.ValsetUpdatedEvent 0 1 0 ZERO_ADDRESS (validators (args_of_valset genesis))
     (powers (args_of_valset genesis)), 300);
  (Contract.SendToCosmosEvent (eth 5) (eth 60) 8 100 2, 310);
  (Contract.ERC20DeployedEvent "footoken" (eth 41) name "foo" 6 3, 320)].
Lemma history_recorded name : recorded (used name) (history name).
Proof.
  split_and!; [apply used_reachable|reflexivity|]. repeat constructor; vm_compute; discriminate.
Qed.
Lemma first_decodable : decodable (Contract.ValsetUpdatedEvent 0 1 0 ZERO_ADDRESS
  (validators (args_of_valset genesis)) (powers (args_of_valset genesis)), 300).
Proof.
  split; [split; vm_compute; discriminate|]. split; [split; vm_compute; discriminate|].
  split; [split; vm_compute; discriminate|]. split; [split; vm_compute; discriminate|].
  split; [reflexivity|]. split; [|vm_compute; discriminate].
  repeat (constructor; [split; vm_compute; discriminate|]). constructor.
Qed.
Lemma history_decodable : Forall decodable (history "a token").
Proof.
  constructor; [exact first_decodable|]. constructor.
  { split; [split; vm_compute; discriminate|]. split; [split; vm_compute; discriminate|].
    split; split; vm_compute; discriminate. }
  constructor; [|constructor]. split; [split; vm_compute; discriminate|]. split; [split; vm_compute; discriminate|].
  split; [split; vm_compute; discriminate|].
  repeat (constructor; [split; [vm_compute; discriminate|vm_refl]|]). constructor.
Qed.

(** A node that knows it; its latest block is 400. *)
Definition watching (name : string) : handler (W := world) := λ R e w,
  match e in callE R return option (R * world) with
  | CheckForEvents from (Some to) _ signature => Some (Ok (logs_of (history name) from to signature), w)
  | e => nodes _ e w
  end.
Definition watch (name : string) (nonce : Z) : outcome (result Uint256 GravityError) * log :=
  run (watching name) 400 (check_for_events "cosmos" contract (1 : CosmosPrivateKey) user_fee 300)
    (mkWorld nonce 0) [].

Example oracle_claims_two : (watch "a token" 1).1 = Returned (Ok 394) ∧ length (posts (watch "a token" 1).2) = 1%nat.
Proof. split; vm_refl. Qed.

Lemma oracle_claims_gapless_witness :
  length (posts (watch "a token" 1).2) = 1%nat ∧
  sat (on_post (λ msg l, truthful contract (history "a token") l →
    ∃ own latest last m,
      cosmos_key_to_address (1 : CosmosPrivateKey) "cosmos" = Ok own ∧ saw_latest l latest ∧
      saw_event_nonce l own "cosmos" last ∧
      signed_as (1 : CosmosPrivateKey) own m.*2 (one_coin_fee user_fee 500000000) msg l ∧
      (0 ≤ last → Forall (λ d, last < event_nonce d.1 → 300 ≤ d.2) (history "a token") →
       prod_map id Done <$> m = filed "cosmos" own <$> pending last latest (history "a token") ∧
       m.*1 = seqZ (last + 1) (Z.of_nat (length m)))))
    any_env (check_for_events "cosmos" contract (1 : CosmosPrivateKey) user_fee 300) [] (λ _ _, True).
Proof.
  split; [vm_refl|].
  apply (oracle_claims_gapless (used "a token") (history "a token")); [apply history_recorded|].
  eapply Forall_impl; [exact history_decodable|]. intros d Hd _. exact Hd.
Defined.

(** ** A name that is not UTF-8 *)

Definition bad_name : string := of_bytes [xff].
Definition bad_event : GravityEvent * Z := (Contract.ERC20DeployedEvent "footoken" (eth 41) bad_name "foo" 6 3, 320).
Lemma bad_unreadable : unreadable bad_event.
Proof.
  split; [split; vm_compute; discriminate|]. split; [split; vm_compute; discriminate|].
  split; [|vm_refl]. repeat (constructor; [vm_compute; discriminate|]). constructor.
Qed.

(** The contract accepts the deployment; the oracle that meets it fails and posts nothing. *)
Example bad_name_stops :
  recorded (used bad_name) (history bad_name) ∧
  match (watch bad_name 1).1 with Returned (Err _) => posts (watch bad_name 1).2 = [] | _ => False end.
Proof. split; [apply history_recorded|]. vm_compute. reflexivity. Qed.

Lemma unreadable_event_stops_oracle_witness :
  sat (on_post (λ msg l, truthful contract (history bad_name) l → ∃ latest, saw_latest l latest ∧ latest < 320))
    any_env (check_for_events "cosmos" contract (1 : CosmosPrivateKey) user_fee 300) []
    (λ r l, truthful contract (history bad_name) l → ∀ latest, r = Ok latest → latest < 320).
Proof.
  apply (unreadable_event_stops_oracle contract (history bad_name) "cosmos" 1 user_fee 300 bad_event).
  - right. right. left.
  - exact bad_unreadable.
  - vm_compute. discriminate.
Defined.

(** ** The set found *)

Definition search (name : string) : outcome (result Valset GravityError) * log :=
  run (watching name) 400 (find_latest_valset contract) (mkWorld 1 0) [].
Lemma stored_set_found_witness :
  (search "a token").1 = Returned (Ok genesis) ∧
  sat (λ _ _ _, True) block_env (find_latest_valset contract) []
    (λ r l, truthful contract (history "a token") l →
      (∀ latest, saw_block l latest → Forall (λ d, d.2 ≤ latest) (history "a token")) →
      ∀ vs, r = Ok vs → makeCheckpoint (args_of_valset vs) (state_gravityId (used "a token")) =
        state_lastValsetCheckpoint (used "a token")).
Proof.
  split; [vm_refl|].
  apply (stored_set_found (used "a token") (history "a token") contract);
    [apply history_recorded|exact history_decodable].
Defined.

(** ** A relayer and its contract *)

(** The gravity id as the contract reports it, a word; and validators 1 and 3, who sign under it. *)
Definition word_id : string := of_bytes (be_split 32 (state_gravityId (used "a token"))).
Definition id_payload : bytes := match encode_call "state_gravityId()" [] with Ok p => p | Err _ => [] end.
Definition word_confirm (k : Z) : PMsgConfirmBatch := {|
  pcb_nonce := 2; pcb_token_contract := address_to_string (eth 4);
  pcb_eth_signer := address_to_string (eth k); pcb_orchestrator := address_to_string (eth k);
  pcb_signature := of_bytes (signature_to_bytes (sign_ethereum_msg (k : EthPrivateKey)
    (hash_of (encode_tx_batch_confirm word_id sample_batch)))) |}.

Definition following : handler (W := world) := λ R e w,
  match e in callE R return option (R * world) with
  | CheckForEvents from (Some to) _ signature =>
      Some (Ok (logs_of (history "a token") from to signature), w)
  | CheckForEvents _ None _ _ => None
  | SimulateTransaction _ _ payload _ =>
      Some (Ok (be_split 32 (if bool_decide (payload = id_payload) then state_gravityId (used "a token") else 0)), w)
  | QBatchConfirms _ _ => Some (Ok [word_confirm 1; word_confirm 3], w)
  | QValsetConfirmsByNonce _ => None
  | QLogicConfirms _ _ => None
  | e => nodes _ e w
  end.
Definition relayed_log : log :=
  (run following 300 (relayer_main_loop (1 : EthPrivateKey) contract run_config None) fresh_world []).2.

(** A payload names its function first, so a getter's payload is no other's. *)
Lemma other_payload f args payload : encode_call f args = Ok payload →
  bool_decide (take 8 (to_bytes f) = take 8 (to_bytes "state_gravityId()")) = false → (8 ≤ length (to_bytes f))%nat →
  bool_decide (payload = id_payload) = false.
Proof.
  intros [= <-] Hf%bool_decide_eq_false Hl. apply bool_decide_eq_false. intros H.
  apply (f_equal (take 8)) in H. rewrite take_app_le in H by done. by rewrite H in Hf.
Qed.
Lemma view_payload f args z payload :
  view (used "a token") f args z → encode_call f args = Ok payload →
  z = if bool_decide (payload = id_payload) then state_gravityId (used "a token") else 0.
Proof.
  intros Hv Hp. destruct Hv as [|token|id _|].
  - injection Hp as <-. by vm_compute.
  - rewrite (other_payload _ _ _ Hp) by (vm_refl || (vm_compute; lia)). unfold lastBatchNonce.
    replace (state_lastBatchNonces (used "a token")) with (∅ : gmap EthAddress Z) by (by vm_compute).
    by rewrite lookup_empty.
  - rewrite (other_payload _ _ _ Hp) by (vm_refl || (vm_compute; lia)). unfold lastLogicCallNonce.
    replace (state_invalidationMapping (used "a token")) with (∅ : gmap Z Z) by (by vm_compute).
    by rewrite lookup_empty.
  - rewrite bool_decide_eq_true_2; [done|]. by injection Hp as <-.
Qed.

Lemma history_below h : 400 ≤ h → Forall (λ d : GravityEvent * Z, d.2 ≤ h) (history "a token").
Proof. intros H. unfold history. repeat (apply Forall_cons; split; [cbn [snd]; lia|]). apply Forall_nil_2. Qed.
Definition word_confirms : list BatchConfirmResponse :=
  match try_map batch_confirm_try_from [word_confirm 1; word_confirm 3] with Done (Ok cs) => cs | _ => [] end.
Lemma confirms_parse : try_map batch_confirm_try_from [word_confirm 1; word_confirm 3] = Done (Ok word_confirms).
Proof. vm_refl. Qed.
Lemma confirms_plain : Forall plain_v word_confirms.
Proof.
  assert (forallb (λ c, sig_v (get_signature c) =? 27) word_confirms = true) as H by vm_refl.
  apply Forall_forall. intros c Hc. rewrite forallb_forall in H. left. apply Z.eqb_eq, H. by apply list_elem_of_In.
Qed.
Lemma sample_parse : batch_try_from (batch_into sample_batch) = Done (Ok sample_batch).
Proof. vm_refl. Qed.

(** Inverting equations of large terms, without looking into the terms. *)
Lemma answer_inv {A B} (a x : A) (w w' : B) : Some (a, w) = Some (x, w') → a = x.
Proof. by intros [=]. Qed.
Lemma ok_inv {A E} (a x : A) : Ok a = @Ok A E x → a = x.
Proof. by intros [=]. Qed.
Lemma done_inv {A} (a x : A) : Done a = Done x → a = x.
Proof. by intros [=]. Qed.

Lemma following_follows : ∀ Y (e : callE Y) w x w', following Y e w = Some (x, w') →
  follows (used "a token") (history "a token") contract Y e x.
Proof.
  intros Y e w x w'. destruct e; try (intros _; exact I); unfold following, nodes, follows; cbv beta iota;
    try discriminate.
  - intros <-%answer_inv h <-%ok_inv. split; [split; vm_compute; discriminate|by apply history_below].
  - intros <-%answer_inv val f args z <-%ok_inv _ Hv Hp. rewrite (view_payload _ _ _ _ Hv Hp).
    split; [apply length_be_split|]. destruct (bool_decide _); [vm_refl|done].
  - destruct end_block as [to|]; [|discriminate]. by intros <-%answer_inv logs <-%ok_inv.
  - intros <-%answer_inv protos p b <-%ok_inv ->%list_elem_of_singleton Hb. rewrite sample_parse in Hb.
    apply done_inv, ok_inv in Hb as <-. split; [apply sample_fees_nonneg|by vm_compute].
  - intros <-%answer_inv cs confirms <-%ok_inv Hc. rewrite confirms_parse in Hc.
    apply done_inv, ok_inv in Hc as <-. apply confirms_plain.
  - by intros <-%answer_inv protos p c <-%ok_inv Hp%not_elem_of_nil.
Qed.

Lemma history_fitting : Forall fitting (history "a token").
Proof. repeat constructor; vm_compute; discriminate. Qed.

Lemma used_room : state_lastEventNonce (used "a token") + 1 < 2 ^ 256.
Proof. by vm_compute. Qed.

(** The batch is sent, and decided as the theorem says. *)
Lemma relayed_decided_witness : ∃ i x,
  relayed_log !! i = Some x ∧ is_send x = true ∧
  on_send (λ to payload value _ _ _ l, to = contract ∧ value = 0 ∧
    decided (used "a token") payload l) _ (ent_call x) (take i relayed_log).
Proof.
  exists 62%nat. apply (run_sat_picked following _ _ _ _ _ _ _ is_send following_follows
    (relayed_decided (used "a token") (history "a token") contract (1 : @EthPrivateKey concrete_ext) run_config
       None (history_recorded _) history_decodable history_fitting used_room)). vm_refl.
Defined.
End Flow.
