(* ===== verification/OracleLive.v ===== *)
(** * The oracle makes progress

    Safety says what the oracle may claim; here, what it does: against nodes that answer with the
    events of the contract, a round of the oracle returns without a panic, with every pending event
    claimed in one transaction. *)

From ITree Require Import ITree.
From S2P Require Import Prelude Bytes Proto External Evm Float Instances Contract ContractTheory.
From S2P Require Import Types Signatures Valset ValsetTheory Batches LogicCall EthEvents EthEventsTheory.
From S2P Require Import Messages Acceptance ContractRun Effects CosmosSend Queries Submit SubmitTheory CosmosTheory.
From S2P Require Import Join Relayer RelayerSearch RelayerTheory RelayerRun Oracle Orchestrator OracleTheory.
From S2P Require Import OrchestratorTheory OrchestratorRun SignerLive EventFlow Relayed FlowRun.
From Stdlib Require Import Sorted Strings.Byte.

(** ** Claims are built *)

Section ClaimsBuilt.
Context `{X : Ext} `{XL : !ExtLaws X} `{VM : !Evm} `{BD : Build}.

Definition built (c : eval Msg) : Prop := ∃ m, c = Done m.
Lemma add_claims_built {E} (nonce_of : E → Z) claim (events : list E) m :
  Forall (λ e, built (claim e)) events → ∃ m', add_claims nonce_of claim events m = Done m'.
Proof.
  intros H. induction H as [|e events [c Hc] _ IH] in m |- *; [by eexists|]. simpl. rewrite Hc. apply IH.
Qed.

Lemma height_built h : is_u64 h → h < U64_MAX → ∃ b, claim_height h = Done b.
Proof.
  intros Hh Hlt. unfold claim_height. unfold is_u64 in Hh. rewrite downcast_uint256_eq by lia.
  rewrite (proj2 (Z.ltb_lt h U64_MAX)) by done. by eexists.
Qed.

(** Of events the decoders read, below the last block that has a claim. *)
Variables (prefix : string) (own : CosmosAddress) (evs : list dated).
Hypothesis Hprefix : ∀ a, is_ok (cosmos_address_to_bech32 a prefix) = true.
Hypothesis Hevs : Forall (λ d, decodable d ∧ d.2 < U64_MAX) evs.

Lemma kind_built {E} (as_event : dated → option E) (claim : E → eval Msg) :
  (∀ d e, decodable d → d.2 < U64_MAX → as_event d = Some e → built (claim e)) →
  Forall (λ e, built (claim e)) (omap as_event evs).
Proof using Hevs.
  intros H. apply Forall_forall. intros e He. apply list_elem_of_omap in He as (d & Hd & Hs).
  rewrite Forall_forall in Hevs. destruct (Hevs d Hd). by eapply H.
Qed.

Ltac built_tac := 
  let d := fresh "d" in let Hh := fresh "Hh" in let Hlt := fresh "Hlt" in
  intros d e (Hh & _) Hlt; unfold as_deposit, as_withdraw, as_deploy, as_valset;
  destruct d as [[] h]; try done; simpl in Hh, Hlt; destruct (height_built h Hh Hlt) as [b Hb].

Lemma claims_built : ∃ m, 
  ordered_claims prefix own (omap as_deposit evs) (omap as_withdraw evs) (omap as_deploy evs) [] (omap as_valset evs) = Done m.
Proof using Hprefix Hevs XL.
  unfold ordered_claims.
  edestruct (add_claims_built stc_event_nonce (deposit_claim prefix own)) as [m1 ->].
  { apply kind_built. built_tac. simpl. destruct (cosmos_address_from_bytes _ _) as [a|]; [|done]. intros [= <-].
    unfold deposit_claim. simpl. rewrite Hb. simpl. specialize (Hprefix a).
    destruct (cosmos_address_to_bech32 a prefix); [by eexists|done]. }
  cbn [eval_bind]. edestruct (add_claims_built tbe_event_nonce (withdraw_claim own)) as [m2 ->].
  { apply kind_built. built_tac. intros [= <-]. unfold withdraw_claim. simpl. rewrite Hb. by eexists. }
  cbn [eval_bind]. edestruct (add_claims_built ede_event_nonce (deploy_claim own)) as [m3 ->].
  { apply kind_built. built_tac. intros [= <-]. unfold deploy_claim. simpl. rewrite Hb. by eexists. }
  cbn [eval_bind add_claims]. apply add_claims_built.
  apply kind_built. built_tac. intros [= <-]. unfold valset_claim. simpl. rewrite Hb. by eexists.
Qed.
End ClaimsBuilt.

Section Live.
Context `{X : Ext} `{XL : !ExtLaws X} `{VM : !Evm} `{BD : Build}.
Implicit Types (A : env) (l : log).

Context (prefix : string) (key : CosmosPrivateKey) (fee : Coin) (g : EthAddress).
Context (own : CosmosAddress) (text : string).
Context (Hown : cosmos_key_to_address key prefix = Ok own).
Context (Htext : cosmos_address_to_bech32 own prefix = Ok text).
Context (Hprefix : ∀ a, is_ok (cosmos_address_to_bech32 a prefix) = true).
Context (Hsign : ∀ msgs args, is_ok (sign_std_msg key msgs args MEMO) = true).

(** The contract and its history; the oracle has watched up to [start], and can read what follows. *)
Context (st : Gravity) (history : list dated) (start : Z).
Context (Hrec : recorded st history) (Hdec : Forall (λ d, start ≤ d.2 → decodable d) history).

(** The node's latest block, and the last one that counts as final on its network. *)
Context (head net latest : Z) (Hlatest : u256_sub head (block_delay net) = Done latest) (Hmax : latest < U64_MAX).

(** A nonce the chain may have for this oracle: it has not missed an event from before [start]. *)
Definition plausible_nonce (n : Z) : Prop := 0 ≤ n ∧ Forall (λ d, n < event_nonce d.1 → start ≤ d.2) history.

(** Both nodes are up and answer truthfully; what is posted is taken. *)
Definition node_answers : env := λ R e,
  match e in callE R return R → Prop with
  | EthBlockNumber => λ r, r = Ok head
  | NetVersion => λ r, r = Ok net
  | ContactGetChainStatus => λ r, ∃ h, r = Ok (Moving h)
  | CheckForEvents from (Some to) _ signature => λ r, r = Ok (logs_of history from to signature)
  | QLastEventNonce _ => λ r, ∃ n, r = Ok n ∧ plausible_nonce n
  | ContactGetMessageArgs _ _ => λ r, is_ok r = true
  | ContactSendTransaction _ => λ r, is_ok r = true
  | ContactWaitForTx _ _ => λ r, is_ok r = true
  | _ => λ _, True
  end.
Lemma node_takes_posts : takes_posts node_answers.
Proof. split_and!; done. Qed.

(** What is due when the chain has nonce [seen] from the oracle: the claims [m] of the events above it,
    if there are any, in one transaction. *)
Definition due_claims (seen : Z) (m : list (Z * Msg)) : Prop :=
  prod_map id Done <$> m = filed prefix own <$> pending seen latest history.
Definition transaction (m : list (Z * Msg)) : list (list Msg) := match m with [] => [] | _ => [m.*2] end.
(** The chain was asked again at the end, and still had that nonce. *)
Definition stuck_at (seen : Z) l : Prop := ∃ l0, l = l0 ++ [mkEntry _ (QLastEventNonce text) (Ok seen)].

(** The claims of what was found above the nonce. *)
Lemma pending_claims seen : plausible_nonce seen →
  let new := above seen (events_of_history (in_blocks start latest history)) in ∃ m,
  ordered_claims prefix own (ev_deposits new) (ev_withdraws new) (ev_deploys new) (ev_calls new) (ev_valsets new) = Done m ∧
  due_claims seen m ∧ holds_claims (claims_for prefix own new) m.
Proof using Hrec Hdec Hmax Hprefix XL.
  intros [H0 Hfrom] new.
  assert (Forall (λ d : dated, decodable d ∧ d.2 < U64_MAX)
    (filter (λ d : dated, seen < event_nonce d.1) (in_blocks start latest history))) as Hall.
  { rewrite Forall_forall in Hdec |- *. intros d [_ [[Hs He] Hin]%list_elem_of_filter]%list_elem_of_filter.
    split; [by apply Hdec|lia]. }
  destruct (claims_built prefix own _ Hprefix Hall) as [m Hm]. exists m.
  assert (holds_claims (claims_for prefix own new) m) as Hh.
  { unfold new. rewrite above_history. by apply ordered_claims_spec. }
  split_and!; [unfold new; by rewrite above_history| |done].
  destruct (claims_are_pending prefix own history start latest seen m) as [H _]; try done.
  - exact (recorded_numbered _ _ Hrec).
  - apply Hrec.
Qed.

(** The decoders on the node's answers. *)
Lemma answers_decode :
  let evs := events_of_history (in_blocks start latest history) in
  let logs := logs_of history start latest in
  valset_updated_from_logs (logs VALSET_UPDATED_EVENT_SIG) = Done (Ok (ev_valsets evs)) ∧
  batch_executed_from_logs (logs TRANSACTION_BATCH_EXECUTED_EVENT_SIG) = Done (Ok (ev_withdraws evs)) ∧
  send_to_cosmos_from_logs (logs SENT_TO_COSMOS_EVENT_SIG) = Done (Ok (ev_deposits evs)) ∧
  erc20_deployed_from_logs (logs ERC20_DEPLOYED_EVENT_SIG) = Done (Ok (ev_deploys evs)) ∧
  logic_call_executed_from_logs (logs LOGIC_CALL_EVENT_SIG) = Done (Ok (ev_calls evs)).
Proof using Hdec XL.
  assert (Forall decodable (in_blocks start latest history)) as Hd.
  { rewrite Forall_forall in Hdec |- *. intros d [[Hs _] Hin]%list_elem_of_filter. by apply Hdec. }
  unfold valset_updated_from_logs, batch_executed_from_logs, send_to_cosmos_from_logs, erc20_deployed_from_logs,
    logic_call_executed_from_logs. split_and!.
  - by rewrite (logs_decode _ _ _ _ _ _ valsets_decode) by (done || apply as_kinds).
  - by rewrite (logs_decode _ _ _ _ _ _ withdraws_decode) by (done || apply as_kinds).
  - by rewrite (logs_decode _ _ _ _ _ _ deposits_decode) by (done || apply as_kinds).
  - by rewrite (logs_decode _ _ _ _ _ _ deploys_decode) by (done || apply as_kinds).
  - unfold logs_of. rewrite filter_none; [done|]. intros d Hin Hs. rewrite Forall_forall in Hd.
    specialize (Hd d Hin). by destruct d as [[] h], Hd as (_ & _ & []).
Qed.
Lemma deposits_logged deposits : ∃ u, log_deposits prefix deposits = Done u.
Proof using Hprefix.
  destruct deposits as [|e deposits]; [by eexists|]. simpl. destruct info_enabled; [|by eexists].
  specialize (Hprefix (stc_destination e)). destruct (cosmos_address_to_bech32 (stc_destination e) prefix); [by exists tt|done].
Qed.

Definition claimed l (r : result Uint256 GravityError) l' : Prop := ∃ seen m,
  saw l' (QLastEventNonce text) (Ok seen) ∧ due_claims seen m ∧ posted key fee own (transaction m) l l' ∧
  (r = Ok latest ∨ m ≠ [] ∧ is_err r = true ∧ stuck_at seen l').

Lemma get_nonce_lives l :
  sat no_panic node_answers (get_last_event_nonce_for_validator own prefix) l (λ r l', ∃ n,
    r = Ok n ∧ plausible_nonce n ∧ l' = l ++ [mkEntry _ (QLastEventNonce text) (Ok n)]).
Proof using Htext.
  unfold get_last_event_nonce_for_validator. rewrite Htext. apply sat_pure_bind; [done|]. intros t [= <-].
  apply sat_call_try; [done| |by intros err (n & ? & _)]. intros n (n' & [= <-] & Hn). apply sat_ret. by exists n.
Qed.

Lemma claim_events_lives l :
  let logs := logs_of history start latest in
  sat no_panic node_answers (claim_events prefix key own fee latest (logs VALSET_UPDATED_EVENT_SIG)
    (logs TRANSACTION_BATCH_EXECUTED_EVENT_SIG) (logs SENT_TO_COSMOS_EVENT_SIG) (logs ERC20_DEPLOYED_EVENT_SIG)
    (logs LOGIC_CALL_EVENT_SIG)) l (claimed l).
Proof using Hown Htext Hprefix Hsign Hrec Hdec Hmax XL.
  intros logs. unfold claim_events.
  pose proof answers_decode as (D1 & D2 & D3 & D4 & D5). unfold logs. rewrite D1, D2, D3, D4, D5.
  do 5 (apply sat_pure_try; [done| |done]; intros ? [= <-]).
  eapply sat_run_try; [apply get_nonce_lives| |by intros err l' (n & ? & _)].
  intros seen l1 (n & [= <-] & Hn & ->). destruct (pending_claims seen Hn) as (m & Hm & Hdue & Hh). cbv zeta.
  unfold valset_updated_filter, send_to_cosmos_filter, batch_executed_filter, erc20_deployed_filter,
    logic_call_executed_filter. rewrite !filter_by_nonce_eq.
  set (found := in_blocks start latest history) in *. set (evs := events_of_history found) in *.
  change (filter (λ x, seen < vue_event_nonce x) (omap as_valset found)) with (ev_valsets (above seen evs)).
  change (filter (λ x, seen < stc_event_nonce x) (omap as_deposit found)) with (ev_deposits (above seen evs)).
  change (filter (λ x, seen < tbe_event_nonce x) (omap as_withdraw found)) with (ev_withdraws (above seen evs)).
  change (filter (λ x, seen < ede_event_nonce x) (omap as_deploy found)) with (ev_deploys (above seen evs)).
  change (filter (λ x, seen < lce_event_nonce x) []) with (ev_calls (above seen evs)).
  destruct (deposits_logged (ev_deposits (above seen evs))) as [u Hu]. rewrite Hu.
  apply sat_pure_bind; [done|]. intros _ _.
  set (l1 := l ++ _).
  assert (posted key fee own [] l l1) as Hp1 by (apply posted_nil; [unfold l1; sub|by apply posts_snoc]).
  assert (saw l1 (QLastEventNonce text) (Ok seen)) as Hseen by (unfold l1; solve_saw).
  destruct (nonempty_events (above seen evs) prefix own) as [Hsome Hnone].
  match type of Hsome with ?b = true → _ => destruct b eqn:Hfound end.
  - assert (m ≠ []) as Hne by (eapply claims_nonempty; [done|by apply Hsome]).
    assert (transaction m = [m.*2]) as Ht by (by destruct m).
    unfold send_ethereum_claims. rewrite Hown.
    eapply sat_run_try with (Q0 := λ r l', is_ok r = true ∧ posted key fee own [m.*2] l1 l'); [| |by intros err l' [? _]].
    + apply sat_pure_bind; [done|]. intros a [= <-]. rewrite Hm. apply sat_pure_bind; [done|]. intros ms [= <-].
      apply send_lives; [done|apply node_takes_posts].
    + intros res l2 [_ Hp2]. assert (posted key fee own (transaction m) l l2) as Hp by (rewrite Ht; by eapply (posted_app _ _ _ [])).
      assert (l1 ⊆ l2) as H12 by apply Hp2.
      eapply sat_run_try; [apply get_nonce_lives| |by intros err l' (n & ? & _)].
      intros new l3 (n & [= <-] & _ & ->).
      assert (posted key fee own (transaction m) l (l2 ++ [mkEntry _ (QLastEventNonce text) (Ok new)])) as Hp3.
      { rewrite <- (app_nil_r (transaction m)). eapply posted_app; [exact Hp|]. apply posted_nil; [sub|by apply posts_snoc]. }
      assert (saw (l2 ++ [mkEntry _ (QLastEventNonce text) (Ok new)]) (QLastEventNonce text) (Ok seen)) as Hs3.
      { eapply saw_sub; [|exact Hseen]. etrans; [exact H12|sub]. }
      destruct (Z.eqb_spec new seen) as [->|Hneq]; apply sat_ret; exists seen, m; split_and!; try done.
      * right. split_and!; [done..|]. by exists l2.
      * by left.
  - apply sat_ret. exists seen, m. assert (m = []) as ->.
    { destruct Hh as (_ & _ & Hh). rewrite (Hnone eq_refl) in Hh. destruct m as [|[k c] m]; [done|].
      specialize (Hh k c). destruct Hh as [Hh _]. specialize (Hh (list_elem_of_here _ _)). done. }
    split_and!; [done..|by left].
Qed.

Lemma retry_lives {B E} (e : callE (result B E)) d (x : B) l : no_panic _ e l → (∀ r, node_answers _ e r → r = Ok x) →
  sat no_panic node_answers (retry (call e) d) l (λ y l', y = x ∧ l' = l ++ [mkEntry _ e (Ok x)]).
Proof.
  intros He H. apply sat_retry with (Inv := λ l', l' = l); [|done]. intros l' ->. apply sat_call; [done|].
  intros r Hr%H. by subst r.
Qed.
Lemma terminates_retry_lives {B E} (e : callE (result B E)) d (x : B) : (∀ r, node_answers _ e r → r = Ok x) →
  terminates node_answers (retry (call e) d).
Proof.
  intros H. apply term_iter with (measure := λ _, 0%nat) (Inv := λ _, True); [|done]. intros _ _.
  eapply term_bind; [by apply term_call with (Q := λ r, r = Ok x)|]. intros r ->. by apply term_ret.
Qed.

Lemma check_for_events_lives l : sat no_panic node_answers (check_for_events prefix g key fee start) l (claimed l).
Proof using Hown Htext Hprefix Hsign Hrec Hdec Hlatest Hmax XL.
  unfold check_for_events, get_block_number_with_retry, get_block_delay, get_net_version_with_retry.
  rewrite Hown. apply sat_pure_bind; [done|]. intros a [= <-].
  eapply sat_run; [by apply (retry_lives _ _ head)|]. intros h l1 [-> ->].
  apply sat_bind. eapply sat_run; [by apply (retry_lives _ _ net)|]. intros v l2 [-> ->]. apply sat_ret.
  rewrite Hlatest. apply sat_pure_bind; [done|]. intros b [= <-]. cbv zeta.
  do 5 (apply sat_call_bind; [done|]; intros ? Hx; cbn in Hx; subst).
  match goal with |- sat _ _ _ ?l3 _ => assert (posted key fee own [] l l3) as Hp
    by (apply posted_nil; [sub|by rewrite !posts_snoc]); set (l' := l3) in * end.
  eapply sat_mono; [apply claim_events_lives|]. intros r l'' (seen & m & H1 & H2 & H3 & H4).
  exists seen, m. split_and!; [done|done| |done]. by apply (posted_app _ _ _ [] _ _ _ _ Hp).
Qed.

Lemma terminates_check_for_events : terminates node_answers (check_for_events prefix g key fee start).
Proof.
  unfold check_for_events, get_block_number_with_retry, get_block_delay, get_net_version_with_retry.
  apply terminates_bind; [terminates_tac|]. intros a.
  apply terminates_bind; [by apply (terminates_retry_lives _ _ head)|]. intros h.
  apply terminates_bind; [apply terminates_bind; [by apply (terminates_retry_lives _ _ net)|terminates_tac]|].
  intros delay. unfold claim_events, get_last_event_nonce_for_validator, send_ethereum_claims, sign_and_send.
  terminates_tac.
Qed.

(** C10: a round of the oracle returns, without a panic, against nodes of which the following is assumed.
    Both are up and answer every query; the Ethereum node answers with the events of a reachable
    contract, which the decoders can read from the start block on; the latest block less the network's
    delay does not underflow and is below 2^64-1; each nonce the chain answers is not negative and
    covers every event before the start block; what is posted is accepted; addresses have a text under
    the prefix and the key signs. Then the round has seen a last nonce from the chain and has claimed
    every event above it, up to the last final block, in a single transaction in the order of the
    events, signed with its key (in none if there is no such event), and nothing else is posted. It
    goes on from that block, or stays at its start block, the latter only if it did claim and the
    chain, asked again at the end, still had that nonce. *)
Theorem oracle_claims_due l :
  returns node_answers (oracle_once prefix key g fee start) l (λ next l', ∃ seen m,
    saw l' (QLastEventNonce text) (Ok seen) ∧ due_claims seen m ∧ posted key fee own (transaction m) l l' ∧
    (next = latest ∨ m ≠ [] ∧ next = start ∧ stuck_at seen l')).
Proof using Hown Htext Hprefix Hsign Hrec Hdec Hlatest Hmax XL.
  unfold oracle_once, both_ready. split.
  - eapply sat_run with (Q0 := λ r l', r = true ∧ posted key fee own [] l l').
    + apply sat_call_bind; [done|]. intros n Hn; cbn in Hn; subst n. apply sat_call_bind; [done|]. intros s [h ->].
      apply sat_ret. split; [done|]. apply posted_nil; [sub|by rewrite !posts_snoc].
    + intros r l1 [-> Hp1]. eapply sat_run; [apply check_for_events_lives|].
      intros r l2 (seen & m & H1 & H2 & H3 & H4). pose proof (posted_app _ _ _ [] _ _ _ _ Hp1 H3) as Hp.
      destruct r as [b|e]; apply sat_ret; exists seen, m; (split; [exact H1|]); (split; [exact H2|]);
        (split; [exact Hp|]); naive_solver.
  - apply terminates_bind; [apply terminates_bind; [apply terminates_call|]; intros n;
      apply terminates_bind; [apply terminates_call|]; intros s; destruct n, s as [[]|]; terminates_tac|].
    intros []; [|apply terminates_ret].
    apply terminates_bind; [apply terminates_check_for_events|]. terminates_tac.
Qed.
End Live.

Section LiveRun.
#[local] Existing Instance concrete_ext.
#[local] Existing Instance concrete_laws.
#[local] Existing Instance concrete_evm.
#[local] Existing Instance concrete_evm_laws.
#[local] Existing Instance checked_build.

(** The contract of FlowRun.v, watched from block 300; block 400 is the latest, 394 is final. *)
Lemma oracle_claims_due_witness :
  length (pending 1 394 (history "a token")) = 2%nat ∧
  returns (node_answers (history "a token") 300 400 1)
    (oracle_once "cosmos" signer_key contract user_fee 300) [] (λ next l', ∃ seen m,
      saw l' (QLastEventNonce ("cosmos" +:+ of_bytes (be_split 20 1))) (Ok seen) ∧
      due_claims "cosmos" (cosmos 1) (history "a token") 394 seen m ∧
      posted signer_key user_fee (cosmos 1) (transaction m) [] l' ∧
      (next = 394 ∨ m ≠ [] ∧ next = 300 ∧ stuck_at ("cosmos" +:+ of_bytes (be_split 20 1)) seen l')).
Proof.
  split; [vm_refl|].
  apply (oracle_claims_due "cosmos" signer_key user_fee contract (cosmos 1) _) with (st := used "a token").
  - vm_refl.
  - vm_refl.
  - intros a. reflexivity.
  - intros msgs args. vm_refl.
  - apply history_recorded.
  - eapply Forall_impl; [exact history_decodable|]. intros d Hd _. exact Hd.
  - vm_refl.
  - reflexivity.
Defined.
End LiveRun.
