(* ===== verification/TestRun.v ===== *)
(** * The integration tests, run

    A bridge small enough to execute: the happy path, with two orchestrators scheduled beside it,
    passes, so that what TestTheory.v says of a passed test says something; and a check that passes
    when there is nothing to check. *)

From ITree Require Import ITree.
From S2P Require Import Prelude Bytes Proto External Float Instances Types Valset Messages Effects Host Config.
From S2P Require Import CosmosSend Queries Submit SubmitTheory Join RelayerRun NabtRun.
From S2P Require Import Background TestUtils HappyPath Scenarios TestRunner TestTheory ScenarioTheory.
From Stdlib Require Import Strings.Byte.

Section Run.
#[local] Existing Instance concrete_ext.
#[local] Existing Instance concrete_laws.
#[local] Existing Instance checked_build.
#[local] Existing Instance concrete_tools.

Definition miner : @EthPrivateKey concrete_ext := 9.
Definition token : @EthAddress concrete_ext := eth 50.

(** A claim reads from the payload of the deposit it attests to. *)
Definition claim_of (payload : bytes) : MsgSendToCosmosClaim :=
  let args := drop (S (length (to_bytes "sendToCosmos(address,bytes32,uint256)"))) payload in {|
    msc_event_nonce := 1; msc_block_height := 1; msc_token_contract := of_bytes (take 20 (drop 12 args));
    msc_amount := dec_string (be (take 32 (drop 64 args)));
    msc_ethereum_sender := address_to_string (eth_key_to_address miner);
    msc_cosmos_receiver := of_bytes (take 20 (drop 44 args)); msc_orchestrator := "" |}.
#[local] Instance concrete_test_tools : @TestTools concrete_ext := {|
  eth_key_parse s := if String.prefix "0x" s then Ok miner else Err "bad key"%string;
  eth_key_to_hex k := dec_string k;
  cosmos_key_from_secret b := be b;
  eth_key_eqb := Z.eqb;
  cosmos_key_eqb := Z.eqb;
  signed_tx_bytes tx k _ := Ok (tx_data tx);
  web3_error_string e := e;
  DAI_CONTRACT_ADDRESS := addr 60;
  coin_to_json c := Ok (denom c);
  decode_send_to_cosmos_claim b := match b with x01 :: payload => Ok (claim_of payload) | _ => Err "another message"%string end;
  decode_valset_updated_claim b := Err "another message"%string;
|}.
#[local] Instance concrete_statics : @Statics concrete_ext :=
  mkStatics _ "cosmos" "stake" "http://localhost:9090" "http://localhost:26657" "http://localhost:8545" miner.

(** What has happened: the contract's nonces and the newest user's balances; the deposit on its way,
    the last payload; whether the set is to change; how many transactions were posted; the scheduler's
    turn. *)
Record ledger := mkLedger { l_valset : Z; l_event : Z; l_batch : Z; l_cosmos : Z; l_ethereum : Z }.
Record bridge := mkBridge {
  b_ledger : ledger; b_deposit : option bytes; b_payload : bytes; b_delegated : bool; b_posts : nat; b_turn : nat }.
Definition fresh_bridge : bridge := mkBridge (mkLedger 0 1 0 0 0) None [] false 0 0.
Definition with_ledger (l : ledger) (w : bridge) : bridge :=
  mkBridge l (b_deposit w) (b_payload w) (b_delegated w) (b_posts w) (b_turn w).
Definition with_delegated (d : bool) (w : bridge) : bridge :=
  mkBridge (b_ledger w) (b_deposit w) (b_payload w) d (b_posts w) (b_turn w).
Definition with_deposit (d : option bytes) (w : bridge) : bridge :=
  mkBridge (b_ledger w) d (default (b_payload w) d) (b_delegated w) (b_posts w) (b_turn w).
Definition one_post (w : bridge) : bridge :=
  mkBridge (b_ledger w) (b_deposit w) (b_payload w) (b_delegated w) (S (b_posts w)) (b_turn w).
Definition next_turn (w : bridge) : bridge :=
  mkBridge (b_ledger w) (b_deposit w) (b_payload w) (b_delegated w) (b_posts w) (S (b_turn w)).
Definition new_user (w : bridge) : bridge :=
  with_ledger (mkLedger (l_valset (b_ledger w)) (l_event (b_ledger w)) (l_batch (b_ledger w)) 0 0) w.

(** The happy path posts two duplicate claims before the batch is requested; the relay market posts
    only what requests its two batches, the second of which is left. *)
Section Nodes.
Context (market : bool).
Definition last_request : nat := if market then 2 else 4.
Definition batched (cosmos : Z) : Z := if market then 200 * one_eth else cosmos - 5.

(** While a program sleeps, a new set is relayed, and a batch that was requested executed. *)
Definition time_passes (w : bridge) : bridge :=
  let '(mkLedger valset event batch cosmos ethereum) := b_ledger w in
  let executed := (b_posts w =? last_request)%nat && (batch =? 0) in
  with_delegated false (with_ledger
    (mkLedger (if b_delegated w then valset + 1 else valset) event (if executed then batch + 1 else batch)
       cosmos (if executed then batched cosmos else ethereum)) w).
(** In the next block a deposit arrives. *)
Definition next_block (w : bridge) : bridge :=
  let '(mkLedger valset event batch cosmos ethereum) := b_ledger w in
  match b_deposit w with
  | Some payload =>
      let amount := be (take 32 (drop 64 (drop (S (length (to_bytes "sendToCosmos(address,bytes32,uint256)"))) payload))) in
      with_deposit None (with_ledger (mkLedger valset (event + 1) batch (cosmos + amount) ethereum) w)
  | None => w
  end.

Definition is_call (f : string) (payload : bytes) : bool := String.prefix f (of_bytes payload).
Definition nonce_answer (l : ledger) (payload : bytes) : Z :=
  if is_call "state_lastValsetNonce()" payload then l_valset l
  else if is_call "state_lastEventNonce()" payload then l_event l else l_batch l.

Definition test_nodes : handler (W := bridge) := λ R e w,
  match e in callE R return option (R * bridge) with
  | GrpcConnect _ => Some (Ok tt, w)
  | EthBlockNumber => Some (Err ("no block yet" : Web3Error), w)
  | NetVersion => Some (Ok 15, w)
  | EthGetTransactionCount _ => Some (Ok 3, w)
  | SimulateTransaction _ _ payload _ => Some (Ok (be_split 32 (nonce_answer (b_ledger w) payload)), w)
  | CheckErc20Approved _ _ _ => Some (Ok true, w)
  | SendTransaction to payload _ _ _ _ => Some (Ok 77, if decide (to = contract) then with_deposit (Some payload) w else w)
  | EthSendRawTransaction _ => Some (Ok 78, w)
  | WaitForTransaction _ _ => Some (Ok tt, w)
  | GetErc20Balance _ _ => Some (Ok (l_ethereum (b_ledger w)), w)
  | QAttestations _ => Some (Ok [mkAttestation true [] 5 (Some ("claim"%string, x01 :: b_payload w));
                                 mkAttestation true [] 6 (Some ("claim"%string, [x02]))], w)
  | QLastPendingBatch _ => Some (Ok None, w)
  | ContactGetBalances _ =>
      let held := l_cosmos (b_ledger w) in
      Some (Ok (mkCoin "stake" 1 :: if held =? 0 then [] else [mkCoin "nabtoken" held]), w)
  | ContactGetChainStatus => Some (Ok Syncing, w)
  | ContactGetMessageArgs _ _ => Some (Ok tt, w)
  | ContactSendTransaction _ => Some (Ok [], one_post w)
  | ContactWaitForTx _ _ => Some (Ok [], w)
  | ContactWaitForNextBlock _ => Some (Ok tt, next_block w)
  | ContactDelegate _ _ _ _ _ => Some (Ok [], with_delegated true w)
  | RandomBytes n => Some (be_split n (5 + Z.of_nat (b_turn w)), new_user w)
  | RandomBelow _ => Some (O, w)
  | Sleep _ => Some (tt, time_passes w)
  | TimerFired _ => Some (market && (b_posts w =? 4)%nat, w)
  | WrapEth _ _ => Some (Ok 79, w)
  | SwapUniswap _ _ _ _ => Some (Ok 80, w)
  | ContactGetValidators status =>
      Some (Ok [mkValidator (cosmos_address_to_string (cosmos 21)) (String.eqb status "BOND_STATUS_UNBONDING")], w)
  | ContactGetActiveValidators => Some (Ok [], w)
  | Pick n => Some (b_turn w, next_turn w)
  | _ => None
  end.

End Nodes.

(** ** The runs *)

Definition validator (n : Z) : @ValidatorKeys concrete_ext :=
  mkValidatorKeys (n : EthPrivateKey) (10 + n : CosmosPrivateKey) (20 + n : CosmosPrivateKey).
Definition validators : list ValidatorKeys := [validator 1; validator 2].

Definition fuel : nat := 60 * 60.
Definition happy_run : outcome unit * log :=
  run (test_nodes false) fuel (happy_path_test validators contract token false) fresh_bridge [].
Definition market_run : outcome unit * log :=
  run (test_nodes true) fuel (relay_market_test validators contract) fresh_bridge [].
Definition evidence_run : outcome unit * log :=
  run (test_nodes false) fuel (evidence_based_slashing [validator 1; validator 2; validator 3] contract) fresh_bridge [].

(** A test that returns has seen what it promises. *)
Lemma run_passes {W} (h : handler (W := W)) (t : io unit) w (Q : unit → log → Prop) r :
  passes t Q → r = run h fuel t w [] → r.1 = Returned tt → r.1 = Returned tt ∧ Q tt r.2.
Proof.
  intros Ht E Hr. split; [done|]. apply (run_sat h free any_env fuel t w [] Q tt); [done|exact Ht|].
  rewrite <- E. clear E. destruct r as [o l]. cbn [fst snd] in *. by rewrite Hr.
Qed.

Lemma happy_returns : happy_run.1 = Returned tt.
Proof. vm_refl. Qed.
Lemma happy_path_passed_witness :
  happy_run.1 = Returned tt ∧ happy_path_shown validators contract false token happy_run.2.
Proof.
  eapply run_passes with (Q := λ _, happy_path_shown validators contract false token);
    [apply (happy_path_passed validators contract token false)|
    unfold happy_run; reflexivity|apply happy_returns].
Defined.

Lemma market_returns : market_run.1 = Returned tt.
Proof. vm_refl. Qed.
Lemma relay_market_passed_witness : market_run.1 = Returned tt ∧
  (good_batch_shown validators contract DAI_CONTRACT_ADDRESS ▷
   bad_batch_shown validators contract DAI_CONTRACT_ADDRESS) market_run.2.
Proof.
  eapply run_passes with (Q := λ _, good_batch_shown validators contract DAI_CONTRACT_ADDRESS ▷
    bad_batch_shown validators contract DAI_CONTRACT_ADDRESS);
    [apply (relay_market_passed validators contract)|unfold market_run; reflexivity|apply market_returns].
Defined.

Lemma evidence_returns : evidence_run.1 = Returned tt.
Proof. vm_refl. Qed.
Lemma evidence_passed_witness :
  evidence_run.1 = Returned tt ∧ slashed contract (validator 1) (validator 2) evidence_run.2.
Proof.
  eapply run_passes with (Q := λ _, slashed contract (validator 1) (validator 2));
    [apply (evidence_passed [validator 1; validator 2; validator 3] contract (validator 1) (validator 2) eq_refl eq_refl)
    |unfold evidence_run; reflexivity|apply evidence_returns].
Defined.

(** Users as they were meant: to send from one address, and receive at another. *)
Definition two_addresses (n : Z) : @BridgeUserKey concrete_ext := {|
  user_eth_address := eth n; user_eth_key := n; user_cosmos_address := cosmos n; user_cosmos_key := n;
  user_eth_dest_address := eth (100 + n); user_eth_dest_key := 100 + n |}.
Lemma stress_test_needs_one_address_witness :
  passes (check_withdraws_from_ethereum [two_addresses 1; two_addresses 2] (two_addresses 2) [token] 7) (λ _ _, False).
Proof.
  apply (stress_test_needs_one_address [two_addresses 1; two_addresses 2] (two_addresses 2) [token] 7).
  apply Forall_forall. repeat constructor; by vm_compute.
Defined.

(** The check of the attestations of validator sets passes when there is none. *)
Example attestation_check_vacuous :
  (run (test_nodes false) 50 (check_valset_update_attestation validators) fresh_bridge []).1 = Returned tt.
Proof. vm_refl. Qed.
End Run.
